(* ===== verification/_CoqProject ===== *)
-Q . S2P
Prelude.v
Text.v
Float.v
Common.v
Json.v
MetadataSM.v
MetadataInv.v
MetadataSpec.v
MetadataTyped.v
MetadataLease.v
RaftStore.v
RaftRecovery.v
MetadataService.v
Watermark.v
MetadataCache.v
RaftTransport.v
Http.v
ClientRecovery.v
HttpMetadata.v
ClientHealth.v
Placement.v
EcCodec.v
Checksum.v
HttpApi.v
HttpCluster.v
WriteBatcher.v
WritePipeline.v
EcWritePipeline.v
ReadTypes.v
BlockHandler.v
Ublk.v
ReadPipeline.v
DiskInventory.v
FileSystem.v
ExtentStore.v
ExtentRecovery.v
Auth.v
Protocol.v
RaftRpc.v
DataNode.v
DataNodeSpec.v
NodeStorage.v
OpLog.v
TcpClient.v
TcpCluster.v
Gossip.v
GossipCluster.v
Config.v
Node.v
RateLimit.v
Repair.v
Drain.v
Scrub.v
Rebalance.v
Cli.v
CliCluster.v
Metrics.v
Harness.v
HarnessCluster.v
