(* ===== verification/Prelude.v ===== *)
(** * Blockyard: a verification development

    Blockyard is a replicated block store.  Metadata (volumes, nodes, disks, extent
    mappings, write leases) is a state machine replicated by Raft; data is stored
    in extents on data nodes, replicated or erasure coded; a client exposes a
    volume as a kernel block device.  A client write is split at extent boundaries,
    sent to the nodes a hash of the volume and extent number designates and counted
    by acknowledgements; a client read asks the same nodes.  The client also caches
    metadata, holds a write lease and recovers in-flight operations by asking the
    metadata service.  Nodes find each other by gossip; background workers scrub,
    repair, drain and rebalance disks within a budget of tokens.  Clients and operators
    reach the metadata through an HTTP API that every node serves; a node joins the
    cluster through the same API.

    ** Files and the code they model

    - [Prelude]: machine integers, results and panics, ranges, ordered maps, stable
      sorting, hash iteration; the lemmas, tactics and hint database shared below.
      [Text], [Float], [Json]: what the sources use of strings, of f64 and of serde's
      derived readers and writers.
    - [Common]: blockyard-common (id, error, protection, disk_state, lease).
    - [MetadataSM]: blockyard-raft state_machine, request, response; one definition
      per request arm and per query.  [MetadataInv]: the state invariant and its
      preservation by every request.  [MetadataSpec]: the abstract specification
      (module [CommitSpec]: a flat map of committed mappings with compare-and-swap)
      and the refinement, query and batch theorems.  [MetadataTyped]: the widths of
      the integers.  [MetadataLease]: fencing, preemption, cleanup, and node
      registration.
    - [RaftStore]: store.rs and persistent_store.rs, each redb transaction with its
      failure points.  [RaftRecovery]: refinement of the in-memory store by the
      persistent one, crash and replay, snapshots.
    - [MetadataService]: service.rs over the openraft client, class [Raft] with the
      laws [RaftLaws] of a replicated log, discharged by a single node.
    - [RaftTransport], [RaftRpc]: blockyard-raft network, rpc, server, tcp_transport:
      Raft messages over TCP connections that break, and the in-memory router.
    - [Watermark], [MetadataCache], [ClientRecovery], [ClientHealth]: blockyard-ublk
      watermark; metadata_cache and freshness; traits, session, stale_epoch,
      ambiguous_write and crash_recovery; lease_manager and quorum_health.
    - [Placement]: both placement.rs files.  [Checksum]: checksum.rs.  [EcCodec]:
      blockyard-client ec.rs.
    - [WriteBatcher], [WritePipeline], [EcWritePipeline], [BlockHandler]:
      blockyard-ublk write_batcher, write_pipeline, ec_write_pipeline, and
      block_handler.  [Ublk]: ublk.rs, the kernel device in front of the handler.
    - [Http]: requests, routing, and the class of transports.  [HttpMetadata]:
      blockyard-ublk http_metadata_client.rs.  [HttpApi]: blockyard api.rs, one
      definition per handler.  [HttpCluster]: both composed over a network that loses
      messages; an instance of [MetadataClient] with its laws.
    - [ReadTypes], [ReadPipeline]: blockyard-client error, types, traits; selector,
      pipeline and ec_read_pipeline.
    - [DiskInventory]: blockyard-storage disk, health, region, error.
    - [FileSystem]: what the stores use of the operating system: files with a
      volatile and a durable content, system calls that fail or stop the machine,
      crashes; with a small program logic ([triple], [preserves]).  [ExtentStore],
      [ExtentRecovery]: extent.rs over it.
    - [Auth]: blockyard-common auth.rs.  [Protocol]: blockyard-protocol messages,
      version, server; a connection is a function of the bytes that arrive.
    - [DataNode]: service.rs and failure.rs of blockyard-storage, and the handler of
      node.rs.  [DataNodeSpec]: the effect of a write and of a read on what the node
      serves.  [OpLog]: a restart from the durable operation log.  [NodeStorage]: the
      identity of disks (disk.rs) and the start of the storage (node.rs), with the lives
      of a node: requests, crashes and restarts.
    - [Config]: blockyard-common config.rs.  [Node]: the rest of blockyard node.rs:
      bootstrap, join, restart, disk registration, gossip callbacks, background tasks.
    - [TcpClient]: blockyard-ublk tcp_client.rs over a lossy network.
      [TcpCluster]: clients, servers and data nodes composed; instances of
      [DataNodeClient], [DataNodeReader], [DataNodeLaws] and [DataNodeReaderLaws],
      so that the theorems of the pipelines apply to the composed system.
    - [Gossip]: blockyard-gossip member, protocol, swim.  [GossipCluster]: the loops
      of service.rs at all nodes, interleaved with a network that loses, reorders and
      duplicates messages.
    - [RateLimit], [Repair], [Drain], [Scrub], [Rebalance]: the files of
      blockyard-storage background; [Rebalance] also holds the scheduler.
    - [Cli]: blockyard-cli types, client, http_client, cli, commands, mount.
      [CliCluster]: the commands and the mount against the API of [HttpApi].
    - [Metrics]: blockyard-common metrics.rs.  [Harness]: workload, pattern and checker
      of blockyard-test-harness; [HarnessCluster]: its network, vm, cluster, fault,
      snapshot and scenario.

    ** How the code is represented

    Unsigned integers are [N]; additions and products that can overflow wrap at
    their width ([u64_add], [u64_mul], [u8_add]), as in the release profile.
    [Result] is [result]; panics (unwrap, slices out of range, division by zero) are
    [Panic] in [exec].  A [BTreeMap] is a [gmap] read in key order; the order of a
    [HashMap] and the completion order of parallel tasks are parameters ([HashIter],
    [JoinOrder]).  Directories have no state of their own: on XFS, which the code demands, syncing a file
    logs its entry and the directories above it before it.  axum refuses a body that is not
    announced as JSON or is longer than 2 MiB, its documented default.
    Locked structures are functions on their state; where several
    critical sections interleave (the watermark's compare-and-swap loop, the batcher)
    there is a step relation and the theorems hold for every interleaving; so too for
    the token bucket and for gossip, where the steps are an executable function of a
    schedule, one step being what a task does between two awaits.  Atomics are sequentially consistent.  Floating-point numbers are the
    binary64 of the Standard Library.  Traits
    are classes of operations over a world that is passed along.  Libraries are
    classes too: [UuidDisplay] (printing and parsing), [Blake3], [ReedSolomon] (any K
    shards determine the codeword), [Serde], [JsonCodec], [MetaCodec], [RecordCodec]
    (round trip), [Hmac], [RaftTypes] and [RaftStorage] (openraft's types),
    [RaftMembership], [RaftLocal], [RaftMessages] and [RaftProcess] (an openraft node),
    [HttpText] and [AddrText] (what reqwest, axum and std print and read), [TomlText],
    [Statvfs], [Libublk], [Processes] (child processes and signals).  Each class with
    laws has an instance used by the witnesses.

    ** What the theorems show

    - Metadata: request sequences never panic and, unless a batch is refused half-way,
      refine the specification, in which a batch is atomic; the
      indexes by operation and version are sound; failed requests change nothing;
      deletion is complete; epochs are monotone; leases fence and are not preempted;
      every integer keeps its width.
    - Storage of metadata: the persistent log behaves as the in-memory one under
      every transaction failure; restart and replay from the restored position reach
      the uninterrupted state; snapshots transfer it.  Commits the service acknowledges are committed.
    - Client state: watermark linearisability, cache lookups, exactness of crash
      recovery and soundness of ambiguous write resolution, lease validity, quorum history.
    - Data path: the batcher answers every writer once; committed writes are on a
      majority, or on more than K distinct nodes; writes are split exactly; what was
      written is read back, on both kinds of volume; placement is stable and spread;
      the erasure code round trips.
    - Data nodes: storing a new extent is atomic and durable under crashes; recovery
      finds what was acknowledged; an acknowledged write was admitted and is served, also
      after any number of crashes and restarts of the whole node;
      a fenced write has no effect; recorded operations survive a restart; a degraded
      disk never comes back.
    - Client reads: a read returns only data with the expected checksum, of a mapping
      no older than the watermark, and succeeds when one replica keeps answering;
      coded reads decode.
    - Membership: views converge whatever the order of updates; a node is suspected
      only after a ping that stayed unanswered for two timeouts, and declared dead only
      after the suspicion timeout.
    - Maintenance: the budget is bounded and [acquire] returns exactly when it can;
      repairs are served in order, and copies restore the data; a drained disk's extents
      end on other disks once the queue is served; a scrub reports exactly the damage; plans are sound.
    - Wire: connections answer requests in order; without a valid token a
      connection has no effect; the cluster behind TCP keeps the contract that the
      pipelines assume, retries and lost replies included.  A Raft message is served at
      most once, and the TCP transport is equivalent to the router.
    - HTTP: every call and every command that succeeds is its specification at one moment
      of the metadata service, whatever the network loses; an acknowledged commit is in
      the log; over a network that delivers, the HTTP client is equivalent to direct
      calls, up to the size of a document the server reads; a node that joined knows the cluster.
    - Device: a write command is carried out exactly or fails; a read command fills its
      sectors; a mounted volume holds its lease.
    - Harness: the verdict of the checker is characterised exactly; no process of a test
      outlives its cluster; injected faults are undone; scenarios and snapshots are judged
      by what they check.
    - Divergences between code and documentation are theorems too, by evaluation on
      a concrete run; they carry no claim number.

    ** Bounds

    Loops are structural, except the chunk loop of [BlockHandler], whose fuel is the
    number of blocks of the request: [handle_write_splits] proves it is enough.  The
    retry loops recurse on the number of attempts left.  The directory scan of
    [ExtentStore] has the length of the longest path as fuel, and the request loop of
    [Protocol] the length of the byte stream, which every request shortens.  The polls
    of [acquire] are bounded by the tokens missing times the polls that earn one
    ([acquire_returns] proves it enough), and the repair loop by the length of the
    queue ([repairs_restore_content], [drained_extents_relocated]).  Hypotheses that a sum stays
    below 2^64 are stated where the code would wrap.

    ** Not modelled

    The parsing of arguments (clap) and the printing of results (blockyard-cli
    output.rs, main.rs of both programs).  The part of the test harness that drives
    virtual machines and external programs, and its test doubles.  Consensus itself:
    openraft is used through its documented interface ([Raft], [RaftLocal]).  Requests
    that arrive while [process_all] serves the queue.  The
    timers that repeat a maintenance pass, and the spawning and stopping of the tasks
    of a node, are not modelled: the theorems are about each pass and about every
    schedule of the loops.  Handlers of one server run one at a time. *)

From Stdlib Require Export NArith Lia.
From Stdlib Require Import DecimalString DecimalN.
From stdpp Require Export sorting base strings numbers option gmap list.

#[global] Set Default Goal Selector "!".

(** ** Machine integers

    The sources use [u8], [u32], [u64] and [usize]; all are unsigned, so they
    are modelled by [N].  Unchecked arithmetic wraps around (the release profile
    of Cargo.toml leaves overflow checks off); the [saturating_*] and [div_ceil]
    methods of the standard library have their own operators. *)

Definition u64_modulus : N := 18446744073709551616.

Definition u64_max : N := 18446744073709551615.

Definition u8_max : N := 255.

(** [a + b] on u64, wrapping. *)
Definition u64_add (a b : N) : N := (a + b) `mod` u64_modulus.

(** [a - b] on u64, wrapping. *)
Definition u64_sub (a b : N) : N := (a + u64_modulus - b) `mod` u64_modulus.

(** [a * b] on u64, wrapping. *)
Definition u64_mul (a b : N) : N := (a * b) `mod` u64_modulus.

(** [a.saturating_add(b)] on u64. *)
Definition u64_sat_add (a b : N) : N := N.min (a + b) u64_max.

(** [a.saturating_add(b)] on u8. *)
Definition u8_sat_add (a b : N) : N := N.min (a + b) u8_max.

(** [a.saturating_sub(b)]: truncated subtraction is what [N.sub] computes. *)
Definition sat_sub (a b : N) : N := a - b.

(** [a.div_ceil(b)]. *)
Definition div_ceil (a b : N) : N :=
  if decide (a `mod` b = 0)%N then a `div` b else a `div` b + 1.

(** [Display] for u64: decimal digits without leading zeros. *)
Definition u64_to_string (n : N) : string := NilZero.string_of_uint (N.to_uint n).

(** [FromStr] for u64, on the strings [Display] prints. *)
Definition u64_of_string (s : string) : option N :=
  N.of_uint <$> NilZero.uint_of_string s.

(** ** Results and panics *)

(** Rust's [Result], error type first so that it is a monad. *)
Inductive result (E A : Type) :=
  | Ok (a : A)
  | Err (e : E).
Arguments Ok {E A} a.
Arguments Err {E A} e.

#[global] Instance result_mret E : MRet (result E) := λ A a, Ok a.

#[global] Instance result_mbind E : MBind (result E) := λ A B f r,
  match r with Ok a => f a | Err e => Err e end.

#[global] Instance result_fmap E : FMap (result E) := λ A B f r,
  match r with Ok a => Ok (f a) | Err e => Err e end.

#[global] Instance result_eq_dec E A `{EqDecision E, EqDecision A} : EqDecision (result E A).
Proof. solve_decision. Defined.

(** [r.is_ok()]. *)
Definition is_ok {E A} (r : result E A) : bool :=
  match r with Ok _ => true | Err _ => false end.

(** [r.ok()]. *)
Definition result_ok {E A} (r : result E A) : option A :=
  match r with Ok a => Some a | Err _ => None end.

(** [o.ok_or(e)]. *)
Definition ok_or {E A} (e : E) (o : option A) : result E A :=
  match o with Some a => Ok a | None => Err e end.

(** A computation that may hit an [expect], an [unwrap] or an out-of-range slice. *)
Inductive exec (A : Type) :=
  | Return (a : A)
  | Panic.
Arguments Return {A} a.
Arguments Panic {A}.

#[global] Instance exec_mret : MRet exec := λ A a, Return a.

#[global] Instance exec_mbind : MBind exec := λ A B f r,
  match r with Return a => f a | Panic => Panic end.

(** [o.expect(..)] *)
Definition expect {A} (o : option A) : exec A :=
  match o with Some a => Return a | None => Panic end.

(** ** Half-open ranges, [std::ops::Range<u64>] *)

Record Range := MkRange { range_start : N; range_end : N }.

#[global] Instance Range_eq_dec : EqDecision Range.
Proof. solve_decision. Defined.

(** [range.contains(&b)]. *)
Definition in_range (b : N) (r : Range) : Prop := (range_start r ≤ b ∧ b < range_end r)%N.

#[global] Instance in_range_dec b r : Decision (in_range b r).
Proof. apply _. Defined.

(** The values a [for b in start..end] loop visits, in order. *)
Definition range_values (r : Range) : list N :=
  (λ i, range_start r + N.of_nat i)%N <$> seq 0 (N.to_nat (range_end r - range_start r)).

(** ** Ordered maps

    [BTreeMap<K, V>] is a [gmap K V]; where the source iterates over one, the
    iteration is by increasing key, which [btree_list] makes explicit. *)

Class BTreeKey (K : Type) `{Countable K} := {
  key_le : relation K;
  key_le_dec :: RelDecision key_le;
  key_le_total :: Total key_le;
  key_le_trans :: Transitive key_le;
  key_le_antisymm :: AntiSymm (=) key_le;
}.

#[global] Instance btree_key_N : BTreeKey N.
Proof. refine {| key_le := N.le |}. all: apply _. Defined.

(** [String] keys compare bytewise. *)
Definition string_le (s t : string) : Prop := String.leb s t = true.

(** Entries compare by key. *)
Definition entry_le `{BTreeKey K} {A} (p q : K * A) : Prop := key_le p.1 q.1.

#[global] Instance entry_le_dec `{BTreeKey K} {A} : RelDecision (entry_le (K:=K) (A:=A)).
Proof. intros p q. unfold entry_le. apply _. Defined.

(** [m.iter()] on a [BTreeMap]. *)
Definition btree_list `{BTreeKey K} {A} (m : gmap K A) : list (K * A) :=
  merge_sort entry_le (map_to_list m).

(** [m.values()] on a [BTreeMap]. *)
Definition btree_values `{BTreeKey K} {A} (m : gmap K A) : list A := (btree_list m).*2.

(** [m.range(..=k).next_back()]: the entry with the greatest key at most [k]. *)
Definition btree_range_last `{BTreeKey K} {A} (k : K) (m : gmap K A) : option (K * A) :=
  last (filter (λ p, key_le p.1 k) (btree_list m)).

(** ** Sorting

    [slice::sort_by_key] is stable; insertion sort is, and computes the same list. *)

Section sort.
Context {A : Type} (key : A → N).

Fixpoint insert_by_key (x : A) (l : list A) : list A :=
  match l with
  | [] => [x]
  | y :: l' => if decide (key x ≤ key y)%N then x :: l else y :: insert_by_key x l'
  end.

Definition sort_by_key (l : list A) : list A := foldr insert_by_key [] l.

End sort.

(** [slice::sort_by], also stable, with a comparison, and how comparisons are
    chained ([Ordering::then_with]). *)
Section sort_by.
Context {A : Type} (cmp : A → A → comparison).

Fixpoint insert_by (x : A) (l : list A) : list A :=
  match l with
  | [] => [x]
  | y :: l' => match cmp x y with Gt => y :: insert_by x l' | _ => x :: l end
  end.

Definition sort_by (l : list A) : list A := foldr insert_by [] l.

End sort_by.

Definition then_with (c d : comparison) : comparison := match c with Eq => d | _ => c end.

(** [bool::cmp] *)
Definition bool_cmp (a b : bool) : comparison :=
  match a, b with false, true => Lt | true, false => Gt | _, _ => Eq end.

(** ** Hash maps

    The iteration order of a [HashMap] is arbitrary: it is a parameter of the
    model, of which only that it lists every key once is known. *)

Class HashIter (K : Type) `{Countable K} := {
  hash_keys : ∀ {A}, gmap K A → list K;
  hash_keys_perm : ∀ {A} (m : gmap K A), hash_keys m ≡ₚ (map_to_list m).*1;
}.

(** The order [map_to_list] happens to use: one instance of the parameter. *)
Definition hash_iter_default K `{Countable K} : HashIter K :=
  {| hash_keys := λ A m, (map_to_list m).*1;
     hash_keys_perm := λ A m, Permutation_refl _ |}.

(** ** Automation *)

Create HintDb blockyard.

(** Split every [match] and [if] of the goal and the hypotheses, closing the
    contradictory branches. *)
Ltac step_cases :=
  repeat first
    [ progress simplify_eq/=
    | case_match
    | case_decide
    | case_bool_decide ]; simplify_eq/=; try done.

(** Split the matches of one hypothesis, keeping the equations. *)
Ltac inv_handler H :=
  repeat match type of H with
  | context [match ?x with _ => _ end] => destruct x eqn:?; simplify_eq/=
  end; try done.

(** ** Lemmas on lists *)

Lemma elem_of_concat {A} (x : A) (ls : list (list A)) : x ∈ concat ls ↔ ∃ l, x ∈ l ∧ l ∈ ls.
Proof. induction ls; set_solver. Qed.

(** ** Lemmas on machine integers *)

Lemma u64_sub_small a b : (b ≤ a)%N → (a < u64_modulus)%N → u64_sub a b = (a - b)%N.
Proof.
  intros Hle Hlt. unfold u64_sub. replace (a + u64_modulus - b)%N with (a - b + 1 * u64_modulus)%N by lia.
  rewrite N.Div0.mod_add. apply N.mod_small. lia.
Qed.

Lemma u64_add_small a b : (a + b < u64_modulus)%N → u64_add a b = (a + b)%N.
Proof. intros. by apply N.mod_small. Qed.

Lemma u64_add_bound a b : (u64_add a b < u64_modulus)%N.
Proof. apply N.mod_upper_bound. done. Qed.

Lemma u64_mul_small a b : (a * b < u64_modulus)%N → u64_mul a b = (a * b)%N.
Proof. intros. by apply N.mod_small. Qed.

Lemma u64_sat_add_ge a b : (a ≤ u64_max → a ≤ u64_sat_add a b)%N.
Proof. unfold u64_sat_add. lia. Qed.

Lemma u64_of_to_string n : u64_of_string (u64_to_string n) = Some n.
Proof.
  unfold u64_of_string, u64_to_string. rewrite NilZero.usu.
  - simpl. by rewrite Unsigned.of_to.
  - destruct n as [|p]; [done|]. apply (DecimalPos.Unsigned.to_uint_nonnil p).
Qed.

Lemma div_ceil_bounds a b :
  (0 < b → a ≤ div_ceil a b * b ∧ div_ceil a b * b < a + b)%N.
Proof.
  intros Hb. unfold div_ceil.
  pose proof (N.div_mod a b ltac:(lia)). pose proof (N.mod_upper_bound a b ltac:(lia)).
  set (q := (a `div` b)%N) in *. set (r := (a `mod` b)%N) in *.
  rewrite (N.mul_comm b q) in *. case_decide; lia.
Qed.

(** ** Lemmas on ranges *)

Lemma elem_of_range_values b r : b ∈ range_values r ↔ in_range b r.
Proof.
  unfold range_values, in_range. rewrite list_elem_of_fmap. split.
  - intros (i & -> & Hi%elem_of_seq). lia.
  - intros [??]. exists (N.to_nat (b - range_start r)). split; [lia|].
    apply elem_of_seq. lia.
Qed.

Lemma range_values_NoDup r : NoDup (range_values r).
Proof. apply NoDup_fmap_2; [intros ???; lia|apply NoDup_seq]. Qed.

(** ** Lemmas on lists and maps *)

Lemma filter_Forall {A} (P : A → Prop) `{!∀ x, Decision (P x)} l : Forall P l → filter P l = l.
Proof.
  induction 1 as [|x l Hx Hl IH]; [done|]. rewrite filter_cons_True by done. by rewrite IH.
Qed.

(** A loop of inserts at distinct or repeated keys, the value a function of the key. *)
Lemma lookup_foldl_insert `{Countable K} {A} (g : K → A) (l : list K) (m : gmap K A) k :
  foldl (λ m k, <[k := g k]> m) m l !! k = if decide (k ∈ l) then Some (g k) else m !! k.
Proof.
  revert m. induction l as [|k' l IH]; intros m.
  { rewrite decide_False by set_solver. done. }
  cbn [foldl]. rewrite IH. destruct (decide (k = k')) as [->|].
  - rewrite (decide_True (P := k' ∈ k' :: l)) by set_solver.
    case_decide; [done|]. apply lookup_insert_eq.
  - rewrite lookup_insert_ne by done. apply decide_ext. set_solver.
Qed.

Section sort_lemmas.
Context {A : Type} (key : A → N).

Definition by_key : relation A := λ x y, (key x ≤ key y)%N.

Lemma insert_by_key_perm x l : insert_by_key key x l ≡ₚ x :: l.
Proof.
  induction l as [|y l IH]; simpl; [done|]. case_decide; [done|]. rewrite IH. apply Permutation_swap.
Qed.

Lemma sort_by_key_perm l : sort_by_key key l ≡ₚ l.
Proof. induction l as [|x l IH]; simpl; [done|]. by rewrite insert_by_key_perm, IH. Qed.

Lemma insert_by_key_sorted x l :
  StronglySorted by_key l → StronglySorted by_key (insert_by_key key x l).
Proof.
  induction 1 as [|y l Hs IH Hall]; simpl; [repeat constructor|].
  case_decide as Hd.
  - constructor; [by constructor|]. constructor; [done|].
    eapply Forall_impl; [done|]. unfold by_key. intros z. lia.
  - constructor; [done|]. rewrite insert_by_key_perm. constructor; [unfold by_key; lia|done].
Qed.

Lemma sort_by_key_sorted l : StronglySorted by_key (sort_by_key key l).
Proof. induction l as [|x l IH]; simpl; [constructor|by apply insert_by_key_sorted]. Qed.

(** Sorting commutes with dropping elements: the sort is stable. *)
Lemma insert_by_key_filter (P : A → Prop) `{!∀ x, Decision (P x)} x l :
  StronglySorted by_key l →
  filter P (insert_by_key key x l) =
    if decide (P x) then insert_by_key key x (filter P l) else filter P l.
Proof.
  induction 1 as [|y l Hs IH Hall]; simpl; [by rewrite filter_cons, filter_nil|].
  destruct (decide (key x ≤ key y)%N) as [Hd|Hd].
  - rewrite filter_cons, !filter_cons. destruct (decide (P x)); [|done].
    destruct (decide (P y)); simpl; [by rewrite decide_True|].
    clear IH. assert (Forall (λ z, key x ≤ key z)%N (filter P l)) as Hx.
    { apply Forall_forall. intros z [_ Hz]%list_elem_of_filter. rewrite Forall_forall in Hall.
      specialize (Hall _ Hz). unfold by_key in Hall. lia. }
    destruct (filter P l) as [|z l']; simpl; [done|]. inversion Hx; subst. by rewrite decide_True.
  - rewrite !filter_cons, IH. destruct (decide (P y)), (decide (P x)); simpl; try done.
    by rewrite (decide_False (P := (key x ≤ key y)%N)).
Qed.

Lemma sort_by_key_filter (P : A → Prop) `{!∀ x, Decision (P x)} l :
  filter P (sort_by_key key l) = sort_by_key key (filter P l).
Proof.
  induction l as [|x l IH]; simpl; [done|].
  rewrite insert_by_key_filter by apply sort_by_key_sorted. rewrite filter_cons.
  by case_decide; simpl; rewrite IH.
Qed.

(** Without ties the order of the input does not matter. *)
Lemma sort_by_key_unique l1 l2 :
  l1 ≡ₚ l2 → (∀ x y, x ∈ l1 → y ∈ l1 → key x = key y → x = y) →
  sort_by_key key l1 = sort_by_key key l2.
Proof.
  intros Hp Hinj.
  assert (∀ l, (∀ x, x ∈ l → x ∈ l1) → StronglySorted by_key l →
    StronglySorted (λ x y, by_key x y ∧ (x ∈ l1 ∧ y ∈ l1)) l) as Hstr.
  { intros l Hin. induction 1 as [|x l Hs IH Hall]; constructor; [apply IH; set_solver|].
    rewrite Forall_forall in Hall |- *. set_solver. }
  assert (Transitive (λ x y, by_key x y ∧ (x ∈ l1 ∧ y ∈ l1))).
  { unfold by_key. intros x y z [? [? ?]] [? [? ?]]. split; [lia|done]. }
  assert (AntiSymm (=) (λ x y, by_key x y ∧ (x ∈ l1 ∧ y ∈ l1))).
  { unfold by_key. intros x y [? [? ?]] [? _]. apply Hinj; [done..|lia]. }
  eapply (Sorted_unique (λ x y, by_key x y ∧ (x ∈ l1 ∧ y ∈ l1))).
  - apply StronglySorted_Sorted, Hstr, sort_by_key_sorted. intros x. by rewrite sort_by_key_perm.
  - apply StronglySorted_Sorted, Hstr, sort_by_key_sorted. intros x. by rewrite sort_by_key_perm, Hp.
  - by rewrite !sort_by_key_perm.
Qed.

End sort_lemmas.

(** A comparison that is a total preorder. *)
Class TotalCmp {A} (cmp : A → A → comparison) := {
  cmp_opp : ∀ x y, cmp y x = CompOpp (cmp x y);
  cmp_trans : ∀ c x y z, cmp x y = c → cmp y z = c → cmp x z = c;
}.

#[export] Instance N_key_cmp {A} (key : A → N) : TotalCmp (λ x y, N.compare (key x) (key y)).
Proof.
  split; [intros; apply N.compare_antisym|]. intros [] x y z.
  - rewrite !N.compare_eq_iff. congruence.
  - rewrite !N.compare_lt_iff. lia.
  - rewrite !N.compare_gt_iff. lia.
Qed.

#[export] Instance bool_key_cmp {A} (key : A → bool) : TotalCmp (λ x y, bool_cmp (key x) (key y)).
Proof.
  split; [by intros x y; destruct (key x), (key y)|].
  intros c x y z. by destruct (key x), (key y), (key z), c.
Qed.

#[export] Instance flip_cmp {A} (cmp : A → A → comparison) : TotalCmp cmp → TotalCmp (λ x y, cmp y x).
Proof. intros [Hopp Ht]. split; [intros; apply Hopp|intros c x y z ? ?; by apply (Ht c z y x)]. Qed.

(** Elements that compare equal compare alike with others. *)
Lemma cmp_eq_l {A} (cmp : A → A → comparison) `{!TotalCmp cmp} x y z : cmp x y = Eq → cmp x z = cmp y z.
Proof.
  intros Hxy. assert (cmp y x = Eq) as Hyx by by rewrite cmp_opp, Hxy.
  destruct (cmp y z) eqn:Hyz; [by apply (cmp_trans _ _ _ _ Hxy)|..];
    destruct (cmp x z) eqn:Hxz; try done; exfalso.
  - pose proof (cmp_trans _ _ _ _ Hyx Hxz). congruence.
  - assert (cmp z x = Lt) as Hzx by by rewrite cmp_opp, Hxz. pose proof (cmp_trans _ _ _ _ Hyz Hzx). congruence.
  - pose proof (cmp_trans _ _ _ _ Hyx Hxz). congruence.
  - assert (cmp z x = Gt) as Hzx by by rewrite cmp_opp, Hxz. pose proof (cmp_trans _ _ _ _ Hyz Hzx). congruence.
Qed.

Lemma cmp_eq_r {A} (cmp : A → A → comparison) `{!TotalCmp cmp} x y z : cmp y z = Eq → cmp x z = cmp x y.
Proof.
  intros Hyz. rewrite (cmp_opp z x), (cmp_opp y x). f_equal. apply cmp_eq_l; [done|]. by rewrite cmp_opp, Hyz.
Qed.

#[export] Instance then_with_cmp {A} (f g : A → A → comparison) :
  TotalCmp f → TotalCmp g → TotalCmp (λ x y, then_with (f x y) (g x y)).
Proof.
  intros Hf Hg. split.
  - intros x y. rewrite (cmp_opp x y), (cmp_opp (cmp := g) x y). by destruct (f x y).
  - intros c x y z. unfold then_with.
    destruct (f x y) eqn:Hxy; [rewrite (cmp_eq_l f x y z Hxy); destruct (f y z); [apply cmp_trans|done..]|..];
      intros <-; (destruct (f y z) eqn:Hyz; [by rewrite (cmp_eq_r f x y z Hyz), Hxy|..]; try done);
      intros _; by rewrite (cmp_trans _ _ _ _ Hxy Hyz).
Qed.

Section sort_by_lemmas.
Context {A : Type} (cmp : A → A → comparison) `{!TotalCmp cmp}.

Definition cmp_le : relation A := λ x y, cmp x y ≠ Gt.

Lemma insert_by_perm x l : insert_by cmp x l ≡ₚ x :: l.
Proof.
  induction l as [|y l IH]; simpl; [done|]. destruct (cmp x y); [done..|]. rewrite IH. apply Permutation_swap.
Qed.

Lemma sort_by_perm l : sort_by cmp l ≡ₚ l.
Proof. induction l as [|x l IH]; simpl; [done|]. by rewrite insert_by_perm, IH. Qed.

Lemma cmp_le_trans x y z : cmp_le x y → cmp_le y z → cmp_le x z.
Proof.
  unfold cmp_le. intros Hxy Hyz. destruct (cmp x y) eqn:Exy; [by rewrite (cmp_eq_l cmp x y z Exy)| |done].
  destruct (cmp y z) eqn:Eyz; [by rewrite (cmp_eq_r cmp x y z Eyz), Exy| |done].
  by rewrite (cmp_trans _ _ _ _ Exy Eyz).
Qed.

Lemma sort_by_sorted l : StronglySorted cmp_le (sort_by cmp l).
Proof.
  induction l as [|x l IH]; simpl; [constructor|]. induction IH as [|y l' Hs IH Hall]; simpl; [repeat constructor|].
  assert (cmp x y ≠ Gt → StronglySorted cmp_le (x :: y :: l')) as Hle.
  { intros Hxy. constructor; [by constructor|]. constructor; [done|].
    eapply Forall_impl; [done|]. intros z. by apply cmp_le_trans. }
  destruct (cmp x y) eqn:Exy; [by apply Hle..|]. constructor; [done|].
  rewrite insert_by_perm. constructor; [|done]. unfold cmp_le. by rewrite cmp_opp, Exy.
Qed.

End sort_by_lemmas.

(** A [retain] on values drops as many entries as there are values to drop. *)
Lemma size_filter_values `{Countable K} {A} (f : A → bool) (m : gmap K A) :
  length (filter (λ x, f x = true) (map_to_list m).*2) + size (filter (λ kx, f kx.2 = false) m)
  = size m.
Proof.
  induction m as [|i x m Hi IH] using map_ind.
  { rewrite map_to_list_empty. done. }
  rewrite map_to_list_insert, map_size_insert_None by done. csimpl.
  rewrite filter_cons. destruct (f x) eqn:Hf.
  - rewrite decide_True by done. rewrite map_filter_insert_False by (simpl; congruence).
    rewrite delete_id by done. simpl. lia.
  - rewrite decide_False by done. rewrite map_filter_insert_True by done.
    rewrite map_size_insert_None by (apply map_lookup_filter_None; auto). lia.
Qed.

(** ** Lemmas on ordered maps *)

Section btree.
Context `{BTreeKey K} {A : Type}.
Implicit Types m : gmap K A.

#[local] Instance entry_le_total : Total (entry_le (K:=K) (A:=A)).
Proof. intros p q. apply key_le_total. Qed.

#[local] Instance entry_le_trans : Transitive (entry_le (K:=K) (A:=A)).
Proof. intros p q r. apply key_le_trans. Qed.

Lemma btree_list_perm m : btree_list m ≡ₚ map_to_list m.
Proof. apply merge_sort_Permutation. Qed.

Lemma elem_of_btree_list m k x : (k, x) ∈ btree_list m ↔ m !! k = Some x.
Proof. rewrite btree_list_perm. apply elem_of_map_to_list. Qed.

Lemma elem_of_btree_values m x : x ∈ btree_values m ↔ ∃ k, m !! k = Some x.
Proof.
  unfold btree_values. rewrite list_elem_of_fmap. split.
  - intros ([k y] & -> & Hk). exists k. by apply elem_of_btree_list.
  - intros [k Hk]. exists (k, x). by rewrite elem_of_btree_list.
Qed.

Lemma btree_list_NoDup_keys m : NoDup (btree_list m).*1.
Proof. rewrite btree_list_perm. apply NoDup_fst_map_to_list. Qed.

Lemma length_btree_values m : length (btree_values m) = size m.
Proof. unfold btree_values. rewrite length_fmap, btree_list_perm. apply length_map_to_list. Qed.

Lemma btree_values_perm m : btree_values m ≡ₚ (map_to_list m).*2.
Proof. unfold btree_values. by rewrite btree_list_perm. Qed.

Lemma btree_values_insert m k v :
  btree_values (<[k := v]> m) ≡ₚ v :: btree_values (delete k m).
Proof.
  rewrite !btree_values_perm, <-insert_delete_eq, map_to_list_insert by apply lookup_delete_eq. done.
Qed.

Lemma btree_values_delete m k v : m !! k = Some v → btree_values m ≡ₚ v :: btree_values (delete k m).
Proof. intros Hk. rewrite <-(btree_values_insert m k v). by rewrite insert_id. Qed.

Lemma btree_list_sorted m : StronglySorted entry_le (btree_list m).
Proof. apply StronglySorted_merge_sort; apply _. Qed.

(** Strictly increasing keys: the order in which a [BTreeMap] is iterated. *)
Definition key_lt (k1 k2 : K) : Prop := key_le k1 k2 ∧ k1 ≠ k2.

#[local] Instance key_lt_trans : Transitive key_lt.
Proof.
  intros k1 k2 k3 [H12 Hne] [H23 _]. split; [by etrans|]. intros ->.
  apply Hne. by apply (anti_symm key_le).
Qed.

#[local] Instance key_lt_antisymm : AntiSymm (=) key_lt.
Proof. intros k1 k2 [H12 Hne] [H21 _]. by apply (anti_symm key_le). Qed.

Lemma btree_keys_sorted m : StronglySorted key_lt (btree_list m).*1.
Proof.
  pose proof (btree_list_sorted m) as Hs. pose proof (btree_list_NoDup_keys m) as Hnd.
  induction Hs as [|[k x] l Hs IH Hall]; [constructor|]. csimpl in *.
  apply NoDup_cons in Hnd as [Hk Hnd]. constructor; [by apply IH|].
  rewrite Forall_fmap. rewrite Forall_forall in Hall |- *. intros [k' x'] Hin. simpl.
  split; [apply (Hall _ Hin)|]. intros ->. apply Hk, list_elem_of_fmap. by exists (k', x').
Qed.

(** Two strictly sorted lists with the same elements are equal. *)
Lemma key_sorted_unique (l1 l2 : list K) :
  StronglySorted key_lt l1 → StronglySorted key_lt l2 → (∀ k, k ∈ l1 ↔ k ∈ l2) → l1 = l2.
Proof.
  intros Hs1 Hs2 Heq.
  assert (∀ l, StronglySorted key_lt l → NoDup l) as Hnd.
  { intros l. induction 1 as [|k l Hs IH Hall]; constructor; [|done].
    rewrite Forall_forall in Hall. intros [_ Hne]%Hall. done. }
  apply (Sorted_unique key_lt); [by apply StronglySorted_Sorted..|].
  apply NoDup_Permutation; auto.
Qed.

(** An association list with strictly increasing keys is the iteration of the
    map it denotes. *)
Lemma btree_list_unique (l : list (K * A)) m :
  StronglySorted key_lt l.*1 → (∀ k x, (k, x) ∈ l ↔ m !! k = Some x) → btree_list m = l.
Proof.
  intros Hs Hl.
  assert ((btree_list m).*1 = l.*1) as Hkeys.
  { apply key_sorted_unique; [apply btree_keys_sorted|done|]. intros k.
    rewrite !list_elem_of_fmap. split.
    - intros ([k' x] & -> & ?%elem_of_btree_list%Hl). by exists (k', x).
    - intros ([k' x] & -> & ?%Hl%elem_of_btree_list). by exists (k', x). }
  assert (∀ k x, (k, x) ∈ btree_list m → m !! k = Some x) as Hb by (intros; by apply elem_of_btree_list).
  assert (∀ k x, (k, x) ∈ l → m !! k = Some x) as Hl' by (intros; by apply Hl).
  clear Hs Hl. revert l Hkeys Hl'. induction (btree_list m) as [|[k x] b IH]; intros [|[k' x'] l];
    csimpl; intros Hkeys Hl'; simplify_eq; [done|].
  assert (x = x') as ->.
  { apply (inj Some). rewrite <-(Hb k' x), <-(Hl' k' x'); [done|set_solver..]. }
  f_equal. apply IH; [set_solver..|done|set_solver].
Qed.

(** The last element of a sorted list bounds the others. *)
Lemma StronglySorted_last {B} (R : relation B) `{!Reflexive R} (l : list B) x y :
  StronglySorted R l → last l = Some x → y ∈ l → R y x.
Proof.
  induction 1 as [|z l Hs IH Hall]; [done|].
  destruct l as [|w l]; simpl.
  - intros [= ->] ->%list_elem_of_singleton. done.
  - intros Hlast [->|Hy]%elem_of_cons; [|by apply IH].
    rewrite Forall_forall in Hall. apply Hall.
    apply last_Some in Hlast as [l' ->]. set_solver.
Qed.

Lemma StronglySorted_filter {B} (R : relation B) (P : B → Prop) `{!∀ x, Decision (P x)} l :
  StronglySorted R l → StronglySorted R (filter P l).
Proof.
  induction 1 as [|x l Hs IH Hall]; [constructor|].
  rewrite filter_cons. case_decide; [|done]. constructor; [done|].
  rewrite Forall_forall in Hall |- *. intros y [_ Hy]%list_elem_of_filter. by apply Hall.
Qed.

(** [btree_range_last k] finds the entry with the greatest key at most [k]. *)
Lemma btree_range_last_Some m k k' x :
  btree_range_last k m = Some (k', x) ↔
  m !! k' = Some x ∧ key_le k' k ∧ ∀ k'', is_Some (m !! k'') → key_le k'' k → key_le k'' k'.
Proof.
  unfold btree_range_last.
  assert (Reflexive (entry_le (K:=K) (A:=A))) by (intros p; by destruct (total entry_le p p)).
  set (l := filter _ _).
  assert (StronglySorted entry_le l) as Hs by apply StronglySorted_filter, btree_list_sorted.
  assert (∀ j y, (j, y) ∈ l ↔ m !! j = Some y ∧ key_le j k) as Hin.
  { intros j y. unfold l. rewrite list_elem_of_filter, elem_of_btree_list. naive_solver. }
  split.
  - intros Hl. assert ((k', x) ∈ l) as [??]%Hin.
    { apply last_Some in Hl as [l' ->]. set_solver. }
    split_and!; [done..|]. intros j [y Hy] Hj.
    change (entry_le (j, y) (k', x)). eapply StronglySorted_last; [done..|]. by apply Hin.
  - intros (Hk & Hle & Hmax). destruct (last l) as [[j y]|] eqn:Hl.
    + assert ((j, y) ∈ l) as [Hj Hjk]%Hin.
      { apply last_Some in Hl as [l' ->]. set_solver. }
      assert (key_le k' j).
      { change (entry_le (k', x) (j, y)). eapply StronglySorted_last; [done..|]. by apply Hin. }
      assert (j = k') as ->. { apply (anti_symm key_le); [|done]. apply Hmax; eauto. }
      by rewrite Hk in Hj; simplify_eq.
    + apply last_None in Hl. assert ((k', x) ∈ l) as Hc by by apply Hin.
      rewrite Hl in Hc. by apply elem_of_nil in Hc.
Qed.

Lemma btree_range_last_None m k :
  btree_range_last k m = None ↔ ∀ k', is_Some (m !! k') → ¬ key_le k' k.
Proof.
  unfold btree_range_last. rewrite last_None. split.
  - intros Hnil k' [x Hx] Hle.
    assert ((k', x) ∈ filter (λ p, key_le p.1 k) (btree_list m)) as Hc
      by by rewrite list_elem_of_filter, elem_of_btree_list.
    rewrite Hnil in Hc. by apply elem_of_nil in Hc.
  - intros Hno. destruct (filter _ _) as [|[k' x] l] eqn:Hf; [done|].
    assert ((k', x) ∈ filter (λ p, key_le p.1 k) (btree_list m)) as Hc
      by (rewrite Hf; left).
    apply list_elem_of_filter in Hc as [Hle Hx%elem_of_btree_list].
    destruct (Hno k'); eauto.
Qed.

End btree.

(** Maps related key by key are iterated in step. *)
Lemma btree_list_Forall2 `{BTreeKey K} {A B} (R : A → B → Prop) (m1 : gmap K A) (m2 : gmap K B) :
  (∀ k, option_Forall2 R (m1 !! k) (m2 !! k)) →
  Forall2 (λ p q, p.1 = q.1 ∧ R p.2 q.2) (btree_list m1) (btree_list m2).
Proof.
  intros HR.
  assert ((btree_list m1).*1 = (btree_list m2).*1) as Hkeys.
  { apply key_sorted_unique; [apply btree_keys_sorted..|]. intros k.
    rewrite !list_elem_of_fmap. specialize (HR k). split.
    - intros ([k' x] & -> & Hx%elem_of_btree_list). simpl in HR. rewrite Hx in HR.
      inversion HR as [? y ? Hx' Hy|]; subst. exists (k', y). by rewrite elem_of_btree_list.
    - intros ([k' y] & -> & Hy%elem_of_btree_list). simpl in HR. rewrite Hy in HR.
      inversion HR as [x ? ? Hx Hy'|]; subst. exists (k', x). by rewrite elem_of_btree_list. }
  assert (∀ k x, (k, x) ∈ btree_list m1 → m1 !! k = Some x) as H1 by (intros; by apply elem_of_btree_list).
  assert (∀ k x, (k, x) ∈ btree_list m2 → m2 !! k = Some x) as H2 by (intros; by apply elem_of_btree_list).
  revert H1 H2 Hkeys. generalize (btree_list m1) as l1, (btree_list m2) as l2.
  induction l1 as [|[k x] l1 IH]; intros [|[k' y] l2] H1 H2; csimpl; intros Hkeys; simplify_eq;
    constructor.
  - split; [done|]. simpl. specialize (HR k'). rewrite (H1 k' x), (H2 k' y) in HR by set_solver.
    by inversion HR.
  - apply IH; [set_solver..|done].
Qed.

(** Bytewise order on strings. *)
Lemma string_compare_nat s t :
  String.compare s t =
  match s, t with
  | EmptyString, EmptyString => Eq
  | EmptyString, _ => Lt
  | _, EmptyString => Gt
  | String a s, String b t =>
      match Ascii.compare a b with Eq => String.compare s t | c => c end
  end.
Proof. destruct s, t; done. Qed.

#[global] Instance string_le_trans : Transitive string_le.
Proof.
  unfold string_le, String.leb. intros s. induction s as [|a s IH]; intros [|b t] [|c u]; try done.
  simpl. unfold Ascii.compare.
  specialize (IH t u).
  destruct (N.compare_spec (Ascii.N_of_ascii a) (Ascii.N_of_ascii b)),
    (N.compare_spec (Ascii.N_of_ascii b) (Ascii.N_of_ascii c)),
    (N.compare_spec (Ascii.N_of_ascii a) (Ascii.N_of_ascii c)); try done; try lia.
Qed.

#[global] Instance btree_key_string : BTreeKey string.
Proof.
  refine {| key_le := string_le |}.
  - intros s t. unfold string_le. apply _.
  - intros s t. apply String.leb_total.
  - intros s t. apply String.leb_antisym.
Defined.
