(* ===== verification/Text.v ===== *)
(** * Strings

    What the sources use of [str] beyond formatting: splitting at a character,
    searching, prefixes and suffixes; with the facts about decimal digits that make
    file names, addresses and URLs unambiguous. *)

From Stdlib Require Import Strings.Ascii DecimalString.
From S2P Require Import Prelude.

#[local] Open Scope N_scope.

(** The text before and after the last occurrence of a character. *)
Fixpoint rsplit_once (c : Ascii.ascii) (s : string) : option (string * string) :=
  match s with
  | EmptyString => None
  | String a s =>
      match rsplit_once c s with
      | Some (l, r) => Some (String a l, r)
      | None => if decide (a = c) then Some (EmptyString, s) else None
      end
  end.

(** [str::contains]. *)
Definition str_contains (sub str : string) : bool := bool_decide (is_Some (String.index 0 sub str)).

Lemma rsplit_once_app c l r : rsplit_once c r = None → rsplit_once c (l +:+ String c r) = Some (l, r).
Proof.
  intros Hr. induction l as [|a l IH]; simpl.
  - by rewrite Hr, decide_True.
  - by rewrite IH.
Qed.

(** Every character satisfies [f]. *)
Fixpoint all_chars (f : Ascii.ascii → bool) (s : string) : bool :=
  match s with EmptyString => true | String a s => f a && all_chars f s end.

Lemma rsplit_once_None c f s : all_chars f s = true → f c = false → rsplit_once c s = None.
Proof.
  intros Hs Hc. induction s as [|a s IH]; simpl in *; [done|].
  apply andb_true_iff in Hs as [Ha Hs]. rewrite (IH Hs). rewrite decide_False; [done|congruence].
Qed.

Definition is_digit (a : Ascii.ascii) : bool := bool_decide (48 ≤ N_of_ascii a ≤ 57).

Lemma u64_to_string_digits n : all_chars is_digit (u64_to_string n) = true.
Proof.
  unfold u64_to_string, NilZero.string_of_uint.
  assert (∀ d, all_chars is_digit (NilEmpty.string_of_uint d) = true) as Hd
    by (induction d; simpl; auto).
  destruct (N.to_uint n) eqn:Hn; [done|rewrite <- Hn; apply Hd..].
Qed.

Lemma all_chars_app f s t : all_chars f (s +:+ t) = all_chars f s && all_chars f t.
Proof. induction s as [|a s IH]; simpl; [done|]. rewrite IH. by destruct (f a). Qed.

Lemma string_app_assoc (r s t : string) : r +:+ (s +:+ t) = (r +:+ s) +:+ t.
Proof. induction r as [|a r IH]; [done|exact (f_equal (String a) IH)]. Qed.

Fixpoint last_char (s : string) : option Ascii.ascii :=
  match s with EmptyString => None | String a EmptyString => Some a | String _ s => last_char s end.

Lemma last_char_app s t : t ≠ EmptyString → last_char (s +:+ t) = last_char t.
Proof.
  intros Ht. induction s as [|a s IH]; [done|]. simpl. rewrite IH. by destruct s, t.
Qed.

Lemma last_char_all f s a : all_chars f s = true → last_char s = Some a → f a = true.
Proof.
  induction s as [|b s IH]; simpl; [done|]. intros [Hb Hs]%andb_true_iff Hl.
  destruct s; [congruence|by apply IH].
Qed.

Lemma u64_to_string_nonempty n : u64_to_string n ≠ EmptyString.
Proof.
  intros Hn. pose proof (u64_of_to_string n) as Hr. rewrite Hn in Hr. discriminate.
Qed.

(** [s.split(c)]: the pieces between the occurrences of a character. *)
Fixpoint split_char (c : Ascii.ascii) (s : string) : list string :=
  match s with
  | EmptyString => [EmptyString]
  | String a s =>
      if decide (a = c) then EmptyString :: split_char c s
      else match split_char c s with
           | piece :: pieces => String a piece :: pieces
           | [] => [String a EmptyString]
           end
  end.

(** [s.strip_prefix(p)] *)
Fixpoint strip_str_prefix (p s : string) : option string :=
  match p, s with
  | EmptyString, _ => Some s
  | String a p, String b s => if decide (a = b) then strip_str_prefix p s else None
  | _, EmptyString => None
  end.

Lemma strip_str_prefix_app p s : strip_str_prefix p (p +:+ s) = Some s.
Proof. induction p as [|a p IH]; [by destruct s|]. simpl. by rewrite decide_True by done. Qed.

Lemma split_char_none c f s : all_chars f s = true → f c = false → split_char c s = [s].
Proof.
  intros Hs Hc. induction s as [|a s IH]; simpl in *; [done|].
  apply andb_true_iff in Hs as [Ha Hs]. rewrite decide_False by congruence. by rewrite (IH Hs).
Qed.

Lemma split_char_nonempty c s : split_char c s ≠ [].
Proof. destruct s; simpl; [done|]. case_decide; [done|]. by case_match. Qed.

Lemma split_char_app c l r : split_char c (l +:+ String c r) = split_char c l ++ split_char c r.
Proof.
  induction l as [|a l IH]; simpl; [by rewrite decide_True|].
  case_decide; [by rewrite IH|]. rewrite IH. pose proof (split_char_nonempty c l). by destruct (split_char c l).
Qed.

Lemma string_prefix_app s t : String.prefix s (s +:+ t) = true.
Proof. induction s as [|a s IH]; [by destruct t|]. simpl. rewrite IH. by destruct (ascii_dec a a). Qed.

Lemma index_prefix sub s : String.prefix sub s = true → is_Some (String.index 0 sub s).
Proof. destruct s as [|b s]; [by destruct sub; [eexists|]|]. intros Hp. cbn [String.index]. rewrite Hp. by eexists. Qed.

(** A string contains each of its parts. *)
Lemma str_contains_app l sub r : str_contains sub (l +:+ (sub +:+ r)) = true.
Proof.
  unfold str_contains. apply bool_decide_eq_true.
  induction l as [|a l IH]; [apply (index_prefix sub (sub +:+ r)), string_prefix_app|].
  change (String a l +:+ (sub +:+ r)) with (String a (l +:+ (sub +:+ r))).
  cbn [String.index]. destruct (String.prefix sub _); [by eexists|].
  destruct IH as [n Hn]. rewrite Hn. by eexists.
Qed.

(** ** Bytes *)

Definition string_bytes (s : string) : list N := N_of_ascii <$> String.list_ascii_of_string s.

Definition bytes_string (bs : list N) : string := String.string_of_list_ascii (ascii_of_N <$> bs).

Lemma bytes_string_bytes s : bytes_string (string_bytes s) = s.
Proof.
  unfold bytes_string, string_bytes. rewrite <- list_fmap_compose.
  rewrite (list_fmap_ext _ id), list_fmap_id; [apply String.string_of_list_ascii_of_string|].
  intros i c _. apply ascii_N_embedding.
Qed.

(** [char::is_whitespace], of the ASCII characters. *)
Definition is_whitespace (c : ascii) : bool :=
  let n := N_of_ascii c in bool_decide (9 ≤ n ≤ 13) || bool_decide (n = 32).

(** [s.trim_start()] and [s.trim()]. *)
Fixpoint trim_start (s : string) : string :=
  match s with
  | String c s' => if is_whitespace c then trim_start s' else s
  | EmptyString => EmptyString
  end.

Fixpoint trim_end (s : string) : string :=
  match s with
  | EmptyString => EmptyString
  | String c s =>
      match trim_end s with
      | EmptyString => if is_whitespace c then EmptyString else String c EmptyString
      | t => String c t
      end
  end.

Definition str_trim (s : string) : string := trim_end (trim_start s).

Lemma trim_end_plain s : all_chars (λ c, negb (is_whitespace c)) s = true → trim_end s = s.
Proof.
  induction s as [|c s IH]; simpl; [done|]. intros [Hc Hs]%andb_true_iff. rewrite (IH Hs).
  apply negb_true_iff in Hc. rewrite Hc. by destruct s.
Qed.

Lemma str_trim_plain s : all_chars (λ c, negb (is_whitespace c)) s = true → str_trim s = s.
Proof.
  intros Hs. unfold str_trim. assert (trim_start s = s) as ->; [|by apply trim_end_plain].
  destruct s as [|c s]; [done|]. simpl in *. apply andb_true_iff in Hs as [Hc _].
  apply negb_true_iff in Hc. by rewrite Hc.
Qed.

(** ** Signs *)

(** A sign at the front of a number, and the rest: is it negative? *)
Definition read_sign (s : string) : bool * string :=
  match s with
  | String c s' =>
      if decide (c = "-"%char) then (true, s') else if decide (c = "+"%char) then (false, s') else (false, s)
  | EmptyString => (false, s)
  end.

Lemma read_sign_digits s : all_chars is_digit s = true → read_sign s = (false, s).
Proof.
  destruct s as [|c s]; [done|]. simpl. intros [Hc _]%andb_true_iff.
  rewrite !decide_False by (by intros ->). done.
Qed.
