(* ===== verification/Float.v ===== *)
(** * Floating-point numbers

    [f64] as the IEEE 754 binary64 of the Standard Library, with the operations the
    sources use: arithmetic, comparison, the casts from and to u64, and [FromStr].
    Everything is computed exactly as the code computes it. *)

From Stdlib Require Import SpecFloat Ascii.
From S2P Require Import Prelude Text.

#[local] Open Scope N_scope.

(** ** Arithmetic *)

Abbreviation f64 := spec_float (only parsing).

Definition f64_zero : f64 := S754_zero false.

(** [n as f64], to nearest, ties to even. *)
Definition f64_of_u64 (n : N) : f64 := binary_normalize 53 1024 (Z.of_N n) 0 false.

Definition f64_add (a b : f64) : f64 := SFadd 53 1024 a b.

Definition f64_sub (a b : f64) : f64 := SFsub 53 1024 a b.

Definition f64_div (a b : f64) : f64 := SFdiv 53 1024 a b.

Definition f64_abs (a : f64) : f64 := SFabs a.

Definition f64_neg (a : f64) : f64 := SFopp a.

Definition f64_lt (a b : f64) : bool := SFltb a b.

Definition f64_eq (a b : f64) : bool := SFeqb a b.

(** [f64::max]: a NaN is ignored. *)
Definition f64_max (a b : f64) : f64 :=
  match a, b with
  | S754_nan, _ => b
  | _, S754_nan => a
  | _, _ => if f64_lt a b then b else a
  end.

Definition f64_sum (l : list f64) : f64 := foldl f64_add f64_zero l.

Definition f64_two : f64 := f64_of_u64 2.

Definition f64_mul (a b : f64) : f64 := SFmul 53 1024 a b.

(** [x as u64]: towards zero, saturating; a NaN is 0. *)
Definition f64_to_u64 (a : f64) : N :=
  match a with
  | S754_infinity false => u64_max
  | S754_finite false m e =>
      let n := match e with
               | Zneg k => Npos m / 2 ^ Npos k
               | Zpos k => Npos m * 2 ^ Npos k
               | Z0 => Npos m
               end in
      N.min n u64_max
  | _ => 0
  end.

(** ** Reading *)

(** The digits at the start of a text: their number, their value, and the rest. *)
Fixpoint read_digits (count value : N) (s : string) : N * N * string :=
  match s with
  | String c s' =>
      if is_digit c then read_digits (count + 1) (10 * value + (N_of_ascii c - 48)) s' else (count, value, s)
  | EmptyString => (count, value, s)
  end.

(** An exponent: [e] or [E], a sign and digits. *)
Definition read_exponent (s : string) : option Z :=
  match s with
  | EmptyString => Some 0%Z
  | String c s =>
      if bool_decide (c = "e"%char) || bool_decide (c = "E"%char) then
        let '(neg, s) := read_sign s in
        let '(count, value, s) := read_digits 0 0 s in
        if decide (count = 0) then None
        else match s with EmptyString => Some (if neg then - Z.of_N value else Z.of_N value)%Z | _ => None end
      else None
  end.

(** The number [m * 10^e], rounded once: to nearest, ties to even. *)
Definition f64_decimal (negative : bool) (m : N) (e : Z) : f64 :=
  match m with
  | N0 => S754_zero negative
  | Npos p =>
      let num := match e with Zpos k => Pos.mul p (10 ^ k) | _ => p end in
      let den := match e with Zneg k => (10 ^ k)%positive | _ => 1%positive end in
      f64_div (S754_finite negative num 0) (S754_finite false den 0)
  end.

(** [FromStr] on decimal numbers; the words for infinity and NaN are left out, no caller
    passes them. *)
Definition f64_from_str (s : string) : option f64 :=
  let '(negative, s) := read_sign s in
  let '(whole_count, whole, s) := read_digits 0 0 s in
  let '(frac_count, m, s) :=
    match s with
    | String "." s => read_digits 0 whole s
    | _ => (0, whole, s)
    end in
  if decide (whole_count + frac_count = 0) then None
  else e ← read_exponent s; Some (f64_decimal negative m (e - Z.of_N frac_count)).
