(* ===== verification/Common.v ===== *)
(** * Shared types (crates/blockyard-common)

    Identifiers (id.rs), the error type (error.rs), protection policies
    (protection.rs), the disk state machine (disk_state.rs) and volume write
    leases (lease.rs).  The [uuid] crate is a parameter: [UuidDisplay] is its
    [Display]/[FromStr] pair, of which only the round trip is assumed. *)

From S2P Require Import Prelude.

#[local] Open Scope N_scope.

(** ** Identifiers *)

(** A UUID is a 128-bit number; its textual form belongs to the [uuid] crate. *)
Abbreviation Uuid := N (only parsing).

Class UuidDisplay := {
  uuid_to_string : Uuid → string;
  uuid_parse : string → option Uuid;
  uuid_parse_to_string : ∀ u, uuid_parse (uuid_to_string u) = Some u;
}.

(** A concrete instance, used to evaluate the model: decimal digits. *)
Definition uuid_decimal : UuidDisplay :=
  {| uuid_to_string := u64_to_string;
     uuid_parse := u64_of_string;
     uuid_parse_to_string := u64_of_to_string |}.

(** [std::fmt::Display]. *)
Class Display (A : Type) := to_string : A → string.

#[global] Instance u64_display : Display N := u64_to_string.

Record NodeId := NodeId_new { NodeId_as_uuid : Uuid }.

Record VolumeId := VolumeId_new { VolumeId_as_uuid : Uuid }.

Record ExtentId := ExtentId_new { ExtentId_as_uuid : Uuid }.

Record DiskId := DiskId_new { DiskId_as_uuid : Uuid }.

Record SessionId := SessionId_new { SessionId_as_uuid : Uuid }.

Record OperationId := OperationId_new { OperationId_as_uuid : Uuid }.

Record EpochId := EpochId_new { EpochId_as_u64 : N }.

#[global] Instance NodeId_eq_dec : EqDecision NodeId.
Proof. solve_decision. Defined.

#[global] Instance VolumeId_eq_dec : EqDecision VolumeId.
Proof. solve_decision. Defined.

#[global] Instance ExtentId_eq_dec : EqDecision ExtentId.
Proof. solve_decision. Defined.

#[global] Instance DiskId_eq_dec : EqDecision DiskId.
Proof. solve_decision. Defined.

#[global] Instance SessionId_eq_dec : EqDecision SessionId.
Proof. solve_decision. Defined.

#[global] Instance OperationId_eq_dec : EqDecision OperationId.
Proof. solve_decision. Defined.

#[global] Instance EpochId_eq_dec : EqDecision EpochId.
Proof. solve_decision. Defined.

#[global] Instance NodeId_countable : Countable NodeId.
Proof. by apply (inj_countable' NodeId_as_uuid NodeId_new); intros []. Defined.

#[global] Instance VolumeId_countable : Countable VolumeId.
Proof. by apply (inj_countable' VolumeId_as_uuid VolumeId_new); intros []. Defined.

#[global] Instance ExtentId_countable : Countable ExtentId.
Proof. by apply (inj_countable' ExtentId_as_uuid ExtentId_new); intros []. Defined.

#[global] Instance DiskId_countable : Countable DiskId.
Proof. by apply (inj_countable' DiskId_as_uuid DiskId_new); intros []. Defined.

#[global] Instance SessionId_countable : Countable SessionId.
Proof. by apply (inj_countable' SessionId_as_uuid SessionId_new); intros []. Defined.

#[global] Instance OperationId_countable : Countable OperationId.
Proof. by apply (inj_countable' OperationId_as_uuid OperationId_new); intros []. Defined.

#[global] Instance NodeId_display `{UuidDisplay} : Display NodeId :=
  λ i, uuid_to_string (NodeId_as_uuid i).

#[global] Instance VolumeId_display `{UuidDisplay} : Display VolumeId :=
  λ i, uuid_to_string (VolumeId_as_uuid i).

#[global] Instance ExtentId_display `{UuidDisplay} : Display ExtentId :=
  λ i, uuid_to_string (ExtentId_as_uuid i).

#[global] Instance DiskId_display `{UuidDisplay} : Display DiskId :=
  λ i, uuid_to_string (DiskId_as_uuid i).

#[global] Instance SessionId_display `{UuidDisplay} : Display SessionId :=
  λ i, uuid_to_string (SessionId_as_uuid i).

#[global] Instance OperationId_display `{UuidDisplay} : Display OperationId :=
  λ i, uuid_to_string (OperationId_as_uuid i).

#[global] Instance EpochId_display : Display EpochId :=
  λ e, u64_to_string (EpochId_as_u64 e).

Definition NodeId_from_str `{UuidDisplay} (s : string) : option NodeId := NodeId_new <$> uuid_parse s.

Definition SessionId_from_str `{UuidDisplay} (s : string) : option SessionId :=
  SessionId_new <$> uuid_parse s.

(** ** Errors (error.rs) *)

Inductive Error :=
  | ErrorIo (msg : string)
  | ErrorConfig (msg : string)
  | ErrorRaft (msg : string)
  | ErrorStorage (msg : string)
  | ErrorNetwork (msg : string)
  | ErrorProtocol (msg : string)
  | ErrorAuth (msg : string).

#[global] Instance Error_eq_dec : EqDecision Error.
Proof. solve_decision. Defined.

#[global] Instance Error_display : Display Error := λ e,
  match e with
  | ErrorIo m => "io error: " +:+ m
  | ErrorConfig m => "config error: " +:+ m
  | ErrorRaft m => "raft error: " +:+ m
  | ErrorStorage m => "storage error: " +:+ m
  | ErrorNetwork m => "network error: " +:+ m
  | ErrorProtocol m => "protocol error: " +:+ m
  | ErrorAuth m => "auth error: " +:+ m
  end.

(** ** Protection policies (protection.rs) *)

Inductive ProtectionPolicy :=
  | Replicated (replicas : N)
  | ErasureCoded (data_chunks parity_chunks : N).

#[global] Instance ProtectionPolicy_eq_dec : EqDecision ProtectionPolicy.
Proof. solve_decision. Defined.

Definition ProtectionPolicy_validate (p : ProtectionPolicy) : result Error unit :=
  match p with
  | Replicated replicas =>
      if decide (replicas < 1)
      then Err (ErrorConfig "replicated policy requires at least 1 replica")
      else Ok tt
  | ErasureCoded data_chunks parity_chunks =>
      if decide (data_chunks < 1)
      then Err (ErrorConfig "erasure coding requires at least 1 data chunk")
      else if decide (parity_chunks < 1)
      then Err (ErrorConfig "erasure coding requires at least 1 parity chunk")
      else Ok tt
  end.

Definition required_nodes (p : ProtectionPolicy) : N :=
  match p with
  | Replicated replicas => replicas
  | ErasureCoded data_chunks parity_chunks => u8_sat_add data_chunks parity_chunks
  end.

Definition fault_tolerance (p : ProtectionPolicy) : N :=
  match p with
  | Replicated replicas => sat_sub replicas 1
  | ErasureCoded _ parity_chunks => parity_chunks
  end.

#[global] Instance ProtectionPolicy_display : Display ProtectionPolicy := λ p,
  match p with
  | Replicated r => "replicated(" +:+ u64_to_string r +:+ ")"
  | ErasureCoded d m => "ec(" +:+ u64_to_string d +:+ "+" +:+ u64_to_string m +:+ ")"
  end.

(** ** Disk states (disk_state.rs) *)

Inductive DiskState := Healthy | Suspect | Degraded | Draining | Failed | Removed.

#[global] Instance DiskState_eq_dec : EqDecision DiskState.
Proof. solve_decision. Defined.

Definition allows_allocation (s : DiskState) : bool :=
  match s with Healthy | Suspect => true | _ => false end.

Definition allows_reads (s : DiskState) : bool :=
  match s with Healthy | Suspect | Degraded | Draining => true | _ => false end.

#[global] Instance DiskState_display : Display DiskState := λ s,
  match s with
  | Healthy => "healthy"
  | Suspect => "suspect"
  | Degraded => "degraded"
  | Draining => "draining"
  | Failed => "failed"
  | Removed => "removed"
  end.

Definition validate_transition (from to : DiskState) : result Error unit :=
  if decide (from = to) then Ok tt else
  let valid :=
    match from with
    | Healthy => match to with Suspect | Degraded | Draining | Failed => true | _ => false end
    | Suspect => match to with Healthy | Degraded | Draining | Failed => true | _ => false end
    | Degraded => match to with Draining | Failed | Removed => true | _ => false end
    | Draining => match to with Failed | Removed => true | _ => false end
    | Failed => match to with Removed => true | _ => false end
    | Removed => false
    end in
  if valid then Ok tt
  else Err (ErrorStorage ("illegal disk state transition: " +:+ to_string from +:+ " → " +:+ to_string to)).

(** ** Leases (lease.rs) *)

Definition DEFAULT_LEASE_TTL_SECS : N := 30.

Record VolumeLease := MkVolumeLease {
  lease_volume_id : VolumeId;
  lease_holder : SessionId;
  lease_granted_at_ms : N;
  lease_expires_at_ms : N;
  lease_version : N;
}.

#[global] Instance VolumeLease_eq_dec : EqDecision VolumeLease.
Proof. solve_decision. Defined.

Definition is_expired (l : VolumeLease) (now_ms : N) : bool :=
  bool_decide (lease_expires_at_ms l ≤ now_ms).

Definition is_held_by (l : VolumeLease) (session_id : SessionId) : bool :=
  bool_decide (lease_holder l = session_id).

Definition remaining_ms (l : VolumeLease) (now_ms : N) : N :=
  sat_sub (lease_expires_at_ms l) now_ms.

Inductive LeaseRequest :=
  | Acquire (volume_id : VolumeId) (session_id : SessionId) (now_ms ttl_ms : N)
  | Renew (volume_id : VolumeId) (session_id : SessionId) (now_ms ttl_ms : N)
  | Release (volume_id : VolumeId) (session_id : SessionId).

Inductive LeaseResponse :=
  | Granted (lease_version expires_at_ms : N)
  | Renewed (lease_version expires_at_ms : N)
  | Released
  | Denied (reason : string).

Definition LeaseResponse_is_success (r : LeaseResponse) : bool :=
  match r with Denied _ => false | _ => true end.

(** ** Facts *)

Section uuid.
Context `{UuidDisplay}.

#[global] Instance uuid_to_string_inj : Inj (=) (=) uuid_to_string.
Proof.
  intros u v Heq. apply (inj Some). rewrite <-!uuid_parse_to_string. by rewrite Heq.
Qed.

#[global] Instance NodeId_to_string_inj : Inj (=) (=) (to_string (A:=NodeId)).
Proof. intros [] [] ?%uuid_to_string_inj. naive_solver. Qed.

#[global] Instance VolumeId_to_string_inj : Inj (=) (=) (to_string (A:=VolumeId)).
Proof. intros [] [] ?%uuid_to_string_inj. naive_solver. Qed.

#[global] Instance SessionId_to_string_inj : Inj (=) (=) (to_string (A:=SessionId)).
Proof. intros [] [] ?%uuid_to_string_inj. naive_solver. Qed.

#[global] Instance OperationId_to_string_inj : Inj (=) (=) (to_string (A:=OperationId)).
Proof. intros [] [] ?%uuid_to_string_inj. naive_solver. Qed.

End uuid.

(** A validated policy tolerates fewer failures than the nodes it uses, as long
    as the number of fragments fits a u8. *)
Lemma validate_fault_tolerance p :
  ProtectionPolicy_validate p = Ok tt →
  match p with Replicated _ => True | ErasureCoded d m => d + m ≤ u8_max end →
  fault_tolerance p < required_nodes p.
Proof. destruct p; simpl; unfold sat_sub, u8_sat_add, u8_max; step_cases; lia. Qed.
