(* ===== verification/Json.v ===== *)
(** * JSON documents and derived codecs

    The management API and its clients (blockyard/src/api.rs,
    blockyard-ublk/src/http_metadata_client.rs, blockyard-cli) define their own
    structs for the same documents, so what crosses the wire is a document and not
    a value of a shared type.  A document is its syntax tree; the text form belongs
    to [serde_json] and is a parameter ([JsonText]).  Reading follows serde's derived
    [Deserialize]: a struct is read field by field, from an object by name or from an
    array by position; unknown fields are ignored, repeated ones refused, and a
    missing one is refused unless it is an [Option] or has a default.  Numbers are
    checked against the width of the field that reads them. *)

From Stdlib Require Import Strings.Byte Strings.Ascii.
From S2P Require Import Prelude Common.

#[local] Open Scope N_scope.

(** ** Documents *)

(** [JLiteral] is a number that is not an unsigned integer: negative or fractional. *)
Inductive json :=
  | JNull
  | JBool (b : bool)
  | JNumber (n : N)
  | JLiteral (text : string)
  | JString (s : string)
  | JArray (vs : list json)
  | JObject (fields : list (string * json)).

(** The text of a document, its parser, and the text of the error that reading a
    body as a value of some type gives. *)
Class JsonText := {
  json_print : json → string;
  json_parse : string → option json;
  read_error : string → string;
  json_parse_print : ∀ j, json_parse (json_print j) = Some j;
}.

(** ** Readers *)

Definition de_value (j : json) : option json := Some j.

Definition de_bool (j : json) : option bool :=
  match j with JBool b => Some b | _ => None end.

(** [width] is the largest value of the field's type. *)
Definition de_uint (width : N) (j : json) : option N :=
  match j with
  | JNumber n => if decide (n ≤ width) then Some n else None
  | _ => None
  end.

Definition u32_max : N := 4294967295.

Definition de_u64 : json → option N := de_uint u64_max.

Definition de_u32 : json → option N := de_uint u32_max.

Definition de_u8 : json → option N := de_uint u8_max.

Definition de_byte (j : json) : option byte := n ← de_u8 j; Byte.of_N n.

Definition de_string (j : json) : option string :=
  match j with JString s => Some s | _ => None end.

Definition de_vec {A} (d : json → option A) (j : json) : option (list A) :=
  match j with JArray vs => mapM d vs | _ => None end.

Definition de_option {A} (d : json → option A) (j : json) : option (option A) :=
  match j with JNull => Some None | _ => Some <$> d j end.

(** What is left of a struct to read. *)
Inductive source :=
  | Named (fields : list (string * json))
  | Positional (vs : list json).

Definition reader (A : Type) : Type := source → option (A * source).

#[global] Instance reader_mret : MRet reader := λ A a src, Some (a, src).

#[global] Instance reader_mbind : MBind reader := λ A B f r src,
  '(a, src) ← r src; f a src.

Fixpoint fields_named (name : string) (fields : list (string * json)) : list json :=
  match fields with
  | [] => []
  | (key, v) :: fields =>
      if String.eqb key name then v :: fields_named name fields else fields_named name fields
  end.

(** A field, with its value when an object and when an array does not have it. *)
Definition field_or {A} (in_object in_array : option A) (name : string) (d : json → option A) : reader A :=
  λ src, match src with
  | Named fields =>
      match fields_named name fields with
      | [] => a ← in_object; Some (a, src)
      | [v] => a ← d v; Some (a, src)
      | _ => None
      end
  | Positional (v :: vs) => a ← d v; Some (a, Positional vs)
  | Positional [] => a ← in_array; Some (a, src)
  end.

Definition field {A} (name : string) (d : json → option A) : reader A := field_or None None name d.

(** A field of type [Option]. *)
Definition field_option {A} (name : string) (d : json → option A) : reader (option A) :=
  field_or (Some None) None name (de_option d).

(** A field with [#[serde(default)]]. *)
Definition field_default {A} (dflt : A) (name : string) (d : json → option A) : reader A :=
  field_or (Some dflt) (Some dflt) name d.

Definition de_struct {A} (r : reader A) (j : json) : option A :=
  match j with
  | JObject fields => fst <$> r (Named fields)
  | JArray vs =>
      match r (Positional vs) with
      | Some (a, Positional []) => Some a
      | _ => None
      end
  | _ => None
  end.

(** An externally tagged enum: [variant name content], where a unit variant has no
    content in its short form. *)
Definition de_enum {A} (variant : string → option json → option A) (j : json) : option A :=
  match j with
  | JString name => variant name None
  | JObject [(name, content)] => variant name (Some content)
  | _ => None
  end.

Definition unit_variant {A} (a : A) (content : option json) : option A :=
  match content with None | Some JNull => Some a | _ => None end.

(** [value.get(name)], [as_str()] and [as_u64()] on a [serde_json::Value]; of a
    repeated key the last one counts. *)
Definition json_get (name : string) (j : json) : option json :=
  match j with JObject fields => last (fields_named name fields) | _ => None end.

Definition json_as_str (j : json) : option string := de_string j.

Definition json_as_u64 (j : json) : option N := de_u64 j.

(** ** Writers and readers of the shared types (blockyard-common) *)

Definition ser_option {A} (ser : A → json) (o : option A) : json :=
  match o with Some a => ser a | None => JNull end.

Definition ser_vec {A} (ser : A → json) (l : list A) : json := JArray (ser <$> l).

Definition ser_byte (b : byte) : json := JNumber (Byte.to_N b).

Section shared.
Context `{!UuidDisplay}.

Definition ser_uuid (u : N) : json := JString (uuid_to_string u).

Definition de_uuid (j : json) : option N := s ← de_string j; uuid_parse s.

Definition ser_node_id (i : NodeId) : json := ser_uuid (NodeId_as_uuid i).
Definition de_node_id (j : json) : option NodeId := NodeId_new <$> de_uuid j.

Definition ser_volume_id (i : VolumeId) : json := ser_uuid (VolumeId_as_uuid i).
Definition de_volume_id (j : json) : option VolumeId := VolumeId_new <$> de_uuid j.

Definition ser_extent_id (i : ExtentId) : json := ser_uuid (ExtentId_as_uuid i).
Definition de_extent_id (j : json) : option ExtentId := ExtentId_new <$> de_uuid j.

Definition de_disk_id (j : json) : option DiskId := DiskId_new <$> de_uuid j.

Definition ser_session_id (i : SessionId) : json := ser_uuid (SessionId_as_uuid i).
Definition de_session_id (j : json) : option SessionId := SessionId_new <$> de_uuid j.

Definition ser_operation_id (i : OperationId) : json := ser_uuid (OperationId_as_uuid i).
Definition de_operation_id (j : json) : option OperationId := OperationId_new <$> de_uuid j.

End shared.

Definition de_epoch_id (j : json) : option EpochId := EpochId_new <$> de_u64 j.

Definition ser_protection (p : ProtectionPolicy) : json :=
  match p with
  | Replicated r => JObject [("Replicated", JObject [("replicas", JNumber r)])]
  | ErasureCoded d m =>
      JObject [("ErasureCoded", JObject [("data_chunks", JNumber d); ("parity_chunks", JNumber m)])]
  end.

Definition de_protection : json → option ProtectionPolicy :=
  de_enum (λ name content,
    v ← content;
    if decide (name = "Replicated") then
      de_struct (r ← field "replicas" de_u8; mret (Replicated r)) v
    else if decide (name = "ErasureCoded") then
      de_struct (d ← field "data_chunks" de_u8; m ← field "parity_chunks" de_u8;
                 mret (ErasureCoded d m)) v
    else None).

Definition ser_lease_response (r : LeaseResponse) : json :=
  let granted v e := JObject [("lease_version", JNumber v); ("expires_at_ms", JNumber e)] in
  match r with
  | Granted v e => JObject [("Granted", granted v e)]
  | Renewed v e => JObject [("Renewed", granted v e)]
  | Released => JString "Released"
  | Denied reason => JObject [("Denied", JObject [("reason", JString reason)])]
  end.

Definition de_lease_response : json → option LeaseResponse :=
  let granted mk := de_struct (v ← field "lease_version" de_u64;
                               e ← field "expires_at_ms" de_u64; mret (mk v e)) in
  de_enum (λ name content,
    if decide (name = "Granted") then content ≫= granted Granted
    else if decide (name = "Renewed") then content ≫= granted Renewed
    else if decide (name = "Released") then unit_variant Released content
    else if decide (name = "Denied") then
      content ≫= de_struct (reason ← field "reason" de_string; mret (Denied reason))
    else None).

(** [DiskState]: unit variants, under their Rust names. *)
Definition de_disk_state : json → option DiskState :=
  de_enum (λ name content,
    if decide (name = "Healthy") then unit_variant Healthy content
    else if decide (name = "Suspect") then unit_variant Suspect content
    else if decide (name = "Degraded") then unit_variant Degraded content
    else if decide (name = "Draining") then unit_variant Draining content
    else if decide (name = "Failed") then unit_variant Failed content
    else if decide (name = "Removed") then unit_variant Removed content
    else None).

(** ** Correctness of codecs

    [d] reads back what [ser] writes of every value that fits the width of its
    fields, and never anything else. *)

Class Codec {A} (d : json → option A) (ser : A → json) (fit : A → Prop) : Prop := {
  codec_fit : ∀ a, fit a → d (ser a) = Some a;
  codec_only : ∀ a b, d (ser a) = Some b → b = a ∧ fit a;
}.

(** Values that are not written as [null] can be optional. *)
Class NotNull {A} (ser : A → json) : Prop := not_null : ∀ a, ser a ≠ JNull.

#[global] Instance codec_bool : Codec de_bool JBool (λ _, True).
Proof. split; naive_solver. Qed.

#[global] Instance codec_string : Codec de_string JString (λ _, True).
Proof. split; naive_solver. Qed.

Lemma codec_uint w : Codec (de_uint w) JNumber (λ n, n ≤ w).
Proof. split; intros a; simpl; [intros; by rewrite decide_True|]. intros b. case_decide; naive_solver. Qed.

#[global] Instance codec_u64 : Codec de_u64 JNumber (λ n, n ≤ u64_max).
Proof. apply codec_uint. Qed.

#[global] Instance codec_u32 : Codec de_u32 JNumber (λ n, n ≤ u32_max).
Proof. apply codec_uint. Qed.

#[global] Instance codec_u8 : Codec de_u8 JNumber (λ n, n ≤ u8_max).
Proof. apply codec_uint. Qed.

Lemma byte_fits b : Byte.to_N b ≤ u8_max.
Proof. by destruct b. Qed.

#[global] Instance codec_byte : Codec de_byte ser_byte (λ _, True).
Proof.
  assert (∀ b, de_byte (ser_byte b) = Some b) as Hb.
  { intros b. unfold de_byte, ser_byte. rewrite codec_fit by apply byte_fits. simpl. apply Byte.of_to_N. }
  split; intros a; rewrite Hb; naive_solver.
Qed.

#[global] Instance codec_vec {A} (d : json → option A) ser fit :
  Codec d ser fit → Codec (de_vec d) (ser_vec ser) (Forall fit).
Proof.
  intros Hc. split; intros l; unfold de_vec, ser_vec; setoid_rewrite mapM_Some; setoid_rewrite Forall2_fmap_l.
  - intros Hl. apply Forall_Forall2_diag. eapply Forall_impl; [done|]. intros a. apply codec_fit.
  - intros l'. induction 1 as [|a b l l' Hab _ [-> Hl]]; [done|].
    apply codec_only in Hab as [-> Ha]. by split; [|constructor].
Qed.

#[global] Instance codec_option {A} (d : json → option A) ser (fit : A → Prop) :
  Codec d ser fit → NotNull ser →
  Codec (de_option d) (ser_option ser) (λ o, ∀ a, o = Some a → fit a).
Proof.
  intros Hc Hn. assert (∀ a, de_option d (ser a) = Some <$> d (ser a)) as Hs.
  { intros a. specialize (Hn a). by destruct (ser a). }
  split; intros [a|]; simpl; rewrite ?Hs; try done.
  - intros Hf. rewrite (codec_fit a (Hf a eq_refl)). done.
  - intros b (a' & [-> Ha]%codec_only & ->)%fmap_Some. split; [done|naive_solver].
  - naive_solver.
Qed.

#[global] Instance not_null_number : NotNull JNumber.
Proof. done. Qed.

#[global] Instance not_null_string : NotNull JString.
Proof. done. Qed.

#[global] Instance not_null_vec {A} (ser : A → json) : NotNull (ser_vec ser).
Proof. done. Qed.

(** A codec for a type with one field. *)
Lemma codec_iso {A B} (d : json → option A) ser fit (mk : A → B) (get : B → A) :
  Codec d ser fit → (∀ b, mk (get b) = b) →
  Codec (λ j, mk <$> d j) (λ b, ser (get b)) (λ b, fit (get b)).
Proof.
  intros Hc Hmk. split; intros b; simpl.
  - intros Hf. rewrite codec_fit by done. simpl. by rewrite Hmk.
  - intros b' (a & [-> ?]%codec_only & ->)%fmap_Some. by rewrite Hmk.
Qed.

Section shared_codecs.
Context `{!UuidDisplay}.

#[global] Instance codec_uuid : Codec de_uuid ser_uuid (λ _, True).
Proof. split; intros a; unfold de_uuid, ser_uuid; simpl; rewrite uuid_parse_to_string; naive_solver. Qed.

#[global] Instance codec_node_id : Codec de_node_id ser_node_id (λ _, True).
Proof. apply (codec_iso _ _ _ NodeId_new NodeId_as_uuid codec_uuid). by intros []. Qed.

#[global] Instance codec_volume_id : Codec de_volume_id ser_volume_id (λ _, True).
Proof. apply (codec_iso _ _ _ VolumeId_new VolumeId_as_uuid codec_uuid). by intros []. Qed.

#[global] Instance codec_extent_id : Codec de_extent_id ser_extent_id (λ _, True).
Proof. apply (codec_iso _ _ _ ExtentId_new ExtentId_as_uuid codec_uuid). by intros []. Qed.

#[global] Instance codec_session_id : Codec de_session_id ser_session_id (λ _, True).
Proof. apply (codec_iso _ _ _ SessionId_new SessionId_as_uuid codec_uuid). by intros []. Qed.

#[global] Instance codec_operation_id : Codec de_operation_id ser_operation_id (λ _, True).
Proof. apply (codec_iso _ _ _ OperationId_new OperationId_as_uuid codec_uuid). by intros []. Qed.

#[global] Instance not_null_extent_id : NotNull ser_extent_id.
Proof. done. Qed.

#[global] Instance not_null_operation_id : NotNull ser_operation_id.
Proof. done. Qed.

End shared_codecs.

(** ** Reading structs *)

Lemma reader_bind {A B} (r : reader A) (f : A → reader B) src :
  (r ≫= f) src = r src ≫= λ p, f p.1 p.2.
Proof. unfold mbind, reader_mbind. destruct (r src) as [[]|]; done. Qed.

(** One field of an object, written with a codec: the reader goes on exactly when
    the value fits. *)
Section fields.
Context {A B : Type} (d : json → option A) (ser : A → json) (fit : A → Prop) `{!Codec d ser fit}.
Context (o o' : option A) (name : string) (f : A → reader B) (fields : list (string * json)).

Lemma read_field a :
  fields_named name fields = [ser a] → fit a →
  (field_or o o' name d ≫= f) (Named fields) = f a (Named fields).
Proof. intros Hf Ha. rewrite reader_bind. unfold field_or. rewrite Hf. by rewrite codec_fit. Qed.

Lemma read_field_only a r :
  fields_named name fields = [ser a] →
  (field_or o o' name d ≫= f) (Named fields) = Some r → fit a ∧ f a (Named fields) = Some r.
Proof.
  intros Hf. rewrite reader_bind. unfold field_or. rewrite Hf.
  destruct (d (ser a)) as [b|] eqn:Hb; [|done]. apply codec_only in Hb as [-> Ha]. by split.
Qed.

End fields.

(** An optional field that is present. *)
Section some_fields.
Context {A B : Type} (d : json → option A) (ser : A → json) (fit : A → Prop) `{!Codec d ser fit} `{!NotNull ser}.
Context (o o' : option (option A)) (name : string) (f : option A → reader B) (fields : list (string * json)).

Lemma read_some_field a :
  fields_named name fields = [ser a] → fit a →
  (field_or o o' name (de_option d) ≫= f) (Named fields) = f (Some a) (Named fields).
Proof.
  intros Hf Ha.
  apply (read_field (de_option d) (ser_option ser) (λ o, ∀ a, o = Some a → fit a) _ _ _ _ _ (Some a));
    [done|naive_solver].
Qed.

Lemma read_some_field_only a r :
  fields_named name fields = [ser a] →
  (field_or o o' name (de_option d) ≫= f) (Named fields) = Some r → fit a ∧ f (Some a) (Named fields) = Some r.
Proof.
  intros Hf Hr.
  apply (read_field_only (de_option d) (ser_option ser) (λ o, ∀ a, o = Some a → fit a) _ _ _ _ _ (Some a))
    in Hr as [Hfit Hr]; [|done].
  split; [by apply Hfit|done].
Qed.

End some_fields.

Lemma read_absent {A B} (a : A) o' name d (f : A → reader B) fields :
  fields_named name fields = [] →
  (field_or (Some a) o' name d ≫= f) (Named fields) = f a (Named fields).
Proof. intros Hf. rewrite reader_bind. unfold field_or. by rewrite Hf. Qed.

(** A field whose value is refused. *)
Lemma read_refused {A B} (d : json → option A) o o' name (f : A → reader B) fields v :
  fields_named name fields = [v] → d v = None → (field_or o o' name d ≫= f) (Named fields) = None.
Proof. intros Hf Hv. rewrite reader_bind. unfold field_or. by rewrite Hf, Hv. Qed.

(** Look up a literal name among literal names. *)
Ltac find_field := cbn [fields_named String.eqb Ascii.eqb Bool.eqb]; reflexivity.

(** A value fits: by a hypothesis, or because all of its elements do. *)
Ltac solve_fits := first [by eauto | repeat (apply Forall_true; intros); by eauto].

(** Read a struct from an object all of whose values fit. *)
Ltac read_fields :=
  unfold field, field_option, field_default;
  repeat first
    [ erewrite read_some_field; [|apply _|apply _|find_field|solve_fits]
    | erewrite read_field; [|apply _|find_field|solve_fits]
    | erewrite read_absent; [|find_field] ].

(** Turn the acceptance of an object into the fact that its values fit. *)
Ltac accepted_fields H :=
  unfold field, field_option, field_default in H;
  repeat first
    [ eapply read_some_field_only in H as [? H]; [|apply _|apply _|find_field]
    | eapply read_field_only in H as [? H]; [|apply _|find_field]
    | erewrite read_absent in H; [|find_field] ].

Lemma de_struct_some {A} (r : reader A) fields a :
  de_struct r (JObject fields) = Some a → ∃ src, r (Named fields) = Some (a, src).
Proof. simpl. intros ([a' src] & ? & ->)%fmap_Some. by exists src. Qed.

#[global] Instance codec_protection : Codec de_protection ser_protection (λ p,
  match p with Replicated r => r ≤ u8_max | ErasureCoded d m => d ≤ u8_max ∧ m ≤ u8_max end).
Proof.
  split; intros [r|d m]; unfold de_protection, ser_protection; simpl.
  - intros Hr. read_fields. done.
  - intros [Hd Hm]. read_fields. done.
  - intros b ([p src] & H & ->)%fmap_Some. accepted_fields H. by injection H as <-.
  - intros b ([p src] & H & ->)%fmap_Some. accepted_fields H. by injection H as <-.
Qed.

#[global] Instance codec_lease_response : Codec de_lease_response ser_lease_response (λ r,
  match r with Granted v e | Renewed v e => v ≤ u64_max ∧ e ≤ u64_max | _ => True end).
Proof.
  split; intros [v e|v e| |reason]; unfold de_lease_response, ser_lease_response; simpl; try done.
  - intros [Hv He]. read_fields. done.
  - intros [Hv He]. read_fields. done.
  - intros b ([p src] & H & ->)%fmap_Some. accepted_fields H. by injection H as <-.
  - intros b ([p src] & H & ->)%fmap_Some. accepted_fields H. by injection H as <-.
  - naive_solver.
  - naive_solver.
Qed.

(** ** A concrete text form, used to evaluate the model *)

Section text.

Fixpoint json_tree (j : json) : gen_tree (bool + (N + (string + string))) :=
  match j with
  | JNull => GenNode 0 []
  | JBool b => GenLeaf (inl b)
  | JNumber n => GenLeaf (inr (inl n))
  | JLiteral t => GenLeaf (inr (inr (inl t)))
  | JString s => GenLeaf (inr (inr (inr s)))
  | JArray vs => GenNode 1 (json_tree <$> vs)
  | JObject fields =>
      GenNode 2 ((λ f, GenNode 3 [GenLeaf (inr (inr (inr f.1))); json_tree f.2]) <$> fields)
  end.

Fixpoint tree_json (t : gen_tree (bool + (N + (string + string)))) : json :=
  match t with
  | GenLeaf (inl b) => JBool b
  | GenLeaf (inr (inl n)) => JNumber n
  | GenLeaf (inr (inr (inl t))) => JLiteral t
  | GenLeaf (inr (inr (inr s))) => JString s
  | GenNode 1 ts => JArray (tree_json <$> ts)
  | GenNode 2 ts =>
      JObject ((λ t, match t with
        | GenNode 3 [GenLeaf (inr (inr (inr k))); t] => (k, tree_json t)
        | _ => (EmptyString, JNull)
        end) <$> ts)
  | _ => JNull
  end.

Fixpoint tree_json_tree (j : json) : tree_json (json_tree j) = j.
Proof.
  destruct j as [| | | | |vs|fields]; simpl; [reflexivity..| |]; f_equal.
  - induction vs as [|v vs IH]; [reflexivity|]. exact (f_equal2 cons (tree_json_tree v) IH).
  - induction fields as [|[k v] fields IH]; [reflexivity|].
    exact (f_equal2 cons (f_equal (pair k) (tree_json_tree v)) IH).
Qed.

Fixpoint digits_of_pos (p : positive) : string :=
  match p with
  | xH => EmptyString
  | xO p => String "0"%char (digits_of_pos p)
  | xI p => String "1"%char (digits_of_pos p)
  end.

Fixpoint pos_of_digits (s : string) : option positive :=
  match s with
  | EmptyString => Some xH
  | String c s =>
      p ← pos_of_digits s;
      if decide (c = "0"%char) then Some (xO p) else if decide (c = "1"%char) then Some (xI p) else None
  end.

Lemma pos_of_digits_of_pos p : pos_of_digits (digits_of_pos p) = Some p.
Proof. induction p as [p IH|p IH|]; simpl; [rewrite IH; done..|done]. Qed.

Lemma json_parse_digits j :
  (p ← pos_of_digits (digits_of_pos (encode (json_tree j))); tree_json <$> decode p) = Some j.
Proof. rewrite pos_of_digits_of_pos. simpl. rewrite decode_encode. simpl. by rewrite tree_json_tree. Qed.

Definition json_digits : JsonText :=
  {| json_print := λ j, digits_of_pos (encode (json_tree j));
     json_parse := λ s, p ← pos_of_digits s; tree_json <$> decode p;
     read_error := λ s, "error at line 1";
     json_parse_print := json_parse_digits |}.

End text.
