(* ===== verification/MetadataSM.v ===== *)
(** * The metadata state machine (crates/blockyard-raft)

    The replicated state of the cluster and its transition function:
    state_machine.rs, with the requests of request.rs and the responses of
    response.rs.  One definition per arm of [apply_request]; the arms that
    contain an [expect] run in [exec], so that a panic is visible.  openraft's
    leader identifiers and memberships are a parameter ([RaftTypes]): the state
    machine stores them and never looks inside. *)

From Stdlib Require Import Strings.Byte.
From S2P Require Import Prelude Common.

#[local] Open Scope N_scope.

(** ** Data *)

Class RaftTypes := {
  LeaderId : Type;
  Membership : Type;
  membership_default : Membership;
}.

(** The trivial instance, used to evaluate the model. *)
Definition raft_types_unit : RaftTypes :=
  {| LeaderId := unit; Membership := unit; membership_default := tt |}.

Record LogId `{RaftTypes} := MkLogId { log_leader_id : LeaderId; log_index : N }.

Record StoredMembership `{RaftTypes} := MkStoredMembership {
  membership_log_id : option LogId;
  membership : Membership;
}.

Record VolumeMetadata := MkVolumeMetadata {
  vol_volume_id : VolumeId;
  vol_size_bytes : N;
  vol_protection : ProtectionPolicy;
  vol_extent_size : N;
  vol_created_at_epoch : EpochId;
}.

Definition default_extent_size : N := 524288.

Record ExtentMapping := MkExtentMapping {
  em_extent_id : ExtentId;
  em_extent_version : N;
  em_epoch : EpochId;
  em_block_range : Range;
  em_replica_locations : list NodeId;
  em_checksums : list (list byte);
  em_operation_id : option OperationId;
}.

Record ClusterNode := MkClusterNode { cn_node_id : NodeId; cn_addr : string }.

Record ClusterDisk := MkClusterDisk {
  cd_disk_id : DiskId;
  cd_node_id : NodeId;
  cd_capacity_bytes : N;
  cd_used_bytes : N;
  cd_state : DiskState;
}.

Record MetadataStateMachineData `{RaftTypes} := MkSM {
  sm_last_applied : option LogId;
  sm_last_membership : StoredMembership;
  sm_epoch : EpochId;
  sm_nodes : gmap string ClusterNode;
  sm_volumes : gmap string VolumeMetadata;
  sm_extent_mappings : gmap string (gmap N ExtentMapping);
  sm_operation_index : gmap string (string * N);
  sm_extent_version_index : gmap N (string * N);
  sm_placement_map : gmap string (list NodeId);
  sm_leases : gmap string VolumeLease;
  sm_lease_version_counter : N;
  sm_raft_id_counter : N;
  sm_node_raft_map : gmap NodeId N;
  sm_cluster_disks : gmap DiskId ClusterDisk;
}.

Arguments MkLogId {_} _ _.
Arguments MkStoredMembership {_} _ _.
Arguments MkSM {_} _ _ _ _ _ _ _ _ _ _ _ _ _ _.

(** Requests.  [CommitExtentMapping] carries the fields of one batch entry. *)
Record ExtentMappingEntry := MkEntry {
  ent_volume_id : VolumeId;
  ent_block_range : Range;
  ent_extent_id : ExtentId;
  ent_extent_version : N;
  ent_epoch : EpochId;
  ent_replica_locations : list NodeId;
  ent_checksums : list (list byte);
  ent_operation_id : option OperationId;
  ent_previous_version : option N;
}.

Inductive MetadataRequest :=
  | AddNode (node_id : NodeId) (addr : string)
  | RemoveNode (node_id : NodeId)
  | CreateVolume (volume_id : VolumeId) (size_bytes : N) (protection : ProtectionPolicy)
      (extent_size : N)
  | DeleteVolume (volume_id : VolumeId)
  | AdvanceEpoch
  | CommitExtentMapping (entry : ExtentMappingEntry)
  | CommitExtentMappingBatch (mappings : list ExtentMappingEntry)
  | UpdatePlacementMap (assignments : gmap string (list NodeId))
  | Lease (req : LeaseRequest)
  | RegisterNode (node_id : NodeId) (addr : string)
  | RegisterDisk (disk_id : DiskId) (node_id : NodeId) (capacity_bytes : N)
  | UpdateDiskUsage (disk_id : DiskId) (used_bytes : N)
  | DeregisterDisk (disk_id : DiskId)
  | CleanupExpiredLeases (now_ms : N).

Inductive MetadataResponse :=
  | RespOk
  | RespEpoch (e : EpochId)
  | RespError (msg : string)
  | RespLease (r : LeaseResponse)
  | RespNodeRegistered (raft_id : N)
  | RespDiskRegistered
  | RespLeasesCleanedUp (n : nat).

Definition is_error (r : MetadataResponse) : bool :=
  match r with RespError _ => true | _ => false end.

(** ** Field updates: the assignments to [self.<field>] of the source *)

Section setters.
Context `{!RaftTypes}.
Implicit Types s : MetadataStateMachineData.

Definition set_last_applied v s :=
  MkSM v (sm_last_membership s) (sm_epoch s) (sm_nodes s) (sm_volumes s) (sm_extent_mappings s)
    (sm_operation_index s) (sm_extent_version_index s) (sm_placement_map s) (sm_leases s)
    (sm_lease_version_counter s) (sm_raft_id_counter s) (sm_node_raft_map s) (sm_cluster_disks s).

Definition set_last_membership v s :=
  MkSM (sm_last_applied s) v (sm_epoch s) (sm_nodes s) (sm_volumes s) (sm_extent_mappings s)
    (sm_operation_index s) (sm_extent_version_index s) (sm_placement_map s) (sm_leases s)
    (sm_lease_version_counter s) (sm_raft_id_counter s) (sm_node_raft_map s) (sm_cluster_disks s).

Definition set_epoch v s :=
  MkSM (sm_last_applied s) (sm_last_membership s) v (sm_nodes s) (sm_volumes s)
    (sm_extent_mappings s) (sm_operation_index s) (sm_extent_version_index s) (sm_placement_map s)
    (sm_leases s) (sm_lease_version_counter s) (sm_raft_id_counter s) (sm_node_raft_map s)
    (sm_cluster_disks s).

Definition set_nodes v s :=
  MkSM (sm_last_applied s) (sm_last_membership s) (sm_epoch s) v (sm_volumes s)
    (sm_extent_mappings s) (sm_operation_index s) (sm_extent_version_index s) (sm_placement_map s)
    (sm_leases s) (sm_lease_version_counter s) (sm_raft_id_counter s) (sm_node_raft_map s)
    (sm_cluster_disks s).

Definition set_volumes v s :=
  MkSM (sm_last_applied s) (sm_last_membership s) (sm_epoch s) (sm_nodes s) v
    (sm_extent_mappings s) (sm_operation_index s) (sm_extent_version_index s) (sm_placement_map s)
    (sm_leases s) (sm_lease_version_counter s) (sm_raft_id_counter s) (sm_node_raft_map s)
    (sm_cluster_disks s).

(** The extent mappings and the two indexes over them. *)
Definition set_mappings em oi vi s :=
  MkSM (sm_last_applied s) (sm_last_membership s) (sm_epoch s) (sm_nodes s) (sm_volumes s)
    em oi vi (sm_placement_map s)
    (sm_leases s) (sm_lease_version_counter s) (sm_raft_id_counter s) (sm_node_raft_map s)
    (sm_cluster_disks s).

Definition set_placement_map v s :=
  MkSM (sm_last_applied s) (sm_last_membership s) (sm_epoch s) (sm_nodes s) (sm_volumes s)
    (sm_extent_mappings s) (sm_operation_index s) (sm_extent_version_index s) v
    (sm_leases s) (sm_lease_version_counter s) (sm_raft_id_counter s) (sm_node_raft_map s)
    (sm_cluster_disks s).

Definition set_leases v s :=
  MkSM (sm_last_applied s) (sm_last_membership s) (sm_epoch s) (sm_nodes s) (sm_volumes s)
    (sm_extent_mappings s) (sm_operation_index s) (sm_extent_version_index s) (sm_placement_map s)
    v (sm_lease_version_counter s) (sm_raft_id_counter s) (sm_node_raft_map s)
    (sm_cluster_disks s).

Definition set_lease_version_counter v s :=
  MkSM (sm_last_applied s) (sm_last_membership s) (sm_epoch s) (sm_nodes s) (sm_volumes s)
    (sm_extent_mappings s) (sm_operation_index s) (sm_extent_version_index s) (sm_placement_map s)
    (sm_leases s) v (sm_raft_id_counter s) (sm_node_raft_map s)
    (sm_cluster_disks s).

Definition set_raft_ids counter rmap s :=
  MkSM (sm_last_applied s) (sm_last_membership s) (sm_epoch s) (sm_nodes s) (sm_volumes s)
    (sm_extent_mappings s) (sm_operation_index s) (sm_extent_version_index s) (sm_placement_map s)
    (sm_leases s) (sm_lease_version_counter s) counter rmap
    (sm_cluster_disks s).

Definition set_cluster_disks v s :=
  MkSM (sm_last_applied s) (sm_last_membership s) (sm_epoch s) (sm_nodes s) (sm_volumes s)
    (sm_extent_mappings s) (sm_operation_index s) (sm_extent_version_index s) (sm_placement_map s)
    (sm_leases s) (sm_lease_version_counter s) (sm_raft_id_counter s) (sm_node_raft_map s)
    v.

(** [MetadataStateMachineData::default()]. *)
Definition sm_default : MetadataStateMachineData :=
  MkSM None (MkStoredMembership None membership_default) (EpochId_new 0) ∅ ∅ ∅ ∅ ∅ ∅ ∅ 0 0 ∅ ∅.

End setters.

(** ** The arms of [apply_request] *)

Section handlers.
Context `{!UuidDisplay} `{!RaftTypes}.
Implicit Types s : MetadataStateMachineData.

Definition insert_node (node_id : NodeId) (addr : string) s : MetadataStateMachineData :=
  set_nodes (<[to_string node_id := MkClusterNode node_id addr]> (sm_nodes s)) s.

Definition apply_add_node (node_id : NodeId) (addr : string) s :=
  (insert_node node_id addr s, RespOk).

Definition apply_remove_node (node_id : NodeId) s :=
  let key := to_string node_id in
  match sm_nodes s !! key with
  | Some _ => (set_nodes (delete key (sm_nodes s)) s, RespOk)
  | None => (s, RespError ("node " +:+ to_string node_id +:+ " not found"))
  end.

Definition apply_create_volume (volume_id : VolumeId) (size_bytes : N)
    (protection : ProtectionPolicy) (extent_size : N) s :=
  let key := to_string volume_id in
  if decide (is_Some (sm_volumes s !! key))
  then (s, RespError ("volume " +:+ to_string volume_id +:+ " already exists"))
  else match ProtectionPolicy_validate protection with
  | Err e => (s, RespError ("invalid protection policy: " +:+ to_string e))
  | Ok _ =>
      let vol := MkVolumeMetadata volume_id size_bytes protection extent_size (sm_epoch s) in
      let s := set_volumes (<[key := vol]> (sm_volumes s)) s in
      (set_mappings (<[key := ∅]> (sm_extent_mappings s)) (sm_operation_index s)
         (sm_extent_version_index s) s, RespOk)
  end.

(** Drop the index entries of one mapping: the two [remove] calls that precede
    the overwriting of a mapping and that the deletion of a volume repeats. *)
Definition unindex_operation (m : ExtentMapping) (oi : gmap string (string * N)) :=
  match em_operation_id m with
  | Some op_id => delete (to_string op_id) oi
  | None => oi
  end.

Definition unindex_version (m : ExtentMapping) (vi : gmap N (string * N)) :=
  delete (em_extent_version m) vi.

Definition apply_delete_volume (volume_id : VolumeId) s :=
  let key := to_string volume_id in
  match sm_volumes s !! key with
  | None => (s, RespError ("volume " +:+ to_string volume_id +:+ " not found"))
  | Some _ =>
      let s := set_volumes (delete key (sm_volumes s)) s in
      let s :=
        match sm_extent_mappings s !! key with
        | Some mappings =>
            set_mappings (delete key (sm_extent_mappings s))
              (foldl (λ oi m, unindex_operation m oi) (sm_operation_index s) (btree_values mappings))
              (foldl (λ vi m, unindex_version m vi) (sm_extent_version_index s) (btree_values mappings)) s
        | None => s
        end in
      (set_leases (delete key (sm_leases s)) s, RespOk)
  end.

Definition apply_advance_epoch s :=
  let new_val := u64_sat_add (EpochId_as_u64 (sm_epoch s)) 1 in
  let s := set_epoch (EpochId_new new_val) s in
  (s, RespEpoch (sm_epoch s)).

(** The compare-and-swap guard: the error it returns, if any. *)
Definition cas_check (previous_version : option N) (block_start : N)
    (vol_mappings : gmap N ExtentMapping) : option string :=
  match previous_version with
  | None => None
  | Some prev_ver =>
      match vol_mappings !! block_start with
      | Some existing =>
          if decide (em_extent_version existing = prev_ver) then None
          else Some ("CAS failure: expected version " +:+ u64_to_string prev_ver +:+ ", found "
                       +:+ u64_to_string (em_extent_version existing))
      | None =>
          if decide (prev_ver = 0) then None
          else Some ("CAS failure: no existing mapping at block " +:+ u64_to_string block_start
                       +:+ ", expected version " +:+ u64_to_string prev_ver)
      end
  end.

Definition mapping_of_entry (e : ExtentMappingEntry) : ExtentMapping :=
  MkExtentMapping (ent_extent_id e) (ent_extent_version e) (ent_epoch e) (ent_block_range e)
    (ent_replica_locations e) (ent_checksums e) (ent_operation_id e).

(** The writes of a commit whose guards have passed. *)
Definition commit_mapping (e : ExtentMappingEntry) (vol_mappings : gmap N ExtentMapping) s
    : MetadataStateMachineData :=
  let vol_key := to_string (ent_volume_id e) in
  let start := range_start (ent_block_range e) in
  let '(oi, vi) :=
    match vol_mappings !! start with
    | Some existing =>
        (unindex_operation existing (sm_operation_index s),
         unindex_version existing (sm_extent_version_index s))
    | None => (sm_operation_index s, sm_extent_version_index s)
    end in
  let oi :=
    match ent_operation_id e with
    | Some op_id => <[to_string op_id := (vol_key, start)]> oi
    | None => oi
    end in
  let vi := <[ent_extent_version e := (vol_key, start)]> vi in
  set_mappings
    (<[vol_key := <[start := mapping_of_entry e]> vol_mappings]> (sm_extent_mappings s)) oi vi s.

Definition apply_commit (e : ExtentMappingEntry) s
    : exec (MetadataStateMachineData * MetadataResponse) :=
  let vol_key := to_string (ent_volume_id e) in
  match sm_volumes s !! vol_key with
  | None => Return (s, RespError ("volume " +:+ to_string (ent_volume_id e) +:+ " not found"))
  | Some _ =>
      if decide (ent_epoch e = sm_epoch s) then
        vol_mappings ← expect (sm_extent_mappings s !! vol_key);
        match cas_check (ent_previous_version e) (range_start (ent_block_range e)) vol_mappings with
        | Some msg => Return (s, RespError msg)
        | None => Return (commit_mapping e vol_mappings s, RespEpoch (sm_epoch s))
        end
      else Return (s, RespError ("stale epoch: request has " +:+ to_string (ent_epoch e)
                                   +:+ ", current is " +:+ to_string (sm_epoch s)))
  end.

Fixpoint apply_commit_batch (mappings : list ExtentMappingEntry) s
    : exec (MetadataStateMachineData * MetadataResponse) :=
  match mappings with
  | [] => Return (s, RespEpoch (sm_epoch s))
  | entry :: mappings =>
      '(s, resp) ← apply_commit entry s;
      if is_error resp then Return (s, resp) else apply_commit_batch mappings s
  end.

Definition apply_update_placement_map (assignments : gmap string (list NodeId)) s :=
  (set_placement_map
     (foldl (λ pm kn, <[kn.1 := kn.2]> pm) (sm_placement_map s) (btree_list assignments)) s,
   RespOk).

Definition apply_register_node (node_id : NodeId) (addr : string) s :=
  match sm_node_raft_map s !! node_id with
  | Some existing_raft_id => (insert_node node_id addr s, RespNodeRegistered existing_raft_id)
  | None =>
      let raft_id := u64_add (sm_raft_id_counter s) 1 in
      let s := set_raft_ids raft_id (<[node_id := raft_id]> (sm_node_raft_map s)) s in
      (insert_node node_id addr s, RespNodeRegistered raft_id)
  end.

Definition apply_register_disk (disk_id : DiskId) (node_id : NodeId) (capacity_bytes : N) s :=
  let disk := MkClusterDisk disk_id node_id capacity_bytes 0 Healthy in
  (set_cluster_disks (<[disk_id := disk]> (sm_cluster_disks s)) s, RespDiskRegistered).

Definition apply_update_disk_usage (disk_id : DiskId) (used_bytes : N) s :=
  match sm_cluster_disks s !! disk_id with
  | Some d =>
      let d := MkClusterDisk (cd_disk_id d) (cd_node_id d) (cd_capacity_bytes d) used_bytes
                 (cd_state d) in
      (set_cluster_disks (<[disk_id := d]> (sm_cluster_disks s)) s, RespDiskRegistered)
  | None => (s, RespError ("disk " +:+ to_string disk_id +:+ " not found"))
  end.

Definition apply_deregister_disk (disk_id : DiskId) s :=
  match sm_cluster_disks s !! disk_id with
  | Some _ => (set_cluster_disks (delete disk_id (sm_cluster_disks s)) s, RespDiskRegistered)
  | None => (s, RespError ("disk " +:+ to_string disk_id +:+ " not found"))
  end.

Definition cleanup_expired_leases (now_ms : N) s : MetadataStateMachineData * nat :=
  let before := size (sm_leases s) in
  let s := set_leases (filter (λ kl, is_expired kl.2 now_ms = false) (sm_leases s)) s in
  (s, (before - size (sm_leases s))%nat).

(** ** Leases *)

Definition apply_acquire (volume_id : VolumeId) (session_id : SessionId) (now_ms ttl_ms : N) s
    : MetadataStateMachineData * LeaseResponse :=
  let key := to_string volume_id in
  let grant :=
    let version := u64_add (sm_lease_version_counter s) 1 in
    let s := set_lease_version_counter version s in
    let lease := MkVolumeLease volume_id session_id now_ms (u64_add now_ms ttl_ms) version in
    (set_leases (<[key := lease]> (sm_leases s)) s, Granted version (u64_add now_ms ttl_ms)) in
  if decide (is_Some (sm_volumes s !! key)) then
    match sm_leases s !! key with
    | Some existing =>
        if negb (is_expired existing now_ms) && negb (is_held_by existing session_id)
        then (s, Denied ("volume " +:+ to_string volume_id +:+ " lease held by session "
                           +:+ to_string (lease_holder existing)))
        else grant
    | None => grant
    end
  else (s, Denied ("volume " +:+ to_string volume_id +:+ " not found")).

Definition apply_renew (volume_id : VolumeId) (session_id : SessionId) (now_ms ttl_ms : N) s
    : MetadataStateMachineData * LeaseResponse :=
  let key := to_string volume_id in
  match sm_leases s !! key with
  | None => (s, Denied ("no lease exists for volume " +:+ to_string volume_id))
  | Some existing =>
      if negb (is_held_by existing session_id) then
        (s, Denied ("lease for volume " +:+ to_string volume_id +:+ " held by different session "
                      +:+ to_string (lease_holder existing)))
      else if is_expired existing now_ms then
        (s, Denied ("lease for volume " +:+ to_string volume_id
                      +:+ " has expired, must re-acquire"))
      else
        let version := u64_add (sm_lease_version_counter s) 1 in
        let s := set_lease_version_counter version s in
        let lease := MkVolumeLease (lease_volume_id existing) (lease_holder existing)
                       (lease_granted_at_ms existing) (u64_add now_ms ttl_ms) version in
        (set_leases (<[key := lease]> (sm_leases s)) s, Renewed version (u64_add now_ms ttl_ms))
  end.

Definition apply_release (volume_id : VolumeId) (session_id : SessionId) s
    : MetadataStateMachineData * LeaseResponse :=
  let key := to_string volume_id in
  match sm_leases s !! key with
  | Some existing =>
      if is_held_by existing session_id
      then (set_leases (delete key (sm_leases s)) s, Released)
      else (s, Denied ("cannot release lease for volume " +:+ to_string volume_id
                         +:+ ": held by different session"))
  | None => (s, Released)
  end.

Definition apply_lease_request (req : LeaseRequest) s : MetadataStateMachineData * LeaseResponse :=
  match req with
  | Acquire volume_id session_id now_ms ttl_ms => apply_acquire volume_id session_id now_ms ttl_ms s
  | Renew volume_id session_id now_ms ttl_ms => apply_renew volume_id session_id now_ms ttl_ms s
  | Release volume_id session_id => apply_release volume_id session_id s
  end.

(** ** The transition function *)

Definition apply_request (req : MetadataRequest) s
    : exec (MetadataStateMachineData * MetadataResponse) :=
  match req with
  | AddNode node_id addr => Return (apply_add_node node_id addr s)
  | RemoveNode node_id => Return (apply_remove_node node_id s)
  | CreateVolume volume_id size_bytes protection extent_size =>
      Return (apply_create_volume volume_id size_bytes protection extent_size s)
  | DeleteVolume volume_id => Return (apply_delete_volume volume_id s)
  | AdvanceEpoch => Return (apply_advance_epoch s)
  | CommitExtentMapping entry => apply_commit entry s
  | CommitExtentMappingBatch mappings => apply_commit_batch mappings s
  | UpdatePlacementMap assignments => Return (apply_update_placement_map assignments s)
  | Lease lease_req =>
      let '(s, r) := apply_lease_request lease_req s in Return (s, RespLease r)
  | RegisterNode node_id addr => Return (apply_register_node node_id addr s)
  | RegisterDisk disk_id node_id capacity_bytes =>
      Return (apply_register_disk disk_id node_id capacity_bytes s)
  | UpdateDiskUsage disk_id used_bytes => Return (apply_update_disk_usage disk_id used_bytes s)
  | DeregisterDisk disk_id => Return (apply_deregister_disk disk_id s)
  | CleanupExpiredLeases now_ms =>
      let '(s, removed) := cleanup_expired_leases now_ms s in Return (s, RespLeasesCleanedUp removed)
  end.

(** ** Queries *)

Definition lookup_by_operation_id (op_id : OperationId) s : option ExtentMapping :=
  '(vol_key, block_start) ← sm_operation_index s !! to_string op_id;
  vol ← sm_extent_mappings s !! (vol_key : string);
  vol !! (block_start : N).

Definition lookup_by_extent_version (version : N) s : option ExtentMapping :=
  '(vol_key, block_start) ← sm_extent_version_index s !! version;
  vol ← sm_extent_mappings s !! (vol_key : string);
  vol !! (block_start : N).

Definition get_volume_mappings (volume_id : VolumeId) s : option (gmap N ExtentMapping) :=
  sm_extent_mappings s !! to_string volume_id.

Definition get_volume (volume_id : VolumeId) s : option VolumeMetadata :=
  sm_volumes s !! to_string volume_id.

Definition list_volumes s : list VolumeMetadata := btree_values (sm_volumes s).

Definition get_node (node_id : NodeId) s : option ClusterNode := sm_nodes s !! to_string node_id.

Definition list_nodes s : list ClusterNode := btree_values (sm_nodes s).

Definition get_raft_id (node_id : NodeId) s : option N := sm_node_raft_map s !! node_id.

Definition get_node_id_by_raft_id `{!HashIter NodeId} (raft_id : N) s : option NodeId :=
  snd <$> list_find (λ k, sm_node_raft_map s !! k = Some raft_id)
            (hash_keys (sm_node_raft_map s)).

Definition get_cluster_disk (disk_id : DiskId) s : option ClusterDisk :=
  sm_cluster_disks s !! disk_id.

Definition list_cluster_disks `{!HashIter DiskId} s : list ClusterDisk :=
  omap (λ k, sm_cluster_disks s !! k) (hash_keys (sm_cluster_disks s)).

Definition list_all_leases s : list VolumeLease := btree_values (sm_leases s).

Definition list_active_leases (now_ms : N) s : list VolumeLease :=
  filter (λ l, is_expired l now_ms = false) (btree_values (sm_leases s)).

Definition get_lease (volume_id : VolumeId) s : option VolumeLease :=
  sm_leases s !! to_string volume_id.

Definition validate_lease (volume_id : VolumeId) (session_id : SessionId) (version now_ms : N) s
    : result string unit :=
  lease ← ok_or ("no lease for volume " +:+ to_string volume_id)
            (sm_leases s !! to_string volume_id);
  if negb (is_held_by lease session_id) then
    Err ("lease for volume " +:+ to_string volume_id +:+ " held by session "
           +:+ to_string (lease_holder lease) +:+ ", not " +:+ to_string session_id)
  else if is_expired lease now_ms then
    Err ("lease for volume " +:+ to_string volume_id +:+ " has expired")
  else if decide (lease_version lease = version) then Ok tt
  else Err ("stale lease version: request has " +:+ u64_to_string version +:+ ", current is "
              +:+ u64_to_string (lease_version lease)).

(** A sequence of requests, as the Raft log delivers them. *)
Fixpoint apply_requests (reqs : list MetadataRequest) s
    : exec (MetadataStateMachineData * list MetadataResponse) :=
  match reqs with
  | [] => Return (s, [])
  | req :: reqs =>
      '(s, resp) ← apply_request req s;
      '(s, resps) ← apply_requests reqs s;
      Return (s, resp :: resps)
  end.

End handlers.

(** States the cluster can reach from the initial one. *)
Inductive reachable `{!UuidDisplay} `{!RaftTypes} : MetadataStateMachineData → Prop :=
  | reachable_default : reachable sm_default
  | reachable_step s req s' resp :
      reachable s → apply_request req s = Return (s', resp) → reachable s'.
