(* ===== verification/MetadataInv.v ===== *)
(** * Correctness of the metadata state machine

    The well-formedness invariant of [MetadataStateMachineData] and its
    preservation by every request; what it gives: [apply_request] never panics,
    the two committed-state indexes never return a wrong mapping, a commit is a
    compare-and-swap, a failed request changes nothing. *)

From S2P Require Import Prelude Common MetadataSM.

#[local] Open Scope N_scope.

(** ** Indexes over the extent mappings *)

Definition mapping_at (em : gmap string (gmap N ExtentMapping)) (vol : string) (b : N) : option ExtentMapping :=
  vm ← em !! vol; vm !! b.

Lemma mapping_at_insert em vm vol b m vol' b' :
  em !! vol = Some vm →
  mapping_at (<[vol := <[b := m]> vm]> em) vol' b' =
    if decide (vol' = vol ∧ b' = b) then Some m else mapping_at em vol' b'.
Proof.
  intros Hvm. unfold mapping_at. case_decide as Hd.
  - destruct Hd as [-> ->]. by rewrite lookup_insert_eq; simpl; rewrite lookup_insert_eq.
  - destruct (decide (vol' = vol)) as [->|].
    + rewrite lookup_insert_eq, Hvm; simpl. rewrite lookup_insert_ne; naive_solver.
    + by rewrite lookup_insert_ne.
Qed.

Section index.
Context {I : Type} `{Countable I} (keyof : ExtentMapping → option I).
Implicit Types (idx : gmap I (string * N)) (em : gmap string (gmap N ExtentMapping)).

(** Every index entry points at a mapping that carries the entry's key. *)
Definition index_sound idx em : Prop :=
  ∀ k vol b, idx !! k = Some (vol, b) → ∃ m, mapping_at em vol b = Some m ∧ keyof m = Some k.

Definition unindex (m : ExtentMapping) idx : gmap I (string * N) :=
  match keyof m with Some k => delete k idx | None => idx end.

Definition index_insert (m : ExtentMapping) (vol : string) (b : N) idx : gmap I (string * N) :=
  match keyof m with Some k => <[k := (vol, b)]> idx | None => idx end.

Lemma lookup_index_insert m vol b idx k :
  keyof m = Some k → index_insert m vol b idx !! k = Some (vol, b).
Proof. unfold index_insert. intros ->. apply lookup_insert_eq. Qed.

Lemma lookup_unindex m idx k loc :
  unindex m idx !! k = Some loc ↔ idx !! k = Some loc ∧ keyof m ≠ Some k.
Proof.
  unfold unindex. destruct (keyof m) as [k'|] eqn:Hk; [|naive_solver].
  rewrite lookup_delete_Some. naive_solver.
Qed.

Lemma lookup_unindex_all ms idx k loc :
  foldl (λ i m, unindex m i) idx ms !! k = Some loc ↔
  idx !! k = Some loc ∧ ∀ m, m ∈ ms → keyof m ≠ Some k.
Proof.
  revert idx. induction ms as [|m ms IH]; intros idx; simpl.
  - set_solver.
  - rewrite IH, lookup_unindex. set_solver.
Qed.

Lemma index_sound_commit idx em vm vol b m :
  index_sound idx em →
  em !! vol = Some vm →
  index_sound
    (index_insert m vol b (match vm !! b with Some old => unindex old idx | None => idx end))
    (<[vol := <[b := m]> vm]> em).
Proof.
  intros Hs Hvm k vol' b' Hk. rewrite (mapping_at_insert _ _ _ _ _ _ _ Hvm).
  assert (keyof m = Some k ∧ vol' = vol ∧ b' = b ∨
    keyof m ≠ Some k ∧
    match vm !! b with Some old => unindex old idx | None => idx end !! k = Some (vol', b'))
    as [(Hm & -> & ->)|[Hm Hold]].
  { unfold index_insert in Hk. destruct (keyof m) as [k'|] eqn:?; [|by right].
    apply lookup_insert_Some in Hk. naive_solver. }
  - rewrite decide_True by done. naive_solver.
  - case_decide as Hd.
    + destruct Hd as [-> ->]. exfalso. destruct (vm !! b) as [old|] eqn:Hb.
      * apply lookup_unindex in Hold as [Hidx Hne].
        destruct (Hs _ _ _ Hidx) as (m' & Hm' & Hkey).
        unfold mapping_at in Hm'. rewrite Hvm in Hm'. simplify_eq/=.
      * destruct (Hs _ _ _ Hold) as (m' & Hm' & _).
        unfold mapping_at in Hm'. rewrite Hvm in Hm'. simplify_eq/=.
    + destruct (vm !! b); [apply lookup_unindex in Hold as [? _]|]; by apply Hs.
Qed.

Lemma index_sound_delete idx em vm vol :
  index_sound idx em →
  em !! vol = Some vm →
  index_sound (foldl (λ i m, unindex m i) idx (btree_values vm)) (delete vol em).
Proof.
  intros Hs Hvm k vol' b' [Hk Hne]%lookup_unindex_all.
  destruct (Hs _ _ _ Hk) as (m & Hm & Hkey).
  exists m. split; [|done]. unfold mapping_at in *.
  destruct (decide (vol' = vol)) as [->|]; [|by rewrite lookup_delete_ne].
  rewrite Hvm in Hm; simpl in Hm. destruct (Hne m); [|done].
  apply elem_of_btree_values. eauto.
Qed.

Lemma index_sound_create idx em vol :
  index_sound idx em → em !! vol = None → index_sound idx (<[vol := ∅]> em).
Proof.
  intros Hs Hvol k vol' b' Hk. destruct (Hs _ _ _ Hk) as (m & Hm & Hkey).
  exists m. split; [|done]. unfold mapping_at in *.
  rewrite lookup_insert_ne; [done|]. intros ->. by rewrite Hvol in Hm.
Qed.

End index.

(** ** The invariant *)

Section invariant.
Context `{!UuidDisplay} `{!RaftTypes}.
Implicit Types s : MetadataStateMachineData.

(** The keys of the two indexes. *)
Definition op_key (m : ExtentMapping) : option string := to_string <$> em_operation_id m.

Definition version_key (m : ExtentMapping) : option N := Some (em_extent_version m).

Record sm_inv s : Prop := {
  inv_dom : ∀ k, is_Some (sm_volumes s !! k) ↔ is_Some (sm_extent_mappings s !! k);
  inv_op : index_sound op_key (sm_operation_index s) (sm_extent_mappings s);
  inv_version : index_sound version_key (sm_extent_version_index s) (sm_extent_mappings s);
  inv_start : ∀ vol b m, mapping_at (sm_extent_mappings s) vol b = Some m →
    range_start (em_block_range m) = b;
  inv_volumes : ∀ k v, sm_volumes s !! k = Some v →
    k = to_string (vol_volume_id v) ∧ ProtectionPolicy_validate (vol_protection v) = Ok tt;
  inv_leases : ∀ k l, sm_leases s !! k = Some l →
    k = to_string (lease_volume_id l) ∧ is_Some (sm_volumes s !! k);
  inv_nodes : ∀ k n, sm_nodes s !! k = Some n → k = to_string (cn_node_id n);
}.

Lemma unindex_operation_eq m oi : unindex_operation m oi = unindex op_key m oi.
Proof. unfold unindex_operation, unindex, op_key. by destruct (em_operation_id m). Qed.

Lemma unindex_version_eq m vi : unindex_version m vi = unindex version_key m vi.
Proof. done. Qed.

Lemma foldl_unindex_operation ms oi :
  foldl (λ oi m, unindex_operation m oi) oi ms = foldl (λ oi m, unindex op_key m oi) oi ms.
Proof.
  revert oi. induction ms as [|m ms IH]; intros oi; simpl; [done|].
  by rewrite unindex_operation_eq, IH.
Qed.

Lemma commit_mapping_eq e vm s :
  let v := to_string (ent_volume_id e) in
  let b := range_start (ent_block_range e) in
  let m := mapping_of_entry e in
  commit_mapping e vm s =
    set_mappings (<[v := <[b := m]> vm]> (sm_extent_mappings s))
      (index_insert op_key m v b
         (match vm !! b with
          | Some old => unindex op_key old (sm_operation_index s)
          | None => sm_operation_index s end))
      (index_insert version_key m v b
         (match vm !! b with
          | Some old => unindex version_key old (sm_extent_version_index s)
          | None => sm_extent_version_index s end)) s.
Proof.
  unfold commit_mapping, index_insert, op_key at 1. simpl.
  destruct (vm !! _); [rewrite unindex_operation_eq|]; by destruct (ent_operation_id e).
Qed.

(** *** Preservation, arm by arm *)

Lemma sm_inv_default : sm_inv sm_default.
Proof.
  split; simpl; try by intros ?*; rewrite lookup_empty.
  - intros k. by rewrite !lookup_empty.
  - intros vol b m. unfold mapping_at. by rewrite lookup_empty.
Qed.

Lemma sm_inv_insert_node n addr s : sm_inv s → sm_inv (insert_node n addr s).
Proof.
  intros []. split; simpl; try done.
  intros k n'. rewrite lookup_insert_Some. naive_solver.
Qed.

Lemma sm_inv_remove_node n s : sm_inv s → sm_inv (apply_remove_node n s).1.
Proof.
  intros Hinv. unfold apply_remove_node. case_match; [|done]. destruct Hinv.
  split; simpl; try done. intros k n'. rewrite lookup_delete_Some. naive_solver.
Qed.

Lemma sm_inv_create_volume v sz p es s : sm_inv s → sm_inv (apply_create_volume v sz p es s).1.
Proof.
  intros Hinv. unfold apply_create_volume. case_decide as Hex; [done|].
  case_match eqn:Hval; [|done]. destruct Hinv as [Hdom ?? Hstart Hvols Hleases ?].
  assert (sm_extent_mappings s !! to_string v = None) as Hnone.
  { apply eq_None_not_Some. by rewrite <-Hdom. }
  destruct a. split; simpl; try done.
  - intros k. rewrite !lookup_insert_is_Some. by rewrite Hdom.
  - by apply index_sound_create.
  - by apply index_sound_create.
  - intros vol b m. unfold mapping_at. destruct (decide (vol = to_string v)) as [->|].
    + by rewrite lookup_insert_eq.
    + rewrite lookup_insert_ne by done. apply Hstart.
  - intros k vm [[<- <-]|[? ?]]%lookup_insert_Some; [done|by apply Hvols].
  - intros k l [? ?]%Hleases. split; [done|]. rewrite lookup_insert_is_Some'. auto.
Qed.

Lemma sm_inv_delete_volume v s : sm_inv s → sm_inv (apply_delete_volume v s).1.
Proof.
  intros Hinv. unfold apply_delete_volume. case_match eqn:Hv; [|done]. simpl.
  destruct Hinv as [Hdom ?? Hstart Hvols Hleases ?].
  destruct (sm_extent_mappings s !! to_string v) as [vm|] eqn:Hvm.
  2:{ exfalso. apply eq_None_not_Some in Hvm. apply Hvm, Hdom. eauto. }
  rewrite foldl_unindex_operation. split; simpl; try done.
  - intros k. rewrite !lookup_delete_is_Some. by rewrite Hdom.
  - by apply index_sound_delete.
  - by apply (index_sound_delete version_key).
  - intros vol b m. unfold mapping_at. destruct (decide (vol = to_string v)) as [->|].
    + by rewrite lookup_delete_eq.
    + rewrite lookup_delete_ne by done. apply Hstart.
  - intros k vd. rewrite lookup_delete_Some. intros [_ ?]. by apply Hvols.
  - intros k l. rewrite lookup_delete_Some. intros [? [??]%Hleases].
    split; [done|]. rewrite lookup_delete_is_Some. naive_solver.
Qed.

Lemma sm_inv_commit_mapping e vm s :
  sm_inv s → sm_extent_mappings s !! to_string (ent_volume_id e) = Some vm →
  sm_inv (commit_mapping e vm s).
Proof.
  intros [Hdom ?? Hstart Hvols Hleases ?] Hvm. rewrite commit_mapping_eq. split; simpl; try done.
  - intros k. rewrite Hdom, lookup_insert_is_Some'.
    split; [by right|]. intros [<-|]; [|done]. eauto.
  - by apply index_sound_commit.
  - by apply index_sound_commit.
  - intros vol b m. erewrite mapping_at_insert by done.
    case_decide; [naive_solver|apply Hstart].
Qed.

Lemma sm_inv_commit e s s' r : sm_inv s → apply_commit e s = Return (s', r) → sm_inv s'.
Proof.
  intros Hinv Happ. unfold apply_commit, expect in Happ. inv_handler Happ.
  by apply sm_inv_commit_mapping.
Qed.

Lemma sm_inv_commit_batch es s s' r : sm_inv s → apply_commit_batch es s = Return (s', r) → sm_inv s'.
Proof.
  revert s. induction es as [|e es IH]; intros s Hinv; simpl; [naive_solver|].
  destruct (apply_commit e s) as [[s1 r1]|] eqn:He; [|done]. simpl.
  apply sm_inv_commit in He; [|done]. case_match; [naive_solver|by apply IH].
Qed.

Lemma sm_inv_set_leases L c s :
  sm_inv s →
  (∀ k l, L !! k = Some l → k = to_string (lease_volume_id l) ∧ is_Some (sm_volumes s !! k)) →
  sm_inv (set_leases L (set_lease_version_counter c s)).
Proof. by intros [] ?; split. Qed.

Lemma set_leases_id c L s :
  c = sm_lease_version_counter s → set_leases L s = set_leases L (set_lease_version_counter c s).
Proof. by intros ->; destruct s. Qed.

Lemma sm_inv_lease req s : sm_inv s → sm_inv (apply_lease_request req s).1.
Proof.
  intros Hinv. pose proof (inv_leases _ Hinv) as Hl.
  destruct req; simpl; unfold apply_acquire, apply_renew, apply_release; step_cases;
    try rewrite (set_leases_id (sm_lease_version_counter s)) by done;
    apply sm_inv_set_leases; try done; simpl.
  all: try (intros k l [[<- <-]|[? ?]]%lookup_insert_Some; [simpl; naive_solver|by apply Hl]).
  intros k l [? ?]%lookup_delete_Some. by apply Hl.
Qed.

(** A lease request changes the leases and their version counter only. *)
Lemma apply_lease_request_frame req s s' r :
  apply_lease_request req s = (s', r) →
  ∃ L c, s' = set_leases L (set_lease_version_counter c s).
Proof.
  assert (∃ L c, s = set_leases L (set_lease_version_counter c s)).
  { exists (sm_leases s), (sm_lease_version_counter s). by destruct s. }
  destruct req; simpl; unfold apply_acquire, apply_renew, apply_release; step_cases;
    intros [= <- <-]; try done; eexists _, _; by first [apply set_leases_id | reflexivity].
Qed.

Lemma sm_inv_cleanup now s : sm_inv s → sm_inv (cleanup_expired_leases now s).1.
Proof.
  intros Hinv. simpl. rewrite (set_leases_id (sm_lease_version_counter s)) by done.
  apply sm_inv_set_leases; [done|]. intros k l [? ?]%map_lookup_filter_Some.
  by apply (inv_leases _ Hinv).
Qed.

Lemma Return_pair {A B} (p : A * B) a b : Return p = Return (a, b) → a = p.1 ∧ b = p.2.
Proof. by intros [= ->]. Qed.

(** Every request preserves the invariant. *)
Lemma sm_inv_apply req s s' r : sm_inv s → apply_request req s = Return (s', r) → sm_inv s'.
Proof.
  intros Hinv Happ.
  destruct req; simpl in Happ;
    try (apply Return_pair in Happ as [-> ->]).
  - by apply sm_inv_insert_node.
  - by apply sm_inv_remove_node.
  - by apply sm_inv_create_volume.
  - by apply sm_inv_delete_volume.
  - by destruct Hinv; split.
  - by eapply sm_inv_commit.
  - by eapply sm_inv_commit_batch.
  - by destruct Hinv; split.
  - destruct (apply_lease_request req s) as [s1 r1] eqn:Hl. simplify_eq.
    pose proof (sm_inv_lease req s Hinv) as Hi. by rewrite Hl in Hi.
  - unfold apply_register_node. case_match; simpl; [by apply sm_inv_insert_node|].
    apply sm_inv_insert_node. by destruct Hinv; split.
  - by destruct Hinv; split.
  - unfold apply_update_disk_usage. case_match; [|done]. by destruct Hinv; split.
  - unfold apply_deregister_disk. case_match; [|done]. by destruct Hinv; split.
  - by apply sm_inv_cleanup.
Qed.

Lemma sm_inv_reachable s : reachable s → sm_inv s.
Proof. induction 1; [apply sm_inv_default|by eapply sm_inv_apply]. Qed.

Lemma sm_inv_apply_requests reqs s s' rs :
  sm_inv s → apply_requests reqs s = Return (s', rs) → sm_inv s'.
Proof.
  revert s rs. induction reqs as [|req reqs IH]; intros s rs Hinv; simpl; [naive_solver|].
  destruct (apply_request req s) as [[s1 r1]|] eqn:Hreq; [|done]; simpl.
  destruct (apply_requests reqs s1) as [[s2 rs2]|] eqn:Hreqs; [|done]; simpl.
  intros [= <- <-]. by eapply IH; [eapply sm_inv_apply|].
Qed.

Lemma apply_requests_app reqs1 reqs2 s :
  apply_requests (reqs1 ++ reqs2) s =
    '(s1, rs1) ← apply_requests reqs1 s; '(s2, rs2) ← apply_requests reqs2 s1; Return (s2, rs1 ++ rs2).
Proof.
  revert s. induction reqs1 as [|req reqs1 IH]; intros s; simpl.
  { by destruct (apply_requests reqs2 s) as [[]|]. }
  destruct (apply_request req s) as [[s1 r1]|]; [|done]. simpl. rewrite IH.
  destruct (apply_requests reqs1 s1) as [[s2 rs2]|]; [|done]. simpl.
  by destruct (apply_requests reqs2 s2) as [[]|].
Qed.

Lemma apply_requests_snoc reqs req s s' rs :
  apply_requests (reqs ++ [req]) s = Return (s', rs) →
  ∃ s1 rs1 r, apply_requests reqs s = Return (s1, rs1) ∧
    apply_request req s1 = Return (s', r) ∧ rs = rs1 ++ [r].
Proof.
  revert s rs. induction reqs as [|q reqs IH]; intros s rs; simpl.
  - destruct (apply_request req s) as [[s1 r1]|] eqn:Hreq; [|done]; simpl.
    intros [= <- <-]. by exists s, [], r1.
  - destruct (apply_request q s) as [[s1 r1]|]; [|done]; simpl.
    destruct (apply_requests (reqs ++ [req]) s1) as [[s2 rs2]|] eqn:Hreqs; [|done]; simpl.
    intros [= <- <-]. apply IH in Hreqs as (s3 & rs3 & r & -> & Hreq & ->). simpl.
    by exists s3, (r1 :: rs3), r.
Qed.

(** *** What a commit can change *)

Lemma apply_commit_ok e s s' r :
  apply_commit e s = Return (s', r) → is_error r = false →
  ∃ vm, sm_extent_mappings s !! to_string (ent_volume_id e) = Some vm ∧
    s' = commit_mapping e vm s ∧ r = RespEpoch (sm_epoch s).
Proof.
  unfold apply_commit, expect. intros Happ Hr. inv_handler Happ. eauto.
Qed.

Lemma apply_commit_err e s s' r :
  apply_commit e s = Return (s', r) → is_error r = true → s' = s.
Proof. unfold apply_commit, expect. intros Happ Hr. by inv_handler Happ. Qed.

Lemma set_mappings_id s :
  s = set_mappings (sm_extent_mappings s) (sm_operation_index s) (sm_extent_version_index s) s.
Proof. by destruct s. Qed.

Lemma apply_commit_frame e s s' r :
  apply_commit e s = Return (s', r) → ∃ em oi vi, s' = set_mappings em oi vi s.
Proof.
  intros Happ. destruct (is_error r) eqn:Hr.
  - rewrite (apply_commit_err _ _ _ _ Happ Hr). eexists _, _, _. apply set_mappings_id.
  - destruct (apply_commit_ok _ _ _ _ Happ Hr) as (vm & _ & -> & _).
    rewrite commit_mapping_eq. eauto.
Qed.

Lemma apply_commit_batch_frame es s s' r :
  apply_commit_batch es s = Return (s', r) → ∃ em oi vi, s' = set_mappings em oi vi s.
Proof.
  revert s. induction es as [|e es IH]; intros s; simpl.
  { intros [= <- <-]. eexists _, _, _. apply set_mappings_id. }
  destruct (apply_commit e s) as [[s1 r1]|] eqn:He; [|done]; simpl.
  apply apply_commit_frame in He as (em & oi & vi & ->).
  destruct (is_error r1); [naive_solver|]. intros (em' & oi' & vi' & ->)%IH. eauto.
Qed.

(** *** No panics *)

Lemma apply_commit_total e s : sm_inv s → ∃ s' r, apply_commit e s = Return (s', r).
Proof.
  intros Hinv. unfold apply_commit. case_match eqn:Hv; [|eauto]. case_decide; [|eauto].
  destruct (proj1 (inv_dom _ Hinv (to_string (ent_volume_id e)))) as [vm Hvm]; [eauto|].
  rewrite Hvm. simpl. case_match; eauto.
Qed.

Lemma apply_commit_batch_total es s :
  sm_inv s → ∃ s' r, apply_commit_batch es s = Return (s', r).
Proof.
  revert s. induction es as [|e es IH]; intros s Hinv; simpl; [eauto|].
  destruct (apply_commit_total e s Hinv) as (s1 & r1 & He). rewrite He; simpl.
  case_match; [eauto|]. eapply IH, sm_inv_commit; eauto.
Qed.

Lemma apply_request_total req s : sm_inv s → ∃ s' r, apply_request req s = Return (s', r).
Proof.
  intros Hinv. destruct req; simpl; try (eexists _, _; reflexivity).
  - unfold apply_remove_node. case_match; eauto.
  - unfold apply_create_volume. repeat case_match; eauto.
  - unfold apply_delete_volume. repeat case_match; eauto.
  - by apply apply_commit_total.
  - by apply apply_commit_batch_total.
  - destruct (apply_lease_request req s). eauto.
  - unfold apply_register_node. case_match; eauto.
  - unfold apply_update_disk_usage. case_match; eauto.
  - unfold apply_deregister_disk. case_match; eauto.
Qed.

Lemma apply_requests_total reqs s :
  sm_inv s → ∃ s' rs, apply_requests reqs s = Return (s', rs).
Proof.
  revert s. induction reqs as [|req reqs IH]; intros s Hinv; simpl; [eauto|].
  destruct (apply_request_total req s Hinv) as (s1 & r1 & Hreq). rewrite Hreq; simpl.
  destruct (IH s1) as (s2 & rs & Hreqs); [by eapply sm_inv_apply|].
  rewrite Hreqs; simpl. eauto.
Qed.

End invariant.
