(* ===== verification/MetadataSpec.v ===== *)
(** * What the metadata state machine promises

    An abstract specification of committed block metadata, a flat map from
    (volume, first block) to the committed mapping guarded by the current epoch
    and a version compare-and-swap, and the simulation that shows
    [apply_request] implements it.  Then the theorems on the requests: committed
    state queries, failed requests, batches, deletion, epochs. *)

From S2P Require Import Prelude Common MetadataSM MetadataInv.

#[local] Open Scope N_scope.

(** ** The abstract specification *)

Record CommitSpec := MkSpec {
  spec_epoch : N;
  spec_volumes : gset VolumeId;
  spec_map : gmap (VolumeId * N) ExtentMapping;
}.

Definition spec_init : CommitSpec := MkSpec 0 ∅ ∅.

(** The version a compare-and-swap sees: 0 where nothing is committed. *)
Definition spec_version (a : CommitSpec) (v : VolumeId) (b : N) : N :=
  default 0 (em_extent_version <$> spec_map a !! (v, b)).

Definition spec_commit_allowed (e : ExtentMappingEntry) (a : CommitSpec) : Prop :=
  ent_volume_id e ∈ spec_volumes a ∧
  EpochId_as_u64 (ent_epoch e) = spec_epoch a ∧
  match ent_previous_version e with
  | Some p => spec_version a (ent_volume_id e) (range_start (ent_block_range e)) = p
  | None => True
  end.

#[global] Instance spec_commit_allowed_dec e a : Decision (spec_commit_allowed e a).
Proof. unfold spec_commit_allowed. destruct (ent_previous_version e); apply _. Defined.

(** One commit: the new specification state, and whether it succeeded. *)
Definition spec_commit (e : ExtentMappingEntry) (a : CommitSpec) : CommitSpec * bool :=
  if decide (spec_commit_allowed e a) then
    (MkSpec (spec_epoch a) (spec_volumes a)
       (<[(ent_volume_id e, range_start (ent_block_range e)) := mapping_of_entry e]> (spec_map a)),
     true)
  else (a, false).

(** The entries of a batch, one after the other, until one is refused. *)
Fixpoint commit_entries (es : list ExtentMappingEntry) (a : CommitSpec) : CommitSpec * bool :=
  match es with
  | [] => (a, true)
  | e :: es =>
      let '(a, ok) := spec_commit e a in
      if ok then commit_entries es a else (a, false)
  end.

(** A batch commits as a whole or not at all. *)
Definition spec_commit_batch (es : list ExtentMappingEntry) (a : CommitSpec) : CommitSpec * bool :=
  let '(a', ok) := commit_entries es a in if ok then (a', true) else (a, false).

(** One request, [batch] saying what a batch does. *)
Definition step_with (batch : list ExtentMappingEntry → CommitSpec → CommitSpec * bool)
    (req : MetadataRequest) (a : CommitSpec) : CommitSpec :=
  match req with
  | CreateVolume v _ p _ =>
      if is_ok (ProtectionPolicy_validate p)
      then MkSpec (spec_epoch a) ({[v]} ∪ spec_volumes a) (spec_map a) else a
  | DeleteVolume v =>
      MkSpec (spec_epoch a) (spec_volumes a ∖ {[v]}) (filter (λ kv, kv.1.1 ≠ v) (spec_map a))
  | AdvanceEpoch => MkSpec (u64_sat_add (spec_epoch a) 1) (spec_volumes a) (spec_map a)
  | CommitExtentMapping e => (spec_commit e a).1
  | CommitExtentMappingBatch es => (batch es a).1
  | _ => a
  end.

(** Whether a commit request succeeds. *)
Definition commits_with (batch : list ExtentMappingEntry → CommitSpec → CommitSpec * bool)
    (req : MetadataRequest) (a : CommitSpec) : option bool :=
  match req with
  | CommitExtentMapping e => Some (spec_commit e a).2
  | CommitExtentMappingBatch es => Some (batch es a).2
  | _ => None
  end.

Fixpoint run_with (batch : list ExtentMappingEntry → CommitSpec → CommitSpec * bool)
    (reqs : list MetadataRequest) (a : CommitSpec) : CommitSpec * list (option bool) :=
  match reqs with
  | [] => (a, [])
  | req :: reqs =>
      let '(a', oks) := run_with batch reqs (step_with batch req a) in (a', commits_with batch req a :: oks)
  end.

(** The specification: batches are atomic. *)
Definition spec_run : list MetadataRequest → CommitSpec → CommitSpec * list (option bool) := run_with spec_commit_batch.

(** What a log of requests amounts to in the code: the entries of a batch that are
    before the first refused one stay. *)
Abbreviation log_step := (step_with commit_entries).
Abbreviation log_commits := (commits_with commit_entries).
Abbreviation log_run := (run_with commit_entries).

(** A batch that is not cut short: all of it is allowed, or its first entry is refused. *)
Definition whole_batch (req : MetadataRequest) (a : CommitSpec) : Prop :=
  match req with
  | CommitExtentMappingBatch ((e :: _) as es) => (commit_entries es a).2 = true ∨ (spec_commit e a).2 = false
  | _ => True
  end.

Fixpoint whole_batches (reqs : list MetadataRequest) (a : CommitSpec) : Prop :=
  match reqs with
  | [] => True
  | req :: reqs => whole_batch req a ∧ whole_batches reqs (step_with spec_commit_batch req a)
  end.

Lemma whole_batch_atomic es a :
  whole_batch (CommitExtentMappingBatch es) a → spec_commit_batch es a = commit_entries es a.
Proof.
  unfold spec_commit_batch. destruct es as [|e es]; [done|]. intros [Hall|Hfirst].
  - destruct (commit_entries (e :: es) a) as [a' ok]. simpl in Hall. by rewrite Hall.
  - simpl. unfold spec_commit in *. by case_decide.
Qed.

(** On batches that are not cut short, the log does what the specification says. *)
Lemma spec_run_log reqs a : whole_batches reqs a → spec_run reqs a = log_run reqs a.
Proof.
  unfold spec_run. revert a. induction reqs as [|req reqs IH]; intros a; simpl; [done|]. intros [Hreq Hreqs].
  assert (step_with spec_commit_batch req a = log_step req a ∧ commits_with spec_commit_batch req a = log_commits req a)
    as [<- <-] by (destruct req; try done; simpl; by rewrite whole_batch_atomic).
  by rewrite IH.
Qed.

(** ** The simulation *)

Section refinement.
Context `{!UuidDisplay} `{!RaftTypes}.
Implicit Types (s : MetadataStateMachineData) (a : CommitSpec).

(** The mapping committed for a block of a volume. *)
Definition committed s (v : VolumeId) (b : N) : option ExtentMapping :=
  vm ← get_volume_mappings v s; vm !! b.

Record refines s a : Prop := {
  ref_epoch : EpochId_as_u64 (sm_epoch s) = spec_epoch a;
  ref_volumes : ∀ v, v ∈ spec_volumes a ↔ is_Some (get_volume v s);
  ref_map : ∀ v b, spec_map a !! (v, b) = committed s v b;
}.

Lemma refines_ext s s' a :
  refines s a → sm_epoch s' = sm_epoch s → sm_volumes s' = sm_volumes s →
  sm_extent_mappings s' = sm_extent_mappings s → refines s' a.
Proof.
  intros [???] He Hv Hm. unfold committed, get_volume, get_volume_mappings in *.
  split; unfold committed, get_volume, get_volume_mappings; by rewrite ?He, ?Hv, ?Hm.
Qed.

Lemma committed_mapping_at s v b :
  committed s v b = mapping_at (sm_extent_mappings s) (to_string v) b.
Proof. done. Qed.

(** The guard of the code is the guard of the specification. *)
Lemma cas_check_spec s a e vm :
  refines s a →
  sm_extent_mappings s !! to_string (ent_volume_id e) = Some vm →
  cas_check (ent_previous_version e) (range_start (ent_block_range e)) vm = None ↔
  match ent_previous_version e with
  | Some p => spec_version a (ent_volume_id e) (range_start (ent_block_range e)) = p
  | None => True
  end.
Proof.
  intros Href Hvm. unfold cas_check, spec_version. rewrite (ref_map _ _ Href).
  rewrite committed_mapping_at. unfold mapping_at. rewrite Hvm; simpl.
  destruct (ent_previous_version e) as [p|]; [|done].
  destruct (vm !! _); simpl; case_decide; naive_solver.
Qed.

Lemma committed_commit_mapping s e vm v b :
  sm_extent_mappings s !! to_string (ent_volume_id e) = Some vm →
  committed (commit_mapping e vm s) v b =
    if decide (v = ent_volume_id e ∧ b = range_start (ent_block_range e))
    then Some (mapping_of_entry e) else committed s v b.
Proof.
  intros Hvm. rewrite !committed_mapping_at, commit_mapping_eq. simpl.
  erewrite mapping_at_insert by done. apply decide_ext.
  split; intros [? ?]; split; congruence || by apply (inj to_string).
Qed.

Lemma refines_commit s a e s' r :
  sm_inv s → refines s a → apply_commit e s = Return (s', r) →
  refines s' (spec_commit e a).1 ∧ is_error r = negb (spec_commit e a).2.
Proof.
  intros Hinv Href Happ. unfold apply_commit, spec_commit in *.
  pose proof (ref_volumes _ _ Href (ent_volume_id e)) as Hvol. unfold get_volume in Hvol.
  pose proof (ref_epoch _ _ Href) as Hep.
  destruct (sm_volumes s !! _) as [vd|] eqn:Hv.
  2:{ simplify_eq. rewrite decide_False; [done|]. unfold spec_commit_allowed. rewrite Hvol.
      intros [[? ?] _]. done. }
  destruct (proj1 (inv_dom _ Hinv (to_string (ent_volume_id e)))) as [vm Hvm]; [eauto|].
  rewrite Hvm in Happ.
  pose proof (cas_check_spec s a e vm Href Hvm) as Hcas.
  case_decide as Hee; simpl in Happ.
  - destruct (cas_check _ _ _) as [msg|]; simplify_eq.
    + rewrite decide_False; [done|]. intros (_ & _ & Hc). naive_solver.
    + rewrite decide_True.
      2:{ split_and!; [apply Hvol; eauto|by rewrite Hee|by apply Hcas]. }
      split; [|done]. split; simpl.
      * by rewrite commit_mapping_eq.
      * intros v. rewrite (ref_volumes _ _ Href). by rewrite commit_mapping_eq.
      * intros v b. rewrite (committed_commit_mapping _ _ _ _ _ Hvm).
        rewrite lookup_insert. rewrite (ref_map _ _ Href). apply decide_ext. naive_solver.
  - simplify_eq. rewrite decide_False; [done|]. intros (_ & Hc & _).
    destruct Hee. destruct (ent_epoch e), (sm_epoch _); simpl in *; congruence.
Qed.

Lemma refines_commit_batch s a es s' r :
  sm_inv s → refines s a → apply_commit_batch es s = Return (s', r) →
  refines s' (commit_entries es a).1 ∧ is_error r = negb (commit_entries es a).2.
Proof.
  revert s a. induction es as [|e es IH]; intros s a Hinv Href; simpl; [naive_solver|].
  destruct (apply_commit e s) as [[s1 r1]|] eqn:He; [|done]; simpl. intros Happ.
  destruct (refines_commit _ _ _ _ _ Hinv Href He) as [Href1 Hr1].
  apply sm_inv_commit in He; [|done].
  destruct (spec_commit e a) as [a1 ok]; simpl in *. rewrite Hr1 in Happ.
  destruct ok; simpl in *; [by eapply IH|]. by simplify_eq.
Qed.

Lemma refines_create s a v sz p es :
  sm_inv s → refines s a →
  refines (apply_create_volume v sz p es s).1 (log_step (CreateVolume v sz p es) a).
Proof.
  intros Hinv Href. simpl. unfold apply_create_volume.
  case_decide as Hex.
  - (* the volume exists: the specification adds nothing *)
    simpl. destruct (is_ok _); [|done]. destruct Href as [He Hv Hm]. split; simpl; try done.
    intros v'. rewrite elem_of_union, elem_of_singleton, Hv. naive_solver.
  - destruct (ProtectionPolicy_validate p) as [[]|]; simpl; [|done].
    destruct Href as [He Hv Hm].
    assert (sm_extent_mappings s !! to_string v = None) as Hnone.
    { apply eq_None_not_Some. by rewrite <-(inv_dom _ Hinv). }
    split; simpl; [done|..].
    + intros v'. rewrite elem_of_union, elem_of_singleton, Hv. unfold get_volume; simpl.
      rewrite lookup_insert_is_Some'. split; [intros [->|]; auto|].
      intros [?%(inj to_string)|]; auto.
    + intros v' b. rewrite Hm. unfold committed, get_volume_mappings; simpl.
      destruct (decide (v' = v)) as [->|Hne].
      * by rewrite lookup_insert_eq, Hnone.
      * rewrite lookup_insert_ne; [done|]. by intros ?%(inj to_string).
Qed.

Lemma refines_delete s a v :
  sm_inv s → refines s a →
  refines (apply_delete_volume v s).1 (log_step (DeleteVolume v) a).
Proof.
  intros Hinv Href. simpl. unfold apply_delete_volume.
  destruct Href as [He Hv Hm].
  assert (∀ v' b, filter (λ kv : VolumeId * N * ExtentMapping, kv.1.1 ≠ v) (spec_map a) !! (v', b) =
    if decide (v' = v) then None else committed s v' b) as Hfilter.
  { intros v' b. rewrite map_lookup_filter, Hm. destruct (committed s v' b); simpl.
    - case_guard; case_decide; naive_solver.
    - by case_decide. }
  destruct (sm_volumes s !! to_string v) as [vd|] eqn:Hvd; simpl.
  - destruct (proj1 (inv_dom _ Hinv (to_string v))) as [vm Hvm]; [eauto|]. rewrite Hvm.
    split; simpl; [done|..].
    + intros v'. rewrite elem_of_difference, elem_of_singleton, Hv. unfold get_volume; simpl.
      rewrite lookup_delete_is_Some. split; [intros [? Hne]; split; [|done]|naive_solver].
      by intros ?%(inj to_string).
    + intros v' b. rewrite Hfilter. unfold committed, get_volume_mappings; simpl.
      case_decide as Hd; [subst; by rewrite lookup_delete_eq|].
      rewrite lookup_delete_ne; [done|]. by intros ?%(inj to_string).
  - split; simpl; [done|..].
    + intros v'. rewrite elem_of_difference, elem_of_singleton, Hv. unfold get_volume.
      split; [naive_solver|]. intros [? Hs]. split; [eauto|]. intros ->. by rewrite Hvd in Hs.
    + intros v' b. rewrite Hfilter. case_decide as Hd; [|done]. subst.
      unfold committed, get_volume_mappings.
      destruct (sm_extent_mappings s !! to_string v) as [vm|] eqn:Hvm; [|done].
      destruct (proj2 (inv_dom _ Hinv (to_string v))); [eauto|]. congruence.
Qed.

(** Every request takes related states to related states, and a commit
    succeeds exactly when the specification allows it. *)
Lemma refines_step s a req s' r :
  sm_inv s → refines s a → apply_request req s = Return (s', r) →
  refines s' (log_step req a) ∧
  (∀ ok, log_commits req a = Some ok → is_error r = negb ok).
Proof.
  intros Hinv Href Happ.
  assert (∀ ok, None (A:=bool) = Some ok → is_error r = negb ok) as Hnone by done.
  destruct req; simpl in Happ |- *;
    try (apply Return_pair in Happ as [-> ->]; split; [|done]).
  - by apply (refines_ext s).
  - apply (refines_ext s); [done|unfold apply_remove_node; by case_match..].
  - by apply refines_create.
  - by apply refines_delete.
  - destruct Href as [He ? ?]. split; simpl; [by rewrite He|done..].
  - destruct (refines_commit _ _ _ _ _ Hinv Href Happ). naive_solver.
  - destruct (refines_commit_batch _ _ _ _ _ Hinv Href Happ). naive_solver.
  - by apply (refines_ext s).
  - split; [|done]. destruct (apply_lease_request req s) as [s1 r1] eqn:Hl. simplify_eq.
    apply apply_lease_request_frame in Hl as (L & c & ->). by apply (refines_ext s).
  - apply (refines_ext s); [done|unfold apply_register_node; by case_match..].
  - by apply (refines_ext s).
  - apply (refines_ext s); [done|unfold apply_update_disk_usage; by case_match..].
  - apply (refines_ext s); [done|unfold apply_deregister_disk; by case_match..].
  - by apply (refines_ext s).
Qed.

Lemma refines_default : refines sm_default spec_init.
Proof.
  split; [done|..].
  - intros v. simpl. unfold get_volume; simpl. rewrite lookup_empty.
    split; [set_solver|by intros [? ?]].
  - intros v b. unfold committed, get_volume_mappings; simpl. by rewrite !lookup_empty.
Qed.

Lemma refines_requests reqs s a :
  sm_inv s → refines s a →
  ∃ s' rs, apply_requests reqs s = Return (s', rs) ∧ sm_inv s' ∧
    refines s' (log_run reqs a).1 ∧
    Forall2 (λ ok r, ∀ b, ok = Some b → is_error r = negb b) (log_run reqs a).2 rs.
Proof.
  revert s a. induction reqs as [|req reqs IH]; intros s a Hinv Href; simpl.
  { exists s, []. by split_and!. }
  destruct (apply_request_total req s Hinv) as (s1 & r1 & Hreq). rewrite Hreq; simpl.
  destruct (refines_step _ _ _ _ _ Hinv Href Hreq) as [Href1 Hok].
  apply sm_inv_apply in Hreq; [|done].
  destruct (IH s1 _ Hreq Href1) as (s2 & rs & Hreqs & Hinv2 & Href2 & Hoks).
  rewrite Hreqs; simpl. destruct (log_run reqs _) as [a2 oks]; simpl in *.
  exists s2, (r1 :: rs). split_and!; [done..|by constructor].
Qed.

End refinement.

Section helpers.
Context `{!UuidDisplay} `{!RaftTypes}.
Implicit Types s : MetadataStateMachineData.

Lemma reachable_requests s reqs s' rs :
  reachable s → apply_requests reqs s = Return (s', rs) → reachable s'.
Proof.
  revert s rs. induction reqs as [|req reqs IH]; intros s rs Hs; simpl; [naive_solver|].
  destruct (apply_request req s) as [[s1 r1]|] eqn:Hreq; [|done]; simpl.
  destruct (apply_requests reqs s1) as [[s2 rs2]|] eqn:Hreqs; [|done]; simpl.
  intros [= <- <-]. eapply IH; [|done]. by econstructor.
Qed.

Lemma lookup_by_operation_id_eq op s :
  lookup_by_operation_id op s =
    ('(v, b) ← sm_operation_index s !! to_string op; mapping_at (sm_extent_mappings s) v b).
Proof. done. Qed.

Lemma lookup_by_extent_version_eq ver s :
  lookup_by_extent_version ver s =
    ('(v, b) ← sm_extent_version_index s !! ver; mapping_at (sm_extent_mappings s) v b).
Proof. done. Qed.

Lemma lookup_by_operation_id_sound op s m :
  sm_inv s → lookup_by_operation_id op s = Some m → em_operation_id m = Some op.
Proof.
  intros Hinv. rewrite lookup_by_operation_id_eq.
  destruct (_ !! to_string op) as [[v b]|] eqn:Hi; [|done]; simpl.
  destruct (inv_op _ Hinv _ _ _ Hi) as (m' & -> & Hk). intros [= ->]. unfold op_key in Hk.
  apply fmap_Some in Hk as (o' & -> & ?%(inj to_string)). congruence.
Qed.

(** An index entry other than those a commit touches gives the same mapping. *)
Lemma index_commit_frame {I} `{Countable I} (keyof : ExtentMapping → option I)
    (idx : gmap I (string * N)) em vm v b m k :
  index_sound keyof idx em → em !! v = Some vm →
  keyof m ≠ Some k → (vm !! b ≫= keyof) ≠ Some k →
  ('(v', b') ← index_insert keyof m v b
                 (match vm !! b with Some old => unindex keyof old idx | None => idx end) !! k;
   mapping_at (<[v := <[b := m]> vm]> em) v' b') =
  ('(v', b') ← idx !! k; mapping_at em v' b').
Proof.
  intros Hs Hvm Hm Hold.
  assert (index_insert keyof m v b
    (match vm !! b with Some old => unindex keyof old idx | None => idx end) !! k = idx !! k) as ->.
  { unfold index_insert, unindex.
    destruct (keyof m) as [k1|] eqn:?; [rewrite lookup_insert_ne by congruence|];
      (destruct (vm !! b) as [old|]; [|done]; simpl in Hold;
       destruct (keyof old) as [k2|] eqn:?; [|done]; by rewrite lookup_delete_ne by congruence). }
  destruct (idx !! k) as [[v' b']|] eqn:Hk; [|done].
  change (mapping_at (<[v:=<[b:=m]> vm]> em) v' b' = mapping_at em v' b').
  rewrite (mapping_at_insert em vm v b m v' b' Hvm). case_decide as Hd; [|done]. destruct Hd as [-> ->].
  destruct (Hs _ _ _ Hk) as (m' & Hm' & Hkey). unfold mapping_at in Hm'.
  rewrite Hvm in Hm'; simpl in Hm'. rewrite Hm' in Hold. done.
Qed.

(** A successful commit is what every query returns. *)
Lemma commit_queryable e s s' r :
  sm_inv s → apply_commit e s = Return (s', r) → is_error r = false →
  r = RespEpoch (sm_epoch s) ∧
  committed s' (ent_volume_id e) (range_start (ent_block_range e)) = Some (mapping_of_entry e) ∧
  (∀ op, ent_operation_id e = Some op → lookup_by_operation_id op s' = Some (mapping_of_entry e)) ∧
  lookup_by_extent_version (ent_extent_version e) s' = Some (mapping_of_entry e).
Proof.
  intros Hinv Happ Hr. destruct (apply_commit_ok _ _ _ _ Happ Hr) as (vm & Hvm & -> & ->).
  pose proof (committed_commit_mapping s e vm (ent_volume_id e) (range_start (ent_block_range e)) Hvm)
    as Hc. rewrite decide_True in Hc by done. split_and!; [done|done|..].
  - intros o Ho. rewrite lookup_by_operation_id_eq. rewrite committed_mapping_at in Hc.
    rewrite commit_mapping_eq in *. cbn -[index_insert mapping_at] in *.
    rewrite (lookup_index_insert op_key); [done|]. unfold op_key; simpl. by rewrite Ho.
  - rewrite lookup_by_extent_version_eq. rewrite committed_mapping_at in Hc.
    rewrite commit_mapping_eq in *. cbn -[index_insert mapping_at] in *.
    by rewrite (lookup_index_insert version_key).
Qed.

Lemma epoch_step req s s' r :
  apply_request req s = Return (s', r) →
  sm_epoch s' = match req with
                | AdvanceEpoch => EpochId_new (u64_sat_add (EpochId_as_u64 (sm_epoch s)) 1)
                | _ => sm_epoch s
                end.
Proof.
  intros Happ. destruct req; simpl in Happ |- *; try (apply Return_pair in Happ as [-> _]); try done.
  - unfold apply_remove_node. by case_match.
  - unfold apply_create_volume. by repeat case_match.
  - unfold apply_delete_volume. by repeat case_match.
  - by apply apply_commit_frame in Happ as (? & ? & ? & ->).
  - by apply apply_commit_batch_frame in Happ as (? & ? & ? & ->).
  - destruct (apply_lease_request req s) as [s1 r1] eqn:Hl.
    apply apply_lease_request_frame in Hl as (L & c & ->). by simplify_eq/=.
  - unfold apply_register_node. by case_match.
  - unfold apply_update_disk_usage. by case_match.
  - unfold apply_deregister_disk. by case_match.
Qed.

(** The specification's epochs: bounded, and bounding those of the mappings. *)
Definition spec_wf (a : CommitSpec) : Prop :=
  spec_epoch a ≤ u64_max ∧
  ∀ v b m, spec_map a !! (v, b) = Some m → EpochId_as_u64 (em_epoch m) ≤ spec_epoch a.

Lemma spec_wf_commit e a :
  spec_wf a → spec_wf (spec_commit e a).1 ∧ spec_epoch (spec_commit e a).1 = spec_epoch a.
Proof.
  intros [? Hmap]. unfold spec_commit. case_decide as Hc; [|done]. split; [|done].
  split; [done|]. simpl. destruct Hc as (_ & He & _).
  intros v b m [[_ <-]|[_ ?]]%lookup_insert_Some; [simpl; lia|by eapply Hmap].
Qed.

Lemma spec_wf_step req a :
  spec_wf a → spec_wf (log_step req a) ∧ spec_epoch a ≤ spec_epoch (log_step req a).
Proof.
  intros Hwf. destruct req; simpl; try (split; [done|lia]).
  - destruct (is_ok _); (split; [done|simpl; lia]).
  - destruct Hwf as [? Hmap]. split; [|done]. split; [done|]. simpl.
    intros v b m [? _]%map_lookup_filter_Some. by eapply Hmap.
  - destruct Hwf as [? Hmap]. unfold spec_wf; simpl. unfold u64_sat_add.
    split_and!; [lia| |lia]. intros v b m ?%Hmap. lia.
  - destruct (spec_wf_commit entry a Hwf) as [? ->]. by split.
  - revert a Hwf. induction mappings as [|e es IH]; intros a Hwf; simpl; [by split|].
    destruct (spec_wf_commit e a Hwf) as [Hwf1 He].
    destruct (spec_commit e a) as [a1 [|]]; simpl in *; [|split; [done|lia]].
    rewrite <-He. by apply IH.
Qed.

Lemma spec_wf_run reqs a :
  spec_wf a → spec_wf (log_run reqs a).1 ∧ spec_epoch a ≤ spec_epoch (log_run reqs a).1.
Proof.
  revert a. induction reqs as [|req reqs IH]; intros a Hwf; simpl; [by split|].
  destruct (spec_wf_step req a Hwf) as [Hwf1 Hle]. specialize (IH _ Hwf1).
  destruct (log_run reqs _) as [a2 oks]; simpl in *. split; [naive_solver|]. lia.
Qed.

Lemma reachable_spec s : reachable s → ∃ a, refines s a ∧ spec_wf a.
Proof.
  induction 1 as [|s req s' r Hs (a & Href & Hwf) Happ].
  - exists spec_init. split; [apply refines_default|]. by split.
  - exists (log_step req a). apply sm_inv_reachable in Hs. split.
    + by eapply refines_step.
    + by apply spec_wf_step.
Qed.

End helpers.

(** ** A small cluster history, on which the theorems are evaluated *)

Module Demo.

#[export] Existing Instance uuid_decimal.
#[export] Existing Instance raft_types_unit.

Definition vol : VolumeId := VolumeId_new 7.
Definition session1 : SessionId := SessionId_new 21.
Definition session2 : SessionId := SessionId_new 22.
Definition op (n : N) : OperationId := OperationId_new n.

(** A write of one extent at block [b], version [ver], by operation [o]. *)
Definition entry (b ver : N) (o : option OperationId) (prev : option N) : ExtentMappingEntry :=
  MkEntry vol (MkRange b (b + 128)) (ExtentId_new b) ver (EpochId_new 1)
    [NodeId_new 1; NodeId_new 2] [] o prev.

Definition setup : list MetadataRequest :=
  [RegisterNode (NodeId_new 1) "n1"; RegisterNode (NodeId_new 2) "n2";
   CreateVolume vol 1048576 (Replicated 2) 524288; AdvanceEpoch;
   CommitExtentMapping (entry 0 1 (Some (op 100)) (Some 0));
   Lease (Acquire vol session1 1000 500)].

Definition state_of (r : exec (MetadataStateMachineData * list MetadataResponse))
    : MetadataStateMachineData :=
  match r with Return (s, _) => s | Panic => sm_default end.

Definition state : MetadataStateMachineData := state_of (apply_requests setup sm_default).

(** The state after one more request. *)
Definition after (req : MetadataRequest) : MetadataStateMachineData :=
  state_of (apply_requests [req] state).

Lemma state_reachable : reachable state.
Proof.
  apply (reachable_requests sm_default setup state
    [RespNodeRegistered 1; RespNodeRegistered 2; RespOk; RespEpoch (EpochId_new 1);
     RespEpoch (EpochId_new 1); RespLease (Granted 1 1500)]); [constructor|].
  vm_compute. reflexivity.
Qed.

End Demo.

(** ** Theorems *)

Section theorems.
Context `{!UuidDisplay} `{!RaftTypes}.
Implicit Types s : MetadataStateMachineData.

(** C1: Every sequence of requests, applied to the initial state, runs to
    completion without hitting an [expect]; the resulting state represents the
    specification's flat map of committed mappings, its epoch and its set of
    volumes, and every commit or batch returned an error exactly when the
    specification refuses it (unknown volume, stale epoch or failed
    compare-and-swap).  In the specification a batch commits as a whole or not at
    all; sequences in which a batch is refused after its first entry are left out,
    since the code then keeps the entries before it ([batch_not_atomic]). *)
Theorem apply_requests_refines_spec (reqs : list MetadataRequest) :
  whole_batches reqs spec_init →
  ∃ s rs, apply_requests reqs sm_default = Return (s, rs) ∧
    refines s (spec_run reqs spec_init).1 ∧
    Forall2 (λ ok r, ∀ b, ok = Some b → is_error r = negb b) (spec_run reqs spec_init).2 rs.
Proof.
  intros Hwhole. rewrite (spec_run_log _ _ Hwhole).
  destruct (refines_requests reqs sm_default spec_init sm_inv_default refines_default)
    as (s & rs & ? & _ & ? & ?). eauto.
Qed.

(** In every reachable state the committed-state queries are sound: a
    mapping found by operation id carries that operation id, one found by extent
    version carries that version, and no index entry dangles. *)
Theorem committed_queries_sound s :
  reachable s →
  (∀ op m, lookup_by_operation_id op s = Some m → em_operation_id m = Some op) ∧
  (∀ ver m, lookup_by_extent_version ver s = Some m → em_extent_version m = ver) ∧
  (∀ op, is_Some (sm_operation_index s !! to_string op) →
     is_Some (lookup_by_operation_id op s)) ∧
  (∀ ver, is_Some (sm_extent_version_index s !! ver) →
     is_Some (lookup_by_extent_version ver s)).
Proof.
  intros Hinv%sm_inv_reachable. pose proof Hinv as [? Hop Hver ???]. split_and!.
  - intros o m. by apply lookup_by_operation_id_sound.
  - intros ver m. rewrite lookup_by_extent_version_eq.
    destruct (_ !! ver) as [[v b]|] eqn:Hi; [|done]; simpl.
    destruct (Hver _ _ _ Hi) as (m' & -> & Hk). unfold version_key in Hk. naive_solver.
  - intros o [[v b] Hi]. rewrite lookup_by_operation_id_eq, Hi; simpl.
    destruct (Hop _ _ _ Hi) as (m' & -> & _). eauto.
  - intros ver [[v b] Hi]. rewrite lookup_by_extent_version_eq, Hi; simpl.
    destruct (Hver _ _ _ Hi) as (m' & -> & _). eauto.
Qed.

(** After a commit that succeeded, both queries and the volume's map return
    the mapping just committed, the response carries the current epoch, and the
    query for any other operation id (neither the new one nor the one of the
    mapping overwritten) gives what it gave before. *)
Theorem commit_is_queryable s e s' r :
  reachable s →
  apply_request (CommitExtentMapping e) s = Return (s', r) →
  is_error r = false →
  r = RespEpoch (sm_epoch s) ∧
  committed s' (ent_volume_id e) (range_start (ent_block_range e)) = Some (mapping_of_entry e) ∧
  (∀ op, ent_operation_id e = Some op → lookup_by_operation_id op s' = Some (mapping_of_entry e)) ∧
  lookup_by_extent_version (ent_extent_version e) s' = Some (mapping_of_entry e) ∧
  (∀ op, ent_operation_id e ≠ Some op →
     (committed s (ent_volume_id e) (range_start (ent_block_range e)) ≫= em_operation_id) ≠ Some op →
     lookup_by_operation_id op s' = lookup_by_operation_id op s).
Proof.
  intros Hinv%sm_inv_reachable Happ Hr.
  destruct (commit_queryable _ _ _ _ Hinv Happ Hr) as (? & ? & ? & ?). split_and!; [done..|].
  destruct (apply_commit_ok _ _ _ _ Happ Hr) as (vm & Hvm & -> & _).
  intros o Hne Hold. rewrite !lookup_by_operation_id_eq, commit_mapping_eq; simpl.
  apply (index_commit_frame op_key); [by apply Hinv|done|..].
  - unfold op_key; simpl. intros (?&?&?%(inj to_string))%fmap_Some. congruence.
  - rewrite committed_mapping_at in Hold. unfold mapping_at in Hold. rewrite Hvm in Hold.
    simpl in Hold. destruct (vm !! _) as [old|]; [|done]; simpl in *.
    unfold op_key. intros (?&Ho&?%(inj to_string))%fmap_Some. congruence.
Qed.

(** A request that returns an error, or a lease request that is denied,
    leaves the whole state as it was, unless it is a batch. *)
Theorem failed_request_unchanged req s s' r :
  apply_request req s = Return (s', r) →
  (is_error r = true ∨ ∃ reason, r = RespLease (Denied reason)) →
  (∀ es, req ≠ CommitExtentMappingBatch es) →
  s' = s.
Proof.
  intros Happ Hr Hb.
  destruct req; simpl in Happ; try (apply Return_pair in Happ as [-> ->]); simpl in Hr.
  all: try by naive_solver.
  - unfold apply_remove_node in *. case_match; naive_solver.
  - unfold apply_create_volume in *. repeat case_match; naive_solver.
  - unfold apply_delete_volume in *. repeat case_match; naive_solver.
  - destruct (is_error r) eqn:He; [by eapply apply_commit_err|].
    destruct (apply_commit_ok _ _ _ _ Happ He) as (vm & _ & _ & ->). naive_solver.
  - destruct req; simpl in Happ; unfold apply_acquire, apply_renew, apply_release in Happ;
      repeat case_match; naive_solver.
  - unfold apply_register_node in *. case_match; naive_solver.
  - unfold apply_update_disk_usage in *. case_match; naive_solver.
  - unfold apply_deregister_disk in *. case_match; naive_solver.
Qed.

(** A batch that fails has applied exactly the entries before the first one
    that fails, as single commits would have been applied, and returns that
    entry's error; a batch that succeeds has applied them all. *)
Theorem batch_applies_prefix es s s' r :
  apply_request (CommitExtentMappingBatch es) s = Return (s', r) →
  (is_error r = false ∧
   ∃ rs, apply_requests (CommitExtentMapping <$> es) s = Return (s', rs) ∧
     Forall (λ r, is_error r = false) rs) ∨
  (is_error r = true ∧
   ∃ pre e post rs, es = pre ++ e :: post ∧
     apply_requests (CommitExtentMapping <$> pre) s = Return (s', rs) ∧
     Forall (λ r, is_error r = false) rs ∧
     apply_request (CommitExtentMapping e) s' = Return (s', r)).
Proof.
  csimpl. revert s. induction es as [|e es IH]; intros s; csimpl.
  { intros [= <- <-]. left. split; [done|]. by exists []. }
  destruct (apply_commit e s) as [[s1 r1]|] eqn:He; [|done]; csimpl.
  destruct (is_error r1) eqn:Hr1.
  - intros [= <- <-]. right. pose proof (apply_commit_err _ _ _ _ He Hr1) as ->.
    split; [done|]. exists [], e, es, []. by split_and!.
  - intros [(Hr & rs & Hrs & Hall)|(Hr & pre & e' & post & rs & -> & Hrs & Hall & He')]%IH.
    + left. split; [done|]. exists (r1 :: rs). csimpl.
      rewrite ?He; csimpl. rewrite Hrs; csimpl. by auto.
    + right. split; [done|]. exists (e :: pre), e', post, (r1 :: rs). csimpl.
      rewrite ?He; csimpl. rewrite Hrs; csimpl. by auto.
Qed.

(** Deleting a volume removes its metadata, all its mappings, its lease and
    every index entry that points into it, and leaves the other volumes'
    metadata, mappings and leases alone. *)
Theorem delete_volume_erases v s s' r :
  reachable s →
  apply_request (DeleteVolume v) s = Return (s', r) →
  is_error r = false →
  get_volume v s' = None ∧ get_volume_mappings v s' = None ∧ get_lease v s' = None ∧
  (∀ k b, sm_operation_index s' !! k ≠ Some (to_string v, b)) ∧
  (∀ ver b, sm_extent_version_index s' !! ver ≠ Some (to_string v, b)) ∧
  (∀ v', v' ≠ v → get_volume v' s' = get_volume v' s ∧
     get_volume_mappings v' s' = get_volume_mappings v' s ∧ get_lease v' s' = get_lease v' s).
Proof.
  intros Hinv%sm_inv_reachable Happ Hr.
  pose proof (sm_inv_apply _ _ _ _ Hinv Happ) as [_ Hop Hver _ _ _ _].
  simpl in Happ. apply Return_pair in Happ as [-> ->].
  unfold apply_delete_volume in *. case_match eqn:Hv; [|done]. simpl in *.
  destruct (proj1 (inv_dom _ Hinv (to_string v))) as [vm Hvm]; [eauto|].
  rewrite Hvm in *; simpl in *. unfold get_volume, get_volume_mappings, get_lease; simpl.
  rewrite !lookup_delete_eq. split_and!; try done.
  - intros k b (m & Hm & _)%Hop. unfold mapping_at in Hm. by rewrite lookup_delete_eq in Hm.
  - intros k b (m & Hm & _)%Hver. unfold mapping_at in Hm. by rewrite lookup_delete_eq in Hm.
  - intros v' Hne. assert (to_string v ≠ to_string v') by by intros ?%(inj to_string).
    by rewrite !lookup_delete_ne.
Qed.

(** The placement epoch never moves backwards along a sequence of requests,
    and the mappings committed are never of a later epoch than the current one. *)
Theorem epoch_monotone reqs s s' rs :
  reachable s →
  apply_requests reqs s = Return (s', rs) →
  EpochId_as_u64 (sm_epoch s) ≤ EpochId_as_u64 (sm_epoch s') ∧
  (∀ v b m, committed s' v b = Some m →
     EpochId_as_u64 (em_epoch m) ≤ EpochId_as_u64 (sm_epoch s')).
Proof.
  intros Hs Happ. destruct (reachable_spec s Hs) as (a & Href & Hwf).
  pose proof (sm_inv_reachable s Hs) as Hinv.
  destruct (refines_requests reqs s a Hinv Href) as (s1 & rs1 & Happ1 & _ & Href1 & _).
  rewrite Happ in Happ1; simplify_eq.
  destruct (spec_wf_run reqs a Hwf) as [[_ Hmap] Hle].
  rewrite (ref_epoch _ _ Href), (ref_epoch _ _ Href1). split; [done|].
  intros v b m. rewrite <-(ref_map _ _ Href1). apply Hmap.
Qed.

End theorems.

(** ** Witnesses, and two histories that mark the limits of the guarantees *)

Import Demo.

(** A batch that succeeds, one that is refused at once, and a commit with a stale version. *)
Definition batches : list MetadataRequest :=
  setup ++
  [CommitExtentMappingBatch [entry 128 1 (Some (op 101)) None; entry 256 1 (Some (op 102)) (Some 0)];
   CommitExtentMappingBatch [entry 0 2 (Some (op 103)) (Some 9); entry 384 1 (Some (op 104)) None];
   CommitExtentMapping (entry 128 2 (Some (op 105)) (Some 0))].

Lemma apply_requests_refines_spec_witness :
  ∃ s rs, apply_requests batches sm_default = Return (s, rs) ∧ refines s (spec_run batches spec_init).1 ∧
    size (spec_map (spec_run batches spec_init).1) = 3%nat.
Proof.
  destruct (apply_requests_refines_spec batches) as (s & rs & Hrun & Href & _).
  - repeat (split; [first [exact I | left; vm_compute; reflexivity | right; vm_compute; reflexivity]|]). exact I.
  - exists s, rs. split; [exact Hrun|]. split; [exact Href|]. vm_compute. reflexivity.
Defined.

Lemma committed_queries_sound_witness :
  ∃ m, lookup_by_operation_id (op 100) state = Some m ∧ em_operation_id m = Some (op 100).
Proof.
  eexists. split; [vm_compute; reflexivity|].
  apply (proj1 (committed_queries_sound state state_reachable)). vm_compute. reflexivity.
Defined.

Lemma commit_is_queryable_witness :
  lookup_by_operation_id (op 101) (after (CommitExtentMapping (entry 128 2 (Some (op 101)) (Some 0))))
  = Some (mapping_of_entry (entry 128 2 (Some (op 101)) (Some 0))).
Proof.
  eapply (proj1 (proj2 (proj2 (commit_is_queryable state
    (entry 128 2 (Some (op 101)) (Some 0)) _ (RespEpoch (EpochId_new 1)) state_reachable
    ltac:(vm_compute; reflexivity) eq_refl)))).
  reflexivity.
Defined.

Lemma failed_request_unchanged_witness :
  after (CommitExtentMapping (entry 0 2 None (Some 7))) = state.
Proof.
  eapply (failed_request_unchanged (CommitExtentMapping (entry 0 2 None (Some 7))) state).
  - vm_compute. reflexivity.
  - left. reflexivity.
  - intros es. discriminate.
Defined.

Lemma batch_applies_prefix_witness :
  ∃ pre e post, [entry 128 2 None None; entry 0 3 None (Some 9)] = pre ++ e :: post.
Proof.
  destruct (batch_applies_prefix [entry 128 2 None None; entry 0 3 None (Some 9)] state
    (after (CommitExtentMapping (entry 128 2 None None)))
    (RespError "CAS failure: expected version 9, found 1")) as [[? _]|(_ & pre & e & post & _ & H & _)].
  - vm_compute. reflexivity.
  - discriminate.
  - exists pre, e, post. exact H.
Defined.

Lemma delete_volume_erases_witness : get_volume vol (after (DeleteVolume vol)) = None.
Proof.
  apply (proj1 (delete_volume_erases vol state _ RespOk state_reachable
    ltac:(vm_compute; reflexivity) eq_refl)).
Defined.

Lemma epoch_monotone_witness :
  EpochId_as_u64 (sm_epoch state) ≤ EpochId_as_u64 (sm_epoch (after AdvanceEpoch)).
Proof.
  apply (proj1 (epoch_monotone [AdvanceEpoch] state _ [RespEpoch (EpochId_new 2)] state_reachable
    ltac:(vm_compute; reflexivity))).
Defined.

(** A batch is not atomic: from a reachable state, a batch whose second
    entry fails its compare-and-swap returns an error and leaves the mapping of
    its first entry committed. *)
Theorem batch_not_atomic :
  ∃ s es s' r, reachable s ∧
    apply_request (CommitExtentMappingBatch es) s = Return (s', r) ∧ is_error r = true ∧
    committed s vol 128 = None ∧ is_Some (committed s' vol 128).
Proof.
  exists state, [entry 128 2 None None; entry 0 3 None (Some 9)],
    (after (CommitExtentMapping (entry 128 2 None None))),
    (RespError "CAS failure: expected version 9, found 1").
  split_and!; [apply state_reachable|vm_compute; reflexivity..|].
  vm_compute. eexists. reflexivity.
Qed.

(** The operation index is not complete: when one operation commits two
    blocks and the first is overwritten by another operation, the second is
    still committed with its operation id, and the query by that id finds
    nothing. *)
Theorem operation_index_incomplete :
  ∃ reqs s rs, apply_requests reqs sm_default = Return (s, rs) ∧
    Forall (λ r, is_error r = false) rs ∧
    lookup_by_operation_id (op 100) s = None ∧
    (committed s vol 128 ≫= em_operation_id) = Some (op 100).
Proof.
  set (reqs := setup ++ [CommitExtentMapping (entry 128 2 (Some (op 100)) None);
                         CommitExtentMapping (entry 0 3 (Some (op 101)) (Some 1))]).
  destruct (apply_requests reqs sm_default) as [[s rs]|] eqn:Hs; [|vm_compute in Hs; discriminate].
  exists reqs, s, rs. split; [done|]. vm_compute in Hs. injection Hs as <- <-.
  split_and!; [by repeat constructor|vm_compute; reflexivity..].
Qed.
