(* ===== verification/MetadataTyped.v ===== *)
(** * Widths in the metadata state machine

    The model keeps the integers of blockyard-raft's state machine in [N].  This
    file shows that nothing is lost by it: when the integers of the requests fit
    the width of their Rust type, so do those of every state reached and of every
    response, because the code adds with wrap-around or saturation everywhere.
    The codecs of [Json] rely on it: what is read from such a state is accepted by
    the reader on the other side of a connection. *)

From S2P Require Import Prelude Common MetadataSM MetadataInv MetadataSpec.

#[local] Open Scope N_scope.

(** ** Values that fit the width of their type *)

Definition is_u64 (n : N) : Prop := n ≤ u64_max.

Definition policy_typed (p : ProtectionPolicy) : Prop :=
  match p with Replicated r => r ≤ u8_max | ErasureCoded d m => d ≤ u8_max ∧ m ≤ u8_max end.

Record mapping_typed (m : ExtentMapping) : Prop := {
  mt_version : is_u64 (em_extent_version m);
  mt_epoch : is_u64 (EpochId_as_u64 (em_epoch m));
  mt_start : is_u64 (range_start (em_block_range m));
  mt_end : is_u64 (range_end (em_block_range m));
}.

Record entry_typed (e : ExtentMappingEntry) : Prop := {
  et_version : is_u64 (ent_extent_version e);
  et_epoch : is_u64 (EpochId_as_u64 (ent_epoch e));
  et_start : is_u64 (range_start (ent_block_range e));
  et_end : is_u64 (range_end (ent_block_range e));
  et_previous : ∀ v, ent_previous_version e = Some v → is_u64 v;
}.

Record volume_typed (v : VolumeMetadata) : Prop := {
  vt_size : is_u64 (vol_size_bytes v);
  vt_protection : policy_typed (vol_protection v);
  vt_extent_size : is_u64 (vol_extent_size v);
  vt_created : is_u64 (EpochId_as_u64 (vol_created_at_epoch v));
}.

Record lease_typed (l : VolumeLease) : Prop := {
  lt_granted : is_u64 (lease_granted_at_ms l);
  lt_expires : is_u64 (lease_expires_at_ms l);
  lt_version : is_u64 (lease_version l);
}.

Record disk_typed (d : ClusterDisk) : Prop := {
  dt_capacity : is_u64 (cd_capacity_bytes d);
  dt_used : is_u64 (cd_used_bytes d);
}.

Definition request_typed (req : MetadataRequest) : Prop :=
  match req with
  | CreateVolume _ size_bytes protection extent_size =>
      is_u64 size_bytes ∧ policy_typed protection ∧ is_u64 extent_size
  | CommitExtentMapping e => entry_typed e
  | CommitExtentMappingBatch es => Forall entry_typed es
  | Lease (Acquire _ _ now_ms ttl_ms) | Lease (Renew _ _ now_ms ttl_ms) => is_u64 now_ms ∧ is_u64 ttl_ms
  | RegisterDisk _ _ capacity_bytes => is_u64 capacity_bytes
  | UpdateDiskUsage _ used_bytes => is_u64 used_bytes
  | CleanupExpiredLeases now_ms => is_u64 now_ms
  | _ => True
  end.

Definition lease_response_typed (r : LeaseResponse) : Prop :=
  match r with Granted v e | Renewed v e => is_u64 v ∧ is_u64 e | _ => True end.

Definition response_typed (r : MetadataResponse) : Prop :=
  match r with
  | RespEpoch e => is_u64 (EpochId_as_u64 e)
  | RespLease r => lease_response_typed r
  | RespNodeRegistered raft_id => is_u64 raft_id
  | _ => True
  end.

Section typed.
Context `{!UuidDisplay} `{!RaftTypes}.
Implicit Types s : MetadataStateMachineData.

Record sm_typed s : Prop := {
  st_epoch : is_u64 (EpochId_as_u64 (sm_epoch s));
  st_volumes : map_Forall (λ _, volume_typed) (sm_volumes s);
  st_mappings : map_Forall (λ _, map_Forall (λ b m, is_u64 b ∧ mapping_typed m)) (sm_extent_mappings s);
  st_operations : map_Forall (λ _ kb, is_u64 kb.2) (sm_operation_index s);
  st_versions : map_Forall (λ v kb, is_u64 v ∧ is_u64 kb.2) (sm_extent_version_index s);
  st_leases : map_Forall (λ _, lease_typed) (sm_leases s);
  st_lease_counter : is_u64 (sm_lease_version_counter s);
  st_raft_counter : is_u64 (sm_raft_id_counter s);
  st_raft_ids : map_Forall (λ _, is_u64) (sm_node_raft_map s);
  st_disks : map_Forall (λ _, disk_typed) (sm_cluster_disks s);
}.

Lemma u64_add_typed a b : is_u64 (u64_add a b).
Proof. pose proof (u64_add_bound a b). unfold is_u64, u64_max, u64_modulus in *. lia. Qed.

Lemma sm_typed_default : sm_typed sm_default.
Proof. split; first [done|apply map_Forall_empty]. Qed.

Lemma mapping_of_entry_typed e : entry_typed e → mapping_typed (mapping_of_entry e).
Proof. intros []. by split. Qed.

Lemma unindex_operation_typed m (oi : gmap string (string * N)) :
  map_Forall (λ _ kb, is_u64 kb.2) oi → map_Forall (λ _ kb, is_u64 kb.2) (unindex_operation m oi).
Proof. intros Ho. unfold unindex_operation. case_match; [by apply map_Forall_delete|done]. Qed.

Lemma unindex_version_typed m (vi : gmap N (string * N)) :
  map_Forall (λ v kb, is_u64 v ∧ is_u64 kb.2) vi →
  map_Forall (λ v kb, is_u64 v ∧ is_u64 kb.2) (unindex_version m vi).
Proof. by apply map_Forall_delete. Qed.

Lemma foldl_typed {A B} (P : B → Prop) (f : B → A → B) l b :
  (∀ b a, P b → P (f b a)) → P b → P (foldl f b l).
Proof. intros Hf. revert b. induction l; simpl; auto. Qed.

Lemma insert_node_typed n a s : sm_typed s → sm_typed (insert_node n a s).
Proof. by intros []. Qed.

Lemma create_volume_typed v size p ext s :
  is_u64 size → policy_typed p → is_u64 ext → sm_typed s →
  sm_typed (apply_create_volume v size p ext s).1.
Proof.
  intros ??? Hs. unfold apply_create_volume. case_decide; [done|]. case_match; [|done].
  destruct Hs. split; simpl; try done; apply map_Forall_insert_2; try done.
Qed.

Lemma delete_volume_typed v s : sm_typed s → sm_typed (apply_delete_volume v s).1.
Proof.
  intros Hs. unfold apply_delete_volume. case_match; [|done]. destruct Hs.
  simpl. case_match; split; simpl; try done; try (by apply map_Forall_delete).
  - apply foldl_typed; [|done]. intros. by apply unindex_operation_typed.
  - apply foldl_typed; [|done]. intros. by apply unindex_version_typed.
Qed.

Lemma commit_mapping_typed e ms s :
  entry_typed e → map_Forall (λ b m, is_u64 b ∧ mapping_typed m) ms → sm_typed s →
  sm_typed (commit_mapping e ms s).
Proof.
  intros He Hms Hs. unfold commit_mapping.
  assert (∀ oi vi, map_Forall (λ _ kb, is_u64 kb.2) oi →
    map_Forall (λ v kb, is_u64 v ∧ is_u64 kb.2) vi →
    sm_typed (set_mappings
      (<[to_string (ent_volume_id e) := <[range_start (ent_block_range e) := mapping_of_entry e]> ms]>
         (sm_extent_mappings s))
      (match ent_operation_id e with
       | Some op_id => <[to_string op_id := (to_string (ent_volume_id e), range_start (ent_block_range e))]> oi
       | None => oi
       end)
      (<[ent_extent_version e := (to_string (ent_volume_id e), range_start (ent_block_range e))]> vi) s)) as Hset.
  { intros oi vi Hoi Hvi. pose proof (et_start _ He). destruct Hs. split; simpl; try done.
    - apply map_Forall_insert_2; [|done]. apply map_Forall_insert_2; [|done].
      split; [done|by apply mapping_of_entry_typed].
    - case_match; [|done]. by apply map_Forall_insert_2.
    - apply map_Forall_insert_2; [|done]. split; [by destruct He|done]. }
  destruct (ms !! _); simpl; apply Hset; destruct Hs; try done.
  - by apply unindex_operation_typed.
  - by apply unindex_version_typed.
Qed.

Lemma apply_commit_typed e s s' r :
  entry_typed e → sm_typed s → apply_commit e s = Return (s', r) → sm_typed s' ∧ response_typed r.
Proof.
  intros He Hs. unfold apply_commit. case_match; [|by intros [= <- <-]].
  case_decide; [|by intros [= <- <-]].
  destruct (sm_extent_mappings s !! _) as [ms|] eqn:Hms; [|done]. simpl.
  case_match; intros [= <- <-]; [done|]. split; [|by apply Hs].
  apply commit_mapping_typed; [done| |done]. by apply (st_mappings _ Hs _ _ Hms).
Qed.

Lemma apply_commit_batch_typed es s s' r :
  Forall entry_typed es → sm_typed s → apply_commit_batch es s = Return (s', r) →
  sm_typed s' ∧ response_typed r.
Proof.
  intros Hes. revert s. induction Hes as [|e es He Hes IH]; intros s Hs; simpl.
  { intros [= <- <-]. split; [done|]. by apply Hs. }
  destruct (apply_commit e s) as [[s1 r1]|] eqn:H1; [|done]. simpl.
  destruct (apply_commit_typed _ _ _ _ He Hs H1) as [Hs1 Hr1].
  destruct (is_error r1); [by intros [= <- <-]|by apply IH].
Qed.

Lemma grant_typed key l v s :
  lease_typed l → is_u64 v → sm_typed s →
  sm_typed (set_leases (<[key := l]> (sm_leases s)) (set_lease_version_counter v s)).
Proof. intros Hl Hv []. split; simpl; try done. by apply map_Forall_insert_2. Qed.

Lemma apply_lease_typed req s :
  request_typed (Lease req) → sm_typed s →
  sm_typed (apply_lease_request req s).1 ∧ lease_response_typed (apply_lease_request req s).2.
Proof.
  intros Hr Hs. destruct req as [v c now ttl|v c now ttl|v c]; simpl in Hr |- *.
  - unfold apply_acquire. destruct Hr. case_decide; [|done].
    assert (sm_typed (set_leases (<[to_string v := MkVolumeLease v c now (u64_add now ttl)
        (u64_add (sm_lease_version_counter s) 1)]> (sm_leases s))
        (set_lease_version_counter (u64_add (sm_lease_version_counter s) 1) s))).
    { apply grant_typed; [split; simpl|..]; try done; apply u64_add_typed. }
    repeat case_match; simpl; try done; split; try done; split; apply u64_add_typed.
  - unfold apply_renew. destruct Hr. case_match eqn:Hl; [|done]. case_match; [done|]. case_match; [done|].
    split; [|split; apply u64_add_typed]. apply (grant_typed _ _ _ s); [|apply u64_add_typed|done].
    pose proof (st_leases _ Hs _ _ Hl) as []. split; simpl; try done; apply u64_add_typed.
  - unfold apply_release. repeat case_match; try done. split; [|done].
    destruct Hs. split; simpl; try done. by apply map_Forall_delete.
Qed.

Lemma register_node_typed n a s :
  sm_typed s → sm_typed (apply_register_node n a s).1 ∧ response_typed (apply_register_node n a s).2.
Proof.
  intros Hs. unfold apply_register_node. case_match eqn:Hn; simpl.
  - split; [by apply insert_node_typed|]. by apply (st_raft_ids _ Hs _ _ Hn).
  - split; [|apply u64_add_typed]. apply insert_node_typed. destruct Hs.
    split; simpl; try done; [apply u64_add_typed|]. apply map_Forall_insert_2; [apply u64_add_typed|done].
Qed.

Lemma disk_requests_typed req s s' r :
  match req with RegisterDisk _ _ _ | UpdateDiskUsage _ _ | DeregisterDisk _ => True | _ => False end →
  request_typed req → sm_typed s → apply_request req s = Return (s', r) →
  sm_typed s' ∧ response_typed r.
Proof.
  intros Hk Hr Hs. destruct req; try done; simpl.
  - intros [= <- <-]. split; [|done]. destruct Hs. split; simpl; try done. by apply map_Forall_insert_2.
  - unfold apply_update_disk_usage. case_match eqn:Hd; intros [= <- <-]; [|done]. split; [|done].
    pose proof (st_disks _ Hs _ _ Hd) as []. destruct Hs. split; simpl; try done. by apply map_Forall_insert_2.
  - unfold apply_deregister_disk. case_match; intros [= <- <-]; [|done]. split; [|done].
    destruct Hs. split; simpl; try done. by apply map_Forall_delete.
Qed.

Lemma apply_request_typed req s s' r :
  request_typed req → sm_typed s → apply_request req s = Return (s', r) →
  sm_typed s' ∧ response_typed r.
Proof.
  intros Hr Hs. destruct req as [n a|n|v size p ext|v| |e|es|pm|l|n a|d n c|d u|d|now];
    try (by apply disk_requests_typed); simpl.
  - intros [= <- <-]. split; [by apply insert_node_typed|done].
  - unfold apply_remove_node. case_match; intros [= <- <-]; split; try done. by destruct Hs.
  - destruct Hr as (? & ? & ?). intros [= Heq]. split.
    + pose proof (create_volume_typed v size p ext s) as Ht. rewrite Heq in Ht. by apply Ht.
    + unfold apply_create_volume in Heq. by repeat case_match; simplify_eq.
  - intros [= Heq]. split.
    + pose proof (delete_volume_typed v s Hs) as Ht. by rewrite Heq in Ht.
    + unfold apply_delete_volume in Heq. by repeat case_match; simplify_eq.
  - intros [= <- <-]. simpl. assert (is_u64 (u64_sat_add (EpochId_as_u64 (sm_epoch s)) 1)).
    { unfold is_u64, u64_sat_add. lia. }
    split; [|done]. destruct Hs. by split.
  - by apply apply_commit_typed.
  - by apply apply_commit_batch_typed.
  - intros [= <- <-]. split; [|done]. by destruct Hs.
  - pose proof (apply_lease_typed l s Hr Hs) as [H1 H2].
    destruct (apply_lease_request l s) as [s1 r1]. by intros [= <- <-].
  - intros [= Heq]. pose proof (register_node_typed n a s Hs). by rewrite Heq in *.
  - intros [= <- <-]. split; [|done]. destruct Hs. split; simpl; try done.
    intros k l [Hl _]%map_lookup_filter_Some. by eapply st_leases0.
Qed.

Lemma apply_requests_typed reqs s s' rs :
  Forall request_typed reqs → sm_typed s → apply_requests reqs s = Return (s', rs) →
  sm_typed s' ∧ Forall response_typed rs.
Proof.
  intros Hreqs. revert s s' rs. induction Hreqs as [|req reqs Hreq _ IH]; intros s s' rs Hs; simpl.
  { by intros [= <- <-]. }
  destruct (apply_request req s) as [[s1 r1]|] eqn:H1; [|done]. simpl.
  destruct (apply_requests reqs s1) as [[s2 rs2]|] eqn:H2; [|done]. intros [= <- <-].
  destruct (apply_request_typed _ _ _ _ Hreq Hs H1) as [Hs1 ?].
  destruct (IH _ _ _ Hs1 H2). by split; [|constructor].
Qed.

(** The queries read typed values from a typed state. *)
Lemma lookup_operation_typed op s m :
  sm_typed s → lookup_by_operation_id op s = Some m → mapping_typed m.
Proof.
  intros Hs. unfold lookup_by_operation_id.
  intros ([k b] & _ & Hk)%bind_Some. apply bind_Some in Hk as (ms & Hms & Hm).
  by apply (st_mappings _ Hs _ _ Hms) in Hm as [_ ?].
Qed.

Lemma list_volumes_typed s : sm_typed s → Forall volume_typed (list_volumes s).
Proof.
  intros Hs. unfold list_volumes, btree_values, btree_list. apply Forall_fmap.
  rewrite merge_sort_Permutation. apply Forall_forall. intros [k v] Hv%elem_of_map_to_list.
  by apply (st_volumes _ Hs _ _ Hv).
Qed.

End typed.
