(* ===== verification/MetadataLease.v ===== *)
(** * Write leases and node numbering in the metadata state machine

    The lease version is a fencing token: once a lease request on a volume has
    succeeded, no version that was valid before is ever valid again.  A lease
    that has not expired cannot be taken by another session, and stays valid for
    its holder.  The raft identifiers handed out to nodes are distinct and
    stable.  The version and identifier counters are u64 and wrap, so the
    theorems that need them to grow bound the number of requests by 2^64. *)

From S2P Require Import Prelude Common MetadataSM MetadataInv MetadataSpec.

#[local] Open Scope N_scope.

Section leases.
Context `{!UuidDisplay} `{!RaftTypes}.
Implicit Types s : MetadataStateMachineData.

(** The volume a lease request is about. *)
Definition lease_req_volume (req : LeaseRequest) : VolumeId :=
  match req with Acquire v _ _ _ | Renew v _ _ _ | Release v _ => v end.

(** Versions issued so far are at most the counter. *)
Definition versions_issued s : Prop :=
  ∀ k l, sm_leases s !! k = Some l → lease_version l ≤ sm_lease_version_counter s.

(** [ver] has been issued, and is not the version of the lease of [v]. *)
Definition fenced (v : VolumeId) (ver : N) s : Prop :=
  ver ≤ sm_lease_version_counter s ∧
  ∀ l, get_lease v s = Some l → lease_version l ≠ ver.

(** What a request can do to the leases: each lease kept, or replaced by one
    with the next version, or dropped. *)
Record lease_step s s' : Prop := {
  step_counter : sm_lease_version_counter s' = sm_lease_version_counter s ∨
    sm_lease_version_counter s' = u64_add (sm_lease_version_counter s) 1;
  step_leases : ∀ k l, sm_leases s' !! k = Some l →
    sm_leases s !! k = Some l ∨
    sm_lease_version_counter s' = u64_add (sm_lease_version_counter s) 1 ∧
    lease_version l = sm_lease_version_counter s';
}.

Lemma lease_step_same s s' :
  sm_leases s' = sm_leases s → sm_lease_version_counter s' = sm_lease_version_counter s →
  lease_step s s'.
Proof. intros Hl Hc. split; [by left|]. rewrite Hl. by left. Qed.

Lemma lease_step_lease_request req s : lease_step s (apply_lease_request req s).1.
Proof.
  destruct req; simpl; unfold apply_acquire, apply_renew, apply_release; step_cases;
    try (by apply lease_step_same); split; simpl; auto.
  all: intros k l' Hl.
  all: try (apply lookup_delete_Some in Hl as [_ ?]; by left).
  all: apply lookup_insert_Some in Hl as [[<- <-]|[_ ?]]; auto.
Qed.

(** The leases and their counter are changed by lease requests, the deletion of
    a volume and the cleanup only. *)
Lemma leases_frame req s s' r :
  apply_request req s = Return (s', r) →
  sm_lease_version_counter s' =
    match req with
    | Lease q => sm_lease_version_counter (apply_lease_request q s).1
    | _ => sm_lease_version_counter s
    end ∧
  sm_leases s' =
    match req with
    | Lease q => sm_leases (apply_lease_request q s).1
    | DeleteVolume v =>
        if is_error r then sm_leases s else delete (to_string v) (sm_leases s)
    | CleanupExpiredLeases now => filter (λ kl, is_expired kl.2 now = false) (sm_leases s)
    | _ => sm_leases s
    end.
Proof.
  intros Happ. destruct req; simpl in Happ |- *; try (apply Return_pair in Happ as [-> ->]);
    simpl; try done.
  - unfold apply_remove_node. by case_match.
  - unfold apply_create_volume. by repeat case_match.
  - unfold apply_delete_volume. by repeat case_match.
  - by apply apply_commit_frame in Happ as (? & ? & ? & ->).
  - by apply apply_commit_batch_frame in Happ as (? & ? & ? & ->).
  - destruct (apply_lease_request req s). by simplify_eq/=.
  - unfold apply_register_node. by case_match.
  - unfold apply_update_disk_usage. by case_match.
  - unfold apply_deregister_disk. by case_match.
Qed.

Lemma lease_step_request req s s' r :
  apply_request req s = Return (s', r) → lease_step s s'.
Proof.
  intros [Hc Hl]%leases_frame.
  destruct req; try (by apply lease_step_same).
  - split; [by left|]. rewrite Hl. intros k l. destruct (is_error r); [by left|].
    intros [_ ?]%lookup_delete_Some. by left.
  - pose proof (lease_step_lease_request req s) as [Hc' Hl'].
    split; [by rewrite Hc|]. by rewrite Hc, Hl.
  - split; [by left|]. rewrite Hl. intros k l [? _]%map_lookup_filter_Some. by left.
Qed.

Lemma lease_step_fenced v ver s s' :
  lease_step s s' → sm_lease_version_counter s + 1 < u64_modulus →
  fenced v ver s → fenced v ver s'.
Proof.
  intros [Hc Hl] Hb [Hle Hne]. rewrite u64_add_small in * by done. split; [lia|].
  intros l [?|[? ?]]%Hl; [by apply Hne|lia].
Qed.

Lemma lease_step_issued s s' :
  lease_step s s' → sm_lease_version_counter s + 1 < u64_modulus →
  versions_issued s → versions_issued s' ∧
  sm_lease_version_counter s ≤ sm_lease_version_counter s' ∧
  sm_lease_version_counter s' ≤ sm_lease_version_counter s + 1.
Proof.
  intros [Hc Hl] Hb Hiss. rewrite u64_add_small in * by done. split; [|lia].
  intros k l [?%Hiss|[? ?]]%Hl; lia.
Qed.

(** Along a sequence of requests short enough for the counter not to wrap. *)
Lemma fenced_requests v ver reqs s s' rs :
  apply_requests reqs s = Return (s', rs) →
  sm_lease_version_counter s + N.of_nat (length reqs) < u64_modulus →
  fenced v ver s → fenced v ver s'.
Proof.
  revert s rs. induction reqs as [|req reqs IH]; intros s rs; simpl; [naive_solver|].
  destruct (apply_request req s) as [[s1 r1]|] eqn:Hreq; [|done]; simpl.
  destruct (apply_requests reqs s1) as [[s2 rs2]|] eqn:Hreqs; [|done]; simpl.
  intros [= <- <-] Hb Hf. apply lease_step_request in Hreq.
  eapply IH; [done| |eapply lease_step_fenced; [done|lia|done]].
  destruct Hreq as [Hc _]. rewrite u64_add_small in Hc by lia. lia.
Qed.

Lemma issued_requests reqs s s' rs :
  apply_requests reqs s = Return (s', rs) →
  sm_lease_version_counter s + N.of_nat (length reqs) < u64_modulus →
  versions_issued s →
  versions_issued s' ∧
  sm_lease_version_counter s' ≤ sm_lease_version_counter s + N.of_nat (length reqs).
Proof.
  revert s rs. induction reqs as [|req reqs IH]; intros s rs; simpl.
  { intros [= <- <-]. split; [done|lia]. }
  destruct (apply_request req s) as [[s1 r1]|] eqn:Hreq; [|done]; simpl.
  destruct (apply_requests reqs s1) as [[s2 rs2]|] eqn:Hreqs; [|done]; simpl.
  intros [= <- <-] Hb Hi. apply lease_step_request in Hreq.
  destruct (lease_step_issued _ _ Hreq ltac:(lia) Hi) as (Hi1 & _ & Hle).
  destruct (IH _ _ Hreqs ltac:(lia) Hi1) as [??]. split; [done|lia].
Qed.

Lemma validate_lease_Ok v sess ver now s :
  validate_lease v sess ver now s = Ok tt ↔
  ∃ l, get_lease v s = Some l ∧ lease_holder l = sess ∧ lease_version l = ver ∧
    now < lease_expires_at_ms l.
Proof.
  unfold validate_lease, get_lease, is_held_by, is_expired.
  destruct (sm_leases s !! to_string v) as [l|]; simpl; [|naive_solver].
  repeat case_bool_decide; simpl; try case_decide; naive_solver lia.
Qed.

(** The lease an acquisition or a renewal leaves behind. *)
Lemma acquire_granted v sess now ttl s s' ver exp :
  now + ttl < u64_modulus →
  apply_acquire v sess now ttl s = (s', Granted ver exp) →
  ∃ l, get_lease v s' = Some l ∧ lease_holder l = sess ∧ lease_version l = ver ∧
    lease_expires_at_ms l = now + ttl.
Proof.
  intros Hb. unfold apply_acquire, get_lease. intros Happ.
  inv_handler Happ; simplify_eq/=; rewrite lookup_insert_eq; eexists; split_and!; try done;
    by apply u64_add_small.
Qed.

Lemma renew_renewed v sess now ttl s s' ver exp :
  now + ttl < u64_modulus →
  apply_renew v sess now ttl s = (s', Renewed ver exp) →
  ∃ l, get_lease v s' = Some l ∧ lease_holder l = sess ∧ lease_version l = ver ∧
    lease_expires_at_ms l = now + ttl.
Proof.
  intros Hb. unfold apply_renew, get_lease, is_held_by. intros Happ.
  destruct (sm_leases s !! to_string v) as [l|]; [|done].
  case_bool_decide as Hh; [|done]. simpl in Happ. destruct (is_expired l now); [done|].
  simplify_eq/=. rewrite lookup_insert_eq. eexists. split_and!; try done. by apply u64_add_small.
Qed.

(** A lease request that succeeds fences every version valid before it. *)
Lemma lease_success_fences req s s1 r ver :
  sm_lease_version_counter s + 1 < u64_modulus →
  versions_issued s →
  apply_lease_request req s = (s1, r) →
  LeaseResponse_is_success r = true →
  (∃ l, get_lease (lease_req_volume req) s = Some l ∧ lease_version l = ver) →
  fenced (lease_req_volume req) ver s1.
Proof.
  intros Hb Hiss Happ Hr (l & Hl & <-). pose proof (Hiss _ _ Hl) as Hle.
  destruct req; simpl in *; unfold apply_acquire, apply_renew, apply_release, get_lease in *;
    rewrite Hl in Happ; simpl in Happ; inv_handler Happ;
    unfold fenced, get_lease; simpl; rewrite ?u64_add_small by done;
    (split; [lia|]); intros l';
    rewrite ?lookup_insert_eq, ?lookup_delete_eq; naive_solver lia.
Qed.

(** Requests that do not end the lease of [v] held by [sess] before [expires]:
    the holder itself does not touch it, the volume is kept, and the clocks in
    the requests are before the expiry. *)
Definition respects_lease (v : VolumeId) (sess : SessionId) (expires : N) (req : MetadataRequest)
    : Prop :=
  match req with
  | DeleteVolume v' => v' ≠ v
  | Lease (Acquire v' sess' now _) => v' ≠ v ∨ (sess' ≠ sess ∧ now < expires)
  | Lease (Renew v' sess' _ _) | Lease (Release v' sess') => v' ≠ v ∨ sess' ≠ sess
  | CleanupExpiredLeases now => now < expires
  | _ => True
  end.

Lemma respects_lease_request v l q s :
  get_lease v s = Some l →
  respects_lease v (lease_holder l) (lease_expires_at_ms l) (Lease q) →
  get_lease v (apply_lease_request q s).1 = Some l.
Proof.
  unfold get_lease. intros Hl Hq.
  assert (∀ v', v' = v ∨ to_string v' ≠ to_string v) as Hv.
  { intros v'. destruct (decide (v' = v)); [by left|right; by intros ?%(inj to_string)]. }
  destruct q as [v' ???|v' ???|v' ?]; simpl in *; destruct (Hv v') as [->|Hne];
    unfold apply_acquire, apply_renew, apply_release, is_expired, is_held_by;
    repeat (case_match || case_decide || case_bool_decide); simpl in *; simplify_eq;
    rewrite ?lookup_insert_ne, ?lookup_delete_ne by done; try done; naive_solver lia.
Qed.

Lemma respects_lease_step v l req s s' r :
  get_lease v s = Some l →
  respects_lease v (lease_holder l) (lease_expires_at_ms l) req →
  apply_request req s = Return (s', r) →
  get_lease v s' = Some l.
Proof.
  intros Hl Hreq [_ Hs']%leases_frame. unfold get_lease in *. rewrite Hs'.
  destruct req; try done.
  - simpl in Hreq. destruct (is_error r); [done|].
    rewrite lookup_delete_ne; [done|]. by intros ?%(inj to_string).
  - by apply respects_lease_request.
  - apply map_lookup_filter_Some. split; [done|]. simpl in *. unfold is_expired.
    apply bool_decide_eq_false. lia.
Qed.

(** ** Node numbering *)

Definition raft_ids_ok s : Prop :=
  (∀ n id, get_raft_id n s = Some id → id ≤ sm_raft_id_counter s) ∧
  (∀ n1 n2 id, get_raft_id n1 s = Some id → get_raft_id n2 s = Some id → n1 = n2).

Lemma raft_ids_frame req s s' r :
  apply_request req s = Return (s', r) →
  (∀ n addr, req ≠ RegisterNode n addr) →
  sm_node_raft_map s' = sm_node_raft_map s ∧ sm_raft_id_counter s' = sm_raft_id_counter s.
Proof.
  intros Happ Hn. destruct req; simpl in Happ; try (apply Return_pair in Happ as [-> ->]);
    simpl; try done.
  - unfold apply_remove_node. by case_match.
  - unfold apply_create_volume. by repeat case_match.
  - unfold apply_delete_volume. by repeat case_match.
  - by apply apply_commit_frame in Happ as (? & ? & ? & ->).
  - by apply apply_commit_batch_frame in Happ as (? & ? & ? & ->).
  - destruct (apply_lease_request req s) as [s1 r1] eqn:Hl.
    apply apply_lease_request_frame in Hl as (L & c & ->). by simplify_eq/=.
  - naive_solver.
  - unfold apply_update_disk_usage. by case_match.
  - unfold apply_deregister_disk. by case_match.
Qed.

Lemma raft_ids_step req s s' r :
  apply_request req s = Return (s', r) →
  raft_ids_ok s → sm_raft_id_counter s + 1 < u64_modulus →
  raft_ids_ok s' ∧ sm_raft_id_counter s' ≤ sm_raft_id_counter s + 1 ∧
  sm_node_raft_map s ⊆ sm_node_raft_map s'.
Proof.
  intros Happ [Hle Hinj] Hb. destruct req as [| | | | | | | | |n addr| | | |].
  all: try (destruct (raft_ids_frame _ _ _ _ Happ) as [Hm Hc]; [done|];
            unfold raft_ids_ok, get_raft_id in *; rewrite Hm, Hc; split_and!; [done..|lia|done]).
  simpl in Happ. apply Return_pair in Happ as [-> _]. unfold apply_register_node.
  unfold raft_ids_ok, get_raft_id in *.
  destruct (sm_node_raft_map s !! n) as [id|] eqn:Hn; simpl; [split_and!; [done..|lia|done]|].
  rewrite u64_add_small by done. split_and!; [..|lia|by apply insert_subseteq].
  - intros n' id'. rewrite lookup_insert_Some. intros [[_ <-]|[_ ?%Hle]]; lia.
  - intros n1 n2 id1. rewrite !lookup_insert_Some.
    intros [[<- <-]|[? Hn1]] [[<- ?]|[? Hn2]]; try done.
    + apply Hle in Hn2. lia.
    + apply Hle in Hn1. lia.
    + by eapply Hinj.
Qed.

Lemma raft_ids_requests reqs s s' rs :
  apply_requests reqs s = Return (s', rs) →
  raft_ids_ok s → sm_raft_id_counter s + N.of_nat (length reqs) < u64_modulus →
  raft_ids_ok s' ∧ sm_raft_id_counter s' ≤ sm_raft_id_counter s + N.of_nat (length reqs) ∧
  sm_node_raft_map s ⊆ sm_node_raft_map s'.
Proof.
  revert s rs. induction reqs as [|req reqs IH]; intros s rs; simpl.
  { intros [= <- <-] Hok _. split_and!; [apply Hok..|lia|done]. }
  destruct (apply_request req s) as [[s1 r1]|] eqn:Hreq; [|done]; simpl.
  destruct (apply_requests reqs s1) as [[s2 rs2]|] eqn:Hreqs; [|done]; simpl.
  intros [= <- <-] Hok Hb.
  destruct (raft_ids_step _ _ _ _ Hreq Hok ltac:(lia)) as (Hok1 & Hle1 & Hsub1).
  destruct (IH _ _ Hreqs Hok1 ltac:(lia)) as (Hok2 & Hle2 & Hsub2).
  split_and!; [apply Hok2..|lia|by etrans].
Qed.

Lemma raft_ids_default : raft_ids_ok sm_default.
Proof. unfold raft_ids_ok, get_raft_id. simpl. split; intros *; by rewrite lookup_empty. Qed.

Lemma get_node_id_by_raft_id_Some `{!HashIter NodeId} id n s :
  raft_ids_ok s → get_node_id_by_raft_id id s = Some n ↔ get_raft_id n s = Some id.
Proof.
  intros [_ Hinj]. unfold get_node_id_by_raft_id, get_raft_id in *. split.
  - intros ((i & n') & (_ & Hn & _)%list_find_Some & ->)%fmap_Some. done.
  - intros Hn. destruct (list_find _ _) as [[i n']|] eqn:Hf; simpl.
    + apply list_find_Some in Hf as (_ & Hn' & _). f_equal. by eapply Hinj.
    + apply list_find_None in Hf. rewrite Forall_forall in Hf. destruct (Hf n); [|done].
      rewrite hash_keys_perm. apply list_elem_of_fmap. exists (n, id).
      by rewrite elem_of_map_to_list.
Qed.

End leases.

(** ** Theorems *)

Section theorems.
Context `{!UuidDisplay} `{!RaftTypes}.
Implicit Types s : MetadataStateMachineData.

(** C2: Write fencing.  Take any history of the cluster, then a lease request
    on a volume that succeeds (granted, renewed or released), then any further
    history.  A session and lease version that passed [validate_lease] for the
    volume just before that request never pass it again, whatever the clock says,
    as long as fewer than 2^64 requests are made in all. *)
Theorem lease_fencing pre s rs0 req s1 r post s2 rs sess ver now now' :
  apply_requests pre sm_default = Return (s, rs0) →
  validate_lease (lease_req_volume req) sess ver now s = Ok tt →
  apply_request (Lease req) s = Return (s1, RespLease r) →
  LeaseResponse_is_success r = true →
  apply_requests post s1 = Return (s2, rs) →
  N.of_nat (length pre) + 1 + N.of_nat (length post) < u64_modulus →
  validate_lease (lease_req_volume req) sess ver now' s2 ≠ Ok tt.
Proof.
  intros Hpre Hval Hreq Hr Hpost Hlen.
  destruct (issued_requests pre sm_default s rs0) as [Hiss Hle]; [done|simpl; lia| |].
  { intros k l. simpl. by rewrite lookup_empty. }
  change (sm_lease_version_counter sm_default) with 0 in Hle. simpl in Hreq.
  destruct (apply_lease_request req s) as [s1' r'] eqn:Hl. simplify_eq.
  apply validate_lease_Ok in Hval as (l & Hget & _ & Hver & _).
  assert (fenced (lease_req_volume req) ver s1) as Hf
    by (apply (lease_success_fences req s s1 r ver); [lia|done..|by exists l]).
  pose proof (lease_step_lease_request req s) as Hstep. rewrite Hl in Hstep; simpl in Hstep.
  destruct (lease_step_issued _ _ Hstep ltac:(lia) Hiss) as (_ & _ & ?).
  apply (fenced_requests _ _ post _ s2 rs) in Hf as [_ Hne]; [|done|lia].
  intros (l2 & Hget2 & _ & Hver2 & _)%validate_lease_Ok. by eapply Hne.
Qed.

(** No preemption.  While the requests applied keep the volume, carry
    clocks before the expiry of its lease and come from other sessions, the
    lease is unchanged, so the holder's version still validates up to its
    expiry; acquisition by another session is among those requests, and fails. *)
Theorem lease_not_preempted v sess ver now expires reqs s s' rs :
  validate_lease v sess ver now s = Ok tt →
  lease_expires_at_ms <$> get_lease v s = Some expires →
  Forall (respects_lease v sess expires) reqs →
  apply_requests reqs s = Return (s', rs) →
  get_lease v s' = get_lease v s ∧
  (∀ now', now' < expires → validate_lease v sess ver now' s' = Ok tt).
Proof.
  intros (l & Hl & <- & <- & Hnow)%validate_lease_Ok Hexp Hall Happ.
  rewrite Hl in Hexp. simplify_eq/=.
  assert (get_lease v s' = Some l) as Hl'.
  { clear Hnow. revert s rs Hl Happ. induction Hall as [|req reqs Hreq Hall IH]; intros s rs Hl; simpl.
    { naive_solver. }
    destruct (apply_request req s) as [[s1 r1]|] eqn:Hr; [|done]; simpl.
    destruct (apply_requests reqs s1) as [[s2 rs2]|] eqn:Hreqs; [|done]; simpl.
    intros [= <- <-]. eapply IH; [|done]. by eapply respects_lease_step. }
  split; [congruence|]. intros now' Hnow'. apply validate_lease_Ok. eauto.
Qed.

(** An acquisition is granted exactly when the volume exists and no other
    session holds an unexpired lease on it; the version granted then validates
    until the time to live has passed (on a clock that has not wrapped), and the
    holder of the new lease is the session that asked. *)
Theorem acquire_spec v sess now ttl s :
  now + ttl < u64_modulus →
  let '(s', r) := apply_lease_request (Acquire v sess now ttl) s in
  (LeaseResponse_is_success r = true ↔
     is_Some (get_volume v s) ∧
     ∀ l, get_lease v s = Some l → lease_expires_at_ms l ≤ now ∨ lease_holder l = sess) ∧
  (LeaseResponse_is_success r = true →
     ∃ ver, r = Granted ver (now + ttl) ∧ ver = u64_add (sm_lease_version_counter s) 1 ∧
       ∀ now', validate_lease v sess ver now' s' = Ok tt ↔ now' < now + ttl).
Proof.
  intros Hb. destruct (apply_lease_request (Acquire v sess now ttl) s) as [s' r] eqn:Happ.
  simpl in Happ. unfold apply_acquire in Happ. rewrite (u64_add_small now) in Happ by done.
  set (lease := MkVolumeLease _ _ _ _ _) in Happ.
  set (s1 := set_leases _ _) in Happ.
  assert (∀ now', validate_lease v sess (u64_add (sm_lease_version_counter s) 1) now' s1 = Ok tt ↔
     now' < now + ttl) as Hval.
  { intros now'. rewrite validate_lease_Ok. unfold get_lease, s1. simpl.
    rewrite lookup_insert_eq. split; [intros (l & [= <-] & ? & ? & Hlt); exact Hlt|].
    intros Hlt. by exists lease. }
  unfold get_volume, get_lease. case_decide as Hvol.
  2:{ simplify_eq/=. split; [|done]. split; [done|naive_solver]. }
  destruct (sm_leases s !! to_string v) as [l|] eqn:Hl.
  - unfold is_expired, is_held_by in Happ.
    repeat case_bool_decide; simplify_eq/=; (split; [split; [|try done]|try done]);
      naive_solver lia.
  - simplify_eq/=. naive_solver.
Qed.

(** Cleaning up expired leases reports how many it dropped, leaves none
    that has expired, and changes no validation at or after the cleanup time. *)
Theorem cleanup_expired_leases_spec now s :
  let '(s', n) := cleanup_expired_leases now s in
  n = length (filter (λ l, is_expired l now = true) (list_all_leases s)) ∧
  list_active_leases now s' = list_all_leases s' ∧
  (∀ v sess ver now', now ≤ now' →
     validate_lease v sess ver now' s' = Ok tt ↔ validate_lease v sess ver now' s = Ok tt).
Proof.
  simpl. split_and!.
  - pose proof (size_filter_values (λ l, is_expired l now) (sm_leases s)) as Hsz.
    unfold list_all_leases. rewrite btree_values_perm. lia.
  - unfold list_active_leases, list_all_leases. apply filter_Forall, Forall_forall.
    intros l (k & Hl)%elem_of_btree_values. simpl in Hl.
    by apply map_lookup_filter_Some in Hl as [_ ?].
  - intros v sess ver now' Hle. rewrite !validate_lease_Ok. unfold get_lease. simpl.
    setoid_rewrite map_lookup_filter_Some. unfold is_expired.
    setoid_rewrite bool_decide_eq_false. naive_solver lia.
Qed.

(** The raft identifiers assigned by any history of fewer than 2^64
    requests are distinct, the reverse lookup is the inverse of the forward one
    whatever the hash order, and registering a node answers with its identifier
    and keeps every identifier assigned before. *)
Theorem raft_ids_unique_and_stable `{!HashIter NodeId} reqs s rs n addr :
  apply_requests reqs sm_default = Return (s, rs) →
  N.of_nat (length reqs) + 1 < u64_modulus →
  (∀ n' id, get_node_id_by_raft_id id s = Some n' ↔ get_raft_id n' s = Some id) ∧
  ∃ s' id, apply_request (RegisterNode n addr) s = Return (s', RespNodeRegistered id) ∧
    get_raft_id n s' = Some id ∧ get_node_id_by_raft_id id s' = Some n ∧
    (∀ n' id', get_raft_id n' s = Some id' → get_raft_id n' s' = Some id').
Proof.
  intros Happ Hlen.
  destruct (raft_ids_requests reqs sm_default s rs) as (Hok & Hle & _);
    [done|apply raft_ids_default|simpl; lia|].
  change (sm_raft_id_counter sm_default) with 0 in Hle.
  split; [intros n' id; by apply get_node_id_by_raft_id_Some|].
  destruct (apply_request (RegisterNode n addr) s) as [[s' r]|] eqn:Hreg; [|done].
  destruct (raft_ids_step _ _ _ _ Hreg Hok ltac:(lia)) as (Hok' & _ & Hsub).
  assert (∃ id, r = RespNodeRegistered id ∧ get_raft_id n s' = Some id) as (id & -> & Hid).
  { simpl in Hreg. apply Return_pair in Hreg as [-> ->]. unfold apply_register_node, get_raft_id.
    destruct (sm_node_raft_map s !! n) as [id|] eqn:Hn; simpl; eexists; split; [done..| |].
    - done.
    - apply lookup_insert_eq. }
  exists s', id. split_and!; [done|done|by apply get_node_id_by_raft_id_Some|].
  intros n' id' ?. unfold get_raft_id in *. by eapply lookup_weaken.
Qed.

End theorems.

(** ** Witnesses *)

Import Demo.

Lemma lease_fencing_witness :
  validate_lease vol session1 1 1200 state = Ok tt ∧
  validate_lease vol session1 1 1600
    (state_of (apply_requests [AdvanceEpoch] (after (Lease (Acquire vol session2 1600 500))))) ≠ Ok tt.
Proof.
  split; [vm_compute; reflexivity|].
  eapply (lease_fencing setup state _ (Acquire vol session2 1600 500) _ (Granted 2 2100)
    [AdvanceEpoch] _ _ session1 1 1200 1600);
    [vm_compute; reflexivity..|vm_compute; reflexivity].
Defined.

Lemma lease_not_preempted_witness :
  validate_lease vol session1 1 1400 (after (Lease (Acquire vol session2 1300 500))) = Ok tt.
Proof.
  eapply (lease_not_preempted vol session1 1 1200 1500 [Lease (Acquire vol session2 1300 500)] state).
  - vm_compute. reflexivity.
  - vm_compute. reflexivity.
  - constructor; [|constructor]. right. split; [discriminate|reflexivity].
  - vm_compute. reflexivity.
  - reflexivity.
Defined.

Lemma acquire_spec_witness :
  let '(s', r) := apply_lease_request (Acquire vol session2 1600 500) state in
  validate_lease vol session2 2 1700 s' = Ok tt.
Proof.
  pose proof (acquire_spec vol session2 1600 500 state ltac:(vm_compute; reflexivity)) as Hspec.
  destruct (apply_lease_request (Acquire vol session2 1600 500) state) as [s' r] eqn:Heq.
  vm_compute in Heq. injection Heq as <- <-.
  destruct Hspec as [_ Hspec]. destruct (Hspec eq_refl) as (ver & Hver & _ & Hval).
  injection Hver as <-. apply Hval. reflexivity.
Defined.

Lemma raft_ids_unique_and_stable_witness :
  @get_node_id_by_raft_id _ (hash_iter_default NodeId) 2 state = Some (NodeId_new 2).
Proof.
  eapply (raft_ids_unique_and_stable (HashIter0 := hash_iter_default NodeId)
    setup state _ (NodeId_new 3) "n3"); vm_compute; reflexivity.
Defined.
