(* ===== verification/RaftStore.v ===== *)
(** * Raft log and state machine stores (crates/blockyard-raft)

    The in-memory stores of store.rs and the redb-backed stores of
    persistent_store.rs.  A redb transaction is atomic: an operation on the
    persistent stores takes the outcome of each of its transactions as an
    argument, and one that fails leaves the tables as they were.  serde_json is a
    parameter ([Serde]) of which only is assumed that decoding inverts encoding;
    the leader identifiers, memberships and votes of openraft are parameters as
    well. *)

From Stdlib Require Import Strings.Byte.
From S2P Require Import Prelude Common MetadataSM MetadataInv.

#[local] Open Scope N_scope.

(** ** Parameters *)

(** What the stores use of openraft beyond [RaftTypes]. *)
Class RaftStorage `{!RaftTypes} := {
  Vote : Type;
  leader_display : LeaderId → string;
}.

Abbreviation bytes := (list byte) (only parsing).

(** Errors of the stores: encoding or decoding, and redb. *)
Inductive StorageError := SerdeError | RedbError.

(** [serde_json::to_vec] and [serde_json::from_slice] at one type. *)
Class Serde (A : Type) := {
  to_vec : A → option bytes;
  from_slice : bytes → option A;
  from_slice_to_vec : ∀ a b, to_vec a = Some b → from_slice b = Some a;
}.

(** A concrete codec, used to evaluate the model: values of a given table are
    encoded by their position in it, others are refused. *)
Definition serde_table_to_vec {A} `{EqDecision A} (table : list A) (a : A) : option bytes :=
  (λ ix, replicate ix.1 x00) <$> list_find (λ x, x = a) table.

Lemma serde_table_law {A} `{EqDecision A} (table : list A) a b :
  serde_table_to_vec table a = Some b → table !! length b = Some a.
Proof.
  unfold serde_table_to_vec. intros ((i & x) & (Hi & -> & _)%list_find_Some & ->)%fmap_Some.
  by rewrite length_replicate.
Qed.

Definition serde_table {A} `{EqDecision A} (table : list A) : Serde A :=
  {| to_vec := serde_table_to_vec table;
     from_slice := λ b, table !! length b;
     from_slice_to_vec := serde_table_law table |}.

(** ** Data *)

Inductive EntryPayload `{!RaftTypes} :=
  | Blank
  | Normal (req : MetadataRequest)
  | MembershipChange (mem : Membership).

Record Entry `{!RaftTypes} := MkEntryLog {
  entry_log_id : LogId;
  entry_payload : EntryPayload;
}.
Arguments MkEntryLog {_} _ _.

Record SnapshotMeta `{!RaftTypes} := MkSnapshotMeta {
  snap_last_log_id : option LogId;
  snap_last_membership : StoredMembership;
  snap_id : string;
}.
Arguments MkSnapshotMeta {_} _ _ _.

Record StoredSnapshot `{!RaftTypes} := MkStoredSnapshot {
  stored_meta : SnapshotMeta;
  stored_data : bytes;
}.
Arguments MkStoredSnapshot {_} _ _.

Record LogState `{!RaftTypes} := MkLogState {
  last_purged_log_id : option LogId;
  last_log_id : option LogId;
}.
Arguments MkLogState {_} _ _.

(** [std::ops::Bound], the ends of the ranges the log is read with. *)
Inductive Bound := Included (n : N) | Excluded (n : N) | Unbounded.

Definition in_bounds (lo hi : Bound) (k : N) : Prop :=
  match lo with Included n => n ≤ k | Excluded n => n < k | Unbounded => True end ∧
  match hi with Included n => k ≤ n | Excluded n => k < n | Unbounded => True end.

#[global] Instance in_bounds_dec lo hi k : Decision (in_bounds lo hi k).
Proof. unfold in_bounds. destruct lo, hi; apply _. Defined.

(** [table.range(..)] on an ordered map: the entries, by increasing key. *)
Definition btree_range {A} (lo hi : Bound) (m : gmap N A) : list (N * A) :=
  filter (λ kx, in_bounds lo hi kx.1) (btree_list m).

(** Remove every key of a list, one after the other. *)
Definition remove_keys {A} (ks : list N) (m : gmap N A) : gmap N A :=
  foldl (λ m k, delete k m) m ks.

(** ** The in-memory log store *)

Section log_store.
Context `{!RaftTypes} `{!RaftStorage}.

Record LogStore := MkLogStore {
  LogStore_vote : option Vote;
  LogStore_log : gmap N Entry;
  LogStore_last_purged : option LogId;
}.

Definition LogStore_new : LogStore := MkLogStore None ∅ None.

Definition LogStore_try_get_log_entries (lo hi : Bound) (s : LogStore) : list Entry := (btree_range lo hi (LogStore_log s)).*2.

Definition LogStore_get_log_state (s : LogStore) : LogState :=
  MkLogState (LogStore_last_purged s) ((λ kx, entry_log_id kx.2) <$> last (btree_list (LogStore_log s))).

Definition LogStore_save_vote (v : Vote) (s : LogStore) : LogStore := MkLogStore (Some v) (LogStore_log s) (LogStore_last_purged s).

Definition LogStore_read_vote (s : LogStore) : option Vote := LogStore_vote s.

Definition LogStore_append (entries : list Entry) (s : LogStore) : LogStore :=
  MkLogStore (LogStore_vote s)
    (foldl (λ m e, <[log_index (entry_log_id e) := e]> m) (LogStore_log s) entries) (LogStore_last_purged s).

Definition LogStore_truncate (log_id : LogId) (s : LogStore) : LogStore :=
  MkLogStore (LogStore_vote s)
    (remove_keys (btree_range (Included (log_index log_id)) Unbounded (LogStore_log s)).*1 (LogStore_log s))
    (LogStore_last_purged s).

Definition LogStore_purge (log_id : LogId) (s : LogStore) : LogStore :=
  MkLogStore (LogStore_vote s)
    (remove_keys (btree_range Unbounded (Included (log_index log_id)) (LogStore_log s)).*1 (LogStore_log s))
    (Some log_id).

End log_store.

(** ** The state machine behind both stores *)

Section apply.
Context `{!UuidDisplay} `{!RaftTypes}.

(** One iteration of the loop of [apply]. *)
Definition apply_entry (entry : Entry) (data : MetadataStateMachineData)
    : exec (MetadataStateMachineData * MetadataResponse) :=
  let data := set_last_applied (Some (entry_log_id entry)) data in
  match entry_payload entry with
  | Blank => Return (data, RespOk)
  | Normal req => apply_request req data
  | MembershipChange mem =>
      Return (set_last_membership (MkStoredMembership (Some (entry_log_id entry)) mem) data, RespOk)
  end.

Fixpoint apply_entries (entries : list Entry) (data : MetadataStateMachineData)
    : exec (MetadataStateMachineData * list MetadataResponse) :=
  match entries with
  | [] => Return (data, [])
  | entry :: entries =>
      '(data, resp) ← apply_entry entry data;
      '(data, resps) ← apply_entries entries data;
      Return (data, resp :: resps)
  end.

End apply.

(** The identifier of the [idx]-th snapshot. *)
Definition snapshot_id `{!RaftTypes} `{!RaftStorage} (last_applied : option LogId) (idx : N) : string :=
  match last_applied with
  | Some last =>
      leader_display (log_leader_id last) +:+ "-" +:+ u64_to_string (log_index last) +:+ "-"
        +:+ u64_to_string idx
  | None => "--" +:+ u64_to_string idx
  end.

(** ** The in-memory state machine store *)

Section sm_store.
Context `{!UuidDisplay} `{!RaftTypes} `{!RaftStorage} `{!Serde MetadataStateMachineData}.

Record StateMachineStore := MkStateMachineStore {
  StateMachineStore_data : MetadataStateMachineData;
  StateMachineStore_snapshot_idx : N;
  StateMachineStore_current_snapshot : option StoredSnapshot;
}.

Definition StateMachineStore_new : StateMachineStore := MkStateMachineStore sm_default 0 None.

Definition StateMachineStore_applied_state (s : StateMachineStore) : option LogId * StoredMembership :=
  (sm_last_applied (StateMachineStore_data s), sm_last_membership (StateMachineStore_data s)).

Definition StateMachineStore_apply (entries : list Entry) (s : StateMachineStore) : exec (StateMachineStore * list MetadataResponse) :=
  '(d, resps) ← apply_entries entries (StateMachineStore_data s);
  Return (MkStateMachineStore d (StateMachineStore_snapshot_idx s) (StateMachineStore_current_snapshot s), resps).

Definition StateMachineStore_build_snapshot (s : StateMachineStore) : StateMachineStore * result StorageError StoredSnapshot :=
  match to_vec (StateMachineStore_data s) with
  | None => (s, Err SerdeError)
  | Some sm_json =>
      let idx := u64_add (StateMachineStore_snapshot_idx s) 1 in
      let meta := MkSnapshotMeta (sm_last_applied (StateMachineStore_data s)) (sm_last_membership (StateMachineStore_data s))
                    (snapshot_id (sm_last_applied (StateMachineStore_data s)) idx) in
      let stored := MkStoredSnapshot meta sm_json in
      (MkStateMachineStore (StateMachineStore_data s) idx (Some stored), Ok stored)
  end.

Definition StateMachineStore_install_snapshot (meta : SnapshotMeta) (raw : bytes) (s : StateMachineStore)
    : StateMachineStore * result StorageError unit :=
  match from_slice raw with
  | None => (s, Err SerdeError)
  | Some new_data =>
      let d := set_last_membership (snap_last_membership meta)
                 (set_last_applied (snap_last_log_id meta) new_data) in
      (MkStateMachineStore d (StateMachineStore_snapshot_idx s) (Some (MkStoredSnapshot meta raw)), Ok tt)
  end.

Definition StateMachineStore_get_current_snapshot (s : StateMachineStore) : option StoredSnapshot := StateMachineStore_current_snapshot s.

End sm_store.

(** ** Transactions

    How a redb write transaction ends: it commits, or it fails when it begins or
    later; a transaction that does not commit has no effect. *)

Inductive Txn := Committed | BeginFailed | CommitFailed.

Definition write_txn {D} (txn : Txn) (body : D → result StorageError D) (db : D)
    : D * result StorageError unit :=
  match txn with
  | BeginFailed => (db, Err RedbError)
  | Committed => match body db with Ok db' => (db', Ok tt) | Err e => (db, Err e) end
  | CommitFailed => match body db with Ok _ => (db, Err RedbError) | Err e => (db, Err e) end
  end.

(** [serde_json] calls with their error, as the stores use them. *)
Definition encode `{Serde A} (a : A) : result StorageError bytes := ok_or SerdeError (to_vec a).

Definition decode A `{Serde A} (b : bytes) : result StorageError A := ok_or SerdeError (from_slice b).

(** Decode every item of a list, stopping at the first error. *)
Fixpoint decode_all A `{Serde A} (bs : list bytes) : result StorageError (list A) :=
  match bs with
  | [] => Ok []
  | b :: bs => a ← decode A b; rest ← decode_all A bs; Ok (a :: rest)
  end.

(** Decode the value of a one-row table, if it is there. *)
Definition decode_opt A `{Serde A} (o : option bytes) : result StorageError (option A) :=
  match o with Some b => a ← decode A b; Ok (Some a) | None => Ok None end.

(** ** The persistent log store *)

Section log_store.
Context `{!RaftTypes} `{!RaftStorage} `{!Serde Entry} `{!Serde Vote} `{!Serde LogId}.

Record PersistentLogStore := MkPersistentLogStore {
  PersistentLogStore_log_table : gmap N bytes;
  PersistentLogStore_vote_table : option bytes;
  PersistentLogStore_purge_table : option bytes;
}.

(** A database created empty. *)
Definition PersistentLogStore_new : PersistentLogStore := MkPersistentLogStore ∅ None None.

Definition PersistentLogStore_try_get_log_entries (lo hi : Bound) (s : PersistentLogStore) : result StorageError (list Entry) :=
  decode_all Entry (btree_range lo hi (PersistentLogStore_log_table s)).*2.

Definition PersistentLogStore_get_log_state (s : PersistentLogStore) : result StorageError LogState :=
  last_log ← decode_opt Entry (snd <$> last (btree_list (PersistentLogStore_log_table s)));
  last_purged ← decode_opt LogId (PersistentLogStore_purge_table s);
  Ok (MkLogState last_purged (entry_log_id <$> last_log)).

Definition PersistentLogStore_save_vote (txn : Txn) (v : Vote) (s : PersistentLogStore) : PersistentLogStore * result StorageError unit :=
  match encode v with
  | Err e => (s, Err e)
  | Ok d => write_txn txn (λ s, Ok (MkPersistentLogStore (PersistentLogStore_log_table s) (Some d) (PersistentLogStore_purge_table s))) s
  end.

Definition PersistentLogStore_read_vote (s : PersistentLogStore) : result StorageError (option Vote) := decode_opt Vote (PersistentLogStore_vote_table s).

(** The loop of [append]: each entry is encoded and inserted. *)
Fixpoint PersistentLogStore_insert_all (entries : list Entry) (m : gmap N bytes) : result StorageError (gmap N bytes) :=
  match entries with
  | [] => Ok m
  | entry :: entries =>
      d ← encode entry;
      PersistentLogStore_insert_all entries (<[log_index (entry_log_id entry) := d]> m)
  end.

Definition PersistentLogStore_append (txn : Txn) (entries : list Entry) (s : PersistentLogStore) : PersistentLogStore * result StorageError unit :=
  write_txn txn (λ s, m ← PersistentLogStore_insert_all entries (PersistentLogStore_log_table s);
                      Ok (MkPersistentLogStore m (PersistentLogStore_vote_table s) (PersistentLogStore_purge_table s))) s.

Definition PersistentLogStore_truncate (txn : Txn) (log_id : LogId) (s : PersistentLogStore) : PersistentLogStore * result StorageError unit :=
  write_txn txn (λ s,
    let to_remove := (btree_range (Included (log_index log_id)) Unbounded (PersistentLogStore_log_table s)).*1 in
    Ok (MkPersistentLogStore (remove_keys to_remove (PersistentLogStore_log_table s)) (PersistentLogStore_vote_table s) (PersistentLogStore_purge_table s))) s.

Definition PersistentLogStore_purge (txn : Txn) (log_id : LogId) (s : PersistentLogStore) : PersistentLogStore * result StorageError unit :=
  write_txn txn (λ s,
    let to_remove := (btree_range Unbounded (Included (log_index log_id)) (PersistentLogStore_log_table s)).*1 in
    d ← encode log_id;
    Ok (MkPersistentLogStore (remove_keys to_remove (PersistentLogStore_log_table s)) (PersistentLogStore_vote_table s) (Some d))) s.

End log_store.

(** ** The persistent state machine store *)

Section sm_store.
Context `{!UuidDisplay} `{!RaftTypes} `{!RaftStorage}.
Context `{!Serde MetadataStateMachineData} `{!Serde (option LogId)} `{!Serde StoredMembership}.
Context `{!Serde StoredSnapshot}.

(** The database: what survives a restart. *)
Record SmDisk := MkSmDisk {
  PersistentStateMachineStore_state_machine_table : gmap string bytes;
  PersistentStateMachineStore_snapshot_table : option bytes;
}.

Record PersistentStateMachineStore := MkPersistentStateMachineStore {
  PersistentStateMachineStore_db : SmDisk;
  PersistentStateMachineStore_data : MetadataStateMachineData;
  PersistentStateMachineStore_snapshot_idx : N;
}.

(** The three restores of [new]: a missing or undecodable value is skipped. *)
Definition PersistentStateMachineStore_restore_data (tbl : gmap string bytes) (d : MetadataStateMachineData) :=
  default d (tbl !! "data" ≫= from_slice).

Definition PersistentStateMachineStore_restore_last_applied (tbl : gmap string bytes) (d : MetadataStateMachineData) :=
  match tbl !! "last_applied" ≫= from_slice with
  | Some lid => set_last_applied lid d
  | None => d
  end.

Definition PersistentStateMachineStore_restore_membership (tbl : gmap string bytes) (d : MetadataStateMachineData) :=
  match tbl !! "membership" ≫= from_slice with
  | Some mem => set_last_membership mem d
  | None => d
  end.

(** [new]: open the database and load what it holds. *)
Definition PersistentStateMachineStore_new (d : SmDisk) : PersistentStateMachineStore :=
  let tbl := PersistentStateMachineStore_state_machine_table d in
  MkPersistentStateMachineStore d (PersistentStateMachineStore_restore_membership tbl (PersistentStateMachineStore_restore_last_applied tbl (PersistentStateMachineStore_restore_data tbl sm_default))) 0.

Definition PersistentStateMachineStore_disk_empty : SmDisk := MkSmDisk ∅ None.

Definition PersistentStateMachineStore_persist_state (txn : Txn) (s : PersistentStateMachineStore) : PersistentStateMachineStore * result StorageError unit :=
  let jsons :=
    sm_json ← encode (PersistentStateMachineStore_data s);
    la_json ← encode (sm_last_applied (PersistentStateMachineStore_data s));
    mem_json ← encode (sm_last_membership (PersistentStateMachineStore_data s));
    Ok (sm_json, la_json, mem_json) in
  match jsons with
  | Err e => (s, Err e)
  | Ok (sm_json, la_json, mem_json) =>
      let '(d, r) := write_txn txn (λ d,
        Ok (MkSmDisk (<["membership" := mem_json]> (<["last_applied" := la_json]>
                     (<["data" := sm_json]> (PersistentStateMachineStore_state_machine_table d)))) (PersistentStateMachineStore_snapshot_table d))) (PersistentStateMachineStore_db s) in
      (MkPersistentStateMachineStore d (PersistentStateMachineStore_data s) (PersistentStateMachineStore_snapshot_idx s), r)
  end.

Definition PersistentStateMachineStore_applied_state (s : PersistentStateMachineStore) : option LogId * StoredMembership :=
  (sm_last_applied (PersistentStateMachineStore_data s), sm_last_membership (PersistentStateMachineStore_data s)).

Definition PersistentStateMachineStore_apply (txn : Txn) (entries : list Entry) (s : PersistentStateMachineStore)
    : exec (PersistentStateMachineStore * result StorageError (list MetadataResponse)) :=
  '(d, resps) ← apply_entries entries (PersistentStateMachineStore_data s);
  let '(s, r) := PersistentStateMachineStore_persist_state txn (MkPersistentStateMachineStore (PersistentStateMachineStore_db s) d (PersistentStateMachineStore_snapshot_idx s)) in
  Return (s, r ≫= λ _, Ok resps).

Definition PersistentStateMachineStore_store_snapshot (txn : Txn) (stored : StoredSnapshot) (s : PersistentStateMachineStore)
    : PersistentStateMachineStore * result StorageError unit :=
  let '(d, r) := write_txn txn (λ d,
    b ← encode stored; Ok (MkSmDisk (PersistentStateMachineStore_state_machine_table d) (Some b))) (PersistentStateMachineStore_db s) in
  (MkPersistentStateMachineStore d (PersistentStateMachineStore_data s) (PersistentStateMachineStore_snapshot_idx s), r).

Definition PersistentStateMachineStore_build_snapshot (txn : Txn) (s : PersistentStateMachineStore) : PersistentStateMachineStore * result StorageError StoredSnapshot :=
  match to_vec (PersistentStateMachineStore_data s) with
  | None => (s, Err SerdeError)
  | Some sm_json =>
      let idx := u64_add (PersistentStateMachineStore_snapshot_idx s) 1 in
      let meta := MkSnapshotMeta (sm_last_applied (PersistentStateMachineStore_data s)) (sm_last_membership (PersistentStateMachineStore_data s))
                    (snapshot_id (sm_last_applied (PersistentStateMachineStore_data s)) idx) in
      let stored := MkStoredSnapshot meta sm_json in
      let '(s, r) := PersistentStateMachineStore_store_snapshot txn stored (MkPersistentStateMachineStore (PersistentStateMachineStore_db s) (PersistentStateMachineStore_data s) idx) in
      (s, r ≫= λ _, Ok stored)
  end.

Definition PersistentStateMachineStore_install_snapshot (txn1 txn2 : Txn) (meta : SnapshotMeta) (raw : bytes) (s : PersistentStateMachineStore)
    : PersistentStateMachineStore * result StorageError unit :=
  match from_slice raw with
  | None => (s, Err SerdeError)
  | Some new_data =>
      let d := set_last_membership (snap_last_membership meta)
                 (set_last_applied (snap_last_log_id meta) new_data) in
      match PersistentStateMachineStore_persist_state txn1 (MkPersistentStateMachineStore (PersistentStateMachineStore_db s) d (PersistentStateMachineStore_snapshot_idx s)) with
      | (s, Err e) => (s, Err e)
      | (s, Ok _) => PersistentStateMachineStore_store_snapshot txn2 (MkStoredSnapshot meta raw) s
      end
  end.

Definition PersistentStateMachineStore_get_current_snapshot (s : PersistentStateMachineStore) : result StorageError (option StoredSnapshot) :=
  decode_opt StoredSnapshot (PersistentStateMachineStore_snapshot_table (PersistentStateMachineStore_db s)).

End sm_store.
