(* ===== verification/RaftRecovery.v ===== *)
(** * Correctness of the Raft stores

    The persistent log store simulates the in-memory one under any outcome of
    its transactions; the log read back after a truncation and an append is what
    was appended; the state machine behind the stores is a function of the
    committed requests, so that crashes and replays do not change it; snapshots
    carry the whole state. *)

From Stdlib Require Import Strings.Byte.
From S2P Require Import Prelude Common MetadataSM MetadataInv MetadataSpec RaftStore.

#[local] Open Scope N_scope.

(** ** Removing and reading ranges *)

Lemma lookup_remove_keys {A} ks (m : gmap N A) k :
  remove_keys ks m !! k = if decide (k ∈ ks) then None else m !! k.
Proof.
  unfold remove_keys. revert m. induction ks as [|k' ks IH]; intros m.
  { rewrite decide_False by set_solver. done. }
  cbn [foldl]. rewrite IH. destruct (decide (k = k')) as [->|].
  - rewrite (decide_True (P := k' ∈ k' :: ks)) by set_solver.
    case_decide; [done|]. apply lookup_delete_eq.
  - rewrite lookup_delete_ne by done. apply decide_ext. set_solver.
Qed.

Lemma elem_of_btree_range {A} lo hi (m : gmap N A) k :
  k ∈ (btree_range lo hi m).*1 ↔ in_bounds lo hi k ∧ is_Some (m !! k).
Proof.
  unfold btree_range. rewrite list_elem_of_fmap. split.
  - intros ([k' x] & -> & [? ?%elem_of_btree_list]%list_elem_of_filter). eauto.
  - intros [? [x ?]]. exists (k, x). by rewrite list_elem_of_filter, elem_of_btree_list.
Qed.

Lemma lookup_remove_range {A} lo hi (m : gmap N A) k :
  remove_keys (btree_range lo hi m).*1 m !! k = if decide (in_bounds lo hi k) then None else m !! k.
Proof.
  rewrite lookup_remove_keys.
  destruct (decide (k ∈ _)) as [Hd|Hd], (decide (in_bounds lo hi k)); try done.
  - apply elem_of_btree_range in Hd as [? _]. done.
  - apply eq_None_not_Some. intros ?. apply Hd. by apply elem_of_btree_range.
Qed.

Lemma btree_range_sorted {A} lo hi (m : gmap N A) :
  StronglySorted key_lt (btree_range lo hi m).*1.
Proof.
  unfold btree_range. pose proof (btree_keys_sorted m) as Hm.
  induction (btree_list m) as [|[k x] b IH]; csimpl in *; [constructor|].
  inversion Hm as [|? ? Hb Hall]; subst. rewrite filter_cons. case_decide; [|by apply IH].
  csimpl. constructor; [by apply IH|]. rewrite Forall_fmap in Hall |- *.
  rewrite Forall_forall in Hall |- *. intros p [_ ?]%list_elem_of_filter. by apply Hall.
Qed.

Lemma btree_range_unique {A} lo hi (m : gmap N A) l :
  StronglySorted key_lt l.*1 →
  (∀ k x, (k, x) ∈ l ↔ in_bounds lo hi k ∧ m !! k = Some x) →
  btree_range lo hi m = l.
Proof.
  intros Hs Hl. rewrite <-(btree_list_unique l (filter (λ kx, in_bounds lo hi kx.1) m)).
  - symmetry. apply btree_list_unique.
    + apply btree_range_sorted.
    + intros k x. unfold btree_range.
      rewrite list_elem_of_filter, elem_of_btree_list, map_lookup_filter_Some. naive_solver.
  - done.
  - intros k x. rewrite Hl, map_lookup_filter_Some. naive_solver.
Qed.

Section log.
Context `{!RaftTypes} `{!RaftStorage}.

(** Consecutive entries starting at index [n]. *)
Fixpoint consecutive (n : N) (entries : list Entry) : Prop :=
  match entries with
  | [] => True
  | e :: entries => log_index (entry_log_id e) = n ∧ consecutive (n + 1) entries
  end.

Lemma consecutive_lookup n entries k e :
  consecutive n entries → entries !! k = Some e → log_index (entry_log_id e) = n + N.of_nat k.
Proof.
  revert n k. induction entries as [|e' entries IH]; intros n [|k]; simpl; try done.
  - intros [? _] [= <-]. lia.
  - intros [_ Hc] Hk. rewrite (IH _ _ Hc Hk). lia.
Qed.

Lemma consecutive_sorted n entries :
  consecutive n entries →
  StronglySorted key_lt (log_index ∘ entry_log_id <$> entries).
Proof.
  revert n. induction entries as [|e entries IH]; intros n; csimpl; [constructor|].
  intros [Hn Hc]. constructor; [by eapply IH|].
  rewrite Forall_fmap, Forall_lookup. intros k e' Hk. simpl.
  rewrite Hn, (consecutive_lookup _ _ _ _ Hc Hk). split; simpl; lia.
Qed.

(** What an append leaves in the log at each index. *)
Lemma lookup_append_consecutive n entries (log : gmap N Entry) k e :
  consecutive n entries →
  foldl (λ m e, <[log_index (entry_log_id e) := e]> m) log entries !! k = Some e ↔
  (e ∈ entries ∧ log_index (entry_log_id e) = k) ∨
  (log !! k = Some e ∧ (k < n ∨ n + N.of_nat (length entries) ≤ k)).
Proof.
  revert n log. induction entries as [|e' entries IH]; intros n log; simpl.
  { intros _. split; [intros ?; right; split; [done|lia]|]. intros [[[]%elem_of_nil _]|[? _]]; done. }
  intros [Hn Hc]. rewrite (IH _ _ Hc), Hn, lookup_insert_Some, elem_of_cons.
  split.
  - intros [[? ?]|[[[? ?]|[? ?]] [?|?]]].
    + left. auto.
    + subst. left. auto.
    + lia.
    + right. split; [done|]. lia.
    + right. split; [done|]. lia.
  - intros [[[->|?] ?]|[? ?]].
    + right. split; [left; split; congruence|]. lia.
    + left. done.
    + right. split; [right; split; [lia|done]|]. lia.
Qed.

(** The log below the truncation point is kept. *)
Lemma read_below lo n (log1 log2 : gmap N Entry) :
  (∀ k, k < n → log1 !! k = log2 !! k) →
  btree_range lo (Excluded n) log1 = btree_range lo (Excluded n) log2.
Proof.
  intros Heq. apply btree_range_unique.
  - apply btree_range_sorted.
  - intros k x. unfold btree_range. rewrite list_elem_of_filter, elem_of_btree_list. simpl.
    unfold in_bounds. split; intros [[? ?] Hx]; (split; [done|]); rewrite <-Hx; [|symmetry];
      by apply Heq.
Qed.

(** The entries of a consecutive run, with their indexes, as the log lists them. *)
Lemma read_from n entries (log : gmap N Entry) :
  consecutive n entries →
  (∀ k, n ≤ k → log !! k = None) →
  btree_range (Included n) Unbounded
    (foldl (λ m e, <[log_index (entry_log_id e) := e]> m) log entries) =
  (λ e, (log_index (entry_log_id e), e)) <$> entries.
Proof.
  intros Hc Hnone. apply btree_range_unique.
  - rewrite <-list_fmap_compose. by eapply consecutive_sorted.
  - intros k e. rewrite (lookup_append_consecutive n) by done. rewrite list_elem_of_fmap.
    unfold in_bounds. split.
    + intros (e' & [= -> ->] & Hin). apply list_elem_of_lookup in Hin as [i Hi].
      rewrite (consecutive_lookup _ _ _ _ Hc Hi) at 1. split; [split; [lia|done]|].
      left. split; [|done]. apply list_elem_of_lookup. eauto.
    + intros [[Hk _] [[Hin <-]|[Hlog _]]]; [eauto|]. by rewrite Hnone in Hlog.
Qed.

End log.

(** ** The persistent log store simulates the in-memory one *)

Section persistent_log.
Context `{!RaftTypes} `{!RaftStorage} `{!Serde Entry} `{!Serde Vote} `{!Serde LogId}.

Definition decodes {A} `{!Serde A} (b : list byte) (a : A) : Prop := from_slice b = Some a.

Record log_rel (p : PersistentLogStore) (m : LogStore) : Prop := {
  rel_log : ∀ k, option_Forall2 decodes (PersistentLogStore_log_table p !! k) (LogStore_log m !! k);
  rel_vote : option_Forall2 decodes (PersistentLogStore_vote_table p) (LogStore_vote m);
  rel_purge : option_Forall2 decodes (PersistentLogStore_purge_table p) (LogStore_last_purged m);
}.

(** The operations on a log store. *)
Inductive LogOp :=
  | OpSaveVote (v : Vote)
  | OpAppend (entries : list Entry)
  | OpTruncate (log_id : LogId)
  | OpPurge (log_id : LogId).

Definition run_memory (op : LogOp) (m : LogStore) : LogStore :=
  match op with
  | OpSaveVote v => LogStore_save_vote v m
  | OpAppend entries => LogStore_append entries m
  | OpTruncate log_id => LogStore_truncate log_id m
  | OpPurge log_id => LogStore_purge log_id m
  end.

Definition run_persistent (op : LogOp) (txn : Txn) (p : PersistentLogStore)
    : PersistentLogStore * result StorageError unit :=
  match op with
  | OpSaveVote v => PersistentLogStore_save_vote txn v p
  | OpAppend entries => PersistentLogStore_append txn entries p
  | OpTruncate log_id => PersistentLogStore_truncate txn log_id p
  | OpPurge log_id => PersistentLogStore_purge txn log_id p
  end.

(** Run both stores side by side: an operation that fails on disk is not
    performed in memory. *)
Fixpoint run_both (ops : list (LogOp * Txn)) (p : PersistentLogStore) (m : LogStore)
    : PersistentLogStore * LogStore :=
  match ops with
  | [] => (p, m)
  | (op, txn) :: ops =>
      match run_persistent op txn p with
      | (p', Ok _) => run_both ops p' (run_memory op m)
      | (p', Err _) => run_both ops p' m
      end
  end.

Lemma write_txn_cases {D} txn body (db : D) :
  (∃ db', body db = Ok db' ∧ write_txn txn body db = (db', Ok tt)) ∨
  ∃ e, write_txn txn body db = (db, Err e).
Proof. destruct txn; simpl; destruct (body db); eauto. Qed.

Lemma encode_decodes {A} `{!Serde A} (a : A) b : encode a = Ok b → decodes b a.
Proof.
  unfold encode, decodes. destruct (to_vec a) eqn:Ha; simpl; [|done].
  intros [= <-]. by apply from_slice_to_vec.
Qed.

Lemma insert_all_rel entries t t' (log : gmap N Entry) :
  PersistentLogStore_insert_all entries t = Ok t' →
  (∀ k, option_Forall2 decodes (t !! k) (log !! k)) →
  ∀ k, option_Forall2 decodes (t' !! k)
    (foldl (λ m e, <[log_index (entry_log_id e) := e]> m) log entries !! k).
Proof.
  revert t log. induction entries as [|e entries IH]; intros t log; simpl; [naive_solver|].
  destruct (encode e) as [b|] eqn:Hb; simpl; [|done]. intros Hins Hrel. apply (IH _ _ Hins).
  intros k. destruct (decide (k = log_index (entry_log_id e))) as [->|].
  - rewrite !lookup_insert_eq. constructor. by apply encode_decodes.
  - by rewrite !lookup_insert_ne.
Qed.

Lemma remove_range_rel lo hi (t : gmap N (list byte)) (log : gmap N Entry) :
  (∀ k, option_Forall2 decodes (t !! k) (log !! k)) →
  ∀ k, option_Forall2 decodes (remove_keys (btree_range lo hi t).*1 t !! k)
    (remove_keys (btree_range lo hi log).*1 log !! k).
Proof. intros Hrel k. rewrite !lookup_remove_range. case_decide; [constructor|done]. Qed.

Lemma run_persistent_rel op txn p m p' r :
  log_rel p m → run_persistent op txn p = (p', r) →
  match r with Ok _ => log_rel p' (run_memory op m) | Err _ => p' = p end.
Proof.
  intros Hrel. destruct op as [v|es|id|id]; simpl.
  - unfold PersistentLogStore_save_vote. destruct (encode v) as [b|] eqn:Hb; [|naive_solver].
    destruct (write_txn_cases txn (λ s, Ok (MkPersistentLogStore (PersistentLogStore_log_table s)
      (Some b) (PersistentLogStore_purge_table s))) p) as [(p1 & Hp & ->)|[e ->]]; [|naive_solver].
    intros [= <- <-]. simplify_eq/=. destruct Hrel. split; simpl; try done.
    constructor. by apply encode_decodes.
  - unfold PersistentLogStore_append.
    match goal with |- write_txn _ ?f _ = _ → _ => set (body := f) end.
    destruct (write_txn_cases txn body p) as [(p1 & Hp & ->)|[e ->]]; [|naive_solver].
    intros [= <- <-]. unfold body in Hp.
    destruct (PersistentLogStore_insert_all _ _) as [t'|] eqn:Hins; simplify_eq/=.
    destruct Hrel. split; simpl; try done. by eapply insert_all_rel.
  - unfold PersistentLogStore_truncate.
    match goal with |- write_txn _ ?f _ = _ → _ => set (body := f) end.
    destruct (write_txn_cases txn body p) as [(p1 & Hp & ->)|[e ->]]; [|naive_solver].
    intros [= <- <-]. unfold body in Hp. simplify_eq/=. destruct Hrel. split; simpl; try done.
    by apply remove_range_rel.
  - unfold PersistentLogStore_purge.
    match goal with |- write_txn _ ?f _ = _ → _ => set (body := f) end.
    destruct (write_txn_cases txn body p) as [(p1 & Hp & ->)|[e ->]]; [|naive_solver].
    intros [= <- <-]. unfold body in Hp.
    destruct (encode id) as [b|] eqn:Hb; simplify_eq/=. destruct Hrel. split; simpl; try done.
    + by apply remove_range_rel.
    + constructor. by apply encode_decodes.
Qed.

Lemma run_both_rel ops p m :
  log_rel p m → log_rel (run_both ops p m).1 (run_both ops p m).2.
Proof.
  revert p m. induction ops as [|[op txn] ops IH]; intros p m Hrel; simpl; [done|].
  destruct (run_persistent op txn p) as [p' r] eqn:Hrun.
  pose proof (run_persistent_rel _ _ _ _ _ _ Hrel Hrun) as Hr.
  destruct r; [by apply IH|]. subst. by apply IH.
Qed.

Lemma decode_all_Forall2 {A} `{!Serde A} bs (l : list A) :
  Forall2 decodes bs l → decode_all A bs = Ok l.
Proof.
  induction 1 as [|b a bs l Hb Hbs IH]; simpl; [done|].
  unfold decode, decodes in *. rewrite Hb. simpl. by rewrite IH.
Qed.

Lemma decode_opt_Forall2 {A} `{!Serde A} (o : option (list byte)) (a : option A) :
  option_Forall2 decodes o a → decode_opt A o = Ok a.
Proof. destruct 1 as [b a Hb|]; simpl; [|done]. unfold decode, decodes in *. by rewrite Hb. Qed.

Lemma read_rel lo hi p m :
  log_rel p m → PersistentLogStore_try_get_log_entries lo hi p = Ok (LogStore_try_get_log_entries lo hi m).
Proof.
  intros [Hlog _ _]. apply decode_all_Forall2. apply btree_list_Forall2 in Hlog.
  unfold LogStore_try_get_log_entries, btree_range. rewrite Forall2_fmap.
  eapply Forall2_impl; [apply Forall2_filter; [|done]|naive_solver].
  intros [] [] [? _]. simpl in *. by subst.
Qed.

Lemma get_log_state_rel p m :
  log_rel p m → PersistentLogStore_get_log_state p = Ok (LogStore_get_log_state m).
Proof.
  intros [Hlog _ Hpurge]. unfold PersistentLogStore_get_log_state.
  apply btree_list_Forall2 in Hlog.
  assert (option_Forall2 decodes (snd <$> last (btree_list (PersistentLogStore_log_table p)))
    (snd <$> last (btree_list (LogStore_log m)))) as Hlast.
  { apply Forall2_last in Hlog. destruct Hlog as [? ? [_ ?]|]; by constructor. }
  rewrite (decode_opt_Forall2 _ _ Hlast). simpl. rewrite (decode_opt_Forall2 _ _ Hpurge). simpl.
  unfold LogStore_get_log_state. by destruct (last (btree_list (LogStore_log m))).
Qed.

End persistent_log.

(** ** The state machine behind the stores *)

Section apply_entries.
Context `{!UuidDisplay} `{!RaftTypes}.
Implicit Types s : MetadataStateMachineData.

(** The requests among a list of log entries. *)
Definition normal_requests (entries : list Entry) : list MetadataRequest :=
  omap (λ e, match entry_payload e with Normal req => Some req | _ => None end) entries.

(** The state without the two fields that record the position in the log. *)
Definition forget_position s : MetadataStateMachineData :=
  set_last_membership (MkStoredMembership None membership_default) (set_last_applied None s).

Lemma apply_commit_forget e s :
  apply_commit e (forget_position s) =
    ('(s', r) ← apply_commit e s; Return (forget_position s', r)).
Proof.
  unfold apply_commit, expect; simpl.
  destruct (sm_volumes s !! _); [|done]. case_decide; [|done].
  destruct (sm_extent_mappings s !! _) as [vm|]; simpl; [|done].
  destruct (cas_check _ _ _); simpl; [done|]. by rewrite !commit_mapping_eq.
Qed.

Lemma apply_commit_batch_forget es s :
  apply_commit_batch es (forget_position s) =
    ('(s', r) ← apply_commit_batch es s; Return (forget_position s', r)).
Proof.
  revert s. induction es as [|e es IH]; intros s; simpl; [done|].
  rewrite apply_commit_forget. destruct (apply_commit e s) as [[s1 r1]|]; simpl; [|done].
  destruct (is_error r1); [done|]. apply IH.
Qed.

(** Requests neither read nor write the position in the log. *)
Lemma apply_request_forget req s :
  apply_request req (forget_position s) =
    ('(s', r) ← apply_request req s; Return (forget_position s', r)).
Proof.
  destruct req; simpl; try done.
  - unfold apply_remove_node; simpl. by case_match.
  - unfold apply_create_volume; simpl. case_decide; [done|]. by destruct (ProtectionPolicy_validate _).
  - unfold apply_delete_volume; simpl. destruct (sm_volumes s !! _); simpl; [|done].
    by destruct (sm_extent_mappings s !! _).
  - apply apply_commit_forget.
  - apply apply_commit_batch_forget.
  - destruct req; simpl; unfold apply_acquire, apply_renew, apply_release; simpl;
      repeat case_match; by simplify_eq/=.
  - unfold apply_register_node; simpl. by case_match.
  - unfold apply_update_disk_usage; simpl. by case_match.
  - unfold apply_deregister_disk; simpl. by case_match.
Qed.

Lemma last_applied_frame req s s' r :
  apply_request req s = Return (s', r) → sm_last_applied s' = sm_last_applied s.
Proof.
  intros Happ. destruct req; simpl in Happ; try (apply Return_pair in Happ as [-> ->]); try done.
  - unfold apply_remove_node. by case_match.
  - unfold apply_create_volume. by repeat case_match.
  - unfold apply_delete_volume. by repeat case_match.
  - by apply apply_commit_frame in Happ as (? & ? & ? & ->).
  - by apply apply_commit_batch_frame in Happ as (? & ? & ? & ->).
  - destruct (apply_lease_request req s) as [s1 r1] eqn:Hl.
    apply apply_lease_request_frame in Hl as (L & c & ->). by simplify_eq/=.
  - unfold apply_register_node. by case_match.
  - unfold apply_update_disk_usage. by case_match.
  - unfold apply_deregister_disk. by case_match.
Qed.

Lemma sm_inv_position la lm s :
  sm_inv s → sm_inv (set_last_membership lm (set_last_applied la s)).
Proof. by intros []. Qed.

Lemma apply_entry_total e s :
  sm_inv s → ∃ s' r, apply_entry e s = Return (s', r) ∧ sm_inv s' ∧
    sm_last_applied s' = Some (entry_log_id e).
Proof.
  intros Hinv. unfold apply_entry.
  assert (∀ la, sm_inv (set_last_applied la s)) as Hinv' by (intros la; by destruct Hinv).
  destruct (entry_payload e) as [|req|mem].
  - eexists _, _. split_and!; [done|done|done].
  - destruct (apply_request_total req _ (Hinv' (Some (entry_log_id e)))) as (s' & r & Happ).
    exists s', r. split_and!; [done|eapply sm_inv_apply, Happ; apply Hinv'|].
    pose proof (last_applied_frame _ _ _ _ Happ) as ->. done.
  - eexists _, _. split_and!; [done|by apply sm_inv_position|done].
Qed.

Lemma apply_entries_total es s :
  sm_inv s → ∃ s' rs, apply_entries es s = Return (s', rs) ∧ sm_inv s' ∧
    length rs = length es ∧
    sm_last_applied s' = match last es with Some e => Some (entry_log_id e) | None => sm_last_applied s end.
Proof.
  revert s. induction es as [|e es IH]; intros s Hinv; simpl.
  { exists s, []. by split_and!. }
  destruct (apply_entry_total e s Hinv) as (s1 & r1 & He & Hinv1 & Hla). rewrite He; simpl.
  destruct (IH s1 Hinv1) as (s2 & rs & Hes & Hinv2 & Hlen & Hla2). rewrite Hes; simpl.
  exists s2, (r1 :: rs). split_and!; [done|done|by rewrite <-Hlen|].
  rewrite Hla2, last_cons. by destruct (last es).
Qed.

Lemma apply_entries_requests es s s' rs :
  apply_entries es s = Return (s', rs) →
  ∃ rs', apply_requests (normal_requests es) (forget_position s) = Return (forget_position s', rs').
Proof.
  revert s rs. induction es as [|e es IH]; intros s rs; simpl.
  { intros [= <- <-]. by exists []. }
  destruct (apply_entry e s) as [[s1 r1]|] eqn:He; [|done]; simpl.
  destruct (apply_entries es s1) as [[s2 rs2]|] eqn:Hes; [|done]; simpl. intros [= <- <-].
  apply IH in Hes as [rs' Hes]. unfold apply_entry in He.
  change (forget_position s) with
    (forget_position (set_last_applied (Some (entry_log_id e)) s)).
  destruct (entry_payload e) as [|req|mem]; simplify_eq/=; [by eauto| |by eauto].
  rewrite apply_request_forget, He; simpl. rewrite Hes; simpl. eauto.
Qed.

Lemma apply_entries_app es1 es2 s :
  apply_entries (es1 ++ es2) s =
    ('(s1, rs1) ← apply_entries es1 s;
     '(s2, rs2) ← apply_entries es2 s1; Return (s2, rs1 ++ rs2)).
Proof.
  revert s. induction es1 as [|e es1 IH]; intros s; simpl.
  { by destruct (apply_entries es2 s) as [[]|]. }
  destruct (apply_entry e s) as [[s1 r1]|]; simpl; [|done]. rewrite IH.
  destruct (apply_entries es1 s1) as [[s2 rs2]|]; simpl; [|done].
  by destruct (apply_entries es2 s2) as [[]|].
Qed.

End apply_entries.

(** ** Durability of the persistent state machine store *)

Section durability.
Context `{!UuidDisplay} `{!RaftTypes} `{!RaftStorage}.
Context `{!Serde MetadataStateMachineData} `{!Serde (option LogId)} `{!Serde StoredMembership}.
Context `{!Serde StoredSnapshot}.
Implicit Types s : PersistentStateMachineStore.

(** A node that stops and starts again: what is left is the database. *)
Definition restart s : PersistentStateMachineStore :=
  PersistentStateMachineStore_new (PersistentStateMachineStore_db s).

(** The state in memory is the one a restart would load. *)
Definition durable s : Prop :=
  PersistentStateMachineStore_data (restart s) = PersistentStateMachineStore_data s.

Lemma durable_new : durable (PersistentStateMachineStore_new PersistentStateMachineStore_disk_empty).
Proof. done. Qed.

Lemma durable_restart s : durable (restart s).
Proof. done. Qed.

(** Persisting makes the state durable, or leaves the database alone. *)
Lemma persist_state_cases txn s s' r :
  PersistentStateMachineStore_persist_state txn s = (s', r) →
  PersistentStateMachineStore_data s' = PersistentStateMachineStore_data s ∧
  match r with
  | Ok _ => durable s'
  | Err _ => PersistentStateMachineStore_db s' = PersistentStateMachineStore_db s
  end.
Proof.
  unfold PersistentStateMachineStore_persist_state.
  destruct (encode (PersistentStateMachineStore_data s)) as [b1|] eqn:Hb1; simpl; [|naive_solver].
  destruct (encode (sm_last_applied _)) as [b2|] eqn:Hb2; simpl; [|naive_solver].
  destruct (encode (sm_last_membership _)) as [b3|] eqn:Hb3; simpl; [|naive_solver].
  apply encode_decodes in Hb1, Hb2, Hb3. unfold decodes in *.
  match goal with |- context [write_txn txn ?f ?d] =>
    destruct (write_txn_cases txn f d) as [(d' & Hd & ->)|[e ->]] end; [|naive_solver].
  intros [= <- <-]. split; [done|]. simplify_eq/=.
  unfold durable, restart, PersistentStateMachineStore_new,
    PersistentStateMachineStore_restore_membership, PersistentStateMachineStore_restore_last_applied,
    PersistentStateMachineStore_restore_data; simpl.
  rewrite lookup_insert_eq; simpl. rewrite Hb3; simpl.
  rewrite (lookup_insert_ne _ "membership" "last_applied") by done.
  rewrite lookup_insert_eq; simpl. rewrite Hb2; simpl.
  rewrite (lookup_insert_ne _ "membership" "data"), (lookup_insert_ne _ "last_applied" "data") by done.
  rewrite lookup_insert_eq; simpl. rewrite Hb1; simpl.
  by destruct (PersistentStateMachineStore_data s).
Qed.

Lemma apply_cases txn es s s' r :
  PersistentStateMachineStore_apply txn es s = Return (s', r) →
  ∃ rs, apply_entries es (PersistentStateMachineStore_data s) =
          Return (PersistentStateMachineStore_data s', rs) ∧
    match r with
    | Ok rs' => rs' = rs ∧ durable s'
    | Err _ => PersistentStateMachineStore_db s' = PersistentStateMachineStore_db s
    end.
Proof.
  unfold PersistentStateMachineStore_apply.
  destruct (apply_entries es _) as [[d rs]|] eqn:Hes; simpl; [|done].
  destruct (PersistentStateMachineStore_persist_state txn _) as [s1 r1] eqn:Hp.
  apply persist_state_cases in Hp as [Hdata Hr]. simpl in Hdata.
  intros [= <- <-]. exists rs. rewrite Hdata. split; [done|]. by destruct r1.
Qed.

(** The entries of the committed log a node still asks for: those above the position
    its store reports, all of them when it reports none. *)
Definition pending (log : list Entry) s : list Entry :=
  match (PersistentStateMachineStore_applied_state s).1 with
  | None => log
  | Some id => filter (λ e, log_index id < log_index (entry_log_id e)) log
  end.

(** The life of a node under a committed log.  It is handed batches of the entries it
    asks for; a batch whose persisting fails stops it, and it may be stopped at any
    other moment.  A restarted node starts with what its database holds, and so asks
    for the log from the position it restored. *)
Inductive node_run (log : list Entry) : PersistentStateMachineStore → PersistentStateMachineStore → Prop :=
  | run_done s : node_run log s s
  | run_apply s txn n s1 rs s2 :
      PersistentStateMachineStore_apply txn (take n (pending log s)) s = Return (s1, Ok rs) →
      node_run log s1 s2 → node_run log s s2
  | run_crash s txn n s1 e s2 :
      PersistentStateMachineStore_apply txn (take n (pending log s)) s = Return (s1, Err e) →
      node_run log (restart s1) s2 → node_run log s s2
  | run_restart s s2 : node_run log (restart s) s2 → node_run log s s2.

(** The store holds what the first [n] entries produce, position included. *)
Definition applied_to (log : list Entry) (n : nat) s : Prop :=
  durable s ∧ (∃ rs, apply_entries (take n log) sm_default = Return (PersistentStateMachineStore_data s, rs)).

Lemma consecutive_above i log k e :
  consecutive i log → log !! k = Some e →
  filter (λ e', log_index (entry_log_id e) < log_index (entry_log_id e')) log = drop (S k) log.
Proof.
  intros Hc He. rewrite (consecutive_lookup _ _ _ _ Hc He).
  revert i k Hc He. induction log as [|e0 log IH]; intros i k; [done|]. intros [Hi Hc] He. destruct k as [|k]; simpl in *.
  - rewrite filter_cons_False by lia. apply filter_Forall, Forall_lookup. intros k e1 He1.
    rewrite (consecutive_lookup _ _ _ _ Hc He1). lia.
  - rewrite filter_cons_False by lia. replace (i + N.of_nat (S k)) with (i + 1 + N.of_nat k) by lia. by apply IH.
Qed.

(** The position that is reported is where the state is. *)
Lemma pending_applied i log n s : consecutive i log → applied_to log n s → pending log s = drop n log.
Proof.
  intros Hc (_ & rs & Happ). unfold pending. simpl.
  destruct (apply_entries_total (take n log) sm_default sm_inv_default) as (d & rs' & Happ' & _ & _ & Hla).
  rewrite Happ in Happ'. injection Happ' as <- <-. rewrite Hla.
  destruct (last (take n log)) as [e|] eqn:Hlast.
  - rewrite last_lookup in Hlast. apply lookup_take_Some in Hlast as [Hk Hn].
    rewrite (consecutive_above i log _ e Hc Hk). rewrite length_take in *.
    destruct (decide (n ≤ length log)%nat); [f_equal; lia|]. rewrite !drop_ge by lia. done.
  - apply last_None in Hlast. apply (f_equal length) in Hlast. rewrite length_take in Hlast. simpl in Hlast.
    destruct n; [done|]. destruct log; [done|]. simpl in Hlast. lia.
Qed.

Lemma node_run_applied i log s s' n :
  consecutive i log → node_run log s s' → applied_to log n s → ∃ n', (n ≤ n')%nat ∧ applied_to log n' s'.
Proof.
  intros Hc Hrun. revert n. induction Hrun as [s|s txn k s1 rs s2 Happ Hrun IH|s txn k s1 e s2 Happ Hrun IH
    |s s2 Hrun IH]; intros n Hat; pose proof Hat as [Hdur [rs0 Hn]].
  - by exists n.
  - rewrite (pending_applied i log n s Hc Hat) in Happ. apply apply_cases in Happ as (rs' & Hes & _ & Hdur1).
    destruct (IH (n + k)%nat) as (n' & Hle & Hat'); [|exists n'; split; [lia|done]].
    split; [done|]. rewrite <- take_take_drop, apply_entries_app, Hn. simpl. rewrite Hes. simpl. eauto.
  - apply apply_cases in Happ as (rs' & _ & Hdb). apply IH. split; [done|]. exists rs0. unfold restart.
    rewrite Hdb. fold (restart s). by rewrite Hdur.
  - apply IH. split; [done|]. exists rs0. by rewrite Hdur.
Qed.

End durability.

(** ** Theorems *)

Section theorems.
Context `{!UuidDisplay} `{!RaftTypes} `{!RaftStorage}.

(** C29: Whatever operations are performed on a persistent log store, and
    whichever of its transactions fail, every read (a range of entries, the log
    state, the vote) decodes and returns what the in-memory store returns after
    the operations that succeeded. *)
Theorem persistent_log_refines_memory `{!Serde Entry} `{!Serde Vote} `{!Serde LogId} ops lo hi :
  let '(p, m) := run_both ops PersistentLogStore_new LogStore_new in
  PersistentLogStore_try_get_log_entries lo hi p = Ok (LogStore_try_get_log_entries lo hi m) ∧
  PersistentLogStore_get_log_state p = Ok (LogStore_get_log_state m) ∧
  PersistentLogStore_read_vote p = Ok (LogStore_read_vote m).
Proof.
  assert (log_rel PersistentLogStore_new LogStore_new) as Hnew.
  { split; simpl; [intros k; rewrite !lookup_empty|..]; constructor. }
  pose proof (run_both_rel ops _ _ Hnew) as Hrel.
  destruct (run_both ops _ _) as [p m]; simpl in *. split_and!.
  - by apply read_rel.
  - by apply get_log_state_rel.
  - apply decode_opt_Forall2, Hrel.
Qed.

(** Replacing a conflicting suffix of the log: after truncating at an index
    and appending consecutive entries from it, reading from that index returns
    exactly the entries appended, in order, and the log below it is unchanged. *)
Theorem log_replace_suffix (m : LogStore) (id : LogId) entries :
  consecutive (log_index id) entries →
  let m' := LogStore_append entries (LogStore_truncate id m) in
  LogStore_try_get_log_entries (Included (log_index id)) Unbounded m' = entries ∧
  LogStore_try_get_log_entries Unbounded (Excluded (log_index id)) m' =
    LogStore_try_get_log_entries Unbounded (Excluded (log_index id)) m.
Proof.
  intros Hc m'. unfold LogStore_try_get_log_entries, m'; simpl. split.
  - rewrite (read_from _ _ _ Hc).
    + rewrite <-list_fmap_compose. rewrite <-(list_fmap_id entries) at 2. by apply list_fmap_ext.
    + intros k Hk. rewrite lookup_remove_range. by rewrite decide_True.
  - f_equal. apply read_below. intros k Hk. apply option_eq. intros e.
    rewrite (lookup_append_consecutive (log_index id)) by done.
    rewrite lookup_remove_range, decide_False by (unfold in_bounds; lia).
    split; [|intros ?; right; split; [done|by left]].
    intros [[Hin Hke]|[? _]]; [|done]. apply list_elem_of_lookup in Hin as [i Hi].
    rewrite (consecutive_lookup _ _ _ _ Hc Hi) in Hke. lia.
Qed.

(** The state machine store is a function of the committed requests: any
    log applies without a panic, with one response per entry, the position
    recorded is that of the last entry, and apart from the position the state is
    the one the requests of the log produce. *)
Theorem store_applies_requests `{!Serde MetadataStateMachineData} (log : list Entry) :
  ∃ s rs rs', StateMachineStore_apply log StateMachineStore_new = Return (s, rs) ∧
    length rs = length log ∧
    (StateMachineStore_applied_state s).1 = entry_log_id <$> last log ∧
    apply_requests (normal_requests log) sm_default =
      Return (forget_position (StateMachineStore_data s), rs').
Proof.
  unfold StateMachineStore_apply.
  destruct (apply_entries_total log (StateMachineStore_data StateMachineStore_new) sm_inv_default)
    as (d & rs & Hlog & _ & Hlen & Hla). rewrite Hlog; simpl.
  destruct (apply_entries_requests _ _ _ _ Hlog) as [rs' Hreqs].
  exists (MkStateMachineStore d 0 None), rs, rs'.
  split_and!; [done|done| |done]. simpl. rewrite Hla. by destruct (last log).
Qed.

Context `{!Serde MetadataStateMachineData} `{!Serde (option LogId)} `{!Serde StoredMembership}.
Context `{!Serde StoredSnapshot}.

(** C12: Crash recovery.  However a node's life under a committed log is interleaved
    with failed persists and restarts, after each of which the log is replayed from the
    position its store restored, its state is at every moment the one a node that never
    failed computes from the first n entries of the log; a restart would load that
    state; the entries it asks for next are exactly those after the n-th; and it never
    goes back to an earlier position. *)
Theorem crash_replay_equivalent i log s s' :
  consecutive i log →
  node_run log (PersistentStateMachineStore_new PersistentStateMachineStore_disk_empty) s → node_run log s s' →
  ∃ n m rs, StateMachineStore_apply (take n log) StateMachineStore_new = Return (m, rs) ∧
    PersistentStateMachineStore_data s = StateMachineStore_data m ∧
    PersistentStateMachineStore_data (restart s) = StateMachineStore_data m ∧
    pending log s = drop n log ∧ ∃ n', (n ≤ n')%nat ∧ pending log s' = drop n' log.
Proof.
  intros Hc Hrun Hrun'. destruct (node_run_applied i _ _ _ 0 Hc Hrun) as (n & _ & Hat).
  { split; [done|]. by exists []. }
  destruct (node_run_applied i _ _ _ n Hc Hrun' Hat) as (n' & Hle & Hat'). pose proof Hat as [Hdur [rs Hlog]].
  unfold StateMachineStore_apply. exists n. change (StateMachineStore_data StateMachineStore_new) with sm_default.
  rewrite Hlog; simpl. eexists _, rs. split; [done|]. split_and!; [done|done|by eapply pending_applied|].
  exists n'. split; [done|by eapply pending_applied].
Qed.

(** A snapshot carries the whole state: what one node builds, another
    installs, after which it holds the builder's state (position included),
    serves the same snapshot, and loads that state after a restart. *)
Theorem snapshot_transfer a a' snap txn1 txn2 b b' :
  StateMachineStore_build_snapshot a = (a', Ok snap) →
  PersistentStateMachineStore_install_snapshot txn1 txn2 (stored_meta snap) (stored_data snap) b
    = (b', Ok tt) →
  PersistentStateMachineStore_data b' = StateMachineStore_data a ∧
  PersistentStateMachineStore_data (restart b') = StateMachineStore_data a ∧
  PersistentStateMachineStore_get_current_snapshot b' = Ok (Some snap) ∧
  StateMachineStore_get_current_snapshot a' = Some snap.
Proof.
  unfold StateMachineStore_build_snapshot. destruct (to_vec _) as [j|] eqn:Hj; [|done].
  intros [= <- <-]. simpl. unfold PersistentStateMachineStore_install_snapshot.
  rewrite (from_slice_to_vec _ _ Hj). simpl.
  destruct (PersistentStateMachineStore_persist_state txn1 _) as [b1 [|e]] eqn:Hp; [|done].
  apply persist_state_cases in Hp as [Hdata Hdur]. simpl in Hdata.
  assert (PersistentStateMachineStore_data b1 = StateMachineStore_data a) as Hb1
    by (rewrite Hdata; by destruct (StateMachineStore_data a)).
  unfold PersistentStateMachineStore_store_snapshot.
  match goal with |- context [write_txn txn2 ?f ?d] =>
    destruct (write_txn_cases txn2 f d) as [(d' & Hd & ->)|[e ->]] end; [|done].
  intros [= <-]. simpl.
  destruct (encode _) as [sb|] eqn:Hsb; simplify_eq/=. apply encode_decodes in Hsb.
  split_and!; [done| |by unfold PersistentStateMachineStore_get_current_snapshot, decode_opt, decode;
    simpl; rewrite Hsb|done].
  unfold durable in Hdur. rewrite <-Hb1, <-Hdur. done.
Qed.

End theorems.

(** ** Witnesses: a log of two entries, applied by a node that crashes once *)

Module RaftDemo.

Import Demo.

#[export] Instance unit_storage : RaftStorage := {| Vote := N; leader_display := λ _, "L" |}.

#[export] Instance byte_eq_dec : EqDecision byte := byte_eq_dec.

#[export] Instance unit_LogId_eq_dec : EqDecision LogId.
Proof. intros [[] i] [[] j]. destruct (decide (i = j)); [left|right]; congruence. Defined.

#[export] Instance unit_StoredMembership_eq_dec : EqDecision StoredMembership.
Proof. intros [l []] [l' []]. destruct (decide (l = l')); [left|right]; congruence. Defined.

#[export] Instance VolumeMetadata_eq_dec : EqDecision VolumeMetadata.
Proof. solve_decision. Defined.

#[export] Instance ExtentMapping_eq_dec : EqDecision ExtentMapping.
Proof. solve_decision. Defined.

#[export] Instance ClusterNode_eq_dec : EqDecision ClusterNode.
Proof. solve_decision. Defined.

#[export] Instance ClusterDisk_eq_dec : EqDecision ClusterDisk.
Proof. solve_decision. Defined.

#[export] Instance unit_SM_eq_dec : EqDecision MetadataStateMachineData.
Proof. intros [] []. solve_decision. Defined.

#[export] Instance ExtentMappingEntry_eq_dec : EqDecision ExtentMappingEntry.
Proof. solve_decision. Defined.

#[export] Instance LeaseRequest_eq_dec : EqDecision LeaseRequest.
Proof. solve_decision. Defined.

#[export] Instance MetadataRequest_eq_dec : EqDecision MetadataRequest.
Proof. solve_decision. Defined.

#[export] Instance unit_EntryPayload_eq_dec : EqDecision EntryPayload.
Proof.
  intros [|req|[]] [|req'|[]]; try (by left); try (by right).
  destruct (decide (req = req')); [left|right]; congruence.
Defined.

#[export] Instance unit_Entry_eq_dec : EqDecision Entry.
Proof. intros [] []. solve_decision. Defined.

#[export] Instance unit_SnapshotMeta_eq_dec : EqDecision SnapshotMeta.
Proof. intros [] []. solve_decision. Defined.

#[export] Instance unit_StoredSnapshot_eq_dec : EqDecision StoredSnapshot.
Proof. intros [] []. solve_decision. Defined.

Definition lid (i : N) : LogId := MkLogId (H:=raft_types_unit) tt i.
Definition entry_at (i : N) (p : EntryPayload) : Entry := MkEntryLog (lid i) p.
Definition log : list Entry := [entry_at 1 Blank; entry_at 2 (Normal AdvanceEpoch)].

Definition sm1 : MetadataStateMachineData :=
  match apply_entries log sm_default with Return (d, _) => d | Panic => sm_default end.

#[export] Instance serde_sm : Serde MetadataStateMachineData := serde_table [sm1].
#[export] Instance serde_log_id : Serde (option LogId) := serde_table [Some (lid 2)].
#[export] Instance serde_membership : Serde StoredMembership :=
  serde_table [MkStoredMembership None tt].
#[export] Instance serde_entry : Serde Entry := serde_table log.
#[export] Instance serde_vote : Serde Vote := serde_table [5%N].
#[export] Instance serde_plain_log_id : Serde LogId := serde_table [lid 1].

Definition snap : StoredSnapshot :=
  MkStoredSnapshot (MkSnapshotMeta (Some (lid 2)) (MkStoredMembership None tt) "L-2-1") [].

#[export] Instance serde_snapshot : Serde StoredSnapshot := serde_table [snap].

End RaftDemo.
Import Demo RaftDemo.

Lemma persistent_log_refines_memory_witness :
  PersistentLogStore_try_get_log_entries Unbounded Unbounded
    (run_both [(OpAppend log, Committed); (OpPurge (lid 1), Committed);
               (OpTruncate (lid 2), CommitFailed)] PersistentLogStore_new LogStore_new).1
  = Ok [entry_at 2 (Normal AdvanceEpoch)].
Proof.
  pose proof (persistent_log_refines_memory [(OpAppend log, Committed); (OpPurge (lid 1), Committed);
    (OpTruncate (lid 2), CommitFailed)] Unbounded Unbounded) as Hr.
  destruct (run_both _ _ _) as [p m] eqn:Hb. destruct Hr as [Hr _]. simpl. rewrite Hr.
  vm_compute in Hb. injection Hb as _ <-. vm_compute. reflexivity.
Defined.

Lemma log_replace_suffix_witness :
  LogStore_try_get_log_entries (Included 2) Unbounded
    (LogStore_append [entry_at 2 Blank] (LogStore_truncate (lid 2) (LogStore_append log LogStore_new)))
  = [entry_at 2 Blank].
Proof.
  apply (log_replace_suffix (LogStore_append log LogStore_new) (lid 2) [entry_at 2 Blank]).
  vm_compute. auto.
Defined.

(** A node whose first persist fails, and that has applied the log after a restart. *)
Lemma crash_replay_equivalent_witness :
  ∃ s n m rs, StateMachineStore_apply (take n log) StateMachineStore_new = Return (m, rs) ∧
    PersistentStateMachineStore_data s = StateMachineStore_data m ∧ pending log s = drop n log ∧ (2 ≤ n)%nat.
Proof.
  set (s0 := PersistentStateMachineStore_new PersistentStateMachineStore_disk_empty).
  destruct (PersistentStateMachineStore_apply Committed log s0) as [[s1 r]|] eqn:Hs1;
    [|vm_compute in Hs1; discriminate].
  exists s1.
  destruct (crash_replay_equivalent 1 log s1 s1) as (n & m & rs & Hm & Hd & _ & Hp & _).
  - vm_compute. auto.
  - vm_compute in Hs1. injection Hs1 as <- <-.
    eapply (run_crash _ _ BeginFailed 2); [vm_compute; reflexivity|].
    eapply (run_apply _ _ Committed 2); [vm_compute; reflexivity|apply run_done].
  - apply run_done.
  - exists n, m, rs. split_and!; [exact Hm|exact Hd|exact Hp|].
    assert (pending log s1 = []) as Hnone by (vm_compute in Hs1; injection Hs1 as <- <-; vm_compute; reflexivity).
    rewrite Hnone in Hp. do 2 (destruct n as [|n]; [discriminate Hp|]). lia.
Defined.

Lemma snapshot_transfer_witness :
  ∃ b', PersistentStateMachineStore_data b' = sm1.
Proof.
  destruct (PersistentStateMachineStore_install_snapshot Committed Committed (stored_meta snap) []
    (PersistentStateMachineStore_new PersistentStateMachineStore_disk_empty)) as [b' r] eqn:Hb.
  exists b'.
  eapply (snapshot_transfer (MkStateMachineStore sm1 0 None) _ snap Committed Committed
    (PersistentStateMachineStore_new PersistentStateMachineStore_disk_empty)).
  - vm_compute. reflexivity.
  - vm_compute in Hb |- *. injection Hb as <- <-. reflexivity.
Defined.
