(* ===== verification/MetadataService.v ===== *)
(** * The metadata service (crates/blockyard-raft/src/service.rs)

    The methods that submit a request through Raft and decode the response, and
    the reads of the locally applied state.  openraft is a parameter: [Raft] is
    its [client_write] and the state machine handle, over a world [W] that holds
    the whole cluster; [RaftLaws] states what its documentation promises, that a
    write that returns has been committed and applied to the local state machine,
    and that one that fails may or may not have been committed. *)

From S2P Require Import Prelude Common MetadataSM MetadataInv MetadataSpec MetadataLease.

#[local] Open Scope N_scope.

(** ** openraft *)

Class Raft `{!RaftTypes} (W : Type) := {
  client_write : MetadataRequest → W → W * result string MetadataResponse;
  sm_data : W → MetadataStateMachineData;
}.

Class RaftLaws `{!UuidDisplay} `{!RaftTypes} (W : Type) `{!Raft W} := {
  (** The requests committed so far, in order. *)
  raft_log : W → list MetadataRequest;
  client_write_ok : ∀ req w w' resp,
    client_write req w = (w', Ok resp) →
    ∃ others rs,
      raft_log w' = raft_log w ++ others ++ [req] ∧
      apply_requests (raft_log w') sm_default = Return (sm_data w', rs) ∧
      last rs = Some resp;
  client_write_err : ∀ req w w' e,
    client_write req w = (w', Err e) → raft_log w `prefix_of` raft_log w';
}.

(** ** The service *)

Section service.
Context `{!UuidDisplay} `{!RaftTypes} {W : Type} `{!Raft W}.
Implicit Types w : W.

Definition svc_commit (req : MetadataRequest) w : W * result Error MetadataResponse :=
  let '(w, r) := client_write req w in
  (w, match r with Ok resp => Ok resp | Err e => Err (ErrorRaft e) end).

Definition check_response (resp : MetadataResponse) : result Error unit :=
  match resp with
  | RespOk | RespEpoch _ | RespLease _ | RespNodeRegistered _ | RespDiskRegistered
  | RespLeasesCleanedUp _ => Ok tt
  | RespError msg => Err (ErrorRaft msg)
  end.

(** [match resp { Epoch(e) => .., Error(msg) => .., _ => unexpected }] *)
Definition expect_epoch (what : string) (resp : MetadataResponse) : result Error EpochId :=
  match resp with
  | RespEpoch e => Ok e
  | RespError msg => Err (ErrorRaft msg)
  | _ => Err (ErrorRaft ("unexpected response from " +:+ what))
  end.

Definition expect_lease (what : string) (resp : MetadataResponse) : result Error LeaseResponse :=
  match resp with
  | RespLease lr => Ok lr
  | RespError msg => Err (ErrorRaft msg)
  | _ => Err (ErrorRaft ("unexpected response from " +:+ what))
  end.

(** Submit, then decode. *)
Definition svc_call {A} (req : MetadataRequest) (decode : MetadataResponse → result Error A) w
    : W * result Error A :=
  let '(w, r) := svc_commit req w in (w, r ≫= decode).

Definition svc_add_node (node_id : NodeId) (addr : string) w :=
  svc_call (AddNode node_id addr) check_response w.

Definition svc_remove_node (node_id : NodeId) w := svc_call (RemoveNode node_id) check_response w.

Definition svc_create_volume (volume_id : VolumeId) (size_bytes : N) (protection : ProtectionPolicy)
    (extent_size : N) w :=
  svc_call (CreateVolume volume_id size_bytes protection extent_size) check_response w.

Definition svc_delete_volume (volume_id : VolumeId) w :=
  svc_call (DeleteVolume volume_id) check_response w.

Definition svc_advance_epoch w := svc_call AdvanceEpoch (expect_epoch "advance_epoch") w.

Definition svc_commit_extent_mapping (e : ExtentMappingEntry) w :=
  svc_call (CommitExtentMapping e) (expect_epoch "commit_extent_mapping") w.

Definition svc_commit_extent_mappings_batch (mappings : list ExtentMappingEntry) w :=
  svc_call (CommitExtentMappingBatch mappings) (expect_epoch "commit_extent_mappings_batch") w.

Definition svc_acquire_lease (volume_id : VolumeId) (session_id : SessionId) (now_ms ttl_ms : N) w :=
  svc_call (Lease (Acquire volume_id session_id now_ms ttl_ms)) (expect_lease "acquire_lease") w.

Definition svc_renew_lease (volume_id : VolumeId) (session_id : SessionId) (now_ms ttl_ms : N) w :=
  svc_call (Lease (Renew volume_id session_id now_ms ttl_ms)) (expect_lease "renew_lease") w.

Definition svc_release_lease (volume_id : VolumeId) (session_id : SessionId) w :=
  svc_call (Lease (Release volume_id session_id)) (expect_lease "release_lease") w.

Definition svc_register_node (node_id : NodeId) (addr : string) w :=
  svc_call (RegisterNode node_id addr) (λ resp,
    match resp with
    | RespNodeRegistered raft_id => Ok raft_id
    | RespError msg => Err (ErrorRaft msg)
    | _ => Err (ErrorRaft "unexpected response from register_node")
    end) w.

Definition svc_register_disk (disk_id : DiskId) (node_id : NodeId) (capacity_bytes : N) w :=
  svc_call (RegisterDisk disk_id node_id capacity_bytes) check_response w.

Definition svc_update_disk_usage (disk_id : DiskId) (used_bytes : N) w :=
  svc_call (UpdateDiskUsage disk_id used_bytes) check_response w.

Definition svc_deregister_disk (disk_id : DiskId) w :=
  svc_call (DeregisterDisk disk_id) check_response w.

Definition svc_cleanup_expired_leases (now_ms : N) w :=
  svc_call (CleanupExpiredLeases now_ms) (λ resp,
    match resp with
    | RespLeasesCleanedUp count => Ok count
    | RespError msg => Err (ErrorRaft msg)
    | _ => Err (ErrorRaft "unexpected response from cleanup_expired_leases")
    end) w.

(** Local reads. *)
Definition svc_get_lease (volume_id : VolumeId) w := get_lease volume_id (sm_data w).

Definition svc_validate_lease (volume_id : VolumeId) (session_id : SessionId) (version now_ms : N) w
    : result Error unit :=
  match validate_lease volume_id session_id version now_ms (sm_data w) with
  | Ok _ => Ok tt
  | Err e => Err (ErrorAuth e)
  end.

Definition svc_lookup_by_operation_id (op_id : OperationId) w :=
  lookup_by_operation_id op_id (sm_data w).

Definition svc_lookup_by_extent_version (version : N) w :=
  lookup_by_extent_version version (sm_data w).

Definition svc_get_volume (volume_id : VolumeId) w := get_volume volume_id (sm_data w).

Definition svc_list_volumes w := list_volumes (sm_data w).

Definition svc_get_node (node_id : NodeId) w := get_node node_id (sm_data w).

Definition svc_list_nodes w := list_nodes (sm_data w).

Definition svc_current_epoch w : EpochId := sm_epoch (sm_data w).

Definition svc_get_disk (disk_id : DiskId) w := get_cluster_disk disk_id (sm_data w).

Definition svc_list_active_leases (now_ms : N) w := list_active_leases now_ms (sm_data w).

End service.

(** ** A cluster of one node that never fails: one instance of the parameter *)

Section single_node.
Context `{!UuidDisplay} `{!RaftTypes}.

Definition single_state (log : list MetadataRequest) : MetadataStateMachineData :=
  match apply_requests log sm_default with Return (s, _) => s | Panic => sm_default end.

Lemma single_state_reachable log : reachable (single_state log).
Proof.
  unfold single_state.
  destruct (apply_requests_total log sm_default sm_inv_default) as (s & rs & Hs). rewrite Hs.
  eapply reachable_requests; [constructor|done].
Qed.

Definition single_raft : Raft (list MetadataRequest) :=
  {| client_write := λ req log,
       match apply_requests (log ++ [req]) sm_default with
       | Return (_, rs) => (log ++ [req], from_option Ok (Err "no response") (last rs))
       | Panic => (log, Err "panic")
       end;
     sm_data := single_state |}.

Lemma single_write_ok req log log' resp :
  client_write (Raft := single_raft) req log = (log', Ok resp) →
  ∃ others rs, log' = log ++ others ++ [req] ∧
    apply_requests log' sm_default = Return (single_state log', rs) ∧ last rs = Some resp.
Proof.
  simpl. unfold single_state.
  destruct (apply_requests_total (log ++ [req]) sm_default sm_inv_default) as (s & rs & Hs).
  rewrite Hs. intros [= <- Hr]. rewrite Hs. exists [], rs.
  destruct (last rs); naive_solver.
Qed.

Lemma single_write_err req log log' e :
  client_write (Raft := single_raft) req log = (log', Err e) → log `prefix_of` log'.
Proof.
  simpl. destruct (apply_requests _ _) as [[s rs]|]; intros [= <- _]; [by exists [req]|done].
Qed.

Definition single_raft_laws : @RaftLaws _ _ _ single_raft :=
  {| raft_log := λ log : list MetadataRequest, log;
     client_write_ok := single_write_ok;
     client_write_err := single_write_err |}.

End single_node.

(** ** Theorems *)

Section theorems.
Context `{!UuidDisplay} `{!RaftTypes} {W : Type} `{!Raft W} `{!RaftLaws W}.
Implicit Types w : W.

(** A call that succeeds has taken effect: the request is the last of the log,
    the local state is the one after it, and the response is the state machine's. *)
Lemma svc_call_ok {A} req (decode : MetadataResponse → result Error A) w w' a :
  svc_call req decode w = (w', Ok a) →
  ∃ pre s rs resp, raft_log w `prefix_of` pre ∧ raft_log w' = pre ++ [req] ∧
    apply_requests pre sm_default = Return (s, rs) ∧
    apply_request req s = Return (sm_data w', resp) ∧ decode resp = Ok a.
Proof.
  unfold svc_call, svc_commit. destruct (client_write req w) as [w1 r] eqn:Hw.
  intros [= <- Ha]. destruct r as [resp|]; [|done]. simpl in Ha.
  apply client_write_ok in Hw as (others & rs & Hlog & Happ & Hlast).
  rewrite app_assoc in Hlog. exists (raft_log w ++ others).
  destruct (apply_requests_total (raft_log w ++ others) sm_default sm_inv_default) as (s & rs0 & Hs).
  rewrite Hlog in Happ.
  destruct (apply_requests_snoc _ _ _ _ _ Happ) as (s0 & rs1 & resp' & Hs0 & Hreq & ->).
  rewrite Hs in Hs0. simplify_eq. rewrite last_snoc in Hlast. simplify_eq.
  exists s0, rs1, resp. split_and!; [by apply prefix_app_r|done..].
Qed.

(** A commit the service acknowledges is committed: it was allowed by the
    specification in the state it was applied to (volume known, epoch current,
    compare-and-swap passed), the epoch returned is the current one, and local
    queries by operation id and by extent version return exactly that mapping. *)
Theorem acknowledged_commit_is_committed e w w' ep :
  svc_commit_extent_mapping e w = (w', Ok ep) →
  ep = ent_epoch e ∧ ep = svc_current_epoch w' ∧
  (∀ op, ent_operation_id e = Some op →
     svc_lookup_by_operation_id op w' = Some (mapping_of_entry e)) ∧
  svc_lookup_by_extent_version (ent_extent_version e) w' = Some (mapping_of_entry e) ∧
  ∃ pre, raft_log w `prefix_of` pre ∧ raft_log w' = pre ++ [CommitExtentMapping e] ∧
    spec_commit_allowed e (log_run pre spec_init).1.
Proof.
  intros (pre & s & rs & resp & Hpre & Hlog & Hs & Hreq & Hdec)%svc_call_ok.
  assert (is_error resp = false) as Hok by by destruct resp.
  assert (sm_inv s) as Hinv by (eapply sm_inv_apply_requests, Hs; apply sm_inv_default).
  destruct (refines_requests pre sm_default spec_init sm_inv_default refines_default)
    as (s1 & rs1 & Hs1 & _ & Href & _). rewrite Hs in Hs1. simplify_eq.
  destruct (refines_commit _ _ _ _ _ Hinv Href Hreq) as [_ Hallow].
  destruct (commit_queryable _ _ _ _ Hinv Hreq Hok) as (-> & _ & Hop & Hver).
  simpl in Hdec. injection Hdec as <-. unfold spec_commit in Hallow.
  destruct (decide (spec_commit_allowed e (log_run pre spec_init).1)) as [Ha|];
    [|simpl in Hallow; congruence].
  destruct (apply_commit_frame _ _ _ _ Hreq) as (em & oi & vi & Hsm).
  unfold svc_current_epoch, svc_lookup_by_operation_id, svc_lookup_by_extent_version.
  split_and!; [|by rewrite Hsm|done|done|by exists pre].
  destruct Ha as (_ & He & _). rewrite <-(ref_epoch _ _ Href) in He.
  destruct (ent_epoch e), (sm_epoch s1). simpl in *. congruence.
Qed.

End theorems.

Lemma acknowledged_commit_is_committed_witness :
  svc_lookup_by_extent_version (Raft0 := @single_raft uuid_decimal raft_types_unit) 1 Demo.setup
  = Some (mapping_of_entry (Demo.entry 0 1 (Some (Demo.op 100)) (Some 0))).
Proof.
  refine (proj1 (proj2 (proj2 (proj2 (@acknowledged_commit_is_committed
    uuid_decimal raft_types_unit _ single_raft single_raft_laws
    (Demo.entry 0 1 (Some (Demo.op 100)) (Some 0)) (take 4 Demo.setup) (take 5 Demo.setup)
    (EpochId_new 1) _))))).
  vm_compute. reflexivity.
Defined.
