(* ===== verification/Watermark.v ===== *)
(** * The session write watermark (crates/blockyard-ublk/src/watermark.rs)

    One atomic u64 shared by all the tasks of a session.  [advance_to] is a
    compare-and-exchange loop, and the exchange is the weak one, which may fail
    without reason; it is modelled as a step relation in which any number of
    calls interleave at the granularity of the atomic accesses. *)

From S2P Require Import Prelude Common.

#[local] Open Scope N_scope.

Record WriteWatermark := MkWatermark { watermark_value : N }.

Definition WriteWatermark_new : WriteWatermark := MkWatermark 0.

Definition with_initial (epoch : EpochId) : WriteWatermark := MkWatermark (EpochId_as_u64 epoch).

Definition current_version (w : WriteWatermark) : N := watermark_value w.

Definition watermark_current (w : WriteWatermark) : EpochId := EpochId_new (watermark_value w).

(** [advance_to] as one atomic step: what a caller that runs alone observes. *)
Definition advance_to (version : N) (w : WriteWatermark) : WriteWatermark * bool :=
  if decide (version ≤ watermark_value w) then (w, false) else (MkWatermark version, true).

Definition advance (epoch : EpochId) (w : WriteWatermark) : WriteWatermark * bool :=
  advance_to (EpochId_as_u64 epoch) w.

Definition watermark_is_fresh (epoch : EpochId) (w : WriteWatermark) : bool :=
  bool_decide (watermark_value w ≤ EpochId_as_u64 epoch).

(** ** Interleaved calls *)

(** Where a call of [advance_to(version)] is: about to load, about to exchange
    the value it loaded, or returned. *)
Inductive Call :=
  | AtLoad (version : N)
  | AtExchange (version current : N)
  | Returned (version : N) (advanced : bool).

Definition call_version (c : Call) : N :=
  match c with AtLoad v | AtExchange v _ | Returned v _ => v end.

(** The shared value and the calls in flight. *)
Abbreviation config := (N * list Call)%type (only parsing).

(** One atomic access of one call. *)
Inductive call_step : N → Call → N → Call → Prop :=
  | step_load_done x v : v ≤ x → call_step x (AtLoad v) x (Returned v false)
  | step_load_retry x v : x < v → call_step x (AtLoad v) x (AtExchange v x)
  | step_exchange x v : call_step x (AtExchange v x) v (Returned v true)
  | step_exchange_fails x v cur : call_step x (AtExchange v cur) x (AtLoad v).

Inductive step : config → config → Prop :=
  | step_call x cs1 c cs2 x' c' :
      call_step x c x' c' → step (x, cs1 ++ c :: cs2) (x', cs1 ++ c' :: cs2).

(** Every call that loaded a value found it below its version, and every call
    that returned left the value at least at its version. *)
Definition call_ok (x : N) (c : Call) : Prop :=
  match c with
  | AtLoad _ => True
  | AtExchange v cur => cur < v ∧ cur ≤ x
  | Returned v _ => v ≤ x
  end.

Lemma call_step_mono x c x' c' : call_ok x c → call_step x c x' c' → x ≤ x'.
Proof. intros Hok Hstep. destruct Hstep; simpl in *; lia. Qed.

Lemma call_ok_mono x x' c : x ≤ x' → call_ok x c → call_ok x' c.
Proof. intros Hle. destruct c; simpl; lia. Qed.

Lemma call_step_ok x c x' c' : call_ok x c → call_step x c x' c' → call_ok x' c'.
Proof. intros Hok Hstep. destruct Hstep; simpl in *; lia. Qed.

Lemma call_step_version x c x' c' :
  call_step x c x' c' → call_version c' = call_version c ∧ (x' = x ∨ x' = call_version c).
Proof. destruct 1; simpl; auto. Qed.

(** The greatest of [x] and the versions of the calls. *)
Definition max_version (x : N) (cs : list Call) : N := foldr N.max x (call_version <$> cs).

Lemma max_version_app x cs1 c cs2 :
  max_version x (cs1 ++ c :: cs2) = N.max (call_version c) (max_version x (cs1 ++ cs2)).
Proof.
  unfold max_version. induction cs1 as [|c1 cs1 IH]; csimpl; [done|]. rewrite IH. lia.
Qed.

Lemma max_version_ge x cs : x ≤ max_version x cs ∧ ∀ c, c ∈ cs → call_version c ≤ max_version x cs.
Proof.
  unfold max_version. induction cs as [|c cs [IH1 IH2]]; csimpl; [split; [lia|set_solver]|].
  split; [lia|]. intros c' [->|Hc]%elem_of_cons; [lia|]. specialize (IH2 _ Hc). lia.
Qed.

Lemma max_version_bound x cs y :
  x ≤ y → (∀ c, c ∈ cs → call_version c ≤ y) → max_version x cs ≤ y.
Proof.
  intros Hx. unfold max_version. induction cs as [|c cs IH]; csimpl; [done|]. intros Hcs.
  pose proof (Hcs c ltac:(set_solver)). specialize (IH ltac:(set_solver)). lia.
Qed.

(** What every step keeps, [x0] being the initial value. *)
Definition watermark_inv (x0 m : N) (cfg : config) : Prop :=
  let '(x, cs) := cfg in
  x0 ≤ x ∧ x ≤ m ∧ max_version x0 cs = m ∧ Forall (call_ok x) cs.

Lemma watermark_inv_step x0 m cfg cfg' :
  watermark_inv x0 m cfg → step cfg cfg' → watermark_inv x0 m cfg' ∧ cfg.1 ≤ cfg'.1.
Proof.
  intros Hinv Hstep. destruct Hstep as [x cs1 c cs2 x' c' Hc].
  destruct Hinv as (H0 & Hm & Hmax & Hall). apply Forall_app in Hall as [Hall1 Hall2].
  apply Forall_cons in Hall2 as [Hok Hall2].
  pose proof (call_step_mono _ _ _ _ Hok Hc) as Hle.
  pose proof (call_step_ok _ _ _ _ Hok Hc) as Hok'.
  destruct (call_step_version _ _ _ _ Hc) as [Hv Hx'].
  split; [|done]. rewrite max_version_app in Hmax. simpl. split_and!.
  - lia.
  - destruct Hx' as [-> | ->]; lia.
  - by rewrite max_version_app, Hv.
  - apply Forall_app. split; [by eapply Forall_impl; [|intros ?; apply call_ok_mono]|].
    apply Forall_cons. split; [done|]. by eapply Forall_impl; [|intros ?; apply call_ok_mono].
Qed.

Lemma watermark_inv_steps x0 m cfg cfg' :
  watermark_inv x0 m cfg → rtc step cfg cfg' → watermark_inv x0 m cfg' ∧ cfg.1 ≤ cfg'.1.
Proof.
  intros Hinv Hsteps. induction Hsteps as [|cfg1 cfg2 cfg3 Hstep _ IH]; [by split|].
  destruct (watermark_inv_step _ _ _ _ Hinv Hstep) as [Hinv2 ?].
  destruct (IH Hinv2) as [? ?]. split; [done|lia].
Qed.

(** Calls about to start. *)
Definition start (versions : list N) : list Call := AtLoad <$> versions.

Lemma watermark_inv_start x versions : watermark_inv x (max_version x (start versions)) (x, start versions).
Proof.
  simpl. split_and!; [lia|apply max_version_ge|done|].
  unfold start. apply Forall_fmap, Forall_true. done.
Qed.

(** The sequential reading: the calls performed one after the other. *)
Definition advance_all (versions : list N) (x : N) : N :=
  foldl (λ x v, watermark_value (advance_to v (MkWatermark x)).1) x versions.

Lemma advance_all_max versions x : advance_all versions x = max_version x (start versions).
Proof.
  unfold advance_all, max_version, start. rewrite <-list_fmap_compose. revert x.
  induction versions as [|v versions IH]; intros x; csimpl; [done|].
  rewrite IH. assert (watermark_value (advance_to v (MkWatermark x)).1 = N.max v x) as ->.
  { unfold advance_to. simpl. case_decide; simpl; lia. }
  clear IH. induction versions as [|v' versions IH']; csimpl; [lia|]. rewrite IH'. lia.
Qed.

(** Under every interleaving of any number of concurrent [advance_to]
    calls, spurious failures of the exchange included, the watermark never
    decreases, every call that has returned left it at least at its version, and
    when all have returned its value is the one the same calls give when run one
    after the other. *)
Theorem watermark_linearises x versions x' cs :
  rtc step (x, start versions) (x', cs) →
  x ≤ x' ∧
  (∀ v b, Returned v b ∈ cs → v ≤ x') ∧
  (Forall (λ c, ∃ v b, c = Returned v b) cs → x' = advance_all versions x).
Proof.
  intros Hsteps.
  destruct (watermark_inv_steps x (max_version x (start versions)) _ _
    (watermark_inv_start x versions) Hsteps) as [(H0 & Hm & Hmax & Hall) Hle].
  rewrite Forall_forall in Hall. split_and!; [done|..].
  - intros v b Hin. apply (Hall _ Hin).
  - intros Hret. rewrite advance_all_max. apply N.le_antisymm; [done|]. rewrite <-Hmax.
    apply max_version_bound; [done|]. intros c Hc. rewrite Forall_forall in Hret.
    destruct (Hret _ Hc) as (v & b & ->). apply (Hall _ Hc).
Qed.

(** A call that loads 3, loses the exchange to another call, and retries. *)
Lemma watermark_linearises_witness :
  advance_all [5; 4] 3 = 5 ∧ 5 = advance_all [5; 4] 3.
Proof.
  split; [reflexivity|].
  eapply (watermark_linearises 3 [5; 4] 5 [Returned 5 true; Returned 4 false]).
  - eapply rtc_l; [apply (step_call 3 [] (AtLoad 5) [AtLoad 4]), step_load_retry; reflexivity|].
    eapply rtc_l; [apply (step_call 3 [AtExchange 5 3] (AtLoad 4) []), step_load_retry; reflexivity|].
    eapply rtc_l; [apply (step_call 3 [AtExchange 5 3] (AtExchange 4 3) []), step_exchange_fails|].
    eapply rtc_l; [apply (step_call 3 [] (AtExchange 5 3) [AtLoad 4]), step_exchange|].
    eapply rtc_l; [apply (step_call 5 [Returned 5 true] (AtLoad 4) []), step_load_done; discriminate|].
    apply rtc_refl.
  - repeat constructor; eauto.
Defined.
