(* ===== verification/MetadataCache.v ===== *)
(** * The client's metadata cache (crates/blockyard-ublk/src/metadata_cache.rs)
    and the freshness check against the write watermark (freshness.rs).

    The cache is one lock-protected structure; every method is a critical
    section, so a function on the inner state. *)

From Stdlib Require Import Strings.Byte.
From S2P Require Import Prelude Common Watermark.

#[local] Open Scope N_scope.

(** ** Data *)

Record CachedExtentMapping := MkCached {
  cem_extent_id : ExtentId;
  cem_extent_version : N;
  cem_replica_locations : list NodeId;
  cem_checksums : list (list byte);
  cem_size_bytes : N;
  cem_extent_offset : N;
}.

Record CachedVolumeInfo := MkCachedVolume {
  cvi_volume_id : VolumeId;
  cvi_size_bytes : N;
  cvi_block_size : N;
  cvi_protection : ProtectionPolicy;
  cvi_extent_mappings : gmap N CachedExtentMapping;
}.

(** [std::net::SocketAddr]. *)
Record SocketAddr := MkSocketAddr { sock_ip : string; sock_port : N }.

#[global] Instance SocketAddr_eq_dec : EqDecision SocketAddr.
Proof. solve_decision. Defined.

#[global] Instance SocketAddr_countable : Countable SocketAddr.
Proof. by apply (inj_countable' (λ a, (sock_ip a, sock_port a)) (λ '(i, p), MkSocketAddr i p)); intros []. Defined.

#[global] Instance SocketAddr_display : Display SocketAddr := λ a, sock_ip a +:+ ":" +:+ to_string (sock_port a).

Record NodeAddress := MkNodeAddress { na_node_id : NodeId; na_addr : SocketAddr }.

Record MetadataCache := MkCache {
  cache_epoch : EpochId;
  cache_cluster_map : gmap string NodeAddress;
  cache_volumes : gmap string CachedVolumeInfo;
}.

Definition extent_blocks (v : CachedVolumeInfo) : N := 1.

Definition MetadataCache_new : MetadataCache := MkCache (EpochId_new 0) ∅ ∅.

(** ** Operations *)

Section operations.
Context `{!UuidDisplay}.
Implicit Types c : MetadataCache.

Definition cache_current_epoch c : EpochId := cache_epoch c.

Definition cache_set_epoch (epoch : EpochId) c : MetadataCache :=
  MkCache epoch (cache_cluster_map c) (cache_volumes c).

Definition cache_get_node (node_id : NodeId) c : option NodeAddress :=
  cache_cluster_map c !! to_string node_id.

Definition cache_set_node (node_id : NodeId) (addr : SocketAddr) c : MetadataCache :=
  MkCache (cache_epoch c) (<[to_string node_id := MkNodeAddress node_id addr]> (cache_cluster_map c))
    (cache_volumes c).

Definition cache_remove_node (node_id : NodeId) c : MetadataCache :=
  MkCache (cache_epoch c) (delete (to_string node_id) (cache_cluster_map c)) (cache_volumes c).

Definition cache_list_nodes c : list NodeAddress := btree_values (cache_cluster_map c).

Definition cache_get_volume (volume_id : VolumeId) c : option CachedVolumeInfo :=
  cache_volumes c !! to_string volume_id.

Definition cache_set_volume (info : CachedVolumeInfo) c : MetadataCache :=
  MkCache (cache_epoch c) (cache_cluster_map c)
    (<[to_string (cvi_volume_id info) := info]> (cache_volumes c)).

Definition cache_remove_volume (volume_id : VolumeId) c : MetadataCache :=
  MkCache (cache_epoch c) (cache_cluster_map c) (delete (to_string volume_id) (cache_volumes c)).

Definition get_extent_mapping (volume_id : VolumeId) (block_start : N) c : option CachedExtentMapping :=
  vol ← cache_volumes c !! to_string volume_id; cvi_extent_mappings vol !! block_start.

(** [if let Some(vol) = inner.volumes.get_mut(..)]: update a volume in place. *)
Definition update_mappings (volume_id : VolumeId)
    (f : gmap N CachedExtentMapping → gmap N CachedExtentMapping) c : MetadataCache :=
  match cache_volumes c !! to_string volume_id with
  | Some vol =>
      let vol := MkCachedVolume (cvi_volume_id vol) (cvi_size_bytes vol) (cvi_block_size vol)
                   (cvi_protection vol) (f (cvi_extent_mappings vol)) in
      MkCache (cache_epoch c) (cache_cluster_map c)
        (<[to_string volume_id := vol]> (cache_volumes c))
  | None => c
  end.

Definition set_extent_mapping (volume_id : VolumeId) (block_start : N) (mapping : CachedExtentMapping) c
    : MetadataCache :=
  update_mappings volume_id (λ m, <[block_start := mapping]> m) c.

(** The entry the range loop writes for one block. *)
Definition block_mapping (block_range : Range) (block_size : N) (base : CachedExtentMapping) (b : N)
    : CachedExtentMapping :=
  MkCached (cem_extent_id base) (cem_extent_version base) (cem_replica_locations base)
    (cem_checksums base) block_size (u64_mul (b - range_start block_range) block_size).

Definition set_extent_mapping_range (volume_id : VolumeId) (block_range : Range) (block_size : N)
    (base_mapping : CachedExtentMapping) c : MetadataCache :=
  update_mappings volume_id (λ m,
    foldl (λ m b, <[b := block_mapping block_range block_size base_mapping b]> m) m
      (range_values block_range)) c.

Definition find_extent_for_range (volume_id : VolumeId) (block_range : Range) c
    : option (N * CachedExtentMapping) :=
  vol ← cache_volumes c !! to_string volume_id;
  '(block_start, mapping) ← btree_range_last (range_start block_range) (cvi_extent_mappings vol);
  if decide (0 < cem_size_bytes mapping) then
    let block_size := N.max (cvi_block_size vol) 1 in
    let extent_blocks := div_ceil (cem_size_bytes mapping) block_size in
    let extent_end_block := u64_add block_start extent_blocks in
    if decide (extent_end_block ≤ range_start block_range) then None
    else Some (block_start, mapping)
  else Some (block_start, mapping).

(** The volume a refresh stores: a snapshot without mappings keeps the cached ones. *)
Definition refresh_volume (old : gmap string CachedVolumeInfo) (v : CachedVolumeInfo)
    : CachedVolumeInfo :=
  match old !! to_string (cvi_volume_id v) with
  | Some existing =>
      if decide (size (cvi_extent_mappings v) = 0%nat ∧ size (cvi_extent_mappings existing) ≠ 0%nat) then
        MkCachedVolume (cvi_volume_id v) (cvi_size_bytes v) (cvi_block_size v) (cvi_protection v)
          (cvi_extent_mappings existing)
      else v
  | None => v
  end.

Definition refresh (epoch : EpochId) (nodes : list NodeAddress) (volumes : list CachedVolumeInfo) c
    : MetadataCache :=
  let cluster_map := foldl (λ m n, <[to_string (na_node_id n) := n]> m) ∅ nodes in
  let vol_map := foldl (λ m v, <[to_string (cvi_volume_id v) := refresh_volume (cache_volumes c) v]> m)
                   ∅ volumes in
  MkCache epoch cluster_map vol_map.

(** ** Freshness (freshness.rs) *)

Inductive FreshnessStatus :=
  | Fresh
  | Stale (cached_epoch required_epoch : EpochId).

Definition check_against (required : EpochId) c : FreshnessStatus :=
  if decide (EpochId_as_u64 required ≤ EpochId_as_u64 (cache_current_epoch c)) then Fresh
  else Stale (cache_current_epoch c) required.

Definition freshness_check (w : WriteWatermark) c : FreshnessStatus :=
  check_against (watermark_current w) c.

Definition freshness_is_fresh (w : WriteWatermark) c : bool :=
  match freshness_check w c with Fresh => true | Stale _ _ => false end.

End operations.

(** ** Lemmas *)

Section lemmas.
Context `{!UuidDisplay}.
Implicit Types c : MetadataCache.

Lemma cache_volumes_update v f c v' :
  cache_volumes (update_mappings v f c) !! to_string v' =
    if decide (v' = v) then
      (λ vol, MkCachedVolume (cvi_volume_id vol) (cvi_size_bytes vol) (cvi_block_size vol)
         (cvi_protection vol) (f (cvi_extent_mappings vol))) <$> cache_volumes c !! to_string v
    else cache_volumes c !! to_string v'.
Proof.
  unfold update_mappings. destruct (cache_volumes c !! to_string v) as [vol|] eqn:Hv; simpl.
  - case_decide as Hd; [subst; apply lookup_insert_eq|].
    apply lookup_insert_ne. by intros ?%(inj to_string).
  - case_decide as Hd; [by subst|done].
Qed.

Lemma get_extent_mapping_update v f c v' b :
  get_extent_mapping v' b (update_mappings v f c) =
    if decide (v' = v) then vol ← cache_volumes c !! to_string v; f (cvi_extent_mappings vol) !! b
    else get_extent_mapping v' b c.
Proof.
  unfold get_extent_mapping. rewrite cache_volumes_update. case_decide; [|done].
  by destruct (cache_volumes c !! to_string v).
Qed.

Lemma get_extent_mapping_range v r bs base c v' b :
  is_Some (cache_get_volume v c) →
  get_extent_mapping v' b (set_extent_mapping_range v r bs base c) =
    if decide (v' = v ∧ in_range b r) then Some (block_mapping r bs base b)
    else get_extent_mapping v' b c.
Proof.
  intros [vol Hvol]. unfold cache_get_volume in Hvol.
  unfold set_extent_mapping_range. rewrite get_extent_mapping_update, Hvol. simpl.
  destruct (decide (v' = v)) as [->|]; [|by rewrite decide_False by naive_solver].
  rewrite lookup_foldl_insert. unfold get_extent_mapping. rewrite Hvol. simpl.
  apply decide_ext. rewrite elem_of_range_values. naive_solver.
Qed.

(** The lookup by range, as a characterisation: the closest mapping at or below
    the first block, provided it reaches that block. *)
Lemma find_extent_for_range_Some v r c k m :
  find_extent_for_range v r c = Some (k, m) ↔
  ∃ vol, cache_get_volume v c = Some vol ∧ get_extent_mapping v k c = Some m ∧
    k ≤ range_start r ∧
    (∀ k', is_Some (get_extent_mapping v k' c) → k' ≤ range_start r → k' ≤ k) ∧
    (cem_size_bytes m = 0 ∨
     range_start r < u64_add k (div_ceil (cem_size_bytes m) (N.max (cvi_block_size vol) 1))).
Proof.
  unfold find_extent_for_range, cache_get_volume, get_extent_mapping.
  destruct (cache_volumes c !! to_string v) as [vol|]; simpl; [|naive_solver].
  destruct (btree_range_last (range_start r) (cvi_extent_mappings vol)) as [[k' m']|] eqn:Hl; simpl.
  - apply btree_range_last_Some in Hl as Hl'. destruct Hl' as (Hk & Hle & Hmax). simpl in *.
    split.
    + intros Hf. assert (k' = k ∧ m' = m) as [-> ->].
      { repeat case_decide; by simplify_eq. }
      exists vol. split_and!; try done.
      repeat case_decide; simplify_eq; [right; lia|left; lia].
    + intros (? & [= <-] & Hm & Hle' & Hmax' & Hcov).
      assert (k' = k) as -> by (apply N.le_antisymm; [apply Hmax'|apply Hmax]; eauto).
      rewrite Hk in Hm. simplify_eq. destruct Hcov as [->|Hcov]; [done|].
      repeat case_decide; try done. lia.
  - split; [done|]. intros (? & [= <-] & Hm & Hle & _).
    rewrite btree_range_last_None in Hl. destruct (Hl k); eauto.
Qed.

End lemmas.

(** ** Theorems *)

Section theorems.
Context `{!UuidDisplay}.
Implicit Types c : MetadataCache.

(** Caching an extent block by block: after [set_extent_mapping_range], a
    lookup at any block of the range finds that block's entry, with the offset of
    the block in the extent and not more than one block long, and a lookup at a
    block outside the range that had its own one-block entry still finds it, so a
    partial overwrite shadows nothing. *)
Theorem set_range_no_shadowing v r bs base c vol b e :
  cache_get_volume v c = Some vol →
  cvi_block_size vol = bs → 0 < bs →
  b + 1 < u64_modulus →
  (range_end r - range_start r) * bs < u64_modulus →
  let c' := set_extent_mapping_range v r bs base c in
  (in_range b r →
     find_extent_for_range v (MkRange b e) c' = Some (b, block_mapping r bs base b) ∧
     cem_extent_offset (block_mapping r bs base b) = (b - range_start r) * bs) ∧
  (∀ m, ¬ in_range b r → get_extent_mapping v b c = Some m → cem_size_bytes m = bs →
     find_extent_for_range v (MkRange b e) c' = Some (b, m)).
Proof.
  intros Hvol Hbs Hpos Hb Hr c'.
  assert (cache_get_volume v c' = Some (MkCachedVolume (cvi_volume_id vol) (cvi_size_bytes vol)
    (cvi_block_size vol) (cvi_protection vol)
    (foldl (λ m b, <[b := block_mapping r bs base b]> m) (cvi_extent_mappings vol) (range_values r))))
    as Hvol'.
  { unfold cache_get_volume in *. unfold c', set_extent_mapping_range.
    rewrite cache_volumes_update, decide_True, Hvol by done. done. }
  assert (∀ m, get_extent_mapping v b c' = Some m → cem_size_bytes m = bs →
    find_extent_for_range v (MkRange b e) c' = Some (b, m)) as Hfind.
  { intros m Hm Hsz. apply find_extent_for_range_Some. eexists. split_and!; [done..|]. simpl.
    right. rewrite Hsz, Hbs. rewrite N.max_l by lia.
    assert (div_ceil bs bs = 1) as ->.
    { unfold div_ceil. rewrite N.Div0.mod_same, decide_True by done. apply N.div_same. lia. }
    rewrite u64_add_small by done. lia. }
  split.
  - intros Hin. split.
    + apply Hfind; [|done]. unfold c'. rewrite get_extent_mapping_range by eauto.
      by rewrite decide_True.
    + simpl. apply u64_mul_small. destruct Hin. nia.
  - intros m Hin Hm Hsz. apply Hfind; [|done]. unfold c'.
    rewrite get_extent_mapping_range by eauto. rewrite decide_False by naive_solver. done.
Qed.

End theorems.

Lemma set_range_no_shadowing_witness :
  let c := @cache_set_volume uuid_decimal
    (MkCachedVolume (VolumeId_new 7) 65536 4096 (Replicated 2) ∅) MetadataCache_new in
  let base := MkCached (ExtentId_new 9) 1 [NodeId_new 1] [] 8192 0 in
  @find_extent_for_range uuid_decimal (VolumeId_new 7) (MkRange 3 4)
    (@set_extent_mapping_range uuid_decimal (VolumeId_new 7) (MkRange 2 4) 4096 base c)
  = Some (3, MkCached (ExtentId_new 9) 1 [NodeId_new 1] [] 4096 4096).
Proof.
  intros c base.
  refine (proj1 (proj1 (@set_range_no_shadowing uuid_decimal (VolumeId_new 7) (MkRange 2 4) 4096 base c
    (MkCachedVolume (VolumeId_new 7) 65536 4096 (Replicated 2) ∅) 3 4 _ _ _ _ _) _));
    vm_compute; first [reflexivity | split; [discriminate|reflexivity]].
Defined.
