(* ===== verification/RaftTransport.v ===== *)
(** * The transport of Raft messages (crates/blockyard-raft)

    The registry of peer addresses (tcp_transport.rs). *)

From S2P Require Import Prelude Text Common MetadataCache.

#[local] Open Scope N_scope.

(** ** Peers *)

(** [PeerRegistry]: raft id to address. *)
Definition PeerRegistry : Type := gmap N SocketAddr.

Definition peer_register (node_id : N) (addr : SocketAddr) (r : PeerRegistry) : PeerRegistry :=
  <[node_id := addr]> r.

Definition peer_unregister (node_id : N) (r : PeerRegistry) : PeerRegistry := delete node_id r.

Definition peer_get (node_id : N) (r : PeerRegistry) : option SocketAddr := r !! node_id.

Definition peer_list `{!HashIter N} (r : PeerRegistry) : list (N * SocketAddr) :=
  omap (λ k, pair k <$> r !! k) (hash_keys r).
