(* ===== verification/Http.v ===== *)
(** * HTTP exchanges

    What the management API and its clients use of HTTP: requests and responses
    with JSON bodies, and routing by method and path.  The libraries are
    parameters: [HttpText] is what reqwest and axum print and decode, with the
    laws the code relies on, and [HttpTransport] is sending a request from a world
    [W].  Socket addresses are printed and parsed here too ([AddrText]). *)

From Stdlib Require Import Strings.Ascii.
From S2P Require Import Prelude Text Common Json MetadataCache.

#[local] Open Scope N_scope.

(** ** Requests and responses *)

Inductive Method := GET | POST | DELETE.

#[global] Instance Method_eq_dec : EqDecision Method.
Proof. solve_decision. Defined.

(** A body, with the header [Content-Type] it is sent under. *)
Record HttpBody := MkHttpBody { hb_content_type : option string; hb_text : string }.

(** What [RequestBuilder::json] sends. *)
Definition json_sent (text : string) : HttpBody := MkHttpBody (Some "application/json") text.

Record HttpRequest := MkHttpRequest {
  hr_method : Method;
  hr_path : string;
  hr_body : option HttpBody;
}.

(** The bytes axum reads of a body, when the router does not set another limit. *)
Definition DEFAULT_BODY_LIMIT : N := 2097152.

Definition body_fits (text : string) : Prop := N.of_nat (String.length text) ≤ DEFAULT_BODY_LIMIT.

#[global] Instance body_fits_dec text : Decision (body_fits text).
Proof. unfold body_fits. apply _. Defined.

(** [hp_body] is [None] when the connection breaks while the body is read. *)
Record HttpResponse := MkHttpResponse {
  hp_status : N;
  hp_body : option string;
}.

Definition is_success (r : HttpResponse) : bool := bool_decide (200 ≤ hp_status r < 300).

Definition is_url_plain (c : ascii) : bool :=
  let n := N_of_ascii c in
  is_digit c || bool_decide (65 ≤ n ≤ 90) || bool_decide (97 ≤ n ≤ 122) || bool_decide (n = 45).

Class HttpText `{!JsonText} := {
  (** [Display] of a status code *)
  status_text : N → string;
  (** the body of a response axum makes up when it refuses a request *)
  rejection_text : N → string;
  (** a path parameter as the handler receives it *)
  percent_decode : string → option string;
  (** the content types the extractor [Json] reads *)
  is_json_type : string → bool;
  is_json_type_json : is_json_type "application/json" = true;
  percent_decode_plain : ∀ s, all_chars is_url_plain s = true → percent_decode s = Some s;
}.

(** The text of an identifier is letters, digits and hyphens. *)
Class UuidUrl `{!UuidDisplay} : Prop :=
  uuid_url_plain : ∀ u, all_chars is_url_plain (uuid_to_string u) = true ∧ uuid_to_string u ≠ EmptyString.

(** Sending a request, with the text of a JSON body; the error is the text of reqwest's. *)
Class HttpTransport (W : Type) := {
  http_send : Method → string → option string → W → W * result string HttpResponse;
}.

(** ** Bodies *)

Section bodies.
Context `{!JsonText}.

Definition response_text (r : HttpResponse) : string := default EmptyString (hp_body r).

Definition response_json {A} (d : json → option A) (r : HttpResponse) : result string A :=
  ok_or (read_error (response_text r)) (s ← hp_body r; j ← json_parse s; d j).

(** [Json(value)] as a response. *)
Definition json_response (status : N) (j : json) : HttpResponse := MkHttpResponse status (Some (json_print j)).

End bodies.

(** ** Routing *)

(** [{id}] stands for one segment that is not empty. *)
Fixpoint match_segments (pattern path : list string) : option (list string) :=
  match pattern, path with
  | [], [] => Some []
  | p :: pattern, s :: path =>
      if decide (p = "{id}") then
        if decide (s = EmptyString) then None else cons s <$> match_segments pattern path
      else if decide (p = s) then match_segments pattern path
      else None
  | _, _ => None
  end.

(** The handler a request is given to, with its path parameters, or the status of
    the refusal: no such path, or none with this method. *)
Definition route_segments {A} (routes : list (string * Method * A)) (method : Method) (path : list string)
    : result N (A * list string) :=
  let on_path :=
    omap (λ '(pattern, m, h), (λ ps, (m, h, ps)) <$> match_segments (split_char "/" pattern) path) routes in
  match on_path with
  | [] => Err 404
  | _ =>
      match omap (λ '(m, h, ps), if decide (m = method) then Some (h, ps) else None) on_path with
      | (h, ps) :: _ => Ok (h, ps)
      | [] => Err 405
      end
  end.

Definition find_route {A} (routes : list (string * Method * A)) (method : Method) (path : string)
    : result N (A * list string) :=
  route_segments routes method (split_char "/" path).

(** ** Socket addresses *)

Definition u16_max : N := 65535.

(** [a + b] on u16, wrapping. *)
Definition u16_add (a b : N) : N := (a + b) `mod` 65536.

Definition set_port (port : N) (a : SocketAddr) : SocketAddr := MkSocketAddr (sock_ip a) port.

(** [FromStr] of an address: ports are 16 bits, and an address with another port
    is printed in a form that parses. *)
Class AddrText := {
  addr_parse : string → option SocketAddr;
  addr_parse_port : ∀ s a, addr_parse s = Some a → sock_port a ≤ u16_max;
  addr_parse_print : ∀ s a p, addr_parse s = Some a → p ≤ u16_max →
    addr_parse (to_string (set_port p a)) = Some (set_port p a);
}.

Lemma addr_parse_to_string `{!AddrText} s a : addr_parse s = Some a → addr_parse (to_string a) = Some a.
Proof.
  intros Hs. pose proof (addr_parse_print s a (sock_port a) Hs (addr_parse_port _ _ Hs)) as Hp.
  by destruct a.
Qed.

(** ** Instances, used to evaluate the model *)

Definition addr_split (s : string) : option SocketAddr :=
  '(ip, port) ← rsplit_once ":" s;
  n ← u64_of_string port;
  if decide (n ≤ u16_max) then Some (MkSocketAddr ip n) else None.

Lemma addr_split_port s a : addr_split s = Some a → sock_port a ≤ u16_max.
Proof. unfold addr_split. intros ([ip p] & _ & (n & _ & Hn)%bind_Some)%bind_Some. case_decide; naive_solver. Qed.

Lemma addr_split_print ip p : p ≤ u16_max → addr_split (to_string (MkSocketAddr ip p)) = Some (MkSocketAddr ip p).
Proof.
  intros Hp. unfold addr_split.
  assert (rsplit_once ":" (to_string (MkSocketAddr ip p)) = Some (ip, u64_to_string p)) as ->.
  { apply rsplit_once_app. by apply (rsplit_once_None _ is_digit); [apply u64_to_string_digits|]. }
  simpl. rewrite u64_of_to_string. simpl. by rewrite decide_True.
Qed.

Definition addr_text : AddrText :=
  {| addr_parse := addr_split;
     addr_parse_port := addr_split_port;
     addr_parse_print := λ s a p _ Hp, addr_split_print (sock_ip a) p Hp |}.

Definition http_text : @HttpText json_digits :=
  {| status_text := λ n, u64_to_string n;
     rejection_text := λ n, "Failed to read the request";
     percent_decode := Some;
     is_json_type := λ t, bool_decide (t = "application/json");
     is_json_type_json := eq_refl;
     percent_decode_plain := λ s _, eq_refl |}.

Lemma all_chars_impl f g s : (∀ c, f c = true → g c = true) → all_chars f s = true → all_chars g s = true.
Proof.
  intros Hfg. induction s as [|c s IH]; simpl; [done|]. intros [Hc Hs]%andb_true_iff.
  rewrite (Hfg _ Hc). by apply IH.
Qed.

Lemma uuid_decimal_url : @UuidUrl uuid_decimal.
Proof.
  intros u. split; [|apply u64_to_string_nonempty].
  eapply all_chars_impl, u64_to_string_digits. intros c Hc. unfold is_url_plain. by rewrite Hc.
Qed.

(** ** Identifiers in paths *)

Section paths.
Context `{!UuidDisplay} `{!UuidUrl}.

Lemma split_path_id prefix u :
  split_char "/" (prefix +:+ ("/" +:+ uuid_to_string u)) = split_char "/" prefix ++ [uuid_to_string u].
Proof.
  destruct (uuid_url_plain u) as [Hp _]. change ("/" +:+ uuid_to_string u) with (String "/" (uuid_to_string u)).
  rewrite split_char_app. f_equal. by apply (split_char_none _ is_url_plain).
Qed.

(** The route of a path that ends in an identifier does not depend on it. *)
Lemma route_id {A} (routes : list (string * Method * A)) h method prefix u :
  (∀ c s, route_segments routes method (split_char "/" prefix ++ [String c s]) = Ok (h, [String c s])) →
  find_route routes method (prefix +:+ ("/" +:+ uuid_to_string u)) = Ok (h, [uuid_to_string u]).
Proof.
  intros Hr. unfold find_route. rewrite split_path_id.
  destruct (uuid_url_plain u) as [_ Hu]. destruct (uuid_to_string u) as [|c s]; [done|]. apply Hr.
Qed.

End paths.
