(* ===== verification/ClientRecovery.v ===== *)
(** * Recovery in the block client (crates/blockyard-ublk)

    The metadata client trait (traits.rs) as a class of operations over a world
    [W], with the laws the recovery code relies on; stale epoch handling
    (stale_epoch.rs), ambiguous write resolution (ambiguous_write.rs), crash
    recovery (crash_recovery.rs) and session operation counting (session.rs).
    The laws are discharged by the metadata service of [MetadataService] behind a
    transport that loses nothing. *)

From Stdlib Require Import Strings.Byte.
From S2P Require Import Prelude Common MetadataSM MetadataInv MetadataSpec MetadataLease MetadataService.
From S2P Require Import Watermark MetadataCache.

#[local] Open Scope N_scope.

(** ** Traits (traits.rs) *)

Inductive WriteAckError :=
  | AckStaleEpoch | AckDiskUnavailable | AckDuplicateOperation | AckInternalError (msg : string).

Record WriteAck := MkWriteAck {
  ack_node_id : NodeId;
  ack_success : bool;
  ack_checksum : string;
  ack_error : option WriteAckError;
}.

(** [CommitRequest] has the fields of a batch entry of the metadata service. *)
Abbreviation CommitRequest := ExtentMappingEntry (only parsing).

Record CommittedMapping := MkCommitted {
  cm_extent_id : ExtentId;
  cm_extent_version : N;
  cm_epoch : EpochId;
  cm_block_range : Range;
  cm_replica_locations : list NodeId;
  cm_checksums : list (list byte);
}.

Class MetadataClient (W : Type) := {
  mc_refresh_metadata : MetadataCache → W → W * MetadataCache * result Error EpochId;
  mc_commit_extent_mapping : CommitRequest → W → W * result Error EpochId;
  mc_commit_extent_mappings_batch : list CommitRequest → W → W * result Error EpochId;
  mc_lookup_operation : OperationId → W → W * result Error (option CommittedMapping);
  mc_current_epoch : W → W * result Error EpochId;
  mc_acquire_lease : VolumeId → SessionId → N → N → W → W * result Error LeaseResponse;
  mc_renew_lease : VolumeId → SessionId → N → N → W → W * result Error LeaseResponse;
  mc_release_lease : VolumeId → SessionId → W → W * result Error LeaseResponse;
}.

(** What is returned of a committed mapping. *)
Definition committed_of (m : ExtentMapping) : CommittedMapping :=
  MkCommitted (em_extent_id m) (em_extent_version m) (em_epoch m) (em_block_range m)
    (em_replica_locations m) (em_checksums m).

(** [σ] is a state that the service, seen through [view], has gone through during a
    call that leads from [w] to [w']; the epoch does not go backwards. *)
Definition seen_between `{!UuidDisplay} `{!RaftTypes} {W} (view : W → MetadataStateMachineData)
    (w w' : W) (σ : MetadataStateMachineData) : Prop :=
  reachable σ ∧ reachable (view w') ∧
  EpochId_as_u64 (sm_epoch (view w)) ≤ EpochId_as_u64 (sm_epoch σ) ∧
  EpochId_as_u64 (sm_epoch σ) ≤ EpochId_as_u64 (sm_epoch (view w')).

(** What the recovery code relies on: an answer reflects such a state. *)
Class MetadataClientLaws `{!UuidDisplay} `{!RaftTypes} (W : Type) `{!MetadataClient W} := {
  client_view : W → MetadataStateMachineData;
  law_lookup : ∀ op w w' r, reachable (client_view w) →
    mc_lookup_operation op w = (w', Ok r) →
    ∃ σ, seen_between client_view w w' σ ∧ r = committed_of <$> lookup_by_operation_id op σ;
  law_current_epoch : ∀ w w' e, reachable (client_view w) →
    mc_current_epoch w = (w', Ok e) → ∃ σ, seen_between client_view w w' σ ∧ e = sm_epoch σ;
  law_refresh : ∀ c w w' c' e, reachable (client_view w) →
    mc_refresh_metadata c w = (w', c', Ok e) →
    cache_epoch c' = e ∧ ∃ σ, seen_between client_view w w' σ ∧ e = sm_epoch σ;
}.

(** ** Sessions (session.rs) *)

Record ClientSession := MkClientSession {
  cs_session_id : SessionId;
  cs_volume_id : VolumeId;
  cs_operation_counter : N;
}.

Definition with_session_id (session_id : SessionId) (volume_id : VolumeId) : ClientSession :=
  MkClientSession session_id volume_id 0.

(** [generated] is the identifier [OperationId::generate()] draws. *)
Definition next_operation_id (generated : OperationId) (s : ClientSession) : ClientSession * OperationId :=
  (MkClientSession (cs_session_id s) (cs_volume_id s) (u64_add (cs_operation_counter s) 1), generated).

Definition operation_count (s : ClientSession) : N := cs_operation_counter s.

(** ** Stale epochs (stale_epoch.rs) *)

Record StaleEpochHandler := MkStaleEpochHandler {
  seh_paused : bool;
  seh_refresh_count : N;
}.

Definition StaleEpochHandler_new : StaleEpochHandler := MkStaleEpochHandler false 0.

Definition set_paused (paused : bool) (h : StaleEpochHandler) : StaleEpochHandler :=
  MkStaleEpochHandler paused (seh_refresh_count h).

(** The body under [refresh_lock]: one caller at a time. *)
Definition handle_stale_epoch {W} `{!MetadataClient W} (stale_epoch : EpochId)
    (h : StaleEpochHandler) (c : MetadataCache) (w : W)
    : StaleEpochHandler * MetadataCache * W * result Error EpochId :=
  let h := set_paused true h in
  let current_cached := cache_current_epoch c in
  if decide (EpochId_as_u64 stale_epoch < EpochId_as_u64 current_cached)
  then (set_paused false h, c, w, Ok current_cached)
  else
    let '(w, c, result) := mc_refresh_metadata c w in
    let h := MkStaleEpochHandler (seh_paused h) (u64_add (seh_refresh_count h) 1) in
    let h := set_paused false h in
    (h, c, w, result).

(** ** Ambiguous writes (ambiguous_write.rs) *)

Inductive AmbiguousWriteOutcome :=
  | Committed (epoch : EpochId) (extent_version : N)
  | NotCommitted.

(** The cache entry both recovery paths write for a committed mapping. *)
Definition recovered_mapping (m : CommittedMapping) : CachedExtentMapping :=
  MkCached (cm_extent_id m) (cm_extent_version m) (cm_replica_locations m) (cm_checksums m) 0 0.

Section recovery.
Context `{!UuidDisplay} {W : Type} `{!MetadataClient W}.

(** The client state the resolvers share. *)
Record ClientState := MkClientState {
  cl_world : W;
  cl_cache : MetadataCache;
  cl_watermark : WriteWatermark;
}.

Definition resolve (volume_id : VolumeId) (operation_id : OperationId) (s : ClientState)
    : ClientState * result Error AmbiguousWriteOutcome :=
  let '(w, r) := mc_lookup_operation operation_id (cl_world s) in
  match r with
  | Err e => (MkClientState w (cl_cache s) (cl_watermark s), Err e)
  | Ok (Some mapping) =>
      let cache := set_extent_mapping volume_id (range_start (cm_block_range mapping))
                     (recovered_mapping mapping) (cl_cache s) in
      let wm := (advance (cm_epoch mapping) (cl_watermark s)).1 in
      (MkClientState w cache wm, Ok (Committed (cm_epoch mapping) (cm_extent_version mapping)))
  | Ok None => (MkClientState w (cl_cache s) (cl_watermark s), Ok NotCommitted)
  end.

Fixpoint resolve_batch (volume_id : VolumeId) (operation_ids : list OperationId) (s : ClientState)
    : ClientState * result Error (list (OperationId * AmbiguousWriteOutcome)) :=
  match operation_ids with
  | [] => (s, Ok [])
  | op_id :: operation_ids =>
      match resolve volume_id op_id s with
      | (s, Err e) => (s, Err e)
      | (s, Ok outcome) =>
          let '(s, r) := resolve_batch volume_id operation_ids s in
          (s, r ≫= λ results, Ok ((op_id, outcome) :: results))
      end
  end.

(** ** Crash recovery (crash_recovery.rs) *)

Record RecoveryResult := MkRecoveryResult {
  recovered_epoch : EpochId;
  committed_operations : N;
  uncommitted_operations : N;
}.

(** The loop of [recover], with its two counters. *)
Fixpoint recover_loop (volume_id : VolumeId) (ops : list OperationId) (committed uncommitted : N)
    (s : ClientState) : ClientState * result Error (N * N) :=
  match ops with
  | [] => (s, Ok (committed, uncommitted))
  | op_id :: ops =>
      let '(w, r) := mc_lookup_operation op_id (cl_world s) in
      match r with
      | Err e => (MkClientState w (cl_cache s) (cl_watermark s), Err e)
      | Ok (Some mapping) =>
          let cache := set_extent_mapping volume_id (range_start (cm_block_range mapping))
                         (recovered_mapping mapping) (cl_cache s) in
          recover_loop volume_id ops (committed + 1) uncommitted
            (MkClientState w cache (cl_watermark s))
      | Ok None =>
          recover_loop volume_id ops committed (uncommitted + 1)
            (MkClientState w (cl_cache s) (cl_watermark s))
      end
  end.

Definition recover (volume_id : VolumeId) (inflight_op_ids : list OperationId) (s : ClientState)
    : ClientState * result Error RecoveryResult :=
  let '(w, r) := mc_current_epoch (cl_world s) in
  match r with
  | Err e => (MkClientState w (cl_cache s) (cl_watermark s), Err e)
  | Ok current_epoch =>
      let s := MkClientState w (cache_set_epoch current_epoch (cl_cache s)) (cl_watermark s) in
      match recover_loop volume_id inflight_op_ids 0 0 s with
      | (s, Err e) => (s, Err e)
      | (s, Ok (committed, uncommitted)) =>
          (MkClientState (cl_world s) (cl_cache s) (advance current_epoch (cl_watermark s)).1,
           Ok (MkRecoveryResult current_epoch committed uncommitted))
      end
  end.

Definition verify_operation_committed (operation_id : OperationId) (s : ClientState)
    : ClientState * result Error (option CommittedMapping) :=
  let '(w, r) := mc_lookup_operation operation_id (cl_world s) in
  (MkClientState w (cl_cache s) (cl_watermark s), r).

Definition refresh_full_state (s : ClientState) : ClientState * result Error EpochId :=
  let '(w, c, r) := mc_refresh_metadata (cl_cache s) (cl_world s) in
  match r with
  | Err e => (MkClientState w c (cl_watermark s), Err e)
  | Ok new_epoch => (MkClientState w c (advance new_epoch (cl_watermark s)).1, Ok new_epoch)
  end.

End recovery.
Arguments ClientState : clear implicits.

(** ** A client connected to the metadata service by a transport that loses nothing *)

Section service_client.
Context `{!UuidDisplay} `{!RaftTypes} {W : Type} `{!Raft W}.

Definition service_client : MetadataClient W :=
  {| mc_refresh_metadata := λ c w, (w, cache_set_epoch (svc_current_epoch w) c, Ok (svc_current_epoch w));
     mc_commit_extent_mapping := svc_commit_extent_mapping;
     mc_commit_extent_mappings_batch := svc_commit_extent_mappings_batch;
     mc_lookup_operation := λ op w, (w, Ok (committed_of <$> svc_lookup_by_operation_id op w));
     mc_current_epoch := λ w, (w, Ok (svc_current_epoch w));
     mc_acquire_lease := svc_acquire_lease;
     mc_renew_lease := svc_renew_lease;
     mc_release_lease := svc_release_lease |}.

Definition service_client_laws : @MetadataClientLaws _ _ _ service_client.
Proof.
  refine {| client_view := sm_data |}.
  - intros op w w' r Hw [= <- <-]. by exists (sm_data w).
  - intros w w' e Hw [= <- <-]. by exists (sm_data w).
  - intros c w w' c' e Hw [= <- <- <-]. split; [done|]. by exists (sm_data w).
Defined.

End service_client.

(** ** Theorems *)

Section theorems.
Context `{!UuidDisplay} `{!RaftTypes} {W : Type} `{!MetadataClient W} `{!MetadataClientLaws W}.
Implicit Types s : ClientState W.

Lemma cache_epoch_set_extent_mapping v b m c :
  cache_epoch (set_extent_mapping v b m c) = cache_epoch c.
Proof. unfold set_extent_mapping, update_mappings. by case_match. Qed.

(** An answer of the service to a lookup that was made after it was at [w]. *)
Definition answered_since (w : W) (op : OperationId) (a : option CommittedMapping) : Prop :=
  ∃ σ, reachable σ ∧ EpochId_as_u64 (sm_epoch (client_view w)) ≤ EpochId_as_u64 (sm_epoch σ) ∧
    match a with
    | Some cm => ∃ em, lookup_by_operation_id op σ = Some em ∧ em_operation_id em = Some op ∧ cm = committed_of em
    | None => lookup_by_operation_id op σ = None
    end.

(** What the answers add to the cache, in their order. *)
Definition with_answers (v : VolumeId) (answers : list (option CommittedMapping)) (c : MetadataCache) : MetadataCache :=
  foldl (λ c a, match a with
    | Some cm => set_extent_mapping v (range_start (cm_block_range cm)) (recovered_mapping cm) c
    | None => c
    end) c answers.

Lemma with_answers_snoc v answers a c :
  with_answers v (answers ++ [a]) c =
    match a with
    | Some cm => set_extent_mapping v (range_start (cm_block_range cm)) (recovered_mapping cm) (with_answers v answers c)
    | None => with_answers v answers c
    end.
Proof. unfold with_answers. by rewrite foldl_app. Qed.

Lemma lookup_answered op w w' a :
  reachable (client_view w) → mc_lookup_operation op w = (w', Ok a) →
  reachable (client_view w') ∧ answered_since w op a ∧
  EpochId_as_u64 (sm_epoch (client_view w)) ≤ EpochId_as_u64 (sm_epoch (client_view w')).
Proof.
  intros Hw Hl. destruct (law_lookup _ _ _ _ Hw Hl) as (σ & (Hσ & Hw' & ? & ?) & ->). split_and!; [done| |lia].
  exists σ. split_and!; [done..|]. destruct (lookup_by_operation_id op σ) as [em|] eqn:Hem; [|done].
  exists em. split_and!; [done| |done]. eapply lookup_by_operation_id_sound; [|done]. by apply sm_inv_reachable.
Qed.

Lemma answered_before w w' op a :
  EpochId_as_u64 (sm_epoch (client_view w)) ≤ EpochId_as_u64 (sm_epoch (client_view w')) →
  answered_since w' op a → answered_since w op a.
Proof. intros Hle (σ & ? & ? & ?). exists σ. split_and!; [done|lia|done]. Qed.

Lemma recover_loop_spec v ops a b s s' a' b' :
  reachable (client_view (cl_world s)) →
  recover_loop v ops a b s = (s', Ok (a', b')) →
  cl_watermark s' = cl_watermark s ∧ cache_epoch (cl_cache s') = cache_epoch (cl_cache s) ∧
  ∃ answers, Forall2 (answered_since (cl_world s)) ops answers ∧
    cl_cache s' = with_answers v answers (cl_cache s) ∧
    a' = a + N.of_nat (length (filter is_Some answers)) ∧ b' = b + N.of_nat (length (filter (.= None) answers)).
Proof.
  revert a b s. induction ops as [|op ops IH]; intros a b s Hs; simpl.
  { intros [= <- <- <-]. split_and!; [done|done|]. exists []. split_and!; [constructor|done|simpl; lia..]. }
  destruct (mc_lookup_operation op (cl_world s)) as [w r] eqn:Hl. destruct r as [ans|]; [|done].
  destruct (lookup_answered _ _ _ _ Hs Hl) as (Hw & Hans & Hle). destruct ans as [cm|];
    intros Hloop; apply IH in Hloop as (Hwm & Hep & answers & Hall & Hc & Ha & Hb); try done; simpl in *;
    rewrite ?cache_epoch_set_extent_mapping in Hep; (split_and!; [done|done|]);
    eexists (_ :: answers); (split; [constructor; [exact Hans|]|split; [done|]]);
    try (eapply Forall2_impl; [exact Hall|]; intros ? ?; by apply answered_before).
  - rewrite filter_cons_True, filter_cons_False by done. simpl. lia.
  - rewrite filter_cons_False, filter_cons_True by (try done; by intros []). simpl. lia.
Qed.

(** The mapping of a block after the answers: the last one that starts there. *)
Definition last_at (blk : N) (answers : list (option CommittedMapping)) : option CommittedMapping :=
  last (filter (λ cm, range_start (cm_block_range cm) = blk) (omap id answers)).

Lemma with_answers_volume v answers c : is_Some (cache_get_volume v (with_answers v answers c)) ↔ is_Some (cache_get_volume v c).
Proof.
  unfold with_answers. revert c. induction answers as [|[cm|] answers IH]; intros c; simpl; [done| |apply IH].
  rewrite IH. unfold cache_get_volume, set_extent_mapping, update_mappings.
  destruct (cache_volumes c !! to_string v) as [vol|] eqn:Hv; simpl; [|by rewrite Hv]. rewrite lookup_insert_eq. naive_solver.
Qed.

Lemma with_answers_other v answers c v' blk :
  v' ≠ v → get_extent_mapping v' blk (with_answers v answers c) = get_extent_mapping v' blk c.
Proof.
  intros Hne. unfold with_answers. revert c. induction answers as [|[cm|] answers IH]; intros c; simpl; [done| |apply IH].
  rewrite IH. unfold set_extent_mapping. by rewrite get_extent_mapping_update, decide_False.
Qed.

Lemma with_answers_lookup v answers c blk :
  is_Some (cache_get_volume v c) →
  get_extent_mapping v blk (with_answers v answers c) =
    match last_at blk answers with Some cm => Some (recovered_mapping cm) | None => get_extent_mapping v blk c end.
Proof.
  intros Hv. induction answers as [|a answers IH] using rev_ind; [done|]. unfold last_at in *.
  rewrite with_answers_snoc, omap_app, filter_app. destruct a as [cm|]; simpl; [|by rewrite app_nil_r].
  pose proof (proj2 (with_answers_volume v answers c) Hv) as [vol Hvol]. unfold cache_get_volume in Hvol.
  unfold set_extent_mapping. rewrite get_extent_mapping_update, decide_True by done. rewrite Hvol. simpl.
  destruct (decide (range_start (cm_block_range cm) = blk)) as [<-|Hne].
  - rewrite filter_cons_True, filter_nil, last_snoc by done. apply lookup_insert_eq.
  - rewrite filter_cons_False, filter_nil, app_nil_r, <- IH, lookup_insert_ne by done. unfold get_extent_mapping.
    by rewrite Hvol.
Qed.

Lemma advance_ge e w : EpochId_as_u64 e ≤ watermark_value (advance e w).1 ∧
  watermark_value w ≤ watermark_value (advance e w).1 ∧
  (watermark_value (advance e w).1 = EpochId_as_u64 e ∨
   watermark_value (advance e w).1 = watermark_value w).
Proof. unfold advance, advance_to. case_decide; simpl; lia. Qed.



End theorems.

(** ** Witnesses *)

Module RecoveryDemo.

Import Demo.

#[export] Existing Instance single_raft.
#[export] Existing Instance service_client.
#[export] Existing Instance service_client_laws.

Definition cache : MetadataCache :=
  cache_set_volume (MkCachedVolume vol 1048576 4096 (Replicated 2) ∅) MetadataCache_new.

Definition client : ClientState (list MetadataRequest) := MkClientState setup cache WriteWatermark_new.

End RecoveryDemo.
Import Demo RecoveryDemo.



(** A mapping recovered after a crash is cached with size 0, which the lookup by
    range takes as covering every later block: after the recovery of an operation
    that wrote blocks 0 to 127, a block the volume never wrote is resolved to it. *)
Theorem recovered_mapping_unbounded :
  ∃ s', recover vol [op 100] client = (s', Ok (MkRecoveryResult (EpochId_new 1) 1 0)) ∧
    (λ m, cem_extent_id m.2) <$> find_extent_for_range vol (MkRange 200 201) (cl_cache s') =
      Some (ExtentId_new 0) ∧
    (em_block_range <$> lookup_by_operation_id (op 100) state) = Some (MkRange 0 128).
Proof.
  destruct (recover vol [op 100] client) as [s' r] eqn:Hr. exists s'. vm_compute in Hr.
  injection Hr as <- <-. split_and!; vm_compute; reflexivity.
Qed.
