(* ===== verification/HttpMetadata.v ===== *)
(** * The metadata client over HTTP (crates/blockyard-ublk/src/http_metadata_client.rs)

    [HttpMetadataClient]: the documents it sends and reads, with serde's defaults for
    the fields it declares, and its implementation of the trait [MetadataClient] over
    any transport. *)

From Stdlib Require Import Strings.Byte.
From S2P Require Import Prelude Text Common Json MetadataSM MetadataService Watermark MetadataCache ClientRecovery Http.

#[local] Open Scope N_scope.

(** ** Documents *)

Record ClusterStatusResponse := MkClusterStatusResponse {
  csr_node_count : N;
  csr_nodes_online : N;
  csr_volume_count : N;
  csr_disk_count : N;
  csr_placement_epoch : N;
  csr_quorum_health : string;
  csr_total_capacity_bytes : N;
  csr_used_capacity_bytes : N;
}.

Definition de_cluster_status_response : json → option ClusterStatusResponse :=
  de_struct (
    node_count ← field_default 0 "node_count" de_u32;
    nodes_online ← field_default 0 "nodes_online" de_u32;
    volume_count ← field_default 0 "volume_count" de_u32;
    disk_count ← field_default 0 "disk_count" de_u32;
    placement_epoch ← field "placement_epoch" de_u64;
    quorum_health ← field_default EmptyString "quorum_health" de_string;
    total_capacity_bytes ← field_default 0 "total_capacity_bytes" de_u64;
    used_capacity_bytes ← field_default 0 "used_capacity_bytes" de_u64;
    mret (MkClusterStatusResponse node_count nodes_online volume_count disk_count placement_epoch
            quorum_health total_capacity_bytes used_capacity_bytes)).

Definition de_extent_mapping_response : json → option N :=
  de_struct (field "epoch" de_u64).

Record OperationLookupResponse := MkOperationLookupResponse {
  olr_found : bool;
  olr_extent_id : option ExtentId;
  olr_extent_version : option N;
  olr_epoch : option N;
  olr_block_range_start : option N;
  olr_block_range_end : option N;
  olr_replica_locations : option (list NodeId);
  olr_checksums : option (list (list byte));
}.

(** The fields of [NodeInfo] and [VolumeInfo] that the client uses; the others are
    read and dropped. *)
Record RemoteNode := MkRemoteNode { rn_id : NodeId; rn_address : string }.

Record RemoteVolume := MkRemoteVolume {
  rv_id : VolumeId;
  rv_size_bytes : N;
  rv_protection : ProtectionPolicy;
}.

Section documents.
Context `{!UuidDisplay}.

Definition de_operation_lookup_response : json → option OperationLookupResponse :=
  de_struct (
    found ← field "found" de_bool;
    extent_id ← field_default None "extent_id" (de_option de_extent_id);
    extent_version ← field_default None "extent_version" (de_option de_u64);
    epoch ← field_default None "epoch" (de_option de_u64);
    block_range_start ← field_default None "block_range_start" (de_option de_u64);
    block_range_end ← field_default None "block_range_end" (de_option de_u64);
    replica_locations ← field_default None "replica_locations" (de_option (de_vec de_node_id));
    checksums ← field_default None "checksums" (de_option (de_vec (de_vec de_byte)));
    mret (MkOperationLookupResponse found extent_id extent_version epoch block_range_start block_range_end
            replica_locations checksums)).

(** [ExtentMappingRequest], built from the request to commit. *)
Definition ser_extent_mapping_request (request : CommitRequest) : json :=
  JObject
    [("volume_id", ser_volume_id (ent_volume_id request));
     ("block_range_start", JNumber (range_start (ent_block_range request)));
     ("block_range_end", JNumber (range_end (ent_block_range request)));
     ("extent_id", ser_extent_id (ent_extent_id request));
     ("extent_version", JNumber (ent_extent_version request));
     ("epoch", JNumber (EpochId_as_u64 (ent_epoch request)));
     ("replica_locations", ser_vec ser_node_id (ent_replica_locations request));
     ("checksums", ser_vec (ser_vec ser_byte) (ent_checksums request));
     ("operation_id", ser_option ser_operation_id (ent_operation_id request));
     ("previous_version", ser_option JNumber (ent_previous_version request))].

Definition ser_lease_request (volume_id : VolumeId) (session_id : SessionId) (now_ms ttl_ms : N) : json :=
  JObject
    [("volume_id", ser_volume_id volume_id); ("session_id", ser_session_id session_id);
     ("now_ms", JNumber now_ms); ("ttl_ms", JNumber ttl_ms)].

Definition ser_lease_release_request (volume_id : VolumeId) (session_id : SessionId) : json :=
  JObject [("volume_id", ser_volume_id volume_id); ("session_id", ser_session_id session_id)].

Definition de_remote_node : json → option RemoteNode :=
  de_struct (
    id ← field "id" de_node_id;
    address ← field "address" de_string;
    _ ← field_default EmptyString "state" de_string;
    _ ← field_default 0 "disk_count" de_u32;
    _ ← field_default 0 "volume_count" de_u32;
    _ ← field_default 0 "uptime_seconds" de_u64;
    mret (MkRemoteNode id address)).

Definition de_remote_volume : json → option RemoteVolume :=
  de_struct (
    id ← field "id" de_volume_id;
    _ ← field_default EmptyString "name" de_string;
    size_bytes ← field "size_bytes" de_u64;
    protection ← field "protection" de_protection;
    _ ← field_default EmptyString "state" de_string;
    _ ← field_default [] "replica_nodes" (de_vec de_node_id);
    mret (MkRemoteVolume id size_bytes protection)).

End documents.

(** ** The client *)

Section client.
Context `{!UuidDisplay} `{!JsonText} `{!HttpText} `{!AddrText} {W : Type} `{!HttpTransport W}.
Variable endpoint : string.
Implicit Types w : W.

Definition url (path : string) : string := endpoint +:+ path.

Definition http_get (path : string) w : W * result string HttpResponse := http_send GET (url path) None w.

Definition http_post (path : string) (body : json) w : W * result string HttpResponse :=
  http_send POST (url path) (Some (json_print body)) w.

Definition network {A} (what e : string) : result Error A := Err (ErrorNetwork (what +:+ e)).

Definition map_network {A} (what : string) (r : result string A) : result Error A :=
  match r with Ok a => Ok a | Err e => network what e end.

(** The cluster status, as two of the operations fetch it. *)
Definition fetch_status w : W * result Error ClusterStatusResponse :=
  match http_get "/api/v1/cluster/status" w with
  | (w, Err e) => (w, network "failed to fetch cluster status: " e)
  | (w, Ok resp) =>
      if is_success resp
      then (w, map_network "failed to parse cluster status: " (response_json de_cluster_status_response resp))
      else (w, network "cluster status returned " (status_text (hp_status resp)))
  end.

Definition cached_volume (v : RemoteVolume) : CachedVolumeInfo :=
  MkCachedVolume (rv_id v) (rv_size_bytes v) 4096 (rv_protection v) ∅.

Definition cached_node (n : RemoteNode) : option NodeAddress := MkNodeAddress (rn_id n) <$> addr_parse (rn_address n).

Definition http_refresh_metadata (cache : MetadataCache) w : W * MetadataCache * result Error EpochId :=
  match fetch_status w with
  | (w, Err e) => (w, cache, Err e)
  | (w, Ok status) =>
      let new_epoch := EpochId_new (csr_placement_epoch status) in
      match http_get "/api/v1/nodes" w with
      | (w, Err e) => (w, cache, network "failed to fetch nodes: " e)
      | (w, Ok nodes_resp) =>
          if is_success nodes_resp then
            match response_json (de_vec de_remote_node) nodes_resp with
            | Err e => (w, cache, network "failed to parse nodes: " e)
            | Ok nodes =>
                let cache_nodes := omap cached_node nodes in
                match http_get "/api/v1/volumes" w with
                | (w, Err e) => (w, cache, network "failed to fetch volumes: " e)
                | (w, Ok volumes_resp) =>
                    if is_success volumes_resp then
                      match response_json (de_vec de_remote_volume) volumes_resp with
                      | Err e => (w, cache, network "failed to parse volumes: " e)
                      | Ok volumes => (w, refresh new_epoch cache_nodes (cached_volume <$> volumes) cache, Ok new_epoch)
                      end
                    else (w, refresh new_epoch cache_nodes [] cache, Ok new_epoch)
                end
            end
          else (w, cache_set_epoch new_epoch cache, Ok new_epoch)
      end
  end.

Definition http_commit_extent_mapping (request : CommitRequest) w : W * result Error EpochId :=
  match http_post "/api/v1/extent-mappings" (ser_extent_mapping_request request) w with
  | (w, Err e) => (w, network "failed to commit extent mapping: " e)
  | (w, Ok resp) =>
      if is_success resp then
        (w, EpochId_new <$> map_network "failed to parse commit response: " (response_json de_extent_mapping_response resp))
      else (w, Err (ErrorRaft ("extent mapping commit failed (status " +:+ status_text (hp_status resp) +:+ "): "
                                 +:+ response_text resp)))
  end.

Definition http_current_epoch w : W * result Error EpochId :=
  let '(w, r) := fetch_status w in
  (w, (λ status, EpochId_new (csr_placement_epoch status)) <$> r).

Definition http_commit_extent_mappings_batch (requests : list CommitRequest) w : W * result Error EpochId :=
  match requests with
  | [] => http_current_epoch w
  | _ =>
      match http_post "/api/v1/extent-mappings/batch" (ser_vec ser_extent_mapping_request requests) w with
      | (w, Err e) => (w, network "failed to commit extent mapping batch: " e)
      | (w, Ok resp) =>
          if is_success resp then
            (w, EpochId_new <$> map_network "failed to parse batch commit response: "
                                  (response_json de_extent_mapping_response resp))
          else (w, Err (ErrorRaft ("extent mapping batch commit failed (status " +:+ status_text (hp_status resp)
                                     +:+ "): " +:+ response_text resp)))
      end
  end.

(** The mapping of a lookup that found one. *)
Definition committed_of_lookup (lookup : OperationLookupResponse) : result Error CommittedMapping :=
  extent_id ← ok_or (ErrorNetwork "operation lookup missing extent_id") (olr_extent_id lookup);
  extent_version ← ok_or (ErrorNetwork "operation lookup missing extent_version") (olr_extent_version lookup);
  epoch ← ok_or (ErrorNetwork "operation lookup missing epoch") (olr_epoch lookup);
  Ok (MkCommitted extent_id extent_version (EpochId_new epoch)
        (MkRange (default 0 (olr_block_range_start lookup)) (default 0 (olr_block_range_end lookup)))
        (default [] (olr_replica_locations lookup)) (default [] (olr_checksums lookup))).

Definition http_lookup_operation (operation_id : OperationId) w : W * result Error (option CommittedMapping) :=
  match http_get ("/api/v1/operations" +:+ ("/" +:+ to_string operation_id)) w with
  | (w, Err e) => (w, network "failed to lookup operation: " e)
  | (w, Ok resp) =>
      if decide (hp_status resp = 404) then (w, Ok None)
      else if is_success resp then
        (w, lookup ← map_network "failed to parse operation lookup: " (response_json de_operation_lookup_response resp);
            if olr_found lookup then Some <$> committed_of_lookup lookup else Ok None)
      else (w, network "operation lookup failed: " (status_text (hp_status resp)))
  end.

(** A lease request: [action] is the last segment of the path and the name in the
    error messages. *)
Definition http_lease (action : string) (body : json) w : W * result Error LeaseResponse :=
  match http_post ("/api/v1/leases/" +:+ action) body w with
  | (w, Err e) => (w, network ("failed to " +:+ action +:+ " lease: ") e)
  | (w, Ok resp) =>
      if is_success resp
      then (w, map_network "failed to parse lease response: " (response_json de_lease_response resp))
      else (w, network ("lease " +:+ action +:+ " failed: ") (response_text resp))
  end.

Definition http_acquire_lease (volume_id : VolumeId) (session_id : SessionId) (now_ms ttl_ms : N) w :=
  http_lease "acquire" (ser_lease_request volume_id session_id now_ms ttl_ms) w.

Definition http_renew_lease (volume_id : VolumeId) (session_id : SessionId) (now_ms ttl_ms : N) w :=
  http_lease "renew" (ser_lease_request volume_id session_id now_ms ttl_ms) w.

Definition http_release_lease (volume_id : VolumeId) (session_id : SessionId) w :=
  http_lease "release" (ser_lease_release_request volume_id session_id) w.

Definition http_client : MetadataClient W :=
  {| mc_refresh_metadata := http_refresh_metadata;
     mc_commit_extent_mapping := http_commit_extent_mapping;
     mc_commit_extent_mappings_batch := http_commit_extent_mappings_batch;
     mc_lookup_operation := http_lookup_operation;
     mc_current_epoch := http_current_epoch;
     mc_acquire_lease := http_acquire_lease;
     mc_renew_lease := http_renew_lease;
     mc_release_lease := http_release_lease |}.

End client.
