(* ===== verification/ClientHealth.v ===== *)
(** * Lease and quorum tracking in the block client (crates/blockyard-ublk)

    The write lease manager (lease_manager.rs), with its renewal task as a
    sequence of events, and the quorum health monitor (quorum_health.rs). *)

From S2P Require Import Prelude Common MetadataSM MetadataInv MetadataSpec MetadataLease MetadataService.
From S2P Require Import Watermark MetadataCache ClientRecovery.

#[local] Open Scope N_scope.

(** ** The lease manager *)

Inductive LeaseState := LeaseNone | LeaseActive | LeaseLost.

#[global] Instance LeaseState_eq_dec : EqDecision LeaseState.
Proof. solve_decision. Defined.

Record LeaseManager := MkLeaseManager {
  lm_volume_id : VolumeId;
  lm_session_id : SessionId;
  lm_ttl_ms : N;
  lm_state : LeaseState;
  lm_lease_version : option N;
  lm_expires_at_ms : option N;
}.

Definition LeaseManager_new (volume_id : VolumeId) (session_id : SessionId) (ttl_ms : N) : LeaseManager :=
  MkLeaseManager volume_id session_id ttl_ms LeaseNone None None.

(** Assign the three fields of the inner state. *)
Definition lm_set (st : LeaseState) (version expires : option N) (m : LeaseManager) : LeaseManager :=
  MkLeaseManager (lm_volume_id m) (lm_session_id m) (lm_ttl_ms m) st version expires.

Definition mark_lost (m : LeaseManager) : LeaseManager :=
  lm_set LeaseLost (lm_lease_version m) (lm_expires_at_ms m) m.

(** [{other:?}] on the two response variants that carry numbers. *)
Definition lease_numbers_debug (name : string) (version expires : N) : string :=
  name +:+ " { lease_version: " +:+ u64_to_string version +:+ ", expires_at_ms: "
    +:+ u64_to_string expires +:+ " }".

Section manager.
Context {W : Type} `{!MetadataClient W}.

(** [now_ms] is the clock read by [current_time_ms()]. *)
Definition lm_acquire (now_ms : N) (m : LeaseManager) (w : W) : LeaseManager * W * result Error N :=
  let '(w, r) := mc_acquire_lease (lm_volume_id m) (lm_session_id m) now_ms (lm_ttl_ms m) w in
  match r with
  | Err e => (m, w, Err e)
  | Ok (Granted version expires) =>
      (lm_set LeaseActive (Some version) (Some expires) m, w, Ok version)
  | Ok (Denied reason) => (m, w, Err (ErrorAuth ("lease denied: " +:+ reason)))
  | Ok (Renewed version expires) =>
      (m, w, Err (ErrorAuth ("unexpected lease response: "
                               +:+ lease_numbers_debug "Renewed" version expires)))
  | Ok Released => (m, w, Err (ErrorAuth "unexpected lease response: Released"))
  end.

Definition lm_renew (now_ms : N) (m : LeaseManager) (w : W) : LeaseManager * W * result Error N :=
  let '(w, r) := mc_renew_lease (lm_volume_id m) (lm_session_id m) now_ms (lm_ttl_ms m) w in
  match r with
  | Err e => (m, w, Err e)
  | Ok (Renewed version expires) =>
      (lm_set (lm_state m) (Some version) (Some expires) m, w, Ok version)
  | Ok (Denied reason) => (mark_lost m, w, Err (ErrorAuth ("lease renewal denied: " +:+ reason)))
  | Ok (Granted version expires) =>
      (mark_lost m, w, Err (ErrorAuth ("unexpected renewal response: "
                                         +:+ lease_numbers_debug "Granted" version expires)))
  | Ok Released => (mark_lost m, w, Err (ErrorAuth "unexpected renewal response: Released"))
  end.

Definition lm_release (m : LeaseManager) (w : W) : LeaseManager * W * result Error unit :=
  let '(w, r) := mc_release_lease (lm_volume_id m) (lm_session_id m) w in
  match r with
  | Err e => (m, w, Err e)
  | Ok response =>
      let m := lm_set LeaseNone None None m in
      match response with
      | Released | Denied _ => (m, w, Ok tt)
      | Granted version expires =>
          (m, w, Err (ErrorAuth ("unexpected release response: "
                                   +:+ lease_numbers_debug "Granted" version expires)))
      | Renewed version expires =>
          (m, w, Err (ErrorAuth ("unexpected release response: "
                                   +:+ lease_numbers_debug "Renewed" version expires)))
      end
  end.

Definition check_write_allowed (m : LeaseManager) : result Error N :=
  match lm_state m with
  | LeaseActive => ok_or (ErrorAuth "lease active but no version") (lm_lease_version m)
  | LeaseNone => Err (ErrorAuth "no write lease held")
  | LeaseLost => Err (ErrorAuth "write lease lost — renewal failed")
  end.

(** The renewal task: what wakes it up, and whether it is still running. *)
Inductive RenewalEvent :=
  | Tick (now_ms : N)
  | Shutdown.

Definition renewal_step (ev : RenewalEvent) (running : bool) (m : LeaseManager) (w : W)
    : bool * LeaseManager * W :=
  if running then
    match ev with
    | Shutdown => (false, m, w)
    | Tick now_ms =>
        if decide (lm_state m = LeaseActive) then
          let '(m, w, r) := lm_renew now_ms m w in
          match r with Ok _ => (true, m, w) | Err _ => (false, m, w) end
        else (false, m, w)
    end
  else (false, m, w).

End manager.

(** ** The quorum health monitor *)

Inductive QuorumLossReadPolicy := AllowCachedReads | BlockAllReads.

Inductive QuorumStatus := QuorumHealthy | QuorumDegraded | QuorumUnavailable.

#[global] Instance QuorumLossReadPolicy_eq_dec : EqDecision QuorumLossReadPolicy.
Proof. solve_decision. Defined.

#[global] Instance QuorumStatus_eq_dec : EqDecision QuorumStatus.
Proof. solve_decision. Defined.

Record QuorumHealthMonitor := MkQuorum {
  qh_writes_blocked : bool;
  qh_status : QuorumStatus;
  qh_read_policy : QuorumLossReadPolicy;
  qh_consecutive_failures : N;
  qh_failure_threshold : N;
  qh_recovery_count : N;
}.

Definition QuorumHealthMonitor_new (policy : QuorumLossReadPolicy) : QuorumHealthMonitor :=
  MkQuorum false QuorumHealthy policy 0 3 0.

Definition with_failure_threshold (threshold : N) (q : QuorumHealthMonitor) : QuorumHealthMonitor :=
  MkQuorum (qh_writes_blocked q) (qh_status q) (qh_read_policy q) (qh_consecutive_failures q)
    threshold (qh_recovery_count q).

Definition reads_allowed (q : QuorumHealthMonitor) : bool :=
  match qh_status q with
  | QuorumHealthy | QuorumDegraded => true
  | QuorumUnavailable => bool_decide (qh_read_policy q = AllowCachedReads)
  end.

Definition record_success (q : QuorumHealthMonitor) : QuorumHealthMonitor :=
  let was_blocked := qh_writes_blocked q in
  let '(status, recovery) :=
    if decide (qh_status q = QuorumHealthy) then (QuorumHealthy, qh_recovery_count q)
    else (QuorumHealthy,
          if was_blocked then u64_add (qh_recovery_count q) 1 else qh_recovery_count q) in
  MkQuorum false status (qh_read_policy q) 0 (qh_failure_threshold q) recovery.

Definition record_failure (q : QuorumHealthMonitor) : QuorumHealthMonitor :=
  let failures := u64_add (qh_consecutive_failures q) 1 in
  if decide (qh_failure_threshold q ≤ failures) then
    MkQuorum true QuorumUnavailable (qh_read_policy q) failures (qh_failure_threshold q)
      (qh_recovery_count q)
  else
    MkQuorum (qh_writes_blocked q)
      (if decide (qh_status q = QuorumHealthy) then QuorumDegraded else qh_status q)
      (qh_read_policy q) failures (qh_failure_threshold q) (qh_recovery_count q).

Definition check_read_allowed (w : WriteWatermark) (c : MetadataCache) (q : QuorumHealthMonitor) : bool :=
  if negb (reads_allowed q) then false
  else if decide (qh_status q = QuorumUnavailable)
  then bool_decide (EpochId_as_u64 (watermark_current w) ≤ EpochId_as_u64 (cache_current_epoch c))
  else true.

Definition health_check {W} `{!MetadataClient W} (q : QuorumHealthMonitor) (w : W)
    : QuorumHealthMonitor * W * bool :=
  let '(w, r) := mc_current_epoch w in
  match r with
  | Ok _ => (record_success q, w, true)
  | Err _ => (record_failure q, w, false)
  end.

(** ** Theorems on the lease manager *)

Section lease_theorems.
Context `{!UuidDisplay} `{!RaftTypes} {W : Type} `{!Raft W} `{!RaftLaws W}.
#[local] Existing Instance service_client.

(** The version validates for the session up to [expires]. *)
Definition validates_until (m : LeaseManager) (ver expires : N) (w : W) : Prop :=
  ∀ now, svc_validate_lease (lm_volume_id m) (lm_session_id m) ver now w = Ok tt ↔ now < expires.

Lemma validates_until_lease m ver expires w l :
  get_lease (lm_volume_id m) (sm_data w) = Some l →
  lease_holder l = lm_session_id m → lease_version l = ver → lease_expires_at_ms l = expires →
  validates_until m ver expires w.
Proof.
  intros Hl Hh Hv He now. unfold svc_validate_lease.
  assert (validate_lease (lm_volume_id m) (lm_session_id m) ver now (sm_data w) = Ok tt ↔
    now < expires) as Hiff.
  { rewrite validate_lease_Ok. split; [|naive_solver]. intros (? & ? & _ & _ & ?). congruence. }
  destruct (validate_lease _ _ _ _ _) as [[]|]; naive_solver.
Qed.

(** The version under which the client is allowed to write is the one the
    metadata service accepts: after an acquisition that succeeds, and after a
    renewal that succeeds while the lease is active, the manager hands out a
    version that validates at the service for its session until the time to live
    has passed since the call, and not longer. *)
Theorem lease_manager_version_valid now m w m' w' ver :
  now + lm_ttl_ms m < u64_modulus →
  lm_acquire now m w = (m', w', Ok ver) ∨
    (lm_state m = LeaseActive ∧ lm_renew now m w = (m', w', Ok ver)) →
  check_write_allowed m' = Ok ver ∧ validates_until m ver (now + lm_ttl_ms m) w'.
Proof.
  intros Hb [Hacq|[Hst Hren]].
  - unfold lm_acquire in Hacq. simpl in Hacq.
    destruct (svc_acquire_lease _ _ _ _ w) as [w1 r] eqn:Hcall.
    destruct r as [[v x| | |]|]; simplify_eq. split; [done|].
    apply svc_call_ok in Hcall as (pre & s & rs & resp & _ & _ & _ & Hreq & Hdec).
    simpl in Hreq. destruct (apply_acquire _ _ _ _ s) as [s1 lr] eqn:Happ. simplify_eq.
    simpl in Hdec. simplify_eq.
    destruct (acquire_granted _ _ _ _ _ _ _ _ Hb Happ) as (l & Hl & Hh & Hv & He).
    by eapply validates_until_lease.
  - unfold lm_renew in Hren. simpl in Hren.
    destruct (svc_renew_lease _ _ _ _ w) as [w1 r] eqn:Hcall.
    destruct r as [[|v x| |]|]; simplify_eq. split; [unfold check_write_allowed; simpl; by rewrite Hst|].
    apply svc_call_ok in Hcall as (pre & s & rs & resp & _ & _ & _ & Hreq & Hdec).
    simpl in Hreq. destruct (apply_renew _ _ _ _ s) as [s1 lr] eqn:Happ. simplify_eq.
    simpl in Hdec. simplify_eq.
    destruct (renew_renewed _ _ _ _ _ _ _ _ Hb Happ) as (l & Hl & Hh & Hv & He).
    by eapply validates_until_lease.
Qed.

End lease_theorems.

(** A renewal that fails in transport stops the renewal task, and leaves the
    lease marked active: writes stay allowed with the old version, although
    nothing will renew it any more. *)
Theorem renewal_error_keeps_writes_allowed {W} `{!MetadataClient W} now m (w w' : W) e ver :
  mc_renew_lease (lm_volume_id m) (lm_session_id m) now (lm_ttl_ms m) w = (w', Err e) →
  check_write_allowed m = Ok ver →
  renewal_step (Tick now) true m w = (false, m, w') ∧
  (∀ ev (w'' : W), renewal_step ev false m w'' = (false, m, w'')) ∧ check_write_allowed m = Ok ver.
Proof.
  intros Hr Hok. unfold renewal_step, lm_renew. rewrite Hr. split_and!; [|done|done].
  case_decide as Hd; [done|]. unfold check_write_allowed in Hok.
  by destruct (lm_state m).
Qed.

(** ** Theorems on the quorum monitor *)

(** The monitor after a sequence of outcomes, [true] for a success. *)
Definition record_all (outcomes : list bool) (q : QuorumHealthMonitor) : QuorumHealthMonitor :=
  foldl (λ q ok, if (ok : bool) then record_success q else record_failure q) q outcomes.

(** How many failures a history ends with, and how many times a success ended an
    outage of at least [threshold] failures. *)
Definition history_step (threshold : N) (fr : N * N) (ok : bool) : N * N :=
  let '(f, r) := fr in
  if ok then (0, if decide (threshold ≤ f) then r + 1 else r) else (f + 1, r).

Definition history (threshold : N) (outcomes : list bool) : N * N :=
  foldl (history_step threshold) (0, 0) outcomes.

Lemma history_snoc t outcomes ok :
  history t (outcomes ++ [ok]) = history_step t (history t outcomes) ok.
Proof. unfold history. by rewrite foldl_app. Qed.

Lemma history_bound t outcomes :
  (history t outcomes).1 ≤ N.of_nat (length outcomes) ∧
  (history t outcomes).2 ≤ N.of_nat (length outcomes).
Proof.
  induction outcomes as [|ok outcomes [IH1 IH2]] using rev_ind; [done|].
  rewrite history_snoc, length_app. destruct (history t outcomes) as [f r].
  simpl in *. destruct ok; simpl; [case_decide|]; simpl; lia.
Qed.

(** What the monitor should hold after a history. *)
Definition monitor_of (policy : QuorumLossReadPolicy) (t : N) (fr : N * N) : QuorumHealthMonitor :=
  let '(f, r) := fr in
  MkQuorum (bool_decide (t ≤ f))
    (if decide (t ≤ f) then QuorumUnavailable else if decide (f = 0) then QuorumHealthy else QuorumDegraded)
    policy f t r.

Lemma record_all_history policy t outcomes :
  1 ≤ t → N.of_nat (length outcomes) < u64_modulus →
  record_all outcomes (with_failure_threshold t (QuorumHealthMonitor_new policy)) =
    monitor_of policy t (history t outcomes).
Proof.
  intros Ht. induction outcomes as [|ok outcomes IH] using rev_ind; intros Hlen.
  { unfold history, monitor_of; simpl. rewrite bool_decide_false, decide_False by lia. done. }
  rewrite length_app in Hlen. simpl in Hlen. pose proof (history_bound t outcomes) as [Hf Hr].
  unfold record_all in *. rewrite foldl_app, history_snoc, IH by lia.
  destruct (history t outcomes) as [f r]. simpl in *.
  destruct ok; unfold record_success, record_failure, monitor_of; simpl.
  - rewrite (bool_decide_false (t ≤ 0)), (decide_False (P := t ≤ 0)) by lia.
    destruct (decide (t ≤ f)); simpl.
    + rewrite bool_decide_true, u64_add_small by lia. done.
    + destruct (decide (f = 0)); simpl; [done|]. by rewrite bool_decide_false.
  - rewrite u64_add_small by lia. destruct (decide (t ≤ f + 1)).
    + by rewrite bool_decide_true.
    + rewrite (bool_decide_false (t ≤ f)), bool_decide_false, (decide_False (P := t ≤ f)) by lia.
      rewrite (decide_False (P := f + 1 = 0)) by lia. by destruct (decide (f = 0)).
Qed.

(** The monitor's state is a function of the history of metadata calls:
    writes are blocked, and the quorum declared unavailable, exactly while the
    last [threshold] calls or more have all failed; the recovery count is the
    number of outages ended; and a read is allowed exactly when there is no such
    outage, or the policy allows cached reads and the cache is at the watermark. *)
Theorem quorum_monitor_history policy t outcomes w c :
  1 ≤ t → N.of_nat (length outcomes) < u64_modulus →
  let q := record_all outcomes (with_failure_threshold t (QuorumHealthMonitor_new policy)) in
  let '(f, r) := history t outcomes in
  (qh_writes_blocked q = true ↔ t ≤ f) ∧
  (qh_status q = QuorumUnavailable ↔ t ≤ f) ∧
  (qh_status q = QuorumHealthy ↔ f = 0) ∧
  qh_recovery_count q = r ∧
  (check_read_allowed w c q = true ↔
     f < t ∨ policy = AllowCachedReads ∧ watermark_value w ≤ EpochId_as_u64 (cache_epoch c)).
Proof.
  intros Ht Hlen q. unfold q. rewrite record_all_history by done.
  destruct (history t outcomes) as [f r]. unfold monitor_of. simpl.
  unfold check_read_allowed, reads_allowed, cache_current_epoch. simpl.
  rewrite bool_decide_eq_true.
  destruct (decide (t ≤ f)); [|destruct (decide (f = 0))]; simpl; split_and!; try done;
    try (split; intros; try done; lia).
  destruct policy; simpl; [|split; [done|naive_solver lia]].
  rewrite bool_decide_eq_true. naive_solver lia.
Qed.

(** ** Witnesses *)

Import Demo RecoveryDemo.

Lemma lease_manager_version_valid_witness :
  check_write_allowed (lm_acquire 2000 (LeaseManager_new vol session2 500) setup).1.1 = Ok 2.
Proof.
  destruct (lm_acquire 2000 (LeaseManager_new vol session2 500) setup) as [[m' w'] r] eqn:Hr.
  assert (r = Ok 2) as -> by (vm_compute in Hr; injection Hr as _ _ <-; reflexivity).
  eapply (@lease_manager_version_valid _ _ _ _ single_raft_laws 2000 (LeaseManager_new vol session2 500)
    setup m' w' 2); [vm_compute; reflexivity|left; exact Hr].
Defined.

Lemma quorum_monitor_history_witness :
  qh_writes_blocked (record_all [false; true; false; false; false]
    (with_failure_threshold 3 (QuorumHealthMonitor_new BlockAllReads))) = true.
Proof.
  apply (quorum_monitor_history BlockAllReads 3 [false; true; false; false; false]
    WriteWatermark_new MetadataCache_new); vm_compute; [discriminate|reflexivity|discriminate].
Defined.
