(* ===== verification/Placement.v ===== *)
(** * Placement (crates/blockyard-common/src/placement.rs and
    crates/blockyard-storage/src/placement.rs)

    Deterministic rendezvous placement of extents on nodes, used by the I/O path,
    and the placement of a volume's extents on disks.  blake3 is a parameter, a
    function from byte strings to 32 bytes; [ExtentId::generate()] is the source
    of fresh identifiers, an argument of the definitions that draw from it. *)

From S2P Require Import Prelude Common.

#[local] Open Scope N_scope.

(** ** Bytes *)

(** Bytes are numbers below 256. *)
Fixpoint le_bytes (k : nat) (n : N) : list N :=
  match k with O => [] | S k => n `mod` 256 :: le_bytes k (n `div` 256) end.

Definition be_bytes (k : nat) (n : N) : list N := reverse (le_bytes k n).

Definition le_value (bs : list N) : N := foldr (λ b acc, b + 256 * acc) 0 bs.

Definition be_value (bs : list N) : N := foldl (λ acc b, 256 * acc + b) 0 bs.

(** [b"..."] *)
Fixpoint ascii_bytes (s : string) : list N :=
  match s with EmptyString => [] | String a s => Ascii.N_of_ascii a :: ascii_bytes s end.

(** [blake3::Hasher]: what [finalize] returns for the concatenation of the updates. *)
Class Blake3 := blake3 : list N → list N.

(** ** Deterministic placement *)

Section deterministic.
Context `{!Blake3}.

(** [Uuid::as_bytes] and [u64::to_le_bytes]. *)
Definition uuid_bytes (u : Uuid) : list N := be_bytes 16 u.

Definition u64_le_bytes (n : N) : list N := le_bytes 8 n.

Definition extent_id_for_extent (volume_id : VolumeId) (extent_num : N) : ExtentId :=
  let hash := blake3 (ascii_bytes "blockyard.extent.v1" ++ uuid_bytes (VolumeId_as_uuid volume_id)
                        ++ u64_le_bytes extent_num) in
  ExtentId_new (be_value (take 16 hash)).

Definition extent_id_for_block (volume_id : VolumeId) (block_num : N) : ExtentId :=
  extent_id_for_extent volume_id block_num.

Definition block_to_extent (block_num extent_blocks : N) : N * N :=
  let extent_blocks := N.max extent_blocks 1 in
  (block_num `div` extent_blocks, block_num `mod` extent_blocks).

Definition extent_version : N := 1.

Definition placement_score (volume_id : VolumeId) (block_num : N) (node_id : NodeId) : N :=
  let hash := blake3 (ascii_bytes "blockyard.placement.v1" ++ uuid_bytes (VolumeId_as_uuid volume_id)
                        ++ u64_le_bytes block_num ++ uuid_bytes (NodeId_as_uuid node_id)) in
  le_value (take 8 hash).

Definition select_nodes (volume_id : VolumeId) (block_num : N) (available_nodes : list NodeId)
    (count : nat) : list NodeId :=
  if decide (length available_nodes ≤ count)%nat then available_nodes
  else
    let scored := (λ n, (placement_score volume_id block_num n, n)) <$> available_nodes in
    snd <$> take count (sort_by_key fst scored).

(** [data_chunks + parity_chunks] is a u8 addition. *)
Definition u8_add (a b : N) : N := (a + b) `mod` 256.

Definition select_ec_nodes (volume_id : VolumeId) (block_num : N) (available_nodes : list NodeId)
    (data_chunks parity_chunks : N) : list NodeId :=
  select_nodes volume_id block_num available_nodes (N.to_nat (u8_add data_chunks parity_chunks)).

End deterministic.

(** ** Placement of a volume on disks *)

Record PlacementDisk := MkPlacementDisk {
  pd_disk_id : DiskId;
  pd_node_id : NodeId;
  pd_capacity_bytes : N;
  pd_used_bytes : N;
  pd_state : DiskState;
}.

Definition free_bytes (d : PlacementDisk) : N := sat_sub (pd_capacity_bytes d) (pd_used_bytes d).

Record ExtentPlacement := MkExtentPlacement {
  ep_extent_id : ExtentId;
  ep_primary_disk : DiskId;
  ep_replica_disks : list DiskId;
  ep_fragment_disks : list DiskId;
}.

Inductive PlacementError :=
  | InsufficientNodes (required available : nat)
  | InsufficientDisks (required available : nat)
  | NoHealthyDisks
  | InvalidPolicy (msg : string).

Record PlacementVolumeInfo := MkPlacementVolumeInfo {
  pv_size_bytes : N;
  pv_protection : ProtectionPolicy;
  pv_extent_size_bytes : N;
}.

Definition DEFAULT_EXTENT_SIZE : N := 64 * 1024 * 1024.

(** [node_disks.entry(id).or_default().push(disk)] for each disk of a known node. *)
Definition group_disks (nodes : list NodeId) (disks : list PlacementDisk)
    : gmap NodeId (list PlacementDisk) :=
  foldl (λ m d,
    if decide (pd_node_id d ∈ nodes)
    then <[pd_node_id d := default [] (m !! pd_node_id d) ++ [d]]> m else m) ∅ disks.

(** [sort_by_key(|d| Reverse(d.free_bytes()))]: descending, stable. *)
Definition sort_by_free (disks : list PlacementDisk) : list PlacementDisk :=
  sort_by_key (λ d, u64_max - free_bytes d) disks.

(** [iter().map(free_bytes).sum()], wrapping. *)
Definition total_free (disks : list PlacementDisk) : N :=
  foldl (λ acc d, u64_add acc (free_bytes d)) 0 disks.

(** The nodes that have disks, by total free space, descending; ties in the
    iteration order of the hash map. *)
Definition sort_nodes `{!HashIter NodeId} (node_disks : gmap NodeId (list PlacementDisk))
    : list (NodeId * N) :=
  sort_by_key (λ nf, u64_max - nf.2)
    ((λ n, (n, total_free (default [] (node_disks !! n)))) <$> hash_keys node_disks).

(** The disk the [j]-th copy of extent [i] goes to. *)
Definition pick_disk (sorted_nodes : list (NodeId * N)) (node_disks : gmap NodeId (list PlacementDisk))
    (i j : nat) : exec DiskId :=
  let available_nodes := length sorted_nodes in
  let start_offset := (i `mod` available_nodes)%nat in
  let node_idx := ((start_offset + j) `mod` available_nodes)%nat in
  '(node_id, _) ← expect (sorted_nodes !! node_idx);
  node_disk_list ← expect (node_disks !! (node_id : NodeId));
  let disk_idx := ((i `div` available_nodes) `mod` length node_disk_list)%nat in
  d ← expect (node_disk_list !! disk_idx);
  Return (pd_disk_id d).

(** Run a fallible step for each element, in order. *)
Fixpoint exec_map {A B} (f : A → exec B) (l : list A) : exec (list B) :=
  match l with
  | [] => Return []
  | x :: l => y ← f x; ys ← exec_map f l; Return (y :: ys)
  end.

(** One iteration of the two extent loops; [fresh i] is the [i]-th generated id. *)
Definition place_replicated (fresh : nat → ExtentId) (sorted_nodes : list (NodeId * N))
    (node_disks : gmap NodeId (list PlacementDisk)) (required : nat) (i : nat)
    : exec ExtentPlacement :=
  selected_disks ← exec_map (pick_disk sorted_nodes node_disks i) (seq 0 required);
  primary ← expect (selected_disks !! 0%nat);
  Return (MkExtentPlacement (fresh i) primary (drop 1 selected_disks) []).

Definition place_fragments (fresh : nat → ExtentId) (sorted_nodes : list (NodeId * N))
    (node_disks : gmap NodeId (list PlacementDisk)) (total : nat) (i : nat)
    : exec ExtentPlacement :=
  fragment_disks ← exec_map (pick_disk sorted_nodes node_disks i) (seq 0 total);
  primary ← expect (fragment_disks !! 0%nat);
  Return (MkExtentPlacement (fresh i) primary [] fragment_disks).

(** [size_bytes.div_ceil(extent_size)], which panics on a zero divisor. *)
Definition count_extents (volume : PlacementVolumeInfo) : exec nat :=
  if decide (pv_size_bytes volume = 0) then Return 0%nat
  else if decide (pv_extent_size_bytes volume = 0) then Panic
  else Return (N.to_nat (div_ceil (pv_size_bytes volume) (pv_extent_size_bytes volume))).

Definition place_volume `{!HashIter NodeId} (fresh : nat → ExtentId) (volume : PlacementVolumeInfo)
    (disks : list PlacementDisk) (nodes : list NodeId)
    : exec (result PlacementError (list ExtentPlacement)) :=
  match ProtectionPolicy_validate (pv_protection volume) with
  | Err e => Return (Err (InvalidPolicy (to_string e)))
  | Ok _ =>
      let allocatable_disks := filter (λ d, allows_allocation (pd_state d) = true) disks in
      if decide (length allocatable_disks = 0%nat) then Return (Err NoHealthyDisks) else
      let node_disks := sort_by_free <$> group_disks nodes allocatable_disks in
      let sorted_nodes := sort_nodes node_disks in
      let available_nodes := length sorted_nodes in
      num_extents ← count_extents volume;
      match pv_protection volume with
      | Replicated replicas =>
          let required := N.to_nat replicas in
          if decide (available_nodes < required)%nat
          then Return (Err (InsufficientNodes required available_nodes))
          else
            placements ← exec_map (place_replicated fresh sorted_nodes node_disks required)
                           (seq 0 num_extents);
            Return (Ok placements)
      | ErasureCoded data_chunks parity_chunks =>
          let total := N.to_nat (u8_add data_chunks parity_chunks) in
          if decide (available_nodes < total)%nat
          then Return (Err (InsufficientNodes total available_nodes))
          else
            placements ← exec_map (place_fragments fresh sorted_nodes node_disks total)
                           (seq 0 num_extents);
            Return (Ok placements)
      end
  end.

(** ** Lemmas *)

Lemma sort_by_key_fmap {A B} (key : B → N) (f : A → B) (l : list A) :
  sort_by_key key (f <$> l) = f <$> sort_by_key (λ x, key (f x)) l.
Proof.
  induction l as [|x l IH]; [done|].
  change (insert_by_key key (f x) (sort_by_key key (f <$> l)) =
    f <$> insert_by_key (λ x, key (f x)) x (sort_by_key (λ x, key (f x)) l)).
  rewrite IH. clear IH. induction (sort_by_key (λ x, key (f x)) l) as [|y l' IH]; csimpl; [done|].
  case_decide; [done|]. by rewrite IH.
Qed.

Lemma take_filter_subset {A} (P : A → Prop) `{!∀ x, Decision (P x)} n (l : list A) x :
  x ∈ take n l → P x → x ∈ take n (filter P l).
Proof.
  revert n. induction l as [|y l IH]; intros [|n]; simpl; try set_solver.
  intros [->|Hx]%elem_of_cons HP.
  - rewrite filter_cons_True by done. simpl. set_solver.
  - rewrite filter_cons. case_decide; simpl; [set_solver|].
    specialize (IH n Hx HP). clear -IH. revert IH. generalize (filter P l) as l'.
    intros l' Hin. apply list_elem_of_lookup in Hin as [i Hi].
    apply lookup_take_Some in Hi as [Hi Hlt]. apply list_elem_of_lookup. exists i.
    apply lookup_take_Some. split; [done|lia].
Qed.

Section deterministic_lemmas.
Context `{!Blake3}.

Lemma select_nodes_sorted v b nodes count :
  (count < length nodes)%nat →
  select_nodes v b nodes count = take count (sort_by_key (placement_score v b) nodes).
Proof.
  intros Hlt. unfold select_nodes. rewrite decide_False by lia.
  rewrite sort_by_key_fmap. simpl. rewrite <-fmap_take, <-list_fmap_compose.
  etrans; [by apply (list_fmap_ext _ id)|]. apply list_fmap_id.
Qed.

Lemma select_nodes_subset v b nodes count n : n ∈ select_nodes v b nodes count → n ∈ nodes.
Proof.
  destruct (decide (length nodes ≤ count)%nat) as [Hle|Hlt].
  - unfold select_nodes. by rewrite decide_True.
  - rewrite select_nodes_sorted by lia. intros Hn%elem_of_take.
    destruct Hn as (i & Hi & _). apply list_elem_of_lookup_2 in Hi.
    by rewrite sort_by_key_perm in Hi.
Qed.

Lemma length_select_nodes v b nodes count :
  length (select_nodes v b nodes count) = (count `min` length nodes)%nat.
Proof.
  destruct (decide (length nodes ≤ count)%nat).
  - unfold select_nodes. rewrite decide_True by done. lia.
  - rewrite select_nodes_sorted, length_take, sort_by_key_perm by lia. lia.
Qed.

Lemma select_nodes_NoDup v b nodes count : NoDup nodes → NoDup (select_nodes v b nodes count).
Proof.
  intros Hnd. destruct (decide (length nodes ≤ count)%nat).
  - unfold select_nodes. by rewrite decide_True.
  - rewrite select_nodes_sorted by lia.
    assert (NoDup (sort_by_key (placement_score v b) nodes)) as Hs by by rewrite sort_by_key_perm.
    rewrite <-(take_drop count (sort_by_key _ nodes)) in Hs. by apply NoDup_app in Hs as [? _].
Qed.

End deterministic_lemmas.

(** *** The volume placement *)

Lemma exec_map_Forall2 {A B} (f : A → exec B) (Q : A → B → Prop) l :
  (∀ x, x ∈ l → ∃ y, f x = Return y ∧ Q x y) →
  ∃ ys, exec_map f l = Return ys ∧ Forall2 Q l ys.
Proof.
  induction l as [|x l IH]; intros Hf; simpl; [eauto|].
  destruct (Hf x) as (y & -> & HQ); [set_solver|]. simpl.
  destruct IH as (ys & -> & HQs); [set_solver|]. simpl. eauto.
Qed.

(** The loop over extents, when every iteration succeeds. *)
Lemma exec_map_extents (f : nat → exec ExtentPlacement) (Q : ExtentPlacement → Prop) num :
  (∀ i, ∃ e, f i = Return e ∧ Q e) →
  ∃ r, (placements ← exec_map f (seq 0 num); Return (Ok (E:=PlacementError) placements)) = Return r ∧
    ∀ placements, r = Ok placements → length placements = num ∧ Forall Q placements.
Proof.
  intros Hf. destruct (exec_map_Forall2 f (λ _, Q) (seq 0 num)) as (ys & -> & HF); [naive_solver|].
  simpl. exists (Ok ys). split; [done|]. intros ? [= <-].
  pose proof (Forall2_length _ _ _ HF) as Hlen. rewrite length_seq in Hlen. split; [done|].
  apply Forall_lookup. intros k e He.
  by destruct (Forall2_lookup_r _ _ _ _ _ HF He) as (? & _ & ?).
Qed.

Lemma alloc_disks (nodes : list NodeId) (disks chosen : list PlacementDisk) :
  Forall (λ d, d ∈ filter (λ d, allows_allocation (pd_state d) = true) disks ∧ pd_node_id d ∈ nodes)
    chosen →
  Forall (λ d, d ∈ disks ∧ allows_allocation (pd_state d) = true ∧ pd_node_id d ∈ nodes) chosen.
Proof. intros Hall. eapply Forall_impl; [exact Hall|]. intros d [[??]%list_elem_of_filter ?]. done. Qed.

(** What [group_disks] collects for each node. *)
Definition grouped (nodes : list NodeId) (disks : list PlacementDisk)
    (m : gmap NodeId (list PlacementDisk)) : Prop :=
  ∀ n ds, m !! n = Some ds → ds ≠ [] ∧
    Forall (λ d, d ∈ disks ∧ pd_node_id d = n ∧ n ∈ nodes) ds.

Lemma group_disks_grouped nodes disks : grouped nodes disks (group_disks nodes disks).
Proof.
  unfold group_disks. induction disks as [|d disks IH] using rev_ind; [by intros n ds|].
  rewrite foldl_app. simpl. set (m := foldl _ _ _) in *.
  assert (grouped nodes (disks ++ [d]) m) as IH'.
  { intros n ds [? Hall]%IH. split; [done|]. eapply Forall_impl; [done|]. set_solver. }
  case_decide as Hd; [|done]. intros n ds [[<- <-]|[_ ?]]%lookup_insert_Some; [|by apply IH'].
  split; [by destruct (default [] _)|]. apply Forall_app. split.
  - destruct (m !! pd_node_id d) as [ds|] eqn:Hm; simpl; [|constructor]. by apply IH' in Hm as [_ ?].
  - constructor; [set_solver|constructor].
Qed.

Lemma grouped_sorted nodes disks m : grouped nodes disks m → grouped nodes disks (sort_by_free <$> m).
Proof.
  intros Hg n ds. rewrite lookup_fmap. intros (ds' & [Hne Hall]%Hg & ->)%fmap_Some.
  unfold sort_by_free. split; [|by rewrite sort_by_key_perm].
  intros Hnil. apply Hne, Permutation_nil. by rewrite <-Hnil, sort_by_key_perm.
Qed.

Section volume_lemmas.
Context `{!HashIter NodeId}.

Lemma sort_nodes_keys m : (sort_nodes m).*1 ≡ₚ (map_to_list m).*1.
Proof.
  unfold sort_nodes. rewrite sort_by_key_perm, <-list_fmap_compose.
  etrans; [|apply hash_keys_perm]. apply reflexive_eq.
  etrans; [by apply (list_fmap_ext _ id)|]. apply list_fmap_id.
Qed.

Lemma pick_disk_spec nodes disks m i j :
  grouped nodes disks m → sort_nodes m ≠ [] →
  ∃ d, pick_disk (sort_nodes m) m i j = Return (pd_disk_id d) ∧ d ∈ disks ∧ pd_node_id d ∈ nodes ∧
    (sort_nodes m).*1 !!
      ((i `mod` length (sort_nodes m) + j) `mod` length (sort_nodes m))%nat = Some (pd_node_id d).
Proof.
  intros Hg Hne. unfold pick_disk. set (l := sort_nodes m) in *.
  assert (0 < length l)%nat as Hlen by (destruct l; simpl; [done|lia]).
  set (k := ((i `mod` length l + j) `mod` length l)%nat).
  assert (k < length l)%nat as Hk by (apply Nat.mod_upper_bound; lia).
  apply lookup_lt_is_Some in Hk as [[n f] Hn]. rewrite Hn. simpl.
  assert (is_Some (m !! n)) as [ds Hds].
  { assert (n ∈ l.*1) as Hin by (apply list_elem_of_fmap; exists (n, f); split; [done|];
      by eapply list_elem_of_lookup_2).
    unfold l in Hin. rewrite sort_nodes_keys in Hin.
    apply list_elem_of_fmap in Hin as ([n' ds] & -> & Hin%elem_of_map_to_list). eauto. }
  rewrite Hds. simpl. destruct (Hg _ _ Hds) as [Hdne Hall].
  assert (((i `div` length l) `mod` length ds)%nat < length ds)%nat as Hlt
    by (apply Nat.mod_upper_bound; by destruct ds).
  apply lookup_lt_is_Some in Hlt as [d Hd]. rewrite Hd. simpl.
  rewrite Forall_lookup in Hall. destruct (Hall _ _ Hd) as (? & Hdn & ?).
  exists d. split_and!; [done|done|by rewrite Hdn|]. rewrite list_lookup_fmap, Hn, Hdn. done.
Qed.

(** Consecutive positions around a ring of [n] are distinct, up to [n] of them. *)
Lemma ring_inj (n s j1 j2 : nat) :
  (j1 < n → j2 < n → (s + j1) `mod` n = (s + j2) `mod` n → j1 = j2)%nat.
Proof.
  intros H1 H2 Heq.
  pose proof (Nat.div_mod_eq (s + j1) n). pose proof (Nat.div_mod_eq (s + j2) n).
  assert ((s + j1) / n = (s + j2) / n ∨ (s + j1) / n + 1 = (s + j2) / n ∨
          (s + j2) / n + 1 = (s + j1) / n)%nat as [?|[?|?]] by nia; nia.
Qed.

(** The copies of one extent: as many as required, on distinct nodes. *)
Lemma pick_disks_spec nodes disks m required i :
  grouped nodes disks m → (0 < required ≤ length (sort_nodes m))%nat →
  ∃ ds, exec_map (pick_disk (sort_nodes m) m i) (seq 0 required) = Return (pd_disk_id <$> ds) ∧
    length ds = required ∧ NoDup (pd_node_id <$> ds) ∧
    Forall (λ d, d ∈ disks ∧ pd_node_id d ∈ nodes) ds.
Proof.
  intros Hg [Hpos Hle]. set (l := sort_nodes m) in *.
  assert (l ≠ []) as Hne by (destruct l; simpl in *; [lia|done]).
  destruct (exec_map_Forall2 (pick_disk l m i)
    (λ j did, ∃ d, did = pd_disk_id d ∧ d ∈ disks ∧ pd_node_id d ∈ nodes ∧
       l.*1 !! ((i `mod` length l + j) `mod` length l)%nat = Some (pd_node_id d)) (seq 0 required))
    as (ys & Hys & HF).
  { intros j _. destruct (pick_disk_spec nodes disks m i j Hg Hne) as (d & Hd & ? & ? & ?).
    exists (pd_disk_id d). split; [done|]. by exists d. }
  assert (∃ ds, ys = pd_disk_id <$> ds ∧
    Forall2 (λ j d, d ∈ disks ∧ pd_node_id d ∈ nodes ∧
       l.*1 !! ((i `mod` length l + j) `mod` length l)%nat = Some (pd_node_id d)) (seq 0 required) ds)
    as (ds & -> & HF').
  { clear Hys. induction HF as [|j y js ys (d & -> & ?) HF IH]; [by exists []|].
    destruct IH as (ds & -> & ?). exists (d :: ds). split; [done|]. by constructor. }
  exists ds. pose proof (Forall2_length _ _ _ HF') as Hlen. rewrite length_seq in Hlen.
  split_and!; [done|done| |].
  - apply NoDup_alt. intros j1 j2 n. rewrite !list_lookup_fmap.
    intros (d1 & Hd1 & ->)%fmap_Some (d2 & Hd2 & Heq)%fmap_Some.
    destruct (Forall2_lookup_r _ _ _ _ _ HF' Hd1) as (k1 & Hk1 & _ & _ & Hl1).
    destruct (Forall2_lookup_r _ _ _ _ _ HF' Hd2) as (k2 & Hk2 & _ & _ & Hl2).
    apply lookup_seq in Hk1 as [-> ?], Hk2 as [-> ?].
    rewrite Heq in Hl1. apply (ring_inj (length l) (i `mod` length l)); [lia..|].
    eapply NoDup_lookup; [|done..]. unfold l. rewrite sort_nodes_keys. apply NoDup_fst_map_to_list.
  - apply Forall_lookup. intros j d Hd.
    destruct (Forall2_lookup_r _ _ _ _ _ HF' Hd) as (k & _ & ? & ? & _). done.
Qed.

End volume_lemmas.

(** ** Theorems *)

Section theorems.

(** Rendezvous placement, whatever the hash: the nodes selected are distinct
    available nodes, as many as asked for or all of them; they do not depend on
    the order in which the nodes are listed, if there are more nodes than asked
    for and no two have the same score; and a node that disappears takes no other
    node out of the selection. *)
Theorem select_nodes_rendezvous `{!Blake3} v b nodes count :
  NoDup nodes →
  let selected := select_nodes v b nodes count in
  length selected = (count `min` length nodes)%nat ∧ NoDup selected ∧ selected ⊆ nodes ∧
  (∀ nodes', nodes ≡ₚ nodes' → (count < length nodes)%nat →
     (∀ n1 n2, n1 ∈ nodes → n2 ∈ nodes →
        placement_score v b n1 = placement_score v b n2 → n1 = n2) →
     select_nodes v b nodes' count = selected) ∧
  (∀ gone n, n ∈ selected → n ≠ gone →
     n ∈ select_nodes v b (filter (λ n, n ≠ gone) nodes) count).
Proof.
  intros Hnd selected. unfold selected. split_and!.
  - apply length_select_nodes.
  - by apply select_nodes_NoDup.
  - intros n. apply select_nodes_subset.
  - intros nodes' Hp Hlt Hinj. rewrite !select_nodes_sorted by (rewrite <-?Hp; lia).
    f_equal. symmetry. by apply sort_by_key_unique.
  - intros gone n Hn Hne. set (P := λ m, m ≠ gone).
    destruct (decide (length (filter P nodes) ≤ count)%nat).
    + unfold select_nodes at 1. rewrite decide_True by done.
      apply list_elem_of_filter. split; [done|]. by eapply select_nodes_subset.
    + pose proof (length_filter P nodes). rewrite !select_nodes_sorted in * by lia.
      rewrite <-sort_by_key_filter. by apply take_filter_subset.
Qed.

(** Block addresses round trip through extents: the extent number and the
    offset determine the block, and the offset is below the extent's length. *)
Theorem block_to_extent_roundtrip block_num extent_blocks :
  let '(extent_num, offset) := block_to_extent block_num extent_blocks in
  block_num = extent_num * N.max extent_blocks 1 + offset ∧ offset < N.max extent_blocks 1.
Proof.
  simpl. pose proof (N.div_mod block_num (N.max extent_blocks 1) ltac:(lia)).
  split; [lia|]. apply N.mod_upper_bound. lia.
Qed.

(** The disks an extent's copies or fragments are on. *)
Definition extent_disks (p : ProtectionPolicy) (e : ExtentPlacement) : list DiskId :=
  match p with
  | Replicated _ => ep_primary_disk e :: ep_replica_disks e
  | ErasureCoded _ _ => ep_fragment_disks e
  end.

(** The number of copies or fragments of a policy, as the placement counts them. *)
Definition copies (p : ProtectionPolicy) : nat :=
  match p with
  | Replicated replicas => N.to_nat replicas
  | ErasureCoded data_chunks parity_chunks => N.to_nat (u8_add data_chunks parity_chunks)
  end.

(** Placing a volume never panics, for a nonzero extent size and a number of
    fragments that fits a u8; when it succeeds there is one placement per extent,
    and the copies or fragments of each extent, as many as the policy requires,
    are on disks that accept allocations, of pairwise distinct nodes among those
    given, whatever the iteration order of the hash map. *)
Theorem place_volume_spreads `{!HashIter NodeId} fresh volume disks nodes :
  pv_extent_size_bytes volume ≠ 0 →
  (match pv_protection volume with ErasureCoded d m => d + m ≤ u8_max | _ => True end) →
  ∃ r, place_volume fresh volume disks nodes = Return r ∧
  ∀ placements, r = Ok placements →
    length placements = N.to_nat (div_ceil (pv_size_bytes volume) (pv_extent_size_bytes volume)) ∧
    Forall (λ e, ∃ chosen,
      extent_disks (pv_protection volume) e = pd_disk_id <$> chosen ∧
      length chosen = copies (pv_protection volume) ∧
      NoDup (pd_node_id <$> chosen) ∧
      Forall (λ d, d ∈ disks ∧ allows_allocation (pd_state d) = true ∧ pd_node_id d ∈ nodes) chosen)
    placements.
Proof.
  intros Hsz Hu8. unfold place_volume.
  destruct (ProtectionPolicy_validate (pv_protection volume)) as [[]|] eqn:Hval; [|by eexists].
  set (alloc := filter _ disks). case_decide; [by eexists|].
  set (m := sort_by_free <$> group_disks nodes alloc).
  assert (grouped nodes alloc m) as Hg by apply grouped_sorted, group_disks_grouped.
  assert (count_extents volume =
    Return (N.to_nat (div_ceil (pv_size_bytes volume) (pv_extent_size_bytes volume)))) as ->.
  { unfold count_extents. case_decide as H0; [|by rewrite decide_False]. rewrite H0.
    unfold div_ceil. rewrite N.Div0.mod_0_l, N.Div0.div_0_l. done. }
  simpl. set (num := N.to_nat _).
  destruct (pv_protection volume) as [replicas|d p]; simpl in Hval.
  - assert (1 ≤ replicas) by (destruct (decide (replicas < 1)); [done|lia]).
    destruct (decide (length (sort_nodes m) < N.to_nat replicas)%nat); [by eexists|].
    apply exec_map_extents. intros i.
    destruct (pick_disks_spec nodes alloc m (N.to_nat replicas) i Hg) as (chosen & Hc & Hlen & ? & Hall);
      [lia|]. apply alloc_disks in Hall.
    unfold place_replicated. rewrite Hc. simpl.
    destruct chosen as [|c chosen]; [simpl in Hlen; lia|].
    eexists. split; [done|]. by exists (c :: chosen).
  - assert (u8_add d p = d + p) as Hadd by (apply N.mod_small; unfold u8_max in Hu8; lia).
    assert (1 ≤ d) by (destruct (decide (d < 1)); [done|lia]).
    destruct (decide (length (sort_nodes m) < N.to_nat (u8_add d p))%nat); [by eexists|].
    apply exec_map_extents. intros i.
    destruct (pick_disks_spec nodes alloc m (N.to_nat (u8_add d p)) i Hg)
      as (chosen & Hc & Hlen & ? & Hall); [lia|]. apply alloc_disks in Hall.
    unfold place_fragments. rewrite Hc. simpl.
    destruct chosen as [|c chosen]; [simpl in Hlen; lia|].
    eexists. split; [done|]. by exists (c :: chosen).
Qed.

End theorems.

(** ** Witnesses *)

Module PlacementDemo.

(** A toy hash: the reversed input, cut to 32 bytes. *)
#[export] Instance blake3_toy : Blake3 := λ bs, take 32 (reverse bs).

#[export] Existing Instance uuid_decimal.

Definition node_iter : HashIter NodeId := hash_iter_default NodeId.
#[export] Existing Instance node_iter.

Definition disk (d n used : N) : PlacementDisk :=
  MkPlacementDisk (DiskId_new d) (NodeId_new n) 1000 used Healthy.

Definition disks : list PlacementDisk := [disk 1 1 0; disk 2 1 100; disk 3 2 0; disk 4 3 500].
Definition nodes : list NodeId := [NodeId_new 1; NodeId_new 2; NodeId_new 3].
Definition volume : PlacementVolumeInfo := MkPlacementVolumeInfo 300 (Replicated 2) 100.

End PlacementDemo.
Import PlacementDemo.

Lemma select_nodes_rendezvous_witness :
  length (select_nodes (VolumeId_new 7) 5 nodes 2) = 2%nat.
Proof.
  apply (select_nodes_rendezvous (VolumeId_new 7) 5 nodes 2).
  apply (bool_decide_unpack _). vm_compute. exact I.
Defined.

Lemma place_volume_spreads_witness :
  ∃ placements, place_volume (λ i, ExtentId_new (N.of_nat i)) volume disks nodes = Return (Ok placements) ∧
    length placements = 3%nat.
Proof.
  destruct (place_volume_spreads (λ i, ExtentId_new (N.of_nat i)) volume disks nodes) as (r & Hr & Hok);
    [vm_compute; discriminate|exact I|].
  destruct r as [placements|e]; [|vm_compute in Hr; discriminate].
  exists placements. split; [exact Hr|]. apply (Hok placements eq_refl).
Defined.

(** A policy of 128 data and 128 parity fragments validates, its fragment count
    wraps to 0 in a u8, and the placement of a nonempty volume panics. *)
Theorem place_volume_wraps_and_panics :
  ProtectionPolicy_validate (ErasureCoded 128 128) = Ok tt ∧
  place_volume (λ i, ExtentId_new (N.of_nat i))
    (MkPlacementVolumeInfo 300 (ErasureCoded 128 128) 100) disks nodes = Panic.
Proof. split; vm_compute; reflexivity. Qed.
