(* ===== verification/EcCodec.v ===== *)
(** * The erasure codec (crates/blockyard-client/src/ec.rs)

    Splitting data into K shards, padding, and calling the Reed-Solomon coder of
    the reed_solomon_erasure crate, which is a parameter: [ReedSolomon] is its
    constructor, [encode], [reconstruct] and [verify], with the laws its
    documentation states (there is at least one data and one parity shard;
    encoding keeps the data shards and fills the parity
    ones; any K shards of a codeword determine the others). *)

From S2P Require Import Prelude Common Placement.

(** A shard: bytes as numbers below 256. *)
Abbreviation shard := (list N) (only parsing).

(** All shards have the length [n]. *)
Definition same_length (n : nat) (shards : list shard) : Prop := Forall (λ s, length s = n) shards.

(** [known] agrees with the codeword [full] where it has a shard. *)
Definition agrees (known : list (option shard)) (full : list shard) : Prop :=
  Forall2 (λ o s, o = None ∨ o = Some s) known full.

Class ReedSolomon := {
  rs_new : nat → nat → bool;
  rs_new_error : nat → nat → string;
  rs_encode : nat → nat → list shard → result string (list shard);
  rs_reconstruct : nat → nat → list (option shard) → result string (list (option shard));
  rs_verify : nat → nat → list shard → result string bool;
  rs_new_pos : ∀ k m, rs_new k m = true → (0 < k ∧ 0 < m)%nat;
  rs_encode_ok : ∀ k m n shards,
    rs_new k m = true → (0 < n)%nat → length shards = (k + m)%nat → same_length n shards →
    ∃ full, rs_encode k m shards = Ok full ∧ length full = (k + m)%nat ∧ same_length n full ∧
      take k full = take k shards;
  rs_reconstruct_ok : ∀ k m n shards full known,
    rs_new k m = true → (0 < n)%nat → length shards = (k + m)%nat → same_length n shards →
    rs_encode k m shards = Ok full → agrees known full →
    (k ≤ length (filter is_Some known))%nat →
    rs_reconstruct k m known = Ok (Some <$> full);
  rs_verify_ok : ∀ k m n shards full,
    rs_new k m = true → (0 < n)%nat → length shards = (k + m)%nat → same_length n shards →
    rs_encode k m shards = Ok full → rs_verify k m full = Ok true;
}.

(** ** The codec *)

Inductive EcError :=
  | InvalidParameters (data_count parity_count : nat)
  | EncodeFailed (msg : string)
  | DecodeFailed (msg : string)
  | InsufficientFragments (available required : nat).

Record Fragment := MkFragment {
  frag_index : nat;
  frag_is_data : bool;
  frag_data : shard;
}.

Record ErasureCodec := MkErasureCodec {
  ec_data_count : nat;
  ec_parity_count : nat;
}.

Section codec.
Context `{!ReedSolomon}.
Implicit Types c : ErasureCodec.

Definition ErasureCodec_new (data_count parity_count : nat) : result EcError ErasureCodec :=
  if decide (data_count = 0 ∨ parity_count = 0)%nat
  then Err (InvalidParameters data_count parity_count)
  else if rs_new data_count parity_count then Ok (MkErasureCodec data_count parity_count)
  else Err (InvalidParameters data_count parity_count).

Definition total_count c : nat := (ec_data_count c + ec_parity_count c)%nat.

(** [data_len.div_ceil(self.data_count)] *)
Definition fragment_size c (data_len : nat) : nat :=
  N.to_nat (div_ceil (N.of_nat data_len) (N.of_nat (ec_data_count c))).

(** One iteration of the loop that cuts the data: a zeroed shard, with the slice
    of the data that falls in it copied over its beginning. *)
Definition cut_shard (frag_size : nat) (data : list N) (i : nat) : shard :=
  let start := (i * frag_size)%nat in
  let end_ := ((start + frag_size) `min` length data)%nat in
  let shard := replicate frag_size 0%N in
  if decide (start < length data)%nat then
    let copy_len := (end_ - start)%nat in
    take copy_len (drop start data) ++ drop copy_len shard
  else shard.

Definition ec_encode c (data : list N) : result EcError (list Fragment) :=
  if decide (length data = 0%nat) then Err (EncodeFailed "empty input data") else
  let frag_size := fragment_size c (length data) in
  let shards := (cut_shard frag_size data <$> seq 0 (ec_data_count c))
                  ++ replicate (ec_parity_count c) (replicate frag_size 0%N) in
  match rs_encode (ec_data_count c) (ec_parity_count c) shards with
  | Err e => Err (EncodeFailed e)
  | Ok shards =>
      Ok (imap (λ i s, MkFragment i (bool_decide (i < ec_data_count c)%nat) s) shards)
  end.

(** The loop that concatenates the data shards. *)
Fixpoint collect_shards (shards : list (option shard)) : result EcError (list N) :=
  match shards with
  | [] => Ok []
  | Some data :: shards => rest ← collect_shards shards; Ok (data ++ rest)
  | None :: _ => Err (DecodeFailed "reconstruction did not restore all data shards")
  end.

Definition ec_decode c (fragments : list (option Fragment)) (original_len : nat)
    : result EcError (list N) :=
  if decide (length fragments = total_count c) then
    let available := length (filter is_Some fragments) in
    if decide (available < ec_data_count c)%nat
    then Err (InsufficientFragments available (ec_data_count c))
    else
      let shards := (λ o : option Fragment, frag_data <$> o) <$> fragments in
      match rs_reconstruct (ec_data_count c) (ec_parity_count c) shards with
      | Err e => Err (DecodeFailed e)
      | Ok shards =>
          result ← collect_shards (take (ec_data_count c) shards);
          Ok (take original_len result)
      end
  else Err (DecodeFailed ("expected " +:+ u64_to_string (N.of_nat (total_count c)) +:+ " fragments, got "
                            +:+ u64_to_string (N.of_nat (length fragments)))).

Definition ec_verify c (fragments : list Fragment) : result EcError bool :=
  if decide (length fragments = total_count c) then
    match rs_verify (ec_data_count c) (ec_parity_count c) (frag_data <$> fragments) with
    | Ok b => Ok b
    | Err e => Err (DecodeFailed e)
    end
  else Err (DecodeFailed ("expected " +:+ u64_to_string (N.of_nat (total_count c))
                            +:+ " fragments for verify, got "
                            +:+ u64_to_string (N.of_nat (length fragments)))).

End codec.

(** ** Lemmas on the cutting *)

Lemma cut_shard_length fs data i : length (cut_shard fs data i) = fs.
Proof.
  unfold cut_shard. case_decide; [|by rewrite length_replicate].
  rewrite length_app, length_take, length_drop, length_drop, length_replicate. lia.
Qed.

Lemma cut_shard_S fs data i : cut_shard fs data (S i) = cut_shard fs (drop fs data) i.
Proof.
  unfold cut_shard. rewrite length_drop, drop_drop.
  replace (fs + i * fs)%nat with (S i * fs)%nat by lia.
  destruct (decide (S i * fs < length data)%nat), (decide (i * fs < length data - fs)%nat);
    try lia; [|done].
  replace ((S i * fs + fs) `min` length data - S i * fs)%nat
    with ((i * fs + fs) `min` (length data - fs) - i * fs)%nat by lia.
  done.
Qed.

Lemma cut_shard_0_long fs data : (fs ≤ length data)%nat → cut_shard fs data 0 = take fs data.
Proof.
  intros Hle. unfold cut_shard. simpl. case_decide as Hd.
  - rewrite drop_0, drop_ge by (rewrite length_replicate; lia).
    rewrite app_nil_r. f_equal. lia.
  - assert (fs = 0)%nat as -> by lia. by rewrite take_0.
Qed.

Lemma cut_shard_0_short fs data :
  (length data ≤ fs)%nat → ∃ pad, cut_shard fs data 0 = data ++ pad.
Proof.
  intros Hle. unfold cut_shard. simpl. case_decide as Hd.
  - rewrite drop_0. replace (fs `min` length data - 0)%nat with (length data) by lia.
    rewrite take_ge by lia. eauto.
  - destruct data; simpl in *; [|lia]. eauto.
Qed.

(** Cutting and gluing is the identity, up to padding. *)
Lemma cut_shards_concat k fs data :
  (length data ≤ k * fs)%nat →
  take (length data) (concat (cut_shard fs data <$> seq 0 k)) = data.
Proof.
  revert data. induction k as [|k IH]; intros data Hle; simpl in Hle.
  { destruct data; [done|simpl in Hle; lia]. }
  cbn [seq]. rewrite <-seq_shift. csimpl. rewrite <-list_fmap_compose.
  assert ((cut_shard fs data ∘ S) <$> seq 0 k = cut_shard fs (drop fs data) <$> seq 0 k) as ->.
  { apply list_fmap_ext. intros j i _. apply cut_shard_S. }
  destruct (decide (fs ≤ length data)%nat).
  - rewrite cut_shard_0_long by done. rewrite take_app, take_take, length_take.
    replace (length data - fs `min` length data)%nat with (length (drop fs data))
      by (rewrite length_drop; lia).
    rewrite IH by (rewrite length_drop; lia).
    replace (length data `min` fs)%nat with fs by lia. apply take_drop.
  - destruct (cut_shard_0_short fs data) as [pad ->]; [lia|].
    rewrite <-app_assoc. apply take_app_length.
Qed.

Lemma collect_shards_Some (shards : list shard) : collect_shards (Some <$> shards) = Ok (concat shards).
Proof. induction shards as [|s shards IH]; csimpl; [done|]. by rewrite IH. Qed.

Lemma imap_frag_data {B} (f : nat → list N → B) (g : B → list N) shards :
  (∀ i s, g (f i s) = s) → g <$> imap f shards = shards.
Proof.
  intros Hg. revert f Hg. induction shards as [|s shards IH]; intros f Hg; csimpl; [done|].
  by rewrite Hg, IH by (intros; apply Hg).
Qed.

(** ** Theorems *)

Section theorems.
Context `{!ReedSolomon}.

(** What is left of the fragments when those with a false mark are lost. *)
Definition surviving (mask : list bool) (frags : list Fragment) : list (option Fragment) :=
  zip_with (λ (b : bool) f, if b then Some f else None) mask frags.

Lemma surviving_agrees mask frags :
  length mask = length frags →
  agrees ((λ o : option Fragment, frag_data <$> o) <$> surviving mask frags) (frag_data <$> frags).
Proof.
  unfold agrees, surviving. revert mask.
  induction frags as [|f frags IH]; intros [|b mask] Hlen; csimpl in *; simplify_eq; constructor.
  - destruct b; auto.
  - by apply IH.
Qed.

Lemma filter_is_Some_frag_data (l : list (option Fragment)) :
  length (filter is_Some ((λ o : option Fragment, frag_data <$> o) <$> l)) = length (filter is_Some l).
Proof.
  induction l as [|[f|] l IH]; [done|..]; rewrite fmap_cons.
  - rewrite !filter_cons_True by eauto. cbn [length]. by rewrite IH.
  - rewrite !filter_cons_False by (by intros []). done.
Qed.

Lemma length_filter_surviving mask frags :
  length mask = length frags →
  length (filter is_Some (surviving mask frags)) = length (filter (λ b, b = true) mask).
Proof.
  unfold surviving. revert mask.
  induction frags as [|f frags IH]; intros [|[|] mask] Hlen; try done; injection Hlen as Hlen;
    cbn [zip_with].
  - rewrite !filter_cons_True by eauto. cbn [length]. by rewrite IH.
  - rewrite filter_cons_False by (by intros []). rewrite filter_cons_False by done. by apply IH.
Qed.

(** The shards the encoder hands to the coder. *)
Definition input_shards (c : ErasureCodec) (data : list N) : list shard :=
  (cut_shard (fragment_size c (length data)) data <$> seq 0 (ec_data_count c))
    ++ replicate (ec_parity_count c) (replicate (fragment_size c (length data)) 0%N).

Lemma input_shards_shape c (data : list N) :
  length (input_shards c data) = total_count c ∧
  same_length (fragment_size c (length data)) (input_shards c data) ∧
  take (ec_data_count c) (input_shards c data) =
    cut_shard (fragment_size c (length data)) data <$> seq 0 (ec_data_count c).
Proof.
  unfold input_shards, total_count, same_length. split_and!.
  - by rewrite length_app, length_fmap, length_seq, length_replicate.
  - apply Forall_app. split.
    + apply Forall_fmap, Forall_true. intros i. apply cut_shard_length.
    + apply Forall_replicate, length_replicate.
  - apply take_app_length'. by rewrite length_fmap, length_seq.
Qed.

Lemma fragment_size_enough c (data : list N) :
  (0 < ec_data_count c)%nat → (0 < length data)%nat →
  (length data ≤ ec_data_count c * fragment_size c (length data))%nat ∧
  (0 < fragment_size c (length data))%nat.
Proof.
  intros Hk Hd. unfold fragment_size.
  destruct (div_ceil_bounds (N.of_nat (length data)) (N.of_nat (ec_data_count c))) as [Hlo _]; [lia|].
  set (q := div_ceil _ _) in *. split; [nia|]. destruct q; [lia|lia].
Qed.

(** The fragments are the coder's codeword. *)
Lemma ec_encode_full k m data frags :
  ec_encode (MkErasureCodec k m) data = Ok frags →
  rs_encode k m (input_shards (MkErasureCodec k m) data) = Ok (frag_data <$> frags).
Proof.
  unfold ec_encode. case_decide; [done|].
  change (match rs_encode k m (input_shards (MkErasureCodec k m) data) with
    | Err e => Err (EncodeFailed e) | Ok shards => Ok (imap (λ i s, MkFragment i
       (bool_decide (i < k)%nat) s) shards) end = Ok frags →
    rs_encode k m (input_shards (MkErasureCodec k m) data) = Ok (frag_data <$> frags)).
  destruct (rs_encode k m _) as [full|]; [|done]. intros [= <-]. by rewrite imap_frag_data.
Qed.

(** Encoding nonempty data succeeds, with fragments of equal size. *)
Lemma ec_encode_ok k m data :
  rs_new k m = true → data ≠ [] →
  let c := MkErasureCodec k m in
  ∃ frags, ec_encode c data = Ok frags ∧ length frags = (k + m)%nat ∧
    Forall (λ f, length (frag_data f) = fragment_size c (length data)) frags.
Proof.
  intros Hnew Hne c. destruct (rs_new_pos k m Hnew) as [Hk Hm].
  assert (0 < length data)%nat as Hpos by (destruct data; simpl; [done|lia]).
  destruct (fragment_size_enough c data) as [_ Hfs]; [simpl; lia|done|].
  destruct (input_shards_shape c data) as (Hlen & Hsame & _).
  destruct (rs_encode_ok k m (fragment_size c (length data)) (input_shards c data))
    as (full & Henc & Hflen & Hfsame & _); [done..|].
  exists (imap (λ i s, MkFragment i (bool_decide (i < k)%nat) s) full). split_and!.
  - unfold ec_encode. rewrite decide_False by lia.
    change (match rs_encode k m (input_shards c data) with
      | Err e => Err (EncodeFailed e) | Ok shards => Ok (imap (λ i s, MkFragment i
         (bool_decide (i < k)%nat) s) shards) end = Ok (imap (λ i s, MkFragment i
         (bool_decide (i < k)%nat) s) full)). by rewrite Henc.
  - by rewrite length_imap.
  - apply (Forall_fmap frag_data (λ s, length s = fragment_size c (length data))).
    by rewrite imap_frag_data.
Qed.

(** Any K shards of the codeword give it back, and the first K are the data. *)
Lemma ec_reconstruct k m data frags known :
  rs_new k m = true → ec_encode (MkErasureCodec k m) data = Ok frags →
  agrees known (frag_data <$> frags) → (k ≤ length (filter is_Some known))%nat →
  ∃ full, rs_reconstruct k m known = Ok (Some <$> full) ∧
    take (length data) (concat (take k full)) = data.
Proof.
  intros Hnew Henc Hag Hcount. set (c := MkErasureCodec k m) in *.
  destruct (rs_new_pos k m Hnew) as [Hk Hm].
  assert (0 < length data)%nat as Hpos by (unfold ec_encode in Henc; case_decide; [done|lia]).
  destruct (fragment_size_enough c data) as [Henough Hfs]; [simpl; lia|done|].
  destruct (input_shards_shape c data) as (Hlen & Hsame & Htake).
  apply ec_encode_full in Henc. exists (frag_data <$> frags). split.
  - by eapply (rs_reconstruct_ok k m (fragment_size c (length data)) (input_shards c data)).
  - destruct (rs_encode_ok k m (fragment_size c (length data)) (input_shards c data))
      as (full & Henc' & _ & _ & Hftake); [done..|].
    fold c in Henc. rewrite Henc in Henc'. injection Henc' as <-.
    rewrite Hftake. change k with (ec_data_count c) at 1. rewrite Htake. by apply cut_shards_concat.
Qed.

(** Any K fragments of the encoding decode to the data. *)
Lemma ec_decode_agrees k m data frags fragments :
  let c := MkErasureCodec k m in
  rs_new k m = true → ec_encode c data = Ok frags → length fragments = (k + m)%nat →
  agrees ((λ o : option Fragment, frag_data <$> o) <$> fragments) (frag_data <$> frags) →
  (k ≤ length (filter is_Some fragments))%nat → ec_decode c fragments (length data) = Ok data.
Proof.
  intros c Hnew Henc Hlen Hag Hcount. unfold ec_decode.
  rewrite decide_True by done. rewrite decide_False by (simpl; lia). simpl ec_data_count. simpl ec_parity_count.
  destruct (ec_reconstruct k m data frags
    ((λ o : option Fragment, frag_data <$> o) <$> fragments)) as (full & -> & Htake); [done..| |].
  - by rewrite filter_is_Some_frag_data.
  - rewrite <-fmap_take, collect_shards_Some. simpl. by rewrite Htake.
Qed.

(** Encoding, and decoding what survives of it. *)
Lemma ec_encode_decode k m data :
  rs_new k m = true → data ≠ [] →
  let c := MkErasureCodec k m in
  ∃ frags, ec_encode c data = Ok frags ∧ length frags = (k + m)%nat ∧
    Forall (λ f, length (frag_data f) = fragment_size c (length data)) frags ∧
    ec_verify c frags = Ok true ∧
    ∀ mask, length mask = (k + m)%nat → (k ≤ length (filter (λ b, b = true) mask))%nat →
      ec_decode c (surviving mask frags) (length data) = Ok data.
Proof.
  intros Hnew Hne c. destruct (ec_encode_ok k m data Hnew Hne) as (frags & Henc & Hfl & Hsz).
  exists frags. split_and!; [done..| |].
  - unfold ec_verify. rewrite decide_True by done.
    destruct (rs_new_pos k m Hnew). destruct (fragment_size_enough c data) as [_ Hfs];
      [simpl; lia|destruct data; simpl; [done|lia]|].
    destruct (input_shards_shape c data) as (Hlen & Hsame & _).
    simpl ec_data_count. simpl ec_parity_count.
    by rewrite (rs_verify_ok k m (fragment_size c (length data)) (input_shards c data))
      by (try done; by apply ec_encode_full).
  - intros mask Hmask Hsurv. apply (ec_decode_agrees k m data frags); [done..| | |].
    + unfold surviving. rewrite length_zip_with_l_eq; [done|]. congruence.
    + apply surviving_agrees. congruence.
    + by rewrite length_filter_surviving by congruence.
Qed.

(** The erasure code round trip: any nonempty data encodes, into K + M
    fragments of equal size with their positions, and whichever fragments are
    lost, as long as K survive, decoding returns the data. *)
Theorem ec_roundtrip k m c data :
  ErasureCodec_new k m = Ok c → data ≠ [] →
  ∃ frags, ec_encode c data = Ok frags ∧ length frags = (k + m)%nat ∧
    Forall (λ f, length (frag_data f) = fragment_size c (length data)) frags ∧
    ec_verify c frags = Ok true ∧
    ∀ mask, length mask = (k + m)%nat → (k ≤ length (filter (λ b, b = true) mask))%nat →
      ec_decode c (surviving mask frags) (length data) = Ok data.
Proof.
  unfold ErasureCodec_new. case_decide as Hkm; [done|].
  destruct (rs_new k m) eqn:Hnew; [|done]. intros [= <-] Hne. by apply ec_encode_decode.
Qed.

End theorems.

(** ** Witness: the code with one data shard, whose parity shards are copies *)

Module EcDemo.

Definition copy_encode (k m : nat) (shards : list (list N)) : result string (list (list N)) :=
  match shards with d :: _ => Ok (replicate (k + m) d) | [] => Err "no shards" end.

Definition copy_reconstruct (k m : nat) (known : list (option (list N)))
    : result string (list (option (list N))) :=
  match list_find is_Some known with
  | Some (_, o) => Ok (replicate (length known) o)
  | None => Err "too few shards"
  end.

Lemma copy_reconstruct_agrees known d n :
  agrees known (replicate n d) → (0 < length (filter is_Some known))%nat →
  copy_reconstruct 1 (n - 1) known = Ok (Some <$> replicate n d).
Proof.
  intros Hag Hsome. unfold copy_reconstruct.
  pose proof (Forall2_length _ _ _ Hag) as Hlen. rewrite length_replicate in Hlen.
  destruct (list_find is_Some known) as [[i o]|] eqn:Hf.
  - apply list_find_Some in Hf as (Hi & [d' Ho] & _).
    destruct (Forall2_lookup_l _ _ _ _ _ Hag Hi) as (d'' & [-> _]%lookup_replicate & [Hnone|Heq]);
      [congruence|]. by rewrite Hlen, Heq, fmap_replicate.
  - apply list_find_None in Hf. exfalso. clear Hag Hlen.
    assert (filter is_Some known = []) as Hnil; [|rewrite Hnil in Hsome; simpl in Hsome; lia].
    induction Hf as [|o known Ho Hf IH]; [done|]. rewrite filter_cons_False in Hsome |- * by done. auto.
Qed.

#[export] Instance copy_code : ReedSolomon.
Proof.
  refine {| rs_new := λ k m, bool_decide (k = 1 ∧ 0 < m)%nat; rs_new_error := λ k m, EmptyString;
            rs_encode := copy_encode; rs_reconstruct := λ k m, copy_reconstruct 1 (k + m - 1);
            rs_verify := λ k m shards, Ok true |}.
  - intros k m [-> ?]%bool_decide_eq_true. lia.
  - intros k m n shards Hk Hn Hlen Hsame. apply bool_decide_eq_true in Hk as [-> _].
    destruct shards as [|d shards]; [done|]. simpl. eexists. split_and!; [done|..].
    + simpl. by rewrite length_replicate.
    + apply Forall_cons in Hsame as [Hd _]. constructor; [done|]. by apply Forall_replicate.
    + done.
  - intros k m n shards full known Hk Hn Hlen Hsame Henc Hag Hsome.
    apply bool_decide_eq_true in Hk as [-> _]. destruct shards as [|d shards]; [done|].
    simplify_eq/=. apply (copy_reconstruct_agrees known d (S (length shards))); [done|lia].
  - done.
Defined.

End EcDemo.
Import EcDemo.

Lemma ec_roundtrip_witness :
  ∃ frags, ec_encode (MkErasureCodec 1 2) [7; 8; 9]%N = Ok frags ∧
    ec_decode (MkErasureCodec 1 2) (surviving [false; false; true] frags) 3 = Ok [7; 8; 9]%N.
Proof.
  destruct (ec_roundtrip 1 2 (MkErasureCodec 1 2) [7; 8; 9]%N) as (frags & Henc & _ & _ & _ & Hdec);
    [reflexivity|discriminate|].
  exists frags. split; [exact Henc|]. apply (Hdec [false; false; true]); vm_compute; [reflexivity|].
  apply le_n.
Defined.
