(* ===== verification/Checksum.v ===== *)
(** * Extent checksums (crates/blockyard-common/src/checksum.rs)

    The hexadecimal form of the blake3 digest, the hash being the parameter
    [Blake3] of [Placement]. *)

From S2P Require Import Prelude Common Placement.

#[local] Open Scope N_scope.

(** [blake3::Hash::to_hex]: two lower-case digits per byte. *)
Definition hex_digit (d : N) : Ascii.ascii :=
  Ascii.ascii_of_N (if decide (d < 10) then 48 + d else 87 + d).

Fixpoint to_hex (bs : list N) : string :=
  match bs with
  | [] => EmptyString
  | b :: bs => String (hex_digit (b `div` 16)) (String (hex_digit (b `mod` 16)) (to_hex bs))
  end.

Section checksum.
Context `{!Blake3}.

Definition compute_checksum (data : list N) : string := to_hex (blake3 data).

Definition verify_checksum (data : list N) (expected : string) : bool :=
  bool_decide (compute_checksum data = expected).

End checksum.

(** ** Lemmas *)

Lemma hex_digit_inj d1 d2 : d1 < 16 → d2 < 16 → hex_digit d1 = hex_digit d2 → d1 = d2.
Proof.
  intros H1 H2 Heq%(f_equal Ascii.N_of_ascii). unfold hex_digit in Heq.
  destruct (decide (d1 < 10)), (decide (d2 < 10));
    rewrite !Ascii.N_ascii_embedding in Heq by lia; lia.
Qed.

Lemma to_hex_inj bs1 bs2 :
  Forall (λ b, b < 256) bs1 → Forall (λ b, b < 256) bs2 → to_hex bs1 = to_hex bs2 → bs1 = bs2.
Proof.
  intros H1. revert bs2. induction H1 as [|b1 bs1 Hb1 _ IH]; intros [|b2 bs2] H2 Heq; try done.
  apply Forall_cons in H2 as [Hb2 H2]. injection Heq as Hhi Hlo Heq.
  assert (b1 `div` 16 = b2 `div` 16) by (apply hex_digit_inj; [apply N.Div0.div_lt_upper_bound; lia..|done]).
  assert (b1 `mod` 16 = b2 `mod` 16) by (apply hex_digit_inj; [apply N.mod_upper_bound; lia..|done]).
  f_equal; [|by apply IH].
  rewrite (N.div_mod b1 16), (N.div_mod b2 16) by lia. congruence.
Qed.

Section checksum_lemmas.
Context `{!Blake3}.

Lemma verify_checksum_refl data : verify_checksum data (compute_checksum data) = true.
Proof. by apply bool_decide_eq_true. Qed.

(** If the hash has no collision between the two inputs, a passing check
    identifies the data. *)
Lemma verify_checksum_sound data data' :
  (∀ bs, Forall (λ b, b < 256) (blake3 bs)) →
  (blake3 data = blake3 data' → data = data') →
  verify_checksum data (compute_checksum data') = true → data = data'.
Proof. intros Hbytes Hcr Heq%bool_decide_eq_true. apply Hcr. by apply to_hex_inj. Qed.

End checksum_lemmas.
