(* ===== verification/HttpApi.v ===== *)
(** * The management API (crates/blockyard/src/api.rs)

    The axum server through which nodes join, clients commit mappings and hold
    leases, and operators manage volumes.  One definition per handler, over the
    metadata service of [MetadataService]; [routes] is the router and [serve] a
    whole request.  A request that axum refuses never reaches a handler.  What the
    handlers take from openraft beside the log (memberships) is the class
    [RaftMembership]; clocks and generated identifiers come in with the request
    ([ApiEnv]).  The task that [cluster_join] spawns is queued in the state and run
    by [run_promotion]. *)

From Stdlib Require Import Strings.Byte.
From S2P Require Import Prelude Text Common Json MetadataSM MetadataInv MetadataSpec MetadataTyped MetadataLease MetadataService.
From S2P Require Import Checksum MetadataCache RaftTransport Http.

#[local] Open Scope N_scope.

(** ** Parameters *)

(** [chrono::DateTime<Utc>] and its serde form. *)
Class Chrono := {
  DateTime : Type;
  rfc3339 : DateTime → string;
  parse_rfc3339 : string → option DateTime;
  rfc3339_round_trip : ∀ t, parse_rfc3339 (rfc3339 t) = Some t;
}.

(** What the handlers use of the local openraft node beside writing to the log: the
    configurations of the effective membership, the two requests that change it, and
    what the node does on its own (replication from a leader elsewhere). *)
Class RaftMembership (W : Type) := {
  joint_config : W → list (gset N);
  add_learner : N → W → W * result string unit;
  change_membership : gset N → W → W * result string unit;
  raft_background : nat → W → W;
}.

(** ** Data *)

Record CreateVolumeRequest := MkCreateVolumeRequest {
  cv_name : string;
  cv_size_bytes : N;
  cv_protection : ProtectionPolicy;
  cv_extent_size : option N;
}.

Definition default_protection : ProtectionPolicy := Replicated 3.

Definition DEFAULT_EXTENT_SIZE : N := 524288.

Definition de_create_volume_request : json → option CreateVolumeRequest :=
  de_struct (
    name ← field "name" de_string;
    size_bytes ← field "size_bytes" de_u64;
    protection ← field_default default_protection "protection" de_protection;
    extent_size ← field_default None "extent_size" (de_option de_u64);
    mret (MkCreateVolumeRequest name size_bytes protection extent_size)).

Inductive VolumeState := VolumeHealthy | VolumeDegraded | VolumeRebuilding | VolumeUnavailable.

Definition ser_volume_state (s : VolumeState) : json :=
  JString match s with
  | VolumeHealthy => "Healthy"
  | VolumeDegraded => "Degraded"
  | VolumeRebuilding => "Rebuilding"
  | VolumeUnavailable => "Unavailable"
  end.

Record JoinRequest := MkJoinRequest {
  jq_node_id : NodeId;
  jq_raft_addr : string;
  jq_data_addr : string;
}.

Record JoinResponse := MkJoinResponse {
  js_raft_id : N;
  js_peers : gmap N string;
}.

Section data.
Context `{!UuidDisplay} `{!Chrono}.

Record VolumeInfo := MkVolumeInfo {
  vi_id : VolumeId;
  vi_name : string;
  vi_size_bytes : N;
  vi_protection : ProtectionPolicy;
  vi_extent_size : N;
  vi_state : VolumeState;
  vi_replica_nodes : list NodeId;
  vi_created_at : DateTime;
}.

Definition ser_volume_info (v : VolumeInfo) : json :=
  JObject
    [("id", ser_volume_id (vi_id v)); ("name", JString (vi_name v));
     ("size_bytes", JNumber (vi_size_bytes v)); ("protection", ser_protection (vi_protection v));
     ("extent_size", JNumber (vi_extent_size v)); ("state", ser_volume_state (vi_state v));
     ("replica_nodes", ser_vec ser_node_id (vi_replica_nodes v));
     ("created_at", JString (rfc3339 (vi_created_at v)))].

Record NodeInfo := MkNodeInfo {
  ni_id : NodeId;
  ni_address : string;
  ni_state : string;
  ni_disk_count : N;
  ni_volume_count : N;
  ni_uptime_seconds : N;
}.

Definition ser_node_info (n : NodeInfo) : json :=
  JObject
    [("id", ser_node_id (ni_id n)); ("address", JString (ni_address n)); ("state", JString (ni_state n));
     ("disk_count", JNumber (ni_disk_count n)); ("volume_count", JNumber (ni_volume_count n));
     ("uptime_seconds", JNumber (ni_uptime_seconds n))].

Record ClusterStatus := MkClusterStatus {
  cs_node_count : N;
  cs_nodes_online : N;
  cs_volume_count : N;
  cs_disk_count : N;
  cs_placement_epoch : N;
  cs_quorum_health : string;
  cs_total_capacity_bytes : N;
  cs_used_capacity_bytes : N;
}.

Definition ser_cluster_status (c : ClusterStatus) : json :=
  JObject
    [("node_count", JNumber (cs_node_count c)); ("nodes_online", JNumber (cs_nodes_online c));
     ("volume_count", JNumber (cs_volume_count c)); ("disk_count", JNumber (cs_disk_count c));
     ("placement_epoch", JNumber (cs_placement_epoch c)); ("quorum_health", JString (cs_quorum_health c));
     ("total_capacity_bytes", JNumber (cs_total_capacity_bytes c));
     ("used_capacity_bytes", JNumber (cs_used_capacity_bytes c))].

Record DiskInfo := MkDiskInfo {
  di_id : string;
  di_node_id : NodeId;
  di_path : string;
  di_state : string;
  di_total_bytes : N;
  di_used_bytes : N;
  di_extent_count : N;
  di_error_count : N;
}.

Definition ser_disk_info (d : DiskInfo) : json :=
  JObject
    [("id", JString (di_id d)); ("node_id", ser_node_id (di_node_id d)); ("path", JString (di_path d));
     ("state", JString (di_state d)); ("total_bytes", JNumber (di_total_bytes d));
     ("used_bytes", JNumber (di_used_bytes d)); ("extent_count", JNumber (di_extent_count d));
     ("error_count", JNumber (di_error_count d))].

Definition de_join_request : json → option JoinRequest :=
  de_struct (
    node_id ← field "node_id" de_node_id;
    raft_addr ← field "raft_addr" de_string;
    data_addr ← field "data_addr" de_string;
    mret (MkJoinRequest node_id raft_addr data_addr)).

(** Integer keys of a map are written as strings. *)
Definition ser_join_response `{!HashIter N} (r : JoinResponse) : json :=
  JObject
    [("raft_id", JNumber (js_raft_id r));
     ("peers", JObject (omap (λ k, (λ a, (u64_to_string k, JString a)) <$> js_peers r !! k)
                          (hash_keys (js_peers r))))].

(** The body of a commit, read into the entry that the handlers build from it. *)
Definition de_extent_mapping_request : json → option ExtentMappingEntry :=
  de_struct (
    volume_id ← field "volume_id" de_volume_id;
    block_range_start ← field "block_range_start" de_u64;
    block_range_end ← field "block_range_end" de_u64;
    extent_id ← field "extent_id" de_extent_id;
    extent_version ← field "extent_version" de_u64;
    epoch ← field "epoch" de_u64;
    replica_locations ← field "replica_locations" (de_vec de_node_id);
    checksums ← field "checksums" (de_vec (de_vec de_byte));
    operation_id ← field_option "operation_id" de_operation_id;
    previous_version ← field_option "previous_version" de_u64;
    mret (MkEntry volume_id (MkRange block_range_start block_range_end) extent_id extent_version
            (EpochId_new epoch) replica_locations checksums operation_id previous_version)).

Definition ser_extent_mapping_response (epoch : EpochId) : json :=
  JObject [("epoch", JNumber (EpochId_as_u64 epoch))].

(** [OperationLookupResponse]: fields that are [None] are left out. *)
Definition ser_operation_lookup_response (mapping : option ExtentMapping) : json :=
  match mapping with
  | Some m =>
      JObject
        [("found", JBool true); ("extent_id", ser_extent_id (em_extent_id m));
         ("extent_version", JNumber (em_extent_version m));
         ("epoch", JNumber (EpochId_as_u64 (em_epoch m)));
         ("block_range_start", JNumber (range_start (em_block_range m)));
         ("block_range_end", JNumber (range_end (em_block_range m)));
         ("replica_locations", ser_vec ser_node_id (em_replica_locations m));
         ("checksums", ser_vec (ser_vec ser_byte) (em_checksums m))]
  | None => JObject [("found", JBool false)]
  end.

Definition de_lease_action_request : json → option (VolumeId * SessionId * N * N) :=
  de_struct (
    volume_id ← field "volume_id" de_volume_id;
    session_id ← field "session_id" de_session_id;
    now_ms ← field "now_ms" de_u64;
    ttl_ms ← field "ttl_ms" de_u64;
    mret (volume_id, session_id, now_ms, ttl_ms)).

Definition de_lease_release_request : json → option (VolumeId * SessionId) :=
  de_struct (
    volume_id ← field "volume_id" de_volume_id;
    session_id ← field "session_id" de_session_id;
    mret (volume_id, session_id)).

Definition ser_volume_lease (l : VolumeLease) : json :=
  JObject
    [("volume_id", ser_volume_id (lease_volume_id l)); ("holder", ser_session_id (lease_holder l));
     ("granted_at_ms", JNumber (lease_granted_at_ms l)); ("expires_at_ms", JNumber (lease_expires_at_ms l));
     ("lease_version", JNumber (lease_version l))].

End data.

(** ** State *)

(** What a request's handler reads from outside: the identifier it generates, the
    clock at each reading, and milliseconds since the epoch. *)
Record ApiEnv `{!Chrono} := MkApiEnv {
  env_uuid : N;
  env_utc : nat → DateTime;
  env_unix_ms : N;
}.

(** [as_promotions] are the spawned membership changes that have not run yet. *)
Record AppState (W : Type) := MkAppState {
  as_metadata : W;
  as_peer_registry : PeerRegistry;
  as_promotions : list (gset N);
}.
Arguments MkAppState {W}.
Arguments as_metadata {W}.
Arguments as_peer_registry {W}.
Arguments as_promotions {W}.

(** ** Handlers *)

Inductive Endpoint :=
  | CreateVolumeEp | ListVolumesEp | InspectVolumeEp | DeleteVolumeEp
  | ListNodesEp | InspectNodeEp | ClusterStatusEp | ClusterJoinEp
  | ListDisksEp | RegisterDiskEp
  | CommitEp | CommitBatchEp | ListMappingsEp | LookupOperationEp
  | ListLeasesEp | AcquireLeaseEp | RenewLeaseEp | ReleaseLeaseEp.

#[global] Instance Endpoint_eq_dec : EqDecision Endpoint.
Proof. solve_decision. Defined.

Definition routes : list (string * Method * Endpoint) :=
  [("/api/v1/volumes", POST, CreateVolumeEp);
   ("/api/v1/volumes", GET, ListVolumesEp);
   ("/api/v1/volumes/{id}", GET, InspectVolumeEp);
   ("/api/v1/volumes/{id}", DELETE, DeleteVolumeEp);
   ("/api/v1/nodes", GET, ListNodesEp);
   ("/api/v1/nodes/{id}", GET, InspectNodeEp);
   ("/api/v1/cluster/status", GET, ClusterStatusEp);
   ("/api/v1/cluster/join", POST, ClusterJoinEp);
   ("/api/v1/disks", GET, ListDisksEp);
   ("/api/v1/disks/register", POST, RegisterDiskEp);
   ("/api/v1/extent-mappings", POST, CommitEp);
   ("/api/v1/extent-mappings/batch", POST, CommitBatchEp);
   ("/api/v1/volumes/{id}/extent-mappings", GET, ListMappingsEp);
   ("/api/v1/operations/{id}", GET, LookupOperationEp);
   ("/api/v1/leases", GET, ListLeasesEp);
   ("/api/v1/leases/acquire", POST, AcquireLeaseEp);
   ("/api/v1/leases/renew", POST, RenewLeaseEp);
   ("/api/v1/leases/release", POST, ReleaseLeaseEp)].

Section handlers.
Context `{!UuidDisplay} `{!RaftTypes} `{!JsonText} `{!HttpText} `{!Chrono} `{!AddrText}.
Context `{!HashIter N} `{!HashIter DiskId}.
Context {W : Type} `{!Raft W} `{!RaftMembership W}.
Implicit Types st : AppState W.
Implicit Types env : ApiEnv.

Definition set_metadata (w : W) st : AppState W :=
  MkAppState w (as_peer_registry st) (as_promotions st).

(** A call of the metadata service. *)
Definition on_service {A} (f : W → W * A) st : AppState W * A :=
  let '(w, a) := f (as_metadata st) in (set_metadata w st, a).

Definition error_json (msg : string) : json := JObject [("error", JString msg)].

Definition rejection (status : N) : HttpResponse := MkHttpResponse status (Some (rejection_text status)).

(** The extractor [Json(req)]: a body that is not announced as JSON, is longer than
    axum reads by default, is not JSON, or not of the type. *)
Definition with_json {A} (d : json → option A) (body : option HttpBody)
    (handler : A → AppState W → AppState W * HttpResponse) st : AppState W * HttpResponse :=
  match body with
  | Some (MkHttpBody (Some content_type) text) =>
      if is_json_type content_type then
        if decide (body_fits text) then
          match json_parse text with
          | None => (st, rejection 400)
          | Some j =>
              match d j with
              | None => (st, rejection 422)
              | Some req => handler req st
              end
          end
        else (st, rejection 413)
      else (st, rejection 415)
  | _ => (st, rejection 415)
  end.

(** The extractor [Path(id)] followed by [id.parse()]. *)
Definition with_id {A} (mk : N → A) (what : string) (params : list string)
    (handler : A → AppState W → AppState W * HttpResponse) st : AppState W * HttpResponse :=
  match head params ≫= percent_decode with
  | None => (st, rejection 400)
  | Some id =>
      match uuid_parse id with
      | None => (st, json_response 400 (error_json ("invalid " +:+ what +:+ " ID")))
      | Some u => handler (mk u) st
      end
  end.

Definition create_volume env (req : CreateVolumeRequest) st : AppState W * HttpResponse :=
  let volume_id := VolumeId_new (env_uuid env) in
  let extent_size := default DEFAULT_EXTENT_SIZE (cv_extent_size req) in
  match on_service (svc_create_volume volume_id (cv_size_bytes req) (cv_protection req) extent_size) st with
  | (st, Ok _) =>
      let info := MkVolumeInfo volume_id (cv_name req) (cv_size_bytes req) (cv_protection req)
                    extent_size VolumeHealthy [] (env_utc env 0) in
      (st, json_response 201 (ser_volume_info info))
  | (st, Err e) => (st, json_response 500 (error_json (to_string e)))
  end.

Definition delete_volume (volume_id : VolumeId) st : AppState W * HttpResponse :=
  match on_service (svc_delete_volume volume_id) st with
  | (st, Ok _) => (st, json_response 200 (JObject [("deleted", JString (to_string volume_id))]))
  | (st, Err e) =>
      let status := if str_contains "not found" (to_string e) then 404 else 500 in
      (st, json_response status (error_json (to_string e)))
  end.

(** A volume as the listings show it; [i] counts the readings of the clock. *)
Definition volume_info env (i : nat) (v : VolumeMetadata) : VolumeInfo :=
  MkVolumeInfo (vol_volume_id v) EmptyString (vol_size_bytes v) (vol_protection v) (vol_extent_size v)
    VolumeHealthy [] (env_utc env i).

Definition api_list_volumes env st : AppState W * HttpResponse :=
  let infos := imap (volume_info env) (svc_list_volumes (as_metadata st)) in
  (st, json_response 200 (ser_vec ser_volume_info infos)).

Definition inspect_volume env (volume_id : VolumeId) st : AppState W * HttpResponse :=
  match svc_get_volume volume_id (as_metadata st) with
  | Some v => (st, json_response 200 (ser_volume_info (volume_info env 0 v)))
  | None => (st, json_response 404 (error_json ("volume " +:+ to_string volume_id +:+ " not found")))
  end.

Definition node_info (n : ClusterNode) : NodeInfo := MkNodeInfo (cn_node_id n) (cn_addr n) "online" 0 0 0.

Definition api_list_nodes st : AppState W * HttpResponse :=
  (st, json_response 200 (ser_vec ser_node_info (node_info <$> svc_list_nodes (as_metadata st)))).

Definition inspect_node (node_id : NodeId) st : AppState W * HttpResponse :=
  match svc_get_node node_id (as_metadata st) with
  | Some n => (st, json_response 200 (ser_node_info (node_info n)))
  | None => (st, json_response 404 (error_json ("node " +:+ to_string node_id +:+ " not found")))
  end.

(** [len() as u32] *)
Definition len_u32 {A} (l : list A) : N := N.of_nat (length l) `mod` 4294967296.

(** [iter().sum()], wrapping. *)
Definition sum_u64 (l : list N) : N := foldl u64_add 0 l.

Definition cluster_status st : AppState W * HttpResponse :=
  let nodes := svc_list_nodes (as_metadata st) in
  let volumes := svc_list_volumes (as_metadata st) in
  let disks := list_cluster_disks (sm_data (as_metadata st)) in
  let epoch := svc_current_epoch (as_metadata st) in
  let total_capacity_bytes := sum_u64 (cd_capacity_bytes <$> disks) in
  let used_capacity_bytes := sum_u64 (cd_used_bytes <$> disks) in
  (st, json_response 200 (ser_cluster_status
         (MkClusterStatus (len_u32 nodes) (len_u32 nodes) (len_u32 volumes) (len_u32 disks)
            (EpochId_as_u64 epoch) "healthy" total_capacity_bytes used_capacity_bytes))).

Definition disk_info (d : ClusterDisk) : DiskInfo :=
  MkDiskInfo (to_string (cd_disk_id d)) (cd_node_id d) EmptyString (to_string (cd_state d))
    (cd_capacity_bytes d) (cd_used_bytes d) 0 0.

Definition list_disks st : AppState W * HttpResponse :=
  (st, json_response 200
         (ser_vec ser_disk_info (disk_info <$> list_cluster_disks (sm_data (as_metadata st))))).

Definition register_disk (req : json) st : AppState W * HttpResponse :=
  let disk_id_str := default EmptyString (json_get "disk_id" req ≫= json_as_str) in
  let node_id_str := default EmptyString (json_get "node_id" req ≫= json_as_str) in
  let capacity_bytes := default 0 (json_get "capacity_bytes" req ≫= json_as_u64) in
  match uuid_parse disk_id_str with
  | None => (st, json_response 400 (error_json "invalid disk_id"))
  | Some disk_id =>
      match uuid_parse node_id_str with
      | None => (st, json_response 400 (error_json "invalid node_id"))
      | Some node_id =>
          match on_service (svc_register_disk (DiskId_new disk_id) (NodeId_new node_id) capacity_bytes) st with
          | (st, Ok _) => (st, json_response 200 (JObject [("status", JString "ok")]))
          | (st, Err e) => (st, json_response 500 (error_json (to_string e)))
          end
      end
  end.

(** The raft address derived from a data plane address: same IP, port + 10. *)
Definition derived_raft_addr (a : SocketAddr) : SocketAddr := set_port (u16_add (sock_port a) 10) a.

(** The address a node is announced at; one that does not parse is passed on. *)
Definition announced_addr (n : ClusterNode) : string :=
  match addr_parse (cn_addr n) with
  | Some addr => to_string (derived_raft_addr addr)
  | None => cn_addr n
  end.

(** The peer map of a join response: one entry per registered node. *)
Definition join_peers (data : MetadataStateMachineData) : gmap N string :=
  foldl (λ peers n,
    match sm_node_raft_map data !! cn_node_id n with
    | Some peer_raft_id => <[peer_raft_id := announced_addr n]> peers
    | None => peers
    end) ∅ (btree_values (sm_nodes data)).

Definition cluster_join (req : JoinRequest) st : AppState W * HttpResponse :=
  match on_service (svc_register_node (jq_node_id req) (jq_data_addr req)) st with
  | (st, Err e) => (st, json_response 500 (error_json ("failed to register node: " +:+ to_string e)))
  | (st, Ok raft_id) =>
      let registry :=
        match addr_parse (jq_raft_addr req) with
        | Some addr => peer_register raft_id addr (as_peer_registry st)
        | None => as_peer_registry st
        end in
      let new_members := {[raft_id]} ∪ default ∅ (head (joint_config (as_metadata st))) in
      let w := (add_learner raft_id (as_metadata st)).1 in
      let st := MkAppState w registry (as_promotions st ++ [new_members]) in
      (st, json_response 200 (ser_join_response (MkJoinResponse raft_id (join_peers (sm_data w)))))
  end.

(** The spawned task, two seconds later; its result is only logged. *)
Definition run_promotion st : AppState W :=
  match as_promotions st with
  | [] => st
  | new_members :: promotions =>
      MkAppState (change_membership new_members (as_metadata st)).1 (as_peer_registry st) promotions
  end.

Definition extent_mapping_json (block_start : N) (m : ExtentMapping) : json :=
  JObject
    [("block_start", JNumber block_start); ("block_end", JNumber (range_end (em_block_range m)));
     ("extent_id", JString (to_string (em_extent_id m)));
     ("extent_version", JNumber (em_extent_version m)); ("epoch", JNumber (EpochId_as_u64 (em_epoch m)));
     ("replica_locations", ser_vec (λ n : NodeId, JString (to_string n)) (em_replica_locations m));
     ("checksums", ser_vec (λ c, JString (to_hex (Byte.to_N <$> c))) (em_checksums m))].

Definition list_extent_mappings (volume_id : VolumeId) st : AppState W * HttpResponse :=
  let entries :=
    match get_volume_mappings volume_id (sm_data (as_metadata st)) with
    | Some mappings => (λ km, extent_mapping_json km.1 km.2) <$> btree_list mappings
    | None => []
    end in
  (st, json_response 200 (JObject [("mappings", JArray entries)])).

(** The answer to a request that returns an epoch. *)
Definition epoch_response (r : AppState W * result Error EpochId) : AppState W * HttpResponse :=
  match r with
  | (st, Ok epoch) => (st, json_response 200 (ser_extent_mapping_response epoch))
  | (st, Err e) => (st, json_response 500 (error_json (to_string e)))
  end.

Definition commit_extent_mapping (req : ExtentMappingEntry) st : AppState W * HttpResponse :=
  epoch_response (on_service (svc_commit_extent_mapping req) st).

Definition commit_extent_mapping_batch (reqs : list ExtentMappingEntry) st : AppState W * HttpResponse :=
  epoch_response (on_service (svc_commit_extent_mappings_batch reqs) st).

Definition lookup_operation (operation_id : OperationId) st : AppState W * HttpResponse :=
  (st, json_response 200
         (ser_operation_lookup_response (svc_lookup_by_operation_id operation_id (as_metadata st)))).

Definition list_leases env st : AppState W * HttpResponse :=
  (st, json_response 200 (ser_vec ser_volume_lease (svc_list_active_leases (env_unix_ms env) (as_metadata st)))).

Definition lease_response (r : AppState W * result Error LeaseResponse) : AppState W * HttpResponse :=
  match r with
  | (st, Ok resp) => (st, json_response 200 (ser_lease_response resp))
  | (st, Err e) => (st, json_response 500 (error_json (to_string e)))
  end.

Definition acquire_lease (req : VolumeId * SessionId * N * N) st : AppState W * HttpResponse :=
  let '(volume_id, session_id, now_ms, ttl_ms) := req in
  lease_response (on_service (svc_acquire_lease volume_id session_id now_ms ttl_ms) st).

Definition renew_lease (req : VolumeId * SessionId * N * N) st : AppState W * HttpResponse :=
  let '(volume_id, session_id, now_ms, ttl_ms) := req in
  lease_response (on_service (svc_renew_lease volume_id session_id now_ms ttl_ms) st).

Definition release_lease (req : VolumeId * SessionId) st : AppState W * HttpResponse :=
  let '(volume_id, session_id) := req in
  lease_response (on_service (svc_release_lease volume_id session_id) st).

(** ** The router *)

Definition handle env (ep : Endpoint) (params : list string) (body : option HttpBody) st
    : AppState W * HttpResponse :=
  match ep with
  | CreateVolumeEp => with_json de_create_volume_request body (create_volume env) st
  | ListVolumesEp => api_list_volumes env st
  | InspectVolumeEp => with_id VolumeId_new "volume" params (inspect_volume env) st
  | DeleteVolumeEp => with_id VolumeId_new "volume" params delete_volume st
  | ListNodesEp => api_list_nodes st
  | InspectNodeEp => with_id NodeId_new "node" params inspect_node st
  | ClusterStatusEp => cluster_status st
  | ClusterJoinEp => with_json de_join_request body cluster_join st
  | ListDisksEp => list_disks st
  | RegisterDiskEp => with_json de_value body register_disk st
  | CommitEp => with_json de_extent_mapping_request body commit_extent_mapping st
  | CommitBatchEp => with_json (de_vec de_extent_mapping_request) body commit_extent_mapping_batch st
  | ListMappingsEp => with_id VolumeId_new "volume" params list_extent_mappings st
  | LookupOperationEp => with_id OperationId_new "operation" params lookup_operation st
  | ListLeasesEp => list_leases env st
  | AcquireLeaseEp => with_json de_lease_action_request body acquire_lease st
  | RenewLeaseEp => with_json de_lease_action_request body renew_lease st
  | ReleaseLeaseEp => with_json de_lease_release_request body release_lease st
  end.

(** A request, from the router to the response. *)
Definition serve env (rq : HttpRequest) st : AppState W * HttpResponse :=
  match find_route routes (hr_method rq) (hr_path rq) with
  | Err status => (st, MkHttpResponse status (Some EmptyString))
  | Ok (ep, params) => handle env ep params (hr_body rq) st
  end.

End handlers.

(** ** Lemmas on routes *)

Section routes.
Context `{!UuidDisplay} `{!UuidUrl} `{!JsonText} `{!HttpText}.

Lemma route_lookup_operation u :
  find_route routes GET ("/api/v1/operations" +:+ ("/" +:+ uuid_to_string u)) = Ok (LookupOperationEp, [uuid_to_string u]).
Proof. apply route_id. intros c s. vm_compute. reflexivity. Qed.

End routes.

(** The handler of a route found is one that is registered with the method. *)
Lemma find_route_registered {A} (rs : list (string * Method * A)) method path h params :
  find_route rs method path = Ok (h, params) → ∃ pattern, (pattern, method, h) ∈ rs.
Proof.
  unfold find_route, route_segments. set (on_path := omap _ rs).
  assert (∀ m h ps, (m, h, ps) ∈ on_path → ∃ pattern, (pattern, m, h) ∈ rs) as Hin.
  { intros m h' ps ([[pattern m'] h''] & Hrs & Hm)%list_elem_of_omap.
    apply fmap_Some in Hm as (ps' & _ & [= -> -> ->]). by exists pattern. }
  destruct on_path as [|p on_path'] eqn:Hp; [done|]. rewrite <-Hp in *. clear Hp.
  destruct (omap _ on_path) as [|[h' ps'] rest] eqn:Ho; [done|]. intros [= -> ->].
  assert ((h, params) ∈ omap (λ '(m, h, ps), if decide (m = method) then Some (h, ps) else None) on_path) as Hm.
  { rewrite Ho. apply list_elem_of_here. }
  apply list_elem_of_omap in Hm as ([[m h''] ps''] & Hm & Hd). case_decide; simplify_eq. by eapply Hin.
Qed.

(** ** Theorems *)

Section theorems.
Context `{!UuidDisplay} `{!RaftTypes} `{!JsonText} `{!HttpText} `{!Chrono} `{!AddrText}.
Context `{!HashIter N} `{!HashIter DiskId}.
Context {W : Type} `{!Raft W} `{!RaftMembership W}.
Implicit Types st : AppState W.

(** The statuses of a refusal: by the router, by an extractor, by the parsing of an
    identifier. *)
Definition refused (status : N) : Prop := status ∈ [400; 405; 413; 415; 422].

Definition refuses_quietly (f : AppState W → AppState W * HttpResponse) : Prop :=
  ∀ st, refused (hp_status (f st).2) → (f st).1 = st.

Lemma with_json_quiet {A} (d : json → option A) body h :
  (∀ a, refuses_quietly (h a)) → refuses_quietly (with_json d body h).
Proof. intros Hh st. unfold with_json. repeat case_match; [apply Hh|done..]. Qed.

Lemma with_id_quiet {A} (mk : N → A) what params h :
  (∀ a, refuses_quietly (h a)) → refuses_quietly (with_id mk what params h).
Proof. intros Hh st. unfold with_id. repeat case_match; [apply Hh|done..]. Qed.

(** Answers other than refusals. *)
Lemma not_refused status : status ∈ [200; 201; 404; 500] → ¬ refused status.
Proof. unfold refused. rewrite !elem_of_cons, elem_of_nil. lia. Qed.

Lemma answered_quiet (f : AppState W → AppState W * HttpResponse) :
  (∀ st, hp_status (f st).2 ∈ [200; 201; 404; 500]) → refuses_quietly f.
Proof. intros Hf st Hr. by destruct (not_refused _ (Hf st)). Qed.

#[local] Hint Extern 1 (_ ∈ [200; 201; 404; 500]) =>
  simpl; repeat (first [apply list_elem_of_here | apply list_elem_of_further]) : core.

Lemma epoch_response_status r : hp_status (epoch_response (W := W) r).2 ∈ [200; 201; 404; 500].
Proof. destruct r as [st []]; auto. Qed.

Lemma lease_response_status r : hp_status (lease_response (W := W) r).2 ∈ [200; 201; 404; 500].
Proof. destruct r as [st []]; auto. Qed.

Lemma register_disk_quiet req : refuses_quietly (register_disk req).
Proof.
  intros st. unfold register_disk. do 2 (case_match; [|done]).
  destruct (on_service _ st) as [st' []]; intros Hr; exfalso; eapply not_refused, Hr; auto.
Qed.

Lemma handle_quiet env ep params body : refuses_quietly (handle env ep params body).
Proof.
  destruct ep; try (by intros st); simpl;
    first [apply with_json_quiet|apply with_id_quiet]; intros req;
    try apply register_disk_quiet; apply answered_quiet; intros st.
  - unfold create_volume. destruct (on_service _ st) as [st' []]; auto.
  - unfold inspect_volume. case_match; auto.
  - unfold delete_volume. destruct (on_service _ st) as [st' []]; [auto|]. case_match; auto.
  - unfold inspect_node. case_match; auto.
  - unfold cluster_join. destruct (on_service _ st) as [st' []]; auto.
  - apply epoch_response_status.
  - apply epoch_response_status.
  - unfold list_extent_mappings. auto.
  - unfold lookup_operation. auto.
  - destruct req as [[[]]]. apply lease_response_status.
  - destruct req as [[[]]]. apply lease_response_status.
  - destruct req. apply lease_response_status.
Qed.

(** A request that the API refuses has no effect: whenever the status is 400,
    405, 413, 415 or 422 (a malformed or mistyped body, one too long or not announced as
    JSON, an identifier that does not parse, a method the path does not have) the service, the registry of peers and the pending
    membership changes are as before; so too for every path that is not served, and
    for every request with the method GET. *)
Theorem refused_request_has_no_effect env rq st :
  (hp_status (serve env rq st).2 ∈ [400; 405; 413; 415; 422] → (serve env rq st).1 = st) ∧
  (is_ok (find_route routes (hr_method rq) (hr_path rq)) = false → (serve env rq st).1 = st) ∧
  (hr_method rq = GET → (serve env rq st).1 = st).
Proof.
  unfold serve. destruct (find_route routes (hr_method rq) (hr_path rq)) as [[ep params]|] eqn:Hr; [|done].
  split_and!; [apply handle_quiet|done|]. intros Hget. rewrite Hget in Hr.
  apply find_route_registered in Hr as [pattern Hin].
  assert (Forall (λ r : string * Method * Endpoint, r.1.2 = GET → ∀ body st, (handle env r.2 params body st).1 = st)
    routes) as Hall.
  { repeat constructor; intros ? body st'; simpl; try done; unfold with_id; repeat case_match; try done;
      unfold inspect_volume, inspect_node; by case_match. }
  rewrite Forall_forall in Hall. by apply (Hall _ Hin).
Qed.

(** ** Joining *)

(** A loop that inserts some of its elements, none twice under the same key with
    different values. *)
Lemma lookup_foldl_insert_some {A B} (key : A → option N) (val : A → B) (l : list A) k v :
  (∀ x y k, x ∈ l → y ∈ l → key x = Some k → key y = Some k → val x = val y) →
  foldl (λ m x, match key x with Some k => <[k := val x]> m | None => m end) (∅ : gmap N B) l !! k = Some v ↔
  ∃ x, x ∈ l ∧ key x = Some k ∧ val x = v.
Proof.
  induction l as [|x l IH] using rev_ind; intros Hinj.
  { simpl. rewrite lookup_empty. split; [done|]. intros (x & Hx & _). by apply elem_of_nil in Hx. }
  rewrite foldl_app. simpl. specialize (IH ltac:(intros; eapply Hinj; [set_solver..|done|done])).
  destruct (key x) as [kx|] eqn:Hx; [destruct (decide (kx = k)) as [->|Hne]|].
  - rewrite lookup_insert_eq. split.
    + intros [= <-]. exists x. split_and!; [set_solver|done|done].
    + intros (y & Hy & Hk & <-). f_equal. apply (Hinj x y k); [set_solver..|done|done].
  - rewrite lookup_insert_ne by done. rewrite IH. set_solver.
  - rewrite IH. set_solver.
Qed.

(** The peers of a join response are exactly the registered nodes. *)
Lemma join_peers_spec s id addr :
  sm_inv s → raft_ids_ok s →
  join_peers s !! id = Some addr ↔
  ∃ n, get_node (cn_node_id n) s = Some n ∧ get_raft_id (cn_node_id n) s = Some id ∧ addr = announced_addr n.
Proof.
  intros Hinv [_ Hids]. unfold join_peers. rewrite lookup_foldl_insert_some.
  - split.
    + intros (n & [k Hn]%elem_of_btree_values & Hid & <-). exists n. split_and!; [|done|done].
      unfold get_node. by rewrite <-(inv_nodes _ Hinv _ _ Hn).
    + intros (n & Hn & Hid & ->). exists n. split_and!; [|done|done].
      apply elem_of_btree_values. by exists (to_string (cn_node_id n)).
  - intros n1 n2 k [k1 Hn1]%elem_of_btree_values [k2 Hn2]%elem_of_btree_values Hk1 Hk2.
    assert (cn_node_id n1 = cn_node_id n2) as Heq by by eapply Hids.
    rewrite (inv_nodes _ Hinv _ _ Hn1) in Hn1. rewrite (inv_nodes _ Hinv _ _ Hn2), <-Heq in Hn2. congruence.
Qed.

End theorems.
