(* ===== verification/HttpCluster.v ===== *)
(** * The metadata client, the network and the management API composed

    [HttpMetadataClient] ([HttpMetadata]) in front of the server of api.rs
    ([HttpApi]) on a network that loses requests and replies: an instance of
    [MetadataClient] that satisfies [MetadataClientLaws], so that the recovery
    theorems of [ClientRecovery] hold over HTTP.  While a call is on its way the
    server handles requests of others, and Raft replicates on its own. *)

From Stdlib Require Import Strings.Byte.
From S2P Require Import Prelude Text Common Json MetadataSM MetadataInv MetadataSpec MetadataTyped MetadataLease.
From S2P Require Import MetadataService Watermark MetadataCache RaftTransport Http ClientRecovery HttpMetadata HttpApi.

#[local] Open Scope N_scope.

(** ** What is assumed of the local openraft node *)

Section laws.
Context `{!UuidDisplay} `{!RaftTypes} {W : Type} `{!Raft W} `{!RaftLaws W} `{!RaftMembership W}.

(** The local state machine holds a prefix of the committed log. *)
Definition holds_prefix (w : W) (n : nat) : Prop :=
  ∃ rs, apply_requests (take n (raft_log w)) sm_default = Return (sm_data w, rs).

(** Neither the log nor the part of it that is applied goes backwards. *)
Definition advances (applied : W → nat) (w w' : W) : Prop :=
  raft_log w `prefix_of` raft_log w' ∧ (applied w ≤ applied w')%nat.

End laws.

Class RaftNodeLaws `{!UuidDisplay} `{!RaftTypes} (W : Type) `{!Raft W} `{!RaftLaws W} `{!RaftMembership W} := {
  raft_applied : W → nat;
  raft_applied_state : ∀ w, holds_prefix w (raft_applied w);
  client_write_advances : ∀ req w, advances raft_applied w (client_write req w).1;
  add_learner_advances : ∀ n w, advances raft_applied w (add_learner n w).1;
  change_membership_advances : ∀ ms w, advances raft_applied w (change_membership ms w).1;
  background_advances : ∀ k w, advances raft_applied w (raft_background k w);
}.

(** ** The network *)

(** What happens at the server beside the client's own request. *)
Inductive ServerEvent `{!Chrono} :=
  | OtherRequest (env : ApiEnv) (rq : HttpRequest)
  | Promotion
  | Background (k : nat).

Inductive Fate :=
  | Delivered
  | RequestLost (msg : string)
  | ReplyLost (msg : string)
  | BodyLost.

Record Exchange `{!Chrono} := MkExchange {
  ex_before : list ServerEvent;
  ex_env : ApiEnv;
  ex_fate : Fate;
  ex_after : list ServerEvent;
}.

(** The server, and what the network will do with the requests to come. *)
Record HttpWorld `{!Chrono} (W : Type) := MkHttpWorld {
  hw_server : AppState W;
  hw_exchanges : list Exchange;
}.
Arguments MkHttpWorld {_ W}.
Arguments hw_server {_ W}.
Arguments hw_exchanges {_ W}.

Section network.
Context `{!UuidDisplay} `{!RaftTypes} `{!JsonText} `{!HttpText} `{!Chrono} `{!AddrText}.
Context `{!HashIter N} `{!HashIter DiskId}.
Context {W : Type} `{!Raft W} `{!RaftMembership W}.
Variable endpoint : string.

Definition server_event (ev : ServerEvent) (st : AppState W) : AppState W :=
  match ev with
  | OtherRequest env rq => (serve env rq st).1
  | Promotion => run_promotion st
  | Background k => set_metadata (raft_background k (as_metadata st)) st
  end.

Definition server_events (evs : list ServerEvent) (st : AppState W) : AppState W :=
  foldl (λ st ev, server_event ev st) st evs.

(** One exchange with the server at [endpoint]. *)
Definition exchange (x : Exchange) (rq : HttpRequest) (st : AppState W)
    : AppState W * result string HttpResponse :=
  let st := server_events (ex_before x) st in
  let '(st, r) :=
    match ex_fate x with
    | RequestLost msg => (st, Err msg)
    | Delivered => let '(st, resp) := serve (ex_env x) rq st in (st, Ok resp)
    | ReplyLost msg => ((serve (ex_env x) rq st).1, Err msg)
    | BodyLost => let '(st, resp) := serve (ex_env x) rq st in (st, Ok (MkHttpResponse (hp_status resp) None))
    end in
  (server_events (ex_after x) st, r).

Definition network_send (method : Method) (url : string) (body : option string) (hw : HttpWorld W)
    : HttpWorld W * result string HttpResponse :=
  match strip_str_prefix endpoint url, hw_exchanges hw with
  | Some path, x :: xs =>
      let '(st, r) := exchange x (MkHttpRequest method path (json_sent <$> body)) (hw_server hw) in
      (MkHttpWorld st xs, r)
  | _, _ => (hw, Err "connection refused")
  end.

Definition http_network : HttpTransport (HttpWorld W) := {| http_send := network_send |}.

(** The client over this network. *)
Definition http_metadata_client : MetadataClient (HttpWorld W) :=
  @http_client _ _ _ _ _ http_network endpoint.

End network.

(** ** The two sides agree on the documents *)

Section documents.
Context `{!UuidDisplay} `{!Chrono}.

#[global] Instance codec_extent_mapping_request :
  Codec de_extent_mapping_request ser_extent_mapping_request entry_typed.
Proof.
  split; intros e; unfold de_extent_mapping_request, ser_extent_mapping_request; simpl.
  - intros []. read_fields. by destruct e as [? [] ? ? []].
  - intros e' ([p src] & Hr & ->)%fmap_Some. accepted_fields Hr. injection Hr as <- <-.
    destruct e as [? [] ? ? []]. by split.
Qed.

#[global] Instance codec_lease_action_request :
  Codec de_lease_action_request (λ '(v, s, now_ms, ttl_ms), ser_lease_request v s now_ms ttl_ms)
    (λ '(v, s, now_ms, ttl_ms), is_u64 now_ms ∧ is_u64 ttl_ms).
Proof.
  split; intros [[[v s] n] t]; unfold de_lease_action_request, ser_lease_request; simpl.
  - intros [Hn Ht]. read_fields. done.
  - intros b ([p src] & Hr & ->)%fmap_Some. accepted_fields Hr. by injection Hr as <- <-.
Qed.

#[global] Instance codec_lease_release_request :
  Codec de_lease_release_request (λ '(v, s), ser_lease_release_request v s) (λ _, True).
Proof.
  split; intros [v s]; unfold de_lease_release_request, ser_lease_release_request; simpl.
  - intros _. read_fields. done.
  - intros b ([p src] & Hr & ->)%fmap_Some. accepted_fields Hr. by injection Hr as <- <-.
Qed.

(** The epoch of a commit. *)
#[global] Instance codec_extent_mapping_response :
  Codec (λ j, EpochId_new <$> de_extent_mapping_response j) ser_extent_mapping_response
    (λ e, is_u64 (EpochId_as_u64 e)).
Proof.
  assert (∀ e, de_extent_mapping_response (ser_extent_mapping_response e) = de_u64 (JNumber (EpochId_as_u64 e))) as He.
  { intros [e]. unfold de_extent_mapping_response, ser_extent_mapping_response, field, field_or. cbn.
    by case_decide. }
  split; intros e; rewrite He.
  - intros Hf. rewrite codec_fit by done. by destruct e.
  - intros b (n & [-> ?]%codec_only & ->)%fmap_Some. by destruct e.
Qed.

Record status_typed (c : ClusterStatus) : Prop := {
  ct_nodes : cs_node_count c ≤ u32_max;
  ct_online : cs_nodes_online c ≤ u32_max;
  ct_volumes : cs_volume_count c ≤ u32_max;
  ct_disks : cs_disk_count c ≤ u32_max;
  ct_epoch : is_u64 (cs_placement_epoch c);
  ct_total : is_u64 (cs_total_capacity_bytes c);
  ct_used : is_u64 (cs_used_capacity_bytes c);
}.

(** The client's view of the status has every field of the server's. *)
Definition status_response (c : ClusterStatus) : ClusterStatusResponse :=
  MkClusterStatusResponse (cs_node_count c) (cs_nodes_online c) (cs_volume_count c) (cs_disk_count c)
    (cs_placement_epoch c) (cs_quorum_health c) (cs_total_capacity_bytes c) (cs_used_capacity_bytes c).

Lemma status_read c : status_typed c → de_cluster_status_response (ser_cluster_status c) = Some (status_response c).
Proof. intros []. unfold de_cluster_status_response, ser_cluster_status; simpl. read_fields. done. Qed.

Lemma status_read_only c r : de_cluster_status_response (ser_cluster_status c) = Some r → r = status_response c.
Proof.
  unfold de_cluster_status_response, ser_cluster_status; simpl.
  intros ([p src] & Hr & ->)%fmap_Some. accepted_fields Hr. by injection Hr as <- <-.
Qed.

(** What the client makes of a lookup response. *)
Definition lookup_result (l : OperationLookupResponse) : result Error (option CommittedMapping) :=
  if olr_found l then Some <$> committed_of_lookup l else Ok None.

Definition lookup_response (m : option ExtentMapping) : OperationLookupResponse :=
  MkOperationLookupResponse (bool_decide (is_Some m)) (em_extent_id <$> m) (em_extent_version <$> m)
    ((λ m, EpochId_as_u64 (em_epoch m)) <$> m) ((λ m, range_start (em_block_range m)) <$> m)
    ((λ m, range_end (em_block_range m)) <$> m) (em_replica_locations <$> m) (em_checksums <$> m).

Lemma lookup_response_result m : lookup_result (lookup_response m) = Ok (committed_of <$> m).
Proof. destruct m as [[? ? [] [] ? ? ?]|]; done. Qed.

Lemma lookup_read m :
  (∀ em, m = Some em → mapping_typed em) →
  de_operation_lookup_response (ser_operation_lookup_response m) = Some (lookup_response m).
Proof.
  unfold de_operation_lookup_response, ser_operation_lookup_response.
  destruct m as [m|]; intros Hm; simpl; [|read_fields; done].
  destruct (Hm m eq_refl).
  read_fields. done.
Qed.

Lemma lookup_read_only m l :
  de_operation_lookup_response (ser_operation_lookup_response m) = Some l → l = lookup_response m.
Proof.
  unfold de_operation_lookup_response, ser_operation_lookup_response.
  destruct m as [m|]; simpl; [|by intros [= <-]].
  intros ([p src] & Hr & ->)%fmap_Some. accepted_fields Hr. by injection Hr as <- <-.
Qed.

(** A list whose elements are read into another type. *)
Lemma vec_read {A B} (d : json → option B) (ser : A → json) (f : A → B) l :
  Forall (λ a, d (ser a) = Some (f a)) l → de_vec d (ser_vec ser l) = Some (f <$> l).
Proof.
  intros Hl. unfold de_vec, ser_vec. apply mapM_Some, Forall2_fmap. by apply Forall_Forall2_diag.
Qed.

Definition remote_node (n : ClusterNode) : RemoteNode := MkRemoteNode (cn_node_id n) (cn_addr n).

Definition remote_volume (v : VolumeMetadata) : RemoteVolume :=
  MkRemoteVolume (vol_volume_id v) (vol_size_bytes v) (vol_protection v).

Lemma node_read n : de_remote_node (ser_node_info (node_info n)) = Some (remote_node n).
Proof.
  unfold de_remote_node, ser_node_info. simpl.
  assert (0 ≤ u32_max) by done. assert (0 ≤ u64_max) by done. read_fields. done.
Qed.

Lemma volume_read env i v :
  volume_typed v → de_remote_volume (ser_volume_info (volume_info env i v)) = Some (remote_volume v).
Proof.
  intros []. unfold de_remote_volume, ser_volume_info. simpl.
  change (ser_volume_state VolumeHealthy) with (JString "Healthy"). read_fields. done.
Qed.

End documents.

(** ** The server only moves forward *)

Section forward.
Context `{!UuidDisplay} `{!RaftTypes} `{!JsonText} `{!HttpText} `{!Chrono} `{!AddrText}.
Context `{!HashIter N} `{!HashIter DiskId}.
Context {W : Type} `{!Raft W} `{!RaftLaws W} `{!RaftMembership W} `{!RaftNodeLaws W}.
Implicit Types w : W.
Implicit Types st : AppState W.

Abbreviation later := (advances raft_applied) (only parsing).

#[global] Instance advances_preorder : PreOrder (advances (W := W) raft_applied).
Proof. split; [by intros w|]. intros w1 w2 w3 [? ?] [? ?]. split; [by etrans|lia]. Qed.

(** The part of a log that is applied is a prefix of what is applied later. *)
Lemma take_prefix_of {A} (n m : nat) (l l' : list A) :
  l `prefix_of` l' → (n ≤ m)%nat → ∃ k, take m l' = take n l ++ k.
Proof.
  intros [k ->] Hn. destruct (decide (n ≤ length l)%nat) as [Hl|Hl].
  - exists (drop n (take m (l ++ k))).
    rewrite <-(take_drop n (take m (l ++ k))) at 1. rewrite take_take, Nat.min_l by done.
    by rewrite take_app_le.
  - exists (take (m - length l) k). rewrite take_app_ge by lia. by rewrite (take_ge l n) by lia.
Qed.

(** The local state is reached from an earlier one by requests. *)
Lemma advances_runs w w' :
  later w w' → ∃ reqs rs, apply_requests reqs (sm_data w) = Return (sm_data w', rs).
Proof.
  intros [Hlog Hn]. destruct (raft_applied_state w) as [rs Hw], (raft_applied_state w') as [rs' Hw'].
  destruct (take_prefix_of _ _ _ _ Hlog Hn) as [k Hk].
  rewrite Hk, apply_requests_app, Hw in Hw'. simpl in Hw'.
  destruct (apply_requests k (sm_data w)) as [[s rs2]|] eqn:Hk'; [|done].
  injection Hw' as <- _. eauto.
Qed.

Lemma sm_data_reachable w : reachable (sm_data w).
Proof.
  destruct (raft_applied_state w) as [rs Hw]. by eapply reachable_requests, Hw; [constructor].
Qed.

Lemma advances_epoch w w' :
  later w w' → EpochId_as_u64 (sm_epoch (sm_data w)) ≤ EpochId_as_u64 (sm_epoch (sm_data w')).
Proof.
  intros (reqs & rs & Hr)%advances_runs. by apply (epoch_monotone _ _ _ _ (sm_data_reachable w) Hr).
Qed.

Lemma svc_call_advances {A} req (decode : MetadataResponse → result Error A) w :
  later w (svc_call req decode w).1.
Proof.
  pose proof (client_write_advances req w) as Hw. unfold svc_call, svc_commit.
  by destruct (client_write req w) as [w' []].
Qed.

(** Every handler leaves the service at a later state. *)
Definition handler_advances (f : AppState W → AppState W * HttpResponse) : Prop :=
  ∀ st, later (as_metadata st) (as_metadata (f st).1).

Lemma on_service_advances {A} (f : W → W * A) st :
  (∀ w, later w (f w).1) → later (as_metadata st) (as_metadata (on_service f st).1).
Proof. intros Hf. unfold on_service. specialize (Hf (as_metadata st)). by destruct (f (as_metadata st)). Qed.

Lemma with_json_advances {A} (d : json → option A) body h :
  (∀ a, handler_advances (h a)) → handler_advances (with_json d body h).
Proof. intros Hh st. unfold with_json. repeat case_match; [apply Hh|done..]. Qed.

Lemma with_id_advances {A} (mk : N → A) what params h :
  (∀ a, handler_advances (h a)) → handler_advances (with_id mk what params h).
Proof. intros Hh st. unfold with_id. repeat case_match; [apply Hh|done..]. Qed.

(** A handler that calls the service once and answers by its result. *)
Ltac one_call H :=
  match goal with |- context [on_service ?f ?st] =>
    pose proof (on_service_advances f st ltac:(intros; apply svc_call_advances)) as H;
    destruct (on_service f st) as [? []]
  end.

Lemma cluster_join_advances req : handler_advances (cluster_join req).
Proof.
  intros st. unfold cluster_join. one_call Hc; [|done]. simpl.
  etrans; [apply Hc|apply add_learner_advances].
Qed.

Lemma handle_advances env ep params body : handler_advances (handle env ep params body).
Proof.
  destruct ep; try (by intros st); simpl;
    first [apply with_json_advances|apply with_id_advances]; intros req;
    try (by apply cluster_join_advances); intros st.
  - unfold create_volume. by one_call Hc.
  - unfold inspect_volume. by case_match.
  - unfold delete_volume. by one_call Hc.
  - unfold inspect_node. by case_match.
  - unfold register_disk. do 2 (case_match; [|done]). by one_call Hc.
  - unfold commit_extent_mapping. by one_call Hc.
  - unfold commit_extent_mapping_batch. by one_call Hc.
  - done.
  - done.
  - destruct req as [[[]]]. simpl. by one_call Hc.
  - destruct req as [[[]]]. simpl. by one_call Hc.
  - destruct req. simpl. by one_call Hc.
Qed.

Lemma serve_advances env rq : handler_advances (serve env rq).
Proof. intros st. unfold serve. case_match; [|done]. case_match. apply handle_advances. Qed.

Lemma server_event_advances ev st : later (as_metadata st) (as_metadata (server_event ev st)).
Proof.
  destruct ev as [env rq| |k]; simpl.
  - apply serve_advances.
  - unfold run_promotion. case_match; [done|]. apply change_membership_advances.
  - apply background_advances.
Qed.

Lemma server_events_advances evs st : later (as_metadata st) (as_metadata (server_events evs st)).
Proof.
  revert st. induction evs as [|ev evs IH]; intros st; simpl; [done|].
  etrans; [apply server_event_advances|apply IH].
Qed.

End forward.

(** ** One call over the network *)

Section calls.
Context `{!UuidDisplay} `{!UuidUrl} `{!RaftTypes} `{!JsonText} `{!HttpText} `{!Chrono} `{!AddrText}.
Context `{!HashIter N} `{!HashIter DiskId}.
Context {W : Type} `{!Raft W} `{!RaftLaws W} `{!RaftMembership W} `{!RaftNodeLaws W}.
Variable endpoint : string.
Implicit Types st : AppState W.
Implicit Types hw : HttpWorld W.

Abbreviation later := (advances raft_applied) (only parsing).

(** The service as the client's world contains it. *)
Definition hw_service hw : W := as_metadata (hw_server hw).

(** The response is what the server answered, except that its body may be lost. *)
Definition received (resp resp0 : HttpResponse) : Prop :=
  hp_status resp = hp_status resp0 ∧ (hp_body resp = hp_body resp0 ∨ hp_body resp = None).

(** What a call leaves behind: the server was at [st1] when the request arrived, if
    it did, and at [st2] when it had been handled. *)
Definition call_spec (rq : HttpRequest) hw hw' (r : result string HttpResponse) : Prop :=
  later (hw_service hw) (hw_service hw') ∧
  ∀ resp, r = Ok resp → ∃ env st1 st2 resp0,
    later (hw_service hw) (as_metadata st1) ∧ serve env rq st1 = (st2, resp0) ∧
    later (as_metadata st2) (hw_service hw') ∧ received resp resp0.

Lemma http_exchange_spec x rq st st' r :
  exchange x rq st = (st', r) →
  later (as_metadata st) (as_metadata st') ∧
  ∀ resp, r = Ok resp → ∃ st1 st2 resp0,
    later (as_metadata st) (as_metadata st1) ∧ serve (ex_env x) rq st1 = (st2, resp0) ∧
    later (as_metadata st2) (as_metadata st') ∧ received resp resp0.
Proof.
  unfold exchange. set (st1 := server_events (ex_before x) st).
  assert (later (as_metadata st) (as_metadata st1)) as Hl1 by apply server_events_advances.
  pose proof (serve_advances (ex_env x) rq st1) as Hl2.
  destruct (serve (ex_env x) rq st1) as [st2 resp0] eqn:Hs. simpl in Hl2.
  destruct (ex_fate x) as [|msg|msg|]; intros [= <- <-]; (split; [|intros resp [= <-]]).
  - etrans; [apply Hl1|]. etrans; [apply Hl2|apply server_events_advances].
  - exists st1, st2, resp0. split_and!; [done|done|apply server_events_advances|]. by split; [|left].
  - etrans; [apply Hl1|apply server_events_advances].
  - etrans; [apply Hl1|]. etrans; [apply Hl2|apply server_events_advances].
  - etrans; [apply Hl1|]. etrans; [apply Hl2|apply server_events_advances].
  - exists st1, st2, resp0. split_and!; [done|done|apply server_events_advances|]. by split; [|right].
Qed.

Lemma network_send_spec method path body hw hw' r :
  network_send endpoint method (endpoint +:+ path) body hw = (hw', r) →
  call_spec (MkHttpRequest method path (json_sent <$> body)) hw hw' r.
Proof.
  unfold network_send. rewrite strip_str_prefix_app.
  destruct (hw_exchanges hw) as [|x xs]; [by intros [= <- <-]|].
  destruct (exchange x _ (hw_server hw)) as [st' r'] eqn:Hx. intros [= <- <-].
  apply http_exchange_spec in Hx as [Hl1 Hl2]. split; [done|]. intros resp Hr.
  destruct (Hl2 _ Hr) as (st1 & st2 & resp0 & ? & ? & ? & ?). by exists (ex_env x), st1, st2, resp0.
Qed.

#[local] Existing Instance http_network.

Lemma http_get_spec path hw hw' r :
  http_get (HttpTransport0 := http_network endpoint) endpoint path hw = (hw', r) →
  call_spec (MkHttpRequest GET path None) hw hw' r.
Proof. apply network_send_spec. Qed.

Lemma http_post_spec path body hw hw' r :
  http_post (HttpTransport0 := http_network endpoint) endpoint path body hw = (hw', r) →
  call_spec (MkHttpRequest POST path (Some (json_sent (json_print body)))) hw hw' r.
Proof. apply network_send_spec. Qed.

(** What is read of a body the server wrote is read of the document in it. *)
Lemma received_json {A} (d : json → option A) status j resp a :
  received resp (json_response status j) → response_json d resp = Ok a → d j = Some a.
Proof.
  intros [_ Hb]. unfold response_json. simpl in Hb. destruct Hb as [-> | ->]; [|done].
  simpl. rewrite json_parse_print. simpl. by destruct (d j); intros [= <-].
Qed.

(** ** The server's side of each request *)

Lemma serve_status env st :
  serve env (MkHttpRequest GET "/api/v1/cluster/status" None) st = cluster_status st.
Proof.
  unfold serve. by replace (find_route routes _ _) with (Ok (E := N) (ClusterStatusEp, @nil string))
    by (vm_compute; reflexivity).
Qed.

Lemma serve_lookup env op st :
  serve env (MkHttpRequest GET ("/api/v1/operations" +:+ ("/" +:+ to_string op)) None) st = lookup_operation op st.
Proof.
  destruct op as [u]. unfold serve. cbn [hr_method hr_path hr_body].
  change (to_string (OperationId_new u)) with (uuid_to_string u). rewrite route_lookup_operation.
  cbn [handle]. unfold with_id. cbn [head]. destruct (uuid_url_plain u) as [Hp _].
  simpl. rewrite percent_decode_plain by done. by rewrite uuid_parse_to_string.
Qed.

(** A body written by a codec of the server's reader. *)
Lemma with_json_codec {A} (d : json → option A) ser fit (h : A → AppState W → AppState W * HttpResponse) a st :
  Codec d ser fit → fit a → body_fits (json_print (ser a)) →
  with_json d (Some (json_sent (json_print (ser a)))) h st = h a st.
Proof.
  intros Hc Ha Hfits. unfold with_json. simpl. rewrite is_json_type_json, decide_True by done.
  rewrite json_parse_print. by rewrite codec_fit.
Qed.

Lemma with_json_too_long {A} (d : json → option A) (h : A → AppState W → AppState W * HttpResponse) text st :
  ¬ body_fits text → with_json d (Some (json_sent text)) h st = (st, rejection 413).
Proof. intros Hlong. unfold with_json. simpl. by rewrite is_json_type_json, decide_False. Qed.

Lemma rejection_not_success status resp :
  400 ≤ status → received resp (rejection status) → is_success resp = true → False.
Proof.
  intros Hs [Hst _] Hsucc. unfold is_success in Hsucc. apply bool_decide_eq_true in Hsucc. simpl in Hst. lia.
Qed.

Lemma with_json_codec_only {A} (d : json → option A) ser fit (h : A → AppState W → AppState W * HttpResponse) a st :
  Codec d ser fit →
  with_json d (Some (json_sent (json_print (ser a)))) h st = h a st ∧ fit a ∨
  ∃ status, 400 ≤ status ∧ with_json d (Some (json_sent (json_print (ser a)))) h st = (st, rejection status).
Proof.
  intros Hc. destruct (decide (body_fits (json_print (ser a)))) as [Hfits|Hlong].
  2: { right. exists 413. split; [lia|by apply with_json_too_long]. }
  unfold with_json. simpl. rewrite is_json_type_json, decide_True, json_parse_print by done.
  destruct (d (ser a)) as [b|] eqn:Hb; [left|right; exists 422; split; [lia|done]]. by apply codec_only in Hb as [-> ?].
Qed.

Lemma serve_commit env body st :
  serve env (MkHttpRequest POST "/api/v1/extent-mappings" body) st =
    with_json de_extent_mapping_request body commit_extent_mapping st.
Proof.
  unfold serve. by replace (find_route routes _ _) with (Ok (E := N) (CommitEp, @nil string))
    by (vm_compute; reflexivity).
Qed.

Lemma serve_commit_batch env body st :
  serve env (MkHttpRequest POST "/api/v1/extent-mappings/batch" body) st =
    with_json (de_vec de_extent_mapping_request) body commit_extent_mapping_batch st.
Proof.
  unfold serve. by replace (find_route routes _ _) with (Ok (E := N) (CommitBatchEp, @nil string))
    by (vm_compute; reflexivity).
Qed.

(** ** The client's side *)

Abbreviation transport := (http_network endpoint) (only parsing).

(** A state of the service during a call. *)
Definition during hw hw' (w : W) : Prop := later (hw_service hw) w ∧ later w (hw_service hw').

Lemma during_seen hw hw' w : during hw hw' w → seen_between (λ hw, sm_data (hw_service hw)) hw hw' (sm_data w).
Proof.
  intros [Hl1 Hl2]. split_and!; [apply sm_data_reachable..| |]; by apply advances_epoch.
Qed.

Lemma fetch_status_spec hw hw' r :
  fetch_status (HttpTransport0 := transport) endpoint hw = (hw', r) →
  later (hw_service hw) (hw_service hw') ∧
  ∀ s, r = Ok s → ∃ w, during hw hw' w ∧ EpochId_new (csr_placement_epoch s) = sm_epoch (sm_data w).
Proof.
  unfold fetch_status. destruct (http_get _ _ hw) as [hw1 r1] eqn:Hg.
  apply http_get_spec in Hg as [Hl Hok].
  destruct r1 as [resp|]; [|by intros [= <- <-]].
  destruct (is_success resp); intros [= <- <-]; (split; [done|]); [|done].
  intros s Hs. destruct (Hok resp eq_refl) as (env & st1 & st2 & resp0 & Hl1 & Hserve & Hl2 & Hrecv).
  rewrite serve_status in Hserve. injection Hserve as <- <-.
  destruct (response_json _ resp) as [s'|] eqn:Hj; [|done]. injection Hs as ->.
  eapply received_json in Hj; [|done]. apply status_read_only in Hj as ->.
  exists (as_metadata st1). split; [done|]. simpl. unfold svc_current_epoch.
  by destruct (sm_epoch (sm_data (as_metadata st1))).
Qed.

(** A call of the client is a call of the service at some moment between its start
    and its end, if it returns a result; in any case time only moves forward. *)
Definition linearised {A} (http : HttpWorld W → HttpWorld W * result Error A) (svc : W → W * result Error A) : Prop :=
  ∀ hw hw' r, http hw = (hw', r) →
    later (hw_service hw) (hw_service hw') ∧
    ∀ a, r = Ok a → ∃ w1 w2,
      later (hw_service hw) w1 ∧ svc w1 = (w2, Ok a) ∧ later w2 (hw_service hw').

Lemma epoch_linearised :
  linearised (http_current_epoch (HttpTransport0 := transport) endpoint) (λ w, (w, Ok (svc_current_epoch w))).
Proof.
  intros hw hw' r. unfold http_current_epoch. destruct (fetch_status _ hw) as [hw1 r1] eqn:Hf.
  apply fetch_status_spec in Hf as [Hl Hok]. intros [= <- <-]. split; [done|].
  intros e He. destruct r1 as [s|]; [|done]. injection He as <-.
  destruct (Hok s eq_refl) as (w & [Hl1 Hl2] & He). exists w, w. split_and!; [done| |done].
  by unfold svc_current_epoch; rewrite He.
Qed.

Lemma lookup_linearised op :
  linearised (http_lookup_operation (HttpTransport0 := transport) endpoint op)
    (λ w, (w, Ok (committed_of <$> svc_lookup_by_operation_id op w))).
Proof.
  intros hw hw' r. unfold http_lookup_operation. destruct (http_get _ _ hw) as [hw1 r1] eqn:Hg.
  apply http_get_spec in Hg as [Hl Hok]. destruct r1 as [resp|]; [|by intros [= <- <-]].
  destruct (Hok resp eq_refl) as (env & st1 & st2 & resp0 & Hl1 & Hserve & Hl2 & Hrecv).
  rewrite serve_lookup in Hserve. injection Hserve as <- <-.
  rewrite decide_False by (rewrite (proj1 Hrecv); done).
  destruct (is_success resp); intros [= <- <-]; (split; [done|]); [|done]. intros a Hr.
  destruct (response_json _ resp) as [l|] eqn:Hj; [|done].
  eapply received_json in Hj; [|done]. apply lookup_read_only in Hj as ->.
  change (lookup_result (lookup_response (svc_lookup_by_operation_id op (as_metadata st1))) = Ok a) in Hr.
  rewrite lookup_response_result in Hr. injection Hr as <-. by exists (as_metadata st1), (as_metadata st1).
Qed.

Lemma http_refresh_spec c hw hw' c' e :
  http_refresh_metadata (HttpTransport0 := transport) endpoint c hw = (hw', c', Ok e) →
  cache_epoch c' = e ∧ ∃ w, during hw hw' w ∧ e = sm_epoch (sm_data w).
Proof.
  unfold http_refresh_metadata. destruct (fetch_status _ hw) as [hw1 [s|]] eqn:Hf; [|done].
  apply fetch_status_spec in Hf as [_ Hok].
  destruct (Hok s eq_refl) as (w & [Hw1 Hw2] & He). rewrite He.
  destruct (http_get _ "/api/v1/nodes" hw1) as [hw2 [nodes_resp|]] eqn:Hn; [|done].
  apply http_get_spec in Hn as [Hl2 _].
  destruct (is_success nodes_resp).
  - destruct (response_json _ nodes_resp); [|done].
    destruct (http_get _ "/api/v1/volumes" hw2) as [hw3 [vols_resp|]] eqn:Hv; [|done].
    apply http_get_spec in Hv as [Hl3 _].
    assert (later w (hw_service hw3)) by by do 2 (etrans; [done|]).
    destruct (is_success vols_resp); [destruct (response_json _ vols_resp); [|done]|];
      intros [= <- <- <-]; (split; [done|]); by exists w.
  - intros [= <- <- <-]. split; [done|]. exists w. split; [|done]. split; [done|by etrans].
Qed.

(** The client is one that the recovery code can rely on. *)
Definition http_client_laws : @MetadataClientLaws _ _ _ (http_metadata_client endpoint).
Proof.
  refine {| client_view := λ hw, sm_data (hw_service hw) |}.
  - intros op hw hw' r _ Hr. destruct (lookup_linearised _ _ _ _ Hr) as [_ Hok].
    destruct (Hok r eq_refl) as (w & w2 & ? & [= <- <-] & ?). exists (sm_data w). by split; [apply during_seen|].
  - intros hw hw' e _ He. destruct (epoch_linearised _ _ _ He) as [_ Hok].
    destruct (Hok e eq_refl) as (w & w2 & ? & [= <- <-] & ?). exists (sm_data w). by split; [apply during_seen|].
  - intros c hw hw' c' e _ (Hc & w & Hw & ->)%http_refresh_spec. split; [done|].
    exists (sm_data w). split; [by apply during_seen|done].
Defined.

(** A request the server reads with the client's codec, answered with success. *)
Lemma posted {A} (d : json → option A) ser fit (h : A → AppState W → AppState W * HttpResponse) path a hw hw' r :
  Codec d ser fit →
  (∀ env body st, serve env (MkHttpRequest POST path body) st = with_json d body h st) →
  http_post (HttpTransport0 := transport) endpoint path (ser a) hw = (hw', r) →
  later (hw_service hw) (hw_service hw') ∧
  ∀ resp, r = Ok resp → is_success resp = true → ∃ st1 st2 resp0,
    later (hw_service hw) (as_metadata st1) ∧ h a st1 = (st2, resp0) ∧
    later (as_metadata st2) (hw_service hw') ∧ received resp resp0.
Proof.
  intros Hc Hserve [Hl Hok]%http_post_spec. split; [done|]. intros resp Hr Hsucc.
  destruct (Hok resp Hr) as (env & st1 & st2 & resp0 & Hl1 & Hs & Hl2 & Hrecv). rewrite Hserve in Hs.
  destruct (with_json_codec_only d ser fit h a st1 Hc) as [[Hh _]|(status & Hstatus & Hh)]; rewrite Hh in Hs.
  - by exists st1, st2, resp0.
  - injection Hs as <- <-. by destruct (rejection_not_success status resp).
Qed.

(** The two kinds of answers, read by the client. *)
Lemma epoch_answer svc st1 st2 resp0 resp m ep :
  epoch_response (on_service svc st1) = (st2, resp0) → received resp resp0 → is_success resp = true →
  EpochId_new <$> map_network m (response_json de_extent_mapping_response resp) = Ok ep →
  svc (as_metadata st1) = (as_metadata st2, Ok ep).
Proof.
  unfold on_service. destruct (svc (as_metadata st1)) as [w r]. simpl.
  destruct r as [e|e]; intros [= <- <-] Hrecv Hsucc.
  - destruct (response_json _ resp) as [n|] eqn:Hj; [|done]. intros [= <-].
    eapply received_json in Hj; [|done].
    pose proof (codec_only (Codec := codec_extent_mapping_response) e (EpochId_new n)) as Hc.
    cbv beta in Hc. rewrite Hj in Hc. by destruct (Hc eq_refl) as [-> _].
  - unfold is_success in Hsucc. by rewrite (proj1 Hrecv) in Hsucc.
Qed.

Lemma lease_answer svc st1 st2 resp0 resp m r' :
  lease_response (on_service svc st1) = (st2, resp0) → received resp resp0 → is_success resp = true →
  map_network m (response_json de_lease_response resp) = Ok r' →
  svc (as_metadata st1) = (as_metadata st2, Ok r').
Proof.
  unfold on_service. destruct (svc (as_metadata st1)) as [w r]. simpl.
  destruct r as [lr|e]; intros [= <- <-] Hrecv Hsucc.
  - destruct (response_json _ resp) as [n|] eqn:Hj; [|done]. intros [= <-].
    eapply received_json in Hj; [|done]. by apply codec_only in Hj as [-> _].
  - unfold is_success in Hsucc. by rewrite (proj1 Hrecv) in Hsucc.
Qed.

Lemma commit_linearised e :
  linearised (http_commit_extent_mapping (HttpTransport0 := transport) endpoint e) (svc_commit_extent_mapping e).
Proof.
  intros hw hw' r. unfold http_commit_extent_mapping.
  destruct (http_post _ _ _ hw) as [hw1 r1] eqn:Hp.
  eapply posted in Hp as [Hl Hok]; [|apply _|by intros; apply serve_commit].
  destruct r1 as [resp|]; [|by intros [= <- <-]].
  destruct (is_success resp) eqn:Hsucc; intros [= <- <-]; (split; [done|]); [|done].
  intros ep Hep. destruct (Hok resp eq_refl Hsucc) as (st1 & st2 & resp0 & Hl1 & Hh & Hl2 & Hrecv).
  exists (as_metadata st1), (as_metadata st2). split_and!; [done| |done]. by eapply epoch_answer.
Qed.

Lemma batch_linearised es :
  es ≠ [] →
  linearised (http_commit_extent_mappings_batch (HttpTransport0 := transport) endpoint es)
    (svc_commit_extent_mappings_batch es).
Proof.
  intros Hes hw hw' r. unfold http_commit_extent_mappings_batch. destruct es as [|e0 es0]; [done|].
  set (es := e0 :: es0) in *. destruct (http_post _ _ _ hw) as [hw1 r1] eqn:Hp.
  eapply posted in Hp as [Hl Hok]; [|apply codec_vec, _|by intros; apply serve_commit_batch].
  destruct r1 as [resp|]; [|by intros [= <- <-]].
  destruct (is_success resp) eqn:Hsucc; intros [= <- <-]; (split; [done|]); [|done].
  intros ep Hep. destruct (Hok resp eq_refl Hsucc) as (st1 & st2 & resp0 & Hl1 & Hh & Hl2 & Hrecv).
  exists (as_metadata st1), (as_metadata st2). split_and!; [done| |done]. by eapply epoch_answer.
Qed.

Lemma lease_linearised {A} (d : json → option A) ser fit (h : A → AppState W → AppState W * HttpResponse)
    action (a : A) svc :
  Codec d ser fit →
  (∀ env body st, serve env (MkHttpRequest POST ("/api/v1/leases/" +:+ action) body) st = with_json d body h st) →
  (∀ st, h a st = lease_response (on_service svc st)) →
  linearised (http_lease (HttpTransport0 := transport) endpoint action (ser a)) svc.
Proof.
  intros Hc Hserve Hh hw hw' r. unfold http_lease.
  destruct (http_post _ _ _ hw) as [hw1 r1] eqn:Hp.
  eapply posted in Hp as [Hl Hok]; [|done|done].
  destruct r1 as [resp|]; [|by intros [= <- <-]].
  destruct (is_success resp) eqn:Hsucc; intros [= <- <-]; (split; [done|]); [|done].
  intros lr Hlr. destruct (Hok resp eq_refl Hsucc) as (st1 & st2 & resp0 & Hl1 & Ha & Hl2 & Hrecv).
  rewrite Hh in Ha. exists (as_metadata st1), (as_metadata st2). split_and!; [done| |done]. by eapply lease_answer.
Qed.

Lemma serve_lease env action ep body st :
  find_route routes POST ("/api/v1/leases/" +:+ action) = Ok (ep, []) →
  serve env (MkHttpRequest POST ("/api/v1/leases/" +:+ action) body) st = handle env ep [] body st.
Proof. intros Hr. unfold serve. cbn [hr_method hr_path hr_body]. by rewrite Hr. Qed.

Lemma acquire_linearised v s now ttl :
  linearised (http_acquire_lease (HttpTransport0 := transport) endpoint v s now ttl) (svc_acquire_lease v s now ttl).
Proof.
  apply (lease_linearised de_lease_action_request (λ '(v, s, now_ms, ttl_ms), ser_lease_request v s now_ms ttl_ms)
    (λ '(v, s, now_ms, ttl_ms), is_u64 now_ms ∧ is_u64 ttl_ms) acquire_lease "acquire" (v, s, now, ttl)); [apply _| |done].
  intros. by erewrite serve_lease by (vm_compute; reflexivity).
Qed.

Lemma renew_linearised v s now ttl :
  linearised (http_renew_lease (HttpTransport0 := transport) endpoint v s now ttl) (svc_renew_lease v s now ttl).
Proof.
  apply (lease_linearised de_lease_action_request (λ '(v, s, now_ms, ttl_ms), ser_lease_request v s now_ms ttl_ms)
    (λ '(v, s, now_ms, ttl_ms), is_u64 now_ms ∧ is_u64 ttl_ms) renew_lease "renew" (v, s, now, ttl)); [apply _| |done].
  intros. by erewrite serve_lease by (vm_compute; reflexivity).
Qed.

Lemma release_linearised v s :
  linearised (http_release_lease (HttpTransport0 := transport) endpoint v s) (svc_release_lease v s).
Proof.
  apply (lease_linearised de_lease_release_request (λ '(v, s), ser_lease_release_request v s) (λ _, True)
    release_lease "release" (v, s)); [apply _| |done].
  intros. by erewrite serve_lease by (vm_compute; reflexivity).
Qed.

(** C8: Over a network that loses requests, replies and bodies, while the server
    handles the requests of others and Raft replicates on its own, every call of the
    HTTP client that returns a result is that call of the metadata service at one
    moment between its start and its end: commits, batches, lookups, the epoch and
    the lease requests return exactly what the service answered, with the effect it
    had; an error leaves the service at a state it would have reached anyway or with
    the effect of the call. *)
Theorem http_calls_linearise :
  (∀ e, linearised (mc_commit_extent_mapping (MetadataClient := http_metadata_client endpoint) e)
          (svc_commit_extent_mapping e)) ∧
  (∀ e es, linearised (mc_commit_extent_mappings_batch (MetadataClient := http_metadata_client endpoint) (e :: es))
             (svc_commit_extent_mappings_batch (e :: es))) ∧
  (∀ op, linearised (mc_lookup_operation (MetadataClient := http_metadata_client endpoint) op)
           (λ w, (w, Ok (committed_of <$> svc_lookup_by_operation_id op w)))) ∧
  linearised (mc_current_epoch (MetadataClient := http_metadata_client endpoint))
    (λ w, (w, Ok (svc_current_epoch w))) ∧
  (∀ v s now ttl, linearised (mc_acquire_lease (MetadataClient := http_metadata_client endpoint) v s now ttl)
                    (svc_acquire_lease v s now ttl)) ∧
  (∀ v s now ttl, linearised (mc_renew_lease (MetadataClient := http_metadata_client endpoint) v s now ttl)
                    (svc_renew_lease v s now ttl)) ∧
  (∀ v s, linearised (mc_release_lease (MetadataClient := http_metadata_client endpoint) v s)
            (svc_release_lease v s)).
Proof.
  split_and!; intros.
  - apply commit_linearised.
  - by apply batch_linearised.
  - apply lookup_linearised.
  - apply epoch_linearised.
  - apply acquire_linearised.
  - apply renew_linearised.
  - apply release_linearised.
Qed.

(** C22: A commit acknowledged over HTTP is committed: it is in the log, at a place
    where the specification allows it (volume known, epoch current, compare-and-swap
    passed), after everything committed when the call began; the epoch returned is
    its own.  Nothing that the network or other clients do meanwhile changes this. *)
Theorem http_acknowledged_commit e hw hw' ep :
  mc_commit_extent_mapping (MetadataClient := http_metadata_client endpoint) e hw = (hw', Ok ep) →
  ep = ent_epoch e ∧
  ∃ pre, raft_log (hw_service hw) `prefix_of` pre ∧
    pre ++ [CommitExtentMapping e] `prefix_of` raft_log (hw_service hw') ∧
    spec_commit_allowed e (log_run pre spec_init).1.
Proof.
  intros Hc. destruct (commit_linearised _ _ _ _ Hc) as [_ Hok].
  destruct (Hok ep eq_refl) as (w1 & w2 & [Hl1 _] & Hs & [Hl2 _]).
  apply acknowledged_commit_is_committed in Hs as (He & _ & _ & _ & pre & Hpre & Hlog & Hallow).
  split; [done|]. exists pre. split_and!; [by etrans|by rewrite <-Hlog|done].
Qed.

(** ** A network that delivers *)

(** The request and the reply arrive, and nothing else happens meanwhile. *)
Definition quiet (x : Exchange) : Prop := ex_before x = [] ∧ ex_fate x = Delivered ∧ ex_after x = [].

(** The same result, up to the text of an error. *)
Definition same_outcome {A} (r r' : result Error A) : Prop :=
  match r, r' with Ok a, Ok b => a = b | Err _, Err _ => True | _, _ => False end.

(** Over such a network the client does exactly what the service does. *)
Definition agrees {A} (http : HttpWorld W → HttpWorld W * result Error A) (svc : W → W * result Error A) : Prop :=
  ∀ st x xs w r, quiet x → svc (as_metadata st) = (w, r) → Forall request_typed (raft_log w) →
    ∃ r', http (MkHttpWorld st (x :: xs)) = (MkHttpWorld (set_metadata w st) xs, r') ∧ same_outcome r r'.

Lemma quiet_send method path body st x xs :
  quiet x →
  network_send endpoint method (endpoint +:+ path) body (MkHttpWorld st (x :: xs)) =
    let '(st, resp) := serve (ex_env x) (MkHttpRequest method path (json_sent <$> body)) st in
    (MkHttpWorld st xs, Ok resp).
Proof.
  intros (Hb & Hf & Ha). unfold network_send. rewrite strip_str_prefix_app. simpl. unfold exchange.
  rewrite Hb, Hf, Ha. simpl. by destruct (serve _ _ st).
Qed.

(** What the service returns from a log of typed requests is typed. *)
Lemma svc_call_typed {A} req (decode : MetadataResponse → result Error A) w w' a :
  svc_call req decode w = (w', Ok a) → Forall request_typed (raft_log w') →
  ∃ resp, decode resp = Ok a ∧ response_typed resp.
Proof.
  intros (pre & s & rs & resp & _ & Hlog & Hs & Hreq & Hdec)%svc_call_ok Ht. rewrite Hlog in Ht.
  apply Forall_app in Ht as [Hpre [Hr _]%Forall_cons].
  destruct (apply_requests_typed _ _ _ _ Hpre sm_typed_default Hs) as [Hst _].
  exists resp. split; [done|]. by eapply apply_request_typed.
Qed.

Lemma sm_data_typed w : Forall request_typed (raft_log w) → sm_typed (sm_data w).
Proof.
  intros Ht. destruct (raft_applied_state w) as [rs Hw].
  eapply apply_requests_typed, Hw; [by apply Forall_take|apply sm_typed_default].
Qed.

Lemma response_json_print {A} (d : json → option A) status j :
  response_json d (json_response status j) = ok_or (read_error (json_print j)) (d j).
Proof. unfold response_json. simpl. by rewrite json_parse_print. Qed.

Lemma post_agrees {A} (d : json → option A) ser fit (h : A → AppState W → AppState W * HttpResponse)
    path a st x xs :
  Codec d ser fit → fit a → body_fits (json_print (ser a)) → quiet x →
  (∀ env body st, serve env (MkHttpRequest POST path body) st = with_json d body h st) →
  http_post (HttpTransport0 := transport) endpoint path (ser a) (MkHttpWorld st (x :: xs)) =
    let '(st, resp) := h a st in (MkHttpWorld st xs, Ok (E := string) resp).
Proof.
  intros Hc Ha Hfits Hx Hserve. unfold http_post, url. cbn [http_send http_network]. rewrite quiet_send by done.
  simpl. by rewrite Hserve, (with_json_codec d ser fit).
Qed.

(** What the client makes of the answer to a commit. *)
Lemma epoch_answer_agrees svc st w r m (what : HttpResponse → Error) :
  svc (as_metadata st) = (w, r) → (∀ e, r = Ok e → is_u64 (EpochId_as_u64 e)) →
  ∃ resp, epoch_response (on_service svc st) = (set_metadata w st, resp) ∧
    same_outcome r (if is_success resp
      then EpochId_new <$> map_network m (response_json de_extent_mapping_response resp)
      else Err (what resp)).
Proof.
  intros Hs Ht. unfold on_service. rewrite Hs. destruct r as [e|e]; simpl; eexists; (split; [done|]); [|done].
  rewrite response_json_print.
  pose proof (codec_fit (Codec := codec_extent_mapping_response) e (Ht e eq_refl)) as Hc.
  cbv beta in Hc. apply fmap_Some in Hc as (n & Hn & ->). by rewrite Hn.
Qed.

Lemma expect_epoch_typed what resp e :
  expect_epoch what resp = Ok e → response_typed resp → is_u64 (EpochId_as_u64 e).
Proof. by destruct resp; intros [= <-]. Qed.

Lemma commit_agrees e :
  entry_typed e → body_fits (json_print (ser_extent_mapping_request e)) →
  agrees (http_commit_extent_mapping (HttpTransport0 := transport) endpoint e) (svc_commit_extent_mapping e).
Proof.
  intros He Hfits st x xs w r Hx Hs Ht. unfold http_commit_extent_mapping.
  erewrite (post_agrees de_extent_mapping_request); [|apply _|done..|by intros; apply serve_commit].
  unfold commit_extent_mapping.
  destruct (epoch_answer_agrees (svc_commit_extent_mapping e) st w r "failed to parse commit response: "
    (λ resp, ErrorRaft ("extent mapping commit failed (status " +:+ status_text (hp_status resp) +:+ "): "
                          +:+ response_text resp)) Hs) as (resp & -> & Ho).
  { intros ep ->. apply svc_call_typed in Hs as (rp & Hd & Hrt); [|done]. by eapply expect_epoch_typed. }
  destruct (is_success resp); eauto.
Qed.

Lemma batch_agrees e0 es0 :
  Forall entry_typed (e0 :: es0) → body_fits (json_print (ser_vec ser_extent_mapping_request (e0 :: es0))) →
  agrees (http_commit_extent_mappings_batch (HttpTransport0 := transport) endpoint (e0 :: es0))
    (svc_commit_extent_mappings_batch (e0 :: es0)).
Proof.
  intros He Hfits st x xs w r Hx Hs Ht. unfold http_commit_extent_mappings_batch. set (es := e0 :: es0) in *.
  erewrite (post_agrees (de_vec de_extent_mapping_request));
    [|apply codec_vec, _|done..|by intros; apply serve_commit_batch].
  unfold commit_extent_mapping_batch.
  destruct (epoch_answer_agrees (svc_commit_extent_mappings_batch es) st w r "failed to parse batch commit response: "
    (λ resp, ErrorRaft ("extent mapping batch commit failed (status " +:+ status_text (hp_status resp) +:+ "): "
                          +:+ response_text resp)) Hs) as (resp & -> & Ho).
  { intros ep ->. apply svc_call_typed in Hs as (rp & Hd & Hrt); [|done]. by eapply expect_epoch_typed. }
  destruct (is_success resp); eauto.
Qed.

Lemma lookup_agrees op :
  agrees (http_lookup_operation (HttpTransport0 := transport) endpoint op)
    (λ w, (w, Ok (committed_of <$> svc_lookup_by_operation_id op w))).
Proof.
  intros st x xs w r Hx [= <- <-] Ht. unfold http_lookup_operation, http_get, url.
  cbn [http_send http_network]. rewrite quiet_send by done. rewrite serve_lookup.
  cbn -[committed_of_lookup]. rewrite response_json_print, lookup_read; [|].
  - eexists. split; [by destruct st|]. simpl.
    change (same_outcome (Ok (committed_of <$> svc_lookup_by_operation_id op (as_metadata st)))
      (lookup_result (lookup_response (svc_lookup_by_operation_id op (as_metadata st))))).
    by rewrite lookup_response_result.
  - intros em Hem. eapply lookup_operation_typed, Hem. by apply sm_data_typed.
Qed.

Lemma len_u32_typed {A} (l : list A) : len_u32 l ≤ u32_max.
Proof. unfold len_u32, u32_max. pose proof (N.mod_upper_bound (N.of_nat (length l)) 4294967296). lia. Qed.

Lemma sum_u64_typed l : is_u64 (sum_u64 l).
Proof.
  unfold sum_u64. apply foldl_typed; [|done]. intros. apply u64_add_typed.
Qed.

Lemma fetch_status_agrees st x xs :
  quiet x → Forall request_typed (raft_log (as_metadata st)) →
  ∃ s, fetch_status (HttpTransport0 := transport) endpoint (MkHttpWorld st (x :: xs)) = (MkHttpWorld st xs, Ok s) ∧
    EpochId_new (csr_placement_epoch s) = svc_current_epoch (as_metadata st).
Proof.
  intros Hx Ht. unfold fetch_status, http_get, url. cbn [http_send http_network].
  rewrite quiet_send by done. rewrite serve_status. unfold cluster_status. cbn zeta iota beta.
  rewrite response_json_print, status_read.
  - eexists. split; [done|]. simpl. by destruct (svc_current_epoch _).
  - split; simpl; try apply len_u32_typed; try apply sum_u64_typed. by apply (st_epoch _ (sm_data_typed _ Ht)).
Qed.

Lemma epoch_agrees :
  agrees (http_current_epoch (HttpTransport0 := transport) endpoint) (λ w, (w, Ok (svc_current_epoch w))).
Proof.
  intros st x xs w r Hx [= <- <-] Ht. unfold http_current_epoch.
  destruct (fetch_status_agrees st x xs Hx Ht) as (s & -> & He).
  eexists. split; [by destruct st|]. simpl. by rewrite He.
Qed.

Lemma lease_agrees {A} (d : json → option A) ser fit (h : A → AppState W → AppState W * HttpResponse)
    action (a : A) req :
  Codec d ser fit → fit a → body_fits (json_print (ser a)) →
  (∀ env body st, serve env (MkHttpRequest POST ("/api/v1/leases/" +:+ action) body) st = with_json d body h st) →
  (∀ st, h a st = lease_response (on_service (svc_call (Lease req) (expect_lease (action +:+ "_lease"))) st)) →
  agrees (http_lease (HttpTransport0 := transport) endpoint action (ser a))
    (svc_call (Lease req) (expect_lease (action +:+ "_lease"))).
Proof.
  intros Hc Ha Hfits Hserve Hh st x xs w r Hx Hs Ht. unfold http_lease.
  erewrite (post_agrees d); [|done..]. rewrite Hh. unfold on_service. rewrite Hs.
  destruct r as [lr|e]; simpl; [|by eexists].
  rewrite response_json_print, codec_fit; [by eexists|].
  apply svc_call_typed in Hs as (rp & Hd & Hrt); [|done]. by destruct rp; simplify_eq/=.
Qed.

Lemma acquire_agrees v s now ttl :
  is_u64 now → is_u64 ttl → body_fits (json_print (ser_lease_request v s now ttl)) →
  agrees (http_acquire_lease (HttpTransport0 := transport) endpoint v s now ttl) (svc_acquire_lease v s now ttl).
Proof.
  intros. apply (lease_agrees de_lease_action_request (λ '(v, s, now_ms, ttl_ms), ser_lease_request v s now_ms ttl_ms)
    (λ '(v, s, now_ms, ttl_ms), is_u64 now_ms ∧ is_u64 ttl_ms) acquire_lease "acquire" (v, s, now, ttl));
    [apply _|done|done| |done].
  intros. by erewrite serve_lease by (vm_compute; reflexivity).
Qed.

Lemma renew_agrees v s now ttl :
  is_u64 now → is_u64 ttl → body_fits (json_print (ser_lease_request v s now ttl)) →
  agrees (http_renew_lease (HttpTransport0 := transport) endpoint v s now ttl) (svc_renew_lease v s now ttl).
Proof.
  intros. apply (lease_agrees de_lease_action_request (λ '(v, s, now_ms, ttl_ms), ser_lease_request v s now_ms ttl_ms)
    (λ '(v, s, now_ms, ttl_ms), is_u64 now_ms ∧ is_u64 ttl_ms) renew_lease "renew" (v, s, now, ttl));
    [apply _|done|done| |done].
  intros. by erewrite serve_lease by (vm_compute; reflexivity).
Qed.

Lemma release_agrees v s :
  body_fits (json_print (ser_lease_release_request v s)) →
  agrees (http_release_lease (HttpTransport0 := transport) endpoint v s) (svc_release_lease v s).
Proof.
  intros. apply (lease_agrees de_lease_release_request (λ '(v, s), ser_lease_release_request v s) (λ _, True)
    release_lease "release" (v, s)); [apply _|done|done| |done].
  intros. by erewrite serve_lease by (vm_compute; reflexivity).
Qed.

(** A batch whose document is longer than the server reads. *)
Lemma batch_too_long e0 es0 st x xs :
  ¬ body_fits (json_print (ser_vec ser_extent_mapping_request (e0 :: es0))) → quiet x →
  ∃ err, http_commit_extent_mappings_batch (HttpTransport0 := transport) endpoint (e0 :: es0) (MkHttpWorld st (x :: xs))
    = (MkHttpWorld st xs, Err err).
Proof.
  intros Hlong Hx. unfold http_commit_extent_mappings_batch, http_post, url. set (es := e0 :: es0) in *.
  cbn [http_send http_network]. rewrite quiet_send by done. simpl.
  rewrite serve_commit_batch, with_json_too_long by done. by eexists.
Qed.

(** C16: When the network delivers, the client over HTTP and the metadata service
    are the same: for arguments that fit their Rust types, whose document is at most
    the two mebibytes the server reads, and a log of such requests,
    each call leaves the service in the same state and returns the same result, up to
    the text of an error.  Both sides' separate definitions of the documents agree,
    and nothing is refused on the way.  A batch with a longer document is refused with
    an error and leaves the service as it was. *)
Theorem http_client_equivalent :
  (∀ e, entry_typed e → body_fits (json_print (ser_extent_mapping_request e)) →
     agrees (mc_commit_extent_mapping (MetadataClient := http_metadata_client endpoint) e) (svc_commit_extent_mapping e)) ∧
  (∀ e es, Forall entry_typed (e :: es) → body_fits (json_print (ser_vec ser_extent_mapping_request (e :: es))) →
     agrees (mc_commit_extent_mappings_batch (MetadataClient := http_metadata_client endpoint) (e :: es))
       (svc_commit_extent_mappings_batch (e :: es))) ∧
  (∀ op, agrees (mc_lookup_operation (MetadataClient := http_metadata_client endpoint) op)
     (λ w, (w, Ok (committed_of <$> svc_lookup_by_operation_id op w)))) ∧
  agrees (mc_current_epoch (MetadataClient := http_metadata_client endpoint)) (λ w, (w, Ok (svc_current_epoch w))) ∧
  (∀ v s now ttl, is_u64 now → is_u64 ttl → body_fits (json_print (ser_lease_request v s now ttl)) →
     agrees (mc_acquire_lease (MetadataClient := http_metadata_client endpoint) v s now ttl) (svc_acquire_lease v s now ttl)) ∧
  (∀ v s now ttl, is_u64 now → is_u64 ttl → body_fits (json_print (ser_lease_request v s now ttl)) →
     agrees (mc_renew_lease (MetadataClient := http_metadata_client endpoint) v s now ttl) (svc_renew_lease v s now ttl)) ∧
  (∀ v s, body_fits (json_print (ser_lease_release_request v s)) →
     agrees (mc_release_lease (MetadataClient := http_metadata_client endpoint) v s) (svc_release_lease v s)) ∧
  (∀ e es st x xs, ¬ body_fits (json_print (ser_vec ser_extent_mapping_request (e :: es))) → quiet x →
     ∃ err, mc_commit_extent_mappings_batch (MetadataClient := http_metadata_client endpoint) (e :: es)
       (MkHttpWorld st (x :: xs)) = (MkHttpWorld st xs, Err err)).
Proof.
  split_and!; intros.
  - by apply commit_agrees.
  - by apply batch_agrees.
  - apply lookup_agrees.
  - apply epoch_agrees.
  - by apply acquire_agrees.
  - by apply renew_agrees.
  - by apply release_agrees.
  - by apply batch_too_long.
Qed.

End calls.

(** ** A cluster of one node behind HTTP *)

(** A single node has nothing to replicate; its memberships are not observed here. *)
Definition single_membership : RaftMembership (list MetadataRequest) :=
  {| joint_config := λ _, [{[1]}];
     add_learner := λ _ log, (log, Ok tt);
     change_membership := λ _ log, (log, Ok tt);
     raft_background := λ _ log, log |}.

Section single.
Context `{!UuidDisplay} `{!RaftTypes}.
#[local] Existing Instances single_raft single_raft_laws single_membership.

Lemma single_applied (log : list MetadataRequest) : holds_prefix log (length log).
Proof.
  unfold holds_prefix. simpl. rewrite take_ge by done. unfold single_state.
  destruct (apply_requests_total log sm_default sm_inv_default) as (s & rs & ->). eauto.
Qed.

Lemma single_write_advances req (log : list MetadataRequest) : advances length log (client_write req log).1.
Proof.
  simpl. destruct (apply_requests_total (log ++ [req]) sm_default sm_inv_default) as (s & rs & ->).
  split; simpl; [by apply prefix_app_r|]. rewrite length_app. lia.
Qed.

Definition single_node_laws : @RaftNodeLaws _ _ (list MetadataRequest) single_raft single_raft_laws single_membership.
Proof.
  refine {| raft_applied := length |}.
  - apply single_applied.
  - apply single_write_advances.
  - by intros.
  - by intros.
  - by intros.
Defined.

End single.

Module HttpDemo.

Import Demo.

Definition chrono_N : Chrono :=
  {| DateTime := N; rfc3339 := u64_to_string; parse_rfc3339 := u64_of_string; rfc3339_round_trip := u64_of_to_string |}.

#[export] Existing Instances single_raft single_raft_laws single_membership single_node_laws.
#[export] Existing Instances json_digits http_text addr_text uuid_decimal_url chrono_N.

#[export] Instance hash_N : HashIter N := hash_iter_default N.
#[export] Instance hash_disk : HashIter DiskId := hash_iter_default DiskId.

Definition env : ApiEnv := MkApiEnv _ 77 (λ _, 0) 1000.

Definition deliver : Exchange := MkExchange _ [] env Delivered [].

(** A request arrives after somebody else's, and the reply is lost. *)
Definition lose_reply : Exchange :=
  MkExchange _ [OtherRequest env (MkHttpRequest GET "/api/v1/nodes" None)] env (ReplyLost "timeout") [Background 0].

Definition start (xs : list Exchange) : HttpWorld (list MetadataRequest) :=
  MkHttpWorld (MkAppState (take 4 setup) ∅ []) xs.

Definition at_endpoint : string := "http://10.0.0.1:9801".

Definition first_entry : ExtentMappingEntry := entry 0 1 (Some (op 100)) (Some 0).

Definition client : MetadataClient (HttpWorld (list MetadataRequest)) := http_metadata_client at_endpoint.

End HttpDemo.
Import Demo HttpDemo.

Lemma http_acknowledged_commit_witness :
  ∃ pre, take 4 setup `prefix_of` pre ∧
    spec_commit_allowed first_entry (log_run pre spec_init).1.
Proof.
  destruct (mc_commit_extent_mapping (MetadataClient := client) first_entry (start [deliver])) as [hw' r] eqn:Hr.
  assert (r = Ok (EpochId_new 1)) as -> by (vm_compute in Hr; injection Hr as _ <-; reflexivity).
  destruct (http_acknowledged_commit at_endpoint first_entry _ _ _ Hr) as (_ & pre & H1 & _ & H2).
  exists pre. split; [exact H1|exact H2].
Defined.

(** A commit whose reply is lost is answered with an error and committed all the
    same; the lookup that follows finds it. *)
Example lost_reply_resolved :
  let '(hw, r) := mc_commit_extent_mapping (MetadataClient := client) first_entry (start [lose_reply; deliver]) in
  let '(hw, found) := mc_lookup_operation (MetadataClient := client) (op 100) hw in
  is_ok r = false ∧ found = Ok (Some (committed_of (mapping_of_entry first_entry))).
Proof. vm_compute. split; reflexivity. Qed.

Lemma http_calls_linearise_witness :
  linearised (mc_commit_extent_mapping (MetadataClient := client) first_entry) (svc_commit_extent_mapping first_entry).
Proof. destruct (http_calls_linearise at_endpoint) as [Hc _]. exact (Hc first_entry). Defined.

Lemma http_client_equivalent_witness :
  entry_typed first_entry ∧ quiet deliver ∧
  agrees (mc_commit_extent_mapping (MetadataClient := client) first_entry) (svc_commit_extent_mapping first_entry).
Proof.
  assert (entry_typed first_entry) as Ht.
  { split; [vm_compute; discriminate..|]. intros v Hv. vm_compute in Hv. injection Hv as <-. vm_compute. discriminate. }
  split; [exact Ht|]. split; [repeat split; reflexivity|].
  destruct (http_client_equivalent at_endpoint) as [Hc _]. exact (Hc first_entry Ht ltac:(vm_compute; discriminate)).
Defined.
