(* ===== verification/WriteBatcher.v ===== *)
(** * The write batcher (crates/blockyard-ublk/src/write_batcher.rs)

    Writers queue metadata commits and wait on a one-shot channel each; a flush
    takes the whole queue, commits it in one proposal and answers every writer.
    A flush is two critical sections with the service call between them, so
    other submissions and flushes interleave with it: [bstep] is that step
    relation, [flush] and [flush_task_iteration] are its sequential runs. *)

From S2P Require Import Prelude Common MetadataSM MetadataInv MetadataSpec MetadataService.
From S2P Require Import Watermark MetadataCache ClientRecovery.

#[local] Open Scope N_scope.

(** ** Data *)

Record CacheUpdate := MkCacheUpdate {
  cu_volume_id : VolumeId;
  cu_block_start : N;
  cu_block_range : option Range;
  cu_block_size : N;
  cu_mapping : CachedExtentMapping;
}.

(** [pc_waiter] identifies the one-shot channel of the submission. *)
Record PendingCommit := MkPendingCommit {
  pc_request : CommitRequest;
  pc_waiter : N;
  pc_cache_update : CacheUpdate;
}.

Record WriteBatcherConfig := MkWriteBatcherConfig {
  wbc_flush_interval_ms : N;
  wbc_max_batch_size : nat;
}.

Definition WriteBatcherConfig_default : WriteBatcherConfig := MkWriteBatcherConfig 5 32.

(** [wb_notified] is the permit of the [Notify]; [wb_sent] lists the answers put
    in the one-shot channels, in order; [wb_inflight] the batches taken by
    flushes that are waiting for the service. *)
Record WriteBatcher {W : Type} := MkWriteBatcher {
  wb_world : W;
  wb_cache : MetadataCache;
  wb_watermark : WriteWatermark;
  wb_pending : list PendingCommit;
  wb_notified : bool;
  wb_config : WriteBatcherConfig;
  wb_inflight : list (list PendingCommit);
  wb_sent : list (N * result Error EpochId);
}.
Arguments WriteBatcher : clear implicits.

Section batcher.
Context `{!UuidDisplay} {W : Type} `{!MetadataClient W}.
Implicit Types b : WriteBatcher W.

Definition WriteBatcher_new (w : W) (c : MetadataCache) (wm : WriteWatermark)
    (config : WriteBatcherConfig) : WriteBatcher W :=
  MkWriteBatcher W w c wm [] false config [] [].

(** ** Operations *)

(** The part of [submit_commit] before it waits on its channel.  Both
    notifications leave at most one permit. *)
Definition submit_commit (p : PendingCommit) b : WriteBatcher W :=
  let pending := wb_pending b ++ [p] in
  let notified := if decide (wbc_max_batch_size (wb_config b) ≤ length pending)%nat then true
                  else wb_notified b in
  let notified := notified || true in
  MkWriteBatcher W (wb_world b) (wb_cache b) (wb_watermark b) pending notified (wb_config b)
    (wb_inflight b) (wb_sent b).

Definition pending_count b : nat := length (wb_pending b).

(** The cache update of one committed request. *)
Definition apply_cache_update (c : MetadataCache) (p : PendingCommit) : MetadataCache :=
  let u := pc_cache_update p in
  match cu_block_range u with
  | Some block_range =>
      set_extent_mapping_range (cu_volume_id u) block_range (cu_block_size u) (cu_mapping u) c
  | None => set_extent_mapping (cu_volume_id u) (cu_block_start u) (cu_mapping u) c
  end.

(** What is sent to every waiter of a batch. *)
Definition send_result (r : result Error EpochId) : result Error EpochId :=
  match r with Ok epoch => Ok epoch | Err e => Err (ErrorRaft (to_string e)) end.

(** First critical section: take the queue. *)
Definition take_pending b : WriteBatcher W * list PendingCommit :=
  (MkWriteBatcher W (wb_world b) (wb_cache b) (wb_watermark b) [] (wb_notified b) (wb_config b)
     (wb_inflight b) (wb_sent b), wb_pending b).

(** The service call for a taken batch and what follows it. *)
Definition commit_batch (commits : list PendingCommit) b
    : WriteBatcher W * result Error EpochId :=
  let '(w, r) := mc_commit_extent_mappings_batch (pc_request <$> commits) (wb_world b) in
  let '(wm, c) := match r with
    | Ok epoch => ((advance epoch (wb_watermark b)).1, foldl apply_cache_update (wb_cache b) commits)
    | Err _ => (wb_watermark b, wb_cache b)
    end in
  (MkWriteBatcher W w c wm (wb_pending b) (wb_notified b) (wb_config b) (wb_inflight b)
     (wb_sent b ++ ((λ p, (pc_waiter p, send_result r)) <$> commits)), r).

(** [flush], run without interference. *)
Definition flush b : WriteBatcher W :=
  let '(b, commits) := take_pending b in
  match commits with [] => b | _ => (commit_batch commits b).1 end.

(** One turn of the loop of [spawn_flush_task] after its wait: [arrivals] are
    the submissions made while it collects more writes. *)
Definition flush_task_iteration (arrivals : list PendingCommit) b : WriteBatcher W :=
  let b := MkWriteBatcher W (wb_world b) (wb_cache b) (wb_watermark b) (wb_pending b) false
             (wb_config b) (wb_inflight b) (wb_sent b) in
  match wb_pending b with
  | [] => b
  | _ =>
      let current_size := length (wb_pending b) in
      let b := if decide (current_size < wbc_max_batch_size (wb_config b) ∧ 0 < current_size)%nat
               then foldl (λ b p, submit_commit p b) b arrivals else b in
      flush b
  end.

(** ** Interleavings *)

Definition set_inflight (i : list (list PendingCommit)) b : WriteBatcher W :=
  MkWriteBatcher W (wb_world b) (wb_cache b) (wb_watermark b) (wb_pending b) (wb_notified b)
    (wb_config b) i (wb_sent b).

Inductive event :=
  | Submitted (p : PendingCommit)
  | Taken
  | Answered (batch : list PendingCommit) (r : result Error EpochId)
  | Foreign.

(** [Foreign]: other components advance the service, the cache, the watermark
    (which never goes back) or consume the notification. *)
Inductive bstep : WriteBatcher W → event → WriteBatcher W → Prop :=
  | step_submit b p : bstep b (Submitted p) (submit_commit p b)
  | step_take b b' commits : take_pending b = (b', commits) → commits ≠ [] →
      bstep b Taken (set_inflight (commits :: wb_inflight b) b')
  | step_answer b i1 commits i2 b' r : wb_inflight b = i1 ++ commits :: i2 →
      commit_batch commits (set_inflight (i1 ++ i2) b) = (b', r) →
      bstep b (Answered commits r) b'
  | step_foreign b w c wm n : watermark_value (wb_watermark b) ≤ watermark_value wm →
      bstep b Foreign
        (MkWriteBatcher W w c wm (wb_pending b) n (wb_config b) (wb_inflight b) (wb_sent b)).

Inductive bsteps : WriteBatcher W → list event → WriteBatcher W → Prop :=
  | bsteps_nil b : bsteps b [] b
  | bsteps_snoc b tr b1 ev b2 : bsteps b tr b1 → bstep b1 ev b2 → bsteps b (tr ++ [ev]) b2.

Definition submitted (tr : list event) : list PendingCommit :=
  omap (λ ev, match ev with Submitted p => Some p | _ => None end) tr.

Definition answered (tr : list event) : list (list PendingCommit * result Error EpochId) :=
  omap (λ ev, match ev with Answered batch r => Some (batch, r) | _ => None end) tr.

(** The answers a list of completed batches gives its writers. *)
Definition answers (l : list (list PendingCommit * result Error EpochId))
    : list (N * result Error EpochId) :=
  l ≫= λ '(batch, r), (λ p, (pc_waiter p, send_result r)) <$> batch.

(** ** Lemmas *)

Lemma commit_batch_frame commits b b' r :
  commit_batch commits b = (b', r) →
  wb_pending b' = wb_pending b ∧ wb_inflight b' = wb_inflight b ∧
  wb_sent b' = wb_sent b ++ answers [(commits, r)] ∧
  watermark_value (wb_watermark b) ≤ watermark_value (wb_watermark b') ∧
  (∀ e, r = Ok e → EpochId_as_u64 e ≤ watermark_value (wb_watermark b')).
Proof.
  unfold commit_batch, answers. csimpl. rewrite app_nil_r.
  destruct (mc_commit_extent_mappings_batch _ _) as [w [e|e]]; intros [= <- <-];
    simpl; split_and!; try done; unfold advance, advance_to; case_decide; simpl; naive_solver lia.
Qed.

(** The invariant of every interleaving: no submission is lost or duplicated,
    and the channels hold exactly the answers of the completed batches. *)
Definition batcher_inv (tr : list event) b : Prop :=
  submitted tr ≡ₚ wb_pending b ++ concat (wb_inflight b) ++ concat (answered tr).*1 ∧
  wb_sent b = answers (answered tr) ∧
  ∀ batch e, (batch, Ok e) ∈ answered tr → EpochId_as_u64 e ≤ watermark_value (wb_watermark b).

Lemma batcher_inv_step tr b ev b' :
  batcher_inv tr b → bstep b ev b' → batcher_inv (tr ++ [ev]) b'.
Proof.
  intros (Hperm & Hsent & Hwm) Hstep. unfold batcher_inv, submitted, answered in *.
  rewrite !omap_app. inversion Hstep as [? p|? ? commits Htake|? i1 commits i2 ? r Hi Hc|? w c wm n Hle];
    subst; simpl; rewrite ?app_nil_r.
  - split_and!; [|done..]. rewrite Hperm. rewrite <-!app_assoc. apply Permutation_app_head.
    by rewrite (Permutation_app_comm [p]), <-!app_assoc, app_assoc.
  - injection Htake as <- <-. simpl. split_and!; [|done..]. by rewrite Hperm, <-app_assoc.
  - apply commit_batch_frame in Hc as (Hp & Hi' & Hs & Hw & Hok). simpl in *.
    rewrite Hp, Hi', Hs, Hsent. split_and!.
    + rewrite Hperm, Hi, fmap_app, !concat_app. simpl. rewrite app_nil_r.
      apply Permutation_app_head. solve_Permutation.
    + unfold answers. by rewrite bind_app.
    + intros batch e. rewrite elem_of_app, list_elem_of_singleton. intros [He|[= -> <-]]; [|by apply Hok].
      apply Hwm in He. lia.
  - split_and!; [done..|]. intros batch e He%Hwm. lia.
Qed.

Lemma batcher_inv_steps w c wm config tr b :
  bsteps (WriteBatcher_new w c wm config) tr b → batcher_inv tr b.
Proof.
  intros Hsteps. remember (WriteBatcher_new w c wm config) as b0 eqn:Hb0.
  induction Hsteps as [|? tr b1 ev b2 _ IH Hstep]; [subst; by split_and!; [..|intros ?? ?%not_elem_of_nil]|].
  eauto using batcher_inv_step.
Qed.

Lemma answers_waiters l : (answers l).*1 = pc_waiter <$> concat l.*1.
Proof.
  induction l as [|[batch r] l IH]; csimpl; [done|]. unfold answers in *. csimpl.
  rewrite !fmap_app, IH, <-list_fmap_compose. done.
Qed.

Lemma elem_of_answers i r l :
  (i, r) ∈ answers l ↔
  ∃ batch r0 p, (batch, r0) ∈ l ∧ p ∈ batch ∧ i = pc_waiter p ∧ r = send_result r0.
Proof.
  unfold answers. rewrite list_elem_of_bind. split.
  - intros ([batch r0] & Hin & Hl). apply list_elem_of_fmap in Hin as (p & [= -> ->] & Hp). naive_solver.
  - intros (batch & r0 & p & Hl & Hp & -> & ->). exists (batch, r0). split; [|done].
    apply list_elem_of_fmap. eauto.
Qed.

(** A flush that nothing interferes with answers whatever was pending. *)
Lemma flush_sent b : ∃ r, wb_pending (flush b) = [] ∧ wb_inflight (flush b) = wb_inflight b ∧
  wb_sent (flush b) = wb_sent b ++ answers [(wb_pending b, r)].
Proof.
  unfold flush. simpl. destruct (wb_pending b) as [|p l] eqn:Hp.
  - exists (Err (ErrorIo EmptyString)). simpl. by rewrite app_nil_r.
  - destruct (commit_batch (p :: l) (take_pending b).1) as [b' r] eqn:Hc. exists r.
    apply commit_batch_frame in Hc as Hf. destruct Hf as (Hpe & Hi & Hs & _).
    simpl in *. rewrite Hc. simpl. by rewrite Hpe, Hi, Hs.
Qed.

(** ** Theorems *)


End batcher.

(** ** Witnesses *)

Module BatcherDemo.

Import Demo RecoveryDemo.

Definition pending (waiter b ver : N) (o : option OperationId) (prev : option N) : PendingCommit :=
  MkPendingCommit (entry b ver o prev) waiter
    (MkCacheUpdate vol b None 4096 (MkCached (ExtentId_new b) ver [] [] 0 0)).

Definition batcher : WriteBatcher (list MetadataRequest) :=
  WriteBatcher_new setup cache WriteWatermark_new WriteBatcherConfig_default.

Definition first : PendingCommit := pending 1 128 2 (Some (op 101)) None.
Definition second : PendingCommit := pending 2 0 3 (Some (op 102)) (Some 9).

End BatcherDemo.
Import Demo RecoveryDemo BatcherDemo.


(** A failing batch hides its committed part: both writers are told that their
    commit failed, while the first one's mapping is committed. *)
Theorem failed_batch_hides_commits :
  let b := flush (submit_commit second (submit_commit first batcher)) in
  (∃ e1 e2, wb_sent b = [(1, Err e1); (2, Err e2)]) ∧
  is_Some (svc_lookup_by_operation_id (op 101) (wb_world b)).
Proof. vm_compute. split; eauto. Qed.
