(* ===== verification/WritePipeline.v ===== *)
(** * The replicated write pipeline (crates/blockyard-ublk/src/write_pipeline.rs)

    A write is sent to the replica nodes of its extent in parallel and is
    successful once enough of them acknowledge it.  The data nodes are reached
    through the trait [DataNodeClient] (traits.rs), a class of operations over a
    world [W] shared with the metadata client; the order in which the parallel
    tasks finish is the parameter [JoinOrder].  [DataNodeLaws] states what the
    pipelines rely on of a data node. *)

From S2P Require Import Prelude Common MetadataSM MetadataSpec MetadataService Placement Checksum.
From S2P Require Import Watermark MetadataCache ClientRecovery.

#[local] Open Scope N_scope.

(** ** Traits *)

(** [Panic] is a task that panicked. *)
Class DataNodeClient (W : Type) := {
  dn_write_extent : NodeId → OperationId → SessionId → VolumeId → ExtentId → N → EpochId → list N →
    string → W → W * exec (result Error WriteAck);
}.

(** The order in which the tasks of a [JoinSet] complete. *)
Class JoinOrder (W : Type) := {
  join_order : ∀ {T}, W → list T → list T;
  join_order_perm : ∀ {T} w (l : list T), join_order w l ≡ₚ l;
}.

(** A data node that acknowledges a write it had not seen stores the payload; a
    call changes at most the extent it names, on the node it is addressed to, and
    leaves there the whole payload, what was there, or nothing readable; metadata
    calls leave the data nodes alone.  [stored] is what a node holds for an extent
    and version, [seen] the operations it has recorded. *)
Class DataNodeLaws (W : Type) `{!DataNodeClient W} `{!MetadataClient W} := {
  stored : W → NodeId → ExtentId → N → option (list N);
  seen : W → NodeId → OperationId → Prop;
  law_write_ok : ∀ n op s v x ver ep data sum w w' ack,
    ¬ seen w n op →
    dn_write_extent n op s v x ver ep data sum w = (w', Return (Ok ack)) → ack_success ack = true →
    ack_node_id ack = n ∧ stored w' n x ver = Some data;
  law_write_atomic : ∀ n op s v x ver ep data sum w w' r n' x' ver',
    dn_write_extent n op s v x ver ep data sum w = (w', r) →
    stored w' n' x' ver' = stored w n' x' ver' ∨
    (n' = n ∧ x' = x ∧
      (stored w' n' x' ver' = None ∨ (ver' = ver ∧ stored w' n' x' ver' = Some data)));
  law_write_seen : ∀ n op s v x ver ep data sum w w' r n' op',
    dn_write_extent n op s v x ver ep data sum w = (w', r) → n' ≠ n → seen w' n' op' ↔ seen w n' op';
  law_lookup_frame : ∀ op w w' r n',
    mc_lookup_operation op w = (w', r) →
    (∀ x' ver', stored w' n' x' ver' = stored w n' x' ver') ∧ (∀ op', seen w' n' op' ↔ seen w n' op');
}.

(** ** Data *)

Record WriteRequest := MkWriteRequest {
  wr_volume_id : VolumeId;
  wr_block_range : Range;
  wr_data : list N;
  wr_extent_blocks : N;
}.

Inductive WriteOutcome :=
  | WriteCommitted (epoch : EpochId)
  | WriteInsufficientAcks (acked required : nat)
  | WriteStaleEpoch
  | WriteMetadataCommitFailed (reason : string).

(** What the pipelines share through [Arc]s. *)
Record Pipeline {W : Type} := MkPipeline {
  pl_world : W;
  pl_cache : MetadataCache;
  pl_session : ClientSession;
  pl_watermark : WriteWatermark;
  pl_stale : StaleEpochHandler;
}.
Arguments Pipeline : clear implicits.

(** The global version counter, seeded from the clock (microseconds, cut to 64
    bits) by the first caller. *)
Definition next_extent_version (now_micros : N) (counter : option N) : option N * N :=
  let current := from_option id (now_micros `mod` u64_modulus) counter in
  (Some (u64_add current 1), current).

(** ** Parallel transmission *)

(** One spawned task: a call of [write_extent]. *)
Record WriteTask := MkWriteTask {
  wt_node : NodeId;
  wt_operation_id : OperationId;
  wt_session_id : SessionId;
  wt_volume_id : VolumeId;
  wt_extent_id : ExtentId;
  wt_extent_version : N;
  wt_epoch : EpochId;
  wt_data : list N;
  wt_checksum : string;
}.

Section transmit.
Context {W : Type} `{!DataNodeClient W} `{!JoinOrder W}.

(** The body of a task: what [join_next] yields for it. *)
Definition write_task (t : WriteTask) (w : W) : W * option WriteAck :=
  let '(w, r) := dn_write_extent (wt_node t) (wt_operation_id t) (wt_session_id t) (wt_volume_id t)
                   (wt_extent_id t) (wt_extent_version t) (wt_epoch t) (wt_data t) (wt_checksum t) w in
  (w, match r with
      | Return (Ok ack) => Some ack
      | Return (Err e) =>
          Some (MkWriteAck (wt_node t) false EmptyString (Some (AckInternalError (to_string e))))
      | Panic => None
      end).

(** The [join_next] loop: the acknowledgements in the order of completion. *)
Fixpoint join_all (tasks : list WriteTask) (w : W) : W * list WriteAck :=
  match tasks with
  | [] => (w, [])
  | t :: tasks =>
      let '(w, ack) := write_task t w in
      let '(w, acks) := join_all tasks w in
      (w, from_option (λ a, [a]) [] ack ++ acks)
  end.

Definition transmit (tasks : list WriteTask) (w : W) : W * list WriteAck :=
  join_all (join_order w tasks) w.

Definition transmit_to_replicas (nodes : list NodeId) (operation_id : OperationId)
    (session_id : SessionId) (volume_id : VolumeId) (extent_id : ExtentId) (extent_version : N)
    (epoch : EpochId) (data : list N) (checksum : string) (w : W) : W * list WriteAck :=
  transmit ((λ node_id, MkWriteTask node_id operation_id session_id volume_id extent_id extent_version
                          epoch data checksum) <$> nodes) w.

End transmit.

Definition ack_is_stale (a : WriteAck) : bool :=
  match ack_error a with Some AckStaleEpoch => true | _ => false end.

(** ** The pipeline *)

Section pipeline.
Context `{!UuidDisplay} `{!Blake3} {W : Type} `{!DataNodeClient W} `{!MetadataClient W} `{!JoinOrder W}.
Implicit Types p : Pipeline W.

Definition set_world (w : W) p : Pipeline W :=
  MkPipeline W w (pl_cache p) (pl_session p) (pl_watermark p) (pl_stale p).

Definition available_nodes p : list NodeId := na_node_id <$> cache_list_nodes (pl_cache p).

(** Majority of the replicas, all of them when there is one. *)
Definition required_replicas (total : nat) : nat :=
  if decide (1 < total)%nat then total `div` 2 + 1 else total.

(** The number of acknowledgements required, and the nodes. *)
Definition write_placement (protection : ProtectionPolicy) (volume_id : VolumeId) (extent_num : N)
    (nodes : list NodeId) : nat * list NodeId :=
  match protection with
  | Replicated replicas =>
      let total := N.to_nat replicas in
      (required_replicas total, select_nodes volume_id extent_num nodes total)
  | ErasureCoded data_chunks parity_chunks =>
      (N.to_nat (u8_add data_chunks parity_chunks),
       select_ec_nodes volume_id extent_num nodes data_chunks parity_chunks)
  end.

(** The placement without hashing, kept in the source but not called. *)
Definition resolve_placement (protection : ProtectionPolicy) p : nat * list NodeId :=
  match protection with
  | Replicated replicas =>
      let total := N.to_nat replicas in
      (required_replicas total, take total (available_nodes p))
  | ErasureCoded data_chunks parity_chunks =>
      let required := N.to_nat (u8_add data_chunks parity_chunks) in
      (required, take required (available_nodes p))
  end.

(** What both pipelines do on a stale acknowledgement: the result is dropped. *)
Definition refresh_stale (epoch : EpochId) p : Pipeline W :=
  let '(h, c, w, _) := handle_stale_epoch epoch (pl_stale p) (pl_cache p) (pl_world p) in
  MkPipeline W w c (pl_session p) (pl_watermark p) h.

Definition execute_once (req : WriteRequest) (operation_id : OperationId) p
    : Pipeline W * result Error WriteOutcome :=
  if seh_paused (pl_stale p) then (p, Err (ErrorStorage "writes paused due to stale epoch")) else
  let epoch := cache_current_epoch (pl_cache p) in
  match cache_get_volume (wr_volume_id req) (pl_cache p) with
  | None => (p, Err (ErrorStorage ("volume " +:+ to_string (wr_volume_id req) +:+ " not found in cache")))
  | Some volume_info =>
      let extent_num := range_start (wr_block_range req) `div` N.max (wr_extent_blocks req) 1 in
      let '(required_acks, replica_nodes) :=
        write_placement (cvi_protection volume_info) (wr_volume_id req) extent_num (available_nodes p) in
      if decide (length replica_nodes = 0%nat) then (p, Err (ErrorStorage "no replica nodes available")) else
      let extent_id := extent_id_for_extent (wr_volume_id req) extent_num in
      let checksum := compute_checksum (wr_data req) in
      let '(w, acks) := transmit_to_replicas replica_nodes operation_id (cs_session_id (pl_session p))
                          (wr_volume_id req) extent_id extent_version epoch (wr_data req) checksum
                          (pl_world p) in
      let p := set_world w p in
      if existsb ack_is_stale acks then (refresh_stale epoch p, Ok WriteStaleEpoch) else
      let successful_acks := filter (λ a, ack_success a = true) acks in
      if decide (length successful_acks < required_acks)%nat
      then (p, Ok (WriteInsufficientAcks (length successful_acks) required_acks))
      else (MkPipeline W (pl_world p) (pl_cache p) (pl_session p) (advance epoch (pl_watermark p)).1
              (pl_stale p), Ok (WriteCommitted epoch))
  end.

(** The success a retry reports when its operation is found committed. *)
Definition finish_committed (req : WriteRequest) (committed : CommittedMapping) p : Pipeline W :=
  let wm := (advance (cm_epoch committed) (pl_watermark p)).1 in
  let block_size := from_option cvi_block_size 4096 (cache_get_volume (wr_volume_id req) (pl_cache p)) in
  let mapping := MkCached (cm_extent_id committed) (cm_extent_version committed)
                   (cm_replica_locations committed) (cm_checksums committed)
                   (N.of_nat (length (wr_data req))) 0 in
  MkPipeline W (pl_world p)
    (set_extent_mapping_range (wr_volume_id req) (wr_block_range req) block_size mapping (pl_cache p))
    (pl_session p) wm (pl_stale p).

(** The attempts after the first: [fuel] of them are left. *)
Fixpoint retry_loop (fuel : nat) (req : WriteRequest) (operation_id : OperationId) (last_error : Error) p
    : Pipeline W * result Error WriteOutcome :=
  match fuel with
  | O => (p, Err last_error)
  | S fuel =>
      let '(w, r) := mc_lookup_operation operation_id (pl_world p) in
      let p := set_world w p in
      match r with
      | Ok (Some committed) => (finish_committed req committed p, Ok (WriteCommitted (cm_epoch committed)))
      | _ =>
          match execute_once req operation_id p with
          | (p, Ok outcome) => (p, Ok outcome)
          | (p, Err e) => retry_loop fuel req operation_id e p
          end
      end
  end.

Definition execute_with_op_id (max_retries : nat) (req : WriteRequest) (operation_id : OperationId) p
    : Pipeline W * result Error WriteOutcome :=
  match execute_once req operation_id p with
  | (p, Ok outcome) => (p, Ok outcome)
  | (p, Err e) => retry_loop max_retries req operation_id e p
  end.

Definition execute (max_retries : nat) (generated : OperationId) (req : WriteRequest) p
    : Pipeline W * result Error WriteOutcome :=
  let '(s, operation_id) := next_operation_id generated (pl_session p) in
  execute_with_op_id max_retries req operation_id
    (MkPipeline W (pl_world p) (pl_cache p) s (pl_watermark p) (pl_stale p)).

End pipeline.

(** ** Lemmas *)

Section transmit_lemmas.
Context {W : Type} `{!DataNodeClient W} `{!MetadataClient W} `{!JoinOrder W} `{!DataNodeLaws W}.
Implicit Types w : W.

(** The task's payload is on its node. *)
Definition task_stored w (t : WriteTask) : Prop :=
  stored w (wt_node t) (wt_extent_id t) (wt_extent_version t) = Some (wt_data t).

(** A node on which nothing changed. *)
Definition same_node w w' (n : NodeId) : Prop :=
  (∀ x ver, stored w' n x ver = stored w n x ver) ∧ (∀ op, seen w' n op ↔ seen w n op).

Definition task_fresh w (t : WriteTask) : Prop := ¬ seen w (wt_node t) (wt_operation_id t).

Lemma write_task_spec t w w' o :
  write_task t w = (w', o) → task_fresh w t →
  (∀ n, n ≠ wt_node t → same_node w w' n) ∧
  ∀ a, o = Some a → ack_success a = true → ack_node_id a = wt_node t ∧ task_stored w' t.
Proof.
  unfold write_task. destruct (dn_write_extent _ _ _ _ _ _ _ _ _ _) as [w1 r] eqn:Hw.
  intros [= <- <-] Hfresh. split.
  { intros n Hn. split; [|intros op; by eapply law_write_seen].
    intros x ver. by destruct (law_write_atomic _ _ _ _ _ _ _ _ _ _ _ _ n x ver Hw) as [|(? & _)]. }
  intros a. destruct r as [[ack|e]|]; intros [= <-]; [|done].
  intros Hok. by eapply law_write_ok.
Qed.

(** Whatever the order, the nodes that acknowledge are those whose task stored
    its payload, and other nodes are untouched. *)
Lemma join_all_spec tasks w w' acks :
  join_all tasks w = (w', acks) → NoDup (wt_node <$> tasks) → Forall (task_fresh w) tasks →
  (∀ n, n ∉ wt_node <$> tasks → same_node w w' n) ∧
  ∃ done, done `sublist_of` tasks ∧
    wt_node <$> done = ack_node_id <$> filter (λ a, ack_success a = true) acks ∧
    Forall (task_stored w') done.
Proof.
  revert w acks. induction tasks as [|t tasks IH]; intros w acks; simpl.
  { intros [= <- <-] _ _. split; [by split|]. by exists []. }
  destruct (write_task t w) as [w1 o] eqn:Ht. destruct (join_all tasks w1) as [w2 acks'] eqn:Hj.
  intros [= <- <-] [Hnt Hnd]%NoDup_cons [Hf Hfs]%Forall_cons.
  destruct (write_task_spec _ _ _ _ Ht Hf) as [Hframe1 Hok].
  destruct (IH _ _ Hj Hnd) as [Hframe2 (done & Hsub & Hnodes & Hst)].
  { apply Forall_forall. intros t' Ht'. rewrite Forall_forall in Hfs. unfold task_fresh.
    destruct (Hframe1 (wt_node t')) as [_ Hseen]; [|rewrite Hseen; by apply Hfs].
    intros Heq. apply Hnt. rewrite <-Heq. apply list_elem_of_fmap. eauto. }
  split.
  { intros n [Hn1 Hn2]%not_elem_of_cons. destruct (Hframe1 n Hn1) as [Hs1 Ho1], (Hframe2 n Hn2) as [Hs2 Ho2].
    split; intros; [by rewrite Hs2, Hs1|by rewrite Ho2, Ho1]. }
  destruct o as [a|]; simpl.
  - rewrite filter_cons. case_decide as Ha; [|exists done; split_and!; [by constructor|done..]].
    destruct (Hok a eq_refl Ha) as [Hn Hs]. exists (t :: done). split_and!; [by constructor|..].
    + csimpl. by rewrite Hnodes, Hn.
    + constructor; [|done]. unfold task_stored in *. by destruct (Hframe2 (wt_node t) Hnt) as [-> _].
  - exists done. split_and!; [by constructor|done..].
Qed.

Lemma transmit_spec tasks w w' acks :
  transmit tasks w = (w', acks) → NoDup (wt_node <$> tasks) → Forall (task_fresh w) tasks →
  ∃ done, done ⊆+ tasks ∧ NoDup (wt_node <$> done) ∧
    wt_node <$> done = ack_node_id <$> filter (λ a, ack_success a = true) acks ∧
    Forall (task_stored w') done.
Proof.
  unfold transmit. intros Ht Hnd Hf. pose proof (join_order_perm w tasks) as Hperm.
  destruct (join_all_spec _ _ _ _ Ht) as [_ (done & Hsub & ? & ?)]; [by rewrite Hperm..|].
  apply sublist_submseteq in Hsub. rewrite Hperm in Hsub. exists done. split_and!; try done.
  destruct (submseteq_Permutation _ _ Hsub) as [rest Hrest].
  rewrite Hrest, fmap_app in Hnd. by apply NoDup_app in Hnd as [? _].
Qed.

(** Every extent is as before, unreadable, or the payload of a task. *)
Lemma join_all_cases tasks w w' acks n x ver :
  join_all tasks w = (w', acks) →
  stored w' n x ver = stored w n x ver ∨ stored w' n x ver = None ∨
  ∃ t, t ∈ tasks ∧ wt_node t = n ∧ wt_extent_id t = x ∧ wt_extent_version t = ver ∧
    stored w' n x ver = Some (wt_data t).
Proof.
  revert w acks. induction tasks as [|t tasks IH]; intros w acks; simpl; [intros [= <- _]; by left|].
  destruct (write_task t w) as [w1 o] eqn:Ht. destruct (join_all tasks w1) as [w2 acks'] eqn:Hj.
  intros [= <- _]. destruct (IH _ _ Hj) as [->|[|(t' & Hin & Ht')]];
    [|by right; left|right; right; exists t'; set_solver].
  unfold write_task in Ht. destruct (dn_write_extent _ _ _ _ _ _ _ _ _ _) as [w1' r] eqn:Hw.
  injection Ht as -> _.
  destruct (law_write_atomic _ _ _ _ _ _ _ _ _ _ _ _ n x ver Hw) as [|(-> & -> & [|[-> ?]])];
    [by left|by right; left|].
  right. right. exists t. split_and!; try done. by left.
Qed.

Lemma transmit_cases tasks w w' acks n x ver :
  transmit tasks w = (w', acks) →
  stored w' n x ver = stored w n x ver ∨ stored w' n x ver = None ∨
  ∃ t, t ∈ tasks ∧ wt_node t = n ∧ wt_extent_id t = x ∧ wt_extent_version t = ver ∧
    stored w' n x ver = Some (wt_data t).
Proof.
  intros [|[|(t & Hin & ?)]]%(join_all_cases _ _ _ _ n x ver); [by left|by right; left|right; right]. exists t.
  by rewrite join_order_perm in Hin.
Qed.

(** One query of an operation, as retries make them. *)
Definition lookup_step (op : OperationId) (w w' : W) : Prop := ∃ r, mc_lookup_operation op w = (w', r).

Lemma lookups_same_node op w w' n : rtc (lookup_step op) w w' → same_node w w' n.
Proof.
  induction 1 as [|w1 w2 w3 [r Hr] _ IH]; [by split|].
  destruct (law_lookup_frame _ _ _ _ n Hr) as [Hs Ho], IH as [Hs' Ho'].
  split; intros; [by rewrite Hs', Hs|by rewrite Ho', Ho].
Qed.

End transmit_lemmas.

(** Two majorities of the same nodes intersect. *)
Lemma required_replicas_intersect total (placement q1 q2 : list NodeId) :
  (0 < total)%nat → (length placement ≤ total)%nat → NoDup q1 → NoDup q2 →
  q1 ⊆ placement → q2 ⊆ placement →
  (required_replicas total ≤ length q1)%nat → (required_replicas total ≤ length q2)%nat →
  ∃ n, n ∈ q1 ∧ n ∈ q2.
Proof.
  intros Htot Hlen Hnd1 Hnd2 Hs1 Hs2 Hr1 Hr2.
  destruct (decide (Exists (λ n, n ∈ q2) q1)) as [[n ?]%Exists_exists|Hno]; [by exists n|].
  exfalso. rewrite <-Forall_Exists_neg, Forall_forall in Hno.
  assert (q1 ++ q2 ⊆+ placement) as Hsub.
  { apply NoDup_submseteq; [|set_solver]. apply NoDup_app. split_and!; [done| |done].
    intros n Hn. by apply Hno. }
  apply submseteq_length in Hsub. rewrite length_app in Hsub. unfold required_replicas in *.
  pose proof (Nat.div_mod_eq total 2). pose proof (Nat.mod_upper_bound total 2).
  case_decide; lia.
Qed.

Section pipeline_lemmas.
Context `{!UuidDisplay} `{!Blake3} {W : Type} `{!DataNodeClient W} `{!MetadataClient W} `{!JoinOrder W}.
Context `{!DataNodeLaws W}.
Implicit Types p : Pipeline W.

Lemma advance_covers epoch w : EpochId_as_u64 epoch ≤ watermark_value (advance epoch w).1.
Proof. unfold advance, advance_to. case_decide; simpl; lia. Qed.

(** An attempt that fails has not sent anything. *)
Lemma execute_once_err req op p p' e : execute_once req op p = (p', Err e) → p' = p.
Proof.
  unfold execute_once. destruct (seh_paused _); [by intros [= <- _]|].
  destruct (cache_get_volume _ _) as [vol|]; [|by intros [= <- _]].
  destruct (write_placement _ _ _ _) as [required nodes]. case_decide; [by intros [= <- _]|].
  destruct (transmit_to_replicas _ _ _ _ _ _ _ _ _ _) as [w acks].
  destruct (existsb _ _); [done|]. by case_decide.
Qed.

(** The nodes and the extent of a request, for the cached volume and nodes. *)
Definition request_extent_num (req : WriteRequest) : N :=
  range_start (wr_block_range req) `div` N.max (wr_extent_blocks req) 1.

Definition request_nodes (req : WriteRequest) (replicas : N) p : list NodeId :=
  select_nodes (wr_volume_id req) (request_extent_num req) (available_nodes p) (N.to_nat replicas).

(** The nodes [acked] hold the request's data. *)
Definition replicated_on (req : WriteRequest) (replicas : N) p (acked : list NodeId) (w : W) : Prop :=
  NoDup acked ∧ acked ⊆ request_nodes req replicas p ∧
  (required_replicas (N.to_nat replicas) ≤ length acked)%nat ∧
  Forall (λ n, stored w n (extent_id_for_extent (wr_volume_id req) (request_extent_num req))
                 extent_version = Some (wr_data req)) acked.

Definition replicated_volume (req : WriteRequest) (replicas : N) p : Prop :=
  cvi_protection <$> cache_get_volume (wr_volume_id req) (pl_cache p) = Some (Replicated replicas).

Definition op_fresh (op : OperationId) (w : W) : Prop := ∀ n, ¬ seen w n op.

(** The request was sent to its nodes and acknowledged by enough of them. *)
Definition replicated_send (req : WriteRequest) (op : OperationId) (replicas : N) p (w w' : W) : Prop :=
  ∃ acks, transmit_to_replicas (request_nodes req replicas p) op (cs_session_id (pl_session p))
      (wr_volume_id req) (extent_id_for_extent (wr_volume_id req) (request_extent_num req))
      extent_version (cache_current_epoch (pl_cache p)) (wr_data req)
      (compute_checksum (wr_data req)) w = (w', acks) ∧
    (required_replicas (N.to_nat replicas) ≤ length (filter (λ a, ack_success a = true) acks))%nat.

Lemma execute_once_committed req op p p' ep replicas :
  execute_once req op p = (p', Ok (WriteCommitted ep)) → replicated_volume req replicas p →
  EpochId_as_u64 ep ≤ watermark_value (pl_watermark p') ∧ pl_cache p' = pl_cache p ∧
  replicated_send req op replicas p (pl_world p) (pl_world p').
Proof.
  intros Hex Hvol. unfold execute_once in Hex. destruct (seh_paused _); [done|].
  unfold replicated_volume in Hvol. destruct (cache_get_volume _ _) as [vol|]; [|done].
  simpl in Hvol. injection Hvol as Hvol. rewrite Hvol in Hex. simpl in Hex. case_decide; [done|].
  destruct (transmit_to_replicas _ _ _ _ _ _ _ _ _ _) as [w acks] eqn:Ht.
  destruct (existsb _ _); [done|]. case_decide as Hreq; [done|]. injection Hex as <- <-. simpl.
  split_and!; [apply advance_covers|done|]. exists acks. split; [done|lia].
Qed.

(** A query finds the operation committed after others that did not. *)
Definition found_committed (op : OperationId) (ep : EpochId) (w w' : W) : Prop :=
  ∃ w1 cm, rtc (lookup_step op) w w1 ∧ mc_lookup_operation op w1 = (w', Ok (Some cm)) ∧ cm_epoch cm = ep.

(** The write was found committed, or it was sent after queries only. *)
Definition committed_or_sent (req : WriteRequest) (op : OperationId) (replicas : N) (ep : EpochId) p p' : Prop :=
  found_committed op ep (pl_world p) (pl_world p') ∨
  (pl_cache p' = pl_cache p ∧ ∃ w, rtc (lookup_step op) (pl_world p) w ∧
     replicated_send req op replicas p w (pl_world p')).

Lemma retry_loop_committed fuel req op e p p' ep replicas :
  retry_loop fuel req op e p = (p', Ok (WriteCommitted ep)) → replicated_volume req replicas p →
  EpochId_as_u64 ep ≤ watermark_value (pl_watermark p') ∧ committed_or_sent req op replicas ep p p'.
Proof.
  revert e p. induction fuel as [|fuel IH]; intros e p; simpl; [done|].
  destruct (mc_lookup_operation op (pl_world p)) as [w r] eqn:Hl. intros Hr Hvol.
  destruct (decide (is_Some (result_ok r ≫= id))) as [[cm Hcm]|Hnone].
  { destruct r as [[?|]|]; try done. injection Hcm as ->. injection Hr as <- <-.
    split; [apply advance_covers|]. left. exists (pl_world p), cm. split_and!; [done..]. }
  assert (lookup_step op (pl_world p) w) as Hstep by by exists r.
  assert (match execute_once req op (set_world w p) with
    | (p, Ok outcome) => (p, Ok outcome)
    | (p, Err e) => retry_loop fuel req op e p
    end = (p', Ok (WriteCommitted ep))) as Hr'.
  { destruct r as [[cm|]|]; [|done..]. by destruct Hnone; exists cm. }
  destruct (execute_once req op (set_world w p)) as [p1 [o|e1]] eqn:Hex.
  - injection Hr' as -> ->. destruct (execute_once_committed _ _ _ _ _ replicas Hex) as (? & Hc & Hs); [done|].
    split; [done|right]. split; [done|]. exists w. split; [by apply rtc_once|exact Hs].
  - apply execute_once_err in Hex as ->. eapply IH in Hr' as [? [Hf|(Hc & w1 & Hrtc & Hs)]]; [..|done].
    + split; [done|left]. destruct Hf as (w1 & cm & Hrtc & Hcm). exists w1, cm. split; [|done].
      by eapply rtc_l.
    + split; [done|right]. split; [done|]. exists w1. split; [by eapply rtc_l|exact Hs].
Qed.

Lemma execute_committed max_retries op req p p' ep replicas :
  execute max_retries op req p = (p', Ok (WriteCommitted ep)) → replicated_volume req replicas p →
  EpochId_as_u64 ep ≤ watermark_value (pl_watermark p') ∧ committed_or_sent req op replicas ep p p'.
Proof.
  intros Hex Hvol. unfold execute, execute_with_op_id in Hex. simpl in Hex.
  set (p0 := MkPipeline W _ _ _ _ _) in Hex.
  destruct (execute_once req op p0) as [p1 [o|e]] eqn:H1.
  - injection Hex as -> ->. destruct (execute_once_committed _ _ _ _ _ replicas H1) as (? & Hc & Hs); [done|].
    split; [done|right]. split; [done|]. exists (pl_world p). split; [done|exact Hs].
  - apply execute_once_err in H1 as ->. by eapply retry_loop_committed in Hex.
Qed.

(** What a send leaves on the nodes that acknowledged it, and on the others. *)
Lemma replicated_send_on req op replicas p w w' :
  replicated_send req op replicas p w w' → NoDup (available_nodes p) → op_fresh op w →
  ∃ acked, replicated_on req replicas p acked w'.
Proof.
  intros (acks & Ht & Hcount) Hnd Hfresh.
  apply transmit_spec in Ht as (done & Hsub & Hdnd & Hnodes & Hst).
  2: { rewrite <-list_fmap_compose. unfold compose. simpl. rewrite list_fmap_id.
       by apply select_nodes_NoDup. }
  2: { apply Forall_fmap, Forall_forall. intros n _. apply Hfresh. }
  exists (wt_node <$> done).
  assert (∀ t, t ∈ done → ∃ n, n ∈ request_nodes req replicas p ∧ t = MkWriteTask n op
    (cs_session_id (pl_session p)) (wr_volume_id req)
    (extent_id_for_extent (wr_volume_id req) (request_extent_num req)) extent_version
    (cache_current_epoch (pl_cache p)) (wr_data req) (compute_checksum (wr_data req))) as Hdone.
  { intros t Hin. eapply elem_of_submseteq in Hin; [|exact Hsub].
    apply list_elem_of_fmap in Hin as (n & -> & Hn). by exists n. }
  split_and!.
  - done.
  - intros n (t & -> & Hin)%list_elem_of_fmap. destruct (Hdone t Hin) as (n & Hn & ->). done.
  - by rewrite Hnodes, length_fmap.
  - apply Forall_fmap, Forall_forall. intros t Hin. rewrite Forall_forall in Hst.
    specialize (Hst t Hin). by destruct (Hdone t Hin) as (n & _ & ->).
Qed.

Lemma replicated_send_cases req op replicas p w w' n x ver :
  replicated_send req op replicas p w w' →
  stored w' n x ver = stored w n x ver ∨ stored w' n x ver = None ∨ stored w' n x ver = Some (wr_data req).
Proof.
  intros (acks & Ht & _).
  apply (transmit_cases _ _ _ _ n x ver) in Ht as [|[|(t & Hin & _ & _ & _ & ->)]]; [by left|by right; left|].
  right. right. by apply list_elem_of_fmap in Hin as (n' & -> & _).
Qed.

(** ** Theorems *)

(** C6: A replicated write that the pipeline reports committed, at whichever
    attempt, is held by a majority of the replica nodes of its extent under the
    fixed extent identifier and version, in whatever order and with whatever
    outcomes the parallel calls ended (unless the metadata service reported the
    operation committed); the watermark covers the epoch returned; and every
    other such majority shares a node with the one that acknowledged. *)
Theorem committed_write_on_majority max_retries op req p p' ep replicas :
  execute max_retries op req p = (p', Ok (WriteCommitted ep)) →
  replicated_volume req replicas p → NoDup (available_nodes p) → op_fresh op (pl_world p) →
  0 < replicas →
  EpochId_as_u64 ep ≤ watermark_value (pl_watermark p') ∧
  (found_committed op ep (pl_world p) (pl_world p') ∨
   ∃ acked, replicated_on req replicas p acked (pl_world p') ∧
     ∀ req' acked' w, wr_volume_id req' = wr_volume_id req →
       request_extent_num req' = request_extent_num req →
       replicated_on req' replicas p acked' w → ∃ n, n ∈ acked ∧ n ∈ acked').
Proof.
  intros Hex Hvol Hnd Hfresh Hpos.
  destruct (execute_committed _ _ _ _ _ _ _ Hex Hvol) as [Hwm [|(_ & w1 & Hrtc & Hsend)]]; [by split; [|left]|].
  split; [done|right]. destruct (replicated_send_on _ _ _ _ _ _ Hsend Hnd) as [acked Hrep].
  { intros n. destruct (lookups_same_node _ _ _ n Hrtc) as [_ Ho]. rewrite Ho. apply Hfresh. }
  exists acked. split; [done|]. intros req' acked' w Hv Hn Hrep'.
  destruct Hrep as (Hnd1 & Hsub1 & Hlen1 & _), Hrep' as (Hnd2 & Hsub2 & Hlen2 & _).
  unfold request_nodes in Hsub2. rewrite Hv, Hn in Hsub2.
  apply (required_replicas_intersect (N.to_nat replicas) (request_nodes req replicas p)); try done; [lia|].
  unfold request_nodes. rewrite length_select_nodes. lia.
Qed.

End pipeline_lemmas.

(** ** Witness: a cluster of in-memory data nodes *)

Module WriteDemo.

Import Demo PlacementDemo.

(** Nodes that are down answer with an error. *)
Record Cluster := MkCluster {
  cluster_log : list MetadataRequest;
  cluster_stores : gmap (N * N * N) (list N);
  cluster_ops : gset (N * N);
  cluster_down : list NodeId;
}.

Definition cluster_write (n : NodeId) (op : OperationId) (s : SessionId) (v : VolumeId) (x : ExtentId)
    (ver : N) (ep : EpochId) (data : list N) (sum : string) (w : Cluster)
    : Cluster * exec (result Error WriteAck) :=
  if decide (n ∈ cluster_down w) then (w, Return (Err (ErrorNetwork "unreachable")))
  else if decide ((NodeId_as_uuid n, OperationId_as_uuid op) ∈ cluster_ops w)
  then (w, Return (Ok (MkWriteAck n true sum None)))
  else (MkCluster (cluster_log w)
          (<[(NodeId_as_uuid n, ExtentId_as_uuid x, ver) := data]> (cluster_stores w))
          ({[(NodeId_as_uuid n, OperationId_as_uuid op)]} ∪ cluster_ops w) (cluster_down w),
        Return (Ok (MkWriteAck n true sum None))).

#[export] Instance cluster_client : DataNodeClient Cluster := {| dn_write_extent := cluster_write |}.

#[export] Instance cluster_order : JoinOrder Cluster.
Proof. refine {| join_order := λ T w l, reverse l |}. intros T w l. apply reverse_Permutation. Defined.

(** The metadata service of [MetadataService], one node. *)
Definition lift {A} (f : list MetadataRequest → list MetadataRequest * A) (w : Cluster) : Cluster * A :=
  let '(log, a) := f (cluster_log w) in
  (MkCluster log (cluster_stores w) (cluster_ops w) (cluster_down w), a).

#[export] Instance cluster_metadata : MetadataClient Cluster :=
  let m := service_client (Raft0 := single_raft) in
  {| mc_refresh_metadata := λ c w, let '(_, c, r) := @mc_refresh_metadata _ m c (cluster_log w) in (w, c, r);
     mc_commit_extent_mapping := λ e, lift (@mc_commit_extent_mapping _ m e);
     mc_commit_extent_mappings_batch := λ es, lift (@mc_commit_extent_mappings_batch _ m es);
     mc_lookup_operation := λ op, lift (@mc_lookup_operation _ m op);
     mc_current_epoch := lift (@mc_current_epoch _ m);
     mc_acquire_lease := λ v s n t, lift (@mc_acquire_lease _ m v s n t);
     mc_renew_lease := λ v s n t, lift (@mc_renew_lease _ m v s n t);
     mc_release_lease := λ v s, lift (@mc_release_lease _ m v s) |}.

Lemma cluster_write_ok n op s v x ver ep data sum w w' ack :
  (NodeId_as_uuid n, OperationId_as_uuid op) ∉ cluster_ops w →
  cluster_write n op s v x ver ep data sum w = (w', Return (Ok ack)) → ack_success ack = true →
  ack_node_id ack = n ∧
  cluster_stores w' !! (NodeId_as_uuid n, ExtentId_as_uuid x, ver) = Some data.
Proof.
  intros Hop. unfold cluster_write. case_decide; [done|]. rewrite decide_False by done.
  intros [= <- <-] _. split; [done|]. apply lookup_insert_eq.
Qed.

Lemma cluster_write_atomic n op s v x ver ep data sum w w' r n' x' ver' :
  cluster_write n op s v x ver ep data sum w = (w', r) →
  let at_ w n x ver := cluster_stores w !! (NodeId_as_uuid n, ExtentId_as_uuid x, ver) in
  at_ w' n' x' ver' = at_ w n' x' ver' ∨
  (n' = n ∧ x' = x ∧ (at_ w' n' x' ver' = None ∨ (ver' = ver ∧ at_ w' n' x' ver' = Some data))).
Proof.
  intros Hw at_. unfold cluster_write in Hw. repeat case_decide; injection Hw as <- _; [by left..|].
  unfold at_. simpl. destruct (decide (n' = n ∧ x' = x ∧ ver' = ver)) as [(-> & -> & ->)|Hne].
  - right. split_and!; try done. right. split; [done|]. apply lookup_insert_eq.
  - left. apply lookup_insert_ne. intros [= Hn Hx Hv]. apply Hne.
    destruct n, n', x, x'. simpl in *. by subst.
Qed.

Lemma cluster_write_seen n op s v x ver ep data sum w w' r n' op' :
  cluster_write n op s v x ver ep data sum w = (w', r) → n' ≠ n →
  (NodeId_as_uuid n', op') ∈ cluster_ops w' ↔ (NodeId_as_uuid n', op') ∈ cluster_ops w.
Proof.
  intros Hw Hn. assert (NodeId_as_uuid n' ≠ NodeId_as_uuid n) by (destruct n, n'; naive_solver).
  unfold cluster_write in Hw. repeat case_decide; injection Hw as <- _; set_solver.
Qed.

#[export] Instance cluster_laws : DataNodeLaws Cluster.
Proof.
  refine {| stored := λ w n x ver, cluster_stores w !! (NodeId_as_uuid n, ExtentId_as_uuid x, ver);
            seen := λ w n op, (NodeId_as_uuid n, OperationId_as_uuid op) ∈ cluster_ops w |}.
  - apply cluster_write_ok.
  - apply cluster_write_atomic.
  - intros n op s v x ver ep data sum w w' r n' op'. apply cluster_write_seen.
  - intros op w w' r n' [= <- _]. by split.
Defined.

Lemma cluster_lookups op w w' : rtc (lookup_step op) w w' → w' = w.
Proof. induction 1 as [|w1 w2 w3 [r [= <- _]] _ IH]; [done|]. destruct w1. exact IH. Qed.

(** Three nodes, and a write of one block. *)
Definition addr : SocketAddr := MkSocketAddr "10.0.0.1" 7400.

Definition cache_of (protection : ProtectionPolicy) : MetadataCache :=
  cache_set_node (NodeId_new 1) addr (cache_set_node (NodeId_new 2) addr (cache_set_node (NodeId_new 3) addr
    (cache_set_volume (MkCachedVolume vol 1048576 4 protection ∅)
      (cache_set_epoch (EpochId_new 1) MetadataCache_new)))).

Definition pipeline_of (protection : ProtectionPolicy) (down : list NodeId) : Pipeline Cluster :=
  MkPipeline _ (MkCluster setup ∅ ∅ down) (cache_of protection) (with_session_id session1 vol)
    WriteWatermark_new StaleEpochHandler_new.

Definition request (b : N) (data : list N) : WriteRequest :=
  MkWriteRequest vol (MkRange b (b + 1)) data 128.

End WriteDemo.
Import Demo PlacementDemo WriteDemo.

Lemma committed_write_on_majority_witness :
  ∃ acked, replicated_on (request 5 [1; 2; 3; 4]) 3 (pipeline_of (Replicated 3) [NodeId_new 3]) acked
    (pl_world (execute 3 (op 7) (request 5 [1; 2; 3; 4]) (pipeline_of (Replicated 3) [NodeId_new 3])).1).
Proof.
  destruct (execute 3 (op 7) (request 5 [1; 2; 3; 4]) (pipeline_of (Replicated 3) [NodeId_new 3]))
    as [p' r] eqn:Hr.
  assert (r = Ok (WriteCommitted (EpochId_new 1))) as -> by (vm_compute in Hr; injection Hr as _ <-; reflexivity).
  destruct (committed_write_on_majority 3 (op 7) (request 5 [1; 2; 3; 4])
    (pipeline_of (Replicated 3) [NodeId_new 3]) p' (EpochId_new 1) 3 Hr) as [_ [Hl|(acked & Hrep & _)]].
  - vm_compute. reflexivity.
  - apply (bool_decide_unpack _). vm_compute. exact I.
  - intros n Hn. exact (not_elem_of_empty (C:=gset (N * N)) _ Hn).
  - reflexivity.
  - exfalso. destruct Hl as (w & cm & Hrtc & Hl & _). rewrite (cluster_lookups _ _ _ Hrtc) in Hl.
    vm_compute in Hl. discriminate.
  - exists acked. exact Hrep.
Defined.

(** The write path commits nothing to the metadata service: after a write that is
    reported committed, the service's log is unchanged and a query by the write's
    operation finds nothing. *)
Theorem committed_write_not_in_metadata :
  let r := execute 3 (op 7) (request 5 [1; 2; 3; 4]) (pipeline_of (Replicated 3) []) in
  r.2 = Ok (WriteCommitted (EpochId_new 1)) ∧ cluster_log (pl_world r.1) = setup ∧
  (mc_lookup_operation (op 7) (pl_world r.1)).2 = Ok None.
Proof. vm_compute. auto. Qed.
