(* ===== verification/EcWritePipeline.v ===== *)
(** * The erasure-coded write pipeline (crates/blockyard-ublk/src/ec_write_pipeline.rs)

    Encoding into fragments, one fragment per node of the placement, and the
    coalescing buffer for adjacent writes.  The Reed-Solomon coder is the
    parameter [ReedSolomon] of [EcCodec]. *)

From S2P Require Import Prelude Common MetadataSM MetadataSpec MetadataService Placement Checksum EcCodec.
From S2P Require Import Watermark MetadataCache ClientRecovery WritePipeline.

#[local] Open Scope N_scope.

(** ** Encoding *)

Record EcFragment := MkEcFragment {
  ecf_index : nat;
  ecf_is_data : bool;
  ecf_data : list N;
}.

Record EncodedStripe := MkEncodedStripe {
  es_fragments : list EcFragment;
  es_original_data_len : nat;
}.

Definition encode_data `{!ReedSolomon} (data : list N) (data_chunks parity_chunks : nat)
    : result Error EncodedStripe :=
  if decide (length data = 0%nat) then Err (ErrorStorage "empty data for EC encoding") else
  if rs_new data_chunks parity_chunks then
    let frag_size := N.to_nat (div_ceil (N.of_nat (length data)) (N.of_nat data_chunks)) in
    let shards := (cut_shard frag_size data <$> seq 0 data_chunks)
                    ++ replicate parity_chunks (replicate frag_size 0) in
    match rs_encode data_chunks parity_chunks shards with
    | Err e => Err (ErrorStorage ("EC encoding failed: " +:+ e))
    | Ok shards =>
        Ok (MkEncodedStripe (imap (λ i s, MkEcFragment i (bool_decide (i < data_chunks)%nat) s) shards)
              (length data))
    end
  else Err (ErrorStorage ("invalid EC parameters: " +:+ rs_new_error data_chunks parity_chunks)).

(** ** The pipeline *)

Section pipeline.
Context `{!UuidDisplay} `{!Blake3} `{!ReedSolomon}.
Context {W : Type} `{!DataNodeClient W} `{!MetadataClient W} `{!JoinOrder W}.
Implicit Types p : Pipeline W.

(** Fragment [i] goes to the [i]-th node; the shorter list bounds the zip. *)
Definition fragment_tasks (nodes : list NodeId) (encoded : EncodedStripe) (operation_id : OperationId)
    (session_id : SessionId) (volume_id : VolumeId) (extent_id : ExtentId) (extent_version : N)
    (epoch : EpochId) : list WriteTask :=
  zip_with (λ node_id fragment, MkWriteTask node_id operation_id session_id volume_id extent_id
              extent_version epoch (ecf_data fragment) (compute_checksum (ecf_data fragment)))
    nodes (es_fragments encoded).

Definition transmit_fragments (nodes : list NodeId) (encoded : EncodedStripe) (operation_id : OperationId)
    (session_id : SessionId) (volume_id : VolumeId) (extent_id : ExtentId) (extent_version : N)
    (epoch : EpochId) (w : W) : W * list WriteAck :=
  transmit (fragment_tasks nodes encoded operation_id session_id volume_id extent_id extent_version epoch) w.

(** The mapping cached for a successful write: the nodes and checksums of the
    successful acknowledgements, in the order of completion. *)
Definition ec_mapping (extent_id : ExtentId) (acks : list WriteAck) (data : list N) : CachedExtentMapping :=
  let ok := filter (λ a, ack_success a = true) acks in
  MkCached extent_id extent_version (ack_node_id <$> ok)
    ((λ a, String.list_byte_of_string (ack_checksum a)) <$> ok) (N.of_nat (length data)) 0.

Definition ec_execute_once (volume_id : VolumeId) (block_range : Range) (data : list N)
    (operation_id : OperationId) p : Pipeline W * result Error WriteOutcome :=
  if seh_paused (pl_stale p) then (p, Err (ErrorStorage "writes paused due to stale epoch")) else
  let epoch := cache_current_epoch (pl_cache p) in
  match cache_get_volume volume_id (pl_cache p) with
  | None => (p, Err (ErrorStorage ("volume " +:+ to_string volume_id +:+ " not found in cache")))
  | Some volume_info =>
      match cvi_protection volume_info with
      | Replicated _ =>
          (p, Err (ErrorStorage "EC write pipeline requires ErasureCoded protection policy"))
      | ErasureCoded k m =>
          let data_chunks := N.to_nat k in
          let parity_chunks := N.to_nat m in
          let total_required := (data_chunks + parity_chunks)%nat in
          if decide (length (available_nodes p) < total_required)%nat then
            (p, Err (ErrorStorage ("insufficient nodes: have " +:+ u64_to_string (N.of_nat (length (available_nodes p)))
                       +:+ ", need " +:+ u64_to_string (N.of_nat total_required))))
          else
            let extent_num := range_start block_range `div` N.max (extent_blocks volume_info) 1 in
            let fragment_nodes := select_ec_nodes volume_id extent_num (available_nodes p) k m in
            match encode_data data data_chunks parity_chunks with
            | Err e => (p, Err e)
            | Ok encoded =>
                let extent_id := extent_id_for_extent volume_id extent_num in
                let '(w, acks) := transmit_fragments fragment_nodes encoded operation_id
                                    (cs_session_id (pl_session p)) volume_id extent_id extent_version epoch
                                    (pl_world p) in
                let p := set_world w p in
                if existsb ack_is_stale acks then (refresh_stale epoch p, Ok WriteStaleEpoch) else
                let successful_acks := filter (λ a, ack_success a = true) acks in
                let required_acks := (data_chunks + 1 `min` parity_chunks)%nat in
                if decide (length successful_acks < required_acks)%nat
                then (p, Ok (WriteInsufficientAcks (length successful_acks) required_acks))
                else
                  let block_size := from_option cvi_block_size 4096 (cache_get_volume volume_id (pl_cache p)) in
                  (MkPipeline W (pl_world p)
                     (set_extent_mapping_range volume_id block_range block_size
                        (ec_mapping extent_id acks data) (pl_cache p))
                     (pl_session p) (advance epoch (pl_watermark p)).1 (pl_stale p),
                   Ok (WriteCommitted epoch))
            end
      end
  end.

(** The retry loop: [fuel] attempts are left. *)
Fixpoint ec_attempts (fuel : nat) (volume_id : VolumeId) (block_range : Range) (data : list N)
    (operation_id : OperationId) (last_error : Error) p : Pipeline W * result Error WriteOutcome :=
  match fuel with
  | O => (p, Err last_error)
  | S fuel =>
      match ec_execute_once volume_id block_range data operation_id p with
      | (p, Ok outcome) => (p, Ok outcome)
      | (p, Err e) => ec_attempts fuel volume_id block_range data operation_id e p
      end
  end.

Definition ec_execute_with_op_id (max_retries : nat) (volume_id : VolumeId) (block_range : Range)
    (data : list N) (operation_id : OperationId) p : Pipeline W * result Error WriteOutcome :=
  ec_attempts (S max_retries) volume_id block_range data operation_id
    (ErrorStorage "EC write failed after retries") p.

Definition ec_execute (max_retries : nat) (generated : OperationId) (volume_id : VolumeId)
    (block_range : Range) (data : list N) p : Pipeline W * result Error WriteOutcome :=
  let '(s, operation_id) := next_operation_id generated (pl_session p) in
  ec_execute_with_op_id max_retries volume_id block_range data operation_id
    (MkPipeline W (pl_world p) (pl_cache p) s (pl_watermark p) (pl_stale p)).

(** The stripe a partial write produces; the slice is out of range, hence a
    panic, when the offset is beyond the stripe. *)
Definition modify_stripe (existing new_data : list N) (stripe_offset : nat) : exec (list N) :=
  if decide (length existing < stripe_offset)%nat then Panic else
  let end_ := ((stripe_offset + length new_data) `min` length existing)%nat in
  let copy_len := (end_ - stripe_offset)%nat in
  Return (take stripe_offset existing ++ take copy_len new_data ++ drop (stripe_offset + copy_len) existing).

Definition partial_stripe_write (max_retries : nat) (generated : OperationId) (volume_id : VolumeId)
    (block_range : Range) (new_data existing_stripe_data : list N) (stripe_offset : nat) p
    : exec (Pipeline W * result Error WriteOutcome) :=
  match cache_get_volume volume_id (pl_cache p) with
  | None => Return (p, Err (ErrorStorage ("volume " +:+ to_string volume_id +:+ " not found in cache")))
  | Some volume_info =>
      match cvi_protection volume_info with
      | Replicated _ => Return (p, Err (ErrorStorage "partial stripe write requires ErasureCoded policy"))
      | ErasureCoded _ _ =>
          modified ← modify_stripe existing_stripe_data new_data stripe_offset;
          Return (ec_execute max_retries generated volume_id block_range modified p)
      end
  end.

End pipeline.

(** ** The coalescing buffer *)

Record CoalescingConfig := MkCoalescingConfig {
  cc_max_delay_ms : N;
  cc_max_bytes : N;
  cc_enabled : bool;
}.

Definition CoalescingConfig_default : CoalescingConfig := MkCoalescingConfig 5 (128 * 1024) true.

Record PendingWrite := MkPendingWrite {
  pw_volume_id : VolumeId;
  pw_block_range : Range;
  pw_data : list N;
  pw_received_at_ms : N;
}.

Record CoalescingBuffer := MkCoalescingBuffer {
  cb_config : CoalescingConfig;
  cb_pending : gmap N PendingWrite;
  cb_stripe_size : N;
}.

Definition CoalescingBuffer_new (config : CoalescingConfig) (stripe_size : N) : CoalescingBuffer :=
  MkCoalescingBuffer config ∅ stripe_size.

Definition pending_bytes (ws : list PendingWrite) : N := foldr N.add 0 ((λ w, N.of_nat (length (pw_data w))) <$> ws).

(** Merging a write into the one pending for its stripe. *)
Definition merge_write (existing write : PendingWrite) : PendingWrite :=
  MkPendingWrite (pw_volume_id existing)
    (MkRange (N.min (range_start (pw_block_range existing)) (range_start (pw_block_range write)))
       (N.max (range_end (pw_block_range existing)) (range_end (pw_block_range write))))
    (pw_data existing ++ pw_data write) (pw_received_at_ms existing).

(** [now] is the clock; a stripe size of 0 makes the division panic. *)
Definition add_write (now : N) (write : PendingWrite) (b : CoalescingBuffer)
    : exec (CoalescingBuffer * list PendingWrite) :=
  if cc_enabled (cb_config b) then
    if decide (cb_stripe_size b = 0) then Panic else
    let stripe_start := (range_start (pw_block_range write) `div` cb_stripe_size b) * cb_stripe_size b in
    let total_bytes := pending_bytes (btree_values (cb_pending b)) in
    let should_flush := bool_decide (cc_max_bytes (cb_config b) ≤ total_bytes + N.of_nat (length (pw_data write))) in
    let time_exceeded := existsb (λ w, bool_decide (cc_max_delay_ms (cb_config b) ≤ now - pw_received_at_ms w))
                           (btree_values (cb_pending b)) in
    let pending := <[stripe_start :=
                       match cb_pending b !! stripe_start with
                       | Some existing => merge_write existing write
                       | None => write
                       end]> (cb_pending b) in
    Return (if should_flush || time_exceeded
            then (MkCoalescingBuffer (cb_config b) ∅ (cb_stripe_size b), btree_values pending)
            else (MkCoalescingBuffer (cb_config b) pending (cb_stripe_size b), []))
  else Return (b, [write]).

Definition flush_all (b : CoalescingBuffer) : CoalescingBuffer * list PendingWrite :=
  (MkCoalescingBuffer (cb_config b) ∅ (cb_stripe_size b), btree_values (cb_pending b)).

(** ** Lemmas *)

Section lemmas.
Context `{!UuidDisplay} `{!Blake3} `{!ReedSolomon}.
Context {W : Type} `{!DataNodeClient W} `{!MetadataClient W} `{!JoinOrder W} `{!DataNodeLaws W}.
Implicit Types p : Pipeline W.

(** The pipeline's encoder is the codec's. *)
Lemma encode_data_codec data k m es :
  encode_data data k m = Ok es →
  rs_new k m = true ∧ data ≠ [] ∧ ∃ frags, ec_encode (MkErasureCodec k m) data = Ok frags ∧
    ecf_data <$> es_fragments es = frag_data <$> frags.
Proof.
  unfold encode_data, ec_encode. case_decide as Hd; [done|]. destruct (rs_new k m) eqn:Hnew; [|done].
  unfold fragment_size. simpl.
  destruct (rs_encode k m _) as [shards|]; [|done]. intros [= <-]. split_and!; [done|by intros ->|].
  eexists. split; [done|]. simpl. by rewrite !fmap_imap.
Qed.

Definition ec_extent_num (r : Range) : N := range_start r `div` 1.

Lemma ec_execute_once_err v r data op p p' e : ec_execute_once v r data op p = (p', Err e) → p' = p.
Proof.
  unfold ec_execute_once. destruct (seh_paused _); [by intros [= <- _]|].
  destruct (cache_get_volume _ _) as [vol|]; [|by intros [= <- _]].
  destruct (cvi_protection vol); [by intros [= <- _]|]. case_decide; [by intros [= <- _]|].
  destruct (encode_data _ _ _); [|by intros [= <- _]].
  destruct (transmit_fragments _ _ _ _ _ _ _ _ _) as [w acks].
  destruct (existsb _ _); [done|]. by case_decide.
Qed.

Lemma ec_attempts_ok fuel v r data op e p p' o :
  ec_attempts fuel v r data op e p = (p', Ok o) → ec_execute_once v r data op p = (p', Ok o).
Proof.
  revert e. induction fuel as [|fuel IH]; intros e; simpl; [done|].
  destruct (ec_execute_once v r data op p) as [p1 [o1|e1]] eqn:Hx; [by intros [= -> ->]|].
  apply ec_execute_once_err in Hx as ->. intros Ha%IH. done.
Qed.

(** The marks of the fragments whose node is one of [acked]. *)
Definition acked_mask (nodes acked : list NodeId) (total : nat) : list bool :=
  ((λ n, bool_decide (n ∈ acked)) <$> nodes) ++ replicate (total - length nodes) false.

Lemma acked_mask_count nodes acked total :
  NoDup acked → acked ⊆ nodes →
  (length acked ≤ length (filter (λ b, b = true) (acked_mask nodes acked total)))%nat.
Proof.
  intros Hnd Hsub. unfold acked_mask. rewrite filter_app, length_app.
  trans (length (filter (λ n, n ∈ acked) nodes)).
  { apply submseteq_length, NoDup_submseteq; [done|]. intros n Hn. apply list_elem_of_filter. auto. }
  assert (length (filter (λ n, n ∈ acked) nodes) =
    length (filter (λ b, b = true) ((λ n, bool_decide (n ∈ acked)) <$> nodes))) as ->; [|lia].
  clear. induction nodes as [|n nodes IH]; [done|]. csimpl. rewrite !filter_cons.
  destruct (decide (n ∈ acked)).
  - rewrite bool_decide_true by done. simpl. by rewrite IH.
  - rewrite bool_decide_false by done. simpl. done.
Qed.

Lemma acked_mask_true nodes acked total i :
  acked_mask nodes acked total !! i = Some true → ∃ n, nodes !! i = Some n ∧ n ∈ acked.
Proof.
  unfold acked_mask. intros [Hi|[_ Hi]]%lookup_app_Some; [|by apply lookup_replicate in Hi as [? _]].
  apply list_lookup_fmap_Some in Hi as (n & Hb & Hn). exists n. split; [done|].
  symmetry in Hb. by apply bool_decide_eq_true in Hb.
Qed.

(** What is stored after the fragments were sent: fragment [i] on node [i]. *)
Lemma transmit_fragments_stored nodes es op s v x ver ep w w' acks :
  transmit_fragments nodes es op s v x ver ep w = (w', acks) → NoDup nodes → op_fresh op w →
  ∃ acked, NoDup acked ∧ acked ⊆ nodes ∧
    length acked = length (filter (λ a, ack_success a = true) acks) ∧
    ∀ i n f, nodes !! i = Some n → n ∈ acked → es_fragments es !! i = Some f →
      stored w' n x ver = Some (ecf_data f).
Proof.
  intros Ht Hnd Hfresh. apply transmit_spec in Ht as (done & Hsub & Hdnd & Hnodes & Hst).
  2: { unfold fragment_tasks. eapply sublist_NoDup; [exact Hnd|].
       clear. revert es. induction nodes as [|n nodes IH]; intros [[|f fs] len]; csimpl; [constructor..|].
       - apply sublist_nil_l.
       - constructor. apply (IH (MkEncodedStripe fs len)). }
  2: { apply Forall_forall. intros t Hin. unfold fragment_tasks in Hin.
       apply elem_of_lookup_zip_with in Hin as (i & n & f & -> & _). apply Hfresh. }
  assert (∀ t, t ∈ done → ∃ i f, nodes !! i = Some (wt_node t) ∧ es_fragments es !! i = Some f ∧
    wt_extent_id t = x ∧ wt_extent_version t = ver ∧ wt_data t = ecf_data f) as Hdone.
  { intros t Hin. eapply elem_of_submseteq in Hin; [|exact Hsub]. unfold fragment_tasks in Hin.
    apply elem_of_lookup_zip_with in Hin as (i & n & f & -> & Hn & Hf). exists i, f. done. }
  exists (wt_node <$> done). split_and!.
  - done.
  - intros n (t & -> & Hin)%list_elem_of_fmap. destruct (Hdone t Hin) as (i & f & Hi & _).
    by eapply list_elem_of_lookup_2.
  - by rewrite Hnodes, length_fmap.
  - intros i n f Hi (t & -> & Hin)%list_elem_of_fmap Hf.
    destruct (Hdone t Hin) as (j & f' & Hj & Hf' & <- & <- & Hdata).
    assert (i = j) as -> by by eapply NoDup_lookup. simplify_eq.
    rewrite Forall_forall in Hst. rewrite <-Hdata. by apply Hst.
Qed.

(** A committed write encoded its data and sent the fragments, to the nodes the
    cached cluster map designates. *)
Lemma ec_execute_committed max_retries op v r data p p' ep k m :
  ec_execute max_retries op v r data p = (p', Ok (WriteCommitted ep)) →
  cvi_protection <$> cache_get_volume v (pl_cache p) = Some (ErasureCoded k m) →
  EpochId_as_u64 ep ≤ watermark_value (pl_watermark p') ∧
  cache_cluster_map (pl_cache p') = cache_cluster_map (pl_cache p) ∧
  ∃ es acks, encode_data data (N.to_nat k) (N.to_nat m) = Ok es ∧
    transmit_fragments (select_ec_nodes v (ec_extent_num r) (available_nodes p) k m) es op
      (cs_session_id (pl_session p)) v (extent_id_for_extent v (ec_extent_num r)) extent_version
      (cache_current_epoch (pl_cache p)) (pl_world p) = (pl_world p', acks) ∧
    (N.to_nat k + 1 `min` N.to_nat m ≤ length (filter (λ a, ack_success a = true) acks))%nat.
Proof.
  intros Hex Hvol. unfold ec_execute, ec_execute_with_op_id in Hex. simpl next_operation_id in Hex.
  cbn beta iota zeta in Hex. apply ec_attempts_ok in Hex. unfold ec_execute_once in Hex.
  simpl pl_stale in Hex. simpl pl_cache in Hex. destruct (seh_paused _); [done|].
  destruct (cache_get_volume v _) as [vol|] eqn:Hv; [|done]. simpl in Hvol. injection Hvol as Hvol.
  rewrite Hvol in Hex. case_decide; [done|].
  destruct (encode_data _ _ _) as [es|] eqn:Henc; [|done].
  destruct (transmit_fragments _ _ _ _ _ _ _ _ _) as [w acks] eqn:Ht.
  destruct (existsb _ _); [done|]. case_decide as Hreq; [done|]. injection Hex as <- <-.
  cbn [pl_watermark pl_cache pl_world set_world]. split_and!; [apply advance_covers| |].
  - unfold set_extent_mapping_range, update_mappings. by destruct (cache_volumes _ !! _).
  - exists es, acks. split_and!; [done|exact Ht|lia].
Qed.

(** ** Theorems *)

(** C14: An erasure-coded write that the pipeline reports committed survives the
    loss of any one of the nodes that acknowledged it: the data was encoded into
    K + M fragments, more than K of them are stored on the distinct nodes of the
    placement that the extent number designates, and any K fragments decode to
    the data.  The watermark covers the epoch returned. *)
Theorem committed_ec_write_recoverable max_retries op v r data p p' ep k m :
  ec_execute max_retries op v r data p = (p', Ok (WriteCommitted ep)) →
  cvi_protection <$> cache_get_volume v (pl_cache p) = Some (ErasureCoded k m) →
  NoDup (available_nodes p) → op_fresh op (pl_world p) →
  let c := MkErasureCodec (N.to_nat k) (N.to_nat m) in
  let nodes := select_ec_nodes v (ec_extent_num r) (available_nodes p) k m in
  EpochId_as_u64 ep ≤ watermark_value (pl_watermark p') ∧ NoDup nodes ∧
  ∃ frags mask, ec_encode c data = Ok frags ∧ length frags = total_count c ∧
    length mask = total_count c ∧ (N.to_nat k < length (filter (λ b, b = true) mask))%nat ∧
    (∀ i, mask !! i = Some true → ∃ n f, nodes !! i = Some n ∧ frags !! i = Some f ∧
       stored (pl_world p') n (extent_id_for_extent v (ec_extent_num r)) extent_version =
         Some (frag_data f)) ∧
    ∀ mask', length mask' = total_count c →
      (N.to_nat k ≤ length (filter (λ b, b = true) mask'))%nat →
      ec_decode c (surviving mask' frags) (length data) = Ok data.
Proof.
  intros Hex Hvol Hnd Hfresh c nodes.
  destruct (ec_execute_committed _ _ _ _ _ _ _ _ _ _ Hex Hvol) as (Hwm & _ & es & acks & Henc & Ht & Hreq).
  apply encode_data_codec in Henc as (Hnew & Hne & frags & Henc & Hfr).
  assert (NoDup nodes) as Hnn by by apply select_nodes_NoDup.
  destruct (transmit_fragments_stored _ _ _ _ _ _ _ _ _ _ _ Ht Hnn Hfresh)
    as (acked & Hand & Hsub & Hlen & Hstored).
  destruct (ec_encode_decode _ _ data Hnew Hne) as (frags' & Henc' & Hfl & _ & _ & Hdec).
  rewrite Henc in Henc'. injection Henc' as <-.
  assert (length nodes ≤ total_count c)%nat as Hln.
  { unfold nodes, select_ec_nodes, total_count. rewrite length_select_nodes. simpl. unfold u8_add.
    pose proof (N.Div0.mod_le (k + m) 256). lia. }
  destruct (rs_new_pos _ _ Hnew) as [_ Hm].
  split_and!; [done|done|]. exists frags, (acked_mask nodes acked (total_count c)).
  pose proof (acked_mask_count nodes acked (total_count c) Hand Hsub) as Hcount.
  split_and!; [done|done| |lia| |].
  - unfold acked_mask. rewrite length_app, length_fmap, length_replicate. lia.
  - intros i (n & Hn & Hin)%acked_mask_true.
    assert (i < length frags)%nat as [f Hf]%lookup_lt_is_Some
      by (apply lookup_lt_Some in Hn; rewrite Hfl; unfold total_count in Hln; simpl in Hln; lia).
    assert ((ecf_data <$> es_fragments es) !! i = Some (frag_data f)) as Hef
      by by rewrite Hfr, list_lookup_fmap, Hf.
    apply list_lookup_fmap_Some in Hef as (ef & Hd & Hef).
    exists n, f. split_and!; [done|done|]. rewrite Hd. by eapply Hstored.
  - intros mask' Hl Hk. by apply Hdec.
Qed.

End lemmas.

Module EcWriteDemo.

Import Demo PlacementDemo EcDemo WriteDemo.

(** One data and two parity fragments on three nodes, node 2 down. *)
Definition pipeline : Pipeline Cluster := pipeline_of (ErasureCoded 1 2) [NodeId_new 2].

End EcWriteDemo.
Import Demo PlacementDemo EcDemo WriteDemo EcWriteDemo.

Lemma committed_ec_write_recoverable_witness :
  ∃ frags, ec_encode (MkErasureCodec 1 2) [1; 2; 3; 4] = Ok frags ∧
    ec_decode (MkErasureCodec 1 2) (surviving [false; false; true] frags) 4 = Ok [1; 2; 3; 4].
Proof.
  destruct (ec_execute 3 (op 7) vol (MkRange 5 6) [1; 2; 3; 4] pipeline) as [p' r] eqn:Hr.
  assert (r = Ok (WriteCommitted (EpochId_new 1))) as -> by (vm_compute in Hr; injection Hr as _ <-; reflexivity).
  destruct (committed_ec_write_recoverable 3 (op 7) vol (MkRange 5 6) [1; 2; 3; 4] pipeline p'
    (EpochId_new 1) 1 2 Hr) as (_ & _ & frags & mask & Henc & _ & _ & _ & _ & Hdec).
  - vm_compute. reflexivity.
  - apply (bool_decide_unpack _). vm_compute. exact I.
  - intros n Hn. exact (not_elem_of_empty (C:=gset (N * N)) _ Hn).
  - exists frags. split; [exact Henc|]. apply (Hdec [false; false; true]); vm_compute; [reflexivity|].
    apply le_n.
Defined.

(** ** Coalescing *)

(** A sequence of writes through the buffer, and what it hands out on the way. *)
Fixpoint add_writes (ws : list (N * PendingWrite)) (b : CoalescingBuffer)
    : exec (CoalescingBuffer * list PendingWrite) :=
  match ws with
  | [] => Return (b, [])
  | (now, w) :: ws =>
      '(b, out) ← add_write now w b;
      '(b, outs) ← add_writes ws b;
      Return (b, out ++ outs)
  end.

(** [o] carries the write [w]: its blocks and, somewhere, its data. *)
Definition carries (o w : PendingWrite) : Prop :=
  range_start (pw_block_range o) ≤ range_start (pw_block_range w) ∧
  range_end (pw_block_range w) ≤ range_end (pw_block_range o) ∧
  ∃ l r, pw_data o = l ++ pw_data w ++ r.

Lemma carries_refl w : carries w w.
Proof. split_and!; [lia|lia|]. exists [], []. by rewrite app_nil_r. Qed.

Lemma carries_merge_l e w x : carries e x → carries (merge_write e w) x.
Proof.
  intros (? & ? & l & r & Hd). split_and!; simpl; [lia|lia|]. exists l, (r ++ pw_data w).
  by rewrite Hd, <-!app_assoc.
Qed.

Lemma carries_merge_r e w : carries (merge_write e w) w.
Proof. split_and!; simpl; [lia|lia|]. exists (pw_data e), []. by rewrite app_nil_r. Qed.

#[local] Instance pending_bytes_proper : Proper ((≡ₚ) ==> (=)) pending_bytes.
Proof. intros l1 l2 Hp. unfold pending_bytes. induction Hp; csimpl in *; lia. Qed.

Lemma pending_bytes_app l1 l2 : pending_bytes (l1 ++ l2) = pending_bytes l1 + pending_bytes l2.
Proof. unfold pending_bytes. induction l1; csimpl in *; lia. Qed.

(** What the buffer holds after a write, against what was pending. *)
Lemma insert_write_spec k w (m : gmap N PendingWrite) :
  let m' := <[k := match m !! k with Some e => merge_write e w | None => w end]> m in
  (∃ o, o ∈ btree_values m' ∧ carries o w) ∧
  (∀ x o, o ∈ btree_values m → carries o x → ∃ o', o' ∈ btree_values m' ∧ carries o' x) ∧
  pending_bytes (btree_values m') = pending_bytes (btree_values m) + N.of_nat (length (pw_data w)).
Proof.
  intros m'. unfold m'. setoid_rewrite btree_values_insert.
  destruct (m !! k) as [e|] eqn:Hk.
  - setoid_rewrite (btree_values_delete _ _ _ Hk). split_and!.
    + exists (merge_write e w). split; [by left|apply carries_merge_r].
    + intros x o. rewrite elem_of_cons. intros [->|Ho] Hx.
      * exists (merge_write e w). split; [by left|by apply carries_merge_l].
      * exists o. by rewrite elem_of_cons; auto.
    + unfold pending_bytes. csimpl. rewrite length_app. lia.
  - rewrite delete_id by done. split_and!.
    + exists w. split; [by left|apply carries_refl].
    + intros x o Ho Hx. exists o. rewrite elem_of_cons. auto.
    + unfold pending_bytes. csimpl. lia.
Qed.

(** What one call hands out and keeps. *)
Lemma add_write_spec now w b :
  cb_stripe_size b ≠ 0 →
  ∃ b' out, add_write now w b = Return (b', out) ∧ cb_stripe_size b' = cb_stripe_size b ∧
    let after := out ++ btree_values (cb_pending b') in
    (∃ o, o ∈ after ∧ carries o w) ∧
    (∀ x o, o ∈ btree_values (cb_pending b) → carries o x → ∃ o', o' ∈ after ∧ carries o' x) ∧
    pending_bytes after = pending_bytes (btree_values (cb_pending b)) + N.of_nat (length (pw_data w)).
Proof.
  intros Hs. unfold add_write. destruct (cc_enabled _).
  - rewrite decide_False by done. pose proof (insert_write_spec
      (range_start (pw_block_range w) `div` cb_stripe_size b * cb_stripe_size b) w (cb_pending b)) as Hspec.
    destruct (_ || _); do 2 eexists; (split; [done|split; [done|]]); simpl; [|exact Hspec].
    rewrite app_nil_r. exact Hspec.
  - do 2 eexists. split; [done|split; [done|]]. simpl. split_and!.
    + exists w. split; [by left|apply carries_refl].
    + intros x o Ho Hx. exists o. rewrite elem_of_cons. auto.
    + unfold pending_bytes. csimpl. lia.
Qed.

(** The coalescing buffer loses no write: for any sequence of writes at any
    times, with any thresholds and a positive stripe size, no call panics, every
    write is carried by something handed out or still pending (its blocks are
    covered and its data is a contiguous part), nothing pending before is lost,
    and the number of bytes is preserved. *)
Theorem coalescing_loses_nothing ws b :
  cb_stripe_size b ≠ 0 →
  ∃ b' out, add_writes ws b = Return (b', out) ∧
    let all := out ++ (flush_all b').2 in
    (∀ w, w ∈ ws.*2 → ∃ o, o ∈ all ∧ carries o w) ∧
    (∀ o, o ∈ (flush_all b).2 → ∃ o', o' ∈ all ∧ carries o' o) ∧
    pending_bytes all = pending_bytes (flush_all b).2 + pending_bytes ws.*2.
Proof.
  intros Hs. assert (∃ b' out, add_writes ws b = Return (b', out) ∧
    (∀ w, w ∈ ws.*2 → ∃ o, o ∈ out ++ btree_values (cb_pending b') ∧ carries o w) ∧
    (∀ x o, o ∈ btree_values (cb_pending b) → carries o x →
       ∃ o', o' ∈ out ++ btree_values (cb_pending b') ∧ carries o' x) ∧
    pending_bytes (out ++ btree_values (cb_pending b')) =
      pending_bytes (btree_values (cb_pending b)) + pending_bytes ws.*2) as (b' & out & Hrun & Hw & Ho & Hb).
  { revert b Hs. induction ws as [|[now w] ws IH]; intros b Hs; simpl.
    { exists b, []. split_and!; [done|by intros ? ?%not_elem_of_nil|eauto|simpl; unfold pending_bytes at 3; simpl; lia]. }
    destruct (add_write_spec now w b Hs) as (b1 & out1 & -> & Hs1 & Hw1 & Ho1 & Hb1). simpl.
    destruct (IH b1) as (b2 & out2 & -> & Hw2 & Ho2 & Hb2); [congruence|]. simpl.
    exists b2, (out1 ++ out2). rewrite <-app_assoc. split_and!; [done|..].
    - assert (∀ x, (∃ o, o ∈ out1 ++ btree_values (cb_pending b1) ∧ carries o x) →
        ∃ o, o ∈ out1 ++ out2 ++ btree_values (cb_pending b2) ∧ carries o x) as Hstep.
      { intros x (o & [Hin|Hin]%elem_of_app & Hx); [exists o; set_solver|].
        destruct (Ho2 x o Hin Hx) as (o' & ? & ?). exists o'. set_solver. }
      intros x [->|Hx]%elem_of_cons; [by apply Hstep|].
      destruct (Hw2 x Hx) as (o & ? & ?). exists o. set_solver.
    - intros x o Hin Hx. destruct (Ho1 x o Hin Hx) as (o1 & [Hin1|Hin1]%elem_of_app & Hx1); [exists o1; set_solver|].
      destruct (Ho2 x o1 Hin1 Hx1) as (o' & ? & ?). exists o'. set_solver.
    - rewrite pending_bytes_app, Hb2, N.add_assoc, <-pending_bytes_app, Hb1. unfold pending_bytes. csimpl. lia. }
  exists b', out. split; [done|]. simpl. split_and!; [done| |done].
  intros o Hin. apply (Ho o o Hin), carries_refl.
Qed.

Lemma coalescing_loses_nothing_witness :
  let w b d := MkPendingWrite vol (MkRange b (b + 4)) d 0 in
  ∃ b' out, add_writes [(1, w 4 [1; 2]); (2, w 0 [3; 4])] (CoalescingBuffer_new CoalescingConfig_default 8) =
      Return (b', out) ∧
    pending_bytes (out ++ (flush_all b').2) = 4.
Proof.
  intros w. destruct (coalescing_loses_nothing [(1, w 4 [1; 2]); (2, w 0 [3; 4])]
    (CoalescingBuffer_new CoalescingConfig_default 8)) as (b' & out & Hrun & _ & _ & Hb); [discriminate|].
  exists b', out. split; [exact Hrun|]. rewrite Hb. reflexivity.
Defined.

(** Coalescing does not keep data at its address: two adjacent writes of a stripe
    that arrive in decreasing block order come out as one write of both ranges
    with the data in the order of arrival. *)
Theorem coalescing_misplaces_data :
  let w b d := MkPendingWrite vol (MkRange b (b + 2)) d 0 in
  ∃ b', add_writes [(1, w 2 [3; 4]); (2, w 0 [1; 2])] (CoalescingBuffer_new CoalescingConfig_default 8) =
      Return (b', []) ∧
    (flush_all b').2 = [MkPendingWrite vol (MkRange 0 4) [3; 4; 1; 2] 0].
Proof. eexists. split; vm_compute; reflexivity. Qed.
