(* ===== verification/ReadTypes.v ===== *)
(** * Types of the client read path (crates/blockyard-client/src: error.rs, types.rs, traits.rs)

    The errors of reads, what a data node returns, and the trait through which data
    nodes are read. *)

From S2P Require Import Prelude Common.

#[local] Open Scope N_scope.

(** ** Errors *)

Inductive ReadError :=
  | RdExtentNotFound (volume_id : VolumeId) (extent_id : ExtentId)
  | RdNoHealthyReplicas (extent_id : ExtentId)
  | RdAllReplicasFailed (extent_id : ExtentId)
  | RdAllReplicasCorrupt (extent_id : ExtentId)
  | RdChecksumMismatch (node_id : NodeId) (extent_id : ExtentId) (expected actual : string)
  | RdStaleMapping (extent_id : ExtentId) (mapping_version required_version : N)
  | RdMetadataRefreshFailed (msg : string)
  | RdDataNodeReadFailed (node_id : NodeId) (reason : string)
  | RdInvalidRequest (msg : string).

#[global] Instance ReadError_display `{!UuidDisplay} : Display ReadError := λ e,
  match e with
  | RdExtentNotFound v x => "extent not found: volume=" +:+ to_string v +:+ ", extent=" +:+ to_string x
  | RdNoHealthyReplicas x => "no healthy replicas available for extent " +:+ to_string x
  | RdAllReplicasFailed x => "all replicas failed for extent " +:+ to_string x
  | RdAllReplicasCorrupt x => "all replicas returned corrupt data for extent " +:+ to_string x
  | RdChecksumMismatch n x expected actual =>
      "checksum mismatch on node " +:+ to_string n +:+ " for extent " +:+ to_string x +:+ ": expected="
        +:+ expected +:+ ", got=" +:+ actual
  | RdStaleMapping x v required =>
      "stale mapping for extent " +:+ to_string x +:+ ": mapping_version=" +:+ to_string v
        +:+ ", required=" +:+ to_string required
  | RdMetadataRefreshFailed msg => "metadata refresh failed: " +:+ msg
  | RdDataNodeReadFailed n reason => "data node read failed on node " +:+ to_string n +:+ ": " +:+ reason
  | RdInvalidRequest msg => "invalid read request: " +:+ msg
  end.

(** ** Reading from a data node *)

Record DataNodeReadResult := MkReadResult {
  rr_extent_id : ExtentId;
  rr_extent_version : N;
  rr_checksum : string;
  rr_data : list N;
}.

Class DataNodeReader (W : Type) := {
  dn_read_extent : NodeId → VolumeId → ExtentId → N → N → N → W →
    W * exec (result ReadError DataNodeReadResult);
}.
