(* ===== verification/BlockHandler.v ===== *)
(** * The block handler (crates/blockyard-ublk/src/block_handler.rs)

    Translation of kernel block requests (ublk.rs) into pipeline writes, split at
    extent boundaries, and into reads of the data nodes.  Reads go through the
    trait [DataNodeReader] of [ReadTypes].  The random operation identifiers are a function of the
    session's counter, [gen]. *)

From S2P Require Import Prelude Common MetadataSM MetadataSpec MetadataService Placement Checksum EcCodec.
From S2P Require Import Watermark MetadataCache ClientRecovery ClientHealth WritePipeline EcWritePipeline.
From S2P Require Export ReadTypes.

#[local] Open Scope N_scope.

(** ** Requests (ublk.rs) *)

Inductive IoOperation := IoRead | IoWrite | IoFlush | IoDiscard.

Record IoRequest := MkIoRequest {
  io_operation : IoOperation;
  io_offset_bytes : N;
  io_length_bytes : N;
  io_data : option (list N);
  io_tag : N;
}.

(** A block size of 0 makes the division panic. *)
Definition io_block_range (block_size : N) (req : IoRequest) : exec Range :=
  if decide (block_size = 0) then Panic else
  Return (MkRange (io_offset_bytes req `div` block_size)
            (div_ceil (u64_add (io_offset_bytes req) (io_length_bytes req)) block_size)).

(** ** Data *)

Record VolumeConfig := MkVolumeConfig {
  vc_volume_id : VolumeId;
  vc_size_bytes : N;
  vc_block_size : N;
  vc_protection : ProtectionPolicy;
  vc_extent_size : N;
}.

Definition vc_extent_blocks (v : VolumeConfig) : N :=
  let bs := N.max (vc_block_size v) 1 in
  N.max (vc_extent_size v `div` bs) 1.

(** The pipelines share their state; both retry three times. *)
Record ClusterBlockHandler {W : Type} := MkHandler {
  bh_config : VolumeConfig;
  bh_pipeline : Pipeline W;
  bh_lease : LeaseManager;
}.
Arguments ClusterBlockHandler : clear implicits.

Definition max_retries : nat := 3.

(** ** Splitting at extent boundaries *)

(** One iteration: the blocks and the number of bytes of the next chunk. *)
Definition next_chunk (extent_blocks bs end_block len : N) (current_block offset : N) : Range * N :=
  let extent_num := current_block `div` extent_blocks in
  let next_extent_start := u64_mul (u64_add extent_num 1) extent_blocks in
  let chunk_end := N.min next_extent_start end_block in
  let blocks_in_chunk := u64_sub chunk_end current_block in
  (MkRange current_block chunk_end, N.min (u64_mul blocks_in_chunk bs) (len - offset)).

(** [data.slice(offset..offset + byte_len)] *)
Definition slice (offset byte_len : N) (data : list N) : list N :=
  take (N.to_nat byte_len) (drop (N.to_nat offset) data).

(** [Vec::resize(n, 0)] *)
Definition resize_zero (n : N) (l : list N) : list N :=
  take (N.to_nat n) l ++ replicate (N.to_nat n - length l) 0.

Definition zeros (n : N) : list N := replicate (N.to_nat n) 0.

Section handler.
Context `{!UuidDisplay} `{!Blake3} `{!ReedSolomon}.
Context {W : Type} `{!DataNodeClient W} `{!DataNodeReader W} `{!MetadataClient W} `{!JoinOrder W}.
Variable gen : N → OperationId.
Implicit Types h : ClusterBlockHandler W.

Definition set_pipeline (p : Pipeline W) h : ClusterBlockHandler W :=
  MkHandler W (bh_config h) p (bh_lease h).

Definition set_handler_world (w : W) h : ClusterBlockHandler W :=
  set_pipeline (set_world w (bh_pipeline h)) h.

(** ** Writes *)

(** The write of one chunk through the pipeline of the volume's policy. *)
Definition write_chunk (r : Range) (chunk : list N) h
    : ClusterBlockHandler W * result Error WriteOutcome :=
  let p := bh_pipeline h in
  let op := gen (cs_operation_counter (pl_session p)) in
  let v := vc_volume_id (bh_config h) in
  let '(p, r) :=
    match vc_protection (bh_config h) with
    | Replicated _ =>
        execute max_retries op (MkWriteRequest v r chunk (vc_extent_blocks (bh_config h))) p
    | ErasureCoded _ _ => ec_execute max_retries op v r chunk p
    end in
  (set_pipeline p h, r).

(** The error of an outcome that is not a commit. *)
Definition outcome_error (o : WriteOutcome) : option Error :=
  match o with
  | WriteCommitted _ => None
  | WriteStaleEpoch => Some (ErrorStorage "write rejected: stale epoch")
  | WriteInsufficientAcks acked required =>
      Some (ErrorStorage ("write failed: insufficient acks (" +:+ u64_to_string (N.of_nat acked) +:+ "/"
                            +:+ u64_to_string (N.of_nat required) +:+ ")"))
  | WriteMetadataCommitFailed reason =>
      Some (ErrorStorage ("write failed: metadata commit failed: " +:+ reason))
  end.

(** The loop of [handle_write]; [None] is fuel exhaustion. *)
Fixpoint write_loop (fuel : nat) (end_block : N) (data : list N) (current_block offset : N) h
    : option (ClusterBlockHandler W * result Error unit) :=
  if decide (current_block < end_block) then
    match fuel with
    | O => None
    | S fuel =>
        let '(r, byte_len) := next_chunk (vc_extent_blocks (bh_config h)) (vc_block_size (bh_config h))
                                end_block (N.of_nat (length data)) current_block offset in
        match write_chunk r (slice offset byte_len data) h with
        | (h, Err e) => Some (h, Err e)
        | (h, Ok outcome) =>
            match outcome_error outcome with
            | Some e => Some (h, Err e)
            | None => write_loop fuel end_block data (range_end r) (offset + byte_len) h
            end
        end
    end
  else Some (h, Ok tt).

(** One iteration per block is enough fuel. *)
Definition handle_write (req : IoRequest) h
    : exec (option (ClusterBlockHandler W * result Error (option (list N)))) :=
  if decide (lm_state (bh_lease h) = LeaseActive) then
    match check_write_allowed (bh_lease h) with
    | Err e => Return (Some (h, Err e))
    | Ok _ =>
        block_range ← io_block_range (vc_block_size (bh_config h)) req;
        Return (match io_data req with
          | None => Some (h, Err (ErrorStorage "write request missing data"))
          | Some data =>
              '(h, r) ← write_loop (N.to_nat (range_end block_range - range_start block_range))
                          (range_end block_range) data (range_start block_range) 0 h;
              Some (h, r ≫= λ _, Ok None)
          end)
    end
  else Return (Some (h, Err (ErrorAuth "write lease not active"))).

(** ** Reads *)

(** The loop over the replicas: the first answer is taken. *)
Fixpoint try_replicas (nodes : list NodeId) (x : ExtentId) (ver offset length : N)
    (last_error : option ReadError) h : exec (ClusterBlockHandler W * result Error (option (list N))) :=
  match nodes with
  | [] =>
      Return (h, Err (match last_error with
        | Some e => ErrorStorage ("all replicas failed: " +:+ to_string e)
        | None => ErrorStorage "no reachable replicas"
        end))
  | node_id :: nodes =>
      match cache_get_node node_id (pl_cache (bh_pipeline h)) with
      | None => try_replicas nodes x ver offset length last_error h
      | Some _ =>
          match dn_read_extent node_id (vc_volume_id (bh_config h)) x ver offset length
                  (pl_world (bh_pipeline h)) with
          | (w, Return (Ok result)) => Return (set_handler_world w h, Ok (Some (rr_data result)))
          | (w, Return (Err e)) =>
              try_replicas nodes x ver offset length (Some e) (set_handler_world w h)
          | (w, Panic) => Panic
          end
      end
  end.

Definition read_from_replicas (mapping : CachedExtentMapping) (offset length : N) h :=
  try_replicas (cem_replica_locations mapping) (cem_extent_id mapping) (cem_extent_version mapping)
    offset length None h.

(** The body shared by [read_single_block] and [read_single_block_data], which
    differ in the number of bytes asked for. *)
Definition read_block (block_num block_size length : N) h
    : exec (ClusterBlockHandler W * result Error (list N)) :=
  let volume_id := vc_volume_id (bh_config h) in
  let '(extent_num, block_offset) := block_to_extent block_num (vc_extent_blocks (bh_config h)) in
  let extent_id := extent_id_for_extent volume_id extent_num in
  let replicas := match vc_protection (bh_config h) with Replicated r => N.to_nat r | _ => 1%nat end in
  let replica_locations :=
    select_nodes volume_id extent_num (available_nodes (bh_pipeline h)) replicas in
  if decide (base.length replica_locations = 0%nat) then Return (h, Ok (zeros length)) else
  let mapping := MkCached extent_id extent_version replica_locations [] block_size 0 in
  let read_offset := u64_mul block_offset block_size in
  '(h, r) ← read_from_replicas mapping read_offset length h;
  Return (h, Ok (match r with Ok (Some data) => data | _ => zeros length end)).

Definition read_single_block (req : IoRequest) (block_num block_size : N) h :=
  read_block block_num block_size (io_length_bytes req) h.

Definition read_single_block_data (block_num block_size : N) h :=
  read_block block_num block_size block_size h.

(** The fragment reads, run in parallel: fragment index and what was read. *)
Fixpoint read_fragments (tasks : list (nat * NodeId)) (x : ExtentId) (w : W) (v : VolumeId)
    : W * list (nat * list N) :=
  match tasks with
  | [] => (w, [])
  | (frag_idx, node_id) :: tasks =>
      let '(w, r) := dn_read_extent node_id v x extent_version 0 0 w in
      let '(w, rest) := read_fragments tasks x w v in
      (w, match r with Return (Ok res) => (frag_idx, rr_data res) :: rest | _ => rest end)
  end.

(** [shards[frag_idx] = Some(..)] for every result, in the order of completion. *)
Definition fill_shards (total : nat) (results : list (nat * list N)) : list (option (list N)) :=
  foldl (λ shards res, if decide (res.1 < total)%nat then <[res.1 := Some res.2]> shards else shards)
    (replicate total None) results.

(** The loop over the data shards: missing ones are skipped. *)
Definition concat_shards (shards : list (option (list N))) : list N :=
  shards ≫= λ o : option (list N), default [] o.

Definition read_ec_block_data (block_num block_size : N) h
    : ClusterBlockHandler W * result Error (list N) :=
  let volume_id := vc_volume_id (bh_config h) in
  let extent_blocks := vc_extent_blocks (bh_config h) in
  let aligned_start := (block_num `div` extent_blocks) * extent_blocks in
  let block_offset := block_num - aligned_start in
  let extent_num := aligned_start in
  let extent_id := extent_id_for_extent volume_id extent_num in
  match vc_protection (bh_config h) with
  | Replicated _ => (h, Err (ErrorStorage "EC read called on non-EC volume"))
  | ErasureCoded k m =>
      let data_chunks := N.to_nat k in
      let parity_chunks := N.to_nat m in
      let total_fragments := (data_chunks + parity_chunks)%nat in
      let fragment_nodes :=
        select_nodes volume_id extent_num (available_nodes (bh_pipeline h)) total_fragments in
      if decide (length fragment_nodes = 0%nat) then (h, Ok (zeros block_size)) else
      let w := pl_world (bh_pipeline h) in
      let '(w, results) :=
        read_fragments (join_order w (imap pair fragment_nodes)) extent_id w volume_id in
      let h := set_handler_world w h in
      let shards := fill_shards total_fragments results in
      if decide (length (filter is_Some shards) = 0%nat) then (h, Ok (zeros block_size)) else
      if rs_new data_chunks parity_chunks then
        match rs_reconstruct data_chunks parity_chunks shards with
        | Err e => (h, Err (ErrorStorage ("EC reconstruction failed: " +:+ e)))
        | Ok shards =>
            let reconstructed := concat_shards (take data_chunks shards) in
            let offset := u64_mul block_offset block_size in
            let end_ := N.min (u64_add offset block_size) (N.of_nat (length reconstructed)) in
            if decide (N.of_nat (length reconstructed) ≤ offset) then (h, Ok (zeros block_size))
            else (h, Ok (resize_zero block_size (slice offset (end_ - offset) reconstructed)))
        end
      else (h, Err (ErrorStorage ("Reed-Solomon init failed: " +:+ rs_new_error data_chunks parity_chunks)))
  end.

(** The block loop of a multi-block read. *)
Fixpoint read_blocks (blocks : list N) (block_size : N) h
    : exec (ClusterBlockHandler W * result Error (list N)) :=
  match blocks with
  | [] => Return (h, Ok [])
  | block_num :: blocks =>
      '(h, r) ← match vc_protection (bh_config h) with
                | ErasureCoded _ _ => Return (read_ec_block_data block_num block_size h)
                | Replicated _ => read_single_block_data block_num block_size h
                end;
      match r with
      | Err e => Return (h, Err e)
      | Ok block_data =>
          '(h, rest) ← read_blocks blocks block_size h;
          Return (h, rest ≫= λ rest, Ok (block_data ++ rest))
      end
  end.

(** The refresh a read makes when the cache is behind the watermark. *)
Definition refresh_for_read h : ClusterBlockHandler W * result Error unit :=
  let p := bh_pipeline h in
  if watermark_is_fresh (cache_current_epoch (pl_cache p)) (pl_watermark p) then (h, Ok tt)
  else
    let '(w, c, r) := mc_refresh_metadata (pl_cache p) (pl_world p) in
    (set_pipeline (MkPipeline W w c (pl_session p) (pl_watermark p) (pl_stale p)) h, r ≫= λ _, Ok tt).

Definition handle_read (req : IoRequest) h
    : exec (ClusterBlockHandler W * result Error (option (list N))) :=
  match refresh_for_read h with
  | (h, Err e) => Return (h, Err e)
  | (h, Ok _) =>
      let block_size := vc_block_size (bh_config h) in
      block_range ← io_block_range block_size req;
      let num_blocks := u64_sub (range_end block_range) (range_start block_range) in
      if decide (num_blocks ≤ 1) then
        match vc_protection (bh_config h) with
        | ErasureCoded _ _ =>
            let '(h, r) := read_ec_block_data (range_start block_range) block_size h in
            Return (h, r ≫= λ data, Ok (Some data))
        | Replicated _ =>
            '(h, r) ← read_single_block req (range_start block_range) block_size h;
            Return (h, r ≫= λ data, Ok (Some data))
        end
      else
        '(h, r) ← read_blocks (range_values block_range) block_size h;
        Return (h, r ≫= λ result_buf, Ok (Some (take (N.to_nat (io_length_bytes req)) result_buf)))
  end.

Definition handle_flush h : ClusterBlockHandler W * result Error (option (list N)) := (h, Ok None).

Definition handle_discard (req : IoRequest) h : ClusterBlockHandler W * result Error (option (list N)) :=
  (h, Ok None).

Definition handle_io (req : IoRequest) h
    : exec (option (ClusterBlockHandler W * result Error (option (list N)))) :=
  match io_operation req with
  | IoWrite => handle_write req h
  | IoRead => '(h, r) ← handle_read req h; Return (Some (h, r))
  | IoFlush => Return (Some (handle_flush h))
  | IoDiscard => Return (Some (handle_discard req h))
  end.

End handler.

(** ** Lemmas: splitting *)

(** A chunk: nonempty, inside one extent, with as many bytes as its blocks take. *)
Definition good_chunk (eb bs : N) (c : Range * list N) : Prop :=
  range_start c.1 < range_end c.1 ∧
  range_start c.1 `div` eb = (range_end c.1 - 1) `div` eb ∧
  N.of_nat (length c.2) = (range_end c.1 - range_start c.1) * bs.

Lemma range_values_split a b c : a ≤ b → b ≤ c →
  range_values (MkRange a b) ++ range_values (MkRange b c) = range_values (MkRange a c).
Proof.
  intros Hab Hbc. unfold range_values. simpl.
  replace (N.to_nat (c - a)) with (N.to_nat (b - a) + N.to_nat (c - b))%nat by lia.
  rewrite seq_app, fmap_app. f_equal.
  replace (seq (0 + N.to_nat (b - a)) (N.to_nat (c - b)))
    with (Nat.add (N.to_nat (b - a)) <$> seq 0 (N.to_nat (c - b))) by (by rewrite fmap_add_seq, Nat.add_comm).
  rewrite <-list_fmap_compose. apply list_fmap_ext. intros _ i _. unfold compose. rewrite Nat2N.inj_add, N2Nat.id. lia.
Qed.

(** What one iteration takes when nothing overflows. *)
Lemma next_chunk_spec eb bs e len cur off :
  0 < eb → cur < e → e + eb < u64_modulus → (e - cur) * bs = len - off → len < u64_modulus →
  ∃ ce, next_chunk eb bs e len cur off = (MkRange cur ce, (ce - cur) * bs) ∧
    cur < ce ≤ e ∧ cur `div` eb = (ce - 1) `div` eb.
Proof.
  intros Heb Hcur Hov Hlen Hl. unfold next_chunk.
  assert (∃ q r, cur `div` eb = q ∧ cur = eb * q + r ∧ r < eb) as (q & r & Hq & Hdm & Hr).
  { exists (cur `div` eb), (cur `mod` eb). split_and!; [done|by apply N.div_mod; lia|].
    apply N.mod_upper_bound. lia. }
  rewrite Hq. assert (q ≤ cur ∧ (q + 1) * eb = eb * q + eb) as [Hqc Hnext] by nia.
  rewrite (u64_add_small q) by lia. rewrite u64_mul_small, Hnext by lia.
  exists (N.min (eb * q + eb) e). set (ce := N.min (eb * q + eb) e).
  assert (cur < ce ≤ e ∧ ce ≤ eb * q + eb) as [[? ?] ?] by (unfold ce; lia).
  rewrite u64_sub_small by lia. assert ((ce - cur) * bs ≤ len - off) by nia.
  rewrite u64_mul_small by lia. split_and!; [f_equal; lia|done..|].
  apply N.div_unique with (r := ce - 1 - eb * q); lia.
Qed.

Section splitting.
Context `{!UuidDisplay} `{!Blake3} `{!ReedSolomon}.
Context {W : Type} `{!DataNodeClient W} `{!DataNodeReader W} `{!MetadataClient W} `{!JoinOrder W}.
Variable gen : N → OperationId.
Implicit Types h : ClusterBlockHandler W.

(** The chunks written one after the other, each one committed. *)
Fixpoint committed_chunks (cs : list (Range * list N)) h h' : Prop :=
  match cs with
  | [] => h' = h
  | (r, d) :: cs =>
      ∃ h1 ep, write_chunk gen r d h = (h1, Ok (WriteCommitted ep)) ∧ committed_chunks cs h1 h'
  end.

(** A chunk whose write is not committed, and the error reported for it. *)
Definition failed_chunk (c : Range * list N) h h' (e : Error) : Prop :=
  write_chunk gen c.1 c.2 h = (h', Err e) ∨
  ∃ o, write_chunk gen c.1 c.2 h = (h', Ok o) ∧ outcome_error o = Some e.

(** The result of writing the chunks in order, stopping at the first failure. *)
Definition chunks_result (cs : list (Range * list N)) h h' (r : result Error unit) : Prop :=
  match r with
  | Ok _ => committed_chunks cs h h'
  | Err e => ∃ done c rest h1, cs = done ++ c :: rest ∧ committed_chunks done h h1 ∧ failed_chunk c h1 h' e
  end.

Lemma write_chunk_config r d h h' res : write_chunk gen r d h = (h', res) → bh_config h' = bh_config h.
Proof.
  unfold write_chunk. destruct (vc_protection _);
    [destruct (execute _ _ _ _)|destruct (ec_execute _ _ _ _ _ _)]; by intros [= <- _].
Qed.

Lemma write_loop_spec fuel e data cur off h :
  let eb := vc_extent_blocks (bh_config h) in
  let bs := vc_block_size (bh_config h) in
  cur ≤ e → (N.to_nat (e - cur) ≤ fuel)%nat → e + eb < u64_modulus →
  (e - cur) * bs = N.of_nat (length data) - off → off ≤ N.of_nat (length data) →
  N.of_nat (length data) < u64_modulus →
  ∃ cs, concat (range_values <$> cs.*1) = range_values (MkRange cur e) ∧
    concat cs.*2 = drop (N.to_nat off) data ∧ Forall (good_chunk eb bs) cs ∧
    ∃ h' r, write_loop gen fuel e data cur off h = Some (h', r) ∧ chunks_result cs h h' r.
Proof.
  revert cur off h. induction fuel as [|fuel IH]; intros cur off h eb bs Hle Hfuel Hov Hlen Hoff Hl; cbn [write_loop].
  { rewrite decide_False by lia. exists []. split_and!; [| |done|by exists h, (Ok tt)].
    - assert (e = cur) as -> by lia. unfold range_values. simpl. by rewrite N.sub_diag.
    - simpl. rewrite drop_ge; [done|]. nia. }
  destruct (decide (cur < e)) as [Hlt|Hge].
  2: { exists []. assert (e = cur) as -> by lia. split_and!; [| |done|by exists h, (Ok tt)].
    - unfold range_values. simpl. by rewrite N.sub_diag.
    - simpl. rewrite drop_ge; [done|]. nia. }
  destruct (next_chunk_spec eb bs e (N.of_nat (length data)) cur off) as (ce & Hnc & Hce & Hdiv);
    try done; [unfold eb, vc_extent_blocks; lia|].
  fold eb bs. rewrite Hnc. set (d := slice off ((ce - cur) * bs) data).
  assert (N.of_nat (length d) = (ce - cur) * bs) as Hd.
  { unfold d, slice. rewrite length_take, length_drop. nia. }
  assert (good_chunk eb bs (MkRange cur ce, d)) as Hgood by (split_and!; simpl; [lia|done|done]).
  destruct (IH ce (off + (ce - cur) * bs) (write_chunk gen (MkRange cur ce) d h).1)
    as (cs & Hcr & Hcd & Hall & h2 & r2 & Hloop & Hres).
  all: rewrite ?(write_chunk_config _ _ _ _ _ (surjective_pairing _)).
  all: fold eb bs; try done; try nia.
  exists ((MkRange cur ce, d) :: cs). split_and!.
  - csimpl. rewrite Hcr. apply range_values_split; lia.
  - csimpl. rewrite Hcd. unfold d, slice.
    replace (N.to_nat (off + (ce - cur) * bs)) with (N.to_nat off + N.to_nat ((ce - cur) * bs))%nat by lia.
    rewrite <-drop_drop. apply take_drop.
  - constructor; [done|].
    by rewrite (write_chunk_config _ _ _ _ _ (surjective_pairing _)) in Hall.
  - cbn [range_end]. destruct (write_chunk gen (MkRange cur ce) d h) as [h1 [o|e1]] eqn:Hw; simpl in *.
    + destruct (outcome_error o) as [e1|] eqn:Ho.
      * exists h1, (Err e1). split; [done|]. exists [], (MkRange cur ce, d), cs, h. split_and!; try done.
        right. eauto.
      * destruct o; try done. exists h2, r2. split; [done|]. destruct r2 as [[]|e2]; simpl in *; [eauto|].
        destruct Hres as (done & c & rest & h3 & -> & Hdone & Hf).
        exists ((MkRange cur ce, d) :: done), c, rest, h3. split_and!; simpl; eauto.
    + exists h1, (Err e1). split; [done|]. exists [], (MkRange cur ce, d), cs, h. split_and!; try done.
      by left.
Qed.

(** A kernel write is cut exactly at extent boundaries: under an active lease
    and with as much data as blocks, the handler returns (no panic, and the loop
    ends), after writing chunks that together are the request's blocks in order
    and its data in order, each one inside a single extent; it reports success
    only if every chunk was committed, and otherwise the error of the first chunk
    that was not, the chunks before it having been committed and none after it
    tried. *)
Lemma handle_write_splits req h r data version :
  let eb := vc_extent_blocks (bh_config h) in
  let bs := vc_block_size (bh_config h) in
  io_operation req = IoWrite → io_data req = Some data →
  lm_state (bh_lease h) = LeaseActive → lm_lease_version (bh_lease h) = Some version →
  io_block_range bs req = Return r → range_start r ≤ range_end r →
  N.of_nat (length data) = (range_end r - range_start r) * bs →
  range_end r + eb < u64_modulus → N.of_nat (length data) < u64_modulus →
  ∃ cs, concat (range_values <$> cs.*1) = range_values r ∧ concat cs.*2 = data ∧
    Forall (good_chunk eb bs) cs ∧
    ∃ h' res, handle_io gen req h = Return (Some (h', res ≫= λ _, Ok None)) ∧ chunks_result cs h h' res.
Proof.
  intros eb bs Hop Hdata Hst Hver Hr Hle Hlen Hov Hl.
  destruct (write_loop_spec (N.to_nat (range_end r - range_start r)) (range_end r) data (range_start r) 0 h)
    as (cs & Hcr & Hcd & Hall & h' & res & Hloop & Hres); fold eb bs; try done; try lia.
  exists cs. split_and!; [by destruct r|by rewrite Hcd|done|]. exists h', res. split; [|done].
  unfold handle_io. rewrite Hop. unfold handle_write. rewrite decide_True by done.
  unfold check_write_allowed. rewrite Hst, Hver. simpl. fold bs. rewrite Hr. simpl.
  by rewrite Hdata, Hloop.
Qed.

End splitting.

(** ** Reading back *)

(** What a data node returns of the stored bytes [d] for a range: all of them for
    the empty range at 0, zeros where nothing is stored. *)
Definition read_payload (offset length : N) (d : list N) : list N :=
  if decide (offset = 0 ∧ length = 0) then d else resize_zero length (drop (N.to_nat offset) d).

(** An answer to a read is what the node stores, and reading changes nothing. *)
Class DataNodeReaderLaws (W : Type) `{!DataNodeClient W} `{!MetadataClient W} `{!DataNodeLaws W}
    `{!DataNodeReader W} := {
  law_read_ok : ∀ n v x ver off len w w' res, len < u64_modulus →
    dn_read_extent n v x ver off len w = (w', Return (Ok res)) →
    ∃ d, stored w n x ver = Some d ∧ rr_data res = read_payload off len d;
  law_read_frame : ∀ n v x ver off len w w' r n' x' ver',
    dn_read_extent n v x ver off len w = (w', r) → stored w' n' x' ver' = stored w n' x' ver';
}.

Section reading.
Context `{!UuidDisplay} `{!Blake3} `{!ReedSolomon}.
Context {W : Type} `{!DataNodeClient W} `{!DataNodeReader W} `{!MetadataClient W} `{!JoinOrder W}.
Context `{!DataNodeLaws W} `{!DataNodeReaderLaws W}.
Variable gen : N → OperationId.
Implicit Types h : ClusterBlockHandler W.

(** The replicas of the extent hold [d] or nothing. *)
Definition replicas_agree (nodes : list NodeId) (x : ExtentId) (d : list N) (w : W) : Prop :=
  ∀ n, n ∈ nodes → stored w n x extent_version = None ∨ stored w n x extent_version = Some d.

Lemma try_replicas_agree nodes x off len le h h' r d :
  len < u64_modulus →
  try_replicas nodes x extent_version off len le h = Return (h', r) →
  replicas_agree nodes x d (pl_world (bh_pipeline h)) →
  (∃ e, r = Err e) ∨ r = Ok (Some (read_payload off len d)).
Proof.
  intros Hlen. revert le h. induction nodes as [|n nodes IH]; intros le h; simpl; [intros [= _ <-]; eauto|].
  intros Ht Hag. assert (replicas_agree nodes x d (pl_world (bh_pipeline h))) as Hag'
    by (intros n' Hn'; apply Hag; set_solver).
  destruct (cache_get_node _ _); [|by eapply IH].
  destruct (dn_read_extent _ _ _ _ _ _ _) as [w [[res|e]|]] eqn:Hread; [..|done].
  - injection Ht as _ <-. apply law_read_ok in Hread as (d' & Hd' & ->); [|done]. right.
    destruct (Hag n) as [|Hd]; [by left|congruence|]. do 2 f_equal. congruence.
  - eapply IH; [exact Ht|]. intros n' Hn'. simpl.
    rewrite !(law_read_frame _ _ _ _ _ _ _ _ _ _ _ _ Hread). by apply Hag'.
Qed.

(** The replica nodes a read of block [b] asks. *)
Definition block_nodes (b : N) (replicas : N) h : list NodeId :=
  select_nodes (vc_volume_id (bh_config h)) (b `div` vc_extent_blocks (bh_config h))
    (available_nodes (bh_pipeline h)) (N.to_nat replicas).

Definition block_extent (b : N) h : ExtentId :=
  extent_id_for_extent (vc_volume_id (bh_config h)) (b `div` vc_extent_blocks (bh_config h)).

Lemma read_block_agree b replicas len h h' r d :
  let bs := vc_block_size (bh_config h) in
  let eb := vc_extent_blocks (bh_config h) in
  vc_protection (bh_config h) = Replicated replicas → len < u64_modulus →
  read_block b bs len h = Return (h', r) →
  replicas_agree (block_nodes b replicas h) (block_extent b h) d (pl_world (bh_pipeline h)) →
  block_nodes b replicas h ≠ [] →
  r = Ok (read_payload (u64_mul (b `mod` eb) bs) len d) ∨
  r = Ok (zeros len) ∧ ∃ e, try_replicas (block_nodes b replicas h) (block_extent b h) extent_version
    (u64_mul (b `mod` eb) bs) len None h = Return (h', Err e).
Proof.
  intros bs eb Hprot Hlen Hread Hag Hne. unfold read_block in Hread. simpl in Hread.
  assert (N.max (vc_extent_blocks (bh_config h)) 1 = eb) as Heb
    by (unfold eb, vc_extent_blocks; lia).
  rewrite Hprot, Heb in Hread. fold (block_nodes b replicas h) in Hread.
  rewrite decide_False in Hread by by intros ?%nil_length_inv.
  unfold read_from_replicas in Hread. simpl in Hread. fold (block_extent b h) in Hread.
  destruct (try_replicas _ _ _ _ _ _ _) as [[h1 r1]|] eqn:Ht; [|done]. simpl in Hread.
  injection Hread as <- <-. destruct (try_replicas_agree _ _ _ _ _ _ _ _ _ Hlen Ht Hag) as [[e ->]| ->]; [|by left].
  right. split; [done|]. by exists e.
Qed.

Lemma read_payload_slice off len (d : list N) :
  0 < len → off + len ≤ N.of_nat (length d) → read_payload off len d = slice off len d.
Proof.
  intros Hlen Hle. unfold read_payload. rewrite decide_False by lia. unfold resize_zero, slice.
  rewrite length_drop. replace (N.to_nat len - (length d - N.to_nat off))%nat with 0%nat by lia.
  apply app_nil_r.
Qed.

(** A block of a chunk that starts its extent: its extent and its offset. *)
Lemma chunk_block_offset eb bs r (d : list N) b :
  0 < eb → good_chunk eb bs (r, d) → range_start r `mod` eb = 0 → in_range b r →
  eb * bs < u64_modulus →
  b `div` eb = range_start r `div` eb ∧ b `div` eb * eb = range_start r ∧
  u64_mul (b `mod` eb) bs = (b - range_start r) * bs ∧
  (b - range_start r) * bs + bs ≤ N.of_nat (length d) ∧ (b - range_start r) * bs + bs < u64_modulus.
Proof.
  intros Heb (Hne & Hdiv & Hlen) Hal [Hlo Hhi] Hov. simpl in *.
  assert (range_start r = eb * (range_start r `div` eb)) as Hs
    by (rewrite (N.div_mod (range_start r) eb) at 1 by lia; lia).
  assert (b `div` eb = range_start r `div` eb) as Hb.
  { apply N.le_antisymm; [rewrite Hdiv; apply N.Div0.div_le_mono; lia|apply N.Div0.div_le_mono; lia]. }
  assert (b = eb * (b `div` eb) + b `mod` eb) as Hdm by (apply N.div_mod; lia).
  assert (b `mod` eb < eb) by (apply N.mod_upper_bound; lia).
  assert (b `mod` eb = b - range_start r) as Hmod by (rewrite Hb in Hdm; lia).
  split_and!; [done|lia| |rewrite Hlen; nia|nia].
  rewrite u64_mul_small by nia. by rewrite Hmod.
Qed.

(** Some replica answers the read of a block. *)
Definition answered (b replicas : N) h : Prop :=
  ∃ h' d, try_replicas (block_nodes b replicas h) (block_extent b h) extent_version
    (u64_mul (b `mod` vc_extent_blocks (bh_config h)) (vc_block_size (bh_config h)))
    (vc_block_size (bh_config h)) None h = Return (h', Ok (Some d)).

(** C3: Read your write, on a replicated volume: after a chunk that starts an
    extent nobody wrote before is committed, by whatever majority, reading any of
    its blocks returns the bytes written there, whichever replica answers first.
    The commit is one of this pipeline (the operation was not found committed by the
    recovery of an ambiguous write), and some replica answers the read; a read that no
    replica answers is left out ([unreachable_replicas_read_zeros]). *)
Theorem replicated_read_your_write r d h h1 ep replicas b h2 res :
  let eb := vc_extent_blocks (bh_config h) in
  let bs := vc_block_size (bh_config h) in
  let v := vc_volume_id (bh_config h) in
  let op := gen (cs_operation_counter (pl_session (bh_pipeline h))) in
  let x := extent_id_for_extent v (range_start r `div` eb) in
  write_chunk gen r d h = (h1, Ok (WriteCommitted ep)) →
  vc_protection (bh_config h) = Replicated replicas → 0 < replicas →
  cvi_protection <$> cache_get_volume v (pl_cache (bh_pipeline h)) = Some (Replicated replicas) →
  ¬ found_committed op ep (pl_world (bh_pipeline h)) (pl_world (bh_pipeline h1)) →
  available_nodes (bh_pipeline h) ≠ [] →
  (∀ n, stored (pl_world (bh_pipeline h)) n x extent_version = None) →
  good_chunk eb bs (r, d) → range_start r `mod` eb = 0 → eb * bs < u64_modulus → 0 < bs →
  in_range b r → answered b replicas h1 → read_single_block_data b bs h1 = Return (h2, res) →
  res = Ok (slice ((b - range_start r) * bs) bs d).
Proof.
  intros eb bs v op x Hw Hprot Hpos Hvol Hnf Hav Hnone Hgood Hal Hov Hbs Hb Hans Hread.
  assert (0 < eb) as Heb by (unfold eb, vc_extent_blocks; lia).
  destruct (chunk_block_offset eb bs r d b Heb Hgood Hal Hb Hov) as (Hdiv & _ & Hoff & Hlen & _).
  unfold write_chunk in Hw. rewrite Hprot in Hw.
  destruct (execute _ _ _ _) as [p1 r1] eqn:Hex. injection Hw as <- ->.
  destruct (execute_committed _ _ _ _ _ _ _ Hex Hvol) as [_ [|(Hcache & w & Hrtc & Hsend)]]; [done|].
  assert (block_nodes b replicas (set_pipeline p1 h) = block_nodes b replicas h) as Hnodes.
  { unfold block_nodes, available_nodes. simpl. by rewrite Hcache. }
  unfold read_single_block_data in Hread. fold bs in Hread.
  eapply (read_block_agree b replicas bs (set_pipeline p1 h) h2 res d) in Hread; [|done|nia|..].
  - destruct Hread as [->|[-> [e He]]].
    + simpl. fold eb bs. rewrite Hoff. by rewrite read_payload_slice.
    + destruct Hans as (h' & d' & Hans). simpl in Hans, He. fold eb bs in Hans, He. by rewrite He in Hans.
  - intros n _. unfold block_extent. simpl. fold eb. rewrite Hdiv. fold v x.
    destruct (lookups_same_node _ _ _ n Hrtc) as [Hs _].
    destruct (replicated_send_cases _ _ _ _ _ _ n x extent_version Hsend) as [->|[->| ->]];
      [|by left|by right].
    left. rewrite Hs. apply Hnone.
  - rewrite Hnodes. intros Hnil%(f_equal length). unfold block_nodes in Hnil.
    rewrite length_select_nodes in Hnil. simpl in Hnil.
    destruct (available_nodes (bh_pipeline h)); [done|simpl in Hnil; lia].
Qed.

(** *** Erasure-coded reads *)

Lemma fill_shards_agrees results (full : list (list N)) :
  Forall (λ res, full !! res.1 = Some res.2) results → agrees (fill_shards (length full) results) full.
Proof.
  unfold fill_shards, agrees. intros Hall.
  assert (Forall2 (λ o s, o = None ∨ o = Some s) (replicate (length full) (None (A:=list N))) full) as Hinit.
  { apply Forall2_replicate_l; [done|]. apply Forall_true. by left. }
  revert Hinit. generalize (replicate (length full) (None (A:=list N))) as shards.
  induction Hall as [|[i d] results Hi _ IH]; intros shards Hs; simpl in *; [done|].
  rewrite decide_True by by eapply lookup_lt_Some. apply IH.
  assert (Forall2 (λ o s, o = None ∨ o = Some s) (<[i := Some d]> shards) (<[i := d]> full)) as Hins
    by (apply Forall2_insert; [done|by right]).
  by rewrite (list_insert_id full) in Hins.
Qed.

Lemma read_fragments_stored tasks x w v w' results i d :
  read_fragments tasks x w v = (w', results) → (i, d) ∈ results →
  ∃ n, (i, n) ∈ tasks ∧ stored w n x extent_version = Some d.
Proof.
  revert w results. induction tasks as [|[j n] tasks IH]; intros w results; simpl.
  { intros [= _ <-] ?%not_elem_of_nil. done. }
  destruct (dn_read_extent _ _ _ _ _ _ _) as [w1 r] eqn:Hr.
  destruct (read_fragments tasks x w1 v) as [w2 rest] eqn:Hrest. intros [= <- <-] Hin.
  assert ((i, d) ∈ rest → ∃ n', (i, n') ∈ (j, n) :: tasks ∧ stored w n' x extent_version = Some d) as Hlater.
  { intros Hin'. destruct (IH _ _ Hrest Hin') as (n' & Hn' & Hd). exists n'. split; [by right|].
    by rewrite (law_read_frame _ _ _ _ _ _ _ _ _ _ _ _ Hr) in Hd. }
  destruct r as [[res|e]|]; [|by apply Hlater..].
  apply elem_of_cons in Hin as [[= -> ->]|Hin]; [|by apply Hlater].
  apply law_read_ok in Hr as (d' & Hd' & ->); [|done]. exists n. split; [by left|]. exact Hd'.
Qed.

Lemma elem_of_imap_pair (l : list NodeId) i n : (i, n) ∈ imap pair l ↔ l !! i = Some n.
Proof.
  split.
  - intros (j & Hj)%list_elem_of_lookup. rewrite list_lookup_imap in Hj.
    destruct (l !! j) eqn:Hl; simplify_eq/=. done.
  - intros Hi. apply list_elem_of_lookup. exists i. by rewrite list_lookup_imap, Hi.
Qed.

Lemma concat_shards_Some (full : list (list N)) : concat_shards (Some <$> full) = concat full.
Proof. unfold concat_shards. induction full as [|s full IH]; csimpl; [done|]. by rewrite IH. Qed.

Lemma slice_of_take off len n (l d : list N) :
  take n l = d → off + len ≤ N.of_nat (length d) → slice off len l = slice off len d.
Proof.
  intros <- Hle. rewrite length_take in Hle. unfold slice. rewrite skipn_firstn_comm, take_take.
  f_equal. lia.
Qed.

(** What an erasure-coded write to an extent nobody wrote leaves on the nodes. *)
Lemma ec_fragments_agree nodes es op s v x ver ep w w' acks i n d :
  transmit_fragments nodes es op s v x ver ep w = (w', acks) → NoDup nodes →
  (∀ n, stored w n x ver = None) → nodes !! i = Some n → stored w' n x ver = Some d →
  (ecf_data <$> es_fragments es) !! i = Some d.
Proof.
  intros Ht Hnd Hnone Hn Hd. unfold transmit_fragments in Ht.
  apply (transmit_cases _ _ _ _ n x ver) in Ht as [Heq|[Heq|(t & Hin & Hnode & _ & _ & Heq)]];
    [by rewrite Heq, Hnone in Hd|by rewrite Heq in Hd|].
  unfold fragment_tasks in Hin. apply elem_of_lookup_zip_with in Hin as (j & n' & f & -> & Hj & Hf).
  simpl in *. subst n'. assert (i = j) as -> by by eapply NoDup_lookup.
  rewrite list_lookup_fmap, Hf. simpl. congruence.
Qed.

(** More than K acknowledgements leave no room for the 8-bit sum to wrap. *)
Lemma ec_total_fits k m (acked nodes : list NodeId) v num :
  k ≤ 255 → m ≤ 255 → (0 < N.to_nat m)%nat → NoDup acked → acked ⊆ select_ec_nodes v num nodes k m →
  (N.to_nat k + 1 `min` N.to_nat m ≤ length acked)%nat → u8_add k m = k + m.
Proof.
  intros Hk Hm Hpos Hnd Hsub Hlen. apply NoDup_submseteq, submseteq_length in Hsub; [|done].
  unfold select_ec_nodes in Hsub. rewrite length_select_nodes in Hsub. unfold u8_add in *.
  destruct (decide (k + m < 256)); [by apply N.mod_small|].
  assert ((k + m) `mod` 256 = k + m - 256) as Hmod; [|lia].
  symmetry. apply (N.mod_unique _ _ 1); lia.
Qed.

(** A read of a block when the fragments it gets are those of [d]. *)
Lemma read_ec_block_slice h k m b d frags w2 results :
  let eb := vc_extent_blocks (bh_config h) in
  let bs := vc_block_size (bh_config h) in
  let v := vc_volume_id (bh_config h) in
  let start := b `div` eb * eb in
  let w := pl_world (bh_pipeline h) in
  let total := (N.to_nat k + N.to_nat m)%nat in
  let nodes := select_nodes v start (available_nodes (bh_pipeline h)) total in
  vc_protection (bh_config h) = ErasureCoded k m → rs_new (N.to_nat k) (N.to_nat m) = true →
  (0 < length nodes)%nat →
  read_fragments (join_order w (imap pair nodes)) (extent_id_for_extent v start) w v = (w2, results) →
  ec_encode (MkErasureCodec (N.to_nat k) (N.to_nat m)) d = Ok frags → length frags = total →
  Forall (λ res, (frag_data <$> frags) !! res.1 = Some res.2) results →
  (N.to_nat k ≤ length (filter is_Some (fill_shards total results)))%nat → 0 < bs →
  (b - start) * bs + bs ≤ N.of_nat (length d) → (b - start) * bs + bs < u64_modulus →
  (read_ec_block_data b bs h).2 = Ok (slice ((b - start) * bs) bs d).
Proof.
  intros eb bs v start w total nodes Hprot Hnew Hpos Hrf Henc Hfl Hall Hcount Hbs Hlen Hsm.
  destruct (rs_new_pos _ _ Hnew) as [Hkp _].
  destruct (ec_reconstruct (N.to_nat k) (N.to_nat m) d frags (fill_shards total results))
    as (full & Hrec & Htake); try done.
  { replace total with (length (frag_data <$> frags)) by by rewrite length_fmap.
    by apply fill_shards_agrees. }
  unfold read_ec_block_data. rewrite Hprot. fold eb bs v start w total nodes.
  rewrite decide_False by lia. rewrite Hrf. rewrite decide_False by lia. rewrite Hnew, Hrec. simpl snd.
  rewrite <-fmap_take, concat_shards_Some. set (rec := concat (take (N.to_nat k) full)) in *.
  assert (length d ≤ length rec)%nat as Hrl by (rewrite <-Htake, length_take; lia).
  rewrite u64_mul_small by lia. rewrite u64_add_small by lia. rewrite decide_False by lia. simpl. f_equal.
  rewrite N.min_l by lia. replace ((b - start) * bs + bs - (b - start) * bs) with bs by lia.
  rewrite (slice_of_take _ _ _ _ _ Htake) by lia. unfold resize_zero.
  assert (length (slice ((b - start) * bs) bs d) = N.to_nat bs) as Hsl
    by (unfold slice; rewrite length_take, length_drop; lia).
  rewrite Hsl, Nat.sub_diag, app_nil_r, take_ge by lia. done.
Qed.

(** C13: Read your write, on an erasure-coded volume: after a chunk that starts
    an extent nobody wrote before is committed, a read of any of its blocks
    returns the bytes written there, as long as K fragments can be read, whatever
    the others do. *)
Theorem ec_read_your_write r d h h1 ep k m b :
  let eb := vc_extent_blocks (bh_config h) in
  let bs := vc_block_size (bh_config h) in
  let v := vc_volume_id (bh_config h) in
  let op := gen (cs_operation_counter (pl_session (bh_pipeline h))) in
  let x := extent_id_for_extent v (range_start r) in
  let w1 := pl_world (bh_pipeline h1) in
  let total := (N.to_nat k + N.to_nat m)%nat in
  let nodes := select_nodes v (range_start r) (available_nodes (bh_pipeline h)) total in
  let readable := (read_fragments (join_order w1 (imap pair nodes)) x w1 v).2 in
  write_chunk gen r d h = (h1, Ok (WriteCommitted ep)) →
  vc_protection (bh_config h) = ErasureCoded k m → k ≤ 255 → m ≤ 255 →
  cvi_protection <$> cache_get_volume v (pl_cache (bh_pipeline h)) = Some (ErasureCoded k m) →
  NoDup (available_nodes (bh_pipeline h)) → op_fresh op (pl_world (bh_pipeline h)) →
  (∀ n, stored (pl_world (bh_pipeline h)) n x extent_version = None) →
  good_chunk eb bs (r, d) → range_start r `mod` eb = 0 → eb * bs < u64_modulus → 0 < bs →
  in_range b r → (N.to_nat k ≤ length (filter is_Some (fill_shards total readable)))%nat →
  (read_ec_block_data b bs h1).2 = Ok (slice ((b - range_start r) * bs) bs d).
Proof.
  intros eb bs v op x w1 total nodes readable Hw Hprot Hk Hm Hvol Hnd Hfresh Hnone Hgood Hal Hov Hbs Hb Hcount.
  assert (0 < eb) as Heb by (unfold eb, vc_extent_blocks; lia).
  destruct (chunk_block_offset eb bs r d b Heb Hgood Hal Hb Hov) as (_ & Hst & Hoff & Hlen & Hsm).
  unfold write_chunk in Hw. rewrite Hprot in Hw.
  destruct (ec_execute _ _ _ _ _ _) as [p1 r1] eqn:Hex. injection Hw as <- ->.
  destruct (ec_execute_committed _ _ _ _ _ _ _ _ _ _ Hex Hvol) as (_ & Hmap & es & acks & Henc & Ht & Hreq).
  apply encode_data_codec in Henc as (Hnew & Hne & frags & Henc & Hfr).
  unfold ec_extent_num in Ht. rewrite N.div_1_r in Ht. fold v in Ht.
  assert (NoDup nodes) as Hnn by by apply select_nodes_NoDup.
  destruct (rs_new_pos _ _ Hnew) as [Hkp Hmp].
  assert (select_ec_nodes v (range_start r) (available_nodes (bh_pipeline h)) k m = nodes ∧
    (0 < length nodes)%nat) as [Hnodes Hpos].
  { destruct (transmit_fragments_stored _ _ _ _ _ _ _ _ _ _ _ Ht) as (acked & Ha & Hsub & Hla & _);
      [by apply select_nodes_NoDup|done|].
    assert (u8_add k m = k + m) as Hfit.
    { eapply (ec_total_fits k m acked (available_nodes (bh_pipeline h)) v (range_start r)); try done.
      by rewrite Hla. }
    assert (select_ec_nodes v (range_start r) (available_nodes (bh_pipeline h)) k m = nodes) as Heq.
    { unfold select_ec_nodes, nodes. rewrite Hfit. f_equal. lia. }
    split; [done|]. rewrite Heq in Hsub. apply NoDup_submseteq, submseteq_length in Hsub; [lia|done]. }
  rewrite Hnodes in Ht. set (h1 := set_pipeline p1 h) in *.
  destruct (ec_encode_ok (N.to_nat k) (N.to_nat m) d Hnew Hne) as (frags' & Henc' & Hfl & _).
  rewrite Henc in Henc'. injection Henc' as <-.
  assert (available_nodes (bh_pipeline h1) = available_nodes (bh_pipeline h)) as Hav
    by (unfold available_nodes, cache_list_nodes; simpl; by rewrite Hmap).
  destruct (read_fragments (join_order w1 (imap pair nodes)) x w1 v) as [w2 results] eqn:Hrf.
  rewrite <-Hst. eapply (read_ec_block_slice h1 k m b d frags w2 results); simpl bh_config; fold eb bs v;
    rewrite ?Hst, ?Hav; try done.
  apply Forall_forall. intros [i d'] Hin.
  destruct (read_fragments_stored _ _ _ _ _ _ _ _ Hrf Hin) as (n & Hn & Hsd).
  rewrite join_order_perm, elem_of_imap_pair in Hn. simpl. rewrite <-Hfr.
  by eapply ec_fragments_agree.
Qed.

End reading.

(** ** Witnesses *)

Module HandlerDemo.

Import Demo PlacementDemo EcDemo WriteDemo.

Definition cluster_read (n : NodeId) (v : VolumeId) (x : ExtentId) (ver off len : N) (w : Cluster)
    : Cluster * exec (result ReadError DataNodeReadResult) :=
  (w, if decide (n ∈ cluster_down w) then Return (Err (RdDataNodeReadFailed n "unreachable")) else
      match cluster_stores w !! (NodeId_as_uuid n, ExtentId_as_uuid x, ver) with
      | Some d => Return (Ok (MkReadResult x ver (compute_checksum (read_payload off len d)) (read_payload off len d)))
      | None => Return (Err (RdDataNodeReadFailed n "extent not found"))
      end).

#[export] Instance cluster_reader : DataNodeReader Cluster := {| dn_read_extent := cluster_read |}.

#[export] Instance cluster_reader_laws : DataNodeReaderLaws Cluster.
Proof.
  split.
  - intros n v x ver off len w w' res _. simpl. unfold cluster_read. intros [= _ Hr].
    case_decide; [done|]. destruct (cluster_stores w !! _) as [d|] eqn:Hd; [|done].
    injection Hr as <-. by exists d.
  - intros n v x ver off len w w' r n' x' ver' [= <- _]. done.
Defined.

(** Four blocks of four bytes to an extent. *)
Definition config_of (protection : ProtectionPolicy) : VolumeConfig :=
  MkVolumeConfig vol 1048576 4 protection 16.

Definition lease : LeaseManager := MkLeaseManager vol session1 30000 LeaseActive (Some 1) (Some 31000).

Definition handler_of (protection : ProtectionPolicy) (down : list NodeId) : ClusterBlockHandler Cluster :=
  MkHandler _ (config_of protection) (pipeline_of protection down) lease.

(** The same handler when other nodes are down. *)
Definition with_down (down : list NodeId) (h : ClusterBlockHandler Cluster) : ClusterBlockHandler Cluster :=
  let w := pl_world (bh_pipeline h) in
  set_handler_world (MkCluster (cluster_log w) (cluster_stores w) (cluster_ops w) down) h.

(** A write of blocks 2 to 6, across an extent boundary. *)
Definition data20 : list N := N.of_nat <$> seq 1 20.

Definition write_req : IoRequest := MkIoRequest IoWrite 8 20 (Some data20) 0.

End HandlerDemo.
Import Demo PlacementDemo EcDemo WriteDemo HandlerDemo.

Lemma handle_write_splits_witness :
  ∃ cs, concat cs.*2 = data20 ∧ Forall (good_chunk 4 4) cs ∧
    ∃ h' res, handle_io op write_req (handler_of (Replicated 3) []) = Return (Some (h', res ≫= λ _, Ok None)) ∧
      chunks_result op cs (handler_of (Replicated 3) []) h' res.
Proof.
  destruct (handle_write_splits op write_req (handler_of (Replicated 3) []) (MkRange 2 7) data20 1)
    as (cs & _ & Hd & Hg & Hres); try reflexivity; try discriminate.
  exists cs. split; [exact Hd|]. split; [exact Hg|exact Hres].
Defined.

Lemma replicated_read_your_write_witness :
  let d := N.of_nat <$> seq 1 16 in
  let h1 := (write_chunk op (MkRange 4 8) d (handler_of (Replicated 3) [NodeId_new 3])).1 in
  ∃ h2, read_single_block_data 5 4 h1 = Return (h2, Ok [5; 6; 7; 8]).
Proof.
  intros d h1. destruct (read_single_block_data 5 4 h1) as [[h2 res]|] eqn:Hr;
    [|vm_compute in Hr; discriminate].
  rewrite (replicated_read_your_write op (MkRange 4 8) d (handler_of (Replicated 3) [NodeId_new 3]) h1
    (EpochId_new 1) 3 5 h2 res).
  - exists h2. reflexivity.
  - vm_compute. reflexivity.
  - reflexivity.
  - reflexivity.
  - vm_compute. reflexivity.
  - intros (w & cm & Hrtc & Hl & _). rewrite (cluster_lookups _ _ _ Hrtc) in Hl. vm_compute in Hl. discriminate.
  - vm_compute. discriminate.
  - intros n. apply lookup_empty.
  - split; [reflexivity|]. split; reflexivity.
  - reflexivity.
  - reflexivity.
  - reflexivity.
  - split; [discriminate|reflexivity].
  - eexists _, _. vm_compute. reflexivity.
  - exact Hr.
Defined.

Lemma ec_read_your_write_witness :
  let d := N.of_nat <$> seq 1 16 in
  let h1 := (write_chunk op (MkRange 4 8) d (handler_of (ErasureCoded 1 2) [NodeId_new 1])).1 in
  (read_ec_block_data 6 4 h1).2 = Ok [9; 10; 11; 12].
Proof.
  intros d h1.
  refine (ec_read_your_write op (MkRange 4 8) d (handler_of (ErasureCoded 1 2) [NodeId_new 1]) h1
    (EpochId_new 1) 1 2 6 _ _ _ _ _ _ _ _ _ _ _ _ _ _).
  - vm_compute. reflexivity.
  - reflexivity.
  - discriminate.
  - discriminate.
  - vm_compute. reflexivity.
  - apply (bool_decide_unpack _). vm_compute. exact I.
  - intros n Hn. exact (not_elem_of_empty (C:=gset (N * N)) _ Hn).
  - intros n. apply lookup_empty.
  - split; [reflexivity|]. split; reflexivity.
  - reflexivity.
  - reflexivity.
  - reflexivity.
  - split; [discriminate|reflexivity].
  - vm_compute. repeat constructor.
Defined.

(** ** Divergences *)

(** One write of [data] at byte [offset] and one read, through the handler. *)
Definition write_at (offset : N) (data : list N) (h : ClusterBlockHandler Cluster)
    : option (ClusterBlockHandler Cluster) :=
  match handle_io op (MkIoRequest IoWrite offset (N.of_nat (length data)) (Some data) 0) h with
  | Return (Some (h, Ok _)) => Some h
  | _ => None
  end.

Definition read_at (offset len : N) (h : ClusterBlockHandler Cluster) : option (list N) :=
  match handle_io op (MkIoRequest IoRead offset len None 0) h with
  | Return (Some (_, Ok data)) => data
  | _ => None
  end.

(** A write smaller than an extent replaces the whole extent: after a successful
    write of a full extent, a successful write of its second block loses the
    other blocks, and the block just written reads as zeros. *)
Theorem partial_write_clobbers_extent :
  let old := N.of_nat <$> seq 1 16 in
  (h1 ← write_at 16 old (handler_of (Replicated 3) []);
   h2 ← write_at 20 [90; 91; 92; 93] h1;
   Some (read_at 16 16 h1, read_at 16 4 h2, read_at 20 4 h2)) =
  Some (Some old, Some [90; 91; 92; 93], Some [0; 0; 0; 0]).
Proof. vm_compute. reflexivity. Qed.

(** A replica that missed a committed overwrite answers reads with the old data:
    extent versions never change, so nothing tells it apart. *)
Theorem stale_replica_read :
  let old := N.of_nat <$> seq 1 16 in
  let new := N.of_nat <$> seq 101 16 in
  (h1 ← write_at 16 old (handler_of (Replicated 3) []);
   h2 ← write_at 16 new (with_down [NodeId_new 1] h1);
   read_at 16 16 (with_down [] h2)) = Some old.
Proof. vm_compute. reflexivity. Qed.

(** When no replica can be reached, a read of committed data succeeds with zeros. *)
Theorem unreachable_replicas_read_zeros :
  (h1 ← write_at 16 (N.of_nat <$> seq 1 16) (handler_of (Replicated 3) []);
   read_at 16 4 (with_down [NodeId_new 1; NodeId_new 2; NodeId_new 3] h1)) = Some [0; 0; 0; 0].
Proof. vm_compute. reflexivity. Qed.
