(* ===== verification/Ublk.v ===== *)
(** * The kernel block device (crates/blockyard-ublk/src/ublk.rs)

    [UblkDevice]: starting and stopping the device, the parameters it gives the
    kernel, and the callback that turns a command of the kernel's queue into an
    [IoRequest] and completes it.  The driver (libublk) is the class [Libublk]; the
    handler of requests is the trait [BlockHandler], implemented by
    [ClusterBlockHandler].  A queue handles one command at a time: the callback
    blocks until the handler returns. *)

From Stdlib Require Import Strings.Ascii.
From S2P Require Import Prelude Text Common MetadataSM MetadataSpec MetadataService Placement Checksum EcCodec.
From S2P Require Import Watermark MetadataCache ClientRecovery ClientHealth WritePipeline EcWritePipeline BlockHandler.

#[local] Open Scope N_scope.

(** ** Data *)

Record UblkDeviceConfig := MkUblkDeviceConfig {
  uc_device_size_bytes : N;
  uc_block_size : N;
  uc_queue_depth : N;
  uc_num_queues : N;
}.

Definition UblkDeviceConfig_default : UblkDeviceConfig := MkUblkDeviceConfig 0 4096 128 1.

Inductive DeviceMode :=
  | DeviceIdle
  | DeviceMock
  | DeviceKernel (device_path : string) (device_id : Z).

(** The trait [BlockHandler]; a handler that runs out of fuel returns [None]. *)
Class BlockHandler (H : Type) := {
  handle_request : IoRequest → H → exec (option (H * result Error (option (list N))));
}.

Record UblkDevice (H : Type) := MkUblkDevice {
  ud_handler : H;
  ud_config : UblkDeviceConfig;
  ud_running : bool;
  ud_mode : DeviceMode;
}.
Arguments MkUblkDevice {H}.
Arguments ud_handler {H}.
Arguments ud_config {H}.
Arguments ud_running {H}.
Arguments ud_mode {H}.

(** The fields of [ublk_param_basic] that are set. *)
Record TargetParams := MkTargetParams {
  tp_dev_size : N;
  tp_bs_shift : N;
  tp_dev_sectors : N;
}.

(** What is used of libublk: adding a device, running it until it is ready (or an
    error before that), and removing it. *)
Class Libublk (K : Type) := {
  ublk_add_dev : N → N → K → K * result string N;
  ublk_run_target : Z → TargetParams → K → K * result string unit;
  ublk_remove_dev : Z → K → K;
}.

(** ** Starting and stopping *)

(** [x as i32] of a u32 or u64. *)
Definition to_i32 (n : N) : Z :=
  let m := n `mod` 4294967296 in
  if decide (m < 2147483648) then Z.of_N m else (Z.of_N m - 4294967296)%Z.

Definition i32_to_string (z : Z) : string :=
  match z with
  | Zneg p => "-" +:+ u64_to_string (Npos p)
  | _ => u64_to_string (Z.to_N z)
  end.

(** [parse::<i32>()] of an optional sign and digits. *)
Definition i32_of_string (s : string) : option Z :=
  let '(neg, digits) := read_sign s in
  n ← u64_of_string digits;
  let z := if neg : bool then (- Z.of_N n)%Z else Z.of_N n in
  if decide (-2147483648 ≤ z < 2147483648)%Z then Some z else None.

(** [u32::trailing_zeros() as u8] *)
Fixpoint pos_trailing_zeros (p : positive) : N :=
  match p with xO p => 1 + pos_trailing_zeros p | _ => 0 end.

Definition u32_trailing_zeros (n : N) : N :=
  match n with N0 => 32 | Npos p => pos_trailing_zeros p end.

Definition target_params (c : UblkDeviceConfig) : TargetParams :=
  MkTargetParams (uc_device_size_bytes c) (u32_trailing_zeros (uc_block_size c))
    (N.shiftr (uc_device_size_bytes c) 9).

Section device.
Context {H K : Type} `{!BlockHandler H} `{!Libublk K}.
Implicit Types d : UblkDevice H.

Definition UblkDevice_new (handler : H) (config : UblkDeviceConfig) : UblkDevice H :=
  MkUblkDevice handler config false DeviceIdle.

Definition set_device (running : bool) (mode : DeviceMode) d : UblkDevice H :=
  MkUblkDevice (ud_handler d) (ud_config d) running mode.

Definition device_path d : option string :=
  match ud_mode d with DeviceKernel path _ => Some path | _ => None end.

(** [start]: without a kernel device. *)
Definition start_mock d : UblkDevice H * result Error unit :=
  if decide (uc_device_size_bytes (ud_config d) = 0) then (d, Err (ErrorConfig "device size must be > 0"))
  else (set_device true DeviceMock d, Ok tt).

(** The thread's result: the path it sends, empty when it fails before the device is
    ready. *)
Definition kernel_thread (c : UblkDeviceConfig) (k : K) : K * string :=
  match ublk_add_dev (uc_num_queues c) (uc_queue_depth c) k with
  | (k, Err _) => (k, EmptyString)
  | (k, Ok dev_id) =>
      match ublk_run_target (to_i32 dev_id) (target_params c) k with
      | (k, Err _) => (k, EmptyString)
      | (k, Ok _) => (k, "/dev/ublkb" +:+ i32_to_string (to_i32 dev_id))
      end
  end.

Definition start_kernel d (k : K) : UblkDevice H * K * result Error string :=
  if decide (uc_device_size_bytes (ud_config d) = 0) then (d, k, Err (ErrorConfig "device size must be > 0"))
  else
    let '(k, path) := kernel_thread (ud_config d) k in
    if decide (path = EmptyString) then (d, k, Err (ErrorStorage "ublk device creation failed"))
    else
      let dev_id := default (-1)%Z (strip_str_prefix "/dev/ublkb" path ≫= i32_of_string) in
      (set_device true (DeviceKernel path dev_id) d, k, Ok path).

Definition stop d (k : K) : UblkDevice H * K :=
  let k := match ud_mode d with DeviceKernel _ dev_id => ublk_remove_dev dev_id k | _ => k end in
  (set_device false DeviceIdle d, k).

Definition submit_io (req : IoRequest) d : exec (option (UblkDevice H * result Error (option (list N)))) :=
  if ud_running d then
    match handle_request req (ud_handler d) with
    | Return (Some (h, r)) => Return (Some (MkUblkDevice h (ud_config d) (ud_running d) (ud_mode d), r))
    | Return None => Return None
    | Panic => Panic
    end
  else Return (Some (d, Err (ErrorStorage "device not running"))).

End device.

(** ** Commands *)

(** The descriptor of a command in the kernel's queue. *)
Record IoDesc := MkIoDesc {
  iod_op_flags : N;
  iod_start_sector : N;
  iod_nr_sectors : N;
}.

(** How a command is completed: the number of bytes done, or an errno. *)
Inductive Completion := CompletedBytes (n : Z) | CompletedError (errno : Z).

Definition iod_operation (iod : IoDesc) : option IoOperation :=
  match N.land (iod_op_flags iod) 255 with
  | 0 => Some IoRead
  | 1 => Some IoWrite
  | 2 => Some IoFlush
  | 3 => Some IoDiscard
  | _ => None
  end.

(** [start_sector * 512] on u64 and [nr_sectors * 512] on u32, wrapping. *)
Definition iod_offset (iod : IoDesc) : N := u64_mul (iod_start_sector iod) 512.

Definition iod_length (iod : IoDesc) : N := (iod_nr_sectors iod * 512) `mod` 4294967296.

(** Copy [data] to the front of a buffer, as much as fits. *)
Definition copy_front (data buf : list N) : list N :=
  let len := (length data `min` length buf)%nat in
  take len data ++ drop len buf.

Section commands.
Context {H : Type} `{!BlockHandler H}.

(** The callback of the queue: [bufs] are the buffers shared with the kernel, one for
    each tag. *)
Definition io_handler (tag : N) (iod : IoDesc) (bufs : list (list N)) (h : H)
    : exec (option (H * list (list N) * Completion)) :=
  match bufs !! N.to_nat tag with
  | None => Panic
  | Some buf =>
      match iod_operation iod with
      | None => Return (Some (h, bufs, CompletedError (-95)))
      | Some op =>
          let len := iod_length iod in
          data ← match op with
                 | IoWrite =>
                     if decide (N.of_nat (length buf) < len) then Panic
                     else Return (Some (take (N.to_nat len) buf))
                 | _ => Return None
                 end;
          o ← handle_request (MkIoRequest op (iod_offset iod) len data tag) h;
          Return ('(h, r) ← o;
            match r with
            | Err e => Some (h, bufs, CompletedError (-5))
            | Ok read_data =>
                let bufs :=
                  match op, read_data with
                  | IoRead, Some data => <[N.to_nat tag := copy_front data buf]> bufs
                  | _, _ => bufs
                  end in
                Some (h, bufs, CompletedBytes (to_i32 len))
            end)
      end
  end.

End commands.

(** [ClusterBlockHandler] as a [BlockHandler]. *)
Section cluster.
Context `{!UuidDisplay} `{!Blake3} `{!ReedSolomon}.
Context {W : Type} `{!DataNodeClient W} `{!DataNodeReader W} `{!MetadataClient W} `{!JoinOrder W}.
Variable gen : N → OperationId.

Definition cluster_block_handler : BlockHandler (ClusterBlockHandler W) := {| handle_request := handle_io gen |}.

End cluster.

(** ** Lemmas *)

Lemma to_i32_range n : (-2147483648 ≤ to_i32 n < 2147483648)%Z.
Proof.
  unfold to_i32. assert (n `mod` 4294967296 < 4294967296) as Hm by by apply N.mod_upper_bound.
  revert Hm. generalize (n `mod` 4294967296) as m. intros m Hm. case_decide; lia.
Qed.

Lemma to_i32_small n : n < 2147483648 → to_i32 n = Z.of_N n.
Proof. intros Hn. unfold to_i32. rewrite N.mod_small by lia. by rewrite decide_True. Qed.

(** The digits of a number do not start with a sign. *)
Lemma i32_of_digits n : n < 2147483648 → i32_of_string (u64_to_string n) = Some (Z.of_N n).
Proof.
  intros Hn. unfold i32_of_string. rewrite read_sign_digits by apply u64_to_string_digits.
  rewrite u64_of_to_string. simpl. rewrite decide_True by lia. done.
Qed.

Lemma i32_round_trip z : (-2147483648 ≤ z < 2147483648)%Z → i32_of_string (i32_to_string z) = Some z.
Proof.
  intros Hz. destruct z as [|p|p].
  - by apply (i32_of_digits 0).
  - unfold i32_to_string. rewrite i32_of_digits by lia. f_equal; lia.
  - unfold i32_of_string, i32_to_string.
    change (read_sign ("-" +:+ u64_to_string (Npos p))) with (true, u64_to_string (Npos p)).
    cbv iota beta. rewrite u64_of_to_string. simpl. rewrite decide_True by lia. done.
Qed.

(** What the arithmetic of a command gives when it stays inside the device. *)
Lemma command_range iod bs op data tag :
  0 < bs → (iod_start_sector iod + iod_nr_sectors iod) * 512 < u64_modulus →
  iod_nr_sectors iod * 512 < 4294967296 →
  (iod_start_sector iod * 512) `mod` bs = 0 → (iod_nr_sectors iod * 512) `mod` bs = 0 →
  let first := (iod_start_sector iod * 512) `div` bs in
  let blocks := (iod_nr_sectors iod * 512) `div` bs in
  iod_length iod = blocks * bs ∧
  io_block_range bs (MkIoRequest op (iod_offset iod) (iod_length iod) data tag) =
    Return (MkRange first (first + blocks)).
Proof.
  intros Hbs Hin Hlen Hoff Hal. unfold iod_length, iod_offset, io_block_range. simpl.
  rewrite N.mod_small by done. rewrite u64_mul_small by lia. rewrite u64_add_small by lia.
  rewrite decide_False by lia.
  apply N.Div0.div_exact in Hoff, Hal.
  set (q := (iod_start_sector iod * 512) `div` bs) in *.
  set (k := (iod_nr_sectors iod * 512) `div` bs) in *.
  split; [lia|]. do 2 f_equal. rewrite Hoff, Hal, <-N.mul_add_distr_l. unfold div_ceil.
  rewrite (N.mul_comm bs), N.Div0.mod_mul, decide_True by done. by rewrite N.div_mul by lia.
Qed.

(** ** Commands of the kernel on a cluster volume *)

(** A command inside the device, aligned to its blocks, and inside its buffer. *)
Record command_ok (bs : N) (iod : IoDesc) (buf : list N) : Prop := {
  cmd_bs : 0 < bs;
  cmd_in_device : (iod_start_sector iod + iod_nr_sectors iod) * 512 < u64_modulus;
  cmd_start : (iod_start_sector iod * 512) `mod` bs = 0;
  cmd_aligned : (iod_nr_sectors iod * 512) `mod` bs = 0;
  cmd_in_buffer : iod_nr_sectors iod * 512 ≤ N.of_nat (length buf);
  cmd_i32 : iod_nr_sectors iod * 512 < 2147483648;
}.

(** How the result of a request is reported. *)
Definition completion_of {A} (len : N) (r : result Error A) : Completion :=
  match r with Ok _ => CompletedBytes (Z.of_N len) | Err _ => CompletedError (-5) end.

Lemma command_request bs iod buf op data tag :
  command_ok bs iod buf →
  let first := (iod_start_sector iod * 512) `div` bs in
  let blocks := (iod_nr_sectors iod * 512) `div` bs in
  iod_length iod = iod_nr_sectors iod * 512 ∧ iod_nr_sectors iod * 512 = blocks * bs ∧
  io_block_range bs (MkIoRequest op (iod_offset iod) (iod_length iod) data tag) =
    Return (MkRange first (first + blocks)).
Proof.
  intros [] first blocks.
  destruct (command_range iod bs op data tag) as [Hl Hr]; [done..|lia|done|done|].
  assert (iod_length iod = iod_nr_sectors iod * 512) as Hlen by (apply N.mod_small; lia).
  split_and!; [done|by rewrite <-Hlen|done].
Qed.

Section volume.
Context `{!UuidDisplay} `{!Blake3} `{!ReedSolomon}.
Context {W : Type} `{!DataNodeClient W} `{!DataNodeReader W} `{!MetadataClient W} `{!JoinOrder W}.
Variable gen : N → OperationId.
Implicit Types h : ClusterBlockHandler W.
#[local] Existing Instance cluster_block_handler.

(** C11: A write command of the kernel is carried out exactly: for a command inside the
    device and aligned to its blocks, under an active lease, the callback returns, after
    writing chunks that together are the blocks of the command's sectors in order and the
    bytes of its buffer in order, each inside one extent; the command is completed with
    its full length only if every chunk was committed, and otherwise with an I/O error,
    the chunks before the failing one committed and none after it tried.  No buffer
    shared with the kernel is changed. *)
Theorem write_command_carried_out tag iod bufs buf h version :
  let eb := vc_extent_blocks (bh_config h) in
  let bs := vc_block_size (bh_config h) in
  let len := iod_nr_sectors iod * 512 in
  let first := (iod_start_sector iod * 512) `div` bs in
  iod_operation iod = Some IoWrite → bufs !! N.to_nat tag = Some buf → command_ok bs iod buf →
  lm_state (bh_lease h) = LeaseActive → lm_lease_version (bh_lease h) = Some version →
  first + len `div` bs + eb < u64_modulus →
  ∃ cs, concat (range_values <$> cs.*1) = range_values (MkRange first (first + len `div` bs)) ∧
    concat cs.*2 = take (N.to_nat len) buf ∧ Forall (good_chunk eb bs) cs ∧
    ∃ h' res, io_handler (BlockHandler0 := cluster_block_handler gen) tag iod bufs h =
        Return (Some (h', bufs, completion_of len res)) ∧
      chunks_result gen cs h h' res.
Proof.
  intros eb bs len first Hop Hbuf Hok Hst Hver Hov.
  destruct (command_request bs iod buf IoWrite (Some (take (N.to_nat len) buf)) tag Hok) as (Hlen & Hblocks & Hr).
  pose proof (cmd_in_buffer _ _ _ Hok) as Hin. pose proof (cmd_i32 _ _ _ Hok) as Hi. fold len in Hlen, Hblocks, Hin, Hi.
  destruct (handle_write_splits gen (MkIoRequest IoWrite (iod_offset iod) (iod_length iod) (Some (take (N.to_nat len) buf)) tag)
    h (MkRange first (first + len `div` bs)) (take (N.to_nat len) buf) version)
    as (cs & Hc1 & Hc2 & Hc3 & h' & res & Hio & Hres); simpl; try done; fold eb bs.
  - apply N.le_add_r.
  - rewrite length_take, N.add_comm, N.add_sub, <-Hblocks. lia.
  - rewrite length_take. unfold u64_modulus. lia.
  - exists cs. split_and!; [done..|]. exists h', res. split; [|done].
    unfold io_handler. rewrite Hbuf, Hop. cbv zeta. rewrite Hlen. rewrite decide_False by lia.
    simpl. rewrite Hlen in Hio. rewrite Hio. simpl. destruct res; simpl; [|done].
    by rewrite to_i32_small.
Qed.

(** *** Reads have the length they were asked for *)

Context `{!DataNodeLaws W} `{!DataNodeReaderLaws W}.

Lemma length_resize_zero n l : length (resize_zero n l) = N.to_nat n.
Proof. unfold resize_zero. rewrite length_app, length_take, length_replicate. lia. Qed.

Lemma try_replicas_length nodes x ver off len err h h' data :
  0 < len < u64_modulus → try_replicas nodes x ver off len err h = Return (h', Ok (Some data)) →
  length data = N.to_nat len.
Proof.
  intros Hlen. revert err h. induction nodes as [|n nodes IH]; intros err h; simpl; [done|].
  destruct (cache_get_node n _); [|apply IH].
  destruct (dn_read_extent _ _ _ _ _ _ _) as [w [[res|e]|]] eqn:Hread; [|apply IH|done].
  intros [= _ <-]. apply law_read_ok in Hread as (d & _ & ->); [|lia].
  unfold read_payload. rewrite decide_False by lia. apply length_resize_zero.
Qed.

Lemma read_block_length b bs len h h' data :
  0 < len < u64_modulus → read_block b bs len h = Return (h', Ok data) → length data = N.to_nat len.
Proof.
  intros Hlen. unfold read_block. destruct (block_to_extent _ _) as [e o].
  case_decide; [intros [= _ <-]; apply length_replicate|].
  destruct (read_from_replicas _ _ _ _) as [[h1 r]|] eqn:Hr; [|done]. simpl. intros [= _ <-].
  destruct r as [[d|]|e']; [|apply length_replicate..].
  by eapply try_replicas_length, Hr.
Qed.

Lemma read_ec_block_length b bs h h' data :
  read_ec_block_data b bs h = (h', Ok data) → length data = N.to_nat bs.
Proof.
  unfold read_ec_block_data. intros Hr. inv_handler Hr; apply length_replicate || apply length_resize_zero.
Qed.

Lemma read_blocks_length blocks bs h h' buf :
  0 < bs < u64_modulus → read_blocks blocks bs h = Return (h', Ok buf) →
  length buf = (length blocks * N.to_nat bs)%nat.
Proof.
  intros Hbs. revert h h' buf. induction blocks as [|b blocks IH]; intros h h' buf; simpl; [by intros [= _ <-]|].
  destruct (match vc_protection (bh_config h) with
            | Replicated _ => read_single_block_data b bs h
            | ErasureCoded _ _ => Return (read_ec_block_data b bs h)
            end) as [[h1 r]|] eqn:Hb; [|done].
  simpl. destruct r as [d|e]; [|done].
  assert (length d = N.to_nat bs) as Hd.
  { destruct (vc_protection _); [by eapply read_block_length, Hb|].
    injection Hb as Hb. by eapply read_ec_block_length, Hb. }
  destruct (read_blocks blocks bs h1) as [[h2 [rest|e]]|] eqn:Hrest; [|done..].
  intros [= _ <-]. rewrite length_app, Hd, (IH _ _ _ Hrest). done.
Qed.

Lemma refresh_for_read_config h h' r : refresh_for_read h = (h', r) → bh_config h' = bh_config h.
Proof.
  unfold refresh_for_read. case_match; [by intros [= <- _]|].
  destruct (mc_refresh_metadata _ _) as [[w c] r']. by intros [= <- _].
Qed.

Lemma handle_read_length req h h' o first blocks :
  let bs := vc_block_size (bh_config h) in
  io_block_range bs req = Return (MkRange first (first + blocks)) → first + blocks < u64_modulus →
  io_length_bytes req = blocks * bs → 0 < blocks * bs < u64_modulus →
  handle_read req h = Return (h', Ok o) →
  ∃ data, o = Some data ∧ length data = N.to_nat (blocks * bs).
Proof.
  intros bs Hr Hin Hlen Hpos. unfold handle_read.
  destruct (refresh_for_read h) as [h1 [u|e]] eqn:Href; [|done].
  apply refresh_for_read_config in Href. rewrite Href. fold bs. rewrite Hr. simpl.
  rewrite u64_sub_small, N.add_comm, N.add_sub by lia.
  assert (0 < blocks ∧ 0 < bs ∧ bs < u64_modulus) as (Hb & Hbs & Hbm).
  { destruct (decide (blocks = 0)) as [->|]; [lia|]. destruct (decide (bs = 0)) as [Hz|]; [rewrite Hz in Hpos; lia|].
    assert (1 * bs ≤ blocks * bs) by (apply N.mul_le_mono_r; lia). lia. }
  case_decide.
  - assert (blocks = 1) as -> by lia. rewrite N.mul_1_l in *. destruct (vc_protection _).
    + destruct (read_single_block _ _ _ _) as [[h2 [d|e]]|] eqn:Hd; [|done..]. simpl.
      intros [= _ <-]. exists d. split; [done|]. unfold read_single_block in Hd. rewrite Hlen in Hd.
      by eapply read_block_length, Hd.
    + destruct (read_ec_block_data _ _ _) as [h2 [d|e]] eqn:Hd; [|done]. simpl.
      intros [= _ <-]. exists d. split; [done|]. by eapply read_ec_block_length, Hd.
  - destruct (read_blocks _ _ _) as [[h2 [buf|e]]|] eqn:Hd; [|done..]. simpl. intros [= _ <-].
    eexists. split; [done|]. apply read_blocks_length in Hd; [|done].
    unfold range_values in Hd. simpl in Hd. rewrite length_fmap, length_seq in Hd.
    rewrite length_take, Hlen, Hd. nia.
Qed.

Lemma copy_front_fits data buf : (length data ≤ length buf)%nat → copy_front data buf = data ++ drop (length data) buf.
Proof. intros Hl. unfold copy_front. rewrite Nat.min_l by done. by rewrite firstn_all. Qed.

Lemma io_handler_read tag iod bufs buf h :
  iod_operation iod = Some IoRead → bufs !! N.to_nat tag = Some buf →
  io_handler (BlockHandler0 := cluster_block_handler gen) tag iod bufs h =
    match handle_read (MkIoRequest IoRead (iod_offset iod) (iod_length iod) None tag) h with
    | Return (h, Ok (Some data)) =>
        Return (Some (h, <[N.to_nat tag := copy_front data buf]> bufs, CompletedBytes (to_i32 (iod_length iod))))
    | Return (h, Ok None) => Return (Some (h, bufs, CompletedBytes (to_i32 (iod_length iod))))
    | Return (h, Err _) => Return (Some (h, bufs, CompletedError (-5)))
    | Panic => Panic
    end.
Proof.
  intros Hop Hbuf. unfold io_handler. rewrite Hbuf, Hop. simpl. unfold handle_io. simpl.
  by destruct (handle_read _ h) as [[h1 [[d|]|e]]|].
Qed.

(** *** Reads return what the replicas of each block store *)

(** Reading an extent is the only thing that happens. *)
Definition read_step (w w' : W) : Prop :=
  ∃ n v x ver off len r, dn_read_extent n v x ver off len w = (w', r).

(** A node answers reads of an extent now and as long as there are only reads. *)
Definition keeps_answering (n : NodeId) (v : VolumeId) (x : ExtentId) (w : W) : Prop :=
  ∀ w' off len, rtc read_step w w' →
    ∃ w'' res, dn_read_extent n v x extent_version off len w' = (w'', Return (Ok res)).

(** A replica of the block that is known and keeps answering. *)
Definition readable (replicas : N) h (b : N) : Prop :=
  ∃ n, n ∈ block_nodes b replicas h ∧ is_Some (cache_get_node n (pl_cache (bh_pipeline h))) ∧
    keeps_answering n (vc_volume_id (bh_config h)) (block_extent b h) (pl_world (bh_pipeline h)).

(** The bytes of a block: those at its place in the extent that one of its replicas stores. *)
Definition stored_block (replicas : N) h (b : N) (data : list N) : Prop :=
  let eb := vc_extent_blocks (bh_config h) in
  let bs := vc_block_size (bh_config h) in
  ∃ n d, n ∈ block_nodes b replicas h ∧
    stored (pl_world (bh_pipeline h)) n (block_extent b h) extent_version = Some d ∧
    data = read_payload (u64_mul (b `mod` eb) bs) bs d.

(** The handler after some reads. *)
Definition after_reads h h' : Prop :=
  ∃ w, h' = set_handler_world w h ∧ rtc read_step (pl_world (bh_pipeline h)) w.

Lemma after_reads_refl h : after_reads h h.
Proof. exists (pl_world (bh_pipeline h)). split; [|done]. by destruct h as [c [] l]. Qed.

Lemma after_reads_trans h h1 h2 : after_reads h h1 → after_reads h1 h2 → after_reads h h2.
Proof. intros (w & -> & Hw) (w2 & -> & Hw2). exists w2. split; [done|]. by etrans. Qed.

Lemma read_steps_stored w w' n x ver : rtc read_step w w' → stored w' n x ver = stored w n x ver.
Proof.
  induction 1 as [w|w w1 w2 (n1 & v1 & x1 & ver1 & off & len & r & Hr) _ IH]; [done|].
  rewrite IH. by rewrite (law_read_frame _ _ _ _ _ _ _ _ _ _ _ _ Hr).
Qed.

Lemma readable_after replicas h h' b : after_reads h h' → readable replicas h b → readable replicas h' b.
Proof.
  intros (w & -> & Hw) (n & Hn & Hc & Hk). exists n. split_and!; [done|done|].
  intros w' off len Hw'. apply Hk. by etrans.
Qed.

Lemma stored_block_after replicas h h' b data :
  after_reads h h' → stored_block replicas h' b data → stored_block replicas h b data.
Proof.
  intros (w & -> & Hw) (n & d & Hn & Hd & ->). exists n, d. split_and!; [done| |done].
  simpl in Hd. by rewrite (read_steps_stored _ _ _ _ _ Hw) in Hd.
Qed.

Lemma try_replicas_stored nodes x off len le h h' r :
  len < u64_modulus →
  (∃ n, n ∈ nodes ∧ is_Some (cache_get_node n (pl_cache (bh_pipeline h))) ∧
     keeps_answering n (vc_volume_id (bh_config h)) x (pl_world (bh_pipeline h))) →
  try_replicas nodes x extent_version off len le h = Return (h', r) →
  after_reads h h' ∧ ∃ n d, n ∈ nodes ∧ stored (pl_world (bh_pipeline h)) n x extent_version = Some d ∧
    r = Ok (Some (read_payload off len d)).
Proof.
  intros Hlen. revert le h. induction nodes as [|n nodes IH]; intros le h (n0 & Hn0 & Hc0 & Hk0); simpl.
  { by apply elem_of_nil in Hn0. }
  apply elem_of_cons in Hn0 as [<-|Hn0].
  - destruct Hc0 as [c ->]. destruct (Hk0 (pl_world (bh_pipeline h)) off len (rtc_refl _ _)) as (w1 & res & Hr).
    rewrite Hr. intros [= <- <-]. split.
    + exists w1. split; [done|]. apply rtc_once. repeat eexists. exact Hr.
    + apply law_read_ok in Hr as (d & Hd & ->); [|done]. exists n0, d. split_and!; [left|done|done].
  - assert (∀ le1 h1, after_reads h h1 → try_replicas nodes x extent_version off len le1 h1 = Return (h', r) →
      after_reads h h' ∧ ∃ n1 d, n1 ∈ n :: nodes ∧ stored (pl_world (bh_pipeline h)) n1 x extent_version = Some d ∧
        r = Ok (Some (read_payload off len d))) as Hrest.
    { intros le1 h1 Haft Ht. pose proof Haft as (w & -> & Hw). apply IH in Ht as (Haft' & n1 & d & Hn1 & Hd & ->).
      - split; [by eapply after_reads_trans|]. exists n1, d. split_and!; [by right| |done].
        simpl in Hd. by rewrite (read_steps_stored _ _ _ _ _ Hw) in Hd.
      - exists n0. split_and!; [done|done|]. intros w' off' len' Hw'. apply Hk0. by etrans. }
    destruct (cache_get_node n _); [|apply Hrest, after_reads_refl].
    destruct (dn_read_extent _ _ _ _ _ _ _) as [w1 [[res|e]|]] eqn:Hr; [..|done].
    + intros [= <- <-]. split; [exists w1; split; [done|]; apply rtc_once; repeat eexists; exact Hr|].
      apply law_read_ok in Hr as (d & Hd & ->); [|done]. exists n, d. split_and!; [left|done|done].
    + apply Hrest. exists w1. split; [done|]. apply rtc_once. repeat eexists. exact Hr.
Qed.

Lemma read_block_stored b replicas h h' r :
  let bs := vc_block_size (bh_config h) in
  vc_protection (bh_config h) = Replicated replicas → bs < u64_modulus → readable replicas h b →
  read_block b bs bs h = Return (h', r) →
  after_reads h h' ∧ ∃ data, r = Ok data ∧ stored_block replicas h b data.
Proof.
  intros bs Hprot Hbs Hread. unfold read_block. simpl. rewrite Hprot.
  assert (N.max (vc_extent_blocks (bh_config h)) 1 = vc_extent_blocks (bh_config h)) as -> by (unfold vc_extent_blocks; lia).
  fold (block_nodes b replicas h). fold (block_extent b h). rewrite decide_False.
  2:{ intros Hnil%nil_length_inv. destruct Hread as (n & Hn & _). rewrite Hnil in Hn. by apply elem_of_nil in Hn. }
  unfold read_from_replicas. simpl. destruct (try_replicas _ _ _ _ _ _ _) as [[h1 r1]|] eqn:Ht; [|done].
  apply try_replicas_stored in Ht as (Haft & n & d & Hn & Hd & ->); [|done|done].
  simpl. intros [= <- <-]. split; [done|]. eexists. split; [done|]. by exists n, d.
Qed.

Lemma read_blocks_stored blocks replicas h h' r :
  let bs := vc_block_size (bh_config h) in
  vc_protection (bh_config h) = Replicated replicas → bs < u64_modulus → Forall (readable replicas h) blocks →
  read_blocks blocks bs h = Return (h', r) →
  ∃ datas, r = Ok (concat datas) ∧ Forall2 (stored_block replicas h) blocks datas.
Proof.
  intros bs Hprot Hbs. revert r. assert (after_reads h h) as Haft by apply after_reads_refl.
  revert Haft. generalize h at 2 4 as h1. intros h1 Haft r. revert h1 Haft h' r.
  induction blocks as [|b blocks IH]; intros h1 Haft h' r Hall; simpl; [intros [= _ <-]; by exists []|].
  apply Forall_cons in Hall as [Hb Hall]. pose proof Haft as (w & -> & _). simpl. rewrite Hprot.
  destruct (read_single_block_data b bs _) as [[h2 r2]|] eqn:Hr2; [|done].
  apply (read_block_stored b replicas (set_handler_world w h)) in Hr2 as (Haft2 & data & -> & Hdata);
    [|done|done|by eapply readable_after].
  simpl. destruct (read_blocks blocks bs h2) as [[h3 r3]|] eqn:Hr3; [|done]. intros [= _ <-].
  apply IH in Hr3 as (datas & -> & Hall2); [|by eapply after_reads_trans|done].
  exists (data :: datas). split; [done|]. constructor; [by eapply stored_block_after|done].
Qed.

Lemma handle_read_stored req replicas h h1 h' r first blocks :
  let bs := vc_block_size (bh_config h) in
  refresh_for_read h = (h1, Ok tt) → vc_protection (bh_config h) = Replicated replicas →
  io_block_range bs req = Return (MkRange first (first + blocks)) → first + blocks < u64_modulus →
  io_length_bytes req = blocks * bs → 0 < blocks → 0 < bs < u64_modulus →
  Forall (readable replicas h1) (range_values (MkRange first (first + blocks))) →
  handle_read req h = Return (h', r) →
  ∃ datas, r = Ok (Some (concat datas)) ∧
    Forall2 (stored_block replicas h1) (range_values (MkRange first (first + blocks))) datas.
Proof.
  intros bs Href Hprot Hr Hin Hlen Hpos [Hbs0 Hbs] Hall. unfold handle_read. rewrite Href.
  pose proof (refresh_for_read_config _ _ _ Href) as Hcfg. assert (vc_block_size (bh_config h1) = bs) as Hbs1 by by rewrite Hcfg.
  rewrite Hbs1, Hr. simpl. replace (u64_sub (first + blocks) first) with blocks by (rewrite u64_sub_small; lia).
  rewrite <-Hcfg in Hprot. case_decide.
  - assert (blocks = 1) as -> by lia. rewrite N.mul_1_l in Hlen. rewrite Hprot.
    assert (range_values (MkRange first (first + 1)) = [first]) as Hone.
    { unfold range_values. simpl. replace (first + 1 - first) with 1 by lia. simpl. f_equal. lia. }
    rewrite Hone in Hall |- *. apply Forall_cons in Hall as [Hb _].
    unfold read_single_block. rewrite Hlen, <-Hbs1.
    destruct (read_block _ _ _ _) as [[h2 r2]|] eqn:Hr2; [|done]. simpl. intros [= _ <-].
    apply (read_block_stored first replicas h1) in Hr2 as (_ & data & -> & Hdata); [|done|by rewrite Hbs1|done].
    exists [data]. simpl. rewrite app_nil_r. split; [done|]. by constructor.
  - destruct (read_blocks _ _ _) as [[h2 r2]|] eqn:Hr2; [|done]. simpl. intros [= _ <-].
    assert (Hr2' := Hr2). rewrite <-Hbs1 in Hr2'.
    apply (read_blocks_stored _ replicas h1) in Hr2' as (datas & -> & Hd); [|done|by rewrite Hbs1|done].
    exists datas. split; [|done]. simpl. do 2 f_equal. apply take_ge.
    apply read_blocks_length in Hr2; [|lia]. rewrite Hr2. unfold range_values. simpl. rewrite length_fmap, length_seq. nia.
Qed.

(** No read panics as long as there are only reads. *)
Definition calm (w : W) : Prop := ∀ w' n v x ver off len, rtc read_step w w' → (dn_read_extent n v x ver off len w').2 ≠ Panic.

Lemma calm_after h h' : after_reads h h' → calm (pl_world (bh_pipeline h)) → calm (pl_world (bh_pipeline h')).
Proof. intros (w & -> & Hw) Hcalm w' n v x ver off len Hw'. apply Hcalm. by etrans. Qed.

Lemma try_replicas_returns nodes x ver off len le h :
  calm (pl_world (bh_pipeline h)) →
  ∃ h' r, try_replicas nodes x ver off len le h = Return (h', r) ∧ after_reads h h'.
Proof.
  revert le h. induction nodes as [|n nodes IH]; intros le h Hcalm; simpl.
  { eexists _, _. split; [done|apply after_reads_refl]. }
  destruct (cache_get_node n _); [|by apply IH].
  pose proof (Hcalm _ n (vc_volume_id (bh_config h)) x ver off len (rtc_refl _ _)) as Hno.
  destruct (dn_read_extent _ _ _ _ _ _ _) as [w [r|]] eqn:Hr; [|done].
  assert (after_reads h (set_handler_world w h)) as Haft.
  { exists w. split; [done|]. apply rtc_once. repeat eexists. exact Hr. }
  destruct r as [res|e]; [by eexists _, _|].
  destruct (IH (Some e) (set_handler_world w h)) as (h' & r' & Ht & Haft'); [by eapply calm_after|].
  exists h', r'. split; [done|by eapply after_reads_trans].
Qed.

Lemma read_block_returns b bs len h :
  calm (pl_world (bh_pipeline h)) → ∃ h' r, read_block b bs len h = Return (h', Ok r) ∧ after_reads h h'.
Proof.
  intros Hcalm. unfold read_block. simpl. case_decide; [eexists _, _; split; [done|apply after_reads_refl]|].
  unfold read_from_replicas.
  match goal with |- context [try_replicas ?ns ?x ?ver ?off ?len ?le h] =>
    destruct (try_replicas_returns ns x ver off len le h Hcalm) as (h' & r & -> & Haft) end.
  simpl. by eexists _, _.
Qed.

Lemma read_blocks_returns blocks bs replicas h :
  vc_protection (bh_config h) = Replicated replicas → calm (pl_world (bh_pipeline h)) →
  ∃ h' r, read_blocks blocks bs h = Return (h', r).
Proof.
  revert h. induction blocks as [|b blocks IH]; intros h Hprot Hcalm; simpl; [by eexists _, _|]. rewrite Hprot.
  destruct (read_block_returns b bs bs h Hcalm) as (h1 & data & Hr & Haft). unfold read_single_block_data. rewrite Hr. simpl.
  destruct (IH h1) as (h2 & r & ->); [by destruct Haft as (w & -> & _)|by eapply calm_after|]. simpl. by eexists _, _.
Qed.

Lemma handle_read_returns req replicas h h1 range :
  refresh_for_read h = (h1, Ok tt) → vc_protection (bh_config h) = Replicated replicas →
  io_block_range (vc_block_size (bh_config h)) req = Return range → calm (pl_world (bh_pipeline h1)) →
  ∃ h' r, handle_read req h = Return (h', r).
Proof.
  intros Href Hprot Hr Hcalm. unfold handle_read. rewrite Href. apply refresh_for_read_config in Href.
  rewrite Href, Hr. simpl. rewrite Hprot. case_decide.
  - unfold read_single_block.
    destruct (read_block_returns (range_start range) (vc_block_size (bh_config h)) (io_length_bytes req) h1 Hcalm)
      as (h2 & r & -> & _). simpl. by eexists _, _.
  - destruct (read_blocks_returns (range_values range) (vc_block_size (bh_config h)) replicas h1) as (h2 & r & ->);
      [by rewrite Href|done|]. simpl. by eexists _, _.
Qed.

(** C30: A read command of the kernel on a replicated volume fills all of its sectors with
    the data of their blocks, in order: when for every block of the command some replica
    of the volume's placement is known and keeps answering, and no read of a replica
    panics, the callback returns and
    completes the command with its full length, and the buffer holds for each block the
    bytes at the place of that block in the extent that one of its replicas stores.  What
    the buffer held before neither remains in the part that was read nor influences it,
    and the rest of the buffer and the other buffers are not touched. *)
Theorem read_command_fills tag iod bufs buf replicas h h1 :
  let bs := vc_block_size (bh_config h) in
  let len := iod_nr_sectors iod * 512 in
  let first := (iod_start_sector iod * 512) `div` bs in
  let blocks := range_values (MkRange first (first + len `div` bs)) in
  iod_operation iod = Some IoRead → bufs !! N.to_nat tag = Some buf → command_ok bs iod buf → 0 < len →
  vc_protection (bh_config h) = Replicated replicas →
  refresh_for_read h = (h1, Ok tt) → Forall (readable replicas h1) blocks → calm (pl_world (bh_pipeline h1)) →
  ∃ h' datas,
    io_handler (BlockHandler0 := cluster_block_handler gen) tag iod bufs h =
      Return (Some (h', <[N.to_nat tag := concat datas ++ drop (N.to_nat len) buf]> bufs, CompletedBytes (Z.of_N len))) ∧
    Forall2 (stored_block replicas h1) blocks datas ∧ length (concat datas) = N.to_nat len.
Proof.
  intros bs len first blocks Hop Hbuf Hok Hpos Hprot Href Hall Hcalm.
  destruct (command_request bs iod buf IoRead None tag Hok) as (Hlen & Hblocks & Hr).
  pose proof (cmd_in_buffer _ _ _ Hok) as Hin. pose proof (cmd_i32 _ _ _ Hok) as Hi. fold len in Hlen, Hblocks, Hin, Hi.
  pose proof (cmd_bs _ _ _ Hok) as Hbs.
  assert (first + len `div` bs < u64_modulus) as Hdev.
  { pose proof (cmd_in_device _ _ _ Hok). assert (∀ a, a `div` bs ≤ a) as Hle by (intros a; apply N.Div0.div_le_upper_bound; nia).
    pose proof (Hle (iod_start_sector iod * 512)). pose proof (Hle len). unfold first, len in *. lia. }
  assert (0 < len `div` bs) as Hb by (apply N.neq_0_lt_0; intros Hz; rewrite Hz in Hblocks; lia).
  assert (bs < u64_modulus) as Hbm by (unfold u64_modulus; nia).
  destruct (handle_read_returns _ _ _ _ _ Href Hprot Hr Hcalm) as (h2 & r & Hread).
  erewrite io_handler_read by done. rewrite Hread.
  pose proof Hread as Hread'. eapply handle_read_stored in Hread' as (datas & -> & Hd); [|exact Href|exact Hprot|exact Hr|..];
    [|done|simpl; by rewrite Hlen|done|done|exact Hall].
  eapply handle_read_length in Hread as (data & [= <-] & Hdata); [|exact Hr|done|simpl; by rewrite Hlen|fold bs len; rewrite <-Hblocks; unfold u64_modulus; lia].
  fold bs len in Hdata. rewrite <-Hblocks in Hdata. rewrite Hlen, to_i32_small by done.
  exists h2, datas. split_and!; [|exact Hd|done]. rewrite copy_front_fits by lia. by rewrite Hdata.
Qed.

End volume.

(** ** The life of the device *)

(** A device that was started is removed under the number it was added with, read back
    from its path, and takes no requests afterwards. *)
Theorem stop_removes_started_device {H K} `{!BlockHandler H} `{!Libublk K} (d d' : UblkDevice H) (k k' : K) path :
  start_kernel d k = (d', k', Ok path) →
  ∃ dev_id k1, ublk_add_dev (uc_num_queues (ud_config d)) (uc_queue_depth (ud_config d)) k = (k1, Ok dev_id) ∧
    device_path d' = Some path ∧ (stop d' k').2 = ublk_remove_dev (to_i32 dev_id) k' ∧
    ∀ req, submit_io req (stop d' k').1 = Return (Some ((stop d' k').1, Err (ErrorStorage "device not running"))).
Proof.
  unfold start_kernel, kernel_thread. case_decide; [done|].
  destruct (ublk_add_dev _ _ k) as [k1 [dev_id|e]]; [|by case_decide].
  destruct (ublk_run_target _ _ k1) as [k2 [u|e]]; [|by case_decide].
  assert (strip_str_prefix "/dev/ublkb" ("/dev/ublkb" +:+ i32_to_string (to_i32 dev_id)) ≫= i32_of_string =
          Some (to_i32 dev_id)) as Hid.
  { rewrite strip_str_prefix_app. apply i32_round_trip, to_i32_range. }
  revert Hid. generalize ("/dev/ublkb" +:+ i32_to_string (to_i32 dev_id)). intros p Hid.
  rewrite Hid. case_decide; [done|]. intros [= <- <- <-]. by exists dev_id, k1.
Qed.

(** ** Witnesses *)

Module UblkDemo.

Import Demo PlacementDemo EcDemo WriteDemo HandlerDemo.

Definition volume : ClusterBlockHandler Cluster := handler_of (Replicated 3) [].

Definition buffers : list (list N) := [replicate 1024 7; replicate 1024 9].

(** One sector at sector 2, a write and a read. *)
Definition write_sector : IoDesc := MkIoDesc 1 2 1.

Definition read_sector : IoDesc := MkIoDesc 0 2 1.

End UblkDemo.
Import Demo PlacementDemo EcDemo WriteDemo HandlerDemo UblkDemo.

Lemma write_command_carried_out_witness :
  ∃ cs, concat cs.*2 = replicate 512 9 ∧ Forall (good_chunk 4 4) cs ∧
    ∃ h' res, io_handler (BlockHandler0 := cluster_block_handler op) 1 write_sector buffers volume =
        Return (Some (h', buffers, completion_of 512 res)) ∧
      chunks_result op cs volume h' res.
Proof.
  destruct (write_command_carried_out op 1 write_sector buffers (replicate 1024 9) volume 1)
    as (cs & _ & Hd & Hg & Hres); try reflexivity.
  - split; vm_compute; congruence.
  - exists cs. split; [exact Hd|]. split; [exact Hg|exact Hres].
Defined.

(** A volume with blocks of one sector, two to an extent. *)
Definition sector_volume : ClusterBlockHandler Cluster :=
  MkHandler _ (MkVolumeConfig vol 1048576 512 (Replicated 3) 1024) (pipeline_of (Replicated 3) []) lease.

(** The volume after a write of one sector at the start of an extent. *)
Definition written : ClusterBlockHandler Cluster :=
  match io_handler (BlockHandler0 := cluster_block_handler op) 1 write_sector buffers sector_volume with
  | Return (Some (h, _, _)) => h
  | _ => sector_volume
  end.

Lemma cluster_reads (w w' : Cluster) : rtc read_step w w' → w' = w.
Proof.
  induction 1 as [w|w w1 w2 (n & v & x & ver & off & len & r & Hr) _ IH]; [reflexivity|].
  injection Hr as -> _. exact IH.
Qed.

(** The first replica of a block is up and has its extent. *)
Definition first_replica_up (h : ClusterBlockHandler Cluster) (b : N) : bool :=
  let w := pl_world (bh_pipeline h) in
  match block_nodes b 3 h with
  | [] => false
  | n :: _ => bool_decide (is_Some (cache_get_node n (pl_cache (bh_pipeline h)))) && bool_decide (n ∉ cluster_down w) &&
      bool_decide (is_Some (stored w n (block_extent b h) extent_version))
  end.

Lemma first_replica_readable h blocks :
  forallb (first_replica_up h) blocks = true → Forall (readable 3 h) blocks.
Proof.
  intros Hall. apply Forall_forall. intros b Hb. rewrite forallb_forall in Hall. apply list_elem_of_In in Hb.
  specialize (Hall b Hb). unfold first_replica_up in Hall. destruct (block_nodes b 3 h) as [|n nodes] eqn:Hn; [done|].
  apply andb_true_iff in Hall as [[Hc Hup]%andb_true_iff Hs]. apply bool_decide_eq_true in Hc, Hup, Hs.
  exists n. rewrite Hn. split_and!; [left|done|]. intros w' off len ->%cluster_reads. destruct Hs as [d Hd].
  revert Hd. generalize (block_extent b h) as x. intros x Hd. eexists _, _. simpl. unfold cluster_read.
  rewrite decide_False by done. unfold stored in Hd. simpl in Hd. rewrite Hd. reflexivity.
Qed.

Lemma cluster_calm (w : Cluster) : calm w.
Proof. intros w' n v x ver off len _. simpl. unfold cluster_read. by repeat case_match. Qed.

Lemma read_command_fills_witness :
  ∃ h' datas, Forall2 (stored_block 3 written) [2] datas ∧
    io_handler (BlockHandler0 := cluster_block_handler op) 0 read_sector buffers written =
      Return (Some (h', [concat datas ++ replicate 512 7; replicate 1024 9], CompletedBytes 512)).
Proof.
  destruct (read_command_fills op 0 read_sector buffers (replicate 1024 7) 3 written written)
    as (h' & datas & Hio & Hd & _); [reflexivity|reflexivity| |reflexivity|vm_compute; reflexivity..| |apply cluster_calm|].
  - split; vm_compute; congruence.
  - apply first_replica_readable. vm_compute. reflexivity.
  - exists h', datas. split; [exact Hd|exact Hio].
Defined.
