(* ===== verification/ReadPipeline.v ===== *)
(** * The client read pipelines (crates/blockyard-client/src: selector.rs, pipeline.rs, ec_read_pipeline.rs)

    The replica selector with its statistics, the read pipeline with its fallback
    from replica to replica, and the erasure-coded read pipeline.  The metadata
    provider, the data nodes and the health reporter are traits over a world; the
    selector is the one implementation of its trait.  The measured latency of a call
    is a function [elapsed] of the worlds around it. *)

From S2P Require Import Prelude Common MetadataSM MetadataSpec Placement Checksum EcCodec ClientRecovery WritePipeline BlockHandler.

#[local] Open Scope N_scope.

(** ** Data (types.rs) *)

Record ReplicaLocation := MkReplicaLocation { rl_node_id : NodeId; rl_is_local : bool }.

(** [ExtentMapping] of the read path. *)
Record ReadMapping := MkReadMapping {
  rm_volume_id : VolumeId;
  rm_extent_id : ExtentId;
  rm_extent_version : N;
  rm_epoch : EpochId;
  rm_replicas : list ReplicaLocation;
  rm_checksum : string;
}.

Record ReadRequest := MkReadRequest {
  rdq_volume_id : VolumeId;
  rdq_extent_id : ExtentId;
  rdq_offset : N;
  rdq_length : N;
}.

Record ReadResult := MkReadOutcome {
  rds_extent_id : ExtentId;
  rds_extent_version : N;
  rds_data : list N;
  rds_source_node : NodeId;
}.

Inductive ReplicaHealth := RHealthy | RSuspect | RFailed.

#[export] Instance ReplicaHealth_eq_dec : EqDecision ReplicaHealth.
Proof. solve_decision. Defined.

Record ReplicaStats := MkReplicaStats {
  st_node_id : NodeId;
  st_health : ReplicaHealth;
  st_latency_us : N;
  st_is_local : bool;
  st_failure_count : N;
}.

Record CorruptionReport := MkCorruptionReport {
  cr_node_id : NodeId;
  cr_extent_id : ExtentId;
  cr_extent_version : N;
  cr_expected_checksum : string;
  cr_actual_checksum : string;
}.

Record ReadFailureReport := MkReadFailureReport {
  rf_node_id : NodeId;
  rf_extent_id : ExtentId;
  rf_reason : string;
}.

(** ** The selector (selector.rs) *)

Definition FAILURE_THRESHOLD : N := 3.
Definition DEFAULT_LATENCY_US : N := 1000.

Definition u32_inc (n : N) : N := (n + 1) `mod` 4294967296.

Abbreviation LatencyAwareSelector := (gmap NodeId ReplicaStats) (only parsing).

Definition fresh_stats (node_id : NodeId) : ReplicaStats :=
  MkReplicaStats node_id RHealthy DEFAULT_LATENCY_US false 0.

Definition get_or_default (node_id : NodeId) (sel : LatencyAwareSelector) : ReplicaStats :=
  default (fresh_stats node_id) (sel !! node_id).

Definition health_priority (h : ReplicaHealth) : N :=
  match h with RHealthy => 0 | RSuspect => 1 | RFailed => 2 end.

Definition is_failed (h : ReplicaHealth) : bool := bool_decide (h = RFailed).

(** Node, local, health, latency. *)
Definition candidate (sel : LatencyAwareSelector) (r : ReplicaLocation) : NodeId * bool * ReplicaHealth * N :=
  let stats := get_or_default (rl_node_id r) sel in
  (rl_node_id r, rl_is_local r, st_health stats, st_latency_us stats).

Definition candidate_cmp (a b : NodeId * bool * ReplicaHealth * N) : comparison :=
  let '(_, a_local, a_health, a_latency) := a in
  let '(_, b_local, b_health, b_latency) := b in
  then_with (then_with (then_with (bool_cmp (is_failed a_health) (is_failed b_health))
    (bool_cmp b_local a_local))
    (N.compare (health_priority a_health) (health_priority b_health)))
    (N.compare a_latency b_latency).

Definition select_replicas (replicas : list ReplicaLocation) (sel : LatencyAwareSelector) : list NodeId :=
  (λ c : NodeId * bool * ReplicaHealth * N, c.1.1.1) <$> sort_by candidate_cmp (candidate sel <$> replicas).

Definition get_stats (node_id : NodeId) (sel : LatencyAwareSelector) : option ReplicaStats := sel !! node_id.

Definition set_health (h : ReplicaHealth) (s : ReplicaStats) : ReplicaStats :=
  MkReplicaStats (st_node_id s) h (st_latency_us s) (st_is_local s) (st_failure_count s).

Definition set_failures (n : N) (s : ReplicaStats) : ReplicaStats :=
  MkReplicaStats (st_node_id s) (st_health s) (st_latency_us s) (st_is_local s) n.

Definition set_latency (l : N) (s : ReplicaStats) : ReplicaStats :=
  MkReplicaStats (st_node_id s) (st_health s) l (st_is_local s) (st_failure_count s).

(** [stats.entry(node_id).or_insert_with(..)], then [f]. *)
Definition update_stats (node_id : NodeId) (f : ReplicaStats → ReplicaStats) (sel : LatencyAwareSelector)
    : LatencyAwareSelector :=
  <[node_id := f (get_or_default node_id sel)]> sel.

Definition sel_record_success (node_id : NodeId) (latency_us : N) : LatencyAwareSelector → LatencyAwareSelector :=
  update_stats node_id (λ s,
    let s := set_latency (u64_add (st_latency_us s) latency_us `div` 2) s in
    if decide (st_health s = RSuspect) then
      let s := set_failures (st_failure_count s - 1) s in
      if decide (st_failure_count s = 0) then set_health RHealthy s else s
    else s).

Definition sel_record_failure (node_id : NodeId) : LatencyAwareSelector → LatencyAwareSelector :=
  update_stats node_id (λ s,
    let s := set_failures (u32_inc (st_failure_count s)) s in
    if decide (FAILURE_THRESHOLD ≤ st_failure_count s) then set_health RFailed s else set_health RSuspect s).

Definition sel_mark_suspect (node_id : NodeId) : LatencyAwareSelector → LatencyAwareSelector :=
  update_stats node_id (set_health RSuspect).

(** ** The traits (traits.rs) *)

Class MetadataProvider (W : Type) := {
  mp_get_extent_mapping : VolumeId → ExtentId → W → W * result ReadError (option ReadMapping);
  mp_get_write_watermark : SessionId → VolumeId → W → W * result ReadError N;
  mp_refresh_extent_mapping : VolumeId → ExtentId → W → W * result ReadError (option ReadMapping);
}.

Class HealthReporter (W : Type) := {
  hr_report_corruption : CorruptionReport → W → W;
  hr_report_read_failure : ReadFailureReport → W → W;
}.

(** The world and the selector's statistics. *)
Record ReadPipeline {W : Type} := MkReadPipeline {
  rp_world : W;
  rp_selector : gmap NodeId ReplicaStats;
  rp_session_id : SessionId;
}.
Arguments ReadPipeline : clear implicits.
Arguments MkReadPipeline {W}.

Section pipeline.
Context `{!UuidDisplay} `{!Blake3} `{!ReedSolomon}.
Context {W : Type} `{!MetadataProvider W} `{!DataNodeReader W} `{!HealthReporter W}.
Variable elapsed : W → W → N.
Implicit Types p : ReadPipeline W.

Definition set_world (w : W) p : ReadPipeline W := MkReadPipeline w (rp_selector p) (rp_session_id p).

Definition on_selector (f : LatencyAwareSelector → LatencyAwareSelector) p : ReadPipeline W :=
  MkReadPipeline (rp_world p) (f (rp_selector p)) (rp_session_id p).

(** A call of the metadata provider. *)
Definition on_metadata {A} (f : W → W * result ReadError A) p : ReadPipeline W * result ReadError A :=
  let '(w, r) := f (rp_world p) in (set_world w p, r).

(** ** The read pipeline (pipeline.rs) *)

Definition resolve_mapping (request : ReadRequest) (watermark : N) p : ReadPipeline W * result ReadError ReadMapping :=
  let not_found := RdExtentNotFound (rdq_volume_id request) (rdq_extent_id request) in
  match on_metadata (mp_get_extent_mapping (rdq_volume_id request) (rdq_extent_id request)) p with
  | (p, Err e) => (p, Err e)
  | (p, Ok None) => (p, Err not_found)
  | (p, Ok (Some mapping)) =>
      if decide (rm_extent_version mapping < watermark) then
        match on_metadata (mp_refresh_extent_mapping (rdq_volume_id request) (rdq_extent_id request)) p with
        | (p, Err e) => (p, Err e)
        | (p, Ok None) => (p, Err not_found)
        | (p, Ok (Some refreshed)) => (p, Ok refreshed)
        end
      else (p, Ok mapping)
  end.

Definition verify_mapping_version (mapping : ReadMapping) (watermark : N) : result ReadError unit :=
  if decide (rm_extent_version mapping < watermark)
  then Err (RdStaleMapping (rm_extent_id mapping) (rm_extent_version mapping) watermark)
  else Ok tt.

(** The loop over the replicas. *)
Fixpoint try_nodes (request : ReadRequest) (mapping : ReadMapping) (nodes : list NodeId)
    (last_error : option ReadError) (all_corrupt : bool) p : exec (ReadPipeline W * result ReadError ReadResult) :=
  match nodes with
  | [] =>
      Return (p, Err (
        if all_corrupt then RdAllReplicasCorrupt (rdq_extent_id request)
        else default (RdAllReplicasFailed (rdq_extent_id request)) last_error))
  | node_id :: nodes =>
      let start := rp_world p in
      match dn_read_extent node_id (rdq_volume_id request) (rdq_extent_id request) (rm_extent_version mapping)
              (rdq_offset request) (rdq_length request) (rp_world p) with
      | (w, Panic) => Panic
      | (w, Return (Ok result)) =>
          if decide (rr_checksum result = rm_checksum mapping) then
            Return (on_selector (sel_record_success node_id (elapsed start w)) (set_world w p),
              Ok (MkReadOutcome (rr_extent_id result) (rr_extent_version result) (rr_data result) node_id))
          else
            let w := hr_report_corruption (MkCorruptionReport node_id (rdq_extent_id request)
                       (rm_extent_version mapping) (rm_checksum mapping) (rr_checksum result)) w in
            try_nodes request mapping nodes
              (Some (RdChecksumMismatch node_id (rdq_extent_id request) (rm_checksum mapping) (rr_checksum result)))
              all_corrupt (on_selector (sel_mark_suspect node_id) (set_world w p))
      | (w, Return (Err e)) =>
          let w := hr_report_read_failure (MkReadFailureReport node_id (rdq_extent_id request) (to_string e)) w in
          try_nodes request mapping nodes (Some e) false (on_selector (sel_record_failure node_id) (set_world w p))
      end
  end.

Definition read_with_fallback (request : ReadRequest) (mapping : ReadMapping) (ordered_nodes : list NodeId) p :=
  try_nodes request mapping ordered_nodes None true p.

Definition read (request : ReadRequest) p : exec (ReadPipeline W * result ReadError ReadResult) :=
  if decide (rdq_length request = 0) then Return (p, Err (RdInvalidRequest "read length must be non-zero")) else
  match on_metadata (mp_get_write_watermark (rp_session_id p) (rdq_volume_id request)) p with
  | (p, Err e) => Return (p, Err e)
  | (p, Ok watermark) =>
  match resolve_mapping request watermark p with
  | (p, Err e) => Return (p, Err e)
  | (p, Ok mapping) =>
  match verify_mapping_version mapping watermark with
  | Err e => Return (p, Err e)
  | Ok _ =>
      if decide (rm_replicas mapping = []) then Return (p, Err (RdNoHealthyReplicas (rdq_extent_id request))) else
      let ordered_nodes := select_replicas (rm_replicas mapping) (rp_selector p) in
      if decide (ordered_nodes = []) then Return (p, Err (RdNoHealthyReplicas (rdq_extent_id request))) else
      read_with_fallback request mapping ordered_nodes p
  end
  end
  end.

(** ** The erasure-coded read pipeline (ec_read_pipeline.rs) *)

Record FragmentPlacement := MkFragmentPlacement {
  fp_fragment_index : nat;
  fp_is_data : bool;
  fp_node_id : NodeId;
}.

Record EcExtentMapping := MkEcMapping {
  ecm_base : ReadMapping;
  ecm_data_count : nat;
  ecm_parity_count : nat;
  ecm_original_data_len : nat;
  ecm_fragment_placements : list FragmentPlacement;
}.

(** [usize::MAX] for a node that the order does not have. *)
Definition position (nodes : list NodeId) (pl : FragmentPlacement) : N :=
  match list_find (λ n, n = fp_node_id pl) nodes with Some (i, _) => N.of_nat i | None => u64_modulus - 1 end.

Definition order_placements (placements : list FragmentPlacement) (sel : LatencyAwareSelector)
    : list FragmentPlacement :=
  let replicas := (λ pl, MkReplicaLocation (fp_node_id pl) false) <$> placements in
  let ordered_nodes := select_replicas replicas sel in
  let data_placements := filter (λ pl, fp_is_data pl = true) placements in
  let parity_placements := filter (λ pl, fp_is_data pl = false) placements in
  sort_by_key (position ordered_nodes) data_placements ++ sort_by_key (position ordered_nodes) parity_placements.

(** The loop over the placements: an index out of range panics. *)
Fixpoint try_placements (request : ReadRequest) (ver : N) (data_count : nat) (placements : list FragmentPlacement)
    (results : list (option Fragment)) (success_count : nat) p
    : exec (ReadPipeline W * list (option Fragment) * nat) :=
  match placements with
  | [] => Return (p, results, success_count)
  | pl :: placements =>
      if decide (data_count ≤ success_count)%nat then Return (p, results, success_count) else
      let start := rp_world p in
      match dn_read_extent (fp_node_id pl) (rdq_volume_id request) (rdq_extent_id request) ver
              (rdq_offset request) (rdq_length request) (rp_world p) with
      | (w, Panic) => Panic
      | (w, Return (Ok result)) =>
          let p := on_selector (sel_record_success (fp_node_id pl) (elapsed start w)) (set_world w p) in
          if decide (fp_fragment_index pl < length results)%nat then
            let fragment := MkFragment (fp_fragment_index pl) (fp_is_data pl) (rr_data result) in
            try_placements request ver data_count placements (<[fp_fragment_index pl := Some fragment]> results)
              (S success_count) p
          else Panic
      | (w, Return (Err e)) =>
          let w := hr_report_read_failure (MkReadFailureReport (fp_node_id pl) (rdq_extent_id request)
                     ("EC fragment " +:+ to_string (N.of_nat (fp_fragment_index pl)) +:+ " read failed: "
                        +:+ to_string e)) w in
          try_placements request ver data_count placements results success_count
            (on_selector (sel_record_failure (fp_node_id pl)) (set_world w p))
      end
  end.

Definition read_fragments (request : ReadRequest) (em : EcExtentMapping) (codec : ErasureCodec) p
    : exec (ReadPipeline W * result ReadError (list (option Fragment))) :=
  let ordered := order_placements (ecm_fragment_placements em) (rp_selector p) in
  '(p, results, success_count) ←
    try_placements request (rm_extent_version (ecm_base em)) (ec_data_count codec) ordered
      (replicate (total_count codec) None) 0 p;
  Return (p, if decide (success_count < ec_data_count codec)%nat
             then Err (RdAllReplicasFailed (rdq_extent_id request)) else Ok results).

#[global] Instance EcError_display : Display EcError := λ e,
  match e with
  | InvalidParameters k m => "invalid parameters: K=" +:+ to_string (N.of_nat k) +:+ ", M=" +:+ to_string (N.of_nat m)
  | EncodeFailed msg => "encoding failed: " +:+ msg
  | DecodeFailed msg => "decoding failed: " +:+ msg
  | InsufficientFragments a r => "insufficient fragments: have " +:+ to_string (N.of_nat a) +:+ ", need " +:+ to_string (N.of_nat r)
  end.

(** [generated] is the identifier for a mapping without placements. *)
Definition ec_read (generated : NodeId) (request : ReadRequest) (em : EcExtentMapping) p
    : exec (ReadPipeline W * result ReadError ReadResult) :=
  if decide (rdq_length request = 0) then Return (p, Err (RdInvalidRequest "read length must be non-zero")) else
  match on_metadata (mp_get_write_watermark (rp_session_id p) (rdq_volume_id request)) p with
  | (p, Err e) => Return (p, Err e)
  | (p, Ok watermark) =>
  if decide (rm_extent_version (ecm_base em) < watermark) then
    match on_metadata (mp_refresh_extent_mapping (rdq_volume_id request) (rdq_extent_id request)) p with
    | (p, Err e) => Return (p, Err e)
    | (p, Ok _) => Return (p, Err (RdStaleMapping (rdq_extent_id request) (rm_extent_version (ecm_base em)) watermark))
    end
  else
  match ErasureCodec_new (ecm_data_count em) (ecm_parity_count em) with
  | Err e => Return (p, Err (RdInvalidRequest ("invalid EC parameters: " +:+ to_string e)))
  | Ok codec =>
      '(p, r) ← read_fragments request em codec p;
      match r with
      | Err e => Return (p, Err e)
      | Ok fragments =>
          match ec_decode codec fragments (ecm_original_data_len em) with
          | Err (InsufficientFragments _ _) => Return (p, Err (RdAllReplicasFailed (rdq_extent_id request)))
          | Err e => Return (p, Err (RdInvalidRequest ("EC decode failed: " +:+ to_string e)))
          | Ok decoded =>
              if decide (compute_checksum decoded = rm_checksum (ecm_base em)) then
                let source_node := default generated (fp_node_id <$> head (ecm_fragment_placements em)) in
                Return (p, Ok (MkReadOutcome (rdq_extent_id request) (rm_extent_version (ecm_base em)) decoded source_node))
              else Return (p, Err (RdAllReplicasCorrupt (rdq_extent_id request)))
          end
      end
  end
  end.

End pipeline.

(** ** The selector orders its candidates *)

#[export] Instance candidate_cmp_total : TotalCmp candidate_cmp.
Proof.
  assert (TotalCmp (λ a b : NodeId * bool * ReplicaHealth * N,
    then_with (then_with (then_with (bool_cmp (is_failed a.1.2) (is_failed b.1.2)) (bool_cmp b.1.1.2 a.1.1.2))
      (N.compare (health_priority a.1.2) (health_priority b.1.2))) (N.compare a.2 b.2))) as [Ho Ht].
  { repeat apply then_with_cmp; [by apply bool_key_cmp| |by apply N_key_cmp..].
    by apply flip_cmp, bool_key_cmp. }
  split.
  - intros [[[n l] h] t] [[[n' l'] h'] t']. apply (Ho (n, l, h, t) (n', l', h', t')).
  - intros c [[[n l] h] t] [[[n' l'] h'] t'] [[[n2 l2] h2] t2].
    apply (Ht c (n, l, h, t) (n', l', h', t') (n2, l2, h2, t2)).
Qed.

Lemma select_replicas_perm replicas sel : select_replicas replicas sel ≡ₚ rl_node_id <$> replicas.
Proof.
  unfold select_replicas. rewrite sort_by_perm. rewrite <- list_fmap_compose.
  apply reflexive_eq, list_fmap_ext. done.
Qed.

Lemma elem_of_select_replicas n replicas sel :
  n ∈ select_replicas replicas sel ↔ n ∈ rl_node_id <$> replicas.
Proof. by rewrite select_replicas_perm. Qed.

(** ** The read pipeline *)

(** Two worlds whose data nodes hold the same extents. *)
Definition same_stored `{!DataNodeClient W} `{!MetadataClient W} `{!DataNodeLaws W} (w w' : W) : Prop :=
  ∀ n x ver, stored w' n x ver = stored w n x ver.

(** What a read returns carries the checksum of its bytes; metadata calls and
    health reports leave the data nodes alone. *)
Class ReadLaws (W : Type) `{!Blake3} `{!DataNodeClient W} `{!MetadataClient W} `{!DataNodeLaws W}
    `{!DataNodeReader W} `{!MetadataProvider W} `{!HealthReporter W} := {
  law_read_checksum : ∀ n v x ver off len w w' res,
    dn_read_extent n v x ver off len w = (w', Return (Ok res)) → rr_checksum res = compute_checksum (rr_data res);
  law_mapping_frame : ∀ v x w, same_stored w (mp_get_extent_mapping v x w).1;
  law_watermark_frame : ∀ s v w, same_stored w (mp_get_write_watermark s v w).1;
  law_refresh_frame : ∀ v x w, same_stored w (mp_refresh_extent_mapping v x w).1;
  law_corruption_frame : ∀ r w, same_stored w (hr_report_corruption r w);
  law_failure_frame : ∀ r w, same_stored w (hr_report_read_failure r w);
}.

Section reading.
Context `{!UuidDisplay} `{!Blake3} `{!ReedSolomon}.
Context {W : Type} `{!DataNodeClient W} `{!MetadataClient W} `{!DataNodeLaws W} `{!DataNodeReader W}.
Context `{!DataNodeReaderLaws W} `{!MetadataProvider W} `{!HealthReporter W} `{!ReadLaws W}.
Variable elapsed : W → W → N.
Implicit Types p : ReadPipeline W.

#[local] Instance same_stored_preorder : PreOrder same_stored.
Proof. split; [by intros w n x ver|]. intros w1 w2 w3 H12 H23 n x ver. by rewrite H23. Qed.

Lemma read_same_stored n v x ver off len w w' r :
  dn_read_extent n v x ver off len w = (w', r) → same_stored w w'.
Proof. intros Hr n' x' ver'. by eapply law_read_frame. Qed.

(** The loop answers with what one of the nodes holds. *)
Lemma try_nodes_sound request mapping nodes last_error all_corrupt p p' res :
  rdq_length request < u64_modulus →
  try_nodes elapsed request mapping nodes last_error all_corrupt p = Return (p', Ok res) →
  rds_source_node res ∈ nodes ∧ compute_checksum (rds_data res) = rm_checksum mapping ∧
  ∃ d, stored (rp_world p) (rds_source_node res) (rdq_extent_id request) (rm_extent_version mapping) = Some d ∧
    rds_data res = read_payload (rdq_offset request) (rdq_length request) d.
Proof.
  intros Hlen. revert last_error all_corrupt p.
  induction nodes as [|n nodes IH]; intros last_error all_corrupt p; simpl; [done|].
  destruct (dn_read_extent _ _ _ _ _ _ _) as [w [[result|e]|]] eqn:Hread; [|..|done].
  - pose proof (read_same_stored _ _ _ _ _ _ _ _ _ Hread) as Hsame.
    case_decide as Hsum.
    + intros [= <- <-]. simpl. split_and!; [set_solver| |].
      * by rewrite <- (law_read_checksum _ _ _ _ _ _ _ _ _ Hread).
      * by apply (law_read_ok _ _ _ _ _ _ _ _ _ Hlen Hread).
    + intros (Hin & Hc & d & Hd & ?)%IH. split_and!; [set_solver|done|]. exists d. split; [|done].
      rewrite <- Hd. simpl. by rewrite (law_corruption_frame _ w), Hsame.
  - pose proof (read_same_stored _ _ _ _ _ _ _ _ _ Hread) as Hsame.
    intros (Hin & Hc & d & Hd & ?)%IH. split_and!; [set_solver|done|]. exists d. split; [|done].
    rewrite <- Hd. simpl. by rewrite (law_failure_frame _ w), Hsame.
Qed.

(** A mapping comes from the provider, cached or refreshed. *)
Lemma resolve_mapping_sound request watermark p p1 mapping :
  resolve_mapping request watermark p = (p1, Ok mapping) →
  same_stored (rp_world p) (rp_world p1) ∧
  ∃ w, (mp_get_extent_mapping (rdq_volume_id request) (rdq_extent_id request) w).2 = Ok (Some mapping) ∨
       (mp_refresh_extent_mapping (rdq_volume_id request) (rdq_extent_id request) w).2 = Ok (Some mapping).
Proof.
  unfold resolve_mapping, on_metadata.
  pose proof (law_mapping_frame (rdq_volume_id request) (rdq_extent_id request) (rp_world p)) as Hs.
  destruct (mp_get_extent_mapping _ _ _) as [w1 [[mapping1|]|e]] eqn:Hget; simpl in *; [|done..].
  case_decide; [|intros [= <- <-]; split; [done|]; exists (rp_world p); by rewrite Hget; left].
  pose proof (law_refresh_frame (rdq_volume_id request) (rdq_extent_id request) w1) as Hs'.
  destruct (mp_refresh_extent_mapping _ _ _) as [w2 [[mapping2|]|e]] eqn:Href; simpl in *; [|done..].
  intros [= <- <-]. split; [by etrans|]. exists w1. rewrite Href. by right.
Qed.

(** C15: A successful read returns verified data of an up-to-date replica: the
    mapping it followed came from the metadata provider and is at least as new as
    the session's write watermark, so a session sees its own writes; the source is
    one of the replicas of the mapping, and the data is the requested range of what
    that replica stores at the mapping's version, with the mapping's checksum. *)
Theorem read_returns_verified_replica request p p' res :
  rdq_length request < u64_modulus →
  read elapsed request p = Return (p', Ok res) →
  ∃ watermark mapping d,
    (mp_get_write_watermark (rp_session_id p) (rdq_volume_id request) (rp_world p)).2 = Ok watermark ∧
    (∃ w, (mp_get_extent_mapping (rdq_volume_id request) (rdq_extent_id request) w).2 = Ok (Some mapping) ∨
          (mp_refresh_extent_mapping (rdq_volume_id request) (rdq_extent_id request) w).2 = Ok (Some mapping)) ∧
    watermark ≤ rm_extent_version mapping ∧
    rds_source_node res ∈ rl_node_id <$> rm_replicas mapping ∧
    stored (rp_world p) (rds_source_node res) (rdq_extent_id request) (rm_extent_version mapping) = Some d ∧
    rds_data res = read_payload (rdq_offset request) (rdq_length request) d ∧
    compute_checksum (rds_data res) = rm_checksum mapping.
Proof.
  intros Hlen. unfold read. case_decide; [done|]. unfold on_metadata.
  pose proof (law_watermark_frame (rp_session_id p) (rdq_volume_id request) (rp_world p)) as Hs0.
  destruct (mp_get_write_watermark _ _ _) as [w0 [watermark|e]] eqn:Hwm; [|done].
  destruct (resolve_mapping request watermark (set_world w0 p)) as [p1 [mapping|e]] eqn:Hres; [|done].
  apply resolve_mapping_sound in Hres as [Hs1 Hfrom]. unfold verify_mapping_version.
  case_decide as Hver; [done|]. case_decide; [done|]. case_decide; [done|].
  intros (Hin & Hc & d & Hd & Hdata)%try_nodes_sound; [|done]. exists watermark, mapping, d.
  split_and!; [done|done|lia|by rewrite elem_of_select_replicas in Hin| |done|done].
  rewrite <- Hd. symmetry. etrans; [apply Hs1|apply Hs0].
Qed.

End reading.

(** ** Availability *)

Section availability.
Context `{!UuidDisplay} `{!Blake3} `{!ReedSolomon}.
Context {W : Type} `{!DataNodeReader W} `{!MetadataProvider W} `{!HealthReporter W}.
Variable elapsed : W → W → N.
Implicit Types p : ReadPipeline W.

(** A set of worlds that reads and reports do not leave, where no call panics. *)
Record steady (request : ReadRequest) (ver : N) (I : W → Prop) : Prop := {
  steady_read : ∀ n w w' r, I w →
    dn_read_extent n (rdq_volume_id request) (rdq_extent_id request) ver (rdq_offset request) (rdq_length request) w
      = (w', r) → I w' ∧ r ≠ Panic;
  steady_corruption : ∀ rep w, I w → I (hr_report_corruption rep w);
  steady_failure : ∀ rep w, I w → I (hr_report_read_failure rep w);
}.

(** What the node returns in a world. *)
Definition returns (request : ReadRequest) (ver : N) (n : NodeId) (res : DataNodeReadResult) (w : W) : Prop :=
  (dn_read_extent n (rdq_volume_id request) (rdq_extent_id request) ver (rdq_offset request) (rdq_length request) w).2
    = Return (Ok res).

Lemma try_nodes_available request mapping I nodes n last_error all_corrupt p :
  steady request (rm_extent_version mapping) I → I (rp_world p) → n ∈ nodes →
  (∀ w, I w → ∃ res, returns request (rm_extent_version mapping) n res w ∧ rr_checksum res = rm_checksum mapping) →
  ∃ p' res, try_nodes elapsed request mapping nodes last_error all_corrupt p = Return (p', Ok res).
Proof.
  intros Hst. revert last_error all_corrupt p.
  induction nodes as [|n' nodes IH]; intros last_error all_corrupt p HI Hin Hn; [set_solver|]. simpl.
  destruct (dn_read_extent _ _ _ _ _ _ _) as [w r] eqn:Hread.
  destruct (steady_read _ _ _ Hst _ _ _ _ HI Hread) as [HI' Hnp].
  assert (n' = n → ∃ res, r = Return (Ok res) ∧ rr_checksum res = rm_checksum mapping) as Hgood.
  { intros ->. destruct (Hn _ HI) as (res & Hres & ?). exists res. unfold returns in Hres.
    by rewrite Hread in Hres. }
  destruct r as [[result|e]|]; [|..|done].
  - case_decide as Hsum; [by eauto|]. apply IH; [by apply (steady_corruption _ _ _ Hst)| |done].
    apply elem_of_cons in Hin as [->|?]; [|done]. destruct (Hgood eq_refl) as (? & [= <-] & ?). done.
  - apply IH; [by apply (steady_failure _ _ _ Hst)| |done].
    apply elem_of_cons in Hin as [->|?]; [|done]. by destruct (Hgood eq_refl) as (? & [=] & ?).
Qed.

(** C31: One good replica is enough: when the metadata provider gives a mapping that
    is not older than the watermark and some replica of it keeps answering with
    the mapping's checksum, the read succeeds, whatever the other replicas do and
    in whatever order the selector puts them. *)
Theorem read_available request p w0 watermark p1 mapping I n :
  rdq_length request ≠ 0 →
  mp_get_write_watermark (rp_session_id p) (rdq_volume_id request) (rp_world p) = (w0, Ok watermark) →
  resolve_mapping request watermark (set_world w0 p) = (p1, Ok mapping) →
  watermark ≤ rm_extent_version mapping →
  steady request (rm_extent_version mapping) I → I (rp_world p1) →
  n ∈ rl_node_id <$> rm_replicas mapping →
  (∀ w, I w → ∃ res, returns request (rm_extent_version mapping) n res w ∧ rr_checksum res = rm_checksum mapping) →
  ∃ p' res, read elapsed request p = Return (p', Ok res).
Proof.
  intros Hlen Hwm Hres Hver Hst HI Hin Hn. unfold read, on_metadata, verify_mapping_version.
  rewrite decide_False, Hwm, Hres, decide_False by (done || lia).
  rewrite <- (elem_of_select_replicas _ _ (rp_selector p1)) in Hin.
  rewrite decide_False by (intros Hnil; rewrite elem_of_select_replicas, Hnil in Hin; set_solver).
  rewrite decide_False by (intros Hnil; by rewrite Hnil, elem_of_nil in Hin). by eapply try_nodes_available.
Qed.

(** ** Erasure-coded reads *)

Lemma order_placements_perm placements sel : order_placements placements sel ≡ₚ placements.
Proof.
  unfold order_placements. rewrite !sort_by_key_perm.
  induction placements as [|pl placements IH]; [done|]. rewrite !filter_cons. destruct (fp_is_data pl); simpl.
  - by rewrite IH.
  - by rewrite <- Permutation_middle, IH.
Qed.

(** The slots filled so far hold fragments of the codeword. *)
Record slots_ok (frags : list Fragment) (results : list (option Fragment)) (count : nat) : Prop := {
  slots_length : length results = length frags;
  slots_agree : agrees ((λ o : option Fragment, frag_data <$> o) <$> results) (frag_data <$> frags);
  slots_count : count = length (filter is_Some results);
}.

Lemma slots_ok_empty frags : slots_ok frags (replicate (length frags) None) 0.
Proof.
  split; [by rewrite length_replicate|..]; (induction frags as [|f frags IH]; [by constructor|]); simpl.
  - apply Forall2_cons. split; [by left|exact IH].
  - by rewrite filter_cons_False by (by intros []).
Qed.

Lemma slots_ok_insert frags results count i f :
  slots_ok frags results count → results !! i = Some None →
  frag_data <$> frags !! i = Some (frag_data f) → slots_ok frags (<[i := Some f]> results) (S count).
Proof.
  intros [Hl Ha Hc] Hi Hf. split.
  - by rewrite length_insert.
  - unfold agrees in *. apply Forall2_same_length_lookup in Ha as [Hlen Ha]. apply Forall2_same_length_lookup.
    rewrite !length_fmap, length_insert in *. split; [done|]. intros j a b.
    rewrite !list_lookup_fmap. destruct (decide (j = i)) as [->|Hne].
    + rewrite list_lookup_insert_eq by by eapply lookup_lt_Some. rewrite Hf. simpl. intros [= <-] [= <-]. by right.
    + rewrite list_lookup_insert_ne by done. rewrite <- !list_lookup_fmap. apply Ha.
  - subst count. clear -Hi. revert i Hi. induction results as [|o results IH]; intros [|i] Hi; [done..| |].
    + injection Hi as ->. done.
    + specialize (IH i Hi). change (<[S i := Some f]> (o :: results)) with (o :: <[i := Some f]> results).
      rewrite !filter_cons. case_decide; simpl; congruence.
Qed.

(** The loop fills enough slots when enough nodes answer. *)
Lemma try_placements_fills request ver k frags I (good : FragmentPlacement → bool) placements results count p :
  steady request ver I → I (rp_world p) → slots_ok frags results count →
  NoDup (fp_fragment_index <$> placements) →
  (∀ pl, pl ∈ placements → results !! fp_fragment_index pl = Some None ∧
    ∀ w res, I w → returns request ver (fp_node_id pl) res w →
      frag_data <$> frags !! fp_fragment_index pl = Some (rr_data res)) →
  (∀ pl w, pl ∈ placements → good pl = true → I w → ∃ res, returns request ver (fp_node_id pl) res w) →
  (k ≤ count + length (filter (λ pl, good pl = true) placements))%nat →
  ∃ p' results' count', try_placements elapsed request ver k placements results count p = Return (p', results', count') ∧
    slots_ok frags results' count' ∧ (k ≤ count')%nat.
Proof.
  intros Hst. revert results count p.
  induction placements as [|pl placements IH]; intros results count p HI Hok Hnd Hpl Hgood Hk; simpl in Hk.
  { eexists _, _, _. split_and!; [done..|]. simpl in Hk. lia. }
  cbn [try_placements]. case_decide; [by eauto 10|].
  apply NoDup_cons in Hnd as [Hnew Hnd]. destruct (Hpl pl) as [Hslot Hdata]; [set_solver|].
  destruct (dn_read_extent _ _ _ _ _ _ _) as [w r] eqn:Hread.
  destruct (steady_read _ _ _ Hst _ _ _ _ HI Hread) as [HI' Hnp].
  assert (∀ res, r = Return (Ok res) → returns request ver (fp_node_id pl) res (rp_world p)) as Hret.
  { intros res ->. unfold returns. by rewrite Hread. }
  destruct r as [[result|e]|]; [|..|done].
  - rewrite decide_True by by eapply lookup_lt_Some.
    apply IH; [done| |done| |set_solver|].
    + apply slots_ok_insert; [done..|]. by apply (Hdata (rp_world p)), Hret.
    + intros pl' Hin. destruct (Hpl pl') as [? ?]; [set_solver|]. split; [|done].
      rewrite list_lookup_insert_ne; [done|]. intros Heq. apply Hnew. rewrite Heq. by apply list_elem_of_fmap_2.
    + rewrite filter_cons in Hk. case_decide; simpl in Hk; lia.
  - apply IH; [by apply (steady_failure _ _ _ Hst)|done|done|set_solver|set_solver|].
    rewrite filter_cons in Hk. case_decide as Hg; [|lia].
    destruct (Hgood pl (rp_world p)) as [res Hr]; [set_solver|done|done|].
    unfold returns in Hr. by rewrite Hread in Hr.
Qed.

(** An erasure-coded read decodes: when the placements have distinct fragment
    numbers, no node returns anything but its fragment of the encoded data, and at
    least K nodes keep answering, then the read returns the data, whichever other
    fragments are lost and in whatever order the nodes are asked. *)
Theorem ec_read_decodes generated request em codec data frags p w0 watermark I (good : FragmentPlacement → bool) :
  let ver := rm_extent_version (ecm_base em) in
  rdq_length request ≠ 0 →
  mp_get_write_watermark (rp_session_id p) (rdq_volume_id request) (rp_world p) = (w0, Ok watermark) →
  watermark ≤ ver →
  ErasureCodec_new (ecm_data_count em) (ecm_parity_count em) = Ok codec →
  ec_encode codec data = Ok frags → ecm_original_data_len em = length data →
  rm_checksum (ecm_base em) = compute_checksum data →
  steady request ver I → I w0 →
  NoDup (fp_fragment_index <$> ecm_fragment_placements em) →
  (∀ pl w res, pl ∈ ecm_fragment_placements em → I w → returns request ver (fp_node_id pl) res w →
    frag_data <$> frags !! fp_fragment_index pl = Some (rr_data res)) →
  (∀ pl, pl ∈ ecm_fragment_placements em → (fp_fragment_index pl < length frags)%nat) →
  (∀ pl w, pl ∈ ecm_fragment_placements em → good pl = true → I w →
    ∃ res, returns request ver (fp_node_id pl) res w) →
  (ecm_data_count em ≤ length (filter (λ pl, good pl = true) (ecm_fragment_placements em)))%nat →
  ∃ p' src, ec_read elapsed generated request em p =
    Return (p', Ok (MkReadOutcome (rdq_extent_id request) ver data src)).
Proof.
  intros ver Hlen Hwm Hver Hnew Henc Hol Hsum Hst HI Hnd Hdata Hidx Hgood Hk.
  unfold ec_read, on_metadata. rewrite decide_False, Hwm, decide_False, Hnew by (done || lia).
  assert (codec = MkErasureCodec (ecm_data_count em) (ecm_parity_count em) ∧
    rs_new (ecm_data_count em) (ecm_parity_count em) = true) as [-> Hrs].
  { unfold ErasureCodec_new in Hnew. case_decide; [done|]. destruct (rs_new _ _); by simplify_eq. }
  assert (length frags = (ecm_data_count em + ecm_parity_count em)%nat) as Hfl.
  { destruct (ec_encode_ok (ecm_data_count em) (ecm_parity_count em) data Hrs) as (frags' & Henc' & ? & _).
    - intros ->. unfold ec_encode in Henc. by rewrite decide_True in Henc.
    - simpl in Henc'. congruence. }
  pose proof (order_placements_perm (ecm_fragment_placements em) (rp_selector p)) as Hperm.
  unfold read_fragments. simpl rp_selector.
  destruct (try_placements_fills request ver (ecm_data_count em) frags I good
    (order_placements (ecm_fragment_placements em) (rp_selector p)) (replicate (length frags) None) 0
    (set_world w0 p)) as (p1 & results & count & Hrun & Hslots & Hcount); [done|done|apply slots_ok_empty|..].
  - by rewrite Hperm.
  - intros pl Hin. rewrite Hperm in Hin. split; [|intros; by eapply Hdata].
    rewrite lookup_replicate. auto.
  - intros pl w Hin. rewrite Hperm in Hin. by apply Hgood.
  - by rewrite Hperm.
  - unfold total_count. simpl. rewrite <- Hfl. fold ver. rewrite Hrun. simpl.
    rewrite decide_False by lia. destruct Hslots as [Hsl Hag ->].
    rewrite Hol, (ec_decode_agrees _ _ data frags) by (done || congruence). rewrite decide_True by congruence. by eauto.
Qed.

End availability.

(** ** Witnesses *)

Module ReadDemo.

Import Demo PlacementDemo EcDemo WriteDemo HandlerDemo.

Definition rd_vol : VolumeId := VolumeId_new 7.
Definition rd_extent : ExtentId := ExtentId_new 40.
Definition rd_node (n : N) : NodeId := NodeId_new n.
Definition rd_data : list N := [7; 8; 9].

(** Version 5 of the extent, on three nodes; the session has written version 4. *)
Definition rd_mapping (sum : string) : ReadMapping :=
  MkReadMapping rd_vol rd_extent 5 (EpochId_new 1)
    [MkReplicaLocation (rd_node 1) true; MkReplicaLocation (rd_node 2) false; MkReplicaLocation (rd_node 3) false] sum.

#[export] Instance rd_provider : MetadataProvider Cluster := {|
  mp_get_extent_mapping v x w := (w, Ok (Some (rd_mapping (compute_checksum rd_data))));
  mp_get_write_watermark s v w := (w, Ok 4);
  mp_refresh_extent_mapping v x w := (w, Ok None);
|}.

#[export] Instance rd_health : HealthReporter Cluster := {|
  hr_report_corruption r w := w;
  hr_report_read_failure r w := w;
|}.

#[export] Instance rd_laws : ReadLaws Cluster.
Proof.
  split; [|by intros..]. intros n v x ver off len w w' res. simpl. unfold cluster_read.
  case_decide; [done|]. destruct (cluster_stores w !! _); [|done]. by intros [= _ <-].
Qed.

Definition on_node (n : N) (d : list N) : gmap (N * N * N) (list N) := {[(n, 40, 5) := d]}.

(** Node 1 is down, node 2 holds other bytes, node 3 the data. *)
Definition rd_cluster : Cluster :=
  MkCluster [] (on_node 2 [0; 0; 0] ∪ on_node 3 rd_data) ∅ [rd_node 1].

Definition rd_pipeline : ReadPipeline Cluster := MkReadPipeline rd_cluster ∅ (SessionId_new 1).

Definition rd_elapsed (w w' : Cluster) : N := 10.

Definition rd_request (off len : N) : ReadRequest := MkReadRequest rd_vol rd_extent off len.

(** One data and two parity fragments, which are copies. *)
Definition rd_ec : EcExtentMapping :=
  MkEcMapping (rd_mapping (compute_checksum rd_data)) 1 2 3
    [MkFragmentPlacement 0 true (rd_node 1); MkFragmentPlacement 1 false (rd_node 2);
     MkFragmentPlacement 2 false (rd_node 3)].

Definition ec_cluster (n2 : list N) : Cluster :=
  MkCluster [] (on_node 2 n2 ∪ on_node 3 rd_data) ∅ [rd_node 1].

Definition ec_pipeline (n2 : list N) : ReadPipeline Cluster := MkReadPipeline (ec_cluster n2) ∅ (SessionId_new 1).

(** The outcome of a read, without the pipeline. *)
Definition outcome_of {A} (r : exec (ReadPipeline Cluster * A)) : exec A := '(_, a) ← r; Return a.

End ReadDemo.
Import Demo PlacementDemo EcDemo WriteDemo HandlerDemo ReadDemo.

Lemma read_returns_verified_replica_witness :
  ∃ mapping d, 4 ≤ rm_extent_version mapping ∧ stored rd_cluster (rd_node 3) rd_extent (rm_extent_version mapping) = Some d ∧
    rd_data = read_payload 0 3 d.
Proof.
  destruct (read rd_elapsed (rd_request 0 3) rd_pipeline) as [[p' [res|e]]|] eqn:Hread;
    [|vm_compute in Hread; discriminate Hread..].
  assert (res = MkReadOutcome rd_extent 5 rd_data (rd_node 3)) as Hres.
  { apply (f_equal outcome_of) in Hread. vm_compute in Hread. by injection Hread as <-. }
  destruct (read_returns_verified_replica rd_elapsed (rd_request 0 3) rd_pipeline p' res)
    as (watermark & mapping & d & Hwm & _ & Hver & _ & Hst & Hd & _); [reflexivity|exact Hread|].
  subst res. injection Hwm as <-. by exists mapping, d.
Defined.

Lemma rd_steady ver w : steady (rd_request 0 3) ver (λ w', w' = w).
Proof.
  split; [|by intros..]. intros n w1 w' r -> Hr. simpl in Hr. unfold cluster_read in Hr. injection Hr as <- <-.
  split; [done|]. case_decide; [done|]. by destruct (cluster_stores w !! _).
Qed.

Lemma read_available_witness : ∃ p' res, read rd_elapsed (rd_request 0 3) rd_pipeline = Return (p', Ok res).
Proof.
  apply (read_available rd_elapsed (rd_request 0 3) rd_pipeline rd_cluster 4 rd_pipeline
    (rd_mapping (compute_checksum rd_data)) (λ w, w = rd_cluster) (rd_node 3)).
  - discriminate.
  - reflexivity.
  - reflexivity.
  - vm_compute. discriminate.
  - apply rd_steady.
  - reflexivity.
  - apply (bool_decide_unpack _). vm_compute. exact I.
  - intros w ->. exists (MkReadResult rd_extent 5 (compute_checksum rd_data) rd_data). split; vm_compute; reflexivity.
Defined.

Lemma ec_read_decodes_witness :
  ∃ p' src, ec_read rd_elapsed (rd_node 9) (rd_request 0 3) rd_ec (ec_pipeline rd_data) =
    Return (p', Ok (MkReadOutcome rd_extent 5 rd_data src)).
Proof.
  apply (ec_read_decodes rd_elapsed (rd_node 9) (rd_request 0 3) rd_ec (MkErasureCodec 1 2) rd_data
    [MkFragment 0 true rd_data; MkFragment 1 false rd_data; MkFragment 2 false rd_data]
    (ec_pipeline rd_data) (ec_cluster rd_data) 4 (λ w, w = ec_cluster rd_data)
    (λ pl, bool_decide (fp_node_id pl ≠ rd_node 1))).
  - discriminate.
  - reflexivity.
  - vm_compute. discriminate.
  - reflexivity.
  - reflexivity.
  - reflexivity.
  - reflexivity.
  - apply rd_steady.
  - reflexivity.
  - apply (bool_decide_unpack _). vm_compute. exact I.
  - intros pl w res Hin -> Hr. repeat (apply elem_of_cons in Hin as [->|Hin]); [| | |by apply elem_of_nil in Hin];
      vm_compute in Hr; (discriminate Hr || injection Hr as <-; reflexivity).
  - intros pl Hin. repeat (apply elem_of_cons in Hin as [->|Hin]); [simpl; lia..|by apply elem_of_nil in Hin].
  - intros pl w Hin Hg ->. repeat (apply elem_of_cons in Hin as [->|Hin]); [| | |by apply elem_of_nil in Hin].
    + discriminate Hg.
    + eexists. vm_compute. reflexivity.
    + eexists. vm_compute. reflexivity.
  - vm_compute. lia.
Defined.

(** ** Divergences *)

(** A read of a part of an extent is reported as corruption: the checksum of the
    part is compared with that of the whole extent. *)
Theorem partial_read_reported_corrupt :
  outcome_of (read rd_elapsed (rd_request 0 2) (MkReadPipeline (MkCluster [] (on_node 3 rd_data ∪ on_node 2 rd_data
    ∪ on_node 1 rd_data) ∅ []) ∅ (SessionId_new 1))) = Return (Err (RdAllReplicasCorrupt rd_extent)).
Proof. vm_compute. reflexivity. Qed.

(** A corrupt fragment fails an erasure-coded read although enough other fragments
    are intact, and nothing is reported. *)
Theorem corrupt_fragment_not_substituted :
  outcome_of (ec_read rd_elapsed (rd_node 9) (rd_request 0 3) rd_ec (ec_pipeline [0; 0; 0]))
    = Return (Err (RdAllReplicasCorrupt rd_extent)) ∧
  outcome_of (ec_read rd_elapsed (rd_node 9) (rd_request 0 3) rd_ec (ec_pipeline rd_data))
    = Return (Ok (MkReadOutcome rd_extent 5 rd_data (rd_node 1))).
Proof. vm_compute. auto. Qed.
