(* ===== verification/DiskInventory.v ===== *)
(** * Disks of a data node (crates/blockyard-storage)

    Bad regions (region.rs), telemetry and the state derived from it (health.rs),
    the storage error type (error.rs), and the inventory with its state
    transitions and drain queue (disk.rs).  What discovery finds on a mount path
    (directory, file system type, identity file) is an argument. *)

From S2P Require Import Prelude Common.

#[local] Open Scope N_scope.

(** ** Errors (error.rs) *)

Inductive StorageError :=
  | DiskNotFound (msg : string)
  | DuplicateDisk (msg : string)
  | XfsValidation (msg : string)
  | DiskIdentity (msg : string)
  | InvalidTransition (msg : string)
  | AllocationDenied (msg : string)
  | ExtentNotFound (msg : string)
  | ExtentExists (msg : string)
  | ImmutabilityViolation (msg : string)
  | ChecksumMismatch (msg : string)
  | StagingError (msg : string)
  | Io (msg : string)
  | StaleEpoch (msg : string)
  | DuplicateOperation (msg : string)
  | InvalidLease (msg : string).

#[global] Instance StorageError_display : Display StorageError := λ e,
  match e with
  | DiskNotFound m => "disk not found: " +:+ m
  | DuplicateDisk m => "duplicate disk: " +:+ m
  | XfsValidation m => "XFS validation failed: " +:+ m
  | DiskIdentity m => "disk identity error: " +:+ m
  | InvalidTransition m => "invalid state transition: " +:+ m
  | AllocationDenied m => "allocation denied: " +:+ m
  | ExtentNotFound m => "extent not found: " +:+ m
  | ExtentExists m => "extent already exists: " +:+ m
  | ImmutabilityViolation m => "immutability violation: " +:+ m
  | ChecksumMismatch m => "checksum mismatch: " +:+ m
  | StagingError m => "staging error: " +:+ m
  | Io m => "io error: " +:+ m
  | StaleEpoch m => "stale epoch: " +:+ m
  | DuplicateOperation m => "duplicate operation: " +:+ m
  | InvalidLease m => "invalid lease: " +:+ m
  end.

(** ** Bad regions (region.rs) *)

Record BadRegion := MkBadRegion { br_offset : N; br_length : N }.

Definition br_end (r : BadRegion) : N := u64_sat_add (br_offset r) (br_length r).

Definition br_overlaps (offset length : N) (r : BadRegion) : bool :=
  let end_ := u64_sat_add offset length in
  bool_decide (br_offset r < end_) && bool_decide (offset < br_end r).

Definition BadRegionMap : Type := list BadRegion.

Definition add_region (offset length : N) (m : BadRegionMap) : BadRegionMap :=
  if decide (length = 0) then m else m ++ [MkBadRegion offset length].

Definition regions_overlap (offset length : N) (m : BadRegionMap) : bool :=
  existsb (br_overlaps offset length) m.

Definition affected_extents (extents : list (ExtentId * N * N)) (m : BadRegionMap) : list ExtentId :=
  (λ e, e.1.1) <$> filter (λ e, regions_overlap e.1.2 e.2 m = true) extents.

(** ** Telemetry (health.rs) *)

Record DiskTelemetry := MkTelemetry {
  dt_read_errors : N;
  dt_write_errors : N;
  dt_checksum_mismatches : N;
  dt_media_errors : N;
  dt_timeouts : N;
  dt_temperature_celsius : option N;
  dt_latency_p99_us : option N;
}.

Definition DiskTelemetry_default : DiskTelemetry := MkTelemetry 0 0 0 0 0 None None.

Record HealthPolicy := MkHealthPolicy {
  hp_suspect_error_threshold : N;
  hp_degraded_error_threshold : N;
  hp_failed_error_threshold : N;
  hp_temperature_warning_celsius : N;
  hp_temperature_critical_celsius : N;
}.

Definition HealthPolicy_default : HealthPolicy := MkHealthPolicy 5 20 100 60 75.

Record DiskHealthTracker := MkHealthTracker {
  ht_disk_id : DiskId;
  ht_cumulative : DiskTelemetry;
  ht_policy : HealthPolicy;
}.

Definition DiskHealthTracker_new (disk_id : DiskId) : DiskHealthTracker :=
  MkHealthTracker disk_id DiskTelemetry_default HealthPolicy_default.

(** [record]: the counters are u64. *)
Definition health_record (t : DiskTelemetry) (h : DiskHealthTracker) : DiskHealthTracker :=
  let c := ht_cumulative h in
  MkHealthTracker (ht_disk_id h)
    (MkTelemetry (u64_add (dt_read_errors c) (dt_read_errors t))
       (u64_add (dt_write_errors c) (dt_write_errors t))
       (u64_add (dt_checksum_mismatches c) (dt_checksum_mismatches t))
       (u64_add (dt_media_errors c) (dt_media_errors t))
       (u64_add (dt_timeouts c) (dt_timeouts t))
       (match dt_temperature_celsius t with Some x => Some x | None => dt_temperature_celsius c end)
       (match dt_latency_p99_us t with Some x => Some x | None => dt_latency_p99_us c end))
    (ht_policy h).

(** The errors that count for the derived state: timeouts do not. *)
Definition state_errors (c : DiskTelemetry) : N :=
  u64_add (u64_add (u64_add (dt_read_errors c) (dt_write_errors c)) (dt_checksum_mismatches c))
    (dt_media_errors c).

(** [temp >= threshold] for the last temperature seen, if any. *)
Definition temperature_at_least (threshold : N) (c : DiskTelemetry) : bool :=
  match dt_temperature_celsius c with Some temp => bool_decide (threshold ≤ temp) | None => false end.

Definition derive_state (h : DiskHealthTracker) : option DiskState :=
  let c := ht_cumulative h in
  let p := ht_policy h in
  let total_errors := state_errors c in
  if decide (hp_failed_error_threshold p ≤ total_errors) then Some Failed
  else if temperature_at_least (hp_temperature_critical_celsius p) c then Some Failed
  else if decide (hp_degraded_error_threshold p ≤ total_errors) then Some Degraded
  else if temperature_at_least (hp_temperature_warning_celsius p) c then Some Suspect
  else if decide (hp_suspect_error_threshold p ≤ total_errors) then Some Suspect
  else None.

Definition total_errors (h : DiskHealthTracker) : N :=
  u64_add (state_errors (ht_cumulative h)) (dt_timeouts (ht_cumulative h)).

Definition health_reset (h : DiskHealthTracker) : DiskHealthTracker :=
  MkHealthTracker (ht_disk_id h) DiskTelemetry_default (ht_policy h).

(** ** Inventory (disk.rs) *)

Inductive QualificationState :=
  | Pending
  | BurnInRunning (started_at : N)
  | Qualified.

#[global] Instance QualificationState_eq_dec : EqDecision QualificationState.
Proof. solve_decision. Defined.

Record ManagedDisk := MkManagedDisk {
  md_disk_id : DiskId;
  md_mount_path : list string;
  md_state : DiskState;
  md_qualification : QualificationState;
  md_health : DiskHealthTracker;
  md_bad_regions : BadRegionMap;
}.

Definition ManagedDisk_new (disk_id : DiskId) (mount_path : list string) : ManagedDisk :=
  MkManagedDisk disk_id mount_path Healthy Qualified (DiskHealthTracker_new disk_id) [].

Definition new_qualifying (disk_id : DiskId) (mount_path : list string) : ManagedDisk :=
  MkManagedDisk disk_id mount_path Suspect Pending (DiskHealthTracker_new disk_id) [].

Record DiskInventory := MkInventory {
  inv_disks : gmap DiskId ManagedDisk;
  inv_drain_queue : list DiskId;
}.

Definition DiskInventory_new : DiskInventory := MkInventory ∅ [].

Definition set_state (st : DiskState) (d : ManagedDisk) : ManagedDisk :=
  MkManagedDisk (md_disk_id d) (md_mount_path d) st (md_qualification d) (md_health d) (md_bad_regions d).

Definition set_qualification (q : QualificationState) (d : ManagedDisk) : ManagedDisk :=
  MkManagedDisk (md_disk_id d) (md_mount_path d) (md_state d) q (md_health d) (md_bad_regions d).

Section inventory.
Context `{!UuidDisplay}.
Implicit Types inv : DiskInventory.

Definition put_disk (disk_id : DiskId) (d : ManagedDisk) inv : DiskInventory :=
  MkInventory (<[disk_id := d]> (inv_disks inv)) (inv_drain_queue inv).

(** [disks.get(&disk_id).ok_or_else(..)] *)
Definition find_disk (disk_id : DiskId) inv : result StorageError ManagedDisk :=
  ok_or (DiskNotFound ("unknown disk: " +:+ to_string disk_id)) (inv_disks inv !! disk_id).

(** What discovery finds on a mount path. *)
Record MountProbe := MkMountProbe {
  mp_is_dir : bool;
  mp_xfs : result StorageError unit;
  mp_disk_id : result StorageError DiskId;
}.

Definition discover_single_disk (mount_path : list string) (probe : MountProbe)
    (require_qualification : bool) inv : DiskInventory * result StorageError DiskId :=
  if mp_is_dir probe then
    match mp_xfs probe with
    | Err e => (inv, Err e)
    | Ok _ =>
        match mp_disk_id probe with
        | Err e => (inv, Err e)
        | Ok disk_id =>
            let managed := if require_qualification then new_qualifying disk_id mount_path
                           else ManagedDisk_new disk_id mount_path in
            match inv_disks inv !! disk_id with
            | Some _ => (inv, Err (DuplicateDisk ("disk " +:+ to_string disk_id +:+ " already registered")))
            | None => (put_disk disk_id managed inv, Ok disk_id)
            end
        end
    end
  else (inv, Err (DiskNotFound ("mount path does not exist or is not a directory: "
                                  +:+ String.concat "/" mount_path))).

(** The mount paths in order, stopping at the first error. *)
Fixpoint discover_disks_for_node (mounts : list (list string * MountProbe)) (require_qualification : bool) inv
    : DiskInventory * result StorageError (list DiskId) :=
  match mounts with
  | [] => (inv, Ok [])
  | (path, probe) :: mounts =>
      match discover_single_disk path probe require_qualification inv with
      | (inv, Err e) => (inv, Err e)
      | (inv, Ok disk_id) =>
          let '(inv, r) := discover_disks_for_node mounts require_qualification inv in
          (inv, r ≫= λ ids, Ok (disk_id :: ids))
      end
  end.

Definition transition_state (disk_id : DiskId) (new_state : DiskState) inv
    : DiskInventory * result StorageError DiskState :=
  match find_disk disk_id inv with
  | Err e => (inv, Err e)
  | Ok disk =>
      let old_state := md_state disk in
      match validate_transition old_state new_state with
      | Err e => (inv, Err (InvalidTransition (to_string e)))
      | Ok _ =>
          let disk := set_state new_state disk in
          if decide (new_state = Degraded) then
            let disk := if is_ok (validate_transition (md_state disk) Draining)
                        then set_state Draining disk else disk in
            (MkInventory (<[disk_id := disk]> (inv_disks inv)) (inv_drain_queue inv ++ [disk_id]), Ok old_state)
          else (put_disk disk_id disk inv, Ok old_state)
      end
  end.

Definition inv_allows_allocation (disk_id : DiskId) inv : result StorageError bool :=
  disk ← find_disk disk_id inv;
  Ok (allows_allocation (md_state disk) && bool_decide (md_qualification disk = Qualified)).

Definition inv_allows_reads (disk_id : DiskId) inv : result StorageError bool :=
  disk ← find_disk disk_id inv; Ok (allows_reads (md_state disk)).

Definition get_state (disk_id : DiskId) inv : result StorageError DiskState :=
  disk ← find_disk disk_id inv; Ok (md_state disk).

Definition get_mount_path (disk_id : DiskId) inv : result StorageError (list string) :=
  disk ← find_disk disk_id inv; Ok (md_mount_path disk).

Definition list_disks `{!HashIter DiskId} inv : list DiskId := hash_keys (inv_disks inv).

Definition record_telemetry (disk_id : DiskId) (t : DiskTelemetry) inv
    : DiskInventory * result StorageError unit :=
  match find_disk disk_id inv with
  | Err e => (inv, Err e)
  | Ok disk =>
      let disk := MkManagedDisk (md_disk_id disk) (md_mount_path disk) (md_state disk)
                    (md_qualification disk) (health_record t (md_health disk)) (md_bad_regions disk) in
      let disk :=
        match derive_state (md_health disk) with
        | Some derived =>
            if decide (derived ≠ md_state disk ∧ is_ok (validate_transition (md_state disk) derived) = true)
            then set_state derived disk else disk
        | None => disk
        end in
      (put_disk disk_id disk inv, Ok tt)
  end.

Definition complete_qualification (disk_id : DiskId) inv : DiskInventory * result StorageError unit :=
  match find_disk disk_id inv with
  | Err e => (inv, Err e)
  | Ok disk =>
      if decide (md_qualification disk = Qualified) then (inv, Ok tt) else
      let disk := set_qualification Qualified disk in
      let disk := if decide (md_state disk = Suspect) then set_state Healthy disk else disk in
      (put_disk disk_id disk inv, Ok tt)
  end.

Definition start_burn_in (now : N) (disk_id : DiskId) inv : DiskInventory * result StorageError unit :=
  match find_disk disk_id inv with
  | Err e => (inv, Err e)
  | Ok disk =>
      if decide (md_qualification disk = Pending)
      then (put_disk disk_id (set_qualification (BurnInRunning now) disk) inv, Ok tt)
      else (inv, Err (InvalidTransition ("disk " +:+ to_string disk_id +:+ " not in pending qualification state")))
  end.

Definition report_bad_region (disk_id : DiskId) (offset length : N) inv
    : DiskInventory * result StorageError unit :=
  match find_disk disk_id inv with
  | Err e => (inv, Err e)
  | Ok disk =>
      (put_disk disk_id (MkManagedDisk (md_disk_id disk) (md_mount_path disk) (md_state disk)
         (md_qualification disk) (md_health disk) (add_region offset length (md_bad_regions disk))) inv, Ok tt)
  end.

Definition is_region_quarantined (disk_id : DiskId) (offset length : N) inv : result StorageError bool :=
  disk ← find_disk disk_id inv; Ok (regions_overlap offset length (md_bad_regions disk)).

Definition has_bad_regions (disk_id : DiskId) inv : result StorageError bool :=
  disk ← find_disk disk_id inv; Ok (bool_decide (0 < base.length (md_bad_regions disk))%nat).

Definition take_drain_queue inv : DiskInventory * list DiskId :=
  (MkInventory (inv_disks inv) [], inv_drain_queue inv).

End inventory.

(** ** Lemmas *)

(** A transition that is allowed. *)
Definition legal (s t : DiskState) : Prop := validate_transition s t = Ok tt.

(** What a disk in a state can still become: a suspect disk may recover, from degraded
    on there is no way back. *)
Definition later_states (s : DiskState) : list DiskState :=
  match s with
  | Healthy | Suspect => [Healthy; Suspect; Degraded; Draining; Failed; Removed]
  | Degraded => [Degraded; Draining; Failed; Removed]
  | Draining => [Draining; Failed; Removed]
  | Failed => [Failed; Removed]
  | Removed => [Removed]
  end.

Lemma legal_later s t u : legal s t → u ∈ later_states t → u ∈ later_states s.
Proof. unfold legal. destruct s, t; simpl; try done; set_solver. Qed.

Lemma later_self s : s ∈ later_states s.
Proof. destruct s; set_solver. Qed.

Lemma rtc_legal_later s t : rtc legal s t → t ∈ later_states s.
Proof. induction 1 as [s|s t u Hst _ IH]; [apply later_self|by eapply legal_later]. Qed.

Section lemmas.
Context `{!UuidDisplay}.
Implicit Types inv : DiskInventory.

(** The operations on the inventory. *)
Inductive InventoryOp :=
  | OpDiscover (mounts : list (list string * MountProbe)) (require_qualification : bool)
  | OpTransition (disk_id : DiskId) (st : DiskState)
  | OpTelemetry (disk_id : DiskId) (t : DiskTelemetry)
  | OpCompleteQualification (disk_id : DiskId)
  | OpStartBurnIn (now : N) (disk_id : DiskId)
  | OpReportBadRegion (disk_id : DiskId) (offset length : N)
  | OpTakeDrainQueue.

Definition inventory_step inv (op : InventoryOp) : DiskInventory :=
  match op with
  | OpDiscover mounts q => (discover_disks_for_node mounts q inv).1
  | OpTransition d st => (transition_state d st inv).1
  | OpTelemetry d t => (record_telemetry d t inv).1
  | OpCompleteQualification d => (complete_qualification d inv).1
  | OpStartBurnIn now d => (start_burn_in now d inv).1
  | OpReportBadRegion d off len => (report_bad_region d off len inv).1
  | OpTakeDrainQueue => (take_drain_queue inv).1
  end.

Definition inventory_run (ops : list InventoryOp) inv : DiskInventory := foldl inventory_step inv ops.

(** [d'] is a later state of [d]. *)
Definition worn (d d' : ManagedDisk) : Prop :=
  rtc legal (md_state d) (md_state d') ∧ md_bad_regions d `prefix_of` md_bad_regions d'.

(** Every disk is kept, in a later state. *)
Definition disks_worn inv inv' : Prop :=
  ∀ i d, inv_disks inv !! i = Some d → ∃ d', inv_disks inv' !! i = Some d' ∧ worn d d'.

#[export] Instance worn_preorder : PreOrder worn.
Proof.
  split; [by split|]. intros d1 d2 d3 [H1 H2] [H3 H4]. split; [by trans (md_state d2)|by trans (md_bad_regions d2)].
Qed.

#[export] Instance disks_worn_preorder : PreOrder disks_worn.
Proof.
  split; [intros inv i d Hd; by exists d|]. intros inv1 inv2 inv3 H12 H23 i d Hd.
  destruct (H12 i d Hd) as (d2 & Hd2 & ?), (H23 i d2 Hd2) as (d3 & Hd3 & ?).
  exists d3. split; [done|by trans d2].
Qed.

Lemma disks_worn_insert inv i d d' q :
  find_disk i inv = Ok d → worn d d' → disks_worn inv (MkInventory (<[i := d']> (inv_disks inv)) q).
Proof.
  unfold find_disk. destruct (inv_disks inv !! i) as [d0|] eqn:Hi; [|done]. intros [= ->] Hw j e He.
  simpl. destruct (decide (i = j)) as [->|Hne].
  - exists d'. rewrite lookup_insert_eq. split; [done|]. naive_solver.
  - exists e. by rewrite lookup_insert_ne.
Qed.

Lemma discover_worn mounts q inv : disks_worn inv (discover_disks_for_node mounts q inv).1.
Proof.
  revert inv. induction mounts as [|[path probe] mounts IH]; intros inv; simpl; [done|].
  assert (disks_worn inv (discover_single_disk path probe q inv).1) as H1.
  { unfold discover_single_disk. repeat case_match; simpl; try done.
    all: intros j e He; exists e; split; [|done]; simpl.
    all: rewrite lookup_insert_ne; [done|congruence]. }
  destruct (discover_single_disk path probe q inv) as [inv1 [id|e]]; [|done]. simpl in H1.
  specialize (IH inv1). destruct (discover_disks_for_node mounts q inv1). simpl in *. by trans inv1.
Qed.

Lemma transition_worn i st inv : disks_worn inv (transition_state i st inv).1.
Proof.
  unfold transition_state. destruct (find_disk i inv) as [d|] eqn:Hd; [|done].
  destruct (validate_transition (md_state d) st) as [[]|] eqn:Hv; [|done].
  case_decide as Hst; simpl.
  - subst st. apply (disks_worn_insert _ _ d); [done|]. split; [|done]. simpl. by eapply rtc_l, rtc_once.
  - apply (disks_worn_insert _ _ d); [done|]. split; [|done]. by apply rtc_once.
Qed.

Lemma telemetry_worn i t inv : disks_worn inv (record_telemetry i t inv).1.
Proof.
  unfold record_telemetry. destruct (find_disk i inv) as [d|] eqn:Hd; [|done]. simpl.
  apply (disks_worn_insert _ _ d); [done|]. destruct (derive_state _) as [st|]; [|done].
  case_decide as Hdec; [|done]. destruct Hdec as [_ Hok]. simpl in *. split; [|done]. simpl.
  destruct (validate_transition (md_state d) st) as [[]|] eqn:Hv; [|done]. by apply rtc_once.
Qed.

Lemma qualification_worn i inv : disks_worn inv (complete_qualification i inv).1.
Proof.
  unfold complete_qualification. destruct (find_disk i inv) as [d|] eqn:Hd; [|done].
  case_decide; [done|]. simpl. apply (disks_worn_insert _ _ d); [done|].
  case_decide as Hs; split; try done. simpl in *. rewrite Hs. by apply rtc_once.
Qed.

Lemma inventory_step_worn op inv : disks_worn inv (inventory_step inv op).
Proof.
  destruct op as [mounts q|i st|i t|i|now i|i off len|]; simpl.
  - apply discover_worn.
  - apply transition_worn.
  - apply telemetry_worn.
  - apply qualification_worn.
  - unfold start_burn_in. destruct (find_disk i inv) as [d|] eqn:Hd; [|done]. case_decide; [|done].
    by apply (disks_worn_insert _ _ d).
  - unfold report_bad_region. destruct (find_disk i inv) as [d|] eqn:Hd; [|done]. simpl.
    apply (disks_worn_insert _ _ d); [done|]. split; [done|]. simpl. unfold add_region.
    case_decide; [done|]. by eexists.
  - intros j e He. by exists e.
Qed.

Lemma inventory_run_worn ops inv : disks_worn inv (inventory_run ops inv).
Proof.
  unfold inventory_run. revert inv. induction ops as [|op ops IH]; intros inv; simpl; [done|].
  trans (inventory_step inv op); [apply inventory_step_worn|apply IH].
Qed.

(** ** Theorems *)

(** C38: A disk that was degraded never comes back: whatever operations the inventory goes
    through (transitions, telemetry, qualification, burn-in, rediscovery), every disk stays
    registered and its state moves by legal transitions only.  A suspect disk may become
    healthy again, but from degraded, draining, failed and removed only the later of
    these states can follow; so a disk that no longer allows allocation never does again,
    one that no longer allows reads never does again, and a quarantined region stays
    quarantined. *)
Theorem disk_never_revives ops inv i d :
  inv_disks inv !! i = Some d →
  let inv' := inventory_run ops inv in
  ∃ d', inv_disks inv' !! i = Some d' ∧ rtc legal (md_state d) (md_state d') ∧
    md_state d' ∈ later_states (md_state d) ∧
    (allows_allocation (md_state d) = false → inv_allows_allocation i inv' = Ok false) ∧
    (allows_reads (md_state d) = false → inv_allows_reads i inv' = Ok false) ∧
    (∀ off len, is_region_quarantined i off len inv = Ok true →
       is_region_quarantined i off len inv' = Ok true).
Proof.
  intros Hd inv'. destruct (inventory_run_worn ops inv i d Hd) as (d' & Hd' & Hw & Hbad).
  pose proof (rtc_legal_later _ _ Hw) as Hlater. exists d'. fold inv' in Hd'. split_and!; [done|done|done|..].
  - intros Ha. unfold inv_allows_allocation, find_disk. rewrite Hd'. simpl.
    destruct (md_state d); try done; simpl in Hlater; by destruct (md_state d'); try set_solver.
  - intros Ha. unfold inv_allows_reads, find_disk. rewrite Hd'. simpl.
    destruct (md_state d); try done; simpl in Hlater; by destruct (md_state d'); try set_solver.
  - intros off len. unfold is_region_quarantined, find_disk. rewrite Hd, Hd'. simpl.
    destruct Hbad as [more ->]. unfold regions_overlap. intros [= Hq]. by rewrite existsb_app, Hq.
Qed.

End lemmas.

Module InventoryDemo.

#[export] Existing Instance uuid_decimal.

Definition disk_id : DiskId := DiskId_new 1.

Definition probe : MountProbe := MkMountProbe true (Ok tt) (Ok disk_id).

(** One registered disk that has failed. *)
Definition inventory : DiskInventory :=
  inventory_run [OpDiscover [(["mnt"; "d1"], probe)] false; OpTransition disk_id Failed] DiskInventory_new.

(** 25 read errors in one report. *)
Definition errors25 : DiskTelemetry := MkTelemetry 25 0 0 0 0 None None.

End InventoryDemo.
Import InventoryDemo.

Lemma disk_never_revives_witness :
  inv_allows_reads disk_id (inventory_run [OpTransition disk_id Healthy; OpTelemetry disk_id errors25] inventory) =
    Ok false.
Proof.
  destruct (inv_disks inventory !! disk_id) as [d|] eqn:Hd; [|vm_compute in Hd; discriminate].
  destruct (disk_never_revives [OpTransition disk_id Healthy; OpTelemetry disk_id errors25] inventory disk_id d Hd)
    as (d' & _ & _ & _ & _ & Hr & _).
  apply Hr. vm_compute in Hd. injection Hd as <-. reflexivity.
Defined.

(** A disk degraded by telemetry is not evacuated: its state is degraded and the
    drain queue stays empty, whereas a requested transition to degraded moves it
    on to draining and enqueues it. *)
Theorem telemetry_degraded_not_drained :
  let inv := inventory_run [OpDiscover [(["mnt"; "d1"], probe)] false] DiskInventory_new in
  let by_telemetry := inventory_step inv (OpTelemetry disk_id errors25) in
  let by_request := inventory_step inv (OpTransition disk_id Degraded) in
  get_state disk_id by_telemetry = Ok Degraded ∧ inv_drain_queue by_telemetry = [] ∧
  get_state disk_id by_request = Ok Draining ∧ inv_drain_queue by_request = [disk_id].
Proof. vm_compute. auto. Qed.
