(* ===== verification/FileSystem.v ===== *)
(** * Files that survive crashes

    The part of [std::fs] and [std::path] that crates/blockyard-storage uses.  A
    file system keeps the files a running process sees, what is known to be on
    the medium, and the paths whose content on the medium is unknown: created or
    written and not yet synced.  A system call succeeds, fails with an error
    (a failing write may have written a prefix), or never happens because the
    machine stops; the sequence of these events is an argument of every run.
    The disks are XFS volumes (the code refuses others), whose metadata is logged in
    order: once a file is synced, its entry and the directories created before it are
    on the medium too.  Directories therefore need no state of their own.
    [triple] is the logic for such runs: besides what holds on success it states
    what holds when the run fails or stops part way. *)

From Stdlib Require Import Ascii.
From S2P Require Import Prelude Text DiskInventory.

(** ** Paths *)

(** The components of a path. *)
Abbreviation Path := (list string) (only parsing).

(** [Path::display]. *)
Definition path_display (p : Path) : string := String.concat "/" p.

(** [Path::parent]. *)
Definition path_parent (p : Path) : Path := removelast p.

(** The path with [suffix] appended to its last component. *)
Definition path_add_suffix (p : Path) (suffix : string) : Path :=
  removelast p ++ [default EmptyString (last p) +:+ suffix].

(** [Path::extension]: what follows the last dot of the file name, unless that
    dot is its first character. *)
Definition path_extension (p : Path) : option string :=
  name ← last p;
  match rsplit_once "."%char name with
  | Some (EmptyString, _) | None => None
  | Some (_, ext) => Some ext
  end.

(** ** State *)

Record FS := MkFS {
  fs_files : gmap Path (list N);
  fs_durable : gmap Path (list N);
  fs_dirty : gset Path;
}.

Inductive IoEvent :=
  | IoSuccess
  | IoFailure (msg : string) (written : nat)
  | IoCrash.

(** The file system, the events to come (success after the last one), and the
    memory the run updates. *)
Record World (X : Type) := MkWorld { w_fs : FS; w_events : list IoEvent; w_state : X }.
Arguments MkWorld {X} _ _ _.
Arguments w_fs {X} _.
Arguments w_events {X} _.
Arguments w_state {X} _.

Inductive outcome (A : Type) :=
  | Done (r : result StorageError A)
  | Crashed.
Arguments Done {A} _.
Arguments Crashed {A}.

(** ** Programs *)

Definition IO (X A : Type) : Type := World X → World X * outcome A.

Section io.
Context {X : Type}.

#[export] Instance io_mret : MRet (IO X) := λ A a w, (w, Done (Ok a)).

Definition io_throw {A} (e : StorageError) : IO X A := λ w, (w, Done (Err e)).

(** The [?] operator. *)
#[export] Instance io_mbind : MBind (IO X) := λ A B k m w,
  match m w with
  | (w, Done (Ok a)) => k a w
  | (w, Done (Err e)) => (w, Done (Err e))
  | (w, Crashed) => (w, Crashed)
  end.

(** Go on with the result of a call, error or not. *)
Definition io_try {A} (m : IO X A) : IO X (result StorageError A) := λ w,
  match m w with
  | (w, Done r) => (w, Done (Ok r))
  | (w, Crashed) => (w, Crashed)
  end.

Definition io_get {A} (f : X → A) : IO X A := λ w, (w, Done (Ok (f (w_state w)))).

Definition io_modify (f : X → X) : IO X unit := λ w,
  (MkWorld (w_fs w) (w_events w) (f (w_state w)), Done (Ok tt)).

(** [Path::exists] and the like: a look at the files. *)
Definition io_look {A} (f : gmap Path (list N) → A) : IO X A := λ w,
  (w, Done (Ok (f (fs_files (w_fs w))))).

(** One system call: [run] is its effect, [torn n] that of a failure after [n] bytes. *)
Definition syscall {A} (wrap : string → StorageError) (run : FS → result string (FS * A))
    (torn : nat → FS → FS) : IO X A := λ '(MkWorld fs evs x),
  match evs with
  | IoCrash :: evs => (MkWorld fs evs x, Crashed)
  | IoFailure msg n :: evs => (MkWorld (torn n fs) evs x, Done (Err (wrap msg)))
  | _ =>
      match run fs with
      | Ok (fs', a) => (MkWorld fs' (tail evs) x, Done (Ok a))
      | Err msg => (MkWorld fs (tail evs) x, Done (Err (wrap msg)))
      end
  end.

End io.

Definition enoent : string := "No such file or directory (os error 2)".

(** ** System calls *)

(** The effect of each call on the file system. *)
Definition fs_write (p : Path) (data : list N) (fs : FS) : FS :=
  MkFS (<[p := data]> (fs_files fs)) (fs_durable fs) ({[p]} ∪ fs_dirty fs).

Definition fs_append (p : Path) (data : list N) (fs : FS) : FS :=
  fs_write p (default [] (fs_files fs !! p) ++ data) fs.

(** [sync_all]: the content, and in the ordered log of XFS the entry as well. *)
Definition fs_sync (p : Path) (fs : FS) : FS :=
  MkFS (fs_files fs) (partial_alter (λ _, fs_files fs !! p) p (fs_durable fs)) (fs_dirty fs ∖ {[p]}).

Definition fs_rename (a b : Path) (data : list N) (fs : FS) : FS :=
  MkFS (<[b := data]> (delete a (fs_files fs))) (fs_durable fs)
    (if decide (a ∈ fs_dirty fs) then {[b]} ∪ fs_dirty fs else fs_dirty fs).

Definition fs_remove (p : Path) (fs : FS) : FS :=
  MkFS (delete p (fs_files fs)) (fs_durable fs) (fs_dirty fs).

(** The entries of [dir] that are not dirty become durable. *)
Definition fs_sync_dir (dir : Path) (fs : FS) : FS :=
  let synced p := p ≠ [] ∧ path_parent p = dir ∧ p ∉ fs_dirty fs in
  MkFS (fs_files fs)
    (filter (λ e, synced e.1) (fs_files fs) ∪ filter (λ e, ¬ synced e.1) (fs_durable fs))
    (fs_dirty fs).

Definition no_tear : nat → FS → FS := λ _ fs, fs.

Section calls.
Context {X : Type}.

(** Directories are implicit: a directory exists once it is needed, and every file that
    is reached through it is synced after it was created (see the top of the file). *)
Definition create_dir_all (p : Path) : IO X unit := syscall Io (λ fs, Ok (fs, tt)) no_tear.

Definition file_create (wrap : string → StorageError) (p : Path) : IO X unit :=
  syscall wrap (λ fs, Ok (fs_write p [] fs, tt)) no_tear.

Definition write_all (wrap : string → StorageError) (p : Path) (data : list N) : IO X unit :=
  syscall wrap (λ fs, Ok (fs_append p data fs, tt)) (λ n fs, fs_append p (take n data) fs).

Definition sync_all (wrap : string → StorageError) (p : Path) : IO X unit :=
  syscall wrap (λ fs, Ok (fs_sync p fs, tt)) no_tear.

Definition rename (wrap : string → StorageError) (a b : Path) : IO X unit :=
  syscall wrap (λ fs, data ← ok_or enoent (fs_files fs !! a); Ok (fs_rename a b data fs, tt)) no_tear.

Definition remove_file (p : Path) : IO X unit :=
  syscall Io (λ fs, _ ← ok_or enoent (fs_files fs !! p); Ok (fs_remove p fs, tt)) no_tear.

Definition read_file (p : Path) : IO X (list N) :=
  syscall Io (λ fs, data ← ok_or enoent (fs_files fs !! p); Ok (fs, data)) no_tear.

Definition open_dir (wrap : string → StorageError) (p : Path) : IO X unit :=
  syscall wrap (λ fs, Ok (fs, tt)) no_tear.

Definition sync_dir (wrap : string → StorageError) (p : Path) : IO X unit :=
  syscall wrap (λ fs, Ok (fs_sync_dir p fs, tt)) no_tear.

Definition path_exists (p : Path) : IO X bool := io_look (λ files, bool_decide (is_Some (files !! p))).

End calls.

(** ** Directories *)

Fixpoint strip_prefix (dir p : Path) : option Path :=
  match dir, p with
  | [], _ => Some p
  | d :: dir, n :: p => if decide (d = n) then strip_prefix dir p else None
  | _ :: _, [] => None
  end.

(** The entry of [dir] through which the file [p] is reached. *)
Definition dir_entry (dir p : Path) : option string := strip_prefix dir p ≫= head.

Definition is_dir (files : gmap Path (list N)) (dir : Path) : bool :=
  existsb (λ p, bool_decide (is_Some (dir_entry dir p))) (map_to_list files).*1.

(** The order in which a directory is listed. *)
Class ReadDirOrder := {
  dir_order : list string → list string;
  dir_order_perm : ∀ names, dir_order names ≡ₚ names;
}.

Definition dir_entries `{!ReadDirOrder} (files : gmap Path (list N)) (dir : Path) : list Path :=
  (λ n, dir ++ [n]) <$> dir_order (remove_dups (omap (dir_entry dir) (map_to_list files).*1)).

Definition read_dir {X} `{!ReadDirOrder} (dir : Path) : IO X (list Path) :=
  syscall Io (λ fs, Ok (fs, dir_entries (fs_files fs) dir)) no_tear.

(** ** Crashes *)

(** What a restart may find: of every file either what the process saw or what
    was durable, and anything at all at a dirty path. *)
Record crash_state (fs fs' : FS) : Prop := {
  crash_files : ∀ p, p ∉ fs_dirty fs →
    fs_files fs' !! p = fs_files fs !! p ∨ fs_files fs' !! p = fs_durable fs !! p;
  crash_durable : fs_durable fs' = fs_files fs';
  crash_dirty : fs_dirty fs' = ∅;
}.

(** The content of [p] is [c], before and after any crash. *)
Record settled (p : Path) (c : option (list N)) (fs : FS) : Prop := {
  settled_clean : p ∉ fs_dirty fs;
  settled_files : fs_files fs !! p = c;
  settled_durable : fs_durable fs !! p = c;
}.

Lemma settled_crash p c fs fs' : settled p c fs → crash_state fs fs' → settled p c fs'.
Proof.
  intros [Hcl Hf Hd] [Hcr Hdur Hdirty]. assert (fs_files fs' !! p = c) as Hc.
  { destruct (Hcr p Hcl); congruence. }
  split; [rewrite Hdirty; set_solver|done|by rewrite Hdur].
Qed.

Lemma settled_write p q d c fs : p ≠ q → settled p c fs → settled p c (fs_write q d fs).
Proof. intros Hne [? ? ?]. split; simpl; [set_solver|by rewrite lookup_insert_ne|done]. Qed.

Lemma settled_append p q d c fs : p ≠ q → settled p c fs → settled p c (fs_append q d fs).
Proof. apply settled_write. Qed.

Lemma settled_sync p q c fs : p ≠ q → settled p c fs → settled p c (fs_sync q fs).
Proof. intros Hne [? ? ?]. split; simpl; [set_solver|done|by rewrite lookup_partial_alter_ne]. Qed.

Lemma settled_rename p a b d c fs : p ≠ a → p ≠ b → settled p c fs → settled p c (fs_rename a b d fs).
Proof.
  intros Ha Hb [? ? ?]. split; simpl; [case_decide; set_solver| |done].
  by rewrite lookup_insert_ne, lookup_delete_ne.
Qed.

Lemma settled_remove p q c fs : p ≠ q → settled p c fs → settled p c (fs_remove q fs).
Proof. intros Hne [? ? ?]. split; simpl; [done|by rewrite lookup_delete_ne|done]. Qed.

Lemma lookup_sync_dir dir p fs :
  fs_durable (fs_sync_dir dir fs) !! p =
    if decide (p ≠ [] ∧ path_parent p = dir ∧ p ∉ fs_dirty fs) then fs_files fs !! p else fs_durable fs !! p.
Proof.
  simpl. rewrite lookup_union, !map_lookup_filter. case_decide as Hp.
  all: destruct (fs_files fs !! p), (fs_durable fs !! p); simpl; repeat case_guard; simpl in *; try done; tauto.
Qed.

Lemma settled_sync_dir p dir c fs : settled p c fs → settled p c (fs_sync_dir dir fs).
Proof. intros [? ? ?]. split; [done..|]. rewrite lookup_sync_dir. by case_decide. Qed.

(** Once synced, a file is settled. *)
Lemma settled_after_sync p c fs : fs_files fs !! p = c → settled p c (fs_sync p fs).
Proof. intros Hf. split; simpl; [set_solver|done|by rewrite lookup_partial_alter_eq]. Qed.

(** A clean file is settled once its directory is synced. *)
Lemma settled_after_sync_dir p c fs :
  p ≠ [] → p ∉ fs_dirty fs → fs_files fs !! p = c → settled p c (fs_sync_dir (path_parent p) fs).
Proof. intros Hne Hcl Hf. split; [done..|]. rewrite lookup_sync_dir, decide_True; [done|]. by split_and!. Qed.

Create HintDb fs.
#[export] Hint Resolve settled_write settled_append settled_sync settled_rename settled_remove
  settled_sync_dir settled_after_sync : fs.

(** ** The logic of runs *)

(** From [P]: [Q] on success, [R] on an error and wherever the run may stop. *)
Definition triple {X A} (P : FS → Prop) (m : IO X A) (Q : A → FS → Prop) (R : FS → Prop) : Prop :=
  ∀ w w' o, P (w_fs w) → m w = (w', o) →
    match o with Done (Ok a) => Q a (w_fs w') | _ => R (w_fs w') end.

Section triples.
Context {X A : Type}.
Implicit Types P R : FS → Prop.

Lemma triple_bind {B} P (m : IO X B) (k : B → IO X A) Q Q' R :
  triple P m Q' R → (∀ b, triple (Q' b) (k b) Q R) → triple P (m ≫= k) Q R.
Proof.
  intros Hm Hk w w' o HP Hrun. unfold mbind, io_mbind in Hrun.
  destruct (m w) as [w1 o1] eqn:Hm1. specialize (Hm w w1 o1 HP Hm1).
  destruct o1 as [[b|e]|]; [by eapply Hk|by simplify_eq..].
Qed.

Lemma triple_ret P (a : A) (Q : A → FS → Prop) R : (∀ fs, P fs → Q a fs) → triple P (mret (M:=IO X) a) Q R.
Proof. intros HPQ w w' o HP [= <- <-]. by apply HPQ. Qed.

Lemma triple_throw P e (Q : A → FS → Prop) R : (∀ fs, P fs → R fs) → triple P (io_throw (X:=X) e) Q R.
Proof. intros HPR w w' o HP [= <- <-]. by apply HPR. Qed.

Lemma triple_look P (f : gmap Path (list N) → A) (Q : A → FS → Prop) R :
  (∀ fs, P fs → Q (f (fs_files fs)) fs) → triple P (io_look (X:=X) f) Q R.
Proof. intros HPQ w w' o HP [= <- <-]. by apply HPQ. Qed.

Lemma triple_syscall P wrap run torn (Q : A → FS → Prop) R :
  (∀ fs, P fs → R fs) → (∀ n fs, P fs → R (torn n fs)) →
  (∀ fs fs' a, P fs → run fs = Ok (fs', a) → Q a fs') →
  triple P (syscall (X:=X) wrap run torn) Q R.
Proof.
  intros HPR Htorn HQ [fs evs x] w' o HP Hrun. simpl in *.
  destruct evs as [|[|msg n|] evs]; simplify_eq/=; try naive_solver.
  all: destruct (run fs) as [[fs' a]|] eqn:Hr; simplify_eq/=; naive_solver.
Qed.

Lemma triple_conseq P P' (m : IO X A) (Q Q' : A → FS → Prop) R R' :
  triple P' m Q' R' → (∀ fs, P fs → P' fs) → (∀ a fs, Q' a fs → Q a fs) → (∀ fs, R' fs → R fs) →
  triple P m Q R.
Proof.
  intros Hm HP HQ HR w w' o Hw Hrun. specialize (Hm w w' o (HP _ Hw) Hrun).
  destruct o as [[a|e]|]; auto.
Qed.

Lemma triple_pre P P' (m : IO X A) (Q : A → FS → Prop) R :
  triple P' m Q R → (∀ fs, P fs → P' fs) → triple P m Q R.
Proof. intros Hm HP. by eapply triple_conseq. Qed.

Lemma triple_pure (φ : Prop) P (m : IO X A) (Q : A → FS → Prop) R :
  (φ → triple P m Q R) → triple (λ fs, φ ∧ P fs) m Q R.
Proof. intros Hm w w' o [Hφ HP] Hrun. by apply (Hm Hφ w w' o). Qed.

(** Facts of success and of failure can be combined. *)
Lemma triple_and P1 P2 (m : IO X A) (Q1 Q2 : A → FS → Prop) R1 R2 :
  triple P1 m Q1 R1 → triple P2 m Q2 R2 →
  triple (λ fs, P1 fs ∧ P2 fs) m (λ a fs, Q1 a fs ∧ Q2 a fs) (λ fs, R1 fs ∧ R2 fs).
Proof.
  intros H1 H2 w w' o [HP1 HP2] Hrun. specialize (H1 w w' o HP1 Hrun). specialize (H2 w w' o HP2 Hrun).
  destruct o as [[a|e]|]; auto.
Qed.

End triples.

(** Programs that preserve a fact about the files, whatever happens. *)
Definition preserves {X A} (I : FS → Prop) (m : IO X A) : Prop := triple I m (λ _, I) I.

Section preserves.
Context {X : Type} (I : FS → Prop).

Lemma preserves_bind {A B} (m : IO X A) (k : A → IO X B) :
  preserves I m → (∀ a, preserves I (k a)) → preserves I (m ≫= k).
Proof. intros Hm Hk. eapply triple_bind; [apply Hm|intros b; apply Hk]. Qed.

Lemma preserves_ret {A} (a : A) : preserves I (mret (M:=IO X) a).
Proof. by apply triple_ret. Qed.

Lemma preserves_throw {A} e : preserves I (io_throw (X:=X) (A:=A) e).
Proof. by apply triple_throw. Qed.

Lemma preserves_look {A} (f : gmap Path (list N) → A) : preserves I (io_look (X:=X) f).
Proof. by apply triple_look. Qed.

Lemma preserves_modify (f : X → X) : preserves I (io_modify f).
Proof. by intros w w' o HI [= <- <-]. Qed.

Lemma preserves_syscall {A} wrap run torn :
  (∀ fs fs' (a : A), I fs → run fs = Ok (fs', a) → I fs') → (∀ n fs, I fs → I (torn n fs)) →
  preserves I (syscall (X:=X) wrap run torn).
Proof. intros Hrun Htorn. apply triple_syscall; [done|auto|]. intros; by eapply Hrun. Qed.

Lemma preserves_try {A} (m : IO X A) : preserves I m → preserves I (io_try m).
Proof.
  intros Hm w w' o HP Hrun. unfold io_try in Hrun. destruct (m w) as [w1 o1] eqn:Hm1.
  specialize (Hm w w1 o1 HP Hm1). destruct o1 as [[a|e]|]; by simplify_eq.
Qed.

End preserves.

(** A settled path stays settled under a program on other paths. *)
Definition keeps {X A} (p : Path) (m : IO X A) : Prop := ∀ c, preserves (settled p c) m.

(** The visible content of [p] is [c]. *)
Definition holds (p : Path) (c : option (list N)) (fs : FS) : Prop := fs_files fs !! p = c.

(** The visible content of a path stays under a program on other paths. *)
Definition keeps_file {X A} (p : Path) (m : IO X A) : Prop := ∀ c, preserves (holds p c) m.

Lemma holds_write p q d c fs : p ≠ q → holds p c fs → holds p c (fs_write q d fs).
Proof. intros Hne Hp. unfold holds. simpl. by rewrite lookup_insert_ne. Qed.

Lemma holds_append p q d c fs : p ≠ q → holds p c fs → holds p c (fs_append q d fs).
Proof. apply holds_write. Qed.

Lemma holds_sync p q c fs : holds p c fs → holds p c (fs_sync q fs).
Proof. done. Qed.

Lemma holds_rename p a b d c fs : p ≠ a → p ≠ b → holds p c fs → holds p c (fs_rename a b d fs).
Proof. intros Ha Hb Hp. unfold holds. simpl. by rewrite lookup_insert_ne, lookup_delete_ne. Qed.

Lemma holds_sync_dir p dir c fs : holds p c fs → holds p c (fs_sync_dir dir fs).
Proof. done. Qed.

#[export] Hint Resolve holds_write holds_append holds_sync holds_rename holds_sync_dir : fs.

(** Solves [preserves] goals by the hints on the calls of the program. *)
Ltac solve_preserves :=
  repeat (apply preserves_bind; [|intros ?]);
  try (apply preserves_ret || apply preserves_throw || apply preserves_look || apply preserves_modify);
  try (apply preserves_syscall; [intros ? ? ? ? Hrun_; simplify_eq/=; eauto with fs|intros; simpl; eauto with fs]).
