(* ===== verification/ExtentStore.v ===== *)
(** * Extent files of a disk (crates/blockyard-storage/src/extent.rs)

    The path layout, staging, commit by rename, verified reads, clean-up and
    startup recovery, over the file system of [FileSystem].  The JSON form of the
    extent metadata belongs to [serde_json]: [MetaCodec] is its serialiser and
    parser, of which the round trip and UTF-8 output are assumed.  The clock, the
    age of staged files and the order of directory listings are arguments. *)

From Stdlib Require Import Ascii DecimalString.
From S2P Require Import Prelude Text Common Placement Checksum DiskInventory FileSystem.

#[local] Open Scope N_scope.

(** ** Data *)

Inductive StorageClass := Default | HighPerformance | Archive.

#[global] Instance StorageClass_eq_dec : EqDecision StorageClass.
Proof. solve_decision. Defined.

Record ExtentMeta := MkExtentMeta {
  em_extent_id : ExtentId;
  em_disk_id : DiskId;
  em_version : N;
  em_checksum : string;
  em_size : N;
  em_storage_class : StorageClass;
  em_committed_at : N;
}.

Record LocalExtentEntry := MkEntry {
  le_extent_id : ExtentId;
  le_disk_id : DiskId;
  le_path : Path;
  le_version : N;
  le_checksum : string;
  le_size : N;
  le_storage_class : StorageClass;
}.

(** ** Index *)

Abbreviation ExtentIndex := (gmap ExtentId LocalExtentEntry) (only parsing).

Definition index_insert (e : LocalExtentEntry) (idx : ExtentIndex) : ExtentIndex :=
  <[le_extent_id e := e]> idx.

Definition index_get (x : ExtentId) (idx : ExtentIndex) : option LocalExtentEntry := idx !! x.

Definition index_remove (x : ExtentId) (idx : ExtentIndex) : ExtentIndex * option LocalExtentEntry :=
  (delete x idx, idx !! x).

Definition index_contains (x : ExtentId) (idx : ExtentIndex) : bool := bool_decide (is_Some (idx !! x)).

Definition index_count (idx : ExtentIndex) : nat := size idx.

Definition index_list_all `{!HashIter ExtentId} (idx : ExtentIndex) : list LocalExtentEntry :=
  omap (idx !!.) (hash_keys idx).

Definition list_for_disk `{!HashIter ExtentId} (disk_id : DiskId) (idx : ExtentIndex) : list LocalExtentEntry :=
  filter (λ e, le_disk_id e = disk_id) (index_list_all idx).

(** ** UTF-8 ([std::fs::read_to_string]) *)

Definition is_cont (b : N) : bool := bool_decide (128 ≤ b < 192).

Definition in_bytes (lo hi b : N) : bool := bool_decide (lo ≤ b ≤ hi).

Fixpoint is_utf8 (bs : list N) : bool :=
  match bs with
  | [] => true
  | b :: bs =>
      if bool_decide (b < 128) then is_utf8 bs else
      match bs with
      | [] => false
      | c1 :: bs1 =>
          if in_bytes 194 223 b then is_cont c1 && is_utf8 bs1 else
          match bs1 with
          | [] => false
          | c2 :: bs2 =>
              if in_bytes 224 239 b then
                (if bool_decide (b = 224) then in_bytes 160 191 c1
                 else if bool_decide (b = 237) then in_bytes 128 159 c1 else is_cont c1)
                && is_cont c2 && is_utf8 bs2
              else
              match bs2 with
              | [] => false
              | c3 :: bs3 =>
                  in_bytes 240 244 b &&
                  (if bool_decide (b = 240) then in_bytes 144 191 c1
                   else if bool_decide (b = 244) then in_bytes 128 143 c1 else is_cont c1)
                  && is_cont c2 && is_cont c3 && is_utf8 bs3
              end
          end
      end
  end.

Definition read_to_string {X} (p : Path) : IO X (list N) :=
  syscall Io (λ fs, data ← ok_or enoent (fs_files fs !! p);
                    if is_utf8 data then Ok (fs, data)
                    else Err "stream did not contain valid UTF-8") no_tear.

(** ** Paths *)

Definition STAGED_DIR : string := "staged".

Definition COMMITTED_DIR : string := "committed".

Definition META_SUFFIX : string := ".meta".

(** [serde_json] on [ExtentMeta]. *)
Class MetaCodec := {
  meta_to_json : ExtentMeta → list N;
  meta_from_json : list N → result string ExtentMeta;
  meta_round_trip : ∀ m, meta_from_json (meta_to_json m) = Ok m;
  meta_utf8 : ∀ m, is_utf8 (meta_to_json m) = true;
}.

Section paths.
Context `{!UuidDisplay}.
Implicit Types mount_path : Path.

Definition committed_extent_path mount_path (x : ExtentId) (version : N) : Path :=
  let id_str := to_string x in
  let prefix := String.substring 0 8 id_str in
  mount_path ++ [COMMITTED_DIR; prefix; id_str +:+ "_v" +:+ to_string version].

Definition staged_extent_path mount_path (x : ExtentId) (version : N) : Path :=
  let id_str := to_string x in
  mount_path ++ [STAGED_DIR; id_str +:+ "_v" +:+ to_string version +:+ ".staging"].

Definition extent_meta_path mount_path (x : ExtentId) (version : N) : Path :=
  path_add_suffix (committed_extent_path mount_path x version) META_SUFFIX.

End paths.

(** ** The store of one disk *)

Record ExtentStore := MkStore { es_mount_path : Path; es_disk_id : DiskId }.

Record RecoveryReport := MkRecoveryReport {
  rp_committed_recovered : nat;
  rp_staged_discarded : nat;
  rp_errors : nat;
}.

Definition RecoveryReport_default : RecoveryReport := MkRecoveryReport 0 0 0.

Section store.
Context `{!UuidDisplay} `{!Blake3} `{!MetaCodec} {X : Type}.
Implicit Types st : ExtentStore.

Definition init_directories st : IO X unit :=
  _ ← create_dir_all (es_mount_path st ++ [STAGED_DIR]);
  create_dir_all (es_mount_path st ++ [COMMITTED_DIR]).

Definition staging_failed (what : string) (p : Path) (e : string) : StorageError :=
  StagingError (what +:+ " " +:+ path_display p +:+ ": " +:+ e).

Definition stage_extent st (x : ExtentId) (version : N) (data : list N) : IO X (Path * string) :=
  let staged_path := staged_extent_path (es_mount_path st) x version in
  _ ← create_dir_all (path_parent staged_path);
  let checksum := compute_checksum data in
  _ ← file_create (staging_failed "failed to create staging file" staged_path) staged_path;
  _ ← write_all (staging_failed "failed to write staging file" staged_path) staged_path data;
  _ ← sync_all (staging_failed "fsync failed for staging file" staged_path) staged_path;
  mret (staged_path, checksum).

Definition sync_parent_dir (path : Path) : IO X unit :=
  let parent := path_parent path in
  _ ← open_dir (λ e, StagingError ("failed to open parent dir " +:+ path_display parent +:+ " for sync: " +:+ e)) parent;
  sync_dir (staging_failed "failed to sync parent dir" parent) parent.

(** [now_secs] is the clock's value for [committed_at]. *)
Definition commit_extent st (now_secs : N) (x : ExtentId) (version : N) (checksum : string) (size : N)
    (storage_class : StorageClass) : IO X LocalExtentEntry :=
  let staged_path := staged_extent_path (es_mount_path st) x version in
  let committed_path := committed_extent_path (es_mount_path st) x version in
  staged ← path_exists staged_path;
  if negb staged then io_throw (StagingError ("staged file not found: " +:+ path_display staged_path)) else
  _ ← create_dir_all (path_parent committed_path);
  let meta := MkExtentMeta x (es_disk_id st) version checksum size storage_class now_secs in
  let meta_path := extent_meta_path (es_mount_path st) x version in
  let meta_json := meta_to_json meta in
  _ ← file_create (staging_failed "failed to create metadata file" meta_path) meta_path;
  _ ← write_all (staging_failed "failed to write metadata file" meta_path) meta_path meta_json;
  _ ← sync_all (staging_failed "fsync failed for metadata file" meta_path) meta_path;
  _ ← rename (λ e, StagingError ("atomic rename failed " +:+ path_display staged_path +:+ " → "
                +:+ path_display committed_path +:+ ": " +:+ e)) staged_path committed_path;
  _ ← sync_parent_dir committed_path;
  mret (MkEntry x (es_disk_id st) committed_path version checksum size storage_class).

Definition read_extent st (x : ExtentId) (version : N) : IO X (list N * string) :=
  let path := committed_extent_path (es_mount_path st) x version in
  found ← path_exists path;
  if negb found then io_throw (ExtentNotFound ("committed extent not found: " +:+ path_display path)) else
  data ← read_file path;
  let checksum := compute_checksum data in
  let meta_path := extent_meta_path (es_mount_path st) x version in
  has_meta ← path_exists meta_path;
  if has_meta : bool then
    meta_json ← read_to_string meta_path;
    match meta_from_json meta_json with
    | Ok meta =>
        if decide (em_checksum meta = checksum) then mret (data, checksum)
        else io_throw (ChecksumMismatch ("extent " +:+ to_string x +:+ " v" +:+ to_string version
               +:+ ": expected " +:+ em_checksum meta +:+ ", got " +:+ checksum))
    | Err _ => mret (data, checksum)
    end
  else mret (data, checksum).

Definition extent_exists st (x : ExtentId) (version : N) : IO X bool :=
  path_exists (committed_extent_path (es_mount_path st) x version).

Definition recover_extent_from_file (path : Path) : IO X LocalExtentEntry :=
  let meta_path := path_add_suffix path META_SUFFIX in
  found ← path_exists meta_path;
  if negb found then io_throw (ExtentNotFound ("metadata file missing for " +:+ path_display path)) else
  meta_json ← read_to_string meta_path;
  match meta_from_json meta_json with
  | Err e => io_throw (ExtentNotFound ("corrupt metadata at " +:+ path_display meta_path +:+ ": " +:+ e))
  | Ok meta =>
      mret (MkEntry (em_extent_id meta) (em_disk_id meta) path (em_version meta) (em_checksum meta)
              (em_size meta) (em_storage_class meta))
  end.

End store.

(** Clean-up of old staged files; [age] is a staged file's age in seconds, where
    the file system tells it. *)
Section cleanup.
Context `{!ReadDirOrder} {X : Type} (age : Path → option N) (retention_secs : N).

Fixpoint cleanup_files (paths : list Path) : IO X (list Path) :=
  match paths with
  | [] => mret []
  | path :: paths =>
      is_file ← path_exists path;
      let old := match age path with Some a => bool_decide (retention_secs ≤ a) | None => false end in
      if is_file && old then
        r ← io_try (remove_file path);
        cleaned ← cleanup_files paths;
        mret (if is_ok r then path :: cleaned else cleaned)
      else cleanup_files paths
  end.

Definition cleanup_orphaned_staged (st : ExtentStore) : IO X (list Path) :=
  let staged_dir := es_mount_path st ++ [STAGED_DIR] in
  exists_ ← io_look (λ files, is_dir files staged_dir);
  if negb exists_ then mret [] else
  paths ← read_dir staged_dir;
  cleanup_files paths.

End cleanup.

(** Recovery fills the index and its report, which are the state of the run. *)
Section recover.
Context `{!UuidDisplay} `{!MetaCodec} `{!ReadDirOrder}.

Abbreviation Recovery := (IO (ExtentIndex * RecoveryReport)) (only parsing).

Definition count_recovered (r : RecoveryReport) : RecoveryReport :=
  MkRecoveryReport (S (rp_committed_recovered r)) (rp_staged_discarded r) (rp_errors r).

Definition count_discarded (r : RecoveryReport) : RecoveryReport :=
  MkRecoveryReport (rp_committed_recovered r) (S (rp_staged_discarded r)) (rp_errors r).

Definition count_error (r : RecoveryReport) : RecoveryReport :=
  MkRecoveryReport (rp_committed_recovered r) (rp_staged_discarded r) (S (rp_errors r)).

(** One file of a committed directory. *)
Definition scan_file (path : Path) : Recovery unit :=
  r ← io_try (recover_extent_from_file path);
  match r with
  | Ok entry => io_modify (λ s, (index_insert entry s.1, count_recovered s.2))
  | Err _ => io_modify (λ s, (s.1, count_error s.2))
  end.

Section entries.
Context (scan_dir : Path → Recovery unit).

Fixpoint scan_entries (paths : list Path) : Recovery unit :=
  match paths with
  | [] => mret tt
  | path :: paths =>
      dir ← io_look (λ files, is_dir files path);
      is_file ← path_exists path;
      _ ← (if dir : bool then scan_dir path
           else if decide (path_extension path = Some "meta") then mret tt
           else if negb is_file then mret tt
           else scan_file path);
      scan_entries paths
  end.

End entries.

(** The recursion into subdirectories; [depth] bounds the length of the paths below. *)
Fixpoint scan_committed_dir (depth : nat) (dir : Path) : Recovery unit :=
  match depth with
  | O => mret tt
  | S depth =>
      paths ← read_dir dir;
      scan_entries (scan_committed_dir depth) paths
  end.

Fixpoint discard_staged (paths : list Path) : Recovery unit :=
  match paths with
  | [] => mret tt
  | path :: paths =>
      is_file ← path_exists path;
      (if is_file : bool then
         r ← io_try (remove_file path);
         _ ← (if is_ok r then io_modify (λ s, (s.1, count_discarded s.2)) else mret tt);
         discard_staged paths
       else discard_staged paths)
  end.

(** The longest path, which bounds the depth of the directory tree. *)
Definition tree_depth (files : gmap Path (list N)) : nat :=
  foldr (λ p n, Nat.max (length p) n) O (map_to_list files).*1.

Definition recover_store (st : ExtentStore) : Recovery unit :=
  _ ← init_directories st;
  let committed_dir := es_mount_path st ++ [COMMITTED_DIR] in
  depth ← io_look tree_depth;
  _ ← scan_committed_dir (S depth) committed_dir;
  let staged_dir := es_mount_path st ++ [STAGED_DIR] in
  paths ← read_dir staged_dir;
  discard_staged paths.

(** [recover]: the report starts empty. *)
Definition recover (st : ExtentStore) (w : World ExtentIndex)
    : World ExtentIndex * outcome RecoveryReport :=
  match recover_store st (MkWorld (w_fs w) (w_events w) (w_state w, RecoveryReport_default)) with
  | (w', Done (Ok _)) => (MkWorld (w_fs w') (w_events w') (w_state w').1, Done (Ok (w_state w').2))
  | (w', Done (Err e)) => (MkWorld (w_fs w') (w_events w') (w_state w').1, Done (Err e))
  | (w', Crashed) => (MkWorld (w_fs w') (w_events w') (w_state w').1, Crashed)
  end.

End recover.

(** ** Lemmas on paths *)

Lemma rsplit_once_meta n : rsplit_once "." (n +:+ META_SUFFIX) = Some (n, "meta").
Proof. by apply rsplit_once_app. Qed.

Lemma path_add_suffix_snoc l n suffix : path_add_suffix (l ++ [n]) suffix = l ++ [n +:+ suffix].
Proof. unfold path_add_suffix. by rewrite last_snoc, removelast_last. Qed.

Lemma path_parent_snoc l n : path_parent (l ++ [n]) = l.
Proof. apply removelast_last. Qed.

Section path_lemmas.
Context `{!UuidDisplay}.
Implicit Types (mount : Path) (x : ExtentId) (v : N).

(** The file name of an extent version. *)
Definition extent_name x v : string := to_string x +:+ "_v" +:+ to_string v.

(** Its directory. *)
Definition extent_dir mount x : Path := mount ++ [COMMITTED_DIR; String.substring 0 8 (to_string x)].

Lemma committed_path_eq mount x v :
  committed_extent_path mount x v = extent_dir mount x ++ [extent_name x v].
Proof. unfold extent_dir. by rewrite <- app_assoc. Qed.

Lemma meta_path_eq mount x v :
  extent_meta_path mount x v = extent_dir mount x ++ [extent_name x v +:+ META_SUFFIX].
Proof. unfold extent_meta_path. by rewrite committed_path_eq, path_add_suffix_snoc. Qed.

Lemma extent_name_inj x v x' v' : extent_name x v = extent_name x' v' → x = x' ∧ v = v'.
Proof.
  assert (∀ y u, rsplit_once "_" (extent_name y u) = Some (to_string y, "v" +:+ to_string u)) as Hs.
  { intros y u. unfold extent_name. apply rsplit_once_app.
    apply (rsplit_once_None _ (λ a, bool_decide (a = "v"%char) || is_digit a)); [|done].
    cbn. unfold to_string, u64_display. generalize (u64_to_string_digits u).
    induction (u64_to_string u) as [|a s IH]; simpl; [done|].
    intros [-> Hs]%andb_true_iff. rewrite orb_true_r. by apply IH. }
  intros Heq. pose proof (Hs x v) as H1. rewrite Heq, Hs in H1. injection H1 as Hx Hv. split.
  - destruct x as [u], x' as [u']. f_equal. apply (f_equal uuid_parse) in Hx.
    unfold to_string, ExtentId_display in Hx. rewrite !uuid_parse_to_string in Hx. by injection Hx.
  - change (to_string v' = to_string v) in Hv. apply (f_equal u64_of_string) in Hv. unfold to_string, u64_display in Hv.
    rewrite !u64_of_to_string in Hv. congruence.
Qed.

(** No extent file is another's metadata file. *)
Lemma extent_name_not_meta x v s : extent_name x v ≠ s +:+ META_SUFFIX.
Proof.
  intros Heq%(f_equal last_char). unfold extent_name in Heq.
  rewrite (last_char_app s), string_app_assoc, last_char_app in Heq
    by (done || apply u64_to_string_nonempty).
  pose proof (last_char_all is_digit _ "a"%char (u64_to_string_digits v) Heq). done.
Qed.

Lemma extent_name_extension l x v : path_extension (l ++ [extent_name x v]) ≠ Some "meta".
Proof.
  unfold path_extension. rewrite last_snoc. simpl. intros Hext.
  assert (∀ c s a b, rsplit_once c s = Some (a, b) → s = a +:+ String c b) as Hsound.
  { clear. intros c s. induction s as [|d s IH]; simpl; intros a b; [done|].
    destruct (rsplit_once c s) as [[a' b']|]; [intros [= <- <-]; by rewrite (IH a' b')|].
    by case_decide; intros; simplify_eq. }
  destruct (rsplit_once "." (extent_name x v)) as [[[|a s] b]|] eqn:Hr; simplify_eq/=.
  apply Hsound in Hr. by apply (extent_name_not_meta x v (String a s)).
Qed.

Lemma meta_name_extension l n : n ≠ EmptyString → path_extension (l ++ [n +:+ META_SUFFIX]) = Some "meta".
Proof.
  intros Hn. unfold path_extension. rewrite last_snoc. simpl.
  rewrite rsplit_once_meta. by destruct n.
Qed.

Lemma committed_path_inj mount x v x' v' :
  committed_extent_path mount x v = committed_extent_path mount x' v' → x = x' ∧ v = v'.
Proof. rewrite !committed_path_eq. intros [_ ?]%app_inj_tail. by apply extent_name_inj. Qed.

Lemma meta_path_inj mount x v x' v' :
  extent_meta_path mount x v = extent_meta_path mount x' v' → x = x' ∧ v = v'.
Proof.
  rewrite !meta_path_eq. intros [_ Hn]%app_inj_tail.
  apply (f_equal (rsplit_once ".")) in Hn. rewrite !rsplit_once_meta in Hn.
  apply extent_name_inj. congruence.
Qed.

Lemma committed_not_meta mount x v x' v' :
  committed_extent_path mount x v ≠ extent_meta_path mount x' v'.
Proof. rewrite committed_path_eq, meta_path_eq. intros [_ ?%extent_name_not_meta]%app_inj_tail; done. Qed.

Lemma staged_not_in_dir mount x v x' n : staged_extent_path mount x v ≠ extent_dir mount x' ++ [n].
Proof. unfold staged_extent_path, extent_dir. rewrite <- app_assoc. intros Heq%app_inv_head. done. Qed.

Lemma staged_not_committed mount x v x' v' :
  staged_extent_path mount x v ≠ committed_extent_path mount x' v'.
Proof. rewrite committed_path_eq. apply staged_not_in_dir. Qed.

Lemma staged_not_meta mount x v x' v' : staged_extent_path mount x v ≠ extent_meta_path mount x' v'.
Proof. rewrite meta_path_eq. apply staged_not_in_dir. Qed.

End path_lemmas.

#[export] Hint Resolve committed_not_meta staged_not_committed staged_not_meta : fs.
#[export] Hint Resolve not_eq_sym : fs.

(** ** Lemmas on the store *)

Section store_lemmas.
Context `{!UuidDisplay} `{!Blake3} `{!MetaCodec} {X : Type}.
Implicit Types (st : ExtentStore) (x : ExtentId) (v : N) (p : Path).

(** A fact that survives every change of the files of an extent survives storing it. *)
Lemma stage_preserves I st x v data :
  let staged := staged_extent_path (es_mount_path st) x v in
  (∀ d fs, I fs → I (fs_write staged d fs)) → (∀ fs, I fs → I (fs_sync staged fs)) →
  preserves I (stage_extent (X:=X) st x v data).
Proof.
  intros staged Hw Hs. unfold stage_extent. solve_preserves; unfold fs_append; auto.
Qed.

Lemma commit_preserves I st now x v sum size cls :
  let staged := staged_extent_path (es_mount_path st) x v in
  let committed := committed_extent_path (es_mount_path st) x v in
  let meta := extent_meta_path (es_mount_path st) x v in
  (∀ d fs, I fs → I (fs_write meta d fs)) → (∀ fs, I fs → I (fs_sync meta fs)) →
  (∀ d fs, I fs → I (fs_rename staged committed d fs)) →
  (∀ fs, I fs → I (fs_sync_dir (path_parent committed) fs)) →
  preserves I (commit_extent (X:=X) st now x v sum size cls).
Proof.
  intros staged committed meta Hw Hs Hr Hd. unfold commit_extent.
  apply preserves_bind; [apply preserves_look|intros []]; simpl; [|apply preserves_throw].
  unfold sync_parent_dir. solve_preserves; unfold fs_append; auto.
  destruct (fs_files _ !! _); simplify_eq/=. auto.
Qed.

Lemma stage_keeps st x v data p :
  p ≠ staged_extent_path (es_mount_path st) x v → keeps p (stage_extent (X:=X) st x v data).
Proof. intros Hp c. apply stage_preserves; eauto with fs. Qed.

Lemma commit_keeps st now x v sum size cls p :
  p ≠ staged_extent_path (es_mount_path st) x v →
  p ≠ committed_extent_path (es_mount_path st) x v →
  p ≠ extent_meta_path (es_mount_path st) x v →
  keeps p (commit_extent (X:=X) st now x v sum size cls).
Proof. intros Hs Hc Hm c. apply commit_preserves; eauto with fs. Qed.

Lemma stage_settles st x v data :
  let staged := staged_extent_path (es_mount_path st) x v in
  triple (λ _, True) (stage_extent (X:=X) st x v data)
    (λ r fs, r = (staged, compute_checksum data) ∧ settled staged (Some data) fs) (λ _, True).
Proof.
  intros staged. unfold stage_extent. fold staged.
  eapply triple_bind; [by apply (triple_syscall _ _ _ _ (λ _ _, True))|intros []].
  eapply (triple_bind _ _ _ _ (λ _ fs, fs_files fs !! staged = Some [])).
  { apply triple_syscall; [done..|]. intros fs fs' [] _ [= <-]. apply lookup_insert_eq. }
  intros []. eapply (triple_bind _ _ _ _ (λ _ fs, fs_files fs !! staged = Some data)).
  { apply triple_syscall; [done..|]. intros fs fs' [] Hf [= <-]. simpl. rewrite lookup_insert_eq. by rewrite Hf. }
  intros []. eapply (triple_bind _ _ _ _ (λ _ fs, settled staged (Some data) fs)).
  { apply triple_syscall; [done..|]. intros fs fs' [] Hf [= <-]. by apply settled_after_sync. }
  intros []. by apply triple_ret.
Qed.

(** The metadata that [commit_extent] writes. *)
Definition committed_meta st now x v sum size cls : ExtentMeta :=
  MkExtentMeta x (es_disk_id st) v sum size cls now.

(** The extent is committed, durably or not yet, and its metadata is durable. *)
Definition promoted st x v data json (fs : FS) : Prop :=
  let committed := committed_extent_path (es_mount_path st) x v in
  committed ∉ fs_dirty fs ∧ fs_files fs !! committed = Some data ∧ fs_durable fs !! committed = None ∧
  settled (extent_meta_path (es_mount_path st) x v) (Some json) fs.

Lemma sync_parent_dir_promotes st x v data json :
  let committed := committed_extent_path (es_mount_path st) x v in
  triple (promoted st x v data json) (sync_parent_dir (X:=X) committed)
    (λ _ fs, settled committed (Some data) fs ∧
       settled (extent_meta_path (es_mount_path st) x v) (Some json) fs)
    (promoted st x v data json).
Proof.
  intros committed. unfold sync_parent_dir.
  eapply (triple_bind _ _ _ _ (λ _, promoted st x v data json)).
  { apply triple_syscall; [done..|]. by intros fs fs' [] ? [= <-]. }
  intros []. apply triple_syscall; [done..|]. intros fs fs' [] (Hcl & Hf & _ & Hm) [= <-].
  split; [|by apply settled_sync_dir]. apply settled_after_sync_dir; [|done..].
  unfold committed. rewrite committed_path_eq. by destruct (extent_dir _ _).
Qed.

Lemma commit_settles st now x v sum size cls data :
  let staged := staged_extent_path (es_mount_path st) x v in
  let committed := committed_extent_path (es_mount_path st) x v in
  let meta := extent_meta_path (es_mount_path st) x v in
  let json := meta_to_json (committed_meta st now x v sum size cls) in
  triple (λ fs, settled staged (Some data) fs ∧ settled committed None fs)
    (commit_extent (X:=X) st now x v sum size cls)
    (λ r fs, r = MkEntry x (es_disk_id st) committed v sum size cls ∧
       settled committed (Some data) fs ∧ settled meta (Some json) fs)
    (λ fs, settled committed None fs ∨ promoted st x v data json fs).
Proof.
  intros staged committed meta json.
  set (P := λ fs, settled staged (Some data) fs ∧ settled committed None fs).
  assert (∀ fs, P fs → settled committed None fs ∨ promoted st x v data json fs) as HPR
    by (intros fs [_ Hc]; by left).
  unfold commit_extent. fold staged committed meta.
  eapply (triple_bind _ _ _ _ (λ b fs, b = true ∧ P fs)).
  { apply triple_look. intros fs [Hs Hc]. split; [|by split]. by rewrite (settled_files _ _ _ Hs). }
  intros b. apply triple_pure. intros ->. simpl.
  eapply (triple_bind _ _ _ _ (λ _, P)).
  { apply triple_syscall; [auto|unfold no_tear; auto|]. by intros fs fs' [] ? [= <-]. }
  intros []. eapply (triple_bind _ _ _ _ (λ _ fs, P fs ∧ fs_files fs !! meta = Some [])).
  { apply triple_syscall; [auto|unfold no_tear; auto|]. intros fs fs' [] [Hs Hc] [= <-].
    split; [split; apply settled_write; eauto with fs|apply lookup_insert_eq]. }
  intros []. eapply (triple_bind _ _ _ _ (λ _ fs, P fs ∧ fs_files fs !! meta = Some json)).
  { apply triple_syscall; [naive_solver| |].
    - intros n fs [[Hs Hc] _]. left. apply settled_append; eauto with fs.
    - intros fs fs' [] [[Hs Hc] Hf] [= <-]. split; [split; apply settled_append; eauto with fs|].
      simpl. rewrite lookup_insert_eq. by rewrite Hf. }
  intros []. eapply (triple_bind _ _ _ _ (λ _ fs, P fs ∧ settled meta (Some json) fs)).
  { apply triple_syscall; [naive_solver|unfold no_tear; naive_solver|].
    intros fs fs' [] [[Hs Hc] Hf] [= <-].
    split; [split; apply settled_sync; eauto with fs|by apply settled_after_sync]. }
  intros []. eapply (triple_bind _ _ _ _ (λ _, promoted st x v data json)).
  { apply triple_syscall; [naive_solver|unfold no_tear; naive_solver|].
    intros fs fs' [] [[Hs Hc] Hm] Hrun. rewrite (settled_files _ _ _ Hs) in Hrun. injection Hrun as <-.
    unfold promoted. fold committed meta. simpl. split_and!.
    - rewrite decide_False by apply Hs. apply Hc.
    - apply lookup_insert_eq.
    - apply Hc.
    - apply settled_rename; eauto with fs. }
  intros []. eapply triple_bind.
  { eapply triple_conseq; [apply sync_parent_dir_promotes|done..|]. by right. }
  intros []. by apply triple_ret.
Qed.

End store_lemmas.

(** What [read_extent] answers on given files when no call fails. *)
Section read_lemmas.
Context `{!UuidDisplay} `{!Blake3} `{!MetaCodec} {X : Type}.
Implicit Types (st : ExtentStore) (x : ExtentId) (v : N).

Lemma read_extent_found st x v fs (s : X) data json m :
  fs_files fs !! committed_extent_path (es_mount_path st) x v = Some data →
  fs_files fs !! extent_meta_path (es_mount_path st) x v = Some json →
  is_utf8 json = true → meta_from_json json = Ok m → em_checksum m = compute_checksum data →
  (read_extent st x v (MkWorld fs [] s)).2 = Done (Ok (data, compute_checksum data)).
Proof.
  intros Hc Hm Hu Hj Hs. unfold read_extent, mbind, io_mbind. simpl. rewrite Hc. simpl.
  rewrite Hc. simpl. rewrite Hm. simpl. rewrite Hm. simpl. rewrite Hu. simpl.
  by rewrite Hj, decide_True.
Qed.

Lemma read_extent_missing st x v fs (s : X) :
  fs_files fs !! committed_extent_path (es_mount_path st) x v = None →
  ∃ msg, (read_extent st x v (MkWorld fs [] s)).2 = Done (Err (ExtentNotFound msg)).
Proof. intros Hc. unfold read_extent, mbind, io_mbind. simpl. rewrite Hc. simpl. eauto. Qed.

(** The answer depends on the two files of the extent only. *)
Lemma read_extent_agree st x v fs fs' (s : X) :
  fs_files fs' !! committed_extent_path (es_mount_path st) x v =
    fs_files fs !! committed_extent_path (es_mount_path st) x v →
  fs_files fs' !! extent_meta_path (es_mount_path st) x v =
    fs_files fs !! extent_meta_path (es_mount_path st) x v →
  (read_extent st x v (MkWorld fs' [] s)).2 = (read_extent st x v (MkWorld fs [] s)).2.
Proof.
  intros Hc Hm. unfold read_extent, mbind, io_mbind. simpl. rewrite Hc.
  destruct (fs_files fs !! committed_extent_path _ x v) as [data|] eqn:E; simpl; [|done].
  rewrite Hc, E. simpl. rewrite Hm.
  destruct (fs_files fs !! extent_meta_path _ x v) as [json|] eqn:E'; simpl; [|done].
  rewrite Hm, E'. simpl. destruct (is_utf8 json); simpl; [|done].
  destruct (meta_from_json json) as [m|]; [|done]. by case_decide.
Qed.

(** A settled extent reads the same in every later state. *)
Lemma read_extent_settled st x v c m fs fs' (s : X) :
  settled (committed_extent_path (es_mount_path st) x v) c fs →
  settled (extent_meta_path (es_mount_path st) x v) m fs →
  settled (committed_extent_path (es_mount_path st) x v) c fs' →
  settled (extent_meta_path (es_mount_path st) x v) m fs' →
  (read_extent st x v (MkWorld fs' [] s)).2 = (read_extent st x v (MkWorld fs [] s)).2.
Proof.
  intros Hc Hm Hc' Hm'. apply read_extent_agree.
  - by rewrite (settled_files _ _ _ Hc), (settled_files _ _ _ Hc').
  - by rewrite (settled_files _ _ _ Hm), (settled_files _ _ _ Hm').
Qed.

(** Staging followed by the commit, as in the write handler. *)
Definition store_extent st (now : N) (x : ExtentId) (version : N) (data : list N) (cls : StorageClass)
    : IO X LocalExtentEntry :=
  r ← stage_extent st x version data;
  commit_extent st now x version r.2 (N.of_nat (length data)) cls.

Lemma store_extent_triple st now x v data cls :
  let committed := committed_extent_path (es_mount_path st) x v in
  let sum := compute_checksum data in
  let json := meta_to_json (committed_meta st now x v sum (N.of_nat (length data)) cls) in
  triple (settled committed None) (store_extent st now x v data cls)
    (λ r fs, r = MkEntry x (es_disk_id st) committed v sum (N.of_nat (length data)) cls ∧
       settled committed (Some data) fs ∧ settled (extent_meta_path (es_mount_path st) x v) (Some json) fs)
    (λ fs, settled committed None fs ∨ promoted st x v data json fs).
Proof.
  intros committed sum json. set (staged := staged_extent_path (es_mount_path st) x v). eapply triple_bind.
  - eapply triple_conseq.
    + apply triple_and; [apply stage_settles|apply (stage_keeps st x v data committed); eauto with fs].
    + intros fs Hc. split; [done|exact Hc].
    + intros r fs Hr. exact Hr.
    + intros fs [_ Hc]. by left.
  - intros r. apply (triple_pre _ (λ fs, r = (staged, sum) ∧ settled staged (Some data) fs ∧
                                      settled committed None fs)).
    + apply triple_pure. intros ->. apply commit_settles.
    + intros fs [[Hr Hs] Hc]. done.
Qed.

Lemma store_extent_keeps st now x v data cls x' v' :
  (x', v') ≠ (x, v) →
  keeps (committed_extent_path (es_mount_path st) x' v') (store_extent st now x v data cls) ∧
  keeps (extent_meta_path (es_mount_path st) x' v') (store_extent st now x v data cls).
Proof.
  intros Hne. split; intros c; (apply preserves_bind; [apply stage_keeps|intros r; apply commit_keeps]); eauto with fs.
  - intros [-> ->]%committed_path_inj. done.
  - intros [-> ->]%meta_path_inj. done.
Qed.

(** Whatever fails, a read changes no file, and an answer is the committed file. *)
Lemma read_extent_sound st x v fs0 :
  triple (λ fs, fs = fs0) (read_extent (X:=X) st x v)
    (λ r fs, fs = fs0 ∧ r.2 = compute_checksum r.1 ∧
       holds (committed_extent_path (es_mount_path st) x v) (Some r.1) fs0)
    (λ fs, fs = fs0).
Proof.
  unfold read_extent. eapply (triple_bind _ _ _ _ (λ _ fs, fs = fs0)); [by apply triple_look|intros []; simpl; [|by apply triple_throw]].
  eapply (triple_bind _ _ _ _ (λ data fs, fs = fs0 ∧ holds (committed_extent_path (es_mount_path st) x v) (Some data) fs0)).
  { apply triple_syscall; [done..|]. intros fs fs' data -> Hrun.
    destruct (fs_files fs0 !! _) as [d|] eqn:Hd; simplify_eq/=. by split. }
  intros data. set (P := λ fs, fs = fs0 ∧ holds _ _ fs0).
  eapply (triple_bind _ _ _ _ (λ _, P)); [apply triple_look; done|intros [|]; [|apply triple_ret; by intros fs []]].
  eapply (triple_bind _ _ _ _ (λ _, P)).
  - apply triple_syscall; [by intros fs []|by intros n fs []|]. intros fs fs' json HP Hrun.
    destruct (fs_files fs !! _) as [d|]; simplify_eq/=. by destruct (is_utf8 d); simplify_eq/=.
  - intros json. destruct (meta_from_json json) as [m|]; [case_decide|].
    + apply triple_ret. by intros fs [].
    + apply triple_throw. by intros fs [].
    + apply triple_ret. by intros fs [].
Qed.

(** *** Storing over whatever was there *)

Lemma stage_keeps_file st x v data p :
  p ≠ staged_extent_path (es_mount_path st) x v → keeps_file p (stage_extent (X:=X) st x v data).
Proof. intros Hp c. apply stage_preserves; eauto with fs. Qed.

Lemma commit_keeps_file st now x v sum size cls p :
  p ≠ staged_extent_path (es_mount_path st) x v →
  p ≠ committed_extent_path (es_mount_path st) x v →
  p ≠ extent_meta_path (es_mount_path st) x v →
  keeps_file p (commit_extent (X:=X) st now x v sum size cls).
Proof. intros Hs Hc Hm c. apply commit_preserves; eauto with fs. Qed.

Lemma commit_replaces st now x v sum size cls data c :
  let staged := staged_extent_path (es_mount_path st) x v in
  let committed := committed_extent_path (es_mount_path st) x v in
  let meta := extent_meta_path (es_mount_path st) x v in
  let json := meta_to_json (committed_meta st now x v sum size cls) in
  triple (λ fs, holds staged (Some data) fs ∧ holds committed c fs)
    (commit_extent (X:=X) st now x v sum size cls)
    (λ r fs, r = MkEntry x (es_disk_id st) committed v sum size cls ∧
       holds committed (Some data) fs ∧ holds meta (Some json) fs)
    (λ fs, holds committed c fs ∨ holds committed (Some data) fs).
Proof.
  intros staged committed meta json. set (P := λ fs, holds staged (Some data) fs ∧ holds committed c fs).
  set (R := λ fs, holds committed c fs ∨ holds committed (Some data) fs).
  assert (∀ fs, P fs → R fs) as HPR by (intros fs [_ Hc]; by left).
  assert (∀ d fs, P fs → P (fs_write meta d fs)) as Hmeta
    by (intros d fs [Hs Hc]; split; apply holds_write; unfold meta; eauto with fs).
  unfold commit_extent. fold staged committed meta.
  eapply (triple_bind _ _ _ _ (λ b fs, b = true ∧ P fs)).
  { apply triple_look. intros fs [Hs Hc]. split; [|by split]. by rewrite Hs. }
  intros b. apply triple_pure. intros ->. simpl.
  eapply (triple_bind _ _ _ _ (λ _, P)).
  { apply triple_syscall; [auto..|]. by intros fs fs' [] ? [= <-]. }
  intros []. eapply (triple_bind _ _ _ _ (λ _ fs, P fs ∧ holds meta (Some []) fs)).
  { apply triple_syscall; [auto..|]. intros fs fs' [] HP [= <-]. split; [auto|apply lookup_insert_eq]. }
  intros []. eapply (triple_bind _ _ _ _ (λ _ fs, P fs ∧ holds meta (Some json) fs)).
  { apply triple_syscall; [naive_solver| |].
    - intros n fs [HP _]. apply HPR. unfold fs_append. auto.
    - intros fs fs' [] [HP Hf] [= <-]. split; [unfold fs_append; auto|].
      unfold holds, fs_append in *. simpl. rewrite lookup_insert_eq. by rewrite Hf. }
  intros []. eapply (triple_bind _ _ _ _ (λ _ fs, P fs ∧ holds meta (Some json) fs)).
  { apply triple_syscall; [naive_solver|naive_solver|]. by intros fs fs' [] ? [= <-]. }
  set (Q := λ fs, holds committed (Some data) fs ∧ holds meta (Some json) fs).
  intros []. eapply (triple_bind _ _ _ _ (λ _, Q)).
  { apply triple_syscall; [naive_solver|naive_solver|]. intros fs fs' [] [[Hs Hc] Hm] Hrun.
    rewrite Hs in Hrun. injection Hrun as <-. split; [apply lookup_insert_eq|].
    apply holds_rename; unfold meta; eauto with fs. }
  intros []. eapply (triple_bind _ _ _ _ (λ _, Q)).
  { apply (triple_conseq _ Q _ _ (λ _, Q) _ Q); [|done|done|intros fs []; by right].
    unfold sync_parent_dir. apply preserves_bind.
    - apply preserves_syscall; [by intros ? ? [] ? [= <-]|done].
    - intros []. apply preserves_syscall; [by intros ? ? [] ? [= <-]|done]. }
  intros []. by apply triple_ret.
Qed.

End read_lemmas.

(** The file system now, or after a crash and restart. *)
Definition later (fs fs' : FS) : Prop := fs' = fs ∨ crash_state fs fs'.

Lemma settled_later p c fs fs' : settled p c fs → later fs fs' → settled p c fs'.
Proof. intros Hs [->|Hcr]; [done|by eapply settled_crash]. Qed.

(** ** Theorems *)

Section store_theorems.
Context `{!UuidDisplay} `{!Blake3} `{!MetaCodec} {X : Type}.

Lemma promoted_later st now x v data size cls fs fs' :
  let json := meta_to_json (committed_meta st now x v (compute_checksum data) size cls) in
  promoted st x v data json fs → later fs fs' →
  let read := (read_extent st x v (MkWorld fs' [] tt)).2 in
  read = Done (Ok (data, compute_checksum data)) ∨ ∃ msg, read = Done (Err (ExtentNotFound msg)).
Proof.
  intros json (Hcl & Hf & Hd & Hm) Hl read.
  assert (settled (extent_meta_path (es_mount_path st) x v) (Some json) fs') as Hm' by by eapply settled_later.
  assert (fs_files fs' !! committed_extent_path (es_mount_path st) x v = Some data ∨
          fs_files fs' !! committed_extent_path (es_mount_path st) x v = None) as [Hc|Hc].
  { destruct Hl as [->|Hcr]; [by left|]. destruct (crash_files _ _ Hcr _ Hcl) as [->| ->]; auto. }
  - left. eapply read_extent_found; [done|by apply Hm'|apply meta_utf8|apply meta_round_trip|done].
  - right. by apply read_extent_missing.
Qed.

(** C7: Storing a new extent is atomic and durable: whatever calls fail, and
    wherever the machine stops, a later read (with or without a crash in between)
    returns exactly the data with its checksum or reports that the extent does
    not exist; if the store acknowledged the extent, the read returns the data;
    and every other extent version that was settled reads as before. *)
Theorem store_extent_crash_atomic st now x v data cls fs events (s : X) w' o :
  settled (committed_extent_path (es_mount_path st) x v) None fs →
  store_extent st now x v data cls (MkWorld fs events s) = (w', o) →
  ∀ fs', later (w_fs w') fs' →
  let read x v fs := (read_extent st x v (MkWorld fs [] tt)).2 in
  (read x v fs' = Done (Ok (data, compute_checksum data)) ∨
     ∃ msg, read x v fs' = Done (Err (ExtentNotFound msg))) ∧
  (∀ entry, o = Done (Ok entry) →
     le_checksum entry = compute_checksum data ∧ read x v fs' = Done (Ok (data, le_checksum entry))) ∧
  (∀ x' v' c m, (x', v') ≠ (x, v) → settled (committed_extent_path (es_mount_path st) x' v') c fs →
     settled (extent_meta_path (es_mount_path st) x' v') m fs → read x' v' fs' = read x' v' fs).
Proof.
  intros Hnew Hrun fs' Hl read.
  pose proof (store_extent_triple st now x v data cls (MkWorld fs events s) _ _ Hnew Hrun) as Hpost.
  assert (settled (committed_extent_path (es_mount_path st) x v) (Some data) (w_fs w') →
    ∀ json m, settled (extent_meta_path (es_mount_path st) x v) (Some json) (w_fs w') → is_utf8 json = true →
      meta_from_json json = Ok m → em_checksum m = compute_checksum data →
      read x v fs' = Done (Ok (data, compute_checksum data))) as Hdone.
  { intros Hc json m Hm ???. eapply read_extent_found; [|by eapply settled_files, settled_later|done..].
    by eapply settled_files, settled_later. }
  split_and!.
  - destruct o as [[entry|e]|].
    + left. destruct Hpost as (_ & Hc & Hm). eapply Hdone; [done..|apply meta_utf8|apply meta_round_trip|done].
    + destruct Hpost as [Hc|Hp]; [right|by eapply promoted_later].
      apply read_extent_missing. by eapply settled_files, settled_later.
    + destruct Hpost as [Hc|Hp]; [right|by eapply promoted_later].
      apply read_extent_missing. by eapply settled_files, settled_later.
  - intros entry ->. destruct Hpost as (-> & Hc & Hm). split; [done|]. simpl.
    eapply Hdone; [done..|apply meta_utf8|apply meta_round_trip|done].
  - intros x' v' c m Hne Hc Hm. destruct (store_extent_keeps (X:=X) st now x v data cls x' v' Hne) as [Kc Km].
    specialize (Kc c (MkWorld fs events s) _ _ Hc Hrun). specialize (Km m (MkWorld fs events s) _ _ Hm Hrun).
    eapply read_extent_settled; [done..| |]; (eapply settled_later; [|done]); by destruct o as [[]|].
Qed.

End store_theorems.

(** ** A concrete metadata codec *)

Module MetaDemo.

(** A number as its binary digits, least significant first. *)
Fixpoint bits (p : positive) : list N :=
  match p with xH => [49] | xO p => 48 :: bits p | xI p => 49 :: bits p end.

Fixpoint of_bits (bs : list N) : option positive :=
  match bs with
  | [] => None
  | b :: bs =>
      match bs with
      | [] => if decide (b = 49) then Some xH else None
      | _ => p ← of_bits bs; if decide (b = 48) then Some (xO p) else if decide (b = 49) then Some (xI p) else None
      end
  end.

Lemma of_bits_bits p : of_bits (bits p) = Some p.
Proof.
  induction p as [p IH|p IH|]; [..|done]; cbn [bits of_bits]; (destruct (bits p) eqn:E; [by destruct p|]);
    by rewrite IH.
Qed.

Lemma bits_utf8 p : is_utf8 (bits p) = true.
Proof. induction p; done. Qed.

Definition class_code (c : StorageClass) : N :=
  match c with Default => 0 | HighPerformance => 1 | Archive => 2 end.

Definition class_of_code (n : N) : StorageClass :=
  match n with 0 => Default | 1 => HighPerformance | _ => Archive end.

Definition meta_code (m : ExtentMeta) : N * N * N * string * N * N * N :=
  (ExtentId_as_uuid (em_extent_id m), DiskId_as_uuid (em_disk_id m), em_version m, em_checksum m, em_size m,
   class_code (em_storage_class m), em_committed_at m).

Definition meta_of_code (t : N * N * N * string * N * N * N) : ExtentMeta :=
  let '(x, d, v, sum, size, cls, at_) := t in
  MkExtentMeta (ExtentId_new x) (DiskId_new d) v sum size (class_of_code cls) at_.

Definition meta_parse (bs : list N) : result string ExtentMeta :=
  ok_or "invalid metadata" (p ← of_bits bs; meta_of_code <$> decode p).

Lemma meta_parse_code m : meta_parse (bits (encode (meta_code m))) = Ok m.
Proof.
  unfold meta_parse. rewrite of_bits_bits. simpl. rewrite decode_encode. by destruct m as [[] [] ? ? ? [] ?].
Qed.

#[export] Instance meta_bits : MetaCodec :=
  {| meta_to_json := λ m, bits (encode (meta_code m));
     meta_from_json := meta_parse;
     meta_round_trip := meta_parse_code;
     meta_utf8 := λ m, bits_utf8 _ |}.

End MetaDemo.

Module StoreDemo.
Export MetaDemo.

#[export] Existing Instance uuid_decimal.

#[export] Instance hash_toy : Blake3 := λ bs, take 4 (reverse bs).

Definition store : ExtentStore := MkStore ["mnt"; "d1"] (DiskId_new 1).

Definition extent : ExtentId := ExtentId_new 7.

Definition empty_fs : FS := MkFS ∅ ∅ ∅.

(** The extent with content [1; 2; 3], stored. *)
Definition stored_fs : FS := w_fs (store_extent store 100 extent 1 [1; 2; 3] Default (MkWorld empty_fs [] tt)).1.

(** The machine stops when [n] calls have succeeded. *)
Definition stops_after (n : nat) : list IoEvent := replicate n IoSuccess ++ [IoCrash].

End StoreDemo.
Import StoreDemo.

Lemma store_extent_crash_atomic_witness :
  let w' := (store_extent store 100 extent 1 [1; 2; 3] Default (MkWorld empty_fs (stops_after 9) tt)).1 in
  let read := (read_extent store extent 1 (MkWorld (w_fs w') [] tt)).2 in
  read = Done (Ok ([1; 2; 3], compute_checksum [1; 2; 3])) ∨ ∃ msg, read = Done (Err (ExtentNotFound msg)).
Proof.
  destruct (store_extent store 100 extent 1 [1; 2; 3] Default (MkWorld empty_fs (stops_after 9) tt))
    as [w' o] eqn:Hrun.
  apply (store_extent_crash_atomic store 100 extent 1 [1; 2; 3] Default empty_fs (stops_after 9) tt w' o);
    [split; [set_solver|done|done]|exact Hrun|by left].
Defined.

(** Overwriting an extent is not atomic: when the machine stops between the
    write of the new metadata and the rename, the old data is still in place and
    no longer matches the metadata, so the extent that was acknowledged cannot be
    read any more. *)
Theorem overwrite_crash_loses_extent :
  let read fs := (read_extent store extent 1 (MkWorld fs [] tt)).2 in
  let w' := (store_extent store 200 extent 1 [4; 5] Default (MkWorld stored_fs (stops_after 8) tt)).1 in
  read stored_fs = Done (Ok ([1; 2; 3], "030201")) ∧
  read (w_fs w') = Done (Err (ChecksumMismatch "extent 7 v1: expected 0504, got 030201")) ∧
  fs_dirty (w_fs w') = ∅.
Proof. vm_compute. auto. Qed.
