(* ===== verification/ExtentRecovery.v ===== *)
(** * Startup recovery of a disk (crates/blockyard-storage/src/extent.rs)

    What [recover] finds on the disk after a restart: the index is rebuilt from
    exactly the committed files that have metadata, staged files are discarded,
    and an extent that was acknowledged before the crash is served again. *)

From Stdlib Require Import Ascii.
From S2P Require Import Prelude Text Common Placement Checksum DiskInventory FileSystem ExtentStore.

#[local] Open Scope N_scope.

(** ** Directories *)

Lemma strip_prefix_Some dir p r : strip_prefix dir p = Some r ↔ p = dir ++ r.
Proof.
  revert p. induction dir as [|d dir IH]; intros p; simpl; [naive_solver|].
  destruct p as [|n p]; [naive_solver|]. case_decide; [|naive_solver]. rewrite IH. naive_solver.
Qed.

Lemma dir_entry_Some dir p n : dir_entry dir p = Some n ↔ ∃ r, p = dir ++ n :: r.
Proof.
  unfold dir_entry. split.
  - intros (r & Hr & Hn)%bind_Some. apply strip_prefix_Some in Hr as ->. destruct r; simplify_eq/=. eauto.
  - intros [r ->]. by rewrite (proj2 (strip_prefix_Some dir (dir ++ n :: r) (n :: r)) eq_refl).
Qed.

(** [p] is a file somewhere below [dir]. *)
Definition under (dir p : Path) : Prop := ∃ n r, p = dir ++ n :: r.

Lemma elem_of_dom_list (files : gmap Path (list N)) p : p ∈ (map_to_list files).*1 ↔ is_Some (files !! p).
Proof.
  rewrite list_elem_of_fmap. split.
  - intros ([q c] & -> & Hq%elem_of_map_to_list). by exists c.
  - intros [c Hc]. exists (p, c). by rewrite elem_of_map_to_list.
Qed.

Lemma is_dir_true files dir : is_dir files dir = true ↔ ∃ p, is_Some (files !! p) ∧ under dir p.
Proof.
  unfold is_dir. rewrite existsb_exists. split.
  - intros (p & Hp%list_elem_of_In & [n (r & ->)%dir_entry_Some]%bool_decide_eq_true).
    exists (dir ++ n :: r). rewrite <- elem_of_dom_list. split; [done|]. by exists n, r.
  - intros (p & Hp%elem_of_dom_list & n & r & ->). exists (dir ++ n :: r).
    split; [by apply list_elem_of_In|]. apply bool_decide_eq_true. exists n. apply dir_entry_Some. eauto.
Qed.

Lemma elem_of_dir_entries `{!ReadDirOrder} files dir q :
  q ∈ dir_entries files dir ↔ ∃ n r, q = dir ++ [n] ∧ is_Some (files !! (dir ++ n :: r)).
Proof.
  unfold dir_entries. rewrite list_elem_of_fmap. setoid_rewrite dir_order_perm.
  setoid_rewrite elem_of_remove_dups. setoid_rewrite list_elem_of_omap. split.
  - intros (n & -> & p & Hp%elem_of_dom_list & (r & ->)%dir_entry_Some). eauto.
  - intros (n & r & -> & Hp%elem_of_dom_list). exists n. split; [done|].
    exists (dir ++ n :: r). split; [done|]. apply dir_entry_Some. eauto.
Qed.

Lemma tree_depth_ge files p : is_Some (files !! p) → (length p ≤ tree_depth files)%nat.
Proof.
  intros Hp%elem_of_dom_list. unfold tree_depth. induction Hp; simpl; lia.
Qed.

(** No file is also a directory. *)
Definition tree_ok (files : gmap Path (list N)) : Prop := ∀ p q, is_Some (files !! p) → is_Some (files !! q) → ¬ under p q.

Section recovery.
Context `{!UuidDisplay} `{!Blake3} `{!MetaCodec} `{!ReadDirOrder}.

(** [path] is a committed file whose metadata gives the entry [e]. *)
Definition recoverable (files : gmap Path (list N)) (path : Path) (e : LocalExtentEntry) : Prop :=
  is_Some (files !! path) ∧ path_extension path ≠ Some "meta" ∧
  ∃ json m, files !! path_add_suffix path META_SUFFIX = Some json ∧ is_utf8 json = true ∧
    meta_from_json json = Ok m ∧
    e = MkEntry (em_extent_id m) (em_disk_id m) path (em_version m) (em_checksum m) (em_size m)
          (em_storage_class m).

Definition insert_all (l : list LocalExtentEntry) (idx : ExtentIndex) : ExtentIndex :=
  foldl (λ idx e, index_insert e idx) idx l.

(** The index holds an inserted entry where there is one, and its old content elsewhere. *)
Lemma lookup_insert_all l idx y :
  (∃ e, e ∈ l ∧ le_extent_id e = y ∧ insert_all l idx !! y = Some e) ∨
  ((∀ e, e ∈ l → le_extent_id e ≠ y) ∧ insert_all l idx !! y = idx !! y).
Proof.
  revert idx. induction l as [|e l IH]; intros idx; simpl; [right; split; [set_solver|done]|].
  destruct (IH (index_insert e idx)) as [(e' & ? & ? & ?)|[Hno Heq]].
  - left. exists e'. split; [by right|done].
  - destruct (decide (le_extent_id e = y)) as [<-|Hne].
    + left. exists e. split; [by left|]. split; [done|]. etrans; [exact Heq|]. apply lookup_insert_eq.
    + right. split; [intros e' [->|?]%elem_of_cons; auto|]. etrans; [exact Heq|]. by apply lookup_insert_ne.
Qed.

Lemma scan_file_spec path fs idx rep :
  is_Some (fs_files fs !! path) → path_extension path ≠ Some "meta" →
  ∃ l rep', scan_file path (MkWorld fs [] (idx, rep)) =
      (MkWorld fs [] (insert_all l idx, rep'), Done (Ok tt)) ∧
    ∀ e, e ∈ l ↔ recoverable (fs_files fs) path e.
Proof.
  intros Hp Hext. unfold scan_file, recover_extent_from_file, mbind, io_mbind, io_try. simpl.
  destruct (fs_files fs !! path_add_suffix path META_SUFFIX) as [json|] eqn:Hj; simpl.
  2: { exists [], (count_error rep). split; [done|]. intros e. split; [set_solver|].
       intros (_ & _ & json & m & Hj' & _). congruence. }
  rewrite Hj. simpl. destruct (is_utf8 json) eqn:Hu; simpl.
  2: { exists [], (count_error rep). split; [done|]. intros e. split; [set_solver|].
       intros (_ & _ & json' & m & Hj' & ? & _). congruence. }
  destruct (meta_from_json json) as [m|err] eqn:Hm; simpl.
  - eexists [_], (count_recovered rep). split; [done|]. intros e. rewrite list_elem_of_singleton. split.
    + intros ->. split_and!; [done..|]. exists json, m. split_and!; done.
    + intros (_ & _ & json' & m' & Hj' & _ & Hm' & ->). congruence.
  - exists [], (count_error rep). split; [done|]. intros e. split; [set_solver|].
    intros (_ & _ & json' & m' & Hj' & _ & Hm' & ->). congruence.
Qed.

(** What a scan of the part [P] of the tree does. *)
Definition scans (fs : FS) (m : IO (ExtentIndex * RecoveryReport) unit) (P : Path → Prop) : Prop :=
  ∀ idx rep, ∃ l rep', m (MkWorld fs [] (idx, rep)) = (MkWorld fs [] (insert_all l idx, rep'), Done (Ok tt)) ∧
    ∀ e, e ∈ l ↔ ∃ path, P path ∧ recoverable (fs_files fs) path e.

Lemma insert_all_app l1 l2 idx : insert_all (l1 ++ l2) idx = insert_all l2 (insert_all l1 idx).
Proof. apply foldl_app. Qed.

Lemma scan_entry_spec fs scan_dir path :
  tree_ok (fs_files fs) → (is_dir (fs_files fs) path = true → scans fs (scan_dir path) (under path)) →
  scans fs (if is_dir (fs_files fs) path then scan_dir path
            else if decide (path_extension path = Some "meta") then mret tt
            else if negb (bool_decide (is_Some (fs_files fs !! path))) then mret tt
            else scan_file path) (λ p, p = path ∨ under path p).
Proof.
  intros Htree Hdir idx rep. destruct (is_dir (fs_files fs) path) eqn:Hd.
  - destruct (Hdir eq_refl idx rep) as (l & rep' & Hrun & Hl). exists l, rep'. split; [done|].
    intros e. rewrite Hl. split; [naive_solver|]. intros (p & [->|Hp] & Hrec); [|by exists p].
    apply is_dir_true in Hd as (q & Hq & Hu). destruct Hrec as [Hp _]. by destruct (Htree path q Hp Hq).
  - assert (∀ p e, under path p → ¬ recoverable (fs_files fs) p e) as Hno.
    { intros p e Hu [Hp _]. apply not_true_iff_false in Hd. apply Hd, is_dir_true. eauto. }
    case_decide as Hext; [|case_bool_decide as Hf; simpl].
    + exists [], rep. split; [done|]. intros e. split; [set_solver|].
      intros (p & [->|Hu] & Hrec); [by destruct Hrec as (_ & ? & _)|by destruct (Hno p e)].
    + destruct (scan_file_spec path fs idx rep Hf Hext) as (l & rep' & Hrun & Hl). exists l, rep'.
      split; [done|]. intros e. rewrite Hl. split; [eauto|].
      intros (p & [->|Hu] & Hrec); [done|by destruct (Hno p e)].
    + exists [], rep. split; [done|]. intros e. split; [set_solver|].
      intros (p & [->|Hu] & Hrec); [by destruct Hrec as (? & _)|by destruct (Hno p e)].
Qed.

Lemma scan_entries_spec fs scan_dir paths :
  tree_ok (fs_files fs) →
  (∀ path, path ∈ paths → is_dir (fs_files fs) path = true → scans fs (scan_dir path) (under path)) →
  scans fs (scan_entries scan_dir paths) (λ p, ∃ q, q ∈ paths ∧ (p = q ∨ under q p)).
Proof.
  intros Htree. induction paths as [|path paths IH]; intros Hdirs idx rep.
  - exists [], rep. split; [done|]. set_solver.
  - destruct (scan_entry_spec fs scan_dir path Htree (Hdirs path (list_elem_of_here _ _)) idx rep)
      as (l1 & rep1 & Hrun1 & Hl1).
    destruct (IH (λ q Hq, Hdirs q (list_elem_of_further _ _ _ Hq)) (insert_all l1 idx) rep1)
      as (l2 & rep2 & Hrun2 & Hl2).
    exists (l1 ++ l2), rep2. split.
    + cbn [scan_entries]. unfold mbind, io_mbind, io_look, path_exists. cbn [w_fs].
      unfold io_look. cbn [w_fs]. rewrite Hrun1, Hrun2. by rewrite insert_all_app.
    + intros e. rewrite elem_of_app, Hl1, Hl2. set_solver.
Qed.

Lemma scan_committed_dir_spec depth dir fs :
  tree_ok (fs_files fs) →
  (∀ p, is_Some (fs_files fs !! p) → under dir p → (length p ≤ length dir + depth)%nat) →
  scans fs (scan_committed_dir depth dir) (under dir).
Proof.
  intros Htree. revert dir. induction depth as [|depth IH]; intros dir Hlen idx rep.
  - exists [], rep. split; [done|]. intros e. split; [set_solver|]. intros (p & Hu & Hp & _).
    specialize (Hlen p Hp Hu). destruct Hu as (n & r & ->). rewrite length_app in Hlen. simpl in Hlen. lia.
  - destruct (scan_entries_spec fs (scan_committed_dir depth) (dir_entries (fs_files fs) dir) Htree)
      with (idx := idx) (rep := rep) as (l & rep' & Hrun & Hl).
    { intros q (n & r & -> & _)%elem_of_dir_entries _. apply IH. intros p Hp (n' & r' & ->).
      specialize (Hlen _ Hp). rewrite !length_app in *. simpl in *.
      assert (under dir ((dir ++ [n]) ++ n' :: r')) as Hu by (rewrite <- app_assoc; by eexists _, _).
      specialize (Hlen Hu). lia. }
    exists l, rep'. split; [exact Hrun|]. intros e. rewrite Hl. split.
    + intros (p & (q & (n & r & -> & _)%elem_of_dir_entries & [->|(n' & r' & ->)]) & Hrec).
      * exists (dir ++ [n]). split; [by exists n, []|done].
      * exists ((dir ++ [n]) ++ n' :: r'). split; [rewrite <- app_assoc; by eexists _, _|done].
    + intros (p & (n & r & ->) & Hrec). exists (dir ++ n :: r). split; [|done].
      exists (dir ++ [n]). split; [apply elem_of_dir_entries; exists n, r; split; [done|apply Hrec]|].
      destruct r as [|n' r]; [by left|]. right. exists n', r. by rewrite <- app_assoc.
Qed.

Lemma discard_staged_spec paths fs idx rep :
  ∃ fs' rep', discard_staged paths (MkWorld fs [] (idx, rep)) = (MkWorld fs' [] (idx, rep'), Done (Ok tt)) ∧
    ∀ p, fs_files fs' !! p = if decide (p ∈ paths) then None else fs_files fs !! p.
Proof.
  revert fs rep. induction paths as [|q paths IH]; intros fs rep; [by exists fs, rep|].
  cbn [discard_staged]. unfold mbind, io_mbind, path_exists, io_look. cbn [w_fs].
  destruct (fs_files fs !! q) as [c|] eqn:Hq; simpl.
  - unfold io_try. simpl. rewrite Hq. simpl.
    destruct (IH (fs_remove q fs) (count_discarded rep)) as (fs' & rep' & Hrun & Hf).
    exists fs', rep'. split; [exact Hrun|]. intros p. rewrite Hf. simpl.
    destruct (decide (p = q)) as [->|Hne]; [rewrite lookup_delete_eq|rewrite lookup_delete_ne by done];
      repeat case_decide; set_solver.
  - destruct (IH fs rep) as (fs' & rep' & Hrun & Hf). exists fs', rep'. split; [exact Hrun|].
    intros p. rewrite Hf. repeat case_decide; set_solver.
Qed.

(** Recovery when no call fails. *)
Lemma recover_spec st fs idx :
  tree_ok (fs_files fs) →
  let committed_dir := es_mount_path st ++ [COMMITTED_DIR] in
  ∃ fs' l rep, recover st (MkWorld fs [] idx) = (MkWorld fs' [] (insert_all l idx), Done (Ok rep)) ∧
    (∀ e, e ∈ l ↔ ∃ path, under committed_dir path ∧ recoverable (fs_files fs) path e) ∧
    (∀ p, under committed_dir p → fs_files fs' !! p = fs_files fs !! p) ∧
    (∀ x v, fs_files fs' !! staged_extent_path (es_mount_path st) x v = None).
Proof.
  intros Htree committed_dir.
  destruct (scan_committed_dir_spec (S (tree_depth (fs_files fs))) committed_dir fs Htree)
    with (idx := idx) (rep := RecoveryReport_default) as (l & rep & Hscan & Hl).
  { intros p Hp _. pose proof (tree_depth_ge _ _ Hp). lia. }
  destruct (discard_staged_spec (dir_entries (fs_files fs) (es_mount_path st ++ [STAGED_DIR])) fs
    (insert_all l idx) rep) as (fs' & rep' & Hdis & Hf).
  exists fs', l, rep'. split_and!; [|done|..].
  - unfold recover, recover_store, init_directories, create_dir_all, read_dir, syscall, io_look, mbind, io_mbind.
    cbn [w_fs w_events w_state tail]. fold committed_dir. rewrite Hscan. cbn [w_fs w_events w_state tail].
    by rewrite Hdis.
  - intros p (n & r & ->). rewrite Hf, decide_False; [done|].
    intros (m & r' & Heq & _)%elem_of_dir_entries. unfold committed_dir in Heq.
    rewrite <- !app_assoc in Heq. by apply app_inv_head in Heq.
  - intros x v. rewrite Hf. case_decide as Hin; [done|].
    destruct (fs_files fs !! staged_extent_path (es_mount_path st) x v) eqn:Hs; [|done]. destruct Hin.
    apply elem_of_dir_entries. exists (extent_name x v +:+ ".staging"), [].
    assert (staged_extent_path (es_mount_path st) x v =
              (es_mount_path st ++ [STAGED_DIR]) ++ [extent_name x v +:+ ".staging"]) as <-.
    { unfold staged_extent_path, extent_name. by rewrite <- app_assoc, <- !string_app_assoc. }
    split; [done|by rewrite Hs].
Qed.

(** An extent whose two files are in place is recoverable. *)
Lemma committed_recoverable st now x v data sum size cls files :
  files !! committed_extent_path (es_mount_path st) x v = Some data →
  files !! extent_meta_path (es_mount_path st) x v =
    Some (meta_to_json (committed_meta st now x v sum size cls)) →
  recoverable files (committed_extent_path (es_mount_path st) x v)
    (MkEntry x (es_disk_id st) (committed_extent_path (es_mount_path st) x v) v sum size cls).
Proof.
  intros Hc Hm. split_and!; [by rewrite Hc|rewrite committed_path_eq; apply extent_name_extension|].
  eexists _, _. split_and!; [exact Hm|apply meta_utf8|apply meta_round_trip|done].
Qed.

Lemma committed_under mount x v :
  under (mount ++ [COMMITTED_DIR]) (committed_extent_path mount x v) ∧
  under (mount ++ [COMMITTED_DIR]) (extent_meta_path mount x v).
Proof.
  rewrite committed_path_eq, meta_path_eq. unfold extent_dir.
  split; eexists _, [_]; by rewrite <- !app_assoc.
Qed.

(** A path gives one entry. *)
Lemma recoverable_fun files path e e' : recoverable files path e → recoverable files path e' → e = e'.
Proof. intros (_ & _ & j & m & Hj & _ & Hm & ->) (_ & _ & j' & m' & Hj' & _ & Hm' & ->). congruence. Qed.

(** Whatever fails, recovery changes nothing but the entries of the staging directory. *)
Lemma scan_file_preserves (I : FS → Prop) path : preserves I (scan_file path).
Proof.
  unfold scan_file, recover_extent_from_file. apply preserves_bind.
  - apply preserves_try. apply preserves_bind; [apply preserves_look|intros found].
    destruct found; simpl; [|apply preserves_throw].
    apply preserves_bind; [|intros json; destruct (meta_from_json json); solve_preserves].
    apply preserves_syscall; [|done]. intros fs fs' b HI Hrun.
    destruct (fs_files fs !! _) as [data|]; simpl in Hrun; [|done]. by destruct (is_utf8 data); simplify_eq.
  - intros [entry|e]; apply preserves_modify.
Qed.

Lemma scan_committed_dir_preserves (I : FS → Prop) depth dir : preserves I (scan_committed_dir depth dir).
Proof.
  revert dir. induction depth as [|depth IH]; intros dir; simpl; [apply preserves_ret|].
  apply preserves_bind; [solve_preserves|intros paths].
  induction paths as [|path paths IHp]; simpl; [apply preserves_ret|].
  apply preserves_bind; [apply preserves_look|intros d]. apply preserves_bind; [apply preserves_look|intros is_file].
  apply preserves_bind; [|done]. destruct d; [apply IH|]. case_decide; [apply preserves_ret|].
  destruct is_file; [apply scan_file_preserves|apply preserves_ret].
Qed.

Lemma discard_staged_preserves (I : FS → Prop) paths :
  (∀ q fs, q ∈ paths → I fs → I (fs_remove q fs)) → preserves I (discard_staged paths).
Proof.
  induction paths as [|path paths IH]; intros Hrm; simpl; [apply preserves_ret|].
  assert (preserves I (discard_staged paths)) as IH' by (apply IH; set_solver).
  apply preserves_bind; [apply preserves_look|intros is_file]. destruct is_file; [|done].
  apply preserves_bind; [|intros r; apply preserves_bind; [destruct (is_ok r); solve_preserves|done]].
  apply preserves_try, preserves_syscall; [|done]. intros fs fs' [] HI Hrun.
  destruct (fs_files fs !! _); simplify_eq/=. apply Hrm; [by left|done].
Qed.

Lemma recover_keeps st w w' o p c :
  (∀ n, p ≠ es_mount_path st ++ [STAGED_DIR; n]) → recover st w = (w', o) →
  settled p c (w_fs w) → settled p c (w_fs w').
Proof.
  intros Hp Hrec Hs. unfold recover in Hrec.
  assert (preserves (settled p c) (recover_store st)) as Hkeep.
  { unfold recover_store, init_directories. apply preserves_bind; [solve_preserves|intros _].
    apply preserves_bind; [apply preserves_look|intros depth].
    apply preserves_bind; [apply scan_committed_dir_preserves|intros _].
    eapply (triple_bind _ _ _ _ (λ paths fs, p ∉ paths ∧ settled p c fs)).
    - apply triple_syscall; [done..|]. intros fs fs' paths Hfs [= <- <-]. split; [|done].
      intros (n & r & -> & _)%elem_of_dir_entries. apply (Hp n). by rewrite <- app_assoc.
    - intros paths. apply triple_pure. intros Hnin. apply discard_staged_preserves.
      intros q fs Hq. apply settled_remove. by intros ->. }
  destruct (recover_store _ _) as [w1 o1] eqn:Hrun.
  pose proof (Hkeep (MkWorld (w_fs w) (w_events w) (w_state w, RecoveryReport_default)) _ _ Hs Hrun) as Hk.
  by destruct o1 as [[]|]; simplify_eq.
Qed.

(** ** Theorems *)

(** C10: An acknowledged extent survives a crash and restart: after the store
    acknowledged a new extent, at any moment the machine may stop; recovery then
    rebuilds an index that holds the acknowledged entry (when the disk has no
    other version of the extent), the extent reads back with its checksum, no
    staged file is left, and every index entry that recovery added describes a
    committed file with its metadata. *)
Theorem acknowledged_extent_recovered {X} st now x v data cls fs events (s : X) w1 entry fs2 idx :
  let committed_dir := es_mount_path st ++ [COMMITTED_DIR] in
  settled (committed_extent_path (es_mount_path st) x v) None fs →
  store_extent st now x v data cls (MkWorld fs events s) = (w1, Done (Ok entry)) →
  later (w_fs w1) fs2 → tree_ok (fs_files fs2) →
  (∀ path e, under committed_dir path → recoverable (fs_files fs2) path e → le_extent_id e = x →
     path = committed_extent_path (es_mount_path st) x v) →
  ∃ w3 rep, recover st (MkWorld fs2 [] idx) = (w3, Done (Ok rep)) ∧
    w_state w3 !! x = Some entry ∧
    (read_extent st x v (MkWorld (w_fs w3) [] tt)).2 = Done (Ok (data, le_checksum entry)) ∧
    (∀ y u, fs_files (w_fs w3) !! staged_extent_path (es_mount_path st) y u = None) ∧
    (∀ y e, w_state w3 !! y = Some e → idx !! y = Some e ∨
       ∃ path, under committed_dir path ∧ recoverable (fs_files fs2) path e ∧ le_extent_id e = y).
Proof.
  intros committed_dir Hnew Hrun Hl Htree Honly.
  destruct (store_extent_triple st now x v data cls (MkWorld fs events s) _ _ Hnew Hrun) as (-> & Hc & Hm).
  apply settled_later with (fs' := fs2) in Hc; [|done]. apply settled_later with (fs' := fs2) in Hm; [|done].
  destruct (recover_spec st fs2 idx Htree) as (fs3 & l & rep & Hrec & Hin & Hkeep & Hstaged).
  pose proof (committed_recoverable st now x v data _ _ cls (fs_files fs2)
    (settled_files _ _ _ Hc) (settled_files _ _ _ Hm)) as Hx.
  destruct (committed_under (es_mount_path st) x v) as [Huc Hum].
  eexists _, rep. split_and!; [exact Hrec|..]; simpl.
  - destruct (lookup_insert_all l idx x) as [(e & He & Hid & ->)|[Hno _]].
    + apply Hin in He as (path & Hu & Hr). rewrite (Honly path e Hu Hr Hid) in Hr.
      by rewrite (recoverable_fun _ _ _ _ Hr Hx).
    + exfalso. eapply Hno; [apply Hin; exists (committed_extent_path (es_mount_path st) x v); by split|done].
  - eapply read_extent_found.
    + rewrite (Hkeep _ Huc). by apply Hc.
    + rewrite (Hkeep _ Hum). by apply Hm.
    + apply meta_utf8.
    + apply meta_round_trip.
    + done.
  - done.
  - intros y e He. destruct (lookup_insert_all l idx y) as [(e' & He' & Hid & Heq)|[_ Heq]].
    + right. apply Hin in He' as (path & Hu & Hr). exists path. rewrite Heq in He. naive_solver.
    + left. congruence.
Qed.

End recovery.

(** ** Witnesses *)

Module RecoveryDemo.
Export StoreDemo.

(** Directories listed in one order, and in the opposite one. *)
Definition listed : ReadDirOrder := {| dir_order := λ l, l; dir_order_perm := λ l, Permutation_refl l |}.

Definition listed_reverse : ReadDirOrder :=
  {| dir_order := reverse; dir_order_perm := λ l, reverse_Permutation l |}.

(** Two versions of the extent. *)
Definition two_versions : FS :=
  w_fs (store_extent store 200 extent 2 [4; 5] Default (MkWorld stored_fs [] tt)).1.

Definition recovered_version (order : ReadDirOrder) (fs : FS) : option N :=
  le_version <$> w_state (recover store (MkWorld fs [] ∅)).1 !! extent.

#[export] Existing Instance listed.

End RecoveryDemo.
Import RecoveryDemo.

Lemma acknowledged_extent_recovered_witness :
  ∃ w3 rep, recover store (MkWorld stored_fs [] ∅) = (w3, Done (Ok rep)) ∧
    (read_extent store extent 1 (MkWorld (w_fs w3) [] tt)).2 = Done (Ok ([1; 2; 3], "030201")).
Proof.
  destruct (acknowledged_extent_recovered store 100 extent 1 [1; 2; 3] Default empty_fs
    [] tt (store_extent store 100 extent 1 [1; 2; 3] Default (MkWorld empty_fs [] tt)).1
    (MkEntry extent (DiskId_new 1) (committed_extent_path ["mnt"; "d1"] extent 1) 1 "030201" 3 Default)
    stored_fs ∅) as (w3 & rep & Hrec & _ & Hread & _).
  - split; [set_solver|done|done].
  - vm_compute. reflexivity.
  - by left.
  - intros p q Hp%elem_of_dom_list Hq%elem_of_dom_list (n & r & ->). vm_compute in Hp, Hq.
    repeat (apply elem_of_cons in Hp as [->|Hp]); [..|by apply elem_of_nil in Hp];
      repeat (apply elem_of_cons in Hq as [Hq|Hq]); try (by apply elem_of_nil in Hq); simplify_eq/=.
  - intros path e _ (Hp & Hext & _) _. apply elem_of_dom_list in Hp. vm_compute in Hp.
    repeat (apply elem_of_cons in Hp as [->|Hp]); [..|by apply elem_of_nil in Hp]; try reflexivity.
    all: exfalso; apply Hext; reflexivity.
  - exists w3, rep. split; [exact Hrec|exact Hread].
Defined.

(** With two versions of an extent on the disk, the index that recovery rebuilds
    holds the version that the directory listing happens to give last. *)
Theorem recovery_may_choose_old_version :
  recovered_version listed two_versions ≠ recovered_version listed_reverse two_versions.
Proof. vm_compute. congruence. Qed.
