(* ===== verification/Auth.v ===== *)
(** * Authentication and volume access control (crates/blockyard-common/src/auth.rs)

    Tokens signed with the cluster secret and per-volume permissions.  HMAC-SHA256
    belongs to the [hmac] and [sha2] crates and is the parameter [Hmac]; the text
    of a UUID parse error is the parameter [UuidError]; the clock is an argument. *)

From Stdlib Require Import Ascii.
From S2P Require Import Prelude Text Common Placement Checksum.

#[local] Open Scope N_scope.

(** ** Identities *)

Inductive PeerIdentity :=
  | IdClient (session_id : SessionId)
  | IdNode (node_id : NodeId).

#[global] Instance PeerIdentity_eq_dec : EqDecision PeerIdentity.
Proof. solve_decision. Defined.

#[global] Instance PeerIdentity_display `{!UuidDisplay} : Display PeerIdentity := λ i,
  match i with
  | IdClient sid => "client:" +:+ to_string sid
  | IdNode nid => "node:" +:+ to_string nid
  end.

(** ** Volume permissions *)

Record VolumePermission := MkPermission { vp_read : bool; vp_write : bool }.

Definition read_only : VolumePermission := MkPermission true false.

Definition read_write : VolumePermission := MkPermission true true.

Definition no_permission : VolumePermission := MkPermission false false.

Abbreviation VolumeAcl := (gmap VolumeId (gmap string VolumePermission)) (only parsing).

Definition VolumeAcl_new : VolumeAcl := ∅.

Definition acl_grant (v : VolumeId) (identity : string) (perm : VolumePermission) (acl : VolumeAcl) : VolumeAcl :=
  <[v := <[identity := perm]> (default ∅ (acl !! v))]> acl.

Definition acl_revoke (v : VolumeId) (identity : string) (acl : VolumeAcl) : VolumeAcl :=
  match acl !! v with
  | Some vol_acl =>
      let vol_acl := delete identity vol_acl in
      if decide (vol_acl = ∅) then delete v acl else <[v := vol_acl]> acl
  | None => acl
  end.

Definition acl_list_permissions (v : VolumeId) (acl : VolumeAcl) : gmap string VolumePermission :=
  default ∅ (acl !! v).

Definition acl_remove_volume (v : VolumeId) (acl : VolumeAcl) : VolumeAcl := delete v acl.

Section acl.
Context `{!UuidDisplay}.

(** Nodes may do everything; clients what they were granted. *)
Definition acl_check (right : VolumePermission → bool) (v : VolumeId) (identity : PeerIdentity)
    (acl : VolumeAcl) : bool :=
  match identity with
  | IdNode _ => true
  | IdClient _ =>
      match acl !! v ≫= (λ vol_acl, vol_acl !! to_string identity) with
      | Some perm => right perm
      | None => false
      end
  end.

Definition check_read : VolumeId → PeerIdentity → VolumeAcl → bool := acl_check vp_read.

Definition check_write : VolumeId → PeerIdentity → VolumeAcl → bool := acl_check vp_write.

End acl.

(** ** Tokens *)

Record AuthToken := MkAuthToken {
  at_identity : string;
  at_issued_at_ms : N;
  at_expires_at_ms : N;
  at_signature : string;
}.

Definition token_is_expired (t : AuthToken) (now_ms : N) : bool := bool_decide (at_expires_at_ms t ≤ now_ms).

(** HMAC-SHA256 of a message under a key. *)
Class Hmac := hmac_sha256 : list N → list N → list N.

Class UuidError := uuid_error : string → string.

Record SharedSecretAuth := MkAuth { sa_secret : list N }.

Definition SharedSecretAuth_new (secret : string) : result Error SharedSecretAuth :=
  if decide (String.length secret < 8)%nat then Err (ErrorAuth "shared secret must be at least 8 characters")
  else Ok (MkAuth (string_bytes secret)).

Section tokens.
Context `{!UuidDisplay} `{!Hmac} `{!UuidError}.

Definition compute_signature (auth : SharedSecretAuth) (identity : string) (issued expires : N) : string :=
  to_hex (hmac_sha256 (sa_secret auth)
            (string_bytes identity ++ u64_le_bytes issued ++ u64_le_bytes expires)).

Definition create_token (now : N) (auth : SharedSecretAuth) (identity : PeerIdentity) (ttl_ms : N)
    : result Error AuthToken :=
  let expires := u64_sat_add now ttl_ms in
  let identity_str := to_string identity in
  let signature := compute_signature auth identity_str now expires in
  Ok (MkAuthToken identity_str now expires signature).

Definition parse_identity (s : string) : result Error PeerIdentity :=
  match strip_str_prefix "client:" s with
  | Some rest =>
      match SessionId_from_str rest with
      | Some sid => Ok (IdClient sid)
      | None => Err (ErrorAuth ("invalid session id in token: " +:+ uuid_error rest))
      end
  | None =>
      match strip_str_prefix "node:" s with
      | Some rest =>
          match NodeId_from_str rest with
          | Some nid => Ok (IdNode nid)
          | None => Err (ErrorAuth ("invalid node id in token: " +:+ uuid_error rest))
          end
      | None => Err (ErrorAuth ("unrecognized identity format: " +:+ s))
      end
  end.

Definition validate_token (now : N) (auth : SharedSecretAuth) (token : AuthToken) : result Error PeerIdentity :=
  if token_is_expired token now then
    Err (ErrorAuth ("token expired at " +:+ to_string (at_expires_at_ms token) +:+ ", current time " +:+ to_string now))
  else
    let expected_sig :=
      compute_signature auth (at_identity token) (at_issued_at_ms token) (at_expires_at_ms token) in
    if decide (at_signature token = expected_sig) then parse_identity (at_identity token)
    else Err (ErrorAuth "invalid token signature").

End tokens.

(** ** Lemmas *)

Section lemmas.
Context `{!UuidDisplay} `{!Hmac} `{!UuidError}.

Lemma parse_identity_to_string i : parse_identity (to_string i) = Ok i.
Proof.
  unfold parse_identity. destruct i as [[u]|[u]]; unfold to_string, PeerIdentity_display.
  - rewrite strip_str_prefix_app. unfold SessionId_from_str, to_string, SessionId_display.
    by rewrite uuid_parse_to_string.
  - replace (strip_str_prefix "client:" _) with (@None string) by done.
    rewrite strip_str_prefix_app. unfold NodeId_from_str, to_string, NodeId_display.
    by rewrite uuid_parse_to_string.
Qed.

(** A token is accepted, as the identity it was made for, exactly until it expires. *)
Lemma validate_created_token now now' auth i ttl t :
  create_token now auth i ttl = Ok t →
  (now' < u64_sat_add now ttl → validate_token now' auth t = Ok i) ∧
  (u64_sat_add now ttl ≤ now' → is_ok (validate_token now' auth t) = false).
Proof.
  intros [= <-]. unfold validate_token, token_is_expired. simpl. split; intros Hnow.
  - rewrite bool_decide_eq_false_2 by lia. rewrite decide_True by done. apply parse_identity_to_string.
  - by rewrite bool_decide_eq_true_2.
Qed.

(** What is granted can be used until it is revoked. *)
Lemma check_grant_revoke v sid perm acl :
  let id := to_string (IdClient sid) in
  check_write v (IdClient sid) (acl_grant v id perm acl) = vp_write perm ∧
  check_write v (IdClient sid) (acl_revoke v id acl) = false.
Proof.
  intros id. unfold check_write, acl_check, acl_grant, acl_revoke. fold id. split.
  - rewrite (lookup_insert_eq). simpl. by rewrite lookup_insert_eq.
  - destruct (acl !! v) as [va|] eqn:Hv; [|by rewrite Hv]. destruct (decide (delete id va = ∅)).
    + by rewrite (lookup_delete_eq).
    + rewrite (lookup_insert_eq). simpl. by rewrite lookup_delete_eq.
Qed.

End lemmas.
