(* ===== verification/Protocol.v ===== *)
(** * The data plane protocol (crates/blockyard-protocol)

    Messages (messages.rs), version negotiation and authentication of a connection
    (version.rs), framing and the server side of a connection (server.rs).  The
    JSON form of messages belongs to [serde_json]: [JsonCodec] is its serialiser
    and parser, of which the round trip is assumed, and that a document cut short
    does not parse.  The handler behind the server is the trait
    [DataPlaneHandler], a class over its state. *)

From S2P Require Import Prelude Common Placement Auth.

#[local] Open Scope N_scope.

(** ** Messages *)

Definition CURRENT_PROTOCOL_VERSION : N := 1.

Definition MIN_PROTOCOL_VERSION : N := 1.

Record HandshakeRequest := MkHandshakeRequest {
  hq_protocol_version : N;
  hq_node_id : option NodeId;
  hq_session_id : option SessionId;
  hq_features : list string;
  hq_auth_token : option AuthToken;
}.

Record HandshakeResponse := MkHandshakeResponse {
  hs_protocol_version : N;
  hs_node_id : NodeId;
  hs_accepted : bool;
  hs_message : option string;
  hs_supported_features : list string;
  hs_authenticated : bool;
}.

Record WriteExtentRequest := MkWriteExtentRequest {
  wq_operation_id : OperationId;
  wq_session_id : SessionId;
  wq_volume_id : VolumeId;
  wq_extent_id : ExtentId;
  wq_extent_version : N;
  wq_epoch : EpochId;
  wq_target_disk_id : option DiskId;
  wq_checksum : string;
  wq_payload_size : N;
  wq_lease_version : option N;
}.

Record WriteExtentResponse := MkWriteExtentResponse {
  ws_operation_id : OperationId;
  ws_extent_id : ExtentId;
  ws_extent_version : N;
  ws_disk_id : DiskId;
  ws_success : bool;
  ws_checksum : string;
  ws_error : option string;
}.

Record ReadExtentRequest := MkReadExtentRequest {
  rq_operation_id : OperationId;
  rq_session_id : SessionId;
  rq_volume_id : VolumeId;
  rq_extent_id : ExtentId;
  rq_extent_version : N;
  rq_epoch : EpochId;
  rq_offset : N;
  rq_length : N;
}.

Record ReadExtentResponse := MkReadExtentResponse {
  rs_operation_id : OperationId;
  rs_extent_id : ExtentId;
  rs_extent_version : N;
  rs_success : bool;
  rs_checksum : string;
  rs_payload_size : N;
  rs_error : option string;
}.

Inductive ErrorCode :=
  | CodeOk
  | CodeStaleEpoch
  | CodeExtentNotFound
  | CodeChecksumMismatch
  | CodeDiskUnavailable
  | CodeAllocationDenied
  | CodeDuplicateOperation
  | CodeUnsupportedVersion
  | CodeInternalError
  | CodeUnauthorized.

#[global] Instance ErrorCode_display : Display ErrorCode := λ c,
  match c with
  | CodeOk => "ok"
  | CodeStaleEpoch => "stale_epoch"
  | CodeExtentNotFound => "extent_not_found"
  | CodeChecksumMismatch => "checksum_mismatch"
  | CodeDiskUnavailable => "disk_unavailable"
  | CodeAllocationDenied => "allocation_denied"
  | CodeDuplicateOperation => "duplicate_operation"
  | CodeUnsupportedVersion => "unsupported_version"
  | CodeInternalError => "internal_error"
  | CodeUnauthorized => "unauthorized"
  end.

Inductive ProtocolMessage :=
  | HandshakeReq (m : HandshakeRequest)
  | HandshakeResp (m : HandshakeResponse)
  | WriteReq (m : WriteExtentRequest)
  | WriteResp (m : WriteExtentResponse)
  | ReadReq (m : ReadExtentRequest)
  | ReadResp (m : ReadExtentResponse).

(** [serde_json] on a type: the text of a value, and the parser. *)
Class JsonCodec (A : Type) := {
  json_to_vec : A → list N;
  json_from_slice : list N → result string A;
  json_round_trip : ∀ a, json_from_slice (json_to_vec a) = Ok a;
  json_cut_short : ∀ a n, (n < length (json_to_vec a))%nat → is_ok (json_from_slice (take n (json_to_vec a))) = false;
}.

(** ** Version negotiation *)

Definition negotiate_version (request : HandshakeRequest) (local_node_id : NodeId) : HandshakeResponse :=
  let client_version := hq_protocol_version request in
  if decide (client_version < MIN_PROTOCOL_VERSION) then
    MkHandshakeResponse CURRENT_PROTOCOL_VERSION local_node_id false
      (Some ("client protocol version " +:+ to_string client_version
               +:+ " is below minimum supported version " +:+ to_string MIN_PROTOCOL_VERSION)) [] false
  else
    let negotiated := N.min client_version CURRENT_PROTOCOL_VERSION in
    MkHandshakeResponse negotiated local_node_id true None [] false.

Definition is_version_supported (version : N) : bool :=
  bool_decide (MIN_PROTOCOL_VERSION ≤ version) && bool_decide (version ≤ CURRENT_PROTOCOL_VERSION).

Definition set_refused (message : string) (r : HandshakeResponse) : HandshakeResponse :=
  MkHandshakeResponse (hs_protocol_version r) (hs_node_id r) false (Some message) (hs_supported_features r) false.

Definition set_authenticated (r : HandshakeResponse) : HandshakeResponse :=
  MkHandshakeResponse (hs_protocol_version r) (hs_node_id r) (hs_accepted r) (hs_message r)
    (hs_supported_features r) true.

Section negotiation.
Context `{!UuidDisplay} `{!Hmac} `{!UuidError}.

Definition negotiate_version_with_auth (now : N) (request : HandshakeRequest) (local_node_id : NodeId)
    (auth_provider : option SharedSecretAuth) : HandshakeResponse * option PeerIdentity :=
  let response := negotiate_version request local_node_id in
  if negb (hs_accepted response) then (response, None) else
  match auth_provider with
  | None => (response, None)
  | Some provider =>
      match hq_auth_token request with
      | None => (set_refused "authentication required but no token provided" response, None)
      | Some token =>
          match validate_token now provider token with
          | Ok identity => (set_authenticated response, Some identity)
          | Err e => (set_refused ("authentication failed: " +:+ to_string e) response, None)
          end
      end
  end.

End negotiation.

(** ** Framing *)

Inductive ServerError :=
  | ServerIo (msg : string)
  | ServerJson (msg : string)
  | ServerProtocol (msg : string).

Definition MAX_FRAME_SIZE : N := 64 * 1024 * 1024.

Definition u32_modulus : N := 4294967296.

Definition unexpected_eof : string := "early eof".

(** [read_exact] of [n] bytes from the stream. *)
Definition read_exact (n : N) (stream : list N) : option (list N * list N) :=
  if decide (n ≤ N.of_nat (length stream)) then Some (take (N.to_nat n) stream, drop (N.to_nat n) stream) else None.

(** A frame and the rest of the stream; the two sides of a connection name the
    errors differently. *)
Definition read_frame {E} (io_len io protocol : string → E) (stream : list N) : result E (list N * list N) :=
  match read_exact 4 stream with
  | None => Err (io_len unexpected_eof)
  | Some (prefix, stream) =>
      let len := be_value prefix in
      if decide (MAX_FRAME_SIZE < len) then
        Err (protocol ("frame too large: " +:+ to_string len +:+ " > " +:+ to_string MAX_FRAME_SIZE))
      else
        match read_exact len stream with
        | None => Err (io unexpected_eof)
        | Some r => Ok r
        end
  end.

(** The bytes [write_frame] sends: the length is cast to u32. *)
Definition write_frame (data : list N) : list N :=
  be_bytes 4 (N.of_nat (length data) `mod` u32_modulus) ++ data.

(** ** The server *)

(** [None]: the process stopped before it answered.  [Panic]: the task of the
    connection died. *)
Class DataPlaneHandler (St : Type) := {
  dp_handle_write : WriteExtentRequest → list N → St → St * option WriteExtentResponse;
  dp_handle_read : ReadExtentRequest → St → St * exec (option (ReadExtentResponse * option (list N)));
}.

Section server.
Context `{!UuidDisplay} `{!Hmac} `{!UuidError}.
Context `{!JsonCodec ProtocolMessage} `{!JsonCodec HandshakeRequest} `{!JsonCodec HandshakeResponse}.
Context {St : Type} `{!DataPlaneHandler St}.

(** How a connection goes on after a request. *)
Inductive Served :=
  | Answered (output rest : list N)
  | Closed (r : result ServerError unit)
  | Stopped.

(** One turn of the request loop. *)
Definition serve_request (stream : list N) (h : St) : St * Served :=
  match read_frame ServerIo ServerIo ServerProtocol stream with
  | Err (ServerIo _) => (h, Closed (Ok tt))
  | Err e => (h, Closed (Err e))
  | Ok (frame, stream) =>
      match json_from_slice frame with
      | Err e => (h, Closed (Err (ServerJson e)))
      | Ok (WriteReq req) =>
          match read_exact (wq_payload_size req) stream with
          | None => (h, Closed (Err (ServerIo unexpected_eof)))
          | Some (payload, stream) =>
              match dp_handle_write req payload h with
              | (h, Some resp) => (h, Answered (write_frame (json_to_vec (WriteResp resp))) stream)
              | (h, None) => (h, Stopped)
              end
          end
      | Ok (ReadReq req) =>
          match dp_handle_read req h with
          | (h, Return (Some (resp, data))) =>
              (h, Answered (write_frame (json_to_vec (ReadResp resp)) ++ default [] data) stream)
          | (h, Return None) => (h, Stopped)
          | (h, Panic) => (h, Closed (Err (ServerProtocol "connection task panicked")))
          end
      | Ok _ => (h, Closed (Err (ServerProtocol "unexpected message in request loop")))
      end
  end.

(** The request loop on all that the client sends; every turn consumes a frame,
    so the length of the stream is enough [fuel]. *)
Fixpoint request_loop (fuel : nat) (stream output : list N) (h : St) : St * list N * option (result ServerError unit) :=
  match fuel with
  | O => (h, output, Some (Ok tt))
  | S fuel =>
      match serve_request stream h with
      | (h, Answered out rest) => request_loop fuel rest (output ++ out) h
      | (h, Closed r) => (h, output, Some r)
      | (h, Stopped) => (h, output, None)
      end
  end.

(** The handshake of a connection: its answer, whether it was accepted, and the
    rest of the stream. *)
Definition serve_handshake (now : N) (node_id : NodeId) (auth_provider : option SharedSecretAuth)
    (stream : list N) : result ServerError (list N * bool * list N) :=
  match read_frame ServerIo ServerIo ServerProtocol stream with
  | Err e => Err e
  | Ok (frame, stream) =>
      match json_from_slice frame with
      | Err e => Err (ServerJson e)
      | Ok handshake_req =>
          let '(handshake_resp, _) := negotiate_version_with_auth now handshake_req node_id auth_provider in
          Ok (write_frame (json_to_vec handshake_resp), hs_accepted handshake_resp, stream)
      end
  end.

Definition handle_connection (now : N) (node_id : NodeId) (auth_provider : option SharedSecretAuth)
    (stream : list N) (h : St) : St * list N * option (result ServerError unit) :=
  match serve_handshake now node_id auth_provider stream with
  | Err e => (h, [], Some (Err e))
  | Ok (output, accepted, stream) =>
      if negb accepted then (h, output, Some (Ok tt))
      else request_loop (S (length stream)) stream output h
  end.

End server.

(** ** Lemmas *)

Lemma le_value_le_bytes k n : le_value (le_bytes k n) = n `mod` 256 ^ N.of_nat k.
Proof.
  revert n. induction k as [|k IH]; intros n; [by rewrite N.mod_1_r|].
  change (le_value (le_bytes (S k) n)) with (n `mod` 256 + 256 * le_value (le_bytes k (n `div` 256))).
  rewrite IH. rewrite Nat2N.inj_succ, N.pow_succ_r by lia.
  rewrite N.Div0.mod_mul_r by lia. lia.
Qed.

Lemma be_value_reverse bs : be_value (reverse bs) = le_value bs.
Proof.
  unfold be_value, le_value. induction bs as [|b bs IH]; [done|].
  rewrite reverse_cons, foldl_app. cbn [foldl foldr]. rewrite IH. lia.
Qed.

Lemma be_value_be_bytes k n : n < 256 ^ N.of_nat k → be_value (be_bytes k n) = n.
Proof. intros Hn. unfold be_bytes. rewrite be_value_reverse, le_value_le_bytes. by apply N.mod_small. Qed.

Lemma length_le_bytes k n : length (le_bytes k n) = k.
Proof. revert n. induction k; intros; simpl; [done|]. by rewrite IHk. Qed.

Lemma length_be_bytes k n : length (be_bytes k n) = k.
Proof. unfold be_bytes. by rewrite length_reverse, length_le_bytes. Qed.

Lemma read_exact_app (a rest : list N) n : n = N.of_nat (length a) → read_exact n (a ++ rest) = Some (a, rest).
Proof.
  intros ->. unfold read_exact. rewrite decide_True by (rewrite length_app; lia).
  by rewrite Nat2N.id, take_app_length, drop_app_length.
Qed.

Lemma read_exact_shorter n stream a rest : read_exact n stream = Some (a, rest) → (length rest ≤ length stream)%nat.
Proof. unfold read_exact. case_decide; intros [= _ <-]. rewrite length_drop. lia. Qed.

Section frame_lemmas.
Context {E : Type} (io_len io protocol : string → E).

(** A frame that is not too large is read back, whatever follows it. *)
Lemma frame_round_trip data rest :
  N.of_nat (length data) ≤ MAX_FRAME_SIZE → read_frame io_len io protocol (write_frame data ++ rest) = Ok (data, rest).
Proof.
  unfold MAX_FRAME_SIZE. intros Hlen. unfold read_frame, write_frame. rewrite <- app_assoc.
  rewrite read_exact_app by (by rewrite length_be_bytes).
  rewrite N.mod_small by (unfold u32_modulus; lia). rewrite be_value_be_bytes by (simpl; lia).
  rewrite decide_False by (unfold MAX_FRAME_SIZE; lia). by rewrite read_exact_app.
Qed.

(** A larger one is refused, or cut short where its length does not fit 32 bits. *)
Lemma frame_too_large data rest :
  MAX_FRAME_SIZE < N.of_nat (length data) →
  match read_frame io_len io protocol (write_frame data ++ rest) with
  | Ok (frame, _) => ∃ n, (n < length data)%nat ∧ frame = take n data
  | Err e => ∃ msg, e = protocol msg
  end.
Proof.
  intros Hlen. unfold read_frame, write_frame. rewrite <- app_assoc.
  rewrite read_exact_app by (by rewrite length_be_bytes).
  set (n := N.of_nat (length data) `mod` u32_modulus).
  rewrite be_value_be_bytes by (apply N.mod_lt; done).
  destruct (decide (MAX_FRAME_SIZE < n)) as [|Hn]; [by eexists|].
  unfold read_exact. rewrite decide_True by (rewrite length_app; lia).
  exists (N.to_nat n). split; [lia|]. apply take_app_le. lia.
Qed.

(** Reading a frame consumes bytes. *)
Lemma read_frame_shorter stream frame rest :
  read_frame io_len io protocol stream = Ok (frame, rest) → (length rest < length stream)%nat.
Proof.
  unfold read_frame. destruct (read_exact 4 stream) as [[pre s]|] eqn:H4; [|done].
  assert (length s < length stream)%nat.
  { unfold read_exact in H4. case_decide; [|done]. injection H4 as <- <-. rewrite length_drop. lia. }
  case_decide; [done|]. destruct (read_exact _ s) as [[f r]|] eqn:Hr; [|done]. intros [= <- <-].
  apply read_exact_shorter in Hr. lia.
Qed.

End frame_lemmas.

Section server_lemmas.
Context `{!UuidDisplay} `{!Hmac} `{!UuidError}.
Context `{!JsonCodec ProtocolMessage} `{!JsonCodec HandshakeRequest} `{!JsonCodec HandshakeResponse}.
Context {St : Type} `{!DataPlaneHandler St}.
Implicit Types h : St.

(** What a client sends for a request. *)
Inductive ClientRequest :=
  | ClientWrite (req : WriteExtentRequest) (payload : list N)
  | ClientRead (req : ReadExtentRequest).

Definition encode_request (r : ClientRequest) : list N :=
  match r with
  | ClientWrite req payload => write_frame (json_to_vec (WriteReq req)) ++ payload
  | ClientRead req => write_frame (json_to_vec (ReadReq req))
  end.

(** The header announces the payload, and the message fits a frame. *)
Definition request_ok (r : ClientRequest) : Prop :=
  match r with
  | ClientWrite req payload =>
      wq_payload_size req = N.of_nat (length payload) ∧
      N.of_nat (length (json_to_vec (WriteReq req))) ≤ MAX_FRAME_SIZE
  | ClientRead req => N.of_nat (length (json_to_vec (ReadReq req))) ≤ MAX_FRAME_SIZE
  end.

(** The handler's answer to a request, as sent; [None] when there is none. *)
Definition answer_request (r : ClientRequest) h : St * option (list N) :=
  match r with
  | ClientWrite req payload =>
      let '(h, resp) := dp_handle_write req payload h in
      (h, (λ resp, write_frame (json_to_vec (WriteResp resp))) <$> resp)
  | ClientRead req =>
      match dp_handle_read req h with
      | (h, Return (Some (resp, data))) => (h, Some (write_frame (json_to_vec (ReadResp resp)) ++ default [] data))
      | (h, _) => (h, None)
      end
  end.

(** The requests one after the other. *)
Fixpoint answer_requests (rs : list ClientRequest) h : St * option (list N) :=
  match rs with
  | [] => (h, Some [])
  | r :: rs =>
      match answer_request r h with
      | (h, Some out) => let '(h, outs) := answer_requests rs h in (h, (λ outs, out ++ outs) <$> outs)
      | (h, None) => (h, None)
      end
  end.

Lemma serve_request_ok r rest h h' out :
  request_ok r → answer_request r h = (h', Some out) →
  serve_request (encode_request r ++ rest) h = (h', Answered out rest).
Proof.
  unfold serve_request. destruct r as [req payload|req]; cbn [encode_request answer_request request_ok].
  - intros [Hsize Hlen]. rewrite <- app_assoc, frame_round_trip by done. rewrite json_round_trip.
    rewrite read_exact_app by done. destruct (dp_handle_write req payload h) as [h1 [resp|]]; simpl; by intros [= <- <-].
  - intros Hlen. rewrite frame_round_trip by done. rewrite json_round_trip.
    destruct (dp_handle_read req h) as [h1 [[[resp data]|]|]]; by intros [= <- <-].
Qed.

Lemma request_loop_ok fuel rs output h h' outs :
  Forall request_ok rs → answer_requests rs h = (h', Some outs) → (length rs < fuel)%nat →
  request_loop fuel (concat (encode_request <$> rs)) output h = (h', output ++ outs, Some (Ok tt)).
Proof.
  intros Hok. revert fuel output h outs. induction Hok as [|r rs Hr _ IH]; intros fuel output h outs Hrun Hfuel;
    (destruct fuel as [|fuel]; [simpl in Hfuel; lia|]); cbn [request_loop answer_requests length] in *.
  - injection Hrun as <- <-. by rewrite app_nil_r.
  - destruct (answer_request r h) as [h1 [out|]] eqn:Hans; [|done].
    destruct (answer_requests rs h1) as [h2 [outs'|]] eqn:Hrest; [|done]. injection Hrun as <- <-.
    rewrite fmap_cons. cbn [concat]. rewrite (serve_request_ok _ _ _ _ _ Hr Hans). rewrite (IH fuel (output ++ out) h1 outs'); [|done|lia].
    by rewrite app_assoc.
Qed.

Lemma length_encode_requests rs : (length rs ≤ length (concat (encode_request <$> rs)))%nat.
Proof.
  induction rs as [|r rs IH]; csimpl; [done|]. rewrite length_app.
  assert (1 ≤ length (encode_request r))%nat; [|lia].
  destruct r; unfold encode_request, write_frame; rewrite ?length_app, length_be_bytes; lia.
Qed.

(** A rejected handshake reaches no handler. *)
Lemma negotiate_accepts now req nid provider resp id :
  negotiate_version_with_auth now req nid (Some provider) = (resp, id) → hs_accepted resp = true →
  ∃ token identity, hq_auth_token req = Some token ∧ validate_token now provider token = Ok identity ∧
    id = Some identity.
Proof.
  unfold negotiate_version_with_auth. destruct (negb _) eqn:Hacc.
  - intros [= <- <-] Hok. by rewrite Hok in Hacc.
  - destruct (hq_auth_token req) as [token|]; [|intros [= <- <-]; done].
    destruct (validate_token _ _ _) as [identity|] eqn:Hv; intros [= <- <-]; [|done]. by exists token, identity.
Qed.

End server_lemmas.

(** ** Theorems *)

Section server_theorems.
Context `{!UuidDisplay} `{!Hmac} `{!UuidError}.
Context `{!JsonCodec ProtocolMessage} `{!JsonCodec HandshakeRequest} `{!JsonCodec HandshakeResponse}.
Context {St : Type} `{!DataPlaneHandler St}.

(** A connection is served faithfully: after an accepted handshake the
    server decodes exactly the requests and payloads that the client encoded,
    hands them to the handler in order, once each, sends the answers in the same
    order, and ends cleanly when the client closes the connection. *)
Theorem connection_serves_requests now nid auth hreq rs (h h' : St) outs :
  N.of_nat (length (json_to_vec hreq)) ≤ MAX_FRAME_SIZE →
  hs_accepted (negotiate_version_with_auth now hreq nid auth).1 = true →
  Forall request_ok rs → answer_requests rs h = (h', Some outs) →
  handle_connection now nid auth (write_frame (json_to_vec hreq) ++ concat (encode_request <$> rs)) h =
    (h', write_frame (json_to_vec (negotiate_version_with_auth now hreq nid auth).1) ++ outs, Some (Ok tt)).
Proof.
  intros Hlen Hacc Hok Hrun. unfold handle_connection, serve_handshake. rewrite frame_round_trip by done. simpl.
  rewrite json_round_trip. destruct (negotiate_version_with_auth now hreq nid auth) as [resp id]. simpl in *.
  rewrite Hacc. apply (request_loop_ok (S (length (concat (encode_request <$> rs)))) rs (write_frame (json_to_vec resp)) h h' outs);
    [done..|]. pose proof (length_encode_requests rs). lia.
Qed.

(** C32: An unauthenticated connection reaches no handler: on a server with an
    authentication provider, whatever bytes a client sends, the handler's state
    changes only if the connection began with a handshake whose token validates. *)
Theorem unauthenticated_connection_has_no_effect now nid provider stream (h h' : St) out r :
  handle_connection now nid (Some provider) stream h = (h', out, r) →
  h' = h ∨
  ∃ frame rest hreq token identity,
    read_frame ServerIo ServerIo ServerProtocol stream = Ok (frame, rest) ∧ json_from_slice frame = Ok hreq ∧
    hq_auth_token hreq = Some token ∧ validate_token now provider token = Ok identity.
Proof.
  unfold handle_connection, serve_handshake. destruct (read_frame _ _ _ stream) as [[frame rest]|] eqn:Hf; [|intros [= <- _ _]; by left].
  destruct (json_from_slice frame) as [hreq|] eqn:Hj; [|intros [= <- _ _]; by left].
  destruct (negotiate_version_with_auth _ _ _ _) as [resp id] eqn:Hn.
  destruct (hs_accepted resp) eqn:Hacc; simpl; [|intros [= <- _ _]; by left]. intros _. right.
  destruct (negotiate_accepts _ _ _ _ _ _ Hn Hacc) as (token & identity & Ht & Hv & _).
  by exists frame, rest, hreq, token, identity.
Qed.

End server_theorems.

(** ** Witnesses *)

Module ProtocolDemo.

#[export] Existing Instance uuid_decimal.

#[export] Instance hmac_toy : Hmac := λ key msg, take 4 (reverse msg ++ key).

#[export] Instance uuid_error_toy : UuidError := λ s, "invalid uuid: " +:+ s.

(** A number as decimal digits would be long: its binary digits, closed by a brace. *)
Fixpoint binary (p : positive) : list N :=
  match p with xH => [125] | xO p => 48 :: binary p | xI p => 49 :: binary p end.

Fixpoint of_binary (bs : list N) : option positive :=
  match bs with
  | [] => None
  | b :: bs =>
      if decide (b = 125) then match bs with [] => Some xH | _ => None end
      else p ← of_binary bs; if decide (b = 48) then Some (xO p) else if decide (b = 49) then Some (xI p) else None
  end.

Lemma of_binary_binary p : of_binary (binary p) = Some p.
Proof. induction p as [p IH|p IH|]; simpl; [by rewrite IH..|done]. Qed.

Lemma of_binary_cut p n : (n < length (binary p))%nat → of_binary (take n (binary p)) = None.
Proof.
  revert n. induction p as [p IH|p IH|]; intros [|n] Hn; simpl in *; try done; [by rewrite IH by lia..|lia].
Qed.

(** A codec for every countable type. *)
Program Definition countable_codec (A : Type) `{Countable A} : JsonCodec A :=
  {| json_to_vec := λ a, binary (encode a);
     json_from_slice := λ bs, ok_or "invalid document" (of_binary bs ≫= decode) |}.
Next Obligation. intros A ? ? a. simpl. by rewrite of_binary_binary; simpl; rewrite decode_encode. Qed.
Next Obligation. intros A ? ? a n Hn. simpl. by rewrite of_binary_cut. Qed.

#[export] Instance epoch_eq : EqDecision EpochId.
Proof. solve_decision. Defined.

#[export] Instance epoch_countable : Countable EpochId := inj_countable' EpochId_as_u64 EpochId_new (λ '(EpochId_new _), eq_refl).

#[export] Instance token_eq : EqDecision AuthToken.
Proof. solve_decision. Defined.

#[export] Instance token_countable : Countable AuthToken :=
  inj_countable' (λ t, (at_identity t, at_issued_at_ms t, at_expires_at_ms t, at_signature t))
    (λ '(i, a, b, s), MkAuthToken i a b s) (λ '(MkAuthToken _ _ _ _), eq_refl).

#[export] Instance hreq_eq : EqDecision HandshakeRequest.
Proof. solve_decision. Defined.

#[export] Instance hreq_countable : Countable HandshakeRequest :=
  inj_countable' (λ m, (hq_protocol_version m, hq_node_id m, hq_session_id m, hq_features m, hq_auth_token m))
    (λ '(a, b, c, d, e), MkHandshakeRequest a b c d e) (λ '(MkHandshakeRequest _ _ _ _ _), eq_refl).

#[export] Instance hresp_eq : EqDecision HandshakeResponse.
Proof. solve_decision. Defined.

#[export] Instance hresp_countable : Countable HandshakeResponse :=
  inj_countable' (λ m, (hs_protocol_version m, hs_node_id m, hs_accepted m, hs_message m, hs_supported_features m,
                        hs_authenticated m))
    (λ '(a, b, c, d, e, f), MkHandshakeResponse a b c d e f) (λ '(MkHandshakeResponse _ _ _ _ _ _), eq_refl).

#[export] Instance wreq_eq : EqDecision WriteExtentRequest.
Proof. solve_decision. Defined.

#[export] Instance wreq_countable : Countable WriteExtentRequest :=
  inj_countable' (λ m, (wq_operation_id m, wq_session_id m, wq_volume_id m, wq_extent_id m, wq_extent_version m,
                        wq_epoch m, wq_target_disk_id m, wq_checksum m, wq_payload_size m, wq_lease_version m))
    (λ '(a, b, c, d, e, f, g, h, i, j), MkWriteExtentRequest a b c d e f g h i j)
    (λ '(MkWriteExtentRequest _ _ _ _ _ _ _ _ _ _), eq_refl).

#[export] Instance wresp_eq : EqDecision WriteExtentResponse.
Proof. solve_decision. Defined.

#[export] Instance wresp_countable : Countable WriteExtentResponse :=
  inj_countable' (λ m, (ws_operation_id m, ws_extent_id m, ws_extent_version m, ws_disk_id m, ws_success m,
                        ws_checksum m, ws_error m))
    (λ '(a, b, c, d, e, f, g), MkWriteExtentResponse a b c d e f g)
    (λ '(MkWriteExtentResponse _ _ _ _ _ _ _), eq_refl).

#[export] Instance rreq_eq : EqDecision ReadExtentRequest.
Proof. solve_decision. Defined.

#[export] Instance rreq_countable : Countable ReadExtentRequest :=
  inj_countable' (λ m, (rq_operation_id m, rq_session_id m, rq_volume_id m, rq_extent_id m, rq_extent_version m,
                        rq_epoch m, rq_offset m, rq_length m))
    (λ '(a, b, c, d, e, f, g, h), MkReadExtentRequest a b c d e f g h)
    (λ '(MkReadExtentRequest _ _ _ _ _ _ _ _), eq_refl).

#[export] Instance rresp_eq : EqDecision ReadExtentResponse.
Proof. solve_decision. Defined.

#[export] Instance rresp_countable : Countable ReadExtentResponse :=
  inj_countable' (λ m, (rs_operation_id m, rs_extent_id m, rs_extent_version m, rs_success m, rs_checksum m,
                        rs_payload_size m, rs_error m))
    (λ '(a, b, c, d, e, f, g), MkReadExtentResponse a b c d e f g)
    (λ '(MkReadExtentResponse _ _ _ _ _ _ _), eq_refl).

#[export] Instance msg_eq : EqDecision ProtocolMessage.
Proof. solve_decision. Defined.

Definition msg_code (m : ProtocolMessage) :
    HandshakeRequest + (HandshakeResponse + (WriteExtentRequest + (WriteExtentResponse +
      (ReadExtentRequest + ReadExtentResponse)))) :=
  match m with
  | HandshakeReq m => inl m
  | HandshakeResp m => inr (inl m)
  | WriteReq m => inr (inr (inl m))
  | WriteResp m => inr (inr (inr (inl m)))
  | ReadReq m => inr (inr (inr (inr (inl m))))
  | ReadResp m => inr (inr (inr (inr (inr m))))
  end.

Definition msg_of_code (c : HandshakeRequest + (HandshakeResponse + (WriteExtentRequest + (WriteExtentResponse +
    (ReadExtentRequest + ReadExtentResponse))))) : ProtocolMessage :=
  match c with
  | inl m => HandshakeReq m
  | inr (inl m) => HandshakeResp m
  | inr (inr (inl m)) => WriteReq m
  | inr (inr (inr (inl m))) => WriteResp m
  | inr (inr (inr (inr (inl m)))) => ReadReq m
  | inr (inr (inr (inr (inr m)))) => ReadResp m
  end.

Lemma msg_of_msg_code m : msg_of_code (msg_code m) = m.
Proof. by destruct m. Qed.

#[export] Instance msg_countable : Countable ProtocolMessage := inj_countable' msg_code msg_of_code msg_of_msg_code.

Definition hreq_codec : JsonCodec HandshakeRequest := countable_codec _.
#[export] Existing Instance hreq_codec.

Definition hresp_codec : JsonCodec HandshakeResponse := countable_codec _.
#[export] Existing Instance hresp_codec.

Definition msg_codec : JsonCodec ProtocolMessage := countable_codec _.
#[export] Existing Instance msg_codec.

(** A handler that counts what it stores. *)
#[export] Instance counting : DataPlaneHandler N :=
  {| dp_handle_write := λ req payload n,
       (n + N.of_nat (length payload),
        Some (MkWriteExtentResponse (wq_operation_id req) (wq_extent_id req) (wq_extent_version req)
                (DiskId_new 1) true (wq_checksum req) None));
     dp_handle_read := λ req n,
       (n, Return (Some (MkReadExtentResponse (rq_operation_id req) (rq_extent_id req) (rq_extent_version req)
                           false EmptyString 0 None, None))) |}.

Definition hello : HandshakeRequest := MkHandshakeRequest CURRENT_PROTOCOL_VERSION None None [] None.

Definition write_one : ClientRequest :=
  ClientWrite (MkWriteExtentRequest (OperationId_new 1) (SessionId_new 2) (VolumeId_new 3) (ExtentId_new 4) 1
    (EpochId_new 1) None "ab" 3 None) [7; 8; 9].

Definition read_one : ClientRequest :=
  ClientRead (MkReadExtentRequest (OperationId_new 1) (SessionId_new 2) (VolumeId_new 3) (ExtentId_new 4) 1
    (EpochId_new 1) 0 0).

Definition secret : SharedSecretAuth := MkAuth [1; 2; 3; 4; 5; 6; 7; 8].

End ProtocolDemo.
Import ProtocolDemo.

Lemma connection_serves_requests_witness :
  (handle_connection 0 (NodeId_new 9) None
     (write_frame (json_to_vec hello) ++ concat (encode_request <$> [write_one; read_one; write_one])) 0).1.1 = 6.
Proof.
  destruct (answer_requests [write_one; read_one; write_one] 0) as [h' [outs|]] eqn:Hrun;
    [|vm_compute in Hrun; discriminate].
  rewrite (connection_serves_requests 0 (NodeId_new 9) None hello [write_one; read_one; write_one] 0 h' outs).
  - vm_compute in Hrun. injection Hrun as <- _. reflexivity.
  - vm_compute. discriminate.
  - reflexivity.
  - repeat constructor; vm_compute; (reflexivity || discriminate).
  - exact Hrun.
Defined.

Lemma unauthenticated_connection_has_no_effect_witness :
  (handle_connection 0 (NodeId_new 9) (Some secret)
     (write_frame (json_to_vec hello) ++ encode_request write_one) 0).1.1 = 0.
Proof.
  destruct (handle_connection 0 (NodeId_new 9) (Some secret)
    (write_frame (json_to_vec hello) ++ encode_request write_one) 0) as [[h' out] r] eqn:Hrun.
  destruct (unauthenticated_connection_has_no_effect 0 (NodeId_new 9) secret
    (write_frame (json_to_vec hello) ++ encode_request write_one) 0 h' out r Hrun)
    as [->|(frame & rest & hreq & token & identity & Hf & Hj & Ht & _)]; [reflexivity|].
  rewrite frame_round_trip in Hf by (vm_compute; discriminate).
  assert (frame = json_to_vec hello) as -> by congruence.
  rewrite json_round_trip in Hj. assert (hreq = hello) as -> by congruence. discriminate Ht.
Defined.
