(* ===== verification/RaftRpc.v ===== *)
(** * Raft RPCs over TCP

    crates/blockyard-raft: frames (rpc.rs), the client side of an RPC
    (tcp_transport.rs), the server that dispatches it to the local Raft node
    (server.rs) and the in-memory router that stands in for both in tests (network.rs).
    The messages are openraft's ([RaftMessages]), their JSON form is serde's
    ([JsonCodec] of [Protocol]), the local node is the class [RaftLocal].  A connection may be refused, cut
    after any number of bytes in either direction, or time out ([Link]). *)

From S2P Require Import Prelude Text Common Placement Auth MetadataCache RaftTransport Protocol.

#[local] Open Scope N_scope.

(** ** Parameters *)

Class RaftMessages := {
  AppendEntriesRequest : Type;
  VoteRequest : Type;
  InstallSnapshotRequest : Type;
  AppendEntriesResponse : Type;
  VoteResponse : Type;
  InstallSnapshotResponse : Type;
  (** [HigherVote(Vote::new(0, 0))], and the other responses with that vote *)
  append_zero_vote : AppendEntriesResponse;
  vote_zero_vote : VoteResponse;
  install_zero_vote : InstallSnapshotResponse;
}.

(** The local [Raft] node; the error is the text of openraft's. *)
Class RaftLocal `{!RaftMessages} (R : Type) := {
  raft_append_entries : AppendEntriesRequest → R → R * result string AppendEntriesResponse;
  raft_vote : VoteRequest → R → R * result string VoteResponse;
  raft_install_snapshot : InstallSnapshotRequest → R → R * result string InstallSnapshotResponse;
}.

(** ** Frames (rpc.rs) *)

Inductive RaftRpc `{!RaftMessages} :=
  | RpcAppendEntries (req : AppendEntriesRequest)
  | RpcVote (req : VoteRequest)
  | RpcInstallSnapshot (req : InstallSnapshotRequest).

Inductive RaftRpcResponse `{!RaftMessages} :=
  | RespAppendEntries (resp : AppendEntriesResponse)
  | RespVote (resp : VoteResponse)
  | RespInstallSnapshot (resp : InstallSnapshotResponse).

Inductive IoErrorKind := UnexpectedEof | InvalidData | NotFound | TimedOut | ConnectionError.

Record IoError := MkIoError { ioe_kind : IoErrorKind; ioe_message : string }.

Definition RPC_MAX_FRAME : N := 64 * 1024 * 1024.

Section frames.
Context {T : Type} `{!JsonCodec T}.

(** The bytes on the wire: the length is cast to u32. *)
Definition rpc_write_frame (msg : T) : list N :=
  let payload := json_to_vec msg in
  let len := N.of_nat (length payload) `mod` u32_modulus in
  be_bytes 4 len ++ payload.

Definition rpc_read_frame (stream : list N) : result IoError (T * list N) :=
  match read_exact 4 stream with
  | None => Err (MkIoError UnexpectedEof unexpected_eof)
  | Some (len_buf, stream) =>
      let len := be_value len_buf in
      if decide (RPC_MAX_FRAME < len) then
        Err (MkIoError InvalidData ("frame too large: " +:+ u64_to_string len +:+ " bytes"))
      else
        match read_exact len stream with
        | None => Err (MkIoError UnexpectedEof unexpected_eof)
        | Some (buf, stream) =>
            match json_from_slice buf with
            | Ok msg => Ok (msg, stream)
            | Err e => Err (MkIoError InvalidData e)
            end
        end
  end.

End frames.

(** ** The server (server.rs) *)

Section server.
Context `{!RaftMessages} {R : Type} `{!RaftLocal R}.

Definition dispatch_rpc (rpc : RaftRpc) (raft : R) : R * RaftRpcResponse :=
  match rpc with
  | RpcAppendEntries req =>
      match raft_append_entries req raft with
      | (raft, Ok resp) => (raft, RespAppendEntries resp)
      | (raft, Err _) => (raft, RespAppendEntries append_zero_vote)
      end
  | RpcVote req =>
      match raft_vote req raft with
      | (raft, Ok resp) => (raft, RespVote resp)
      | (raft, Err _) => (raft, RespVote vote_zero_vote)
      end
  | RpcInstallSnapshot req =>
      match raft_install_snapshot req raft with
      | (raft, Ok resp) => (raft, RespInstallSnapshot resp)
      | (raft, Err _) => (raft, RespInstallSnapshot install_zero_vote)
      end
  end.

Context `{!JsonCodec RaftRpc} `{!JsonCodec RaftRpcResponse}.

(** One connection: the bytes that arrive, and the bytes that are sent back. *)
Definition handle_connection (received : list N) (raft : R) : R * result IoError (list N) :=
  match rpc_read_frame received with
  | Err e => (raft, Err e)
  | Ok (rpc, _) =>
      let '(raft, response) := dispatch_rpc rpc raft in
      (raft, Ok (rpc_write_frame response))
  end.

(** ** The client (tcp_transport.rs) *)

(** What the network does with one RPC: the error of connecting, the bytes that arrive in
    each direction before the connection breaks, and whether the answer comes too late. *)
Record Link := MkLink {
  ln_connect : option IoError;
  ln_request : nat;
  ln_reply : nat;
  ln_late : bool;
}.

(** The Raft nodes by the address their server is bound to. *)
Abbreviation Servers := (gmap SocketAddr R) (only parsing).

Definition send_rpc (peers : PeerRegistry) (target : N) (link : Link) (rpc : RaftRpc) (servers : Servers)
    : Servers * result IoError RaftRpcResponse :=
  match peer_get target peers with
  | None => (servers, Err (MkIoError NotFound ("no address registered for node " +:+ u64_to_string target)))
  | Some addr =>
      match ln_connect link, servers !! addr with
      | Some e, _ => (servers, Err e)
      | None, None => (servers, Err (MkIoError ConnectionError "connection refused"))
      | None, Some raft =>
          let '(raft, sent) := handle_connection (take (ln_request link) (rpc_write_frame rpc)) raft in
          let reply := match sent with Ok bytes => take (ln_reply link) bytes | Err _ => [] end in
          (<[addr := raft]> servers,
           if ln_late link then
             Err (MkIoError TimedOut ("RPC timeout to node " +:+ u64_to_string target +:+ " at " +:+ to_string addr))
           else fst <$> rpc_read_frame reply)
      end
  end.

Inductive RPCError :=
  | RpcNetwork (e : IoError)
  | RpcRemote (target : N) (e : string).

Definition unexpected_variant : RPCError := RpcNetwork (MkIoError InvalidData "unexpected response variant").

(** The response of the expected kind. *)
Definition expect_response {A} (get : RaftRpcResponse → option A) (r : result IoError RaftRpcResponse) : result RPCError A :=
  match r with
  | Err e => Err (RpcNetwork e)
  | Ok resp => match get resp with Some a => Ok a | None => Err unexpected_variant end
  end.

Definition as_append (r : RaftRpcResponse) := match r with RespAppendEntries a => Some a | _ => None end.
Definition as_vote (r : RaftRpcResponse) := match r with RespVote a => Some a | _ => None end.
Definition as_install (r : RaftRpcResponse) := match r with RespInstallSnapshot a => Some a | _ => None end.

Definition tcp_append_entries peers target link req servers : Servers * result RPCError AppendEntriesResponse :=
  let '(servers, r) := send_rpc peers target link (RpcAppendEntries req) servers in
  (servers, expect_response as_append r).

Definition tcp_install_snapshot peers target link req servers : Servers * result RPCError InstallSnapshotResponse :=
  let '(servers, r) := send_rpc peers target link (RpcInstallSnapshot req) servers in
  (servers, expect_response as_install r).

Definition tcp_vote peers target link req servers : Servers * result RPCError VoteResponse :=
  let '(servers, r) := send_rpc peers target link (RpcVote req) servers in
  (servers, expect_response as_vote r).

End server.

(** ** The in-memory router (network.rs) *)

Section router.
Context `{!RaftMessages} {R : Type} `{!RaftLocal R}.

Abbreviation Router := (gmap N R) (only parsing).

Definition router_add_node (id : N) (raft : R) (router : Router) : Router := <[id := raft]> router.

Definition router_remove_node (id : N) (router : Router) : Router := delete id router.

(** An RPC on the target's node, where the router has it. *)
Definition on_target {A} (target : N) (call : R → R * result string A) (router : Router) : Router * result RPCError A :=
  match router !! target with
  | None => (router, Err (RpcNetwork (MkIoError NotFound ("node " +:+ u64_to_string target +:+ " not found in router"))))
  | Some raft =>
      let '(raft, r) := call raft in
      (<[target := raft]> router, match r with Ok a => Ok a | Err e => Err (RpcRemote target e) end)
  end.

Definition router_append_entries target req := on_target target (raft_append_entries req).
Definition router_install_snapshot target req := on_target target (raft_install_snapshot req).
Definition router_vote target req := on_target target (raft_vote req).

End router.

(** ** Frames arrive whole or not at all *)

Section frame_lemmas.
Context {T : Type} `{!JsonCodec T}.
Implicit Types m : T.

(** A message that the receiver accepts. *)
Definition fits_frame m : Prop := N.of_nat (length (json_to_vec m)) ≤ RPC_MAX_FRAME.

Lemma rpc_frame_round_trip m rest : fits_frame m → rpc_read_frame (rpc_write_frame m ++ rest) = Ok (m, rest).
Proof.
  unfold fits_frame, RPC_MAX_FRAME. intros Hlen. unfold rpc_read_frame, rpc_write_frame. rewrite <- app_assoc.
  rewrite read_exact_app by (by rewrite length_be_bytes).
  rewrite N.mod_small by (unfold u32_modulus; lia). rewrite be_value_be_bytes by (simpl; lia).
  rewrite decide_False by (unfold RPC_MAX_FRAME; lia). rewrite read_exact_app by done. by rewrite json_round_trip.
Qed.

(** What is read of a part of a frame is the message, and then the whole frame was there. *)
Lemma rpc_read_prefix m n m' rest :
  rpc_read_frame (take n (rpc_write_frame m)) = Ok (m', rest) → m' = m ∧ fits_frame m.
Proof.
  unfold rpc_read_frame, rpc_write_frame. set (payload := json_to_vec m).
  set (len := N.of_nat (length payload) `mod` u32_modulus).
  assert (len < u32_modulus) as Hlen by by apply N.mod_lt.
  destruct (decide (n < 4)%nat) as [Hn|Hn].
  { unfold read_exact at 1. rewrite decide_False; [done|]. rewrite length_take. lia. }
  rewrite take_app_ge by (rewrite length_be_bytes; lia).
  rewrite read_exact_app by (by rewrite length_be_bytes). rewrite be_value_be_bytes by (unfold u32_modulus in Hlen; simpl; lia).
  rewrite length_be_bytes. case_decide as Hmax; [done|].
  unfold read_exact. case_decide as Hle; [|done]. rewrite take_take. rewrite length_take in Hle.
  rewrite Nat.min_l by lia. assert (len = N.of_nat (length payload) ∨ (N.to_nat len < length payload)%nat) as [Heq|Hlt] by lia.
  - rewrite Heq, Nat2N.id, take_ge by done. unfold payload. rewrite json_round_trip.
    intros [= <- _]. split; [done|]. unfold fits_frame. fold payload. lia.
  - pose proof (json_cut_short m _ Hlt) as Hcut. fold payload in Hcut. by destruct (json_from_slice (take _ payload)).
Qed.

End frame_lemmas.

(** ** Theorems *)

Section theorems.
Context `{!RaftMessages} {R : Type} `{!RaftLocal R} `{!JsonCodec RaftRpc} `{!JsonCodec RaftRpcResponse}.
Implicit Types (servers : gmap SocketAddr R) (rpc : RaftRpc).

(** A server that gets a part of a request either does nothing or serves the request. *)
Lemma handle_connection_prefix rpc n raft raft' sent :
  handle_connection (take n (rpc_write_frame rpc)) raft = (raft', sent) →
  (raft' = raft ∧ is_ok sent = false) ∨
  (raft' = (dispatch_rpc rpc raft).1 ∧ sent = Ok (rpc_write_frame (dispatch_rpc rpc raft).2)).
Proof.
  unfold handle_connection. destruct (rpc_read_frame _) as [[rpc' rest]|e] eqn:Hr.
  - apply rpc_read_prefix in Hr as [-> _]. destruct (dispatch_rpc rpc raft) as [raft1 resp].
    intros [= <- <-]. by right.
  - intros [= <- <-]. by left.
Qed.

(** C19: A Raft RPC over TCP takes effect at most once, at the right node: whatever the
    network does, a call changes at most the node bound to the address registered for the
    target, and that node by serving exactly this request once; and when the call returns
    a response, the request was served and the response is the node's. *)
Theorem raft_rpc_at_most_once peers target link rpc servers servers' r :
  send_rpc peers target link rpc servers = (servers', r) →
  (servers' = servers ∧ is_ok r = false) ∨
  ∃ addr raft, peer_get target peers = Some addr ∧ servers !! addr = Some raft ∧
    (servers' = servers ∨ servers' = <[addr := (dispatch_rpc rpc raft).1]> servers) ∧
    ∀ resp, r = Ok resp →
      servers' = <[addr := (dispatch_rpc rpc raft).1]> servers ∧ resp = (dispatch_rpc rpc raft).2.
Proof.
  unfold send_rpc. destruct (peer_get target peers) as [addr|]; [|intros [= <- <-]; by left].
  destruct (ln_connect link); [intros [= <- <-]; by left|].
  destruct (servers !! addr) as [raft|] eqn:Hraft; [|intros [= <- <-]; by left].
  destruct (handle_connection _ _) as [raft' sent] eqn:Hc. intros [= <- <-]. right. exists addr, raft.
  split_and!; [done..| |]; apply handle_connection_prefix in Hc as [[-> Hs]|[-> ->]].
  - left. by apply insert_id.
  - by right.
  - destruct sent; [done|]. intros resp Hr. by destruct (ln_late link).
  - intros resp Hr. split; [done|]. destruct (ln_late link); [done|].
    destruct (rpc_read_frame (take _ _)) as [[resp' rest]|] eqn:Hread; [|done]. injection Hr as <-.
    by apply rpc_read_prefix in Hread as [-> _].
Qed.

(** *** TCP and the router *)

(** The network delivers every byte in time. *)
Definition perfect (link : Link) (rpc : RaftRpc) (resp : RaftRpcResponse) : Prop :=
  ln_connect link = None ∧ ln_late link = false ∧
  (length (rpc_write_frame rpc) ≤ ln_request link)%nat ∧ (length (rpc_write_frame resp) ≤ ln_reply link)%nat ∧
  fits_frame rpc ∧ fits_frame resp.

(** The servers behind the registered addresses are the nodes of the router. *)
Definition same_nodes (peers : PeerRegistry) servers (router : gmap N R) : Prop :=
  (∀ id, router !! id = peer_get id peers ≫= λ addr, servers !! addr) ∧
  (∀ i j addr, peer_get i peers = Some addr → peer_get j peers = Some addr → i = j).

Lemma send_rpc_perfect peers target link rpc servers addr raft :
  peer_get target peers = Some addr → servers !! addr = Some raft → perfect link rpc (dispatch_rpc rpc raft).2 →
  send_rpc peers target link rpc servers = (<[addr := (dispatch_rpc rpc raft).1]> servers, Ok (dispatch_rpc rpc raft).2).
Proof.
  intros Hp Hs (Hc & Hl & Hq & Ha & Hf1 & Hf2). unfold send_rpc. rewrite Hp, Hc, Hs.
  unfold handle_connection. rewrite take_ge by done.
  pose proof (rpc_frame_round_trip rpc [] Hf1) as Hrt. rewrite app_nil_r in Hrt. rewrite Hrt.
  destruct (dispatch_rpc rpc raft) as [raft' resp]. simpl in *. rewrite take_ge by done. rewrite Hl.
  pose proof (rpc_frame_round_trip resp [] Hf2) as Hrt2. rewrite app_nil_r in Hrt2. by rewrite Hrt2.
Qed.

Lemma same_nodes_insert peers servers router target addr raft' :
  same_nodes peers servers router → peer_get target peers = Some addr →
  same_nodes peers (<[addr := raft']> servers) (<[target := raft']> router).
Proof.
  intros [Hsame Hinj] Hp. split; [|done]. intros id. destruct (decide (id = target)) as [->|Hne].
  - rewrite lookup_insert_eq, Hp. simpl. by rewrite lookup_insert_eq.
  - rewrite lookup_insert_ne by done. rewrite Hsame.
    destruct (peer_get id peers) as [addr'|] eqn:Hp'; [|done]. simpl.
    rewrite lookup_insert_ne; [done|]. intros ->. destruct Hne. by eapply Hinj.
Qed.

(** The two results agree where the node answered; the TCP server turns an error of the
    node into a response. *)
Definition same_answer {A} (zero : A) (tcp routed : result RPCError A) : Prop :=
  match routed with
  | Ok a => tcp = Ok a
  | Err (RpcNetwork _) => ∃ e, tcp = Err (RpcNetwork e)
  | Err (RpcRemote _ _) => tcp = Ok zero
  end.

(** One call through both transports. *)
Lemma transports_agree {A} (wrap : RaftRpc) (zero : A) (get : RaftRpcResponse → option A) (call : R → R * result string A)
    peers target link servers router :
  (∀ raft, (dispatch_rpc wrap raft).1 = (call raft).1 ∧
     get (dispatch_rpc wrap raft).2 = Some (match (call raft).2 with Ok a => a | Err _ => zero end)) →
  same_nodes peers servers router →
  (∀ raft, router !! target = Some raft → perfect link wrap (dispatch_rpc wrap raft).2) →
  let tcp := send_rpc peers target link wrap servers in
  let routed := on_target target call router in
  same_nodes peers tcp.1 routed.1 ∧ same_answer zero (expect_response get tcp.2) routed.2.
Proof.
  intros Hd Hsame Hperf tcp routed. unfold routed, on_target.
  destruct (router !! target) as [raft|] eqn:Hr.
  - specialize (Hperf raft eq_refl). pose proof Hr as Hr'. destruct Hsame as [Hs Hinj].
    rewrite Hs in Hr'. apply bind_Some in Hr' as (addr & Hp & Haddr).
    unfold tcp. rewrite (send_rpc_perfect _ _ _ _ _ _ _ Hp Haddr Hperf). destruct (Hd raft) as [Hst Hget]. simpl.
    rewrite Hst, Hget. destruct (call raft) as [raft' [a|e]]; simpl; split; try done; by apply same_nodes_insert.
  - unfold tcp, send_rpc. destruct Hsame as [Hs Hinj]. specialize (Hs target) as Ht. rewrite Hr in Ht.
    destruct (peer_get target peers) as [addr|] eqn:Hp; simpl in Ht.
    + destruct (ln_connect link); [|rewrite <- Ht]; simpl; (split; [done|by eexists]).
    + simpl. split; [done|by eexists].
Qed.

(** C20: The TCP transport and the in-memory router that tests use in its place are the
    same: over a network that delivers, with the same nodes behind both, each of the three
    RPCs leaves the nodes the same, gives the same answer where the target answers, and a
    network error where it is unknown; only an error of the target itself, which the router
    reports, reaches a TCP client as a response with the vote zero. *)
Theorem tcp_transport_equivalent peers target link servers router :
  same_nodes peers servers router →
  (∀ req, (∀ raft, router !! target = Some raft → perfect link (RpcAppendEntries req) (dispatch_rpc (RpcAppendEntries req) raft).2) →
     let tcp := tcp_append_entries peers target link req servers in
     let routed := router_append_entries target req router in
     same_nodes peers tcp.1 routed.1 ∧ same_answer append_zero_vote tcp.2 routed.2) ∧
  (∀ req, (∀ raft, router !! target = Some raft → perfect link (RpcVote req) (dispatch_rpc (RpcVote req) raft).2) →
     let tcp := tcp_vote peers target link req servers in
     let routed := router_vote target req router in
     same_nodes peers tcp.1 routed.1 ∧ same_answer vote_zero_vote tcp.2 routed.2) ∧
  (∀ req, (∀ raft, router !! target = Some raft → perfect link (RpcInstallSnapshot req) (dispatch_rpc (RpcInstallSnapshot req) raft).2) →
     let tcp := tcp_install_snapshot peers target link req servers in
     let routed := router_install_snapshot target req router in
     same_nodes peers tcp.1 routed.1 ∧ same_answer install_zero_vote tcp.2 routed.2).
Proof.
  intros Hsame. split_and!; intros req Hperf tcp routed.
  - unfold tcp, tcp_append_entries. rewrite (surjective_pairing (send_rpc _ _ _ _ _)).
    apply transports_agree; [|done..]. intros raft. simpl. by destruct (raft_append_entries req raft) as [? []].
  - unfold tcp, tcp_vote. rewrite (surjective_pairing (send_rpc _ _ _ _ _)).
    apply transports_agree; [|done..]. intros raft. simpl. by destruct (raft_vote req raft) as [? []].
  - unfold tcp, tcp_install_snapshot. rewrite (surjective_pairing (send_rpc _ _ _ _ _)).
    apply transports_agree; [|done..]. intros raft. simpl. by destruct (raft_install_snapshot req raft) as [? []].
Qed.

End theorems.

(** ** Witnesses *)

Module RpcDemo.

(** Messages that are numbers, and a node that counts; it refuses the snapshot 0. *)
#[export] Instance number_messages : RaftMessages :=
  {| AppendEntriesRequest := N; VoteRequest := N; InstallSnapshotRequest := N;
     AppendEntriesResponse := N; VoteResponse := N; InstallSnapshotResponse := N;
     append_zero_vote := 0; vote_zero_vote := 0; install_zero_vote := 0 |}.

#[export] Instance counting_node : RaftLocal N :=
  {| raft_append_entries := λ req n, (n + 1, Ok (req + n));
     raft_vote := λ req n, (n + 1, Ok n);
     raft_install_snapshot := λ req n, if decide (req = 0) then (n, Err "snapshot mismatch") else (req, Ok req) |}.

Definition rpc_code (r : RaftRpc) : N + (N + N) :=
  match r with RpcAppendEntries a => inl a | RpcVote a => inr (inl a) | RpcInstallSnapshot a => inr (inr a) end.

Definition rpc_of_code (c : N + (N + N)) : RaftRpc :=
  match c with inl a => RpcAppendEntries a | inr (inl a) => RpcVote a | inr (inr a) => RpcInstallSnapshot a end.

Definition resp_code (r : RaftRpcResponse) : N + (N + N) :=
  match r with RespAppendEntries a => inl a | RespVote a => inr (inl a) | RespInstallSnapshot a => inr (inr a) end.

Definition resp_of_code (c : N + (N + N)) : RaftRpcResponse :=
  match c with inl a => RespAppendEntries a | inr (inl a) => RespVote a | inr (inr a) => RespInstallSnapshot a end.

(** A codec through an injection. *)
Program Definition iso_codec {A B} (code : A → B) (of_code : B → A) (of_code_code : ∀ a, of_code (code a) = a)
    (codec : JsonCodec B) : JsonCodec A :=
  {| json_to_vec := λ a, json_to_vec (code a);
     json_from_slice := λ bs, of_code <$> json_from_slice bs |}.
Next Obligation. intros A B code of_code Hc codec a. simpl. rewrite json_round_trip. simpl. by rewrite Hc. Qed.
Next Obligation.
  intros A B code of_code Hc codec a n Hn. simpl. pose proof (json_cut_short _ _ Hn) as Hcut.
  by destruct (json_from_slice (take n _)).
Qed.

#[export] Instance rpc_codec : JsonCodec RaftRpc :=
  iso_codec rpc_code rpc_of_code (λ r, match r with RpcAppendEntries _ | RpcVote _ | RpcInstallSnapshot _ => eq_refl end)
    (ProtocolDemo.countable_codec _).

#[export] Instance resp_codec : JsonCodec RaftRpcResponse :=
  iso_codec resp_code resp_of_code (λ r, match r with RespAppendEntries _ | RespVote _ | RespInstallSnapshot _ => eq_refl end)
    (ProtocolDemo.countable_codec _).

Definition addr (i : N) : SocketAddr := MkSocketAddr "10.0.0.1" i.

Definition peers : PeerRegistry := {[2 := addr 9810]}.

Definition servers : gmap SocketAddr N := {[addr 9810 := 5]}.

Definition router : gmap N N := {[2 := 5]}.

Definition good : Link := MkLink None 1000 1000 false.

Definition append : RaftRpc := @RpcAppendEntries number_messages 7.

(** The request arrives, the reply is cut after three bytes. *)
Definition cut : Link := MkLink None 1000 3 false.

End RpcDemo.
Import RpcDemo.

Lemma raft_rpc_at_most_once_witness :
  let out := send_rpc peers 2 cut append servers in
  out.1 !! addr 9810 = Some 6 ∧ is_ok out.2 = false ∧
  (out.1 = servers ∧ is_ok out.2 = false ∨ ∃ a raft, peer_get 2 peers = Some a ∧ servers !! a = Some raft).
Proof.
  intros out. split; [vm_compute; reflexivity|]. split; [vm_compute; reflexivity|].
  destruct (raft_rpc_at_most_once peers 2 cut append servers out.1 out.2 (surjective_pairing _))
    as [Hno|(a & raft & Ha & Hraft & _)]; [left; exact Hno|right; exists a, raft; split; [exact Ha|exact Hraft]].
Defined.

Lemma tcp_transport_equivalent_witness :
  same_answer vote_zero_vote (tcp_vote (H := number_messages) peers 2 good 7 servers).2 (router_vote (H := number_messages) 2 7 router).2.
Proof.
  assert (same_nodes peers servers router) as Hsame.
  { split.
    - intros id. destruct (decide (id = 2)) as [->|Hne]; [reflexivity|].
      assert (peer_get id peers = None) as Hnone by (apply (lookup_singleton_ne (M := gmap N)); auto).
      rewrite Hnone. unfold router. rewrite lookup_singleton_ne by auto. reflexivity.
    - assert (∀ i a, peer_get i peers = Some a → i = 2) as Htwo.
      { intros i a Hi. destruct (decide (i = 2)) as [->|Hne]; [reflexivity|].
        assert (peer_get i peers = None) as Hnone by (apply (lookup_singleton_ne (M := gmap N)); auto). congruence. }
      intros i j a Hi Hj. rewrite (Htwo i a Hi), (Htwo j a Hj). reflexivity. }
  destruct (tcp_transport_equivalent peers 2 good servers router Hsame) as (_ & Hvote & _).
  apply (Hvote 7). intros raft Hraft. assert (raft = 5) as -> by (vm_compute in Hraft; congruence).
  split; [reflexivity|]. split; [reflexivity|]. split; [vm_compute; lia|]. split; [vm_compute; lia|].
  split; vm_compute; discriminate.
Defined.

(** An error of the node that installs a snapshot reaches the leader as a response: over
    TCP, a snapshot that the target refused looks installed. *)
Theorem refused_snapshot_looks_installed :
  (router_install_snapshot (H := number_messages) 2 0 router).2 = Err (RpcRemote 2 "snapshot mismatch") ∧
  (tcp_install_snapshot (H := number_messages) peers 2 good 0 servers).2 = Ok install_zero_vote ∧
  (tcp_install_snapshot (H := number_messages) peers 2 good 0 servers).1 !! addr 9810 = Some 5.
Proof. split_and!; vm_compute; reflexivity. Qed.
