(* ===== verification/DataNode.v ===== *)
(** * The data node service (crates/blockyard-storage/src/service.rs, failure.rs)

    Write reception and read service with access control, duplicate suppression,
    epoch and lease fencing, disk selection and the reaction to disk errors; the
    durable operation log; disk failure and node recovery.  Every mount path is a
    file system of its own ([FileSystem]); a run that stops part way gives no
    response.  The JSON form of operation records is the parameter [RecordCodec];
    the clock and generated identifiers are arguments. *)

From S2P Require Import Prelude Text Common Placement Checksum DiskInventory FileSystem ExtentStore Auth Protocol.

#[local] Open Scope N_scope.

(** ** Operation log *)

Record OperationRecord := MkOperationRecord {
  or_operation_id : OperationId;
  or_extent_id : ExtentId;
  or_extent_version : N;
  or_disk_id : DiskId;
  or_checksum : string;
  or_success : bool;
}.

(** [serde_json] on [OperationRecord]: one line of text. *)
Class RecordCodec := {
  record_to_json : OperationRecord → list N;
  record_from_json : list N → result string OperationRecord;
  record_round_trip : ∀ r, record_from_json (record_to_json r) = Ok r;
  record_utf8 : ∀ r, is_utf8 (record_to_json r) = true;
  record_one_line : ∀ r, 10 ∉ record_to_json r ∧ last (record_to_json r) ≠ Some 13;
}.

Abbreviation OperationLog := (gmap OperationId OperationRecord) (only parsing).

Definition OPLOG_FILENAME : string := "oplog.jsonl".

Definition MAX_OPLOG_FILE_SIZE : N := 10 * 1024 * 1024.

Definition MAX_OPERATION_LOG_SIZE : nat := 10000.

(** The open log: its directory, and of the handle whether it still refers to the
    rotated file and its stream position. *)
Record DurableOpLog := MkOpLog { ol_dir : Path; ol_on_rotated : bool; ol_position : N }.

Definition oplog_path (dir : Path) : Path := dir ++ [OPLOG_FILENAME].

Definition oplog_rotated (dir : Path) : Path := dir ++ [OPLOG_FILENAME +:+ ".old"].

(** The file behind the handle. *)
Definition ol_file (log : DurableOpLog) : Path :=
  if ol_on_rotated log then oplog_rotated (ol_dir log) else oplog_path (ol_dir log).

(** [BufRead::lines]: the text between line feeds, without a trailing carriage return. *)
Definition strip_cr (line : list N) : list N :=
  if decide (last line = Some 13) then removelast line else line.

Fixpoint split_lines (line bs : list N) : list (list N) :=
  match bs with
  | [] => match line with [] => [] | _ => [strip_cr line] end
  | b :: bs => if decide (b = 10) then strip_cr line :: split_lines [] bs else split_lines (line ++ [b]) bs
  end.

Section oplog.
Context `{!RecordCodec} {X : Type}.

(** Lines that do not parse are skipped, blank ones included; reading stops at
    the first line that is not UTF-8. *)
Fixpoint replay (lines : list (list N)) (map : OperationLog) : OperationLog :=
  match lines with
  | [] => map
  | line :: lines =>
      if is_utf8 line then
        match record_from_json line with
        | Ok record => replay lines (<[or_operation_id record := record]> map)
        | Err _ => replay lines map
        end
      else map
  end.

(** [OpenOptions::create(true).append(true)]. *)
Definition open_append (p : Path) : IO X unit :=
  syscall Io (λ fs, Ok (match fs_files fs !! p with Some _ => fs | None => fs_write p [] fs end, tt)) no_tear.

Definition oplog_open (dir : Path) : IO X (DurableOpLog * OperationLog) :=
  _ ← create_dir_all dir;
  let path := oplog_path dir in
  found ← path_exists path;
  map ← (if found : bool then
           _ ← open_dir Io path;
           content ← io_look (λ files, default [] (files !! path));
           mret (replay (split_lines [] content) ∅)
         else mret ∅);
  _ ← open_append path;
  mret (MkOpLog dir false 0, map).

Definition ol_length (log : DurableOpLog) : IO X N :=
  io_look (λ files, N.of_nat (length (default [] (files !! ol_file log)))).

(** A handle opened for appending stands at 0; bytes that reach the file leave it at
    the end of the file, a write that fails outright leaves it where it was. *)
Definition moved_to (before after : N) (log : DurableOpLog) : DurableOpLog :=
  if decide (before = after) then log else MkOpLog (ol_dir log) (ol_on_rotated log) after.

Definition maybe_rotate (log : DurableOpLog) : IO X DurableOpLog :=
  if decide (MAX_OPLOG_FILE_SIZE < ol_position log) then
    let path := oplog_path (ol_dir log) in
    let rotated := oplog_rotated (ol_dir log) in
    moved ← io_try (rename Io path rotated);
    opened ← io_try (open_append path);
    mret (if is_ok opened then MkOpLog (ol_dir log) false 0
          else MkOpLog (ol_dir log) (is_ok moved || ol_on_rotated log) (ol_position log))
  else mret log.

(** A record that cannot be written is dropped with a warning. *)
Definition oplog_append (log : DurableOpLog) (record : OperationRecord) : IO X DurableOpLog :=
  before ← ol_length log;
  _ ← io_try (_ ← write_all Io (ol_file log) (record_to_json record ++ [10]); sync_all Io (ol_file log));
  after ← ol_length log;
  maybe_rotate (moved_to before after log).

End oplog.

(** ** State *)

Record CachedLease := MkCachedLease { cl_session_id : SessionId; cl_lease_version : N }.

Record DataNodeService := MkService {
  dn_current_epoch : EpochId;
  dn_operation_log : OperationLog;
  dn_durable_oplog : option DurableOpLog;
  dn_stores : gmap DiskId ExtentStore;
  dn_inventory : DiskInventory;
  dn_index : ExtentIndex;
  dn_lease_cache : gmap VolumeId CachedLease;
  dn_volume_acl : VolumeAcl;
}.

Definition DataNodeService_new (inventory : DiskInventory) (index : ExtentIndex) (epoch : EpochId) : DataNodeService :=
  MkService epoch ∅ None ∅ inventory index ∅ VolumeAcl_new.

(** The service, the file systems by mount path, and the events to come. *)
Record Node := MkNode {
  nd_service : DataNodeService;
  nd_fs : gmap Path FS;
  nd_events : list IoEvent;
}.

Definition node_fs (root : Path) (nd : Node) : FS := default (MkFS ∅ ∅ ∅) (nd_fs nd !! root).

Definition run_io {A} (root : Path) (m : IO unit A) (nd : Node) : Node * outcome A :=
  let '(w, o) := m (MkWorld (node_fs root nd) (nd_events nd) tt) in
  (MkNode (nd_service nd) (<[root := w_fs w]> (nd_fs nd)) (w_events w), o).

Definition on_service (f : DataNodeService → DataNodeService) (nd : Node) : Node :=
  MkNode (f (nd_service nd)) (nd_fs nd) (nd_events nd).

Definition set_oplog (l : OperationLog) (d : option DurableOpLog) (s : DataNodeService) : DataNodeService :=
  MkService (dn_current_epoch s) l d (dn_stores s) (dn_inventory s) (dn_index s) (dn_lease_cache s)
    (dn_volume_acl s).

Definition set_inventory (inv : DiskInventory) (s : DataNodeService) : DataNodeService :=
  MkService (dn_current_epoch s) (dn_operation_log s) (dn_durable_oplog s) (dn_stores s) inv (dn_index s)
    (dn_lease_cache s) (dn_volume_acl s).

Definition set_index (idx : ExtentIndex) (s : DataNodeService) : DataNodeService :=
  MkService (dn_current_epoch s) (dn_operation_log s) (dn_durable_oplog s) (dn_stores s) (dn_inventory s) idx
    (dn_lease_cache s) (dn_volume_acl s).

Definition set_lease_cache (c : gmap VolumeId CachedLease) (s : DataNodeService) : DataNodeService :=
  MkService (dn_current_epoch s) (dn_operation_log s) (dn_durable_oplog s) (dn_stores s) (dn_inventory s)
    (dn_index s) c (dn_volume_acl s).

Definition register_store (disk_id : DiskId) (store : ExtentStore) (s : DataNodeService) : DataNodeService :=
  MkService (dn_current_epoch s) (dn_operation_log s) (dn_durable_oplog s) (<[disk_id := store]> (dn_stores s))
    (dn_inventory s) (dn_index s) (dn_lease_cache s) (dn_volume_acl s).

Definition dn_set_epoch (epoch : EpochId) (s : DataNodeService) : DataNodeService :=
  MkService epoch (dn_operation_log s) (dn_durable_oplog s) (dn_stores s) (dn_inventory s) (dn_index s)
    (dn_lease_cache s) (dn_volume_acl s).

(** ** Leases *)

Definition update_lease (volume_id : VolumeId) (session_id : SessionId) (lease_version : N) (s : DataNodeService)
    : DataNodeService :=
  let fresh := set_lease_cache (<[volume_id := MkCachedLease session_id lease_version]> (dn_lease_cache s)) s in
  match dn_lease_cache s !! volume_id with
  | Some existing => if decide (lease_version ≤ cl_lease_version existing) then s else fresh
  | None => fresh
  end.

Definition revoke_lease (volume_id : VolumeId) (s : DataNodeService) : DataNodeService :=
  set_lease_cache (delete volume_id (dn_lease_cache s)) s.

Section service.
Context `{!UuidDisplay} `{!Blake3} `{!MetaCodec} `{!RecordCodec}.
Context `{!HashIter OperationId} `{!HashIter DiskId}.
Implicit Types (s : DataNodeService) (nd : Node).

Definition validate_write_lease (request : WriteExtentRequest) s : result string unit :=
  match dn_lease_cache s !! wq_volume_id request with
  | None => Ok tt
  | Some cached =>
      match wq_lease_version request with
      | None => Err ("volume " +:+ to_string (wq_volume_id request)
                       +:+ " requires lease, but write has no lease_version")
      | Some request_version =>
          if decide (wq_session_id request = cl_session_id cached) then
            if decide (request_version < cl_lease_version cached) then
              Err ("stale lease version for volume " +:+ to_string (wq_volume_id request) +:+ ": request has "
                     +:+ to_string request_version +:+ ", current is " +:+ to_string (cl_lease_version cached))
            else Ok tt
          else Err ("lease for volume " +:+ to_string (wq_volume_id request) +:+ " held by session "
                      +:+ to_string (cl_session_id cached) +:+ ", write from "
                      +:+ to_string (wq_session_id request))
      end
  end.

(** ** Epochs *)

Definition validate_epoch (request_epoch : EpochId) s : result string unit :=
  let current := dn_current_epoch s in
  if decide (EpochId_as_u64 request_epoch < EpochId_as_u64 current) then
    Err ("stale epoch: request epoch " +:+ to_string request_epoch +:+ " < current " +:+ to_string current)
  else Ok tt.

Definition validate_epoch_for_read (request_epoch : EpochId) s : result string unit :=
  let current := dn_current_epoch s in
  if decide (u64_sat_add (EpochId_as_u64 request_epoch) 1 < EpochId_as_u64 current) then
    Err ("stale epoch for read: request epoch " +:+ to_string request_epoch +:+ " < current "
           +:+ to_string current +:+ " (tolerance exceeded)")
  else Ok tt.

(** ** Recording operations *)

Definition check_duplicate (op : OperationId) s : option OperationRecord := dn_operation_log s !! op.

(** The map after an insertion: when it is too large, the first keys of its
    iteration order go. *)
Definition log_insert (record : OperationRecord) (log : OperationLog) : OperationLog :=
  let log := <[or_operation_id record := record]> log in
  if decide (MAX_OPERATION_LOG_SIZE < size log)%nat then
    let evict_count := (size log - MAX_OPERATION_LOG_SIZE + MAX_OPERATION_LOG_SIZE / 10)%nat in
    let keys_to_remove := take evict_count (hash_keys log) in
    foldl (λ log key, delete key log) log keys_to_remove
  else log.

(** [None]: the machine stopped. *)
Definition record_operation (record : OperationRecord) nd : Node * option unit :=
  let insert_ d nd :=
    (on_service (λ s, set_oplog (log_insert record (dn_operation_log s)) d s) nd, Some tt) in
  match dn_durable_oplog (nd_service nd) with
  | None => insert_ None nd
  | Some log =>
      match run_io (ol_dir log) (oplog_append log record) nd with
      | (nd, Done (Ok log)) => insert_ (Some log) nd
      | (nd, Done (Err _)) => insert_ (Some log) nd
      | (nd, Crashed) => (nd, None)
      end
  end.

(** [generated] is the identifier used when the request names no disk. *)
Definition write_error (generated : DiskId) (request : WriteExtentRequest) (message : string) nd
    : Node * option WriteExtentResponse :=
  let disk_id := default generated (wq_target_disk_id request) in
  let record := MkOperationRecord (wq_operation_id request) (wq_extent_id request) (wq_extent_version request)
                  disk_id EmptyString false in
  let '(nd, r) := record_operation record nd in
  (nd, (λ _, MkWriteExtentResponse (wq_operation_id request) (wq_extent_id request) (wq_extent_version request)
               disk_id false EmptyString (Some message)) <$> r).

Definition read_error (request : ReadExtentRequest) (message : string) : ReadExtentResponse :=
  MkReadExtentResponse (rq_operation_id request) (rq_extent_id request) (rq_extent_version request)
    false EmptyString 0 (Some message).

(** ** Disks *)

(** [unwrap_or] on a result. *)
Definition ok_default {E A} (d : A) (r : result E A) : A := match r with Ok a => a | Err _ => d end.

Definition eligible inv (disk_id : DiskId) : bool :=
  ok_default false (inv_allows_allocation disk_id inv) && negb (ok_default true (has_bad_regions disk_id inv)).

(** The first eligible disk in state [st]. *)
Definition first_candidate inv (st : DiskState) (disks : list DiskId) : option DiskId :=
  head (filter (λ d, eligible inv d = true ∧ result_ok (get_state d inv) = Some st) disks).

Definition select_write_disk (preferred : option DiskId) inv : result StorageError DiskId :=
  match preferred with
  | Some disk_id =>
      allowed ← inv_allows_allocation disk_id inv;
      if allowed : bool then
        if ok_default false (has_bad_regions disk_id inv) then
          Err (AllocationDenied ("preferred disk " +:+ to_string disk_id +:+ " has quarantined bad regions"))
        else Ok disk_id
      else Err (AllocationDenied ("preferred disk " +:+ to_string disk_id +:+ " does not allow allocation"))
  | None =>
      let disks := list_disks inv in
      match first_candidate inv Healthy disks, first_candidate inv Suspect disks with
      | Some id, _ => Ok id
      | None, Some id => Ok id
      | None, None => Err (AllocationDenied "no eligible disks for allocation")
      end
  end.

(** A transition whose result is ignored. *)
Definition mark_disk (disk_id : DiskId) (st : DiskState) nd : Node :=
  on_service (λ s, set_inventory (transition_state disk_id st (dn_inventory s)).1 s) nd.

Definition handle_xfs_error (disk_id : DiskId) (error : StorageError) nd : Node :=
  let error_str := to_string error in
  if str_contains "No space left" error_str || str_contains "read-only" error_str
     || str_contains "Structure needs cleaning" error_str
  then mark_disk disk_id Failed nd
  else if str_contains "Input/output error" error_str then mark_disk disk_id Degraded nd
  else nd.

Definition handle_read_error (disk_id : DiskId) (error : StorageError) nd : Node :=
  match error with
  | ChecksumMismatch _ => mark_disk disk_id Suspect nd
  | Io _ => mark_disk disk_id Degraded nd
  | _ => nd
  end.

(** ** Writes *)

Definition handle_write (generated : DiskId) (now_secs : N) (request : WriteExtentRequest) (payload : list N)
    (caller : PeerIdentity) nd : Node * option WriteExtentResponse :=
  let fail := write_error generated request in
  let s := nd_service nd in
  if negb (check_write (wq_volume_id request) caller (dn_volume_acl s)) then
    fail ("write denied: " +:+ to_string caller +:+ " not authorized for volume "
            +:+ to_string (wq_volume_id request)) nd
  else
  match check_duplicate (wq_operation_id request) s with
  | Some record =>
      (nd, Some (MkWriteExtentResponse (wq_operation_id request) (or_extent_id record) (or_extent_version record)
                   (or_disk_id record) (or_success record) (or_checksum record)
                   (if or_success record then None else Some "previous attempt failed")))
  | None =>
  match validate_epoch (wq_epoch request) s with
  | Err msg => fail msg nd
  | Ok _ =>
  match validate_write_lease request s with
  | Err msg => fail msg nd
  | Ok _ =>
  match select_write_disk (wq_target_disk_id request) (dn_inventory s) with
  | Err e => fail (to_string e) nd
  | Ok disk_id =>
  let payload_checksum := compute_checksum payload in
  if decide (wq_checksum request ≠ payload_checksum) then
    fail ("payload checksum mismatch: expected " +:+ wq_checksum request +:+ ", got " +:+ payload_checksum) nd
  else
  match dn_stores s !! disk_id with
  | None => fail ("no extent store for disk " +:+ to_string disk_id) nd
  | Some store =>
  match run_io (es_mount_path store)
          (stage_extent store (wq_extent_id request) (wq_extent_version request) payload) nd with
  | (nd, Crashed) => (nd, None)
  | (nd, Done (Err e)) => fail ("staging failed: " +:+ to_string e) (handle_xfs_error disk_id e nd)
  | (nd, Done (Ok (_, checksum))) =>
  match run_io (es_mount_path store)
          (commit_extent store now_secs (wq_extent_id request) (wq_extent_version request) checksum
             (N.of_nat (length payload)) Default) nd with
  | (nd, Crashed) => (nd, None)
  | (nd, Done (Err e)) => fail ("commit failed: " +:+ to_string e) (handle_xfs_error disk_id e nd)
  | (nd, Done (Ok entry)) =>
      let nd := on_service (λ s, set_index (index_insert entry (dn_index s)) s) nd in
      let record := MkOperationRecord (wq_operation_id request) (wq_extent_id request)
                      (wq_extent_version request) disk_id checksum true in
      let '(nd, r) := record_operation record nd in
      (nd, (λ _, MkWriteExtentResponse (wq_operation_id request) (wq_extent_id request)
                   (wq_extent_version request) disk_id true checksum None) <$> r)
  end
  end
  end
  end
  end
  end
  end.

(** ** Reads *)

(** The requested part of an extent, with zeros beyond its end.  The end of the
    range is computed modulo 2^64; when it wraps below the start the code
    subtracts with overflow or slices backwards, and panics. *)
Definition slice_payload (offset length_ : N) (data : list N) : exec (list N) :=
  if decide (offset = 0 ∧ length_ = 0) then Return data else
  let start := offset in
  let end_ := u64_add offset length_ in
  let len := N.of_nat (length data) in
  if decide (end_ < start) then Panic
  else if decide (len ≤ start) then Return (replicate (N.to_nat (end_ - start)) 0)
  else if decide (len < end_) then
    Return (drop (N.to_nat start) data ++ replicate (N.to_nat (end_ - len)) 0)
  else Return (take (N.to_nat (end_ - start)) (drop (N.to_nat start) data)).

Definition handle_read (request : ReadExtentRequest) (caller : PeerIdentity) nd
    : Node * exec (option (ReadExtentResponse * option (list N))) :=
  let fail msg nd : Node * exec (option (ReadExtentResponse * option (list N))) :=
    (nd, Return (Some (read_error request msg, None))) in
  let s := nd_service nd in
  if negb (check_read (rq_volume_id request) caller (dn_volume_acl s)) then
    fail ("read denied: " +:+ to_string caller +:+ " not authorized for volume "
            +:+ to_string (rq_volume_id request)) nd
  else
  match validate_epoch_for_read (rq_epoch request) s with
  | Err msg => fail msg nd
  | Ok _ =>
  match index_get (rq_extent_id request) (dn_index s) with
  | None => fail ("extent " +:+ to_string (rq_extent_id request) +:+ " not found") nd
  | Some entry =>
  if decide (le_version entry ≠ rq_extent_version request) then
    fail ("version mismatch: requested " +:+ to_string (rq_extent_version request) +:+ ", have "
            +:+ to_string (le_version entry)) nd
  else
  if bool_decide (result_ok (inv_allows_reads (le_disk_id entry) (dn_inventory s)) = Some false) then
    fail ("disk " +:+ to_string (le_disk_id entry) +:+ " not readable") (mark_disk (le_disk_id entry) Failed nd)
  else
  match dn_stores s !! le_disk_id entry with
  | None => fail ("no extent store for disk " +:+ to_string (le_disk_id entry)) nd
  | Some store =>
  match run_io (es_mount_path store) (read_extent store (rq_extent_id request) (rq_extent_version request)) nd with
  | (nd, Crashed) => (nd, Return None)
  | (nd, Done (Err e)) => fail ("read failed: " +:+ to_string e) (handle_read_error (le_disk_id entry) e nd)
  | (nd, Done (Ok (data, read_checksum))) =>
  if decide (read_checksum ≠ le_checksum entry) then
    fail ("checksum mismatch: expected " +:+ le_checksum entry +:+ ", got " +:+ read_checksum)
      (mark_disk (le_disk_id entry) Suspect nd)
  else
    (nd, payload_data ← slice_payload (rq_offset request) (rq_length request) data;
         Return (Some (MkReadExtentResponse (rq_operation_id request) (rq_extent_id request)
                         (rq_extent_version request) true read_checksum
                         (N.of_nat (length payload_data)) None, Some payload_data)))
  end
  end
  end
  end.

End service.

(** ** Failures (failure.rs) *)

Record DiskFailureReport := MkDiskFailureReport {
  df_disk_id : DiskId;
  df_previous_state : DiskState;
  df_affected_extents : list ExtentId;
  df_reason : string;
}.

Inductive DedupCheckResult :=
  | PreviouslyCompleted (extent_id : ExtentId) (extent_version : N) (checksum : string)
  | PreviouslyFailed
  | UnknownOperation.

Definition check_dedup_after_crash (durable_log : OperationLog) (op : OperationId) : DedupCheckResult :=
  match durable_log !! op with
  | Some record =>
      if or_success record
      then PreviouslyCompleted (or_extent_id record) (or_extent_version record) (or_checksum record)
      else PreviouslyFailed
  | None => UnknownOperation
  end.

Section failure.
Context `{!UuidDisplay} `{!HashIter ExtentId} `{!HashIter DiskId}.

Definition handle_disk_failure (inv : DiskInventory) (idx : ExtentIndex) (disk_id : DiskId) (reason : string)
    : DiskInventory * result StorageError DiskFailureReport :=
  match get_state disk_id inv with
  | Err e => (inv, Err e)
  | Ok previous_state =>
      if decide (previous_state = Failed ∨ previous_state = Removed) then
        (inv, Ok (MkDiskFailureReport disk_id previous_state []
                    ("disk already in " +:+ to_string previous_state +:+ " state")))
      else
        match transition_state disk_id Failed inv with
        | (inv, Err e) => (inv, Err e)
        | (inv, Ok _) =>
            (inv, Ok (MkDiskFailureReport disk_id previous_state (le_extent_id <$> list_for_disk disk_id idx) reason))
        end
  end.

Definition extents_needing_repair (idx : ExtentIndex) (failed_disk : DiskId) : list LocalExtentEntry :=
  list_for_disk failed_disk idx.

Definition node_ready_for_writes (inv : DiskInventory) : bool :=
  existsb (λ d, ok_default false (inv_allows_allocation d inv)) (list_disks inv).

Definition node_ready_for_reads (inv : DiskInventory) : bool :=
  existsb (λ d, ok_default false (inv_allows_reads d inv)) (list_disks inv).

End failure.

(** *** Node recovery *)

Record DiskRecoveryDetail := MkDiskRecoveryDetail {
  dd_disk_id : DiskId;
  dd_committed : nat;
  dd_staged_discarded : nat;
  dd_errors : nat;
}.

Record NodeRecoveryReport := MkNodeRecoveryReport {
  nr_disks_recovered : nat;
  nr_committed_extents : nat;
  nr_staged_discarded : nat;
  nr_recovery_errors : nat;
  nr_disk_reports : list DiskRecoveryDetail;
}.

Definition NodeRecoveryReport_default : NodeRecoveryReport := MkNodeRecoveryReport 0 0 0 0 [].

Definition count_recovery_error (r : NodeRecoveryReport) : NodeRecoveryReport :=
  MkNodeRecoveryReport (nr_disks_recovered r) (nr_committed_extents r) (nr_staged_discarded r)
    (S (nr_recovery_errors r)) (nr_disk_reports r).

Definition add_disk_report (disk_id : DiskId) (d : RecoveryReport) (r : NodeRecoveryReport) : NodeRecoveryReport :=
  MkNodeRecoveryReport (S (nr_disks_recovered r)) (nr_committed_extents r + rp_committed_recovered d)
    (nr_staged_discarded r + rp_staged_discarded d) (nr_recovery_errors r + rp_errors d)
    (nr_disk_reports r ++
       [MkDiskRecoveryDetail disk_id (rp_committed_recovered d) (rp_staged_discarded d) (rp_errors d)]).

Section recover_node.
Context `{!UuidDisplay} `{!MetaCodec} `{!ReadDirOrder} `{!HashIter DiskId}.

(** [recover] of a store on the node's index. *)
Definition run_recover (store : ExtentStore) (nd : Node) : Node * outcome RecoveryReport :=
  let '(w, o) := recover store (MkWorld (node_fs (es_mount_path store) nd) (nd_events nd) (dn_index (nd_service nd))) in
  (MkNode (set_index (w_state w) (nd_service nd)) (<[es_mount_path store := w_fs w]> (nd_fs nd)) (w_events w), o).

(** [None]: the machine stopped. *)
Fixpoint recover_disks (disk_ids : list DiskId) (report : NodeRecoveryReport) (nd : Node)
    : Node * option NodeRecoveryReport :=
  match disk_ids with
  | [] => (nd, Some report)
  | disk_id :: disk_ids =>
      match dn_stores (nd_service nd) !! disk_id with
      | None => recover_disks disk_ids (count_recovery_error report) nd
      | Some store =>
          match run_recover store nd with
          | (nd, Done (Ok disk_report)) => recover_disks disk_ids (add_disk_report disk_id disk_report report) nd
          | (nd, Done (Err _)) => recover_disks disk_ids (count_recovery_error report) (mark_disk disk_id Failed nd)
          | (nd, Crashed) => (nd, None)
          end
      end
  end.

Definition recover_node (nd : Node) : Node * option NodeRecoveryReport :=
  recover_disks (list_disks (dn_inventory (nd_service nd))) NodeRecoveryReport_default nd.

End recover_node.

(** ** The handler of the running node (crates/blockyard/src/node.rs) *)

(** [DataNodeHandler]: the service and the identity it is called with, which is
    the node's own; [dh_tick] supplies the clock and the generated identifiers. *)
Record DataNodeHandler := MkDataNodeHandler {
  dh_node : Node;
  dh_identity : PeerIdentity;
  dh_tick : N;
}.

Section handler.
Context `{!UuidDisplay} `{!Blake3} `{!MetaCodec} `{!RecordCodec}.
Context `{!HashIter OperationId} `{!HashIter DiskId}.

Definition handler_handle_write (request : WriteExtentRequest) (payload : list N) (h : DataNodeHandler)
    : DataNodeHandler * option WriteExtentResponse :=
  let '(nd, r) := handle_write (DiskId_new (dh_tick h)) (dh_tick h) request payload (dh_identity h) (dh_node h) in
  (MkDataNodeHandler nd (dh_identity h) (dh_tick h + 1), r).

Definition handler_handle_read (request : ReadExtentRequest) (h : DataNodeHandler)
    : DataNodeHandler * exec (option (ReadExtentResponse * option (list N))) :=
  let '(nd, r) := handle_read request (dh_identity h) (dh_node h) in
  (MkDataNodeHandler nd (dh_identity h) (dh_tick h), r).

#[export] Instance data_node_handler : DataPlaneHandler DataNodeHandler :=
  {| dp_handle_write := handler_handle_write; dp_handle_read := handler_handle_read |}.

End handler.
