(* ===== verification/DataNodeSpec.v ===== *)
(** * What a data node promises

    The extents a data node serves, as a function of its index and its files
    ([node_stored]), and what the handlers of [DataNode] do to it: an acknowledged
    write is served, a rejected one changes nothing but the operation log, and no
    write touches another extent. *)

From S2P Require Import Prelude Common Placement Checksum DiskInventory FileSystem ExtentStore Auth Protocol DataNode.

#[local] Open Scope N_scope.

(** The committed file of an extent version under a mount path. *)
Definition committed_content `{!UuidDisplay} (nd : Node) (root : Path) (x : ExtentId) (ver : N) : option (list N) :=
  fs_files (node_fs root nd) !! committed_extent_path root x ver.

(** Its metadata file. *)
Definition meta_content `{!UuidDisplay} (nd : Node) (root : Path) (x : ExtentId) (ver : N) : option (list N) :=
  fs_files (node_fs root nd) !! extent_meta_path root x ver.

(** Every store is registered under the identifier of its disk. *)
Definition stores_ok (s : DataNodeService) : Prop := map_Forall (λ d st, es_disk_id st = d) (dn_stores s).

Section spec.
Context `{!UuidDisplay} `{!Blake3} `{!MetaCodec} `{!RecordCodec}.
Context `{!HashIter OperationId} `{!HashIter DiskId}.
Implicit Types (nd : Node) (x : ExtentId) (ver : N) (root : Path).

(** What the node holds for an extent version: the committed file of its index
    entry, when it has the checksum of the entry. *)
Definition node_stored nd x ver : option (list N) :=
  e ← dn_index (nd_service nd) !! x;
  st ← dn_stores (nd_service nd) !! le_disk_id e;
  d ← committed_content nd (es_mount_path st) x ver;
  if decide (le_version e = ver ∧ compute_checksum d = le_checksum e) then Some d else None.

(** Nothing that a reader sees has changed. *)
Definition same_extents nd nd' : Prop :=
  dn_index (nd_service nd') = dn_index (nd_service nd) ∧
  dn_stores (nd_service nd') = dn_stores (nd_service nd) ∧
  (∀ root x ver, committed_content nd' root x ver = committed_content nd root x ver) ∧
  (∀ root x ver, meta_content nd' root x ver = meta_content nd root x ver).

#[export] Instance same_extents_preorder : PreOrder same_extents.
Proof.
  split; [intros nd; by split|]. intros nd1 nd2 nd3 (Hi & Hs & Hf & Hm) (Hi' & Hs' & Hf' & Hm').
  split_and!; [congruence..| |]; intros; [by rewrite Hf', Hf|by rewrite Hm', Hm].
Qed.

Lemma same_extents_stored nd nd' x ver : same_extents nd nd' → node_stored nd' x ver = node_stored nd x ver.
Proof.
  intros (Hi & Hs & Hf & _). unfold node_stored. rewrite Hi, Hs.
  destruct (dn_index (nd_service nd) !! x) as [e|]; [|done]. simpl.
  destruct (dn_stores (nd_service nd) !! le_disk_id e) as [st|]; [|done]. simpl. by rewrite Hf.
Qed.

(** ** File system runs *)

Lemma node_fs_insert root root' fs s m evs :
  node_fs root (MkNode s (<[root' := fs]> m) evs) =
    if decide (root = root') then fs else default (MkFS ∅ ∅ ∅) (m !! root).
Proof.
  unfold node_fs. simpl. case_decide as Hr; [subst; by rewrite lookup_insert_eq|by rewrite lookup_insert_ne].
Qed.

(** A run that keeps the files of every extent. *)
Lemma run_io_same {A} root (m : IO unit A) nd nd' o :
  (∀ x ver, keeps_file (committed_extent_path root x ver) m ∧ keeps_file (extent_meta_path root x ver) m) →
  run_io root m nd = (nd', o) → same_extents nd nd'.
Proof.
  intros Hm. unfold run_io. destruct (m _) as [w o1] eqn:Hrun. intros [= <- <-].
  split_and!; [done..| |]; intros root' x ver; unfold committed_content, meta_content; rewrite node_fs_insert;
    (case_decide as Hr; [subst root'|done]).
  - pose proof (proj1 (Hm x ver) _ _ _ _ eq_refl Hrun) as Hk. by destruct o1 as [[]|].
  - pose proof (proj2 (Hm x ver) _ _ _ _ eq_refl Hrun) as Hk. by destruct o1 as [[]|].
Qed.

Lemma on_service_same f nd :
  (∀ s, dn_index (f s) = dn_index s) → (∀ s, dn_stores (f s) = dn_stores s) → same_extents nd (on_service f nd).
Proof. intros Hi Hs. split_and!; [apply Hi|apply Hs|done|done]. Qed.

(** A run that keeps a settled path of its own root keeps those of the others. *)
Lemma run_io_settled {A} root (m : IO unit A) nd nd' o root' p c :
  (root = root' → preserves (settled p c) m) → run_io root m nd = (nd', o) →
  settled p c (node_fs root' nd) → settled p c (node_fs root' nd').
Proof.
  intros Hm. unfold run_io. destruct (m _) as [w o1] eqn:Hrun. intros [= <- <-] Hs.
  rewrite node_fs_insert. case_decide as Hr; [subst root'|done].
  pose proof (Hm eq_refl (MkWorld (node_fs root nd) (nd_events nd) tt) _ _ Hs Hrun) as Hk. by destruct o1 as [[]|].
Qed.

Lemma ol_dir_moved_to before after log : ol_dir (moved_to before after log) = ol_dir log.
Proof. unfold moved_to. by case_decide. Qed.

(** The operation log is not below a directory of its root. *)
Lemma oplog_append_preserves (I : FS → Prop) log record :
  (∀ n d fs, I fs → I (fs_write (ol_dir log ++ [n]) d fs)) → (∀ n fs, I fs → I (fs_sync (ol_dir log ++ [n]) fs)) →
  (∀ a b d fs, I fs → I (fs_rename (ol_dir log ++ [a]) (ol_dir log ++ [b]) d fs)) →
  preserves I (oplog_append (X:=unit) log record).
Proof.
  intros Hw Hs Hr. assert (∃ n, ol_file log = ol_dir log ++ [n]) as [n Hf].
  { unfold ol_file. case_match; by eexists. }
  unfold oplog_append, maybe_rotate, ol_length. rewrite Hf. apply preserves_bind; [apply preserves_look|intros before].
  apply preserves_bind.
  { apply preserves_try. solve_preserves; unfold fs_append; auto. }
  intros _. apply preserves_bind; [apply preserves_look|intros after]. rewrite ol_dir_moved_to.
  case_decide; [|apply preserves_ret].
  apply preserves_bind; [apply preserves_try|intros moved; apply preserves_bind; [apply preserves_try|intros ?; apply preserves_ret]].
  - apply preserves_syscall; [|done]. intros fs fs' [] Hh Hrun.
    destruct (fs_files fs !! _); simplify_eq/=. by apply Hr.
  - apply preserves_syscall; [|done]. intros fs fs' [] Hh Hrun.
    destruct (fs_files fs !! _); simplify_eq/=; [done|]. by apply Hw.
Qed.

Lemma oplog_append_keeps log record p d rest :
  p = ol_dir log ++ d :: rest → rest ≠ [] →
  keeps_file p (oplog_append (X:=unit) log record) ∧ keeps p (oplog_append (X:=unit) log record).
Proof.
  intros -> Hrest. set (p := ol_dir log ++ d :: rest).
  assert (∀ n, p ≠ ol_dir log ++ [n]) as Hne by (intros n Heq%app_inv_head; congruence).
  split; intros c; apply oplog_append_preserves; eauto with fs.
Qed.

(** The two files of an extent version. *)
Definition extent_file (root : Path) (x : ExtentId) (ver : N) (p : Path) : Prop :=
  p = committed_extent_path root x ver ∨ p = extent_meta_path root x ver.

Lemma extent_file_below root x ver p : extent_file root x ver p → ∃ d rest, p = root ++ d :: rest ∧ rest ≠ [].
Proof.
  intros [-> | ->].
  - rewrite committed_path_eq. unfold extent_dir. rewrite <- app_assoc. by eexists _, _.
  - rewrite meta_path_eq. unfold extent_dir. rewrite <- app_assoc. by eexists _, _.
Qed.

Lemma oplog_append_same log record nd nd' o :
  run_io (ol_dir log) (oplog_append log record) nd = (nd', o) → same_extents nd nd'.
Proof.
  apply run_io_same. intros x ver.
  split; (edestruct (extent_file_below (ol_dir log) x ver) as (d & rest & Hp & Hr); [|by eapply oplog_append_keeps]).
  - by left.
  - by right.
Qed.

Lemma record_operation_same record nd nd' r : record_operation record nd = (nd', r) → same_extents nd nd'.
Proof.
  unfold record_operation. destruct (dn_durable_oplog _) as [log|]; [|intros [= <- _]; by apply on_service_same].
  destruct (run_io _ _ nd) as [nd1 o] eqn:Hrun.
  apply oplog_append_same in Hrun.
  destruct o as [[log'|e]|]; intros [= <- _]; [etrans; [done|by apply on_service_same]..|done].
Qed.

(** What the log says of an operation after an insertion. *)
Lemma lookup_log_insert record log op r :
  log_insert record log !! op = Some r → (op = or_operation_id record ∧ r = record) ∨ log !! op = Some r.
Proof.
  assert (∀ keys (m : gmap OperationId OperationRecord),
    foldl (λ m key, delete key m) m keys !! op = Some r → m !! op = Some r) as Hdel.
  { induction keys as [|k keys IH]; intros m; simpl; [done|]. intros [_ Hm]%IH%lookup_delete_Some. done. }
  unfold log_insert. intros Hl.
  assert ((<[or_operation_id record := record]> log : gmap OperationId OperationRecord) !! op = Some r) as Hi
    by (case_decide; [by apply Hdel in Hl|done]).
  apply lookup_insert_Some in Hi. naive_solver.
Qed.

Lemma record_operation_log record nd nd' r op rec :
  record_operation record nd = (nd', r) → check_duplicate op (nd_service nd') = Some rec →
  (op = or_operation_id record ∧ rec = record) ∨ check_duplicate op (nd_service nd) = Some rec.
Proof.
  unfold record_operation, check_duplicate. destruct (dn_durable_oplog _) as [log|].
  - destruct (run_io _ _ nd) as [nd1 o] eqn:Hrun.
    assert (nd_service nd1 = nd_service nd) as Hs.
    { unfold run_io in Hrun. destruct (oplog_append _ _ _). by injection Hrun as <- _. }
    destruct o as [[log'|e]|]; intros [= <- _]; simpl; rewrite Hs; [apply lookup_log_insert..|auto].
  - intros [= <- _]. apply lookup_log_insert.
Qed.

Lemma write_error_log g req msg nd nd' r op rec :
  write_error g req msg nd = (nd', r) → check_duplicate op (nd_service nd') = Some rec → or_success rec = true →
  check_duplicate op (nd_service nd) = Some rec.
Proof.
  unfold write_error. destruct (record_operation _ nd) as [nd1 r1] eqn:Hr. intros [= <- _] Hc Hok.
  by destruct (record_operation_log _ _ _ _ _ _ Hr Hc) as [[_ ->]|].
Qed.

Lemma write_error_same g req msg nd nd' r : write_error g req msg nd = (nd', r) → same_extents nd nd'.
Proof.
  unfold write_error. destruct (record_operation _ nd) as [nd1 r1] eqn:Hr. intros [= <- _].
  by eapply record_operation_same.
Qed.

Lemma write_error_fails g req msg nd nd' resp :
  write_error g req msg nd = (nd', Some resp) → ws_success resp = false.
Proof.
  unfold write_error. destruct (record_operation _ nd) as [nd1 [[]|]]; simpl; intros [= _ <-]; done.
Qed.

Lemma mark_disk_same d st nd : same_extents nd (mark_disk d st nd).
Proof. by apply on_service_same. Qed.

Lemma handle_xfs_error_same d e nd : same_extents nd (handle_xfs_error d e nd).
Proof. unfold handle_xfs_error. repeat case_match; (apply mark_disk_same || done). Qed.

Lemma handle_xfs_error_log d e nd :
  dn_operation_log (nd_service (handle_xfs_error d e nd)) = dn_operation_log (nd_service nd).
Proof. unfold handle_xfs_error. by repeat case_match. Qed.

Lemma handle_read_error_same d e nd : same_extents nd (handle_read_error d e nd).
Proof. destruct e; simpl; (apply mark_disk_same || done). Qed.

(** ** Committing an extent *)

(** Only the file of [x] at [ver] under [root] may have changed, to [data]. *)
Definition file_replaced root x ver data nd nd' : Prop :=
  dn_index (nd_service nd') = dn_index (nd_service nd) ∧
  dn_stores (nd_service nd') = dn_stores (nd_service nd) ∧
  (∀ root' x' ver', (root', x', ver') ≠ (root, x, ver) →
     committed_content nd' root' x' ver' = committed_content nd root' x' ver') ∧
  (committed_content nd' root x ver = committed_content nd root x ver ∨
   committed_content nd' root x ver = Some data).

(** The extent's data and metadata are on the disk, whatever happens next. *)
Definition durable nd st (now : N) x ver data size cls : Prop :=
  settled (committed_extent_path (es_mount_path st) x ver) (Some data) (node_fs (es_mount_path st) nd) ∧
  settled (extent_meta_path (es_mount_path st) x ver)
    (Some (meta_to_json (committed_meta st now x ver (compute_checksum data) size cls)))
    (node_fs (es_mount_path st) nd).

(** A file system run at [root] whose effect is that of a commit. *)
Lemma run_io_commit st now x ver size cls data nd nd' o :
  let root := es_mount_path st in
  let sum := compute_checksum data in
  settled (staged_extent_path root x ver) (Some data) (node_fs root nd) →
  run_io root (commit_extent st now x ver sum size cls) nd = (nd', o) →
  file_replaced root x ver data nd nd' ∧
  ∀ e, o = Done (Ok e) →
    e = MkEntry x (es_disk_id st) (committed_extent_path root x ver) ver sum size cls ∧
    committed_content nd' root x ver = Some data ∧
    meta_content nd' root x ver = Some (meta_to_json (committed_meta st now x ver sum size cls)) ∧
    (settled (committed_extent_path root x ver) None (node_fs root nd) → durable nd' st now x ver data size cls).
Proof.
  intros root sum Hst. unfold run_io.
  destruct (commit_extent _ _ _ _ _ _ _ _) as [w o1] eqn:Hrun. intros [= <- <-].
  pose proof (commit_replaces st now x ver sum size cls data (committed_content nd root x ver)
    (MkWorld (node_fs root nd) (nd_events nd) tt) w o1 (conj (settled_files _ _ _ Hst) eq_refl) Hrun) as Hpost.
  unfold file_replaced, committed_content. simpl. split; [split_and!; [done..| |]|].
  - intros root' x' ver' Hne. rewrite node_fs_insert. case_decide as Hr; [subst root'|done].
    assert (keeps_file (committed_extent_path root x' ver') (commit_extent (X:=unit) st now x ver sum size cls)) as Hk.
    { apply commit_keeps_file; eauto with fs. intros [-> ->]%committed_path_inj. done. }
    pose proof (Hk _ _ _ _ eq_refl Hrun) as Hkk. by destruct o1 as [[]|].
  - rewrite node_fs_insert, decide_True by done. destruct o1 as [[e|e]|]; [right; by apply Hpost|exact Hpost..].
  - intros e ->. destruct Hpost as (-> & Hc & Hm). unfold meta_content.
    split_and!; [done|by rewrite !node_fs_insert, !decide_True..|]. intros Hnone. unfold durable. fold root sum.
    rewrite !node_fs_insert, !decide_True by done.
    pose proof (commit_settles st now x ver sum size cls data (MkWorld (node_fs root nd) (nd_events nd) tt) w
      (Done (Ok (MkEntry x (es_disk_id st) (committed_extent_path root x ver) ver sum size cls)))
      (conj Hst Hnone) Hrun) as (_ & ? & ?). done.
Qed.

Lemma run_io_stage st x ver data nd nd' o :
  let root := es_mount_path st in
  run_io root (stage_extent st x ver data) nd = (nd', o) →
  same_extents nd nd' ∧ nd_service nd' = nd_service nd ∧
  ∀ r, o = Done (Ok r) → r.2 = compute_checksum data ∧
    settled (staged_extent_path root x ver) (Some data) (node_fs root nd').
Proof.
  intros root Hrun. split.
  { eapply run_io_same; [|exact Hrun]. intros x' ver'. split; apply stage_keeps_file; eauto with fs. }
  unfold run_io in Hrun. destruct (stage_extent _ _ _ _ _) as [w o1] eqn:Hs. injection Hrun as <- <-.
  split; [done|]. intros r ->. pose proof (stage_settles st x ver data _ _ _ I Hs) as [-> Hst].
  split; [done|]. by rewrite node_fs_insert, decide_True.
Qed.

(** What a failed commit leaves readable. *)
Lemma file_replaced_stored root x ver data nd nd' x' ver' :
  file_replaced root x ver data nd nd' →
  node_stored nd' x' ver' = node_stored nd x' ver' ∨
  (x' = x ∧ (node_stored nd' x' ver' = None ∨ (ver' = ver ∧ node_stored nd' x' ver' = Some data))).
Proof.
  intros (Hi & Hs & Hframe & Hfile). unfold node_stored. rewrite Hi, Hs.
  destruct (dn_index (nd_service nd) !! x') as [e|]; [|by left]. simpl.
  destruct (dn_stores (nd_service nd) !! le_disk_id e) as [st|]; [|by left]. simpl.
  destruct (decide ((es_mount_path st, x', ver') = (root, x, ver))) as [[= -> -> ->]|Hne].
  - destruct Hfile as [-> | ->]; [by left|]. simpl. case_decide; right; auto.
  - left. by rewrite Hframe.
Qed.

(** What a successful one makes readable. *)
Lemma index_insert_stored nd nd' st x ver data :
  let e := MkEntry x (es_disk_id st) (committed_extent_path (es_mount_path st) x ver) ver
             (compute_checksum data) (N.of_nat (length data)) Default in
  file_replaced (es_mount_path st) x ver data nd nd' →
  committed_content nd' (es_mount_path st) x ver = Some data →
  dn_stores (nd_service nd) !! es_disk_id st = Some st →
  let nd'' := on_service (λ s, set_index (index_insert e (dn_index s)) s) nd' in
  node_stored nd'' x ver = Some data ∧
  ∀ x' ver', node_stored nd'' x' ver' = node_stored nd x' ver' ∨
    (x' = x ∧ (node_stored nd'' x' ver' = None ∨ (ver' = ver ∧ node_stored nd'' x' ver' = Some data))).
Proof.
  intros e (Hi & Hs & Hframe & _) Hc Hst nd''.
  assert (∀ root x' ver', committed_content nd'' root x' ver' = committed_content nd' root x' ver') as Hsame by done.
  assert (node_stored nd'' x ver = Some data) as Hx.
  { unfold node_stored. simpl. unfold index_insert. rewrite lookup_insert_eq. simpl.
    rewrite Hs, Hst. simpl. rewrite Hsame, Hc. simpl. by rewrite decide_True. }
  split; [done|]. intros x' ver'. destruct (decide (x' = x)) as [->|Hne].
  - right. split; [done|]. destruct (decide (ver' = ver)) as [->|Hv]; [by right; split|left].
    unfold node_stored. simpl. unfold index_insert. rewrite lookup_insert_eq. simpl.
    rewrite Hs, Hst. simpl. destruct (committed_content nd'' (es_mount_path st) x ver') as [d|]; simpl; [|done].
    case_decide as Hd; [|done]. destruct Hd. congruence.
  - left. unfold node_stored. simpl. unfold index_insert. rewrite lookup_insert_ne by (simpl; congruence).
    rewrite Hi, Hs. destruct (dn_index (nd_service nd) !! x') as [e'|]; [|done]. simpl.
    destruct (dn_stores (nd_service nd) !! le_disk_id e') as [st'|]; [|done]. simpl.
    rewrite Hsame, Hframe by congruence. done.
Qed.

(** ** The write handler *)

(** The request passed every check, and [disk_id] was chosen. *)
Record admitted (req : WriteExtentRequest) (payload : list N) (caller : PeerIdentity) nd (disk_id : DiskId) : Prop := {
  adm_authorized : check_write (wq_volume_id req) caller (dn_volume_acl (nd_service nd)) = true;
  adm_epoch : EpochId_as_u64 (dn_current_epoch (nd_service nd)) ≤ EpochId_as_u64 (wq_epoch req);
  adm_lease : validate_write_lease req (nd_service nd) = Ok tt;
  adm_disk : select_write_disk (wq_target_disk_id req) (dn_inventory (nd_service nd)) = Ok disk_id;
  adm_checksum : wq_checksum req = compute_checksum payload;
}.

(** No success of the operation was recorded. *)
Definition successes_kept (op : OperationId) nd nd' : Prop :=
  ∀ rec, check_duplicate op (nd_service nd') = Some rec → or_success rec = true →
    check_duplicate op (nd_service nd) = Some rec.

(** What a write does: nothing that a reader sees; or, after a failed commit, the
    file may have been replaced; or the payload is stored and acknowledged, unless
    the machine stops before the acknowledgement. *)
Inductive write_effect (now : N) (req : WriteExtentRequest) (payload : list N) (caller : PeerIdentity) nd nd'
    (r : option WriteExtentResponse) : Prop :=
  | write_rejected :
      same_extents nd nd' → successes_kept (wq_operation_id req) nd nd' →
      (∀ resp, r = Some resp → ws_success resp = true →
         ∃ record, check_duplicate (wq_operation_id req) (nd_service nd) = Some record ∧ or_success record = true) →
      write_effect now req payload caller nd nd' r
  | write_failed disk_id root :
      admitted req payload caller nd disk_id →
      check_duplicate (wq_operation_id req) (nd_service nd) = None →
      file_replaced root (wq_extent_id req) (wq_extent_version req) payload nd nd' →
      successes_kept (wq_operation_id req) nd nd' →
      (∀ resp, r = Some resp → ws_success resp = false) →
      write_effect now req payload caller nd nd' r
  | write_stored disk_id st nd2 r' :
      admitted req payload caller nd disk_id →
      check_duplicate (wq_operation_id req) (nd_service nd) = None →
      dn_stores (nd_service nd) !! disk_id = Some st →
      nd_service nd2 = nd_service nd →
      file_replaced (es_mount_path st) (wq_extent_id req) (wq_extent_version req) payload nd nd2 →
      committed_content nd2 (es_mount_path st) (wq_extent_id req) (wq_extent_version req) = Some payload →
      meta_content nd2 (es_mount_path st) (wq_extent_id req) (wq_extent_version req) =
        Some (meta_to_json (committed_meta st now (wq_extent_id req) (wq_extent_version req)
          (compute_checksum payload) (N.of_nat (length payload)) Default)) →
      (settled (committed_extent_path (es_mount_path st) (wq_extent_id req) (wq_extent_version req)) None
         (node_fs (es_mount_path st) nd) →
       durable nd2 st now (wq_extent_id req) (wq_extent_version req) payload (N.of_nat (length payload)) Default) →
      record_operation (MkOperationRecord (wq_operation_id req) (wq_extent_id req) (wq_extent_version req) disk_id
        (compute_checksum payload) true) (on_service (λ s, set_index (index_insert
        (MkEntry (wq_extent_id req) (es_disk_id st)
           (committed_extent_path (es_mount_path st) (wq_extent_id req) (wq_extent_version req))
           (wq_extent_version req) (compute_checksum payload) (N.of_nat (length payload)) Default)
        (dn_index s)) s) nd2) = (nd', r') →
      r = (λ _, MkWriteExtentResponse (wq_operation_id req) (wq_extent_id req) (wq_extent_version req) disk_id
                  true (compute_checksum payload) None) <$> r' →
      write_effect now req payload caller nd nd' r.

Lemma write_error_effect now req payload caller g msg nd0 nd nd' r :
  same_extents nd0 nd → dn_operation_log (nd_service nd) = dn_operation_log (nd_service nd0) →
  write_error g req msg nd = (nd', r) → write_effect now req payload caller nd0 nd' r.
Proof.
  intros Hsame Hlog Herr. apply write_rejected.
  - etrans; [done|by eapply write_error_same].
  - intros rec Hc Hok. eapply write_error_log in Hc; [|done..]. unfold check_duplicate in *. congruence.
  - intros resp -> Hok. apply write_error_fails in Herr. congruence.
Qed.

Lemma handle_write_effect g now req payload caller nd nd' r :
  handle_write g now req payload caller nd = (nd', r) → write_effect now req payload caller nd nd' r.
Proof.
  unfold handle_write.
  destruct (check_write _ _ _) eqn:Hacl; simpl; [|by apply write_error_effect].
  destruct (check_duplicate _ _) as [record|] eqn:Hdup.
  { intros [= <- <-]. apply write_rejected; [done|by intros ?|]. intros resp [= <-] Hok. by exists record. }
  destruct (validate_epoch _ _) as [[]|] eqn:Hep; [|by apply write_error_effect].
  destruct (validate_write_lease _ _) as [[]|] eqn:Hlease; [|by apply write_error_effect].
  destruct (select_write_disk _ _) as [disk_id|] eqn:Hdisk; [|by apply write_error_effect].
  destruct (decide (wq_checksum req ≠ _)) as [|Hsum%dec_stable]; [by apply write_error_effect|].
  destruct (dn_stores _ !! disk_id) as [st|] eqn:Hst; [|by apply write_error_effect].
  destruct (run_io _ (stage_extent _ _ _ _) nd) as [nd1 o1] eqn:Hstage.
  destruct (run_io_stage _ _ _ _ _ _ _ Hstage) as (Hsame1 & Hsrv1 & Hok1).
  destruct o1 as [[[p sum]|e]|]; [|apply write_error_effect; [etrans; [done|apply handle_xfs_error_same]|by rewrite handle_xfs_error_log, Hsrv1]|].
  2: { intros [= <- <-]. apply write_rejected; [done| |done]. intros rec Hc _. by rewrite Hsrv1 in Hc. }
  destruct (Hok1 _ eq_refl) as [Hsum1 Hstaged]. simpl in Hsum1. subst sum.
  destruct (run_io _ (commit_extent _ _ _ _ _ _ _) nd1) as [nd2 o2] eqn:Hcommit.
  destruct (run_io_commit _ _ _ _ _ _ _ _ _ _ Hstaged Hcommit) as [Hrep Hok2].
  assert (∀ nd2', same_extents nd2 nd2' →
    file_replaced (es_mount_path st) (wq_extent_id req) (wq_extent_version req) payload nd nd2') as Hrep'.
  { destruct Hsame1 as (Hi1 & Hs1 & Hf1 & _), Hrep as (Hi & Hs & Hframe & Hfile).
    intros nd2' (Hi2 & Hs2 & Hf2 & _). split_and!; [congruence..| |].
    - intros ???. rewrite Hf2, <- Hf1. by apply Hframe.
    - by rewrite Hf2, <- Hf1. }
  assert (nd_service nd2 = nd_service nd) as Hsrv2.
  { rewrite <- Hsrv1. unfold run_io in Hcommit. destruct (commit_extent _ _ _ _ _ _ _ _). by injection Hcommit as <- _. }
  assert (admitted req payload caller nd disk_id) as Hadm.
  { split; try done. unfold validate_epoch in Hep. case_decide; [done|lia]. }
  destruct o2 as [[entry|e]|].
  - destruct (Hok2 _ eq_refl) as (-> & Hfile & Hmeta & Hdur). destruct (record_operation _ _) as [nd3 r3] eqn:Hrec.
    intros [= <- <-].
    eapply (write_stored _ _ _ _ _ _ _ disk_id st nd2 r3); try done; [by apply Hrep'|].
    intros Hnone. apply Hdur. eapply run_io_settled; [|exact Hstage|exact Hnone].
    intros _. apply stage_keeps; eauto with fs.
  - intros Herr. eapply write_failed; [done|done|apply Hrep'; etrans; [apply handle_xfs_error_same|by eapply write_error_same]| |].
    + intros rec Hc Hok. eapply write_error_log in Hc; [|done..]. unfold check_duplicate in *.
      by rewrite handle_xfs_error_log, Hsrv2 in Hc.
    + intros resp ->. by eapply write_error_fails.
  - intros [= <- <-]. eapply write_failed; [done|done|by apply Hrep'| |done].
    intros rec Hc _. by rewrite Hsrv2 in Hc.
Qed.

(** What a write does to the extents that the node serves. *)
Lemma write_effect_stored now req payload caller nd nd' r :
  stores_ok (nd_service nd) → write_effect now req payload caller nd nd' r →
  dn_stores (nd_service nd') = dn_stores (nd_service nd) ∧
  (∀ x' ver', node_stored nd' x' ver' = node_stored nd x' ver' ∨
     (x' = wq_extent_id req ∧ (node_stored nd' x' ver' = None ∨
        (ver' = wq_extent_version req ∧ node_stored nd' x' ver' = Some payload)))) ∧
  (∀ resp, r = Some resp → ws_success resp = true →
     check_duplicate (wq_operation_id req) (nd_service nd) = None →
     node_stored nd' (wq_extent_id req) (wq_extent_version req) = Some payload) ∧
  (∀ rec, check_duplicate (wq_operation_id req) (nd_service nd') = Some rec → or_success rec = true →
     check_duplicate (wq_operation_id req) (nd_service nd) = None →
     node_stored nd' (wq_extent_id req) (wq_extent_version req) = Some payload).
Proof.
  intros Hso [Hsame Hkept Hdup|disk root Hadm Hnd Hrep Hkept Hfail|
              disk st nd2 r' Hadm Hnd Hst Hsrv Hrep Hfile Hmeta _ Hrec ->].
  - split_and!; [apply Hsame|intros; left; by apply same_extents_stored|..].
    + intros resp Hr Hok Hnone. destruct (Hdup resp Hr Hok) as (record & ? & _). congruence.
    + intros rec Hc Hok Hnone. specialize (Hkept rec Hc Hok). congruence.
  - split_and!; [apply Hrep|intros; by eapply file_replaced_stored|..].
    + intros resp Hr Hok. by rewrite (Hfail resp Hr) in Hok.
    + intros rec Hc Hok Hnone. specialize (Hkept rec Hc Hok). congruence.
  - apply record_operation_same in Hrec. pose proof (Hso _ _ Hst) as Hid. simpl in Hid. subst disk.
    destruct (index_insert_stored _ _ _ _ _ _ Hrep Hfile Hst) as [Hx Hall].
    split_and!.
    + destruct Hrec as (_ & -> & _). apply Hrep.
    + intros x' ver'. rewrite (same_extents_stored _ _ x' ver' Hrec). apply Hall.
    + intros resp _ _ _. by rewrite (same_extents_stored _ _ _ _ Hrec).
    + intros rec _ _ _. by rewrite (same_extents_stored _ _ _ _ Hrec).
Qed.

(** A write that succeeds as a duplicate changes nothing. *)
Lemma write_effect_duplicate now req payload caller nd nd' r resp rec :
  write_effect now req payload caller nd nd' r → r = Some resp → ws_success resp = true →
  check_duplicate (wq_operation_id req) (nd_service nd) = Some rec →
  or_success rec = true ∧ same_extents nd nd'.
Proof.
  intros [Hsame _ Hdup|? ? _ Hnd _ _ _|? ? ? ? _ Hnd _ _ _ _ _ _ _] Hr Hs Hc; [|congruence..].
  destruct (Hdup resp Hr Hs) as (rec' & Hc' & ?). split; [congruence|done].
Qed.

(** ** The read handler *)

Lemma run_io_read st x ver nd nd' o :
  let root := es_mount_path st in
  run_io root (read_extent st x ver) nd = (nd', o) →
  same_extents nd nd' ∧ nd_service nd' = nd_service nd ∧
  ∀ d sum, o = Done (Ok (d, sum)) → sum = compute_checksum d ∧ committed_content nd root x ver = Some d.
Proof.
  intros root. unfold run_io. destruct (read_extent _ _ _ _) as [w o1] eqn:Hrun. intros [= <- <-].
  pose proof (read_extent_sound st x ver (node_fs root nd) (MkWorld (node_fs root nd) (nd_events nd) tt) _ _
    eq_refl Hrun) as Hpost.
  assert (w_fs w = node_fs root nd) as Hfs by (destruct o1 as [[]|]; [by destruct Hpost|done..]).
  split_and!; [split_and!; [done..| |]|done|].
  - intros root' x' ver'. unfold committed_content. rewrite node_fs_insert. case_decide as Hr; [by rewrite Hr, Hfs|done].
  - intros root' x' ver'. unfold meta_content. rewrite node_fs_insert. case_decide as Hr; [by rewrite Hr, Hfs|done].
  - intros d sum ->. by destruct Hpost as (_ & ? & ?).
Qed.

Lemma handle_read_effect req caller nd nd' r :
  handle_read req caller nd = (nd', r) →
  same_extents nd nd' ∧
  ∀ resp p, r = Return (Some (resp, p)) → rs_success resp = true →
    ∃ d q, node_stored nd (rq_extent_id req) (rq_extent_version req) = Some d ∧ p = Some q ∧
      slice_payload (rq_offset req) (rq_length req) d = Return q ∧ rs_payload_size resp = N.of_nat (length q).
Proof.
  unfold handle_read. destruct (check_read _ _ _); simpl; [|by intros [= <- <-]; split; [done|intros ? ? [= <- <-]]].
  destruct (validate_epoch_for_read _ _); [|by intros [= <- <-]; split; [done|intros ? ? [= <- <-]]].
  destruct (index_get _ _) as [entry|] eqn:He; [|by intros [= <- <-]; split; [done|intros ? ? [= <- <-]]].
  destruct (decide (le_version entry ≠ _)) as [|Hv%dec_stable]; [by intros [= <- <-]; split; [done|intros ? ? [= <- <-]]|].
  case_bool_decide; [intros [= <- <-]; split; [apply mark_disk_same|by intros ? ? [= <- <-]]|].
  destruct (dn_stores _ !! _) as [st|] eqn:Hst; [|by intros [= <- <-]; split; [done|intros ? ? [= <- <-]]].
  destruct (run_io _ _ nd) as [nd1 o] eqn:Hrun. apply run_io_read in Hrun as (Hsame & _ & Hok).
  destruct o as [[[data sum]|e]|].
  - destruct (Hok _ _ eq_refl) as [-> Hc]. destruct (decide (compute_checksum data ≠ _)) as [|Hsum%dec_stable].
    { intros [= <- <-]. split; [etrans; [done|apply mark_disk_same]|by intros ? ? [= <- <-]]. }
    destruct (slice_payload _ _ data) as [q|] eqn:Hq; intros [= <- <-]; (split; [done|]); [|done].
    intros resp p [= <- <-] _. exists data, q. split_and!; [|done..].
    unfold node_stored. unfold index_get in He. rewrite He. simpl. rewrite Hst. simpl.
    rewrite Hc. simpl. by rewrite decide_True.
  - intros [= <- <-]. split; [etrans; [done|apply handle_read_error_same]|by intros ? ? [= <- <-]].
  - intros [= <- <-]. by split.
Qed.

(** The bytes of [d] in a range, zeros beyond its end. *)
Definition padded_slice (offset len : N) (d : list N) : list N :=
  (λ i, default 0 (d !! (N.to_nat offset + i)%nat)) <$> seq 0 (N.to_nat len).

Lemma lookup_padded_slice offset len d i :
  padded_slice offset len d !! i =
    if decide (i < N.to_nat len)%nat then Some (default 0 (d !! (N.to_nat offset + i)%nat)) else None.
Proof.
  unfold padded_slice. rewrite list_lookup_fmap. case_decide.
  - by rewrite lookup_seq_lt.
  - by rewrite lookup_seq_ge by lia.
Qed.

(** Without overflow a slice is the padded range, or the whole extent. *)
Lemma slice_payload_padded offset len d :
  offset + len < u64_modulus →
  slice_payload offset len d =
    Return (if decide (offset = 0 ∧ len = 0) then d else padded_slice offset len d).
Proof.
  intros Hov. unfold slice_payload. destruct (decide (offset = 0 ∧ len = 0)); [done|].
  rewrite (u64_add_small _ _ Hov). rewrite (decide_False (P := (offset + len < offset))) by lia.
  replace (offset + len - offset) with len by lia.
  destruct (decide (N.of_nat (length d) ≤ offset)) as [Hge|Hlt]; [|destruct (decide (N.of_nat (length d) < offset + len))].
  all: f_equal; apply list_eq; intros i; rewrite lookup_padded_slice.
  - case_decide.
    + rewrite lookup_replicate_2 by done. by rewrite (lookup_ge_None_2 d) by lia.
    + apply lookup_replicate_None. lia.
  - destruct (decide (N.to_nat offset + i < length d)%nat).
    + rewrite lookup_app_l by (rewrite length_drop; lia). rewrite lookup_drop, decide_True by lia.
      destruct (lookup_lt_is_Some_2 d (N.to_nat offset + i)) as [b ->]; [lia|done].
    + rewrite lookup_app_r by (rewrite length_drop; lia). rewrite length_drop.
      rewrite (lookup_ge_None_2 d) by lia. case_decide.
      * rewrite lookup_replicate_2 by lia. done.
      * apply lookup_replicate_None. lia.
  - case_decide.
    + rewrite lookup_take_lt, lookup_drop by done.
      destruct (lookup_lt_is_Some_2 d (N.to_nat offset + i)) as [b ->]; [lia|done].
    + by rewrite lookup_take_ge by lia.
Qed.

(** Recording an operation changes nothing of the service but its log. *)
Lemma record_operation_service record nd nd' :
  record_operation record nd = (nd', Some tt) → ∃ l d, nd_service nd' = set_oplog l d (nd_service nd).
Proof.
  unfold record_operation. destruct (dn_durable_oplog _) as [log|]; [|intros [= <-]; by eexists _, _].
  destruct (run_io _ _ nd) as [nd1 o] eqn:Hrun.
  assert (nd_service nd1 = nd_service nd) as Hs.
  { unfold run_io in Hrun. destruct (oplog_append _ _ _). by injection Hrun as <- _. }
  destruct o as [[log'|e]|]; intros [= <-]; simpl; rewrite Hs; by eexists _, _.
Qed.

Lemma head_filter_Some {A} (P : A → Prop) `{!∀ a, Decision (P a)} (l : list A) a : head (filter P l) = Some a → P a.
Proof.
  intros Hh. assert (a ∈ filter P l) as [? _]%list_elem_of_filter; [|done].
  destruct (filter P l); simplify_eq/=. by left.
Qed.

(** A disk chosen for a write can be allocated from and has no bad region. *)
Lemma select_write_disk_sound preferred inv d :
  select_write_disk preferred inv = Ok d →
  inv_allows_allocation d inv = Ok true ∧ has_bad_regions d inv = Ok false.
Proof.
  unfold select_write_disk. destruct preferred as [p|].
  - destruct (inv_allows_allocation p inv) as [[]|] eqn:Ha; simpl; [|done..].
    destruct (has_bad_regions p inv) as [[]|e] eqn:Hb; simpl; intros [= <-]; [done|].
    unfold inv_allows_allocation, has_bad_regions in *. by destruct (find_disk p inv).
  - assert (∀ st, first_candidate inv st (list_disks inv) = Some d →
      inv_allows_allocation d inv = Ok true ∧ has_bad_regions d inv = Ok false) as Hc.
    { intros st [He _]%head_filter_Some. unfold eligible in He.
      destruct (inv_allows_allocation d inv) as [[]|], (has_bad_regions d inv) as [[]|]; done. }
    destruct (first_candidate inv Healthy _) eqn:Hh; [intros [= ->]; by eapply Hc|].
    destruct (first_candidate inv Suspect _) eqn:Hs; [intros [= ->]; by eapply Hc|done].
Qed.

Lemma allocation_allows_reads d inv : inv_allows_allocation d inv = Ok true → inv_allows_reads d inv = Ok true.
Proof.
  unfold inv_allows_allocation, inv_allows_reads. destruct (find_disk d inv) as [md|]; simpl; [|done].
  intros [= [Ha _]%andb_true_iff]. by destruct (md_state md).
Qed.

(** ** Theorems *)

(** The extent that a node has just stored is read back by a run without failures. *)
Lemma stored_extent_reads nd st x ver now data size cls :
  nd_events nd = [] → committed_content nd (es_mount_path st) x ver = Some data →
  meta_content nd (es_mount_path st) x ver =
    Some (meta_to_json (committed_meta st now x ver (compute_checksum data) size cls)) →
  ∃ nd', run_io (es_mount_path st) (read_extent st x ver) nd = (nd', Done (Ok (data, compute_checksum data))).
Proof.
  intros Hev Hc Hm. unfold run_io. rewrite Hev.
  destruct (read_extent _ _ _ _) as [w o] eqn:Hrun. exists (MkNode (nd_service nd)
    (<[es_mount_path st := w_fs w]> (nd_fs nd)) (w_events w)). f_equal.
  pose proof (read_extent_found st x ver (node_fs (es_mount_path st) nd) tt data _ _ Hc Hm (meta_utf8 _)
    (meta_round_trip _) eq_refl) as Hfound. by rewrite Hrun in Hfound.
Qed.

(** C9: An acknowledged write was admitted and is served: when a data node
    acknowledges an operation that it had not recorded, the caller was authorised,
    the epoch was not stale, the lease (where there is one) was held by the
    session at a current version, the disk allows allocation and has no bad
    region, and the checksum is that of the payload; and a read of the extent by
    an authorised caller, at most one epoch behind and without I/O failure, returns the
    requested range of the payload, padded with zeros, with its checksum. *)
Theorem acknowledged_write_served g now req payload caller nd nd1 resp rreq caller' :
  stores_ok (nd_service nd) →
  handle_write g now req payload caller nd = (nd1, Some resp) → ws_success resp = true →
  check_duplicate (wq_operation_id req) (nd_service nd) = None →
  nd_events nd1 = [] →
  rq_extent_id rreq = wq_extent_id req → rq_extent_version rreq = wq_extent_version req →
  check_read (rq_volume_id rreq) caller' (dn_volume_acl (nd_service nd1)) = true →
  EpochId_as_u64 (dn_current_epoch (nd_service nd1)) ≤ u64_sat_add (EpochId_as_u64 (rq_epoch rreq)) 1 →
  rq_offset rreq + rq_length rreq < u64_modulus →
  (∃ disk_id, admitted req payload caller nd disk_id ∧
     inv_allows_allocation disk_id (dn_inventory (nd_service nd)) = Ok true ∧
     has_bad_regions disk_id (dn_inventory (nd_service nd)) = Ok false) ∧
  let q := if decide (rq_offset rreq = 0 ∧ rq_length rreq = 0) then payload
           else padded_slice (rq_offset rreq) (rq_length rreq) payload in
  ∃ nd2, handle_read rreq caller' nd1 =
    (nd2, Return (Some (MkReadExtentResponse (rq_operation_id rreq) (rq_extent_id rreq) (rq_extent_version rreq)
       true (compute_checksum payload) (N.of_nat (length q)) None, Some q))).
Proof.
  intros Hso Hw Hok Hnew Hev Hx Hver Hacl Hep Hov.
  destruct (handle_write_effect _ _ _ _ _ _ _ _ Hw)
    as [_ _ Hdup|d root _ _ _ _ Hfail|disk st nd2 r' Hadm _ Hst Hsrv Hrep Hfile Hmeta _ Hrec Hr].
  { destruct (Hdup resp eq_refl Hok) as (? & ? & _). congruence. }
  { rewrite (Hfail resp eq_refl) in Hok. done. }
  destruct (select_write_disk_sound _ _ _ (adm_disk _ _ _ _ _ Hadm)) as [Halloc Hbad].
  split; [by exists disk|]. intros q.
  destruct r' as [[]|]; [|done]. destruct (record_operation_service _ _ _ Hrec) as (l & dl & Hsrv1).
  apply record_operation_same in Hrec as (Hi1 & Hs1 & Hf1 & Hm1). simpl in *.
  pose proof (Hso _ _ Hst) as Hid. simpl in Hid. subst disk.
  destruct (stored_extent_reads nd1 st (wq_extent_id req) (wq_extent_version req) now payload
    (N.of_nat (length payload)) Default Hev) as [nd3 Hread]; [by rewrite Hf1|by rewrite Hm1|].
  exists nd3. unfold handle_read. rewrite Hacl. simpl. unfold validate_epoch_for_read.
  rewrite decide_False by lia.
  rewrite Hx, Hver. unfold index_get. rewrite Hi1. unfold index_insert. rewrite lookup_insert_eq. simpl.
  rewrite decide_False by auto. rewrite Hsrv1. simpl. rewrite Hsrv.
  rewrite (allocation_allows_reads _ _ Halloc). simpl. rewrite Hst, Hread, decide_False by auto.
  by rewrite (slice_payload_padded _ _ _ Hov).
Qed.

(** C26: A write that must be fenced has no effect: if the request fails any
    check (authorisation, stale epoch, missing, foreign or stale lease, no
    eligible disk, wrong checksum), then the index, the stores and every extent
    file are as before, and the node answers with success only when it had
    already recorded this operation as successful. *)
Theorem fenced_write_has_no_effect g now req payload caller nd nd' r :
  (∀ disk_id, ¬ admitted req payload caller nd disk_id) →
  handle_write g now req payload caller nd = (nd', r) →
  same_extents nd nd' ∧
  ∀ resp, r = Some resp → ws_success resp = true →
    ∃ record, check_duplicate (wq_operation_id req) (nd_service nd) = Some record ∧ or_success record = true.
Proof.
  intros Hno [|d|d]%handle_write_effect; [by split|by destruct (Hno d)|by destruct (Hno d)].
Qed.

End spec.

(** ** Witnesses *)

Module NodeDemo.
Export StoreDemo.

Definition record_code (r : OperationRecord) : N * N * N * N * string * bool :=
  (OperationId_as_uuid (or_operation_id r), ExtentId_as_uuid (or_extent_id r), or_extent_version r,
   DiskId_as_uuid (or_disk_id r), or_checksum r, or_success r).

Definition record_of_code (t : N * N * N * N * string * bool) : OperationRecord :=
  let '(op, x, v, d, sum, ok) := t in
  MkOperationRecord (OperationId_new op) (ExtentId_new x) v (DiskId_new d) sum ok.

Definition record_parse (bs : list N) : result string OperationRecord :=
  ok_or "invalid record" (p ← of_bits bs; record_of_code <$> decode p).

Lemma record_parse_code r : record_parse (bits (encode (record_code r))) = Ok r.
Proof.
  unfold record_parse. rewrite of_bits_bits. simpl. rewrite decode_encode. by destruct r as [[] [] ? [] ? ?].
Qed.

Lemma bits_one_line p : 10 ∉ bits p ∧ last (bits p) ≠ Some 13.
Proof.
  split; [induction p; simpl; rewrite ?elem_of_cons, ?elem_of_nil; naive_solver|].
  induction p as [p IH|p IH|]; [..|done]; simpl; by destruct (bits p).
Qed.

#[export] Instance record_bits : RecordCodec :=
  {| record_to_json := λ r, bits (encode (record_code r));
     record_from_json := record_parse;
     record_round_trip := record_parse_code;
     record_utf8 := λ r, bits_utf8 _;
     record_one_line := λ r, bits_one_line _ |}.

Definition op_iter : HashIter OperationId := hash_iter_default OperationId.
#[export] Existing Instance op_iter.

Definition disk_iter : HashIter DiskId := hash_iter_default DiskId.
#[export] Existing Instance disk_iter.

Definition service (epoch : N) : DataNodeService :=
  register_store (DiskId_new 1) store
    (DataNodeService_new (MkInventory {[DiskId_new 1 := ManagedDisk_new (DiskId_new 1) ["mnt"; "d1"]]} []) ∅
       (EpochId_new epoch)).

Definition node (epoch : N) : Node := MkNode (service epoch) ∅ [].

Definition peer : PeerIdentity := IdNode (NodeId_new 5).

Definition stranger : PeerIdentity := IdClient (SessionId_new 6).

Definition payload : list N := [1; 2; 3].

Definition write_request (epoch : N) : WriteExtentRequest :=
  MkWriteExtentRequest (OperationId_new 11) (SessionId_new 6) (VolumeId_new 3) extent 1 (EpochId_new epoch) None
    (compute_checksum payload) 3 None.

Definition read_request (offset len : N) : ReadExtentRequest :=
  MkReadExtentRequest (OperationId_new 12) (SessionId_new 6) (VolumeId_new 3) extent 1 (EpochId_new 0) offset len.

Definition write (epoch : N) (caller : PeerIdentity) (nd : Node) : Node * option WriteExtentResponse :=
  handle_write (DiskId_new 99) 100 (write_request epoch) payload caller nd.

(** Whether a response is a success, and its error. *)
Definition answer (r : option WriteExtentResponse) : option (bool * option string) :=
  (λ resp, (ws_success resp, ws_error resp)) <$> r.

End NodeDemo.
Import NodeDemo.

Lemma stores_ok_demo epoch : stores_ok (nd_service (node epoch)).
Proof. apply map_Forall_singleton. done. Qed.

Lemma acknowledged_write_served_witness :
  ∃ nd2 resp, handle_read (read_request 1 4) peer (write 1 peer (node 1)).1 = (nd2, Return (Some (resp, Some [2; 3; 0; 0]))).
Proof.
  destruct (acknowledged_write_served (DiskId_new 99) 100 (write_request 1) payload peer (node 1)
    (write 1 peer (node 1)).1
    (MkWriteExtentResponse (OperationId_new 11) extent 1 (DiskId_new 1) true (compute_checksum payload) None)
    (read_request 1 4) peer) as [_ [nd2 Hread]].
  - apply stores_ok_demo.
  - vm_compute. reflexivity.
  - reflexivity.
  - reflexivity.
  - vm_compute. reflexivity.
  - reflexivity.
  - reflexivity.
  - vm_compute. reflexivity.
  - vm_compute. discriminate.
  - reflexivity.
  - eexists nd2, _. exact Hread.
Defined.

Lemma fenced_write_has_no_effect_witness : same_extents (node 5) (write 1 peer (node 5)).1.
Proof.
  destruct (fenced_write_has_no_effect (DiskId_new 99) 100 (write_request 1) payload peer (node 5)
    (write 1 peer (node 5)).1 (write 1 peer (node 5)).2) as [Hsame _].
  - intros d Hadm. pose proof (adm_epoch _ _ _ _ _ Hadm) as Hep. vm_compute in Hep. apply Hep. reflexivity.
  - apply surjective_pairing.
  - exact Hsame.
Defined.

(** A rejection is remembered like a failure: after a write was refused for a
    stale epoch, the same operation at the current epoch is refused as well. *)
Theorem stale_epoch_poisons_operation :
  let nd1 := (write 1 peer (node 5)).1 in
  answer (write 1 peer (node 5)).2 = Some (false, Some "stale epoch: request epoch 1 < current 5") ∧
  answer (write 5 peer nd1).2 = Some (false, Some "previous attempt failed") ∧
  answer (write 5 peer (node 5)).2 = Some (true, None).
Proof. vm_compute. auto. Qed.

(** The authorisation check comes before the duplicate check and records its
    refusal: a stranger who repeats the identifier of a successful operation turns
    its record into a failure. *)
Theorem denied_write_overwrites_record :
  let nd1 := (write 5 peer (node 5)).1 in
  let nd2 := (write 5 stranger nd1).1 in
  answer (write 5 peer nd1).2 = Some (true, None) ∧
  answer (write 5 peer nd2).2 = Some (false, Some "previous attempt failed").
Proof. vm_compute. auto. Qed.
