(* ===== verification/NodeStorage.v ===== *)
(** * The storage of a node, from start to restart

    Disk identity from crates/blockyard-storage/src/disk.rs and the first phase of
    [BlockyardNode::start] (crates/blockyard/src/node.rs): the configured mounts are
    validated and identified, every disk's store is recovered into one index, and
    the data service is created over them.  A [life] of the node is any sequence of
    requests, crashes and restarts; an acknowledged write is served at the end of
    every life that does not write the same extent version again.  What the
    operating system says of a mount (a directory, a [stat -f]) is in [Mount]; the
    serde form of the identity file is the class [DiskMetadataCodec]. *)

From S2P Require Import Prelude Common Text Placement Checksum DiskInventory FileSystem ExtentStore ExtentRecovery Auth Protocol.
From S2P Require Import DataNode DataNodeSpec.

#[local] Open Scope N_scope.

(** ** Disk identity *)

Definition DISK_ID_FILENAME : string := ".blockyard_disk_id".

Definition XFS_MARKER : string := ".blockyard_xfs_ok".

Record DiskMetadata := MkDiskMetadata {
  dm_disk_id : DiskId;
  dm_node_id : option NodeId;
}.

(** [serde_json::to_string_pretty] of the metadata and [serde_json::from_str] of the trimmed text. *)
Class DiskMetadataCodec := {
  disk_metadata_to_json : DiskMetadata → list N;
  disk_metadata_from_json : list N → result string DiskMetadata;
  disk_metadata_round_trip : ∀ m, disk_metadata_from_json (disk_metadata_to_json m) = Ok m;
  disk_metadata_utf8 : ∀ m, is_utf8 (disk_metadata_to_json m) = true;
}.

(** A configured mount path, what the system says of it, and the identifier to
    assign when the disk has none.  [mt_fs_type] is the output of [stat -f -c %T]. *)
Record Mount := MkMount {
  mt_path : Path;
  mt_is_dir : bool;
  mt_skip_xfs_check : bool;
  mt_stat : result string unit;
  mt_fs_type : option string;
  mt_generated : DiskId;
}.

Definition validate_xfs {X} (m : Mount) : IO X unit :=
  let path := mt_path m in
  let override := ". Use .blockyard_xfs_ok marker file or BLOCKYARD_SKIP_XFS_CHECK=1 to override." in
  if mt_skip_xfs_check m then mret tt else
  marker ← path_exists (path ++ [XFS_MARKER]);
  if marker : bool then mret tt else
  match mt_stat m with
  | Err e => io_throw (XfsValidation ("cannot stat " +:+ path_display path +:+ ": " +:+ e))
  | Ok _ =>
      match mt_fs_type m with
      | Some fs_type =>
          if decide (fs_type = "xfs") then mret tt
          else io_throw (XfsValidation (path_display path +:+ " is not an XFS filesystem (detected: '"
                           +:+ fs_type +:+ "')" +:+ override))
      | None => io_throw (XfsValidation ("could not determine filesystem type for " +:+ path_display path +:+ override))
      end
  end.

Section identity.
Context `{!DiskMetadataCodec} {X : Type}.

Definition read_or_assign_disk_id (mount_path : Path) (node_id : option NodeId) (generated : DiskId) : IO X DiskId :=
  let id_path := mount_path ++ [DISK_ID_FILENAME] in
  let wrap what e := DiskIdentity (what +:+ path_display id_path +:+ ": " +:+ e) in
  found ← path_exists id_path;
  if found : bool then
    contents ← syscall (wrap "failed to read disk ID from ") (λ fs,
      data ← ok_or enoent (fs_files fs !! id_path);
      if is_utf8 data then Ok (fs, data) else Err "stream did not contain valid UTF-8") no_tear;
    match disk_metadata_from_json contents with
    | Err e => io_throw (wrap "corrupt disk ID file at " e)
    | Ok metadata => mret (dm_disk_id metadata)
    end
  else
    let json := disk_metadata_to_json (MkDiskMetadata generated node_id) in
    _ ← file_create (wrap "failed to write disk ID to ") id_path;
    _ ← write_all (wrap "failed to write disk ID to ") id_path json;
    mret generated.

(** What [discover_single_disk] finds before it takes the lock on the inventory. *)
Definition probe_mount (m : Mount) : IO X MountProbe :=
  if mt_is_dir m then
    xfs ← io_try (validate_xfs m);
    match xfs with
    | Err e => mret (MkMountProbe true (Err e) (Err e))
    | Ok _ =>
        disk_id ← io_try (read_or_assign_disk_id (mt_path m) None (mt_generated m));
        mret (MkMountProbe true (Ok tt) disk_id)
    end
  else mret (MkMountProbe false (Ok tt) (Ok (mt_generated m))).

End identity.

(** ** Starting the storage of a node *)

Section start.
Context `{!UuidDisplay} `{!MetaCodec} `{!ReadDirOrder} `{!DiskMetadataCodec}.

(** [discover_disks]: the mounts in order, stopping at the first error. *)
Fixpoint discover_mounts (mounts : list Mount) (inv : DiskInventory) (nd : Node)
    : Node * DiskInventory * outcome (list DiskId) :=
  match mounts with
  | [] => (nd, inv, Done (Ok []))
  | m :: mounts =>
      match run_io (mt_path m) (probe_mount m) nd with
      | (nd, Crashed) => (nd, inv, Crashed)
      | (nd, Done (Err e)) => (nd, inv, Done (Err e))
      | (nd, Done (Ok probe)) =>
          match discover_single_disk (mt_path m) probe false inv with
          | (inv, Err e) => (nd, inv, Done (Err e))
          | (inv, Ok disk_id) =>
              match discover_mounts mounts inv nd with
              | (nd, inv, Done (Ok disk_ids)) => (nd, inv, Done (Ok (disk_id :: disk_ids)))
              | stop => stop
              end
          end
      end
  end.

(** The disks with their mount paths, kept for the registration with the cluster. *)
Fixpoint disk_mount_paths (disk_ids : list DiskId) (inv : DiskInventory) : result StorageError (list (DiskId * Path)) :=
  match disk_ids with
  | [] => Ok []
  | disk_id :: disk_ids =>
      mount_path ← get_mount_path disk_id inv;
      paths ← disk_mount_paths disk_ids inv;
      Ok ((disk_id, mount_path) :: paths)
  end.

(** A store per disk, each recovered into the node's index. *)
Fixpoint recover_stores (disk_ids : list DiskId) (inv : DiskInventory) (nd : Node)
    : Node * outcome (list (DiskId * ExtentStore)) :=
  match disk_ids with
  | [] => (nd, Done (Ok []))
  | disk_id :: disk_ids =>
      match get_mount_path disk_id inv with
      | Err e => (nd, Done (Err e))
      | Ok mount_path =>
          let store := MkStore mount_path disk_id in
          match run_recover store nd with
          | (nd, Crashed) => (nd, Crashed)
          | (nd, Done (Err e)) => (nd, Done (Err e))
          | (nd, Done (Ok _)) =>
              match recover_stores disk_ids inv nd with
              | (nd, Done (Ok stores)) => (nd, Done (Ok ((disk_id, store) :: stores)))
              | stop => stop
              end
          end
      end
  end.

Definition register_stores (stores : list (DiskId * ExtentStore)) (s : DataNodeService) : DataNodeService :=
  foldl (λ s ds, register_store ds.1 ds.2 s) s stores.

(** Steps 1 to 5 of [start], on the disks as the last process left them: the result is
    the node with its new service, and the disks to register.  The service of a process
    that fails to start stays empty; otherwise the index belongs to the service from
    the beginning. *)
Definition start_storage (mounts : list Mount) (nd : Node) : Node * outcome (list (DiskId * Path)) :=
  let nd := MkNode (DataNodeService_new DiskInventory_new ∅ (EpochId_new 0)) (nd_fs nd) (nd_events nd) in
  match discover_mounts mounts DiskInventory_new nd with
  | (nd, _, Crashed) => (nd, Crashed)
  | (nd, _, Done (Err e)) => (nd, Done (Err e))
  | (nd, inv, Done (Ok disk_ids)) =>
      match disk_mount_paths disk_ids inv with
      | Err e => (nd, Done (Err e))
      | Ok paths =>
          let nd := MkNode (DataNodeService_new inv ∅ (EpochId_new 0)) (nd_fs nd) (nd_events nd) in
          match recover_stores disk_ids inv nd with
          | (nd, Crashed) => (nd, Crashed)
          | (nd, Done (Err e)) => (nd, Done (Err e))
          | (nd, Done (Ok stores)) => (on_service (register_stores stores) nd, Done (Ok paths))
          end
      end
  end.

End start.

(** ** Requests, crashes and restarts *)

Inductive NodeCall :=
  | CallWrite (generated : DiskId) (now : N) (request : WriteExtentRequest) (payload : list N) (caller : PeerIdentity)
  | CallRead (request : ReadExtentRequest) (caller : PeerIdentity).

(** The extent version that a call writes. *)
Definition call_extent (c : NodeCall) : option (ExtentId * N) :=
  match c with
  | CallWrite _ _ request _ _ => Some (wq_extent_id request, wq_extent_version request)
  | CallRead _ _ => None
  end.

Section life.
Context `{!UuidDisplay} `{!Blake3} `{!MetaCodec} `{!RecordCodec} `{!ReadDirOrder} `{!DiskMetadataCodec}.
Context `{!HashIter OperationId} `{!HashIter DiskId}.

Definition node_call (c : NodeCall) (nd : Node) : Node :=
  match c with
  | CallWrite generated now request payload caller => (handle_write generated now request payload caller nd).1
  | CallRead request caller => (handle_read request caller nd).1
  end.

(** The disks as a later process finds them: as they are, or as a crash left them. *)
Definition disks_later (nd nd' : Node) : Prop := ∀ root, later (node_fs root nd) (node_fs root nd').

(** Requests served, and restarts (successful or not) on the disks that a stop or a
    crash left behind; [allowed] are the requests that may come. *)
Inductive life (allowed : NodeCall → Prop) (nd : Node) : Node → Prop :=
  | life_refl : life allowed nd nd
  | life_call nd1 c : life allowed nd nd1 → allowed c → life allowed nd (node_call c nd1)
  | life_restart nd1 nd2 mounts nd3 o :
      life allowed nd nd1 → disks_later nd1 nd2 → start_storage mounts nd2 = (nd3, o) → life allowed nd nd3.

(** ** What a call keeps *)

Lemma on_service_fs f nd root : node_fs root (on_service f nd) = node_fs root nd.
Proof. done. Qed.

Lemma extent_file_ne_staged root x ver p n : extent_file root x ver p → p ≠ root ++ [STAGED_DIR; n].
Proof.
  intros Hp ->. assert (under (root ++ [COMMITTED_DIR]) (root ++ [STAGED_DIR; n])) as (d & r & Heq).
  { destruct (committed_under root x ver) as [Hc Hm]. destruct Hp as [-> | ->]; done. }
  rewrite <- app_assoc in Heq. by apply app_inv_head in Heq.
Qed.

Lemma record_operation_settled record nd nd' r root x ver p c :
  extent_file root x ver p → record_operation record nd = (nd', r) →
  settled p c (node_fs root nd) → settled p c (node_fs root nd').
Proof.
  intros Hp Hrec Hs. unfold record_operation in Hrec.
  destruct (dn_durable_oplog _) as [log|]; [|by injection Hrec as <- _].
  destruct (run_io _ _ nd) as [nd1 o] eqn:Hrun.
  assert (settled p c (node_fs root nd1)) as Hs1.
  { eapply run_io_settled; [|exact Hrun|exact Hs]. intros <-.
    destruct (extent_file_below _ _ _ _ Hp) as (d & rest & -> & Hr). by eapply oplog_append_keeps. }
  by destruct o as [[log'|e]|]; injection Hrec as <- _.
Qed.

Lemma write_error_settled g req msg nd nd' r root x ver p c :
  extent_file root x ver p → write_error g req msg nd = (nd', r) →
  settled p c (node_fs root nd) → settled p c (node_fs root nd').
Proof.
  unfold write_error. intros Hp Herr. destruct (record_operation _ _) as [nd1 r1] eqn:Hrec.
  injection Herr as <- _. by eapply record_operation_settled.
Qed.

Lemma extent_files_ne st x ver x' ver' p :
  (x', ver') ≠ (x, ver) → extent_file (es_mount_path st) x' ver' p →
  p ≠ staged_extent_path (es_mount_path st) x ver ∧ p ≠ committed_extent_path (es_mount_path st) x ver ∧
  p ≠ extent_meta_path (es_mount_path st) x ver.
Proof.
  intros Hne [-> | ->]; split_and!; eauto with fs.
  - intros [-> ->]%committed_path_inj. done.
  - intros [-> ->]%meta_path_inj. done.
Qed.

Lemma handle_write_settled g now req payload caller nd nd' r root x ver p c :
  (x, ver) ≠ (wq_extent_id req, wq_extent_version req) → extent_file root x ver p →
  handle_write g now req payload caller nd = (nd', r) →
  settled p c (node_fs root nd) → settled p c (node_fs root nd').
Proof.
  intros Hne Hp Hw Hs. unfold handle_write in Hw.
  assert (∀ nd1 msg, settled p c (node_fs root nd1) → write_error g req msg nd1 = (nd', r) →
            settled p c (node_fs root nd')) as Herr by (intros; by eapply write_error_settled).
  destruct (check_write _ _ _); simpl in Hw; [|by eapply Herr].
  destruct (check_duplicate _ _); [by injection Hw as <- _|].
  destruct (validate_epoch _ _); [|by eapply Herr].
  destruct (validate_write_lease _ _); [|by eapply Herr].
  destruct (select_write_disk _ _) as [disk_id|]; [|by eapply Herr].
  case_decide; [by eapply Herr|].
  destruct (dn_stores _ !! disk_id) as [st|]; [|by eapply Herr].
  destruct (run_io _ (stage_extent _ _ _ _) nd) as [nd1 o1] eqn:Hstage.
  assert (settled p c (node_fs root nd1)) as Hs1.
  { eapply run_io_settled; [|exact Hstage|exact Hs]. intros <-. by apply stage_keeps, (extent_files_ne st _ _ x ver). }
  destruct o1 as [[[q sum]|e]|]; [|eapply Herr; [|exact Hw]|by injection Hw as <- _].
  2: { unfold handle_xfs_error. by repeat case_match. }
  destruct (run_io _ (commit_extent _ _ _ _ _ _ _) nd1) as [nd2 o2] eqn:Hcommit.
  assert (settled p c (node_fs root nd2)) as Hs2.
  { eapply run_io_settled; [|exact Hcommit|exact Hs1]. intros <-.
    by apply commit_keeps; apply (extent_files_ne st _ _ x ver). }
  destruct o2 as [[entry|e]|]; [|eapply Herr; [|exact Hw]|by injection Hw as <- _].
  - destruct (record_operation _ _) as [nd3 r3] eqn:Hrec. injection Hw as <- _.
    by eapply record_operation_settled.
  - unfold handle_xfs_error. by repeat case_match.
Qed.

Lemma read_extent_preserves (I : FS → Prop) st x ver : preserves I (read_extent (X:=unit) st x ver).
Proof.
  intros w w' o HI Hrun. pose proof (read_extent_sound st x ver (w_fs w) _ _ _ eq_refl Hrun) as Hr.
  destruct o as [[r|e]|]; [destruct Hr as [-> _]|rewrite Hr..]; done.
Qed.

Lemma handle_read_settled req caller nd root p c :
  settled p c (node_fs root nd) → settled p c (node_fs root (handle_read req caller nd).1).
Proof.
  intros Hs. unfold handle_read. destruct (check_read _ _ _); [simpl|done].
  destruct (validate_epoch_for_read _ _); [|done]. destruct (index_get _ _) as [entry|]; [|done].
  case_decide; [done|]. case_bool_decide; [done|]. destruct (dn_stores _ !! _) as [st|]; [|done].
  destruct (run_io _ _ nd) as [nd1 o] eqn:Hrun.
  assert (settled p c (node_fs root nd1)) as Hs1.
  { eapply run_io_settled; [|exact Hrun|exact Hs]. intros _. apply read_extent_preserves. }
  destruct o as [[[data sum]|e]|]; [case_decide; done| |done].
  simpl. unfold handle_read_error. by repeat case_match.
Qed.

(** ** What a restart keeps *)

Lemma probe_mount_settled m nd nd' o root x ver p c :
  extent_file root x ver p → run_io (mt_path m) (probe_mount m) nd = (nd', o) →
  settled p c (node_fs root nd) → settled p c (node_fs root nd').
Proof.
  intros Hp Hrun. eapply run_io_settled; [|exact Hrun]. intros <-.
  assert (p ≠ mt_path m ++ [DISK_ID_FILENAME]) as Hne.
  { destruct (extent_file_below _ _ _ _ Hp) as (d & rest & -> & Hr). intros Heq%app_inv_head. congruence. }
  unfold probe_mount. destruct (mt_is_dir m); [|apply preserves_ret].
  apply preserves_bind; [apply preserves_try|intros [[]|e]; [|apply preserves_ret]].
  { unfold validate_xfs. destruct (mt_skip_xfs_check m); [apply preserves_ret|].
    apply preserves_bind; [apply preserves_look|intros []; [apply preserves_ret|]].
    destruct (mt_stat m); [|apply preserves_throw]. destruct (mt_fs_type m); [case_decide|]; solve_preserves. }
  apply preserves_bind; [apply preserves_try|intros; apply preserves_ret].
  unfold read_or_assign_disk_id. apply preserves_bind; [apply preserves_look|intros []].
  - apply preserves_bind; [|intros data; destruct (disk_metadata_from_json data); solve_preserves].
    apply preserves_syscall; [|done]. intros fs fs' data Hfs Hr.
    destruct (fs_files fs !! _) as [d|]; simpl in Hr; [|done]. by destruct (is_utf8 d); simplify_eq.
  - solve_preserves.
Qed.

Lemma discover_mounts_settled mounts inv nd nd' inv' o root x ver p c :
  extent_file root x ver p → discover_mounts mounts inv nd = (nd', inv', o) →
  settled p c (node_fs root nd) → settled p c (node_fs root nd').
Proof.
  intros Hp. revert inv nd nd' inv' o. induction mounts as [|m mounts IH]; intros inv nd nd' inv' o Hd Hs; simpl in Hd.
  { by simplify_eq. }
  destruct (run_io _ _ nd) as [nd1 o1] eqn:Hrun. pose proof (probe_mount_settled _ _ _ _ _ _ _ _ _ Hp Hrun Hs) as Hs1.
  destruct o1 as [[probe|e]|]; [|by simplify_eq..].
  destruct (discover_single_disk _ _ _ _) as [inv1 [d|e]]; [|by simplify_eq].
  destruct (discover_mounts mounts inv1 nd1) as [[nd2 inv2] o2] eqn:Hd2.
  specialize (IH _ _ _ _ _ Hd2 Hs1). by destruct o2 as [[]|]; simplify_eq.
Qed.

Lemma recover_stores_settled ids inv nd nd' o root x ver p c :
  extent_file root x ver p → recover_stores ids inv nd = (nd', o) →
  settled p c (node_fs root nd) → settled p c (node_fs root nd').
Proof.
  intros Hp. revert nd nd' o. induction ids as [|d ids IH]; intros nd nd' o Hr Hs; simpl in Hr; [by simplify_eq|].
  destruct (get_mount_path d inv) as [path|e]; [|by simplify_eq].
  destruct (run_recover _ nd) as [nd1 o1] eqn:Hrun.
  assert (settled p c (node_fs root nd1)) as Hs1.
  { unfold run_recover in Hrun. destruct (recover _ _) as [w o2] eqn:Hrec. injection Hrun as <- <-.
    rewrite node_fs_insert. case_decide as Hroot; [subst root|done].
    eapply recover_keeps; [|exact Hrec|exact Hs]. intros n. by eapply extent_file_ne_staged. }
  destruct o1 as [[rep|e]|]; [|by simplify_eq..].
  destruct (recover_stores ids inv nd1) as [nd2 o2] eqn:Hr2. specialize (IH _ _ _ Hr2 Hs1).
  by destruct o2 as [[]|]; simplify_eq.
Qed.

Lemma start_storage_settled mounts nd nd' o root x ver p c :
  extent_file root x ver p → start_storage mounts nd = (nd', o) →
  settled p c (node_fs root nd) → settled p c (node_fs root nd').
Proof.
  intros Hp Hstart Hs. unfold start_storage in Hstart.
  destruct (discover_mounts _ _ _) as [[nd1 inv] o1] eqn:Hd.
  pose proof (discover_mounts_settled _ _ _ _ _ _ _ _ _ _ _ Hp Hd Hs) as Hs1.
  destruct o1 as [[ids|e]|]; [|by simplify_eq..].
  destruct (disk_mount_paths ids inv); [|by simplify_eq].
  destruct (recover_stores _ _ _) as [nd2 o2] eqn:Hr.
  pose proof (recover_stores_settled _ _ _ _ _ _ _ _ _ _ Hp Hr Hs1) as Hs2.
  by destruct o2 as [[]|]; simplify_eq.
Qed.

(** A file of an extent version is kept through every life that does not write it. *)
Lemma life_settled (allowed : NodeCall → Prop) nd nd' root x ver p c :
  (∀ k, allowed k → call_extent k ≠ Some (x, ver)) → extent_file root x ver p →
  life allowed nd nd' → settled p c (node_fs root nd) → settled p c (node_fs root nd').
Proof.
  intros Hother Hp Hlife Hs.
  induction Hlife as [|nd1 k Hl IH Hk|nd1 nd2 mounts nd3 o Hl IH Hlater Hstart]; [done|..].
  - destruct k as [g now req payload caller|req caller]; simpl; [|by apply handle_read_settled].
    destruct (handle_write _ _ _ _ _ _) as [nd2 r] eqn:Hw. eapply handle_write_settled; [|done|exact Hw|exact IH].
    specialize (Hother _ Hk). simpl in Hother. congruence.
  - eapply start_storage_settled; [done|exact Hstart|]. by eapply settled_later.
Qed.

(** ** A restart without failures *)

(** A mount that holds the disk [d]. *)
Record mount_ready (nd : Node) (m : Mount) (d : DiskId) : Prop := {
  mr_dir : mt_is_dir m = true;
  mr_xfs : mt_skip_xfs_check m = true ∨
    is_Some (fs_files (node_fs (mt_path m) nd) !! (mt_path m ++ [XFS_MARKER])) ∨
    (mt_stat m = Ok tt ∧ mt_fs_type m = Some "xfs");
  mr_identity : ∃ node_id, fs_files (node_fs (mt_path m) nd) !! (mt_path m ++ [DISK_ID_FILENAME]) =
    Some (disk_metadata_to_json (MkDiskMetadata d node_id));
  mr_tree : tree_ok (fs_files (node_fs (mt_path m) nd));
}.

(** The same disks, and no failure to come. *)
Definition same_disks (nd nd' : Node) : Prop :=
  (∀ root, node_fs root nd' = node_fs root nd) ∧ nd_events nd' = nd_events nd.

Lemma mount_ready_same nd nd' m d : same_disks nd nd' → mount_ready nd m d → mount_ready nd' m d.
Proof. intros [Hfs _] [? ? ? ?]. by split; rewrite ?Hfs. Qed.

Lemma validate_xfs_ready nd m d (s : unit) :
  mount_ready nd m d →
  validate_xfs m (MkWorld (node_fs (mt_path m) nd) [] s) = (MkWorld (node_fs (mt_path m) nd) [] s, Done (Ok tt)).
Proof.
  intros [_ Hxfs _ _]. unfold validate_xfs. destruct (mt_skip_xfs_check m); [done|].
  unfold mbind, io_mbind, path_exists, io_look. simpl. case_bool_decide as Hm; [done|].
  destruct Hxfs as [?|[?|[Hs Ht]]]; [done..|]. by rewrite Hs, Ht.
Qed.

Lemma probe_mount_ready nd m d :
  mount_ready nd m d → nd_events nd = [] →
  ∃ nd', run_io (mt_path m) (probe_mount m) nd = (nd', Done (Ok (MkMountProbe true (Ok tt) (Ok d)))) ∧
    same_disks nd nd'.
Proof.
  intros Hready Hev. destruct (mr_identity _ _ _ Hready) as [n Hid].
  exists (MkNode (nd_service nd) (<[mt_path m := node_fs (mt_path m) nd]> (nd_fs nd)) []). split.
  - unfold run_io. rewrite Hev. unfold probe_mount. rewrite (mr_dir _ _ _ Hready).
    unfold mbind, io_mbind, io_try. rewrite (validate_xfs_ready _ _ _ _ Hready).
    unfold read_or_assign_disk_id, mbind, io_mbind, path_exists, io_look. simpl. rewrite Hid.
    rewrite bool_decide_eq_true_2 by by eexists. simpl. rewrite Hid. simpl.
    by rewrite disk_metadata_utf8; simpl; rewrite disk_metadata_round_trip.
  - split; [|by rewrite Hev]. intros root. rewrite node_fs_insert. by case_decide as Hr; [subst root|].
Qed.

Lemma discover_mounts_ready mounts ids inv nd :
  Forall2 (mount_ready nd) mounts ids → NoDup ids → (∀ d, d ∈ ids → inv_disks inv !! d = None) → nd_events nd = [] →
  ∃ nd' inv', discover_mounts mounts inv nd = (nd', inv', Done (Ok ids)) ∧ same_disks nd nd' ∧
    (∀ m d, (m, d) ∈ zip mounts ids → inv_disks inv' !! d = Some (ManagedDisk_new d (mt_path m))) ∧
    (∀ d, d ∉ ids → inv_disks inv' !! d = inv_disks inv !! d).
Proof.
  intros Hready. revert inv nd Hready.
  induction mounts as [|m mounts IH] in ids |- *; intros inv nd Hready Hnd Hnew Hev; simpl.
  { apply Forall2_nil_inv_l in Hready as ->. exists nd, inv. split_and!; try done. by intros m d ?%not_elem_of_nil. }
  apply Forall2_cons_inv_l in Hready as (d & ids' & Hm & Hms & ->).
  apply NoDup_cons in Hnd as [Hd Hnd].
  destruct (probe_mount_ready _ _ _ Hm Hev) as (nd1 & -> & Hsame). unfold discover_single_disk. simpl.
  rewrite (Hnew d) by by left. simpl.
  destruct (IH ids' (put_disk d (ManagedDisk_new d (mt_path m)) inv) nd1) as (nd2 & inv2 & -> & Hsame2 & Hzip & Hrest).
  - eapply Forall2_impl; [exact Hms|]. intros m' d'. by apply mount_ready_same.
  - done.
  - intros d' Hd'. simpl. rewrite lookup_insert_ne by set_solver. apply Hnew. by right.
  - by destruct Hsame as [_ ->].
  - exists nd2, inv2. split_and!; [done|..].
    + destruct Hsame as [Hf1 He1], Hsame2 as [Hf2 He2]. split; [intros root; by rewrite Hf2|congruence].
    + intros m' d' [[= -> ->]|Hin]%elem_of_cons; [|by apply Hzip].
      rewrite Hrest by done. apply lookup_insert_eq.
    + intros d' Hd'. rewrite Hrest by set_solver. simpl. apply lookup_insert_ne. set_solver.
Qed.

Lemma disk_mount_paths_ok disks inv :
  (∀ d p, (d, p) ∈ disks → get_mount_path d inv = Ok p) → disk_mount_paths disks.*1 inv = Ok disks.
Proof.
  induction disks as [|[d p] disks IH]; intros Hp; [done|]. csimpl. rewrite (Hp d p) by by left. simpl.
  rewrite IH; [done|]. intros d' p' Hin. apply Hp. by right.
Qed.

(** An entry that a disk of the list gives for [y]. *)
Definition recoverable_on (nd : Node) (disks : list (DiskId * Path)) (y : ExtentId) (e : LocalExtentEntry) : Prop :=
  ∃ d root path, (d, root) ∈ disks ∧ under (root ++ [COMMITTED_DIR]) path ∧
    recoverable (fs_files (node_fs root nd)) path e ∧ le_extent_id e = y.

(** Recovery fills the index from the disks and keeps what they have committed. *)
Definition recovers (nd nd' : Node) (disks : list (DiskId * Path)) : Prop :=
  nd_service nd' = set_index (dn_index (nd_service nd')) (nd_service nd) ∧ nd_events nd' = [] ∧
  (∀ root p, under (root ++ [COMMITTED_DIR]) p → fs_files (node_fs root nd') !! p = fs_files (node_fs root nd) !! p) ∧
  (∀ root, root ∉ disks.*2 → node_fs root nd' = node_fs root nd) ∧
  ∀ y, (∃ e, recoverable_on nd disks y e ∧ dn_index (nd_service nd') !! y = Some e) ∨
       ((∀ e, ¬ recoverable_on nd disks y e) ∧ dn_index (nd_service nd') !! y = dn_index (nd_service nd) !! y).

Lemma run_recover_ready d root nd :
  nd_events nd = [] → tree_ok (fs_files (node_fs root nd)) →
  ∃ nd' rep, run_recover (MkStore root d) nd = (nd', Done (Ok rep)) ∧ recovers nd nd' [(d, root)].
Proof.
  intros Hev Htree.
  destruct (recover_spec (MkStore root d) (node_fs root nd) (dn_index (nd_service nd)) Htree)
    as (fs' & l & rep & Hrec & Hin & Hkeep & _).
  unfold run_recover. simpl. rewrite Hev, Hrec. eexists _, rep. split; [done|]. simpl.
  split_and!; [done..| | |].
  - intros root' p Hp. rewrite node_fs_insert. case_decide as Hr; [subst root'|done]. by apply Hkeep.
  - intros root' Hr. rewrite node_fs_insert, decide_False; [done|]. set_solver.
  - intros y. simpl. destruct (lookup_insert_all l (dn_index (nd_service nd)) y) as [(e & He & Hid & Heq)|[Hno Heq]].
    + left. exists e. split; [|done]. apply Hin in He as (path & Hu & Hr).
      exists d, root, path. split_and!; [by left|done..].
    + right. split; [|done]. intros e (d' & root' & path & [[= -> ->]|?%not_elem_of_nil]%elem_of_cons & Hu & Hr & Hid); [|done].
      eapply (Hno e); [|done]. apply Hin. by exists path.
Qed.

Lemma recover_stores_ready disks inv nd :
  nd_events nd = [] → NoDup disks.*2 →
  (∀ d root, (d, root) ∈ disks → get_mount_path d inv = Ok root ∧ tree_ok (fs_files (node_fs root nd))) →
  ∃ nd', recover_stores disks.*1 inv nd = (nd', Done (Ok ((λ dp, (dp.1, MkStore dp.2 dp.1)) <$> disks))) ∧
    recovers nd nd' disks.
Proof.
  induction disks as [|[d root] disks IH] in nd |- *; intros Hev Hnd Hok; csimpl.
  { exists nd. split; [done|]. split_and!; try done.
    - by destruct nd as [[]].
    - intros y. right. split; [|done]. by intros e (? & ? & ? & ?%not_elem_of_nil & _). }
  apply NoDup_cons in Hnd as [Hroot Hnd].
  destruct (Hok d root) as [-> Htree]; [by left|].
  destruct (run_recover_ready d root nd Hev Htree) as (nd1 & rep & -> & Hsrv1 & Hev1 & Hkeep1 & Hrest1 & Hidx1).
  destruct (IH nd1) as (nd2 & -> & Hsrv2 & Hev2 & Hkeep2 & Hrest2 & Hidx2); [done|done| |].
  { intros d' root' Hin. destruct (Hok d' root') as [Hp Ht]; [by right|]. split; [done|].
    rewrite Hrest1; [done|]. intros ->%list_elem_of_singleton. apply Hroot. apply list_elem_of_fmap. by exists (d', root). }
  exists nd2. split; [done|]. split_and!; [|done| | |].
  - by rewrite Hsrv2, Hsrv1.
  - intros root' p Hp. by rewrite Hkeep2, Hkeep1.
  - intros root' Hr. csimpl in Hr. rewrite Hrest2, Hrest1; set_solver.
  - assert (∀ y e, recoverable_on nd1 disks y e ↔ recoverable_on nd disks y e) as Hsame.
    { intros y e. unfold recoverable_on. apply exist_proper. intros d'. apply exist_proper. intros root'.
      apply exist_proper. intros path. split; intros (Hin & ?); (split; [done|]);
        (rewrite Hrest1 in * || rewrite Hrest1); try done; intros ->%list_elem_of_singleton; apply Hroot;
        apply list_elem_of_fmap; by exists (d', root). }
    intros y. destruct (Hidx2 y) as [(e & He & Heq)|[Hno Heq]].
    + left. exists e. split; [|done]. apply Hsame in He as (d' & root' & path & Hin & ?).
      exists d', root', path. split; [by right|done].
    + rewrite Heq. destruct (Hidx1 y) as [(e & (d' & root' & path & Hin & ?) & Heq1)|[Hno1 Heq1]].
      * left. exists e. split; [|done]. exists d', root', path. split; [set_solver|done].
      * right. split; [|done]. intros e (d' & root' & path & [Hin|Hin]%elem_of_cons & Hrec).
        -- apply (Hno1 e). exists d', root', path. split; [set_solver|done].
        -- apply (Hno e). apply Hsame. by exists d', root', path.
Qed.

(** A service just created, over the disks [disks]. *)
Record fresh_service (disks : list (DiskId * Path)) (s : DataNodeService) : Prop := {
  fr_epoch : dn_current_epoch s = EpochId_new 0;
  fr_log : dn_operation_log s = ∅;
  fr_durable : dn_durable_oplog s = None;
  fr_leases : dn_lease_cache s = ∅;
  fr_acl : dn_volume_acl s = VolumeAcl_new;
  fr_disks : ∀ d root, (d, root) ∈ disks →
    dn_stores s !! d = Some (MkStore root d) ∧ inv_disks (dn_inventory s) !! d = Some (ManagedDisk_new d root);
}.

Lemma register_stores_lookup disks s :
  NoDup disks.*1 →
  ∃ stores, register_stores ((λ dp, (dp.1, MkStore dp.2 dp.1)) <$> disks) s =
      MkService (dn_current_epoch s) (dn_operation_log s) (dn_durable_oplog s) stores (dn_inventory s)
         (dn_index s) (dn_lease_cache s) (dn_volume_acl s) ∧
    (∀ d root, (d, root) ∈ disks → stores !! d = Some (MkStore root d)) ∧
    (∀ d, d ∉ disks.*1 → stores !! d = dn_stores s !! d).
Proof.
  intros Hnd. induction disks as [|[d root] disks IH] in s, Hnd |- *; csimpl.
  { exists (dn_stores s). split_and!; [by destruct s|by intros ? ? ?%not_elem_of_nil|done]. }
  csimpl in Hnd. apply NoDup_cons in Hnd as [Hd Hnd]. unfold register_stores in *. csimpl.
  destruct (IH (register_store d (MkStore root d) s) Hnd) as (stores & -> & Hin & Hout).
  exists stores. split_and!; [done|..].
  - intros d' root' [[= -> ->]|Hdr]%elem_of_cons; [|by apply Hin]. rewrite Hout by done. apply lookup_insert_eq.
  - intros d' Hd'. rewrite Hout by set_solver. simpl. apply lookup_insert_ne. set_solver.
Qed.

Lemma elem_of_zip_path (mounts : list Mount) (ids : list DiskId) d root :
  (d, root) ∈ zip ids (mt_path <$> mounts) ↔ ∃ m, mt_path m = root ∧ (m, d) ∈ zip mounts ids.
Proof.
  induction mounts as [|m mounts IH] in ids |- *; destruct ids as [|d' ids]; csimpl;
    [set_solver..|]. rewrite elem_of_cons, IH. split.
  - intros [[= -> ->]|(m' & ? & ?)]; [exists m; split; [done|by left]|exists m'; split; [done|by right]].
  - intros (m' & <- & [[= -> ->]|?]%elem_of_cons); [by left|right; by exists m'].
Qed.

Lemma Forall2_zip_elem {A B} (R : A → B → Prop) l k x y : Forall2 R l k → (x, y) ∈ zip l k → R x y.
Proof. induction 1; [by intros ?%not_elem_of_nil|]. by intros [[= -> ->]|?]%elem_of_cons; auto. Qed.

Lemma start_storage_ready mounts ids nd :
  nd_events nd = [] → Forall2 (mount_ready nd) mounts ids → NoDup ids → NoDup (mt_path <$> mounts) →
  let disks := zip ids (mt_path <$> mounts) in
  ∃ nd', start_storage mounts nd = (nd', Done (Ok disks)) ∧ fresh_service disks (nd_service nd') ∧ nd_events nd' = [] ∧
    (∀ root p, under (root ++ [COMMITTED_DIR]) p → fs_files (node_fs root nd') !! p = fs_files (node_fs root nd) !! p) ∧
    ∀ y, (∃ e, recoverable_on nd disks y e ∧ dn_index (nd_service nd') !! y = Some e) ∨
         ((∀ e, ¬ recoverable_on nd disks y e) ∧ dn_index (nd_service nd') !! y = None).
Proof.
  intros Hev Hready Hids Hpaths disks. pose proof (Forall2_length _ _ _ Hready) as Hlen.
  destruct (discover_mounts_ready mounts ids DiskInventory_new
    (MkNode (DataNodeService_new DiskInventory_new ∅ (EpochId_new 0)) (nd_fs nd) (nd_events nd)))
    as (nd1 & inv & Hdisc & Hsame & Hinv & _); [|done|by intros d _|done|].
  { eapply Forall2_impl; [exact Hready|]. intros m d. by apply mount_ready_same. }
  assert (disks.*1 = ids) as Hfst by (apply fst_zip; rewrite length_fmap; lia).
  assert (disks.*2 = mt_path <$> mounts) as Hsnd by (apply snd_zip; rewrite length_fmap; lia).
  assert (∀ d root, (d, root) ∈ disks → inv_disks inv !! d = Some (ManagedDisk_new d root)) as Hlook.
  { intros d root (m & <- & Hin)%elem_of_zip_path. by apply Hinv. }
  assert (∀ d root, (d, root) ∈ disks → get_mount_path d inv = Ok root) as Hmount.
  { intros d root Hin. unfold get_mount_path, find_disk. by rewrite (Hlook _ _ Hin). }
  set (nd1' := MkNode (DataNodeService_new inv ∅ (EpochId_new 0)) (nd_fs nd1) (nd_events nd1)).
  assert (∀ root, node_fs root nd1' = node_fs root nd) as Hfs by apply Hsame.
  destruct (recover_stores_ready disks inv nd1') as (nd2 & Hrec & Hsrv & Hev2 & Hkeep & _ & Hidx).
  { destruct Hsame as [_ He]. simpl in *. congruence. }
  { by rewrite Hsnd. }
  { intros d root Hin. split; [by apply Hmount|]. rewrite Hfs.
    apply elem_of_zip_path in Hin as (m & <- & Hm). by eapply mr_tree, Forall2_zip_elem. }
  destruct (register_stores_lookup disks (nd_service nd2)) as (stores & Hreg & Hin & _); [by rewrite Hfst|].
  eexists. split_and!.
  - unfold start_storage. rewrite Hdisc, <- Hfst, disk_mount_paths_ok by done. fold nd1'. by rewrite Hrec.
  - simpl. rewrite Hreg, Hsrv. split; simpl; try done. intros d root Hdr.
    split; [by apply Hin|by apply Hlook].
  - done.
  - intros root p Hp. rewrite on_service_fs, Hkeep by done. by rewrite Hfs.
  - intros y. simpl. rewrite Hreg. simpl.
    assert (∀ e, recoverable_on nd1' disks y e ↔ recoverable_on nd disks y e) as Hrw.
    { intros e. unfold recoverable_on. by setoid_rewrite Hfs. }
    destruct (Hidx y) as [(e & He%Hrw & Heq)|[Hno Heq]]; [left; by exists e|right].
    split; [|done]. by intros e He%Hrw%Hno.
Qed.

(** ** Theorems *)

(** What an acknowledged write of a new extent version leaves on the disk. *)
Lemma acknowledged_write_durable g now req payload caller nd nd1 resp :
  stores_ok (nd_service nd) →
  (∀ d st, dn_stores (nd_service nd) !! d = Some st →
     settled (committed_extent_path (es_mount_path st) (wq_extent_id req) (wq_extent_version req)) None
       (node_fs (es_mount_path st) nd)) →
  handle_write g now req payload caller nd = (nd1, Some resp) → ws_success resp = true →
  check_duplicate (wq_operation_id req) (nd_service nd) = None →
  ∃ st, dn_stores (nd_service nd) !! ws_disk_id resp = Some st ∧ es_disk_id st = ws_disk_id resp ∧
    durable nd1 st now (wq_extent_id req) (wq_extent_version req) payload (N.of_nat (length payload)) Default.
Proof.
  intros Hso Hnew Hw Hok Hdup.
  destruct (handle_write_effect _ _ _ _ _ _ _ _ Hw)
    as [_ _ Hd|d root _ _ _ _ Hfail|disk st nd2 r' _ _ Hst _ _ _ _ Hdur Hrec Hr].
  { destruct (Hd resp eq_refl Hok) as (? & ? & _). congruence. }
  { rewrite (Hfail resp eq_refl) in Hok. done. }
  destruct r' as [[]|]; [|done]. injection Hr as ->. simpl. exists st. split_and!; [done|by apply Hso|].
  destruct (Hdur (Hnew _ _ Hst)) as [Hc Hm].
  split; (eapply record_operation_settled; [|exact Hrec|by rewrite on_service_fs]).
  - by left.
  - by right.
Qed.

(** C5: An acknowledged write outlives the node: once a node has acknowledged the
    first write of an extent version, then after any sequence of other requests, I/O
    failures, crashes at any moment and restarts (failed ones included), starting the
    node on the same disks succeeds when every mounted disk is identified and no call
    fails, and the started node serves every range of exactly the written payload, with
    its checksum, whatever the epoch of the request; provided that no other file on the
    disks claims to be that extent. *)
Theorem acknowledged_write_outlives_node g now req payload caller nd nd1 resp allowed nd2 nd3 mounts ids st rreq caller' :
  let x := wq_extent_id req in
  let ver := wq_extent_version req in
  let disks := zip ids (mt_path <$> mounts) in
  stores_ok (nd_service nd) →
  (∀ d st, dn_stores (nd_service nd) !! d = Some st →
     settled (committed_extent_path (es_mount_path st) x ver) None (node_fs (es_mount_path st) nd)) →
  handle_write g now req payload caller nd = (nd1, Some resp) → ws_success resp = true →
  check_duplicate (wq_operation_id req) (nd_service nd) = None →
  (∀ c, allowed c → call_extent c ≠ Some (x, ver)) → life allowed nd1 nd2 →
  disks_later nd2 nd3 → nd_events nd3 = [] →
  Forall2 (mount_ready nd3) mounts ids → NoDup ids → NoDup (mt_path <$> mounts) →
  dn_stores (nd_service nd) !! ws_disk_id resp = Some st → (ws_disk_id resp, es_mount_path st) ∈ disks →
  (∀ d root path e, (d, root) ∈ disks → under (root ++ [COMMITTED_DIR]) path →
     recoverable (fs_files (node_fs root nd3)) path e → le_extent_id e = x →
     root = es_mount_path st ∧ path = committed_extent_path root x ver) →
  rq_extent_id rreq = x → rq_extent_version rreq = ver →
  check_read (rq_volume_id rreq) caller' VolumeAcl_new = true → rq_offset rreq + rq_length rreq < u64_modulus →
  let q := if decide (rq_offset rreq = 0 ∧ rq_length rreq = 0) then payload
           else padded_slice (rq_offset rreq) (rq_length rreq) payload in
  ∃ nd4 nd5, start_storage mounts nd3 = (nd4, Done (Ok disks)) ∧
    handle_read rreq caller' nd4 =
      (nd5, Return (Some (MkReadExtentResponse (rq_operation_id rreq) x ver true (compute_checksum payload)
         (N.of_nat (length q)) None, Some q))).
Proof.
  intros x ver disks Hso Hnew Hw Hok Hdup Hother Hlife Hlater Hev Hready Hids Hpaths Hst Hmounted Honly Hx Hver Hacl Hov q.
  destruct (acknowledged_write_durable _ _ _ _ _ _ _ _ Hso Hnew Hw Hok Hdup) as (st' & Hst' & Hid & Hc & Hm).
  rewrite Hst in Hst'. injection Hst' as <-. fold x ver in Hc, Hm. set (root := es_mount_path st) in *.
  apply (life_settled allowed nd1 nd2 root x ver) in Hc, Hm; [|done|by right|done|done|by left|done].
  apply (settled_later _ _ _ _ Hc) in Hlater as Hc3. apply (settled_later _ _ _ _ Hm) in Hlater as Hm3.
  pose proof (committed_recoverable st now x ver payload _ _ Default _ (settled_files _ _ _ Hc3) (settled_files _ _ _ Hm3))
    as Hrecov. fold root in Hrecov.
  destruct (committed_under root x ver) as [Huc Hum].
  destruct (start_storage_ready mounts ids nd3 Hev Hready Hids Hpaths) as (nd4 & Hstart & Hfresh & Hev4 & Hkeep & Hidx).
  fold disks in Hstart, Hfresh, Hidx.
  destruct (Hidx x) as [(e & (d & root' & path & Hin & Hu & Hr & Hex) & He)|[Hno _]].
  2: { destruct (Hno (MkEntry x (es_disk_id st) (committed_extent_path root x ver) ver (compute_checksum payload)
         (N.of_nat (length payload)) Default)). exists (ws_disk_id resp), root, (committed_extent_path root x ver). done. }
  destruct (Honly d root' path e Hin Hu Hr Hex) as [-> ->]. rewrite (recoverable_fun _ _ _ _ Hr Hrecov) in He.
  destruct (fr_disks _ _ Hfresh _ _ Hmounted) as [Hstore Hdisk].
  destruct (stored_extent_reads nd4 (MkStore root (ws_disk_id resp)) x ver now payload (N.of_nat (length payload)) Default Hev4)
    as [nd5 Hread].
  { unfold committed_content. simpl. rewrite (Hkeep _ _ Huc). by apply Hc3. }
  { unfold meta_content. simpl. rewrite (Hkeep _ _ Hum). rewrite (settled_files _ _ _ Hm3). by destruct st; simpl in Hid; subst. }
  exists nd4, nd5. split; [done|]. unfold handle_read. rewrite (fr_acl _ _ Hfresh), Hacl. simpl.
  unfold validate_epoch_for_read. rewrite (fr_epoch _ _ Hfresh), decide_False by (simpl; lia).
  rewrite Hx, Hver. unfold index_get. rewrite He. simpl. rewrite decide_False by auto.
  unfold inv_allows_reads, find_disk. rewrite Hid, Hdisk. simpl.
  rewrite Hstore, Hread, decide_False by auto. by rewrite (slice_payload_padded _ _ _ Hov).
Qed.

(** *** Epochs and leases of a running node *)

(** The service accepts every epoch and every lease, and keeps no operation log on disk. *)
Definition unfenced (s : DataNodeService) : Prop :=
  dn_current_epoch s = EpochId_new 0 ∧ dn_lease_cache s = ∅ ∧ dn_durable_oplog s = None.

Lemma run_io_service {A} root (m : IO unit A) nd nd' o : run_io root m nd = (nd', o) → nd_service nd' = nd_service nd.
Proof. unfold run_io. destruct (m _). by intros [= <- <-]. Qed.

Lemma record_operation_unfenced record nd : unfenced (nd_service nd) → unfenced (nd_service (record_operation record nd).1).
Proof. intros (? & ? & Hd). unfold record_operation. rewrite Hd. done. Qed.

Lemma write_error_unfenced g req msg nd : unfenced (nd_service nd) → unfenced (nd_service (write_error g req msg nd).1).
Proof.
  intros Hu%(record_operation_unfenced (MkOperationRecord (wq_operation_id req) (wq_extent_id req)
    (wq_extent_version req) (default g (wq_target_disk_id req)) EmptyString false)).
  unfold write_error. by destruct (record_operation _ _).
Qed.

Lemma handle_xfs_error_unfenced d e nd : unfenced (nd_service nd) → unfenced (nd_service (handle_xfs_error d e nd)).
Proof. intros Hu. unfold handle_xfs_error. by repeat case_match. Qed.

Lemma node_call_unfenced c nd : unfenced (nd_service nd) → unfenced (nd_service (node_call c nd)).
Proof.
  intros Hu. destruct c as [g now req payload caller|req caller]; simpl.
  - unfold handle_write. destruct (check_write _ _ _); simpl; [|by apply write_error_unfenced].
    destruct (check_duplicate _ _); [done|]. destruct (validate_epoch _ _); [|by apply write_error_unfenced].
    destruct (validate_write_lease _ _); [|by apply write_error_unfenced].
    destruct (select_write_disk _ _); [|by apply write_error_unfenced]. case_decide; [by apply write_error_unfenced|].
    destruct (dn_stores _ !! _); [|by apply write_error_unfenced].
    destruct (run_io _ _ nd) as [nd1 o1] eqn:Hr1. apply run_io_service in Hr1. rewrite <- Hr1 in Hu.
    destruct o1 as [[[p sum]|err]|]; [|by apply write_error_unfenced, handle_xfs_error_unfenced|done].
    destruct (run_io _ _ nd1) as [nd2 o2] eqn:Hr2. apply run_io_service in Hr2. rewrite <- Hr2 in Hu.
    destruct o2 as [[entry|err]|]; [|by apply write_error_unfenced, handle_xfs_error_unfenced|done].
    destruct (record_operation _ _) as [nd3 r] eqn:Hrec. simpl. change nd3 with (nd3, r).1. rewrite <- Hrec.
    by apply record_operation_unfenced.
  - unfold handle_read. destruct (check_read _ _ _); [simpl|done].
    destruct (validate_epoch_for_read _ _); [|done]. destruct (index_get _ _); [|done].
    case_decide; [done|]. case_bool_decide; [done|]. destruct (dn_stores _ !! _); [|done].
    destruct (run_io _ _ nd) as [nd1 o1] eqn:Hr1. apply run_io_service in Hr1. rewrite <- Hr1 in Hu.
    destruct o1 as [[[data sum]|err]|]; [case_decide; done| |done].
    simpl. unfold handle_read_error. by repeat case_match.
Qed.

Lemma recover_stores_service ids inv nd nd' o :
  recover_stores ids inv nd = (nd', o) → unfenced (nd_service nd) → unfenced (nd_service nd').
Proof.
  induction ids as [|d ids IH] in nd, nd', o |- *; simpl; [by intros [= <- _]|].
  destruct (get_mount_path d inv); [|by intros [= <- _]].
  destruct (run_recover _ nd) as [nd1 o1] eqn:Hr1. intros Hr Hu.
  assert (unfenced (nd_service nd1)) as Hu1.
  { unfold run_recover in Hr1. destruct (recover _ _). by injection Hr1 as <- _. }
  destruct o1 as [[]|]; [|by simplify_eq..]. destruct (recover_stores ids inv nd1) as [nd2 o2] eqn:Hr2.
  specialize (IH _ _ _ Hr2 Hu1). by destruct o2 as [[]|]; simplify_eq.
Qed.

Lemma register_stores_unfenced stores s : unfenced s → unfenced (register_stores stores s).
Proof. unfold register_stores. induction stores in s |- *; [done|]. intros Hu. simpl. by apply IHstores. Qed.

Lemma discover_mounts_service mounts inv nd nd' inv' o :
  discover_mounts mounts inv nd = (nd', inv', o) → nd_service nd' = nd_service nd.
Proof.
  induction mounts as [|m mounts IH] in inv, nd, nd', inv', o |- *; simpl; [by intros [= <- _ _]|].
  destruct (run_io _ _ nd) as [nd1 o1] eqn:Hr1. apply run_io_service in Hr1. rewrite <- Hr1.
  destruct o1 as [[probe|]|]; [|by intros [= <- _ _]..].
  destruct (discover_single_disk _ _ _ _) as [inv1 []]; [|by intros [= <- _ _]].
  destruct (discover_mounts mounts inv1 nd1) as [[nd2 inv2] o2] eqn:Hr2. specialize (IH _ _ _ _ _ Hr2).
  by destruct o2 as [[]|]; intros [= <- _ _].
Qed.

Lemma start_storage_unfenced mounts nd nd' o : start_storage mounts nd = (nd', o) → unfenced (nd_service nd').
Proof.
  unfold start_storage. set (nd0 := MkNode _ _ _). assert (unfenced (nd_service nd0)) as Hu by done.
  destruct (discover_mounts _ _ nd0) as [[nd1 inv] o1] eqn:Hd.
  apply discover_mounts_service in Hd. rewrite <- Hd in Hu.
  destruct o1 as [[ids|e]|]; [|by intros [= <- <-]..].
  destruct (disk_mount_paths ids inv); [|by intros [= <- <-]].
  destruct (recover_stores _ _ _) as [nd2 o2] eqn:Hr. apply recover_stores_service in Hr; [|done].
  destruct o2 as [[]|]; intros [= <- _]; try done. by apply register_stores_unfenced.
Qed.

(** No node checks an epoch or a lease while it runs: [start] gives the service the
    epoch 0 and nothing updates it. *)
Theorem running_node_never_fences mounts nd0 nd paths nd' request :
  start_storage mounts nd0 = (nd, Done (Ok paths)) → life (λ _, True) nd nd' →
  validate_epoch (wq_epoch request) (nd_service nd') = Ok tt ∧
  validate_write_lease request (nd_service nd') = Ok tt.
Proof.
  intros Hstart Hlife. assert (unfenced (nd_service nd')) as (He & Hl & _).
  { induction Hlife as [|nd1 c _ IH _|nd1 nd2 mounts' nd3 o _ IH _ Hs].
    - by eapply start_storage_unfenced.
    - by apply node_call_unfenced.
    - by eapply start_storage_unfenced. }
  unfold validate_epoch, validate_write_lease. rewrite He, Hl, decide_False by (simpl; lia). done.
Qed.

End life.

(** ** Witnesses *)

Module StartDemo.
Export NodeDemo.
Export RecoveryDemo.

Definition metadata_parse (bs : list N) : result string DiskMetadata :=
  ok_or "invalid metadata" (p ← of_bits bs;
    (λ t : N * option N, MkDiskMetadata (DiskId_new t.1) (NodeId_new <$> t.2)) <$> decode p).

Definition metadata_print (m : DiskMetadata) : list N :=
  bits (encode (DiskId_as_uuid (dm_disk_id m), NodeId_as_uuid <$> dm_node_id m)).

Lemma metadata_parse_print m : metadata_parse (metadata_print m) = Ok m.
Proof.
  unfold metadata_parse, metadata_print. rewrite of_bits_bits. simpl. rewrite decode_encode.
  by destruct m as [[] [[]|]].
Qed.

#[export] Instance metadata_bits : DiskMetadataCodec :=
  {| disk_metadata_to_json := metadata_print;
     disk_metadata_from_json := metadata_parse;
     disk_metadata_round_trip := metadata_parse_print;
     disk_metadata_utf8 := λ m, bits_utf8 _ |}.

(** One disk; [generated] is the identifier it gets when it has none. *)
Definition mount (generated : N) : Mount := MkMount ["mnt"; "d1"] true false (Ok tt) (Some "xfs") (DiskId_new generated).

(** A new node, and the node after its first write. *)
Definition started : Node := (start_storage [mount 1] (MkNode (service 0) ∅ [])).1.

Definition written : Node := (write 0 peer started).1.

(** The restart on [nd]'s disks, and what it answers to a read. *)
Definition restarted (generated : N) (nd : Node) : Node := (start_storage [mount generated] nd).1.

Definition read_answer (nd : Node) : exec (option (bool * option string * option (list N))) :=
  match (handle_read (read_request 0 0) peer nd).2 with
  | Return r => Return ((λ rd, (rs_success rd.1, rs_error rd.1, rd.2)) <$> r)
  | Panic => Panic
  end.

(** A crash loses the identity file, which was never synced; the extent is kept. *)
Definition crashed : Node :=
  MkNode (nd_service written)
    ((λ fs, MkFS (delete ["mnt"; "d1"; DISK_ID_FILENAME] (fs_files fs)) (delete ["mnt"; "d1"; DISK_ID_FILENAME] (fs_files fs)) ∅)
       <$> nd_fs written) [].

End StartDemo.
Import StartDemo.

(** A file that was never synced may be lost. *)
Lemma lose_dirty p fs : p ∈ fs_dirty fs → crash_state fs (MkFS (delete p (fs_files fs)) (delete p (fs_files fs)) ∅).
Proof.
  intros Hp. split; simpl; [|done|done]. intros q Hq. left. apply lookup_delete_ne. by intros ->.
Qed.

Lemma crashed_later : disks_later written crashed.
Proof.
  intros root. unfold node_fs, crashed. simpl. rewrite lookup_fmap.
  destruct (decide (root = ["mnt"; "d1"])) as [->|Hne].
  - destruct (nd_fs written !! _) as [fs|] eqn:Hfs; [|by left]. right. apply lose_dirty.
    assert (["mnt"; "d1"; DISK_ID_FILENAME] ∈ fs_dirty (node_fs ["mnt"; "d1"] written)) as Hd.
    { apply (bool_decide_eq_true_1 _). vm_compute. reflexivity. }
    unfold node_fs in Hd. by rewrite Hfs in Hd.
  - left. assert (root ∉ dom (nd_fs written)) as ->%not_elem_of_dom; [|done].
    replace (dom (nd_fs written)) with ({[["mnt"; "d1"]]} : gset Path) by (vm_compute; reflexivity). set_solver.
Qed.

(** The identity file of a disk is written but not synced: after a crash that loses it,
    the disk gets a new identifier, and an acknowledged extent, which is still on the
    disk and in the recovered index, is served no longer. *)
Theorem lost_identity_hides_extents :
  answer (write 0 peer started).2 = Some (true, None) ∧ disks_later written crashed ∧
  read_answer (restarted 2 written) = Return (Some (true, None, Some payload)) ∧
  read_answer (restarted 2 crashed) = Return (Some (false, Some "no extent store for disk 1", None)).
Proof. split_and!; [|apply crashed_later|..]; vm_compute; reflexivity. Qed.

(** A write is repeated when the node restarted in between: the operation log is in memory. *)
Theorem restart_forgets_operations :
  check_duplicate (OperationId_new 11) (nd_service written) ≠ None ∧
  check_duplicate (OperationId_new 11) (nd_service (restarted 2 written)) = None.
Proof. split; vm_compute; done. Qed.

Lemma acknowledged_write_outlives_node_witness :
  ∃ nd4 nd5 resp, start_storage [mount 2] (node_call (CallRead (read_request 0 0) peer) written) = (nd4, Done (Ok [(DiskId_new 1, ["mnt"; "d1"])])) ∧
    handle_read (read_request 1 4) peer nd4 = (nd5, Return (Some (resp, Some [2; 3; 0; 0]))).
Proof.
  destruct (acknowledged_write_outlives_node (DiskId_new 99) 100 (write_request 0) payload peer started written
    (MkWriteExtentResponse (OperationId_new 11) extent 1 (DiskId_new 1) true (compute_checksum payload) None)
    (λ c, call_extent c = None) (node_call (CallRead (read_request 0 0) peer) written)
    (node_call (CallRead (read_request 0 0) peer) written) [mount 2] [DiskId_new 1] store (read_request 1 4) peer)
    as (nd4 & nd5 & Hstart & Hread).
  - intros d st Hst. replace (dn_stores (nd_service started)) with ({[DiskId_new 1 := store]} : gmap DiskId ExtentStore) in Hst
      by (vm_compute; reflexivity). apply lookup_singleton_Some in Hst as [<- <-]. reflexivity.
  - intros d st Hst. replace (dn_stores (nd_service started)) with ({[DiskId_new 1 := store]} : gmap DiskId ExtentStore) in Hst
      by (vm_compute; reflexivity). apply lookup_singleton_Some in Hst as [<- <-].
    split; [|vm_compute; reflexivity..]. apply (bool_decide_eq_true_1 _). vm_compute. reflexivity.
  - vm_compute. reflexivity.
  - reflexivity.
  - vm_compute. reflexivity.
  - intros c Hc. rewrite Hc. discriminate.
  - apply life_call; [apply life_refl|reflexivity].
  - intros root. by left.
  - vm_compute. reflexivity.
  - constructor; [|constructor]. split; [reflexivity| | |].
    + right. right. split; reflexivity.
    + exists None. vm_compute. reflexivity.
    + intros p q Hp%elem_of_dom_list Hq%elem_of_dom_list (n & r & ->). vm_compute in Hp, Hq.
      repeat (apply elem_of_cons in Hp as [->|Hp]); [..|by apply elem_of_nil in Hp];
        repeat (apply elem_of_cons in Hq as [Hq|Hq]); try (by apply elem_of_nil in Hq); simplify_eq/=.
  - apply NoDup_singleton.
  - apply NoDup_singleton.
  - vm_compute. reflexivity.
  - left.
  - intros d root path e [[= -> ->]|Hin]%elem_of_cons (n & r & Hu) (Hp & Hext & _) _; [|by apply elem_of_nil in Hin].
    split; [reflexivity|]. apply elem_of_dom_list in Hp. vm_compute in Hp.
    repeat (apply elem_of_cons in Hp as [->|Hp]); [..|by apply elem_of_nil in Hp]; try reflexivity.
    all: exfalso; first [discriminate Hu|apply Hext; reflexivity].
  - reflexivity.
  - reflexivity.
  - vm_compute. reflexivity.
  - reflexivity.
  - eexists nd4, nd5, _. split; [exact Hstart|exact Hread].
Defined.
