(* ===== verification/OpLog.v ===== *)
(** * Restarting with the durable operation log (DurableOpLog and with_oplog of
    crates/blockyard-storage/src/service.rs)

    The log is a file of JSON lines, one per operation, written and synced before the
    operation is remembered in memory.  The theorem says what a node that restarts
    with it remembers, for a run without failing calls on a log below the size at which
    it is rotated; [torn_record_loses_next] shows what a failing call costs. *)

From S2P Require Import Prelude Common DiskInventory FileSystem ExtentStore Auth DataNode DataNodeSpec.

#[local] Open Scope N_scope.

Section WithOplog.
Context `{!RecordCodec} {X : Type}.

Definition with_oplog (inventory : DiskInventory) (index : ExtentIndex) (epoch : EpochId) (oplog_dir : Path)
    : IO X DataNodeService :=
  '(durable, map) ← oplog_open oplog_dir;
  mret (MkService epoch map (Some durable) ∅ inventory index ∅ VolumeAcl_new).

(** The records of a run, appended one after the other. *)
Fixpoint append_all (log : DurableOpLog) (rs : list OperationRecord) : IO X DurableOpLog :=
  match rs with
  | [] => mret log
  | r :: rs => log ← oplog_append log r; append_all log rs
  end.

(** The bytes of a log. *)
Definition log_bytes (rs : list OperationRecord) : list N := concat ((λ r, record_to_json r ++ [10]) <$> rs).

(** The last record of each operation. *)
Definition remembered (m : OperationLog) (rs : list OperationRecord) : OperationLog :=
  foldl (λ m r, <[or_operation_id r := r]> m) m rs.

Lemma log_bytes_app rs rs' : log_bytes (rs ++ rs') = log_bytes rs ++ log_bytes rs'.
Proof. unfold log_bytes. by rewrite fmap_app, concat_app. Qed.

(** ** Reading back what was written *)

Lemma split_lines_line line json rest :
  10 ∉ json → split_lines line (json ++ 10 :: rest) = strip_cr (line ++ json) :: split_lines [] rest.
Proof.
  revert line. induction json as [|b json IH]; intros line Hno; simpl.
  - by rewrite app_nil_r.
  - apply not_elem_of_cons in Hno as [Hb Hno]. rewrite decide_False by done. by rewrite IH, <- (assoc_L (++)).
Qed.

Lemma split_lines_log rs : split_lines [] (log_bytes rs) = record_to_json <$> rs.
Proof.
  induction rs as [|r rs IH]; [done|]. unfold log_bytes. rewrite !fmap_cons. cbn [concat].
  rewrite <- (assoc_L (++)). destruct (record_one_line r) as [Hno Hcr].
  change ([10] ++ concat _) with (10 :: log_bytes rs). rewrite split_lines_line by done. rewrite IH.
  unfold strip_cr. by rewrite decide_False.
Qed.

Lemma replay_log rs m : replay (record_to_json <$> rs) m = remembered m rs.
Proof.
  revert m. induction rs as [|r rs IH]; intros m; [done|]. simpl. rewrite record_utf8, record_round_trip. apply IH.
Qed.

Lemma remembered_last m rs op :
  remembered m rs !! op = match last (filter (λ r, or_operation_id r = op) rs) with Some r => Some r | None => m !! op end.
Proof.
  induction rs as [|r rs IH] using rev_ind; [done|]. unfold remembered in *. rewrite foldl_app, filter_app. simpl.
  destruct (decide (or_operation_id r = op)) as [<-|Hne].
  - rewrite lookup_insert_eq, filter_cons_True, filter_nil by done. by rewrite last_snoc.
  - rewrite lookup_insert_ne, filter_cons_False, filter_nil, app_nil_r by done. exact IH.
Qed.

(** ** Runs without failing calls *)

Lemma append_ok dir pos r c fs (x : X) :
  fs_files fs !! oplog_path dir = Some c →
  N.of_nat (length (c ++ record_to_json r ++ [10])) ≤ MAX_OPLOG_FILE_SIZE →
  ∃ fs', oplog_append (MkOpLog dir false pos) r (MkWorld fs [] x)
      = (MkWorld fs' [] x, Done (Ok (MkOpLog dir false (N.of_nat (length (c ++ record_to_json r ++ [10])))))) ∧
    settled (oplog_path dir) (Some (c ++ record_to_json r ++ [10])) fs'.
Proof.
  intros Hf Hsize. set (p := oplog_path dir) in *. set (line := record_to_json r ++ [10]) in *.
  assert (fs_files (fs_sync p (fs_append p line fs)) !! p = Some (c ++ line)) as Hnew.
  { simpl. rewrite Hf. apply lookup_insert_eq. }
  exists (fs_sync p (fs_append p line fs)). split; [|by apply settled_after_sync].
  unfold oplog_append, maybe_rotate, ol_length, mbind, io_mbind, io_try, write_all, sync_all, io_look, ol_file.
  cbn [ol_on_rotated ol_dir syscall tail w_fs]. fold p. fold line. rewrite Hnew, Hf. cbn [default id from_option].
  unfold moved_to. rewrite !(decide_False (P := N.of_nat (length c) = _)) by (subst line; rewrite !length_app; simpl; lia).
  cbn [ol_position].
  by rewrite decide_False by lia.
Qed.

Lemma append_all_ok dir rs c fs (x : X) :
  let log c := MkOpLog dir false (N.of_nat (length c)) in
  settled (oplog_path dir) (Some c) fs → N.of_nat (length (c ++ log_bytes rs)) ≤ MAX_OPLOG_FILE_SIZE →
  ∃ fs', append_all (log c) rs (MkWorld fs [] x) = (MkWorld fs' [] x, Done (Ok (log (c ++ log_bytes rs)))) ∧
    settled (oplog_path dir) (Some (c ++ log_bytes rs)) fs'.
Proof.
  intros log. revert c fs. induction rs as [|r rs IH]; intros c fs Hs Hsize; simpl.
  { exists fs. by rewrite app_nil_r. }
  change (log_bytes (r :: rs)) with ((record_to_json r ++ [10]) ++ log_bytes rs) in *.
  rewrite (assoc_L (++)) in *. destruct (append_ok dir (N.of_nat (length c)) r c fs x (settled_files _ _ _ Hs)) as (fs1 & Hrun & Hs1).
  { rewrite length_app in Hsize. lia. }
  destruct (IH _ fs1 Hs1 Hsize) as (fs' & Hrun' & Hs'). exists fs'. split; [|done].
  unfold mbind, io_mbind. subst log. cbn beta. by rewrite Hrun, <- (assoc_L (++)) in *.
Qed.

Lemma open_ok dir rs fs (x : X) :
  fs_files fs !! oplog_path dir = Some (log_bytes rs) →
  oplog_open dir (MkWorld fs [] x) = (MkWorld fs [] x, Done (Ok (MkOpLog dir false 0, remembered ∅ rs))).
Proof.
  intros Hf. unfold oplog_open, mbind, io_mbind, create_dir_all, path_exists, io_look, open_dir, open_append.
  cbn [syscall tail w_fs]. rewrite Hf. cbn [bool_decide default]. rewrite bool_decide_true by eauto.
  cbn [syscall tail w_fs]. rewrite Hf. cbn. rewrite Hf, split_lines_log, replay_log. done.
Qed.

(** C27: Operations in the durable log survive a crash: after any records were appended
    to a log that holds others, with every write and sync succeeding and the file staying
    below the size at which it is rotated, and the machine then stopped, a node restarted
    with the log finds for every operation the last of its records, old or new, and so
    answers its retries as duplicates. *)
Theorem recorded_operations_survive dir before rs fs (x x' : X) inventory index epoch :
  fs_files fs !! oplog_path dir = Some (log_bytes before) → rs ≠ [] →
  N.of_nat (length (log_bytes (before ++ rs))) ≤ MAX_OPLOG_FILE_SIZE →
  ∃ fs1 log, append_all (MkOpLog dir false 0) rs (MkWorld fs [] x) = (MkWorld fs1 [] x, Done (Ok log)) ∧
    ∀ fs2, crash_state fs1 fs2 →
      ∃ s, with_oplog inventory index epoch dir (MkWorld fs2 [] x') = (MkWorld fs2 [] x', Done (Ok s)) ∧
        ∀ op, check_duplicate op s = last (filter (λ r, or_operation_id r = op) (before ++ rs)).
Proof.
  intros Hf Hne Hsize. destruct rs as [|r rs]; [done|]. rewrite log_bytes_app in Hsize.
  change (log_bytes (r :: rs)) with ((record_to_json r ++ [10]) ++ log_bytes rs) in Hsize.
  rewrite (assoc_L (++)) in Hsize. destruct (append_ok dir 0 r _ fs x Hf) as (fs0 & Hrun & Hs).
  { rewrite length_app in Hsize. lia. }
  destruct (append_all_ok dir rs _ fs0 x Hs Hsize) as (fs1 & Hrun' & Hs'). eexists fs1, _. split.
  { simpl. unfold mbind, io_mbind. rewrite Hrun. exact Hrun'. }
  intros fs2 Hcrash. pose proof (settled_files _ _ _ (settled_crash _ _ _ _ Hs' Hcrash)) as Hf2.
  rewrite <- (assoc_L (++)) in Hf2. change ((record_to_json r ++ [10]) ++ log_bytes rs) with (log_bytes (r :: rs)) in Hf2.
  rewrite <- log_bytes_app in Hf2. eexists. split.
  { unfold with_oplog, mbind, io_mbind. rewrite (open_ok dir _ fs2 x' Hf2). done. }
  intros op. unfold check_duplicate. simpl. rewrite remembered_last. by destruct (last _).
Qed.

End WithOplog.

Module OpLogDemo.
Export NodeDemo.

Definition log_dir : Path := ["var"; "oplog"].

Definition record (op : N) : OperationRecord :=
  MkOperationRecord (OperationId_new op) (ExtentId_new 40) 1 (DiskId_new 1) "sum" true.

(** An empty log, just created. *)
Definition log_fs : FS := MkFS {[oplog_path log_dir := []]} ∅ {[oplog_path log_dir]}.

(** What is remembered of an operation after a restart on the same files. *)
Definition after_restart (events : list IoEvent) (rs : list OperationRecord) (op : N) : option OperationRecord :=
  let '(w, _) := append_all (MkOpLog log_dir false 0) rs (MkWorld log_fs events tt) in
  match with_oplog (MkInventory ∅ []) ∅ (EpochId_new 1) log_dir (MkWorld (w_fs w) [] tt) with
  | (_, Done (Ok s)) => check_duplicate (OperationId_new op) s
  | _ => None
  end.

End OpLogDemo.
Import OpLogDemo.

Lemma recorded_operations_survive_witness :
  ∃ fs1 log, append_all (MkOpLog log_dir false 0) [record 11; record 12] (MkWorld log_fs [] tt)
           = (MkWorld fs1 [] tt, Done (Ok log)) ∧
    ∀ fs2, crash_state fs1 fs2 →
      ∃ s, with_oplog (MkInventory ∅ []) ∅ (EpochId_new 1) log_dir (MkWorld fs2 [] tt) = (MkWorld fs2 [] tt, Done (Ok s)) ∧
        check_duplicate (OperationId_new 11) s = Some (record 11).
Proof.
  destruct (recorded_operations_survive log_dir [] [record 11; record 12] log_fs tt tt (MkInventory ∅ []) ∅ (EpochId_new 1))
    as (fs1 & log & Hrun & Hsurvive).
  - reflexivity.
  - discriminate.
  - vm_compute. discriminate.
  - exists fs1, log. split; [exact Hrun|]. intros fs2 Hcrash. destruct (Hsurvive fs2 Hcrash) as (s & Hopen & Hdup).
    exists s. split; [exact Hopen|]. rewrite Hdup. vm_compute. reflexivity.
Defined.

(** A record that could only be written in part spoils the next one: its line has no
    end, and the next record, although written and synced, is on the same line and
    cannot be read back. *)
Theorem torn_record_loses_next :
  after_restart [] [record 11; record 12] 12 = Some (record 12) ∧
  after_restart [IoFailure "No space left on device" 3] [record 11; record 12] 12 = None.
Proof. vm_compute. split; reflexivity. Qed.
