(* ===== verification/TcpClient.v ===== *)
(** * The TCP client of the data nodes (crates/blockyard-ublk/src/tcp_client.rs)

    The connection pool, the handshake, and the exchange of requests with the data
    plane servers of [Protocol], each of which runs the data node of [DataNode].
    Per attempt the network may refuse a connection, lose a request, or lose the
    reply of a request that was served: the sequence of these events is an
    argument. *)

From S2P Require Import Prelude Text Common MetadataCache Placement Checksum ClientRecovery WritePipeline BlockHandler.
From S2P Require Import Auth Protocol DiskInventory FileSystem ExtentStore DataNode DataNodeSpec.

#[local] Open Scope N_scope.

(** ** The connection pool *)

Record TcpConnection := MkTcpConnection { cn_addr : SocketAddr; cn_handshake_done : bool }.

Record TcpDataNodeClient := MkTcpClient {
  tcp_node_addresses : gmap string SocketAddr;
  tcp_connections : gmap string TcpConnection;
}.

Definition TcpDataNodeClient_new : TcpDataNodeClient := MkTcpClient ∅ ∅.

Section pool.
Context `{!UuidDisplay}.

Definition tcp_register_node (node_id : NodeId) (addr : SocketAddr) (c : TcpDataNodeClient) : TcpDataNodeClient :=
  MkTcpClient (<[to_string node_id := addr]> (tcp_node_addresses c)) (tcp_connections c).

Definition tcp_unregister_node (node_id : NodeId) (c : TcpDataNodeClient) : TcpDataNodeClient :=
  MkTcpClient (delete (to_string node_id) (tcp_node_addresses c)) (delete (to_string node_id) (tcp_connections c)).

Definition drop_connection (node_id : NodeId) (c : TcpDataNodeClient) : TcpDataNodeClient :=
  MkTcpClient (tcp_node_addresses c) (delete (to_string node_id) (tcp_connections c)).

End pool.

(** ** The network *)

Inductive NetEvent :=
  | NetFine
  | NetRefused (msg : string)
  | NetRequestLost (msg : string)
  | NetReplyLost (msg : string).

(** A data plane server; a stopped one answers nothing. *)
Record Server := MkServer {
  sv_handler : DataNodeHandler;
  sv_node_id : NodeId;
  sv_auth_provider : option SharedSecretAuth;
  sv_running : bool;
}.

(** The client, the servers by address, the events to come, and a counter that
    supplies the clock and generated identifiers. *)
Record TcpWorld := MkTcpWorld {
  tw_client : TcpDataNodeClient;
  tw_servers : gmap SocketAddr Server;
  tw_net : list NetEvent;
  tw_tick : N;
}.

Definition set_client (c : TcpDataNodeClient) (w : TcpWorld) : TcpWorld :=
  MkTcpWorld c (tw_servers w) (tw_net w) (tw_tick w).

(** The next event, and the world after it. *)
Definition next_event (w : TcpWorld) : TcpWorld * NetEvent :=
  (MkTcpWorld (tw_client w) (tw_servers w) (tail (tw_net w)) (tw_tick w + 1), default NetFine (head (tw_net w))).

(** ** Answers *)

Definition convert_write_response (node_id : NodeId) (resp : WriteExtentResponse) : WriteAck :=
  let error :=
    if ws_success resp then None
    else
      let err_msg := default EmptyString (ws_error resp) in
      if str_contains "stale" err_msg || str_contains "epoch" err_msg then Some AckStaleEpoch
      else if str_contains "disk" err_msg || str_contains "unavailable" err_msg then Some AckDiskUnavailable
      else if str_contains "duplicate" err_msg then Some AckDuplicateOperation
      else Some (AckInternalError err_msg) in
  MkWriteAck node_id (ws_success resp) (ws_checksum resp) error.

Definition client_read_frame : list N → result Error (list N * list N) :=
  read_frame (λ e, ErrorNetwork ("failed to read frame length: " +:+ e))
    (λ e, ErrorNetwork ("failed to read frame data: " +:+ e)) ErrorNetwork.

Definition connection_lost : Error := ErrorNetwork ("failed to read frame length: " +:+ unexpected_eof).

Section client.
Context `{!UuidDisplay} `{!Hmac} `{!UuidError} `{!Blake3} `{!MetaCodec} `{!RecordCodec}.
Context `{!HashIter OperationId} `{!HashIter DiskId}.
Context `{!JsonCodec ProtocolMessage} `{!JsonCodec HandshakeRequest} `{!JsonCodec HandshakeResponse}.
Implicit Types w : TcpWorld.

(** ** Connections *)

Definition handshake_request : HandshakeRequest := MkHandshakeRequest CURRENT_PROTOCOL_VERSION None None [] None.

Definition connect_and_handshake (addr : SocketAddr) w : TcpWorld * result Error TcpConnection :=
  let '(w, ev) := next_event w in
  match ev, tw_servers w !! addr with
  | NetFine, Some sv =>
      if sv_running sv then
        match serve_handshake (tw_tick w) (sv_node_id sv) (sv_auth_provider sv)
                (write_frame (json_to_vec handshake_request)) with
        | Err _ => (w, Err connection_lost)
        | Ok (reply, _, _) =>
            match client_read_frame reply with
            | Err e => (w, Err e)
            | Ok (resp_bytes, _) =>
                match json_from_slice resp_bytes with
                | Err e => (w, Err (ErrorNetwork ("failed to deserialize handshake response: " +:+ e)))
                | Ok resp =>
                    if hs_accepted resp then (w, Ok (MkTcpConnection addr true))
                    else (w, Err (ErrorNetwork ("handshake rejected by " +:+ to_string addr +:+ ": "
                                                  +:+ default EmptyString (hs_message resp))))
                end
            end
        end
      else (w, Err (ErrorNetwork ("failed to connect to " +:+ to_string addr +:+ ": connection refused")))
  | NetFine, None => (w, Err (ErrorNetwork ("failed to connect to " +:+ to_string addr +:+ ": connection refused")))
  | (NetRefused msg | NetRequestLost msg | NetReplyLost msg), _ =>
      (w, Err (ErrorNetwork ("failed to connect to " +:+ to_string addr +:+ ": " +:+ msg)))
  end.

(** A pooled connection, or a new one that is put into the pool. *)
Definition get_connection (node_id : NodeId) w : TcpWorld * result Error TcpConnection :=
  let key := to_string node_id in
  let connect :=
    match tcp_node_addresses (tw_client w) !! key with
    | None => (w, Err (ErrorNetwork ("no address registered for node " +:+ to_string node_id)))
    | Some addr =>
        match connect_and_handshake addr w with
        | (w, Ok conn) =>
            (set_client (MkTcpClient (tcp_node_addresses (tw_client w))
                           (<[key := conn]> (tcp_connections (tw_client w)))) w, Ok conn)
        | (w, Err e) => (w, Err e)
        end
    end in
  match tcp_connections (tw_client w) !! key with
  | Some conn => if cn_handshake_done conn then (w, Ok conn) else connect
  | None => connect
  end.

(** ** Requests *)

Definition set_server (addr : SocketAddr) (sv : Server) w : TcpWorld :=
  MkTcpWorld (tw_client w) (<[addr := sv]> (tw_servers w)) (tw_net w) (tw_tick w).

(** The server serves the bytes of one request; the reply, as far as it arrives. *)
Definition exchange (addr : SocketAddr) (bytes : list N) w : TcpWorld * result Error (list N) :=
  let '(w, ev) := next_event w in
  match ev, tw_servers w !! addr with
  | (NetRefused msg | NetRequestLost msg), _ => (w, Err (ErrorNetwork msg))
  | _, None => (w, Err connection_lost)
  | _, Some sv =>
      if sv_running sv then
        let '(h, served) := serve_request bytes (sv_handler sv) in
        let running := match served with Stopped => false | _ => true end in
        let w := set_server addr (MkServer h (sv_node_id sv) (sv_auth_provider sv) running) w in
        match served, ev with
        | Answered out _, NetFine => (w, Ok out)
        | Answered _ _, (NetReplyLost msg | NetRefused msg | NetRequestLost msg) => (w, Err (ErrorNetwork msg))
        | _, _ => (w, Err connection_lost)
        end
      else (w, Err connection_lost)
  end.

Definition try_write_extent (node_id : NodeId) (operation_id : OperationId) (session_id : SessionId)
    (volume_id : VolumeId) (extent_id : ExtentId) (extent_version : N) (epoch : EpochId) (data : list N)
    (checksum : string) w : TcpWorld * result Error WriteAck :=
  match get_connection node_id w with
  | (w, Err e) => (w, Err e)
  | (w, Ok conn) =>
      let write_req := MkWriteExtentRequest operation_id session_id volume_id extent_id extent_version epoch None
                         checksum (N.of_nat (length data)) None in
      let msg_bytes := json_to_vec (WriteReq write_req) in
      match exchange (cn_addr conn) (write_frame msg_bytes ++ data) w with
      | (w, Err e) => (w, Err e)
      | (w, Ok reply) =>
          match client_read_frame reply with
          | Err e => (w, Err e)
          | Ok (resp_bytes, _) =>
              match json_from_slice resp_bytes with
              | Err e => (w, Err (ErrorNetwork ("failed to deserialize write response: " +:+ e)))
              | Ok (WriteResp resp) => (w, Ok (convert_write_response node_id resp))
              | Ok _ => (w, Err (ErrorNetwork "unexpected response type"))
              end
          end
      end
  end.

(** An error drops the connection and is retried once. *)
Definition tcp_write_extent (node_id : NodeId) (operation_id : OperationId) (session_id : SessionId)
    (volume_id : VolumeId) (extent_id : ExtentId) (extent_version : N) (epoch : EpochId) (data : list N)
    (checksum : string) w : TcpWorld * result Error WriteAck :=
  let attempt := try_write_extent node_id operation_id session_id volume_id extent_id extent_version epoch data checksum in
  match attempt w with
  | (w, Ok ack) => (w, Ok ack)
  | (w, Err _) => attempt (set_client (drop_connection node_id (tw_client w)) w)
  end.

Definition try_read_extent (node_id : NodeId) (volume_id : VolumeId) (extent_id : ExtentId) (extent_version : N)
    (offset len : N) w : TcpWorld * result Error (list N) :=
  match get_connection node_id w with
  | (w, Err e) => (w, Err e)
  | (w, Ok conn) =>
      let read_req := MkReadExtentRequest (OperationId_new (tw_tick w)) (SessionId_new (tw_tick w)) volume_id extent_id
                        extent_version (EpochId_new 0) offset len in
      match exchange (cn_addr conn) (write_frame (json_to_vec (ReadReq read_req))) w with
      | (w, Err e) => (w, Err e)
      | (w, Ok reply) =>
          match client_read_frame reply with
          | Err e => (w, Err e)
          | Ok (resp_bytes, rest) =>
              match json_from_slice resp_bytes with
              | Err e => (w, Err (ErrorNetwork ("failed to deserialize read response: " +:+ e)))
              | Ok (ReadResp resp) =>
                  if rs_success resp then
                    if decide (0 < rs_payload_size resp) then
                      match read_exact (rs_payload_size resp) rest with
                      | Some (payload, _) => (w, Ok payload)
                      | None => (w, Err (ErrorNetwork ("failed to read payload: " +:+ unexpected_eof)))
                      end
                    else (w, Ok [])
                  else (w, Err (ErrorStorage ("read failed on node " +:+ to_string node_id +:+ ": "
                                                +:+ default EmptyString (rs_error resp))))
              | Ok _ => (w, Err (ErrorNetwork "unexpected response type"))
              end
          end
      end
  end.

Definition tcp_read_extent (node_id : NodeId) (volume_id : VolumeId) (extent_id : ExtentId) (extent_version : N)
    (offset len : N) w : TcpWorld * result Error (list N) :=
  let attempt := try_read_extent node_id volume_id extent_id extent_version offset len in
  match attempt w with
  | (w, Ok data) => (w, Ok data)
  | (w, Err _) => attempt (set_client (drop_connection node_id (tw_client w)) w)
  end.

(** [DataNodeReader::read_extent]. *)
Definition tcp_reader_read_extent (node_id : NodeId) (volume_id : VolumeId) (extent_id : ExtentId)
    (extent_version : N) (offset len : N) w : TcpWorld * result ReadError DataNodeReadResult :=
  let '(w, r) := tcp_read_extent node_id volume_id extent_id extent_version offset len w in
  (w, match r with
      | Ok data => Ok (MkReadResult extent_id extent_version (compute_checksum data) data)
      | Err e => Err (RdDataNodeReadFailed node_id (to_string e))
      end).

End client.
