(* ===== verification/TcpCluster.v ===== *)
(** * A cluster of data nodes behind TCP

    The data nodes of [DataNode], served by [Protocol] and reached through
    [TcpClient], keep the contract [DataNodeLaws] and [DataNodeReaderLaws] on which
    the write pipelines and the block handler rely, whatever the network loses and
    whatever system calls fail; so what is proved of these clients holds of the
    composed system. *)

From S2P Require Import Prelude Common MetadataCache Placement Checksum ClientRecovery WritePipeline BlockHandler.
From S2P Require Import Auth Protocol DiskInventory FileSystem ExtentStore DataNode DataNodeSpec TcpClient.

#[local] Open Scope N_scope.

(** ** Serving one request *)

Section serving.
Context `{!UuidDisplay} `{!JsonCodec ProtocolMessage} {St : Type} `{!DataPlaneHandler St}.

(** A message arrives as it was sent, or not at all. *)
Lemma message_arrives {E} (io_len io protocol : string → E) (m m' : ProtocolMessage) frame rest rest' :
  read_frame io_len io protocol (write_frame (json_to_vec m) ++ rest) = Ok (frame, rest') →
  json_from_slice frame = Ok m' → m' = m ∧ rest' = rest.
Proof.
  intros Hf Hj. destruct (decide (N.of_nat (length (json_to_vec m)) ≤ MAX_FRAME_SIZE)) as [Hle|Hgt].
  - rewrite frame_round_trip in Hf by done. injection Hf as <- <-. rewrite json_round_trip in Hj. by injection Hj as <-.
  - pose proof (frame_too_large io_len io protocol (json_to_vec m) rest) as Hl. rewrite Hf in Hl.
    destruct Hl as (n & Hn & ->); [lia|]. apply (json_cut_short m) in Hn. by rewrite Hj in Hn.
Qed.

Lemma serve_write req payload (h h' : St) served :
  wq_payload_size req = N.of_nat (length payload) →
  serve_request (write_frame (json_to_vec (WriteReq req)) ++ payload) h = (h', served) →
  (h' = h ∧ ∀ out rest, served ≠ Answered out rest) ∨
  ∃ r, dp_handle_write req payload h = (h', r) ∧
    ∀ out rest, served = Answered out rest → ∃ resp, r = Some resp ∧ out = write_frame (json_to_vec (WriteResp resp)).
Proof.
  intros Hsize. unfold serve_request.
  destruct (read_frame _ _ _ _) as [[frame rest]|e] eqn:Hf; [|intros Hs; left; destruct e; by simplify_eq].
  destruct (json_from_slice frame) as [m|e] eqn:Hj; [|intros [= <- <-]; by left].
  destruct (message_arrives _ _ _ _ _ _ _ _ Hf Hj) as [-> ->].
  assert (read_exact (wq_payload_size req) payload = Some (payload, [])) as ->.
  { rewrite <- (app_nil_r payload) at 1. by apply read_exact_app. }
  destruct (dp_handle_write req payload h) as [h1 [resp|]]; intros [= <- <-]; right.
  - exists (Some resp). split; [done|]. intros out rest' [= <- <-]. by exists resp.
  - by exists None.
Qed.

Lemma serve_read req (h h' : St) served :
  serve_request (write_frame (json_to_vec (ReadReq req))) h = (h', served) →
  (h' = h ∧ ∀ out rest, served ≠ Answered out rest) ∨
  ∃ r, dp_handle_read req h = (h', r) ∧
    ∀ out rest, served = Answered out rest →
      ∃ resp data, r = Return (Some (resp, data)) ∧ out = write_frame (json_to_vec (ReadResp resp)) ++ default [] data.
Proof.
  unfold serve_request. rewrite <- (app_nil_r (write_frame _)).
  destruct (read_frame _ _ _ _) as [[frame rest]|e] eqn:Hf; [|intros Hs; left; destruct e; by simplify_eq].
  destruct (json_from_slice frame) as [m|e] eqn:Hj; [|intros [= <- <-]; by left].
  destruct (message_arrives _ _ _ _ _ _ _ _ Hf Hj) as [-> ->].
  destruct (dp_handle_read req h) as [h1 [[[resp data]|]|]]; intros [= <- <-]; right.
  - eexists. split; [done|]. intros out rest' [= <- <-]. by exists resp, data.
  - eexists. split; [done|]. done.
  - eexists. split; [done|]. done.
Qed.

End serving.

(** ** The world *)

(** Nodes have addresses of their own, pooled connections lead to them, and every
    store is registered under its disk. *)
Record tcp_ok (w : TcpWorld) : Prop := {
  tok_addresses : ∀ k1 k2 a, tcp_node_addresses (tw_client w) !! k1 = Some a →
    tcp_node_addresses (tw_client w) !! k2 = Some a → k1 = k2;
  tok_connections : ∀ k c, tcp_connections (tw_client w) !! k = Some c →
    tcp_node_addresses (tw_client w) !! k = Some (cn_addr c);
  tok_stores : ∀ a sv, tw_servers w !! a = Some sv → stores_ok (nd_service (dh_node (sv_handler sv)));
}.

Section world.
Context `{!UuidDisplay} `{!Hmac} `{!UuidError} `{!Blake3} `{!MetaCodec} `{!RecordCodec}.
Context `{!HashIter OperationId} `{!HashIter DiskId}.
Context `{!JsonCodec ProtocolMessage} `{!JsonCodec HandshakeRequest} `{!JsonCodec HandshakeResponse}.
Implicit Types (w : TcpWorld) (n : NodeId).

(** The data node behind the address of [n]. *)
Definition handler_at n w : option DataNodeHandler :=
  addr ← tcp_node_addresses (tw_client w) !! to_string n; sv_handler <$> tw_servers w !! addr.

Definition world_stored w n (x : ExtentId) (ver : N) : option (list N) :=
  h ← handler_at n w; node_stored (dh_node h) x ver.

Definition world_record w n (op : OperationId) : option OperationRecord :=
  h ← handler_at n w; check_duplicate op (nd_service (dh_node h)).

Definition world_seen w n (op : OperationId) : Prop := is_Some (world_record w n op).

Lemma node_id_to_string_inj n n' : to_string n = to_string n' → n = n'.
Proof.
  destruct n as [u], n' as [u']. unfold to_string, NodeId_display. intros Heq%(f_equal uuid_parse).
  simpl in Heq. rewrite !uuid_parse_to_string in Heq. congruence.
Qed.

(** Only connections may differ. *)
Definition same_servers w w' : Prop :=
  tcp_node_addresses (tw_client w') = tcp_node_addresses (tw_client w) ∧ tw_servers w' = tw_servers w.

Lemma same_servers_handler w w' n : same_servers w w' → handler_at n w' = handler_at n w.
Proof. intros [Ha Hs]. unfold handler_at. by rewrite Ha, Hs. Qed.

Lemma connect_same addr w w' r :
  connect_and_handshake addr w = (w', r) →
  w' = (next_event w).1 ∧ ∀ conn, r = Ok conn → cn_addr conn = addr.
Proof.
  unfold connect_and_handshake. destruct (next_event w) as [w1 ev]. simpl. intros Hc.
  repeat case_match; simplify_eq/=; (split; [done|]); naive_solver.
Qed.

Lemma get_connection_spec n w w' r :
  tcp_ok w → get_connection n w = (w', r) →
  tcp_ok w' ∧ same_servers w w' ∧
  ∀ conn, r = Ok conn → tcp_node_addresses (tw_client w) !! to_string n = Some (cn_addr conn).
Proof.
  intros Hok. unfold get_connection.
  assert (∀ addr, tcp_node_addresses (tw_client w) !! to_string n = Some addr →
    match connect_and_handshake addr w with
    | (w, Ok conn) => (set_client (MkTcpClient (tcp_node_addresses (tw_client w))
        (<[to_string n := conn]> (tcp_connections (tw_client w)))) w, Ok conn)
    | (w, Err e) => (w, Err e)
    end = (w', r) → tcp_ok w' ∧ same_servers w w' ∧
      ∀ conn, r = Ok conn → tcp_node_addresses (tw_client w) !! to_string n = Some (cn_addr conn)) as Hnew.
  { intros addr Haddr. destruct (connect_and_handshake addr w) as [w1 r1] eqn:Hc.
    apply connect_same in Hc as [-> Hconn]. simpl.
    destruct r1 as [conn|e]; intros [= <- <-]; (split; [|split; [by split|]]).
    - destruct Hok as [Ha Hb Hd]. split; [done| |done]. simpl. intros k c.
      intros [[<- <-]|[_ Hk]]%lookup_insert_Some; [by rewrite (Hconn conn eq_refl)|by apply Hb].
    - intros c [= <-]. by rewrite (Hconn conn eq_refl).
    - by destruct Hok.
    - done. }
  destruct (tcp_node_addresses (tw_client w) !! to_string n) as [addr|] eqn:Haddr.
  - destruct (tcp_connections (tw_client w) !! to_string n) as [conn|] eqn:Hc; [|by apply Hnew].
    destruct (cn_handshake_done conn); [|by apply Hnew]. intros [= <- <-]. split_and!; [done|done|].
    intros c [= <-]. by rewrite <- Haddr, (tok_connections _ Hok _ _ Hc).
  - destruct (tcp_connections (tw_client w) !! to_string n) as [conn|] eqn:Hc; [|by intros [= <- <-]].
    apply (tok_connections _ Hok) in Hc. congruence.
Qed.

Lemma drop_connection_ok n w :
  tcp_ok w → let w' := set_client (drop_connection n (tw_client w)) w in tcp_ok w' ∧ same_servers w w'.
Proof.
  intros [Ha Hb Hd]. split; [|by split]. split; [done| |done]. simpl. intros k c [_ Hk]%lookup_delete_Some. by apply Hb.
Qed.

(** A request reaches the server at its address, or nobody. *)
Lemma exchange_spec addr bytes w w' r :
  exchange addr bytes w = (w', r) →
  tw_client w' = tw_client w ∧
  ((tw_servers w' = tw_servers w ∧ ∀ out, r ≠ Ok out) ∨
   ∃ sv h served running, tw_servers w !! addr = Some sv ∧
     serve_request bytes (sv_handler sv) = (h, served) ∧
     tw_servers w' = <[addr := MkServer h (sv_node_id sv) (sv_auth_provider sv) running]> (tw_servers w) ∧
     ∀ out, r = Ok out → ∃ rest, served = Answered out rest).
Proof.
  unfold exchange. destruct (next_event w) as [w1 ev] eqn:Hev.
  assert (tw_client w1 = tw_client w ∧ tw_servers w1 = tw_servers w) as [Hc Hs] by by injection Hev as <- _.
  rewrite <- Hc, <- Hs. clear Hev Hc Hs.
  destruct (tw_servers w1 !! addr) as [sv|] eqn:Hsv.
  - destruct (sv_running sv).
    + destruct (serve_request bytes (sv_handler sv)) as [h served] eqn:Hserve.
      destruct ev; try by (intros [= <- <-]; split; [done|left]).
      all: destruct served; intros [= <- <-]; (split; [done|right]);
        eexists sv, h, _, _; (split_and!; [done|done|done|]); naive_solver.
    + destruct ev; intros [= <- <-]; (split; [done|by left]).
  - destruct ev; intros [= <- <-]; (split; [done|by left]).
Qed.

(** ** One attempt *)

(** Where the server of [n] is replaced, only [n] changes. *)
Lemma set_server_handler w w' n addr sv' :
  tcp_ok w → tw_client w' = tw_client w → tcp_node_addresses (tw_client w) !! to_string n = Some addr →
  tw_servers w' = <[addr := sv']> (tw_servers w) →
  handler_at n w' = Some (sv_handler sv') ∧ ∀ n', n' ≠ n → handler_at n' w' = handler_at n' w.
Proof.
  intros Hok Hc Haddr Hs. unfold handler_at. rewrite Hc, Hs. split.
  - rewrite Haddr. simpl. by rewrite lookup_insert_eq.
  - intros n' Hne. destruct (tcp_node_addresses (tw_client w) !! to_string n') as [a|] eqn:Ha; [|done]. simpl.
    rewrite lookup_insert_ne; [done|]. intros ->. apply Hne, node_id_to_string_inj.
    by eapply (tok_addresses _ Hok).
Qed.

Lemma set_server_ok w w' addr sv' :
  tcp_ok w → tw_client w' = tw_client w → tw_servers w' = <[addr := sv']> (tw_servers w) →
  stores_ok (nd_service (dh_node (sv_handler sv'))) → tcp_ok w'.
Proof.
  intros [Ha Hb Hd] Hc Hs Hso. split; rewrite ?Hc; [done..|]. rewrite Hs.
  intros a sv [[<- <-]|[_ ?]]%lookup_insert_Some; [done|by eapply Hd].
Qed.

Lemma handler_write_stores req payload h h' r :
  handler_handle_write req payload h = (h', r) → stores_ok (nd_service (dh_node h)) →
  stores_ok (nd_service (dh_node h')).
Proof.
  unfold handler_handle_write. destruct (handle_write _ _ _ _ _ _) as [nd r1] eqn:Hw. intros [= <- <-] Hso.
  apply handle_write_effect in Hw. apply write_effect_stored in Hw as [Hs _]; [|done].
  unfold stores_ok. simpl. by rewrite Hs.
Qed.

Lemma handler_read_same req h h' r :
  handler_handle_read req h = (h', r) → same_extents (dh_node h) (dh_node h').
Proof.
  unfold handler_handle_read. destruct (handle_read _ _ _) as [nd r1] eqn:Hr. intros [= <- <-].
  by apply handle_read_effect in Hr as [? _].
Qed.

(** An attempt to write changes at most the addressed node, by one call of its
    handler, and answers what the handler answered. *)
Lemma try_write_spec n op s v x ver ep data sum w w' r :
  let req := MkWriteExtentRequest op s v x ver ep None sum (N.of_nat (length data)) None in
  tcp_ok w → try_write_extent n op s v x ver ep data sum w = (w', r) →
  tcp_ok w' ∧ (∀ n', n' ≠ n → handler_at n' w' = handler_at n' w) ∧
  ((handler_at n w' = handler_at n w ∧ ∀ ack, r ≠ Ok ack) ∨
   ∃ h h' r0, handler_at n w = Some h ∧ handler_at n w' = Some h' ∧ stores_ok (nd_service (dh_node h)) ∧
     handler_handle_write req data h = (h', r0) ∧
     ∀ ack, r = Ok ack → ∃ resp, r0 = Some resp ∧ ack = convert_write_response n resp).
Proof.
  intros req Hok. unfold try_write_extent. destruct (get_connection n w) as [w1 rc] eqn:Hc.
  destruct (get_connection_spec _ _ _ _ Hok Hc) as (Hok1 & Hsame & Haddr).
  destruct rc as [conn|e]; [|intros [= <- <-]; split_and!; [done|intros; by apply same_servers_handler|left];
    split; [by apply same_servers_handler|done]].
  specialize (Haddr conn eq_refl). fold req. destruct (exchange _ _ w1) as [w2 re] eqn:Hex.
  destruct (exchange_spec _ _ _ _ _ Hex) as [Hcl Hex']. intros Hrest.
  assert (w' = w2 ∧ ∀ ack, r = Ok ack → ∃ out frame rest resp, re = Ok out ∧
    client_read_frame out = Ok (frame, rest) ∧ json_from_slice frame = Ok (WriteResp resp) ∧
    ack = convert_write_response n resp) as [-> Hack].
  { destruct re as [out|e]; [|by simplify_eq]. destruct (client_read_frame out) as [[frame rest]|] eqn:Hf; [|by simplify_eq].
    destruct (json_from_slice frame) as [[]|] eqn:Hj; simplify_eq; (split; [done|]); try done.
    intros ack [= <-]. by exists out, frame, rest, m. }
  clear Hrest. assert (∀ n', handler_at n' w1 = handler_at n' w) as Hh1 by (intros; by apply same_servers_handler).
  destruct Hex' as [[Hsv Hno]|(sv & h & served & running & Hsv & Hserve & Hsv' & Hout)].
  { assert (same_servers w1 w2) as Hsame2 by (split; [by rewrite Hcl|done]).
    split_and!; [by destruct Hok1; split; rewrite ?Hcl, ?Hsv| |left].
    - intros. rewrite (same_servers_handler w1 w2) by done. done.
    - split; [by rewrite (same_servers_handler w1 w2)|]. intros ack ->.
      destruct (Hack ack eq_refl) as (out & _ & _ & _ & -> & _). by destruct (Hno out). }
  assert (tcp_node_addresses (tw_client w1) !! to_string n = Some (cn_addr conn)) as Haddr1
    by (destruct Hsame as [-> _]; done).
  destruct (set_server_handler w1 w2 n _ _ Hok1 Hcl Haddr1 Hsv') as [Hn Hothers]. simpl in Hn.
  pose proof (tok_stores _ Hok1 _ _ Hsv) as Hso.
  assert (handler_at n w = Some (sv_handler sv)) as Hat.
  { rewrite <- Hh1. unfold handler_at. rewrite Haddr1. simpl. by rewrite Hsv. }
  apply serve_write in Hserve; [|done]. destruct Hserve as [[-> Hno]|(r0 & Hw & Hans)].
  - split_and!; [by eapply (set_server_ok w1)|intros; rewrite Hothers; done|left]. split; [by rewrite Hn|].
    intros ack ->. destruct (Hack ack eq_refl) as (out & _ & _ & _ & Hre & _).
    destruct (Hout out Hre) as [rest Hs]. by apply Hno in Hs.
  - split_and!; [apply (set_server_ok w1 _ _ _ Hok1 Hcl Hsv'), (handler_write_stores _ _ _ _ _ Hw Hso)|intros; rewrite Hothers; done|right].
    exists (sv_handler sv), h, r0. split_and!; try done. intros ack ->.
    destruct (Hack ack eq_refl) as (out & frame & rest & resp & Hre & Hf & Hj & ->).
    destruct (Hout out Hre) as [rest' Hs]. destruct (Hans out rest' Hs) as (resp' & -> & ->).
    exists resp'. split; [done|]. rewrite <- (app_nil_r (write_frame _)) in Hf.
    by destruct (message_arrives _ _ _ _ _ _ _ _ Hf Hj) as [[= ->] _].
Qed.

Lemma try_read_spec n v x ver off len w w' r :
  tcp_ok w → try_read_extent n v x ver off len w = (w', r) →
  tcp_ok w' ∧ (∀ n' x' ver', world_stored w' n' x' ver' = world_stored w n' x' ver') ∧
  ∀ data, r = Ok data → ∃ d, world_stored w n x ver = Some d ∧ slice_payload off len d = Return data.
Proof.
  intros Hok. unfold try_read_extent. destruct (get_connection n w) as [w1 rc] eqn:Hc.
  destruct (get_connection_spec _ _ _ _ Hok Hc) as (Hok1 & Hsame & Haddr).
  assert (∀ n' x' ver', world_stored w1 n' x' ver' = world_stored w n' x' ver') as Hst1.
  { intros n' x' ver'. unfold world_stored. by rewrite (same_servers_handler w w1). }
  destruct rc as [conn|e]; [|by intros [= <- <-]]. specialize (Haddr conn eq_refl).
  set (req := MkReadExtentRequest _ _ _ _ _ _ _ _).
  destruct (exchange _ _ w1) as [w2 re] eqn:Hex. destruct (exchange_spec _ _ _ _ _ Hex) as [Hcl Hex']. intros Hrest.
  assert (w' = w2 ∧ ∀ data, r = Ok data → ∃ out frame rest resp, re = Ok out ∧
    client_read_frame out = Ok (frame, rest) ∧ json_from_slice frame = Ok (ReadResp resp) ∧ rs_success resp = true ∧
    if decide (0 < rs_payload_size resp) then fst <$> read_exact (rs_payload_size resp) rest = Some data
    else data = []) as [-> Hdata].
  { destruct re as [out|e]; [|by simplify_eq]. destruct (client_read_frame out) as [[frame rest]|] eqn:Hf; [|by simplify_eq].
    destruct (json_from_slice frame) as [[]|] eqn:Hj; try (by simplify_eq). destruct (rs_success m) eqn:Hs; [|by simplify_eq].
    destruct (decide (0 < rs_payload_size m)) eqn:Hd; [|simplify_eq; split; [done|]; intros data [= <-]; exists out, frame, rest, m; by rewrite Hd].
    destruct (read_exact _ rest) as [[p q]|] eqn:Hr; simplify_eq; (split; [done|]); [|done].
    intros data [= <-]. exists out, frame, rest, m. rewrite Hd, Hr. done. }
  clear Hrest. destruct Hex' as [[Hsv Hno]|(sv & h & served & running & Hsv & Hserve & Hsv' & Hout)].
  { assert (same_servers w1 w2) as Hsame2 by (split; [by rewrite Hcl|done]).
    split_and!; [by destruct Hok1; split; rewrite ?Hcl, ?Hsv| |].
    - intros. rewrite <- Hst1. unfold world_stored. by rewrite (same_servers_handler w1 w2).
    - intros data ->. destruct (Hdata data eq_refl) as (out & _ & _ & _ & -> & _). by destruct (Hno out). }
  assert (tcp_node_addresses (tw_client w1) !! to_string n = Some (cn_addr conn)) as Haddr1
    by (destruct Hsame as [-> _]; done).
  destruct (set_server_handler w1 w2 n _ _ Hok1 Hcl Haddr1 Hsv') as [Hn Hothers]. simpl in Hn.
  pose proof (tok_stores _ Hok1 _ _ Hsv) as Hso.
  assert (handler_at n w1 = Some (sv_handler sv)) as Hat.
  { unfold handler_at. rewrite Haddr1. simpl. by rewrite Hsv. }
  apply serve_read in Hserve.
  assert (same_extents (dh_node (sv_handler sv)) (dh_node h)) as Hsx.
  { destruct Hserve as [[-> _]|(r0 & Hr & _)]; [done|exact (handler_read_same _ _ _ _ Hr)]. }
  split_and!.
  - eapply (set_server_ok w1); try done. unfold stores_ok. simpl. by destruct Hsx as (_ & -> & _).
  - intros n' x' ver'. rewrite <- Hst1. unfold world_stored. destruct (decide (n' = n)) as [->|Hne]; [|by rewrite Hothers].
    rewrite Hn, Hat. simpl. by apply same_extents_stored.
  - intros data ->. destruct (Hdata data eq_refl) as (out & frame & rest & resp & Hre & Hf & Hj & Hsucc & Hpay).
    destruct (Hout out Hre) as [rest' Hs]. destruct Hserve as [[_ Hno]|(r0 & Hr & Hans)]; [by apply Hno in Hs|].
    destruct (Hans out rest' Hs) as (resp' & pd & -> & ->).
    destruct (message_arrives _ _ _ _ _ _ _ _ Hf Hj) as [[= ->] ->].
    simpl in Hr. unfold handler_handle_read in Hr. destruct (handle_read _ _ _) as [nd r1] eqn:Hhr.
    injection Hr as _ ->. apply handle_read_effect in Hhr as [_ Hhr].
    destruct (Hhr _ _ eq_refl Hsucc) as (d & q & Hd & -> & Hq & Hlen). exists d.
    rewrite <- Hst1. unfold world_stored. rewrite Hat. simpl. split; [exact Hd|].
    simpl in Hpay. rewrite Hlen in Hpay. assert (data = q) as ->; [|done].
    case_decide as Hpos.
    + unfold read_exact in Hpay. rewrite decide_True in Hpay by done. simpl in Hpay.
      rewrite Nat2N.id, firstn_all in Hpay. congruence.
    + destruct q; [done|simpl in Hpos; lia].
Qed.

(** ** Writing *)

(** What a call that writes may do: [r] is its answer. *)
Record write_call n (op : OperationId) (x : ExtentId) (ver : N) (data : list N) w w' (r : result Error WriteAck)
    : Prop := {
  wc_ok : tcp_ok w';
  wc_atomic : ∀ n' x' ver', world_stored w' n' x' ver' = world_stored w n' x' ver' ∨
    (n' = n ∧ x' = x ∧
      (world_stored w' n' x' ver' = None ∨ (ver' = ver ∧ world_stored w' n' x' ver' = Some data)));
  wc_others : ∀ n' op', n' ≠ n → world_record w' n' op' = world_record w n' op';
  wc_acknowledged : ∀ ack, r = Ok ack → ack_success ack = true → ack_node_id ack = n ∧
    ((world_record w n op = None ∧ world_stored w' n x ver = Some data) ∨
     ∃ rec, world_record w n op = Some rec ∧ or_success rec = true ∧
       world_stored w' n x ver = world_stored w n x ver);
  wc_recorded : ∀ rec, world_record w' n op = Some rec → or_success rec = true → world_record w n op = None →
    world_stored w' n x ver = Some data;
}.

Lemma try_write_call n op s v x ver ep data sum w w' r :
  tcp_ok w → try_write_extent n op s v x ver ep data sum w = (w', r) → write_call n op x ver data w w' r.
Proof.
  intros Hok Hrun. destruct (try_write_spec _ _ _ _ _ _ _ _ _ _ _ _ Hok Hrun) as (Hok' & Hothers & Hn).
  destruct Hn as [[Hn Hno]|(h & h' & r0 & Hh & Hh' & Hso & Hw & Hack)].
  - assert (∀ n', handler_at n' w' = handler_at n' w) as Hall.
    { intros n'. destruct (decide (n' = n)) as [->|Hne]; [done|by apply Hothers]. }
    split; [done|..]; unfold world_stored, world_record; intros *; rewrite ?Hall; [by left|done|..].
    + intros Hr. by destruct (Hno _ Hr).
    + intros Hrec _ Hnone. congruence.
  - unfold handler_handle_write in Hw. destruct (handle_write _ _ _ _ _ _) as [nd r1] eqn:Hhw.
    injection Hw as <- <-. apply handle_write_effect in Hhw.
    pose proof (λ resp rec, write_effect_duplicate _ _ _ _ _ _ _ resp rec Hhw) as Hdup.
    destruct (write_effect_stored _ _ _ _ _ _ _ Hso Hhw) as (_ & Hatomic & Hfresh & Hrecd). simpl in *.
    split; [done|..]; unfold world_stored, world_record.
    + intros n' x' ver'. destruct (decide (n' = n)) as [->|Hne]; [|rewrite (Hothers _ Hne); by left].
      rewrite Hh, Hh'. simpl. destruct (Hatomic x' ver') as [?|[-> ?]]; [by left|right]. done.
    + intros n' op' Hne. by rewrite (Hothers _ Hne).
    + intros ack -> Hs. destruct (Hack ack eq_refl) as (resp & -> & ->). split; [done|]. simpl in Hs.
      rewrite Hh, Hh'. simpl. destruct (check_duplicate op _) as [rec|] eqn:Hc; [right|left].
      * destruct (Hdup resp rec eq_refl Hs eq_refl) as [? Hsame]. exists rec. split_and!; [done..|].
        by apply same_extents_stored.
      * split; [done|]. by apply (Hfresh resp).
    + intros rec. rewrite Hh, Hh'. simpl. intros Hr Hs Hnone. by apply (Hrecd rec).
Qed.

Lemma write_call_drop n' n op x ver data w w' r :
  write_call n op x ver data (set_client (drop_connection n' (tw_client w)) w) w' r →
  write_call n op x ver data w w' r.
Proof. by intros []; split. Qed.

(** A write of an operation that the node has no record of, with its retry: the
    first attempt may have been served although its answer was lost, in which case
    the node finds the record of the second. *)
Lemma tcp_write_call n op s v x ver ep data sum w w' r :
  tcp_ok w → tcp_write_extent n op s v x ver ep data sum w = (w', r) →
  tcp_ok w' ∧
  (∀ n' x' ver', world_stored w' n' x' ver' = world_stored w n' x' ver' ∨
    (n' = n ∧ x' = x ∧
      (world_stored w' n' x' ver' = None ∨ (ver' = ver ∧ world_stored w' n' x' ver' = Some data)))) ∧
  (∀ n' op', n' ≠ n → world_record w' n' op' = world_record w n' op') ∧
  (∀ ack, r = Ok ack → ack_success ack = true →
     ack_node_id ack = n ∧ (world_record w n op = None → world_stored w' n x ver = Some data)).
Proof.
  intros Hok. unfold tcp_write_extent. destruct (try_write_extent _ _ _ _ _ _ _ _ _ w) as [w1 r1] eqn:Hrun1.
  destruct (try_write_call _ _ _ _ _ _ _ _ _ _ _ _ Hok Hrun1) as [Hok1 Ha1 Ho1 Hack1 Hr1].
  destruct r1 as [ack|e].
  - intros [= <- <-]. split_and!; [done..|]. intros ack' Hr Hs.
    destruct (Hack1 _ Hr Hs) as [? [[_ ?]|(rec & Hrec & _)]]; split; [done..|congruence].
  - intros Hrun2. destruct (write_call_drop n n op x ver data w1 w' r) as [Hok2 Ha2 Ho2 Hack2 Hr2].
    { eapply try_write_call; [by apply drop_connection_ok|done]. }
    split_and!; [done|..].
    + intros n' x' ver'. destruct (Ha2 n' x' ver') as [->|?]; [apply Ha1|by right].
    + intros n' op' Hne. by rewrite Ho2, Ho1.
    + intros ack Hr Hs. destruct (Hack2 ack Hr Hs) as [Hid [[_ Hst]|(rec & Hrec & Hok' & ->)]]; (split; [done|]); [done|].
      intros Hnone. by apply (Hr1 rec).
Qed.

(** ** Reading *)

Lemma tcp_read_call n v x ver off len w w' r :
  tcp_ok w → tcp_read_extent n v x ver off len w = (w', r) →
  tcp_ok w' ∧ (∀ n' x' ver', world_stored w' n' x' ver' = world_stored w n' x' ver') ∧
  ∀ data, r = Ok data → ∃ d, world_stored w n x ver = Some d ∧ slice_payload off len d = Return data.
Proof.
  intros Hok. unfold tcp_read_extent. destruct (try_read_extent _ _ _ _ _ _ w) as [w1 r1] eqn:Hrun1.
  destruct (try_read_spec _ _ _ _ _ _ _ _ _ Hok Hrun1) as (Hok1 & Hs1 & Hd1).
  destruct r1 as [data|e]; [by intros [= <- <-]|]. intros Hrun2.
  destruct (try_read_spec _ _ _ _ _ _ _ _ _ (proj1 (drop_connection_ok n w1 Hok1)) Hrun2) as (Hok2 & Hs2 & Hd2).
  split_and!; [done|intros; by rewrite Hs2, <- Hs1|]. intros data ->. destruct (Hd2 _ eq_refl) as (d & Hd & ?).
  exists d. split; [|done]. by rewrite <- Hs1.
Qed.

(** What the server slices out of an extent is what the client reads: a range whose
    end overflows is never answered. *)
Lemma slice_payload_read off len d q :
  len < u64_modulus → slice_payload off len d = Return q → q = read_payload off len d.
Proof.
  intros Hlen. destruct (decide (off + len < u64_modulus)) as [Hlt|Hge].
  - rewrite slice_payload_padded by done. intros [= <-]. unfold read_payload. case_decide; [done|].
    apply list_eq. intros i. rewrite lookup_padded_slice. unfold resize_zero.
    destruct (decide (i < N.to_nat len)%nat) as [Hi|Hi].
    + destruct (d !! (N.to_nat off + i)%nat) as [b|] eqn:Hb.
      * pose proof (lookup_lt_Some _ _ _ Hb). rewrite lookup_app_l by (rewrite length_take, length_drop; lia).
        by rewrite lookup_take_lt, lookup_drop, Hb by done.
      * apply lookup_ge_None in Hb. rewrite lookup_app_r by (rewrite length_take, length_drop; lia).
        rewrite lookup_replicate_2; [done|]. rewrite length_take, length_drop. lia.
    + symmetry. apply lookup_ge_None. rewrite length_app, length_take, length_replicate, length_drop. lia.
  - unfold slice_payload. rewrite decide_False by lia.
    assert (u64_add off len < off) as Hwrap; [|by rewrite decide_True].
    assert (u64_modulus ≠ 0) as Hm by done. unfold u64_add. destruct (decide (off < u64_modulus)) as [Ho|Ho].
    + replace (off + len) with ((off + len - u64_modulus) + 1 * u64_modulus) by lia.
      rewrite N.Div0.mod_add, N.mod_small; lia.
    + pose proof (N.mod_lt (off + len) u64_modulus Hm). lia.
Qed.

Lemma tcp_reader_call n v x ver off len w w' r :
  tcp_ok w → tcp_reader_read_extent n v x ver off len w = (w', r) →
  tcp_ok w' ∧ (∀ n' x' ver', world_stored w' n' x' ver' = world_stored w n' x' ver') ∧
  ∀ res, r = Ok res → len < u64_modulus →
    ∃ d, world_stored w n x ver = Some d ∧ rr_data res = read_payload off len d.
Proof.
  intros Hok. unfold tcp_reader_read_extent. destruct (tcp_read_extent _ _ _ _ _ _ w) as [w1 r1] eqn:Hrun.
  destruct (tcp_read_call _ _ _ _ _ _ _ _ _ Hok Hrun) as (Hok1 & Hst & Hd). intros [= <- <-].
  split_and!; [done..|]. intros res Hr Hlen. destruct r1 as [data|e]; [|done]. injection Hr as <-.
  destruct (Hd data eq_refl) as (d & ? & Hq). exists d. split; [done|]. by apply slice_payload_read.
Qed.

(** C4: A cluster of data nodes reached over TCP keeps the contract that the write
    pipelines and the block handler assume of data nodes, whatever connections are
    refused, requests or replies are lost, system calls fail and servers stop.  A
    write, which the client retries once after an error, changes at most the extent
    it names on the node it is addressed to, and leaves there the whole payload,
    what was there, or nothing readable; when it is acknowledged and the node had no
    record of the operation, the node stores the payload, even if the first attempt
    was served and only its reply lost.  A read changes nothing, and what it
    answers is the requested range of what the node stores. *)
Theorem tcp_cluster_keeps_contract w :
  tcp_ok w →
  (∀ n op s v x ver ep data sum w' r, tcp_write_extent n op s v x ver ep data sum w = (w', r) →
     tcp_ok w' ∧
     (∀ n' x' ver', world_stored w' n' x' ver' = world_stored w n' x' ver' ∨
       (n' = n ∧ x' = x ∧
         (world_stored w' n' x' ver' = None ∨ (ver' = ver ∧ world_stored w' n' x' ver' = Some data)))) ∧
     (∀ n' op', n' ≠ n → world_record w' n' op' = world_record w n' op') ∧
     (∀ ack, r = Ok ack → ack_success ack = true → world_record w n op = None →
        ack_node_id ack = n ∧ world_stored w' n x ver = Some data)) ∧
  (∀ n v x ver off len w' r, tcp_reader_read_extent n v x ver off len w = (w', r) →
     tcp_ok w' ∧
     (∀ n' x' ver', world_stored w' n' x' ver' = world_stored w n' x' ver') ∧
     (∀ res, r = Ok res → len < u64_modulus →
        ∃ d, world_stored w n x ver = Some d ∧ rr_data res = read_payload off len d)).
Proof.
  intros Hok. split.
  - intros * Hrun. destruct (tcp_write_call _ _ _ _ _ _ _ _ _ _ _ _ Hok Hrun) as (? & ? & ? & Hack).
    split_and!; [done..|]. intros ack Hr Hs Hnone. destruct (Hack ack Hr Hs). auto.
  - intros * Hrun. by apply (tcp_reader_call _ _ _ _ _ _ _ _ _ Hok Hrun).
Qed.

End world.

(** ** The cluster as the data nodes of the pipelines *)

Section cluster.
Context `{!UuidDisplay} `{!Hmac} `{!UuidError} `{!Blake3} `{!MetaCodec} `{!RecordCodec}.
Context `{!HashIter OperationId} `{!HashIter DiskId}.
Context `{!JsonCodec ProtocolMessage} `{!JsonCodec HandshakeRequest} `{!JsonCodec HandshakeResponse}.
Context {M : Type} `{Hmc : !MetadataClient M}.

(** The data nodes, and the metadata service beside them. *)
Record TcpCluster := MkTcpCluster {
  tc_nodes : TcpWorld;
  tc_nodes_ok : tcp_ok tc_nodes;
  tc_metadata : M;
}.

#[export] Instance tcp_data_nodes : DataNodeClient TcpCluster := {|
  dn_write_extent n op s v x ver ep data sum w :=
    (MkTcpCluster (tcp_write_extent n op s v x ver ep data sum (tc_nodes w)).1
       (proj1 (tcp_write_call _ _ _ _ _ _ _ _ _ _ _ _ (tc_nodes_ok w) (surjective_pairing _))) (tc_metadata w),
     Return (tcp_write_extent n op s v x ver ep data sum (tc_nodes w)).2);
|}.

#[export] Instance tcp_data_readers : DataNodeReader TcpCluster := {|
  dn_read_extent n v x ver off len w :=
    (MkTcpCluster (tcp_reader_read_extent n v x ver off len (tc_nodes w)).1
       (proj1 (tcp_reader_call _ _ _ _ _ _ _ _ _ (tc_nodes_ok w) (surjective_pairing _))) (tc_metadata w),
     Return (tcp_reader_read_extent n v x ver off len (tc_nodes w)).2);
|}.

(** A call of the metadata service, beside the data nodes. *)
Definition on_metadata {A} (f : M → M * A) (w : TcpCluster) : TcpCluster * A :=
  let '(m, a) := f (tc_metadata w) in (MkTcpCluster (tc_nodes w) (tc_nodes_ok w) m, a).

#[export] Instance tcp_metadata : MetadataClient TcpCluster := {|
  mc_refresh_metadata c w :=
    let '(w, (c, r)) := on_metadata (λ m, let '(m, c, r) := mc_refresh_metadata c m in (m, (c, r))) w in (w, c, r);
  mc_commit_extent_mapping r := on_metadata (mc_commit_extent_mapping r);
  mc_commit_extent_mappings_batch r := on_metadata (mc_commit_extent_mappings_batch r);
  mc_lookup_operation op := on_metadata (mc_lookup_operation op);
  mc_current_epoch := on_metadata mc_current_epoch;
  mc_acquire_lease v s a b := on_metadata (mc_acquire_lease v s a b);
  mc_renew_lease v s a b := on_metadata (mc_renew_lease v s a b);
  mc_release_lease v s := on_metadata (mc_release_lease v s);
|}.

#[export, refine] Instance tcp_cluster_laws : DataNodeLaws TcpCluster := {|
  stored w := world_stored (tc_nodes w);
  seen w := world_seen (tc_nodes w);
|}.
Proof.
  - intros n op s v x ver ep data sum w w' ack Hns [= <- Hr] Hs.
    pose proof (tcp_write_call n op s v x ver ep data sum _ _ _ (tc_nodes_ok w) (surjective_pairing _)) as (_ & _ & _ & Hack).
    destruct (Hack ack Hr Hs) as [Hid Hst]. split; [done|]. apply Hst. by apply eq_None_not_Some.
  - intros n op s v x ver ep data sum w w' r n' x' ver' [= <- _].
    apply (tcp_write_call n op s v x ver ep data sum _ _ _ (tc_nodes_ok w) (surjective_pairing _)).
  - intros n op s v x ver ep data sum w w' r n' op' [= <- _] Hne. unfold world_seen. simpl.
    pose proof (tcp_write_call n op s v x ver ep data sum _ _ _ (tc_nodes_ok w) (surjective_pairing _)) as (_ & _ & Ho & _).
    by rewrite Ho.
  - intros op w w' r n'. simpl. unfold on_metadata. destruct (mc_lookup_operation _ _). by intros [= <- _].
Defined.

#[export] Instance tcp_reader_laws : DataNodeReaderLaws TcpCluster.
Proof.
  split.
  - intros n v x ver off len w w' res Hlen [= _ Hr].
    pose proof (tcp_reader_call n v x ver off len _ _ _ (tc_nodes_ok w) (surjective_pairing _)) as (_ & _ & Hd).
    by apply (Hd res).
  - intros n v x ver off len w w' r n' x' ver' [= <- _].
    apply (tcp_reader_call n v x ver off len _ _ _ (tc_nodes_ok w) (surjective_pairing _)).
Qed.

End cluster.

(** ** Witness *)

Module TcpDemo.

Import ProtocolDemo NodeDemo.

Definition node5 : NodeId := NodeId_new 5.

Definition address : SocketAddr := MkSocketAddr "10.0.0.5" 7000.

Definition server : Server :=
  MkServer (MkDataNodeHandler (node 1) peer 0) node5 None true.

(** The first write is served, but the connection breaks before its reply. *)
Definition world : TcpWorld :=
  MkTcpWorld (tcp_register_node node5 address TcpDataNodeClient_new) {[address := server]}
    [NetFine; NetReplyLost "connection reset"] 0.

Lemma world_ok : tcp_ok world.
Proof.
  split.
  - intros k1 k2 a. simpl. rewrite insert_empty, !lookup_singleton_Some. naive_solver.
  - intros k c. simpl. by rewrite lookup_empty.
  - intros a sv. simpl. rewrite lookup_singleton_Some. intros [_ <-]. apply stores_ok_demo.
Qed.

Definition written : TcpWorld * result Error WriteAck :=
  tcp_write_extent node5 (OperationId_new 11) (SessionId_new 6) (VolumeId_new 3) extent 1 (EpochId_new 1) payload
    (compute_checksum payload) world.

End TcpDemo.
Import ProtocolDemo NodeDemo TcpDemo.

Lemma tcp_cluster_keeps_contract_witness :
  world_stored written.1 node5 extent 1 = Some payload ∧
  ∃ d, world_stored written.1 node5 extent 1 = Some d ∧ [2; 3] = read_payload 1 2 d.
Proof.
  pose proof (tcp_cluster_keeps_contract world world_ok) as [Hw _].
  destruct (Hw _ _ _ _ _ _ _ _ _ written.1 written.2 (surjective_pairing written)) as (Hok & _ & _ & Hack).
  split.
  - apply (Hack (MkWriteAck node5 true (compute_checksum payload) None)); vm_compute; reflexivity.
  - destruct (tcp_cluster_keeps_contract written.1 Hok) as [_ Hr].
    destruct (Hr node5 (VolumeId_new 3) extent 1 1 2 _ _ (surjective_pairing _)) as (_ & _ & Hd).
    apply (Hd (MkReadResult extent 1 (compute_checksum [2; 3]) [2; 3])); vm_compute; reflexivity.
Defined.
