(* ===== verification/Gossip.v ===== *)
(** * Gossip membership (crates/blockyard-gossip/src: protocol.rs, member.rs, swim.rs)

    The member list with its incarnation numbers and the SWIM probe cycle of one
    node.  Times are nanoseconds.  A handler returns the messages it sends; a probe
    cycle, which sends twice and waits twice for an acknowledgement while messages
    arrive, is cut at these points.  [GossipCluster] composes nodes. *)

From S2P Require Import Prelude Common MetadataCache.

#[local] Open Scope N_scope.

(** ** Messages (protocol.rs) *)

Inductive MemberState := MsAlive | MsSuspect | MsDead.

#[export] Instance MemberState_eq_dec : EqDecision MemberState.
Proof. solve_decision. Defined.

Record MembershipUpdate := MkUpdate {
  mu_node_id : NodeId;
  mu_addr : SocketAddr;
  mu_state : MemberState;
  mu_incarnation : N;
}.

Inductive GossipMessage :=
  | GPing (from : NodeId) (from_addr : SocketAddr) (seq : N) (ups : list MembershipUpdate)
  | GPingReq (from : NodeId) (from_addr : SocketAddr) (target : NodeId) (target_addr : SocketAddr) (seq : N)
      (ups : list MembershipUpdate)
  | GAck (from : NodeId) (from_addr : SocketAddr) (seq : N) (ups : list MembershipUpdate)
  | GJoin (node_id : NodeId) (addr : SocketAddr)
  | GAlive (node_id : NodeId) (addr : SocketAddr) (incarnation : N)
  | GSuspect (node_id : NodeId) (addr : SocketAddr) (incarnation : N)
  | GDead (node_id : NodeId) (addr : SocketAddr) (incarnation : N).

Definition updates (m : GossipMessage) : list MembershipUpdate :=
  match m with
  | GPing _ _ _ ups | GPingReq _ _ _ _ _ ups | GAck _ _ _ ups => ups
  | _ => []
  end.

(** ** The member list (member.rs) *)

Record Member := MkMember {
  mb_node_id : NodeId;
  mb_addr : SocketAddr;
  mb_state : MemberState;
  mb_incarnation : N;
  mb_state_change : N;
}.

Definition to_update (m : Member) : MembershipUpdate :=
  MkUpdate (mb_node_id m) (mb_addr m) (mb_state m) (mb_incarnation m).

Record MemberList := MkMemberList {
  ml_local_id : NodeId;
  ml_members : gmap NodeId Member;
  ml_incarnation : N;
}.

Definition MemberList_new (now : N) (local_id : NodeId) (local_addr : SocketAddr) : MemberList :=
  MkMemberList local_id {[local_id := MkMember local_id local_addr MsAlive 0 now]} 0.

(** Higher priority wins on equal incarnation. *)
Definition state_priority (s : MemberState) : N :=
  match s with MsAlive => 0 | MsSuspect => 1 | MsDead => 2 end.

Definition should_override (existing : Member) (u : MembershipUpdate) : bool :=
  if decide (mb_incarnation existing < mu_incarnation u) then true
  else if decide (mu_incarnation u < mb_incarnation existing) then false
  else bool_decide (state_priority (mb_state existing) < state_priority (mu_state u)).

Definition set_members (ms : gmap NodeId Member) (ml : MemberList) : MemberList :=
  MkMemberList (ml_local_id ml) ms (ml_incarnation ml).

Definition next_incarnation (ml : MemberList) : MemberList :=
  MkMemberList (ml_local_id ml) (ml_members ml) (u64_add (ml_incarnation ml) 1).

Definition handle_local_update (u : MembershipUpdate) (ml : MemberList) : MemberList * bool :=
  match mu_state u with
  | MsSuspect | MsDead => (next_incarnation ml, false)
  | MsAlive => (ml, false)
  end.

(** Whether the state changed. *)
Definition apply_update (now : N) (u : MembershipUpdate) (ml : MemberList) : MemberList * bool :=
  if decide (mu_node_id u = ml_local_id ml) then handle_local_update u ml else
  let existing := ml_members ml !! mu_node_id u in
  if match existing with Some m => negb (should_override m u) | None => false end then (ml, false) else
  let member := MkMember (mu_node_id u) (mu_addr u) (mu_state u) (mu_incarnation u) now in
  (set_members (<[mu_node_id u := member]> (ml_members ml)) ml,
   bool_decide (mb_state <$> existing ≠ Some (mu_state u))).

Definition apply_updates (now : N) (us : list MembershipUpdate) (ml : MemberList) : MemberList :=
  foldl (λ ml u, (apply_update now u ml).1) ml us.

Definition set_member_state (now : N) (st : MemberState) (m : Member) : Member :=
  MkMember (mb_node_id m) (mb_addr m) st (mb_incarnation m) now.

Definition ml_mark_suspect (now : N) (node_id : NodeId) (ml : MemberList) : MemberList * bool :=
  match ml_members ml !! node_id with
  | Some m =>
      if decide (mb_state m = MsAlive)
      then (set_members (<[node_id := set_member_state now MsSuspect m]> (ml_members ml)) ml, true)
      else (ml, false)
  | None => (ml, false)
  end.

Definition ml_mark_dead (now : N) (node_id : NodeId) (ml : MemberList) : MemberList * bool :=
  match ml_members ml !! node_id with
  | Some m =>
      if decide (mb_state m ≠ MsDead)
      then (set_members (<[node_id := set_member_state now MsDead m]> (ml_members ml)) ml, true)
      else (ml, false)
  | None => (ml, false)
  end.

Section members.
Context `{!HashIter NodeId}.
Implicit Types ml : MemberList.

Definition all_members ml : list Member := omap (λ k, ml_members ml !! k) (hash_keys (ml_members ml)).

Definition alive_members ml : list Member := filter (λ m, mb_state m ≠ MsDead) (all_members ml).

Definition probe_targets ml : list Member :=
  filter (λ m, mb_node_id m ≠ ml_local_id ml ∧ mb_state m ≠ MsDead) (all_members ml).

Definition indirect_probe_candidates (exclude : NodeId) ml : list Member :=
  filter (λ m, mb_node_id m ≠ ml_local_id ml ∧ mb_node_id m ≠ exclude ∧ mb_state m = MsAlive) (all_members ml).

Definition recent_updates (max_count : nat) ml : list MembershipUpdate :=
  take max_count (sort_by (λ a b, N.compare (mu_incarnation b) (mu_incarnation a)) (to_update <$> all_members ml)).

End members.

(** ** The protocol of a node (swim.rs) *)

Definition INDIRECT_PROBE_COUNT : nat := 3.
Definition MAX_PIGGYBACK_UPDATES : nat := 10.

Record SwimConfig := MkSwimConfig {
  sc_gossip_interval : N;
  sc_suspicion_timeout : N;
  sc_probe_timeout : N;
}.

(** [Duration] multiplication panics when the seconds overflow. *)
Definition SwimConfig_new (gossip_interval_ms suspicion_mult : N) : exec SwimConfig :=
  let gossip_interval := gossip_interval_ms * 1000000 in
  let suspicion_timeout := gossip_interval * suspicion_mult in
  if decide (u64_modulus ≤ suspicion_timeout `div` 1000000000) then Panic
  else Return (MkSwimConfig gossip_interval suspicion_timeout (gossip_interval `div` 2)).

Record PendingProbe := MkPendingProbe {
  pp_target : NodeId;
  pp_sent_at : N;
  pp_indirect_sent : bool;
}.

Record SwimProtocol := MkSwim {
  sw_members : MemberList;
  sw_config : SwimConfig;
  sw_seq : N;
  sw_pending : gmap N PendingProbe;
}.

Definition SwimProtocol_new (members : MemberList) (config : SwimConfig) : SwimProtocol := MkSwim members config 0 ∅.

Abbreviation Sends := (list (SocketAddr * GossipMessage)) (only parsing).

Definition sw_set_members (ml : MemberList) (sw : SwimProtocol) : SwimProtocol :=
  MkSwim ml (sw_config sw) (sw_seq sw) (sw_pending sw).

Definition sw_set_pending (pending : gmap N PendingProbe) (sw : SwimProtocol) : SwimProtocol :=
  MkSwim (sw_members sw) (sw_config sw) (sw_seq sw) pending.

Definition next_seq (sw : SwimProtocol) : SwimProtocol * N :=
  let seq := u64_add (sw_seq sw) 1 in (MkSwim (sw_members sw) (sw_config sw) seq (sw_pending sw), seq).

(** What lets [wait_for_ack] run. *)
Inductive Wake := Entered | Notified | TimedOut.

(** A probe under way: its target and sequence number. *)
Record Probe := MkProbe { pr_target : NodeId; pr_target_addr : SocketAddr; pr_seq : N }.

Section swim.
Context `{!HashIter NodeId}.
Variable local_addr : SocketAddr.
Implicit Types sw : SwimProtocol.

(** The probe cycle up to its first wait: the target is picked by a sequence
    number, and pinged with another. *)
Definition probe_begin (now : N) sw : SwimProtocol * Sends * option Probe :=
  let targets := probe_targets (sw_members sw) in
  if decide (targets = []) then (sw, [], None) else
  let '(sw, pick) := next_seq sw in
  match targets !! N.to_nat (pick `mod` N.of_nat (length targets)) with
  | None => (sw, [], None)
  | Some target =>
      let '(sw, seq) := next_seq sw in
      let ups := recent_updates MAX_PIGGYBACK_UPDATES (sw_members sw) in
      let ping := GPing (ml_local_id (sw_members sw)) local_addr seq ups in
      let sw := sw_set_pending (<[seq := MkPendingProbe (mb_node_id target) now false]> (sw_pending sw)) sw in
      (sw, [(mb_addr target, ping)], Some (MkProbe (mb_node_id target) (mb_addr target) seq))
  end.

(** Whether the acknowledgement has arrived, [None] when the wait goes on.  The task runs
    when it enters the loop, when some acknowledgement is announced (and then goes round
    the loop if it is not its own), and when the time that remained has passed. *)
Definition wait_for_ack (wake : Wake) (seq deadline now : N) sw : option bool :=
  let is_pending := bool_decide (is_Some (sw_pending sw !! seq)) in
  match wake with
  | Entered => if decide (deadline ≤ now) then Some false else if is_pending then None else Some true
  | Notified => if is_pending then (if decide (deadline ≤ now) then Some false else None) else Some true
  | TimedOut => if decide (deadline ≤ now) then Some (negb is_pending) else None
  end.

Definition send_indirect_probes (target_id : NodeId) (target_addr : SocketAddr) (seq : N) sw
    : SwimProtocol * Sends :=
  let candidates := indirect_probe_candidates target_id (sw_members sw) in
  let relays := take INDIRECT_PROBE_COUNT candidates in
  if decide (relays = []) then (sw, []) else
  let sw := sw_set_pending (alter (λ pp, MkPendingProbe (pp_target pp) (pp_sent_at pp) true) seq (sw_pending sw)) sw in
  let ups := recent_updates MAX_PIGGYBACK_UPDATES (sw_members sw) in
  (sw, (λ relay, (mb_addr relay, GPingReq (ml_local_id (sw_members sw)) local_addr target_id target_addr seq ups))
         <$> relays).

Definition probe_end (seq : N) sw : SwimProtocol := sw_set_pending (delete seq (sw_pending sw)) sw.

(** After the first wait: the cycle ends, or goes on with indirect probes. *)
Definition probe_after_ping (acked : bool) (pr : Probe) sw : SwimProtocol * Sends * option Probe :=
  if acked then (probe_end (pr_seq pr) sw, [], None)
  else
    let '(sw, sends) := send_indirect_probes (pr_target pr) (pr_target_addr pr) (pr_seq pr) sw in
    (sw, sends, Some pr).

(** After the second wait; whether the target became suspect. *)
Definition probe_after_indirect (now : N) (acked : bool) (pr : Probe) sw : SwimProtocol * bool :=
  if acked then (probe_end (pr_seq pr) sw, false)
  else
    let '(ml, changed) := ml_mark_suspect now (pr_target pr) (sw_members sw) in
    (probe_end (pr_seq pr) (sw_set_members ml sw), changed).

Definition make_ack (seq : N) sw : GossipMessage :=
  GAck (ml_local_id (sw_members sw)) local_addr seq (recent_updates MAX_PIGGYBACK_UPDATES (sw_members sw)).

Definition on_members (f : MemberList → MemberList * bool) sw : SwimProtocol :=
  sw_set_members (f (sw_members sw)).1 sw.

Definition handle_message (now : N) (msg : GossipMessage) sw : SwimProtocol * Sends :=
  let sw := sw_set_members (apply_updates now (updates msg) (sw_members sw)) sw in
  match msg with
  | GPing _ from_addr seq _ => (sw, [(from_addr, make_ack seq sw)])
  | GPingReq _ _ _ target_addr seq _ =>
      (sw, [(target_addr, GPing (ml_local_id (sw_members sw)) local_addr seq
              (recent_updates MAX_PIGGYBACK_UPDATES (sw_members sw)))])
  | GAck _ _ seq _ => (sw_set_pending (delete seq (sw_pending sw)) sw, [])
  | GJoin node_id addr =>
      let sw := on_members (apply_update now (MkUpdate node_id addr MsAlive 0)) sw in
      (sw, [(addr, make_ack 0 sw)])
  | GAlive node_id addr inc => (on_members (apply_update now (MkUpdate node_id addr MsAlive inc)) sw, [])
  | GSuspect node_id addr inc => (on_members (apply_update now (MkUpdate node_id addr MsSuspect inc)) sw, [])
  | GDead node_id addr inc => (on_members (apply_update now (MkUpdate node_id addr MsDead inc)) sw, [])
  end.

Definition expired_suspects (now : N) sw : list NodeId :=
  mb_node_id <$> filter (λ m, mb_state m = MsSuspect ∧ sc_suspicion_timeout (sw_config sw) ≤ now - mb_state_change m)
                   (probe_targets (sw_members sw)).

Definition reap_suspects (now : N) sw : SwimProtocol :=
  foldl (λ sw n, on_members (ml_mark_dead now n) sw) sw (expired_suspects now sw).

Definition join_seeds (seeds : list SocketAddr) sw : Sends :=
  (λ seed, (seed, GJoin (ml_local_id (sw_members sw)) local_addr)) <$> filter (λ seed, seed ≠ local_addr) seeds.

End swim.

(** ** What a node believes of another *)

(** Incarnation and state priority, ordered lexicographically. *)
Definition Belief : Type := N * N.

Definition belief_le (a b : Belief) : Prop := a.1 < b.1 ∨ (a.1 = b.1 ∧ a.2 ≤ b.2).

Definition update_belief (u : MembershipUpdate) : Belief := (mu_incarnation u, state_priority (mu_state u)).

Definition belief (ml : MemberList) (n : NodeId) : option Belief :=
  (λ m, (mb_incarnation m, state_priority (mb_state m))) <$> ml_members ml !! n.

(** The larger of two beliefs. *)
Definition belief_join (o : option Belief) (b : Belief) : option Belief :=
  Some (match o with
        | Some a => if decide (a.1 < b.1 ∨ (a.1 = b.1 ∧ a.2 < b.2)) then b else a
        | None => b
        end).

Lemma belief_join_le o b a : belief_join o b = Some a → belief_le b a ∧ ∀ a0, o = Some a0 → belief_le a0 a.
Proof.
  unfold belief_join, belief_le. intros [= <-]. destruct o as [a0|].
  - case_decide; (split; [|intros ? [= <-]]); lia.
  - split; [lia|done].
Qed.

Lemma apply_update_local now u ml : ml_local_id (apply_update now u ml).1 = ml_local_id ml.
Proof. unfold apply_update, handle_local_update. repeat case_match; try done; by case_decide. Qed.

(** A report about another node is merged into what is believed of it. *)
Lemma apply_update_belief now u ml n :
  n ≠ ml_local_id ml →
  belief (apply_update now u ml).1 n =
    if decide (mu_node_id u = n) then belief_join (belief ml n) (update_belief u) else belief ml n.
Proof.
  intros Hn. unfold apply_update. destruct (decide (mu_node_id u = ml_local_id ml)) as [Hl|Hl].
  { rewrite decide_False by congruence. unfold handle_local_update. by destruct (mu_state u). }
  destruct (decide (mu_node_id u = n)) as [<-|Hne].
  - unfold belief, belief_join, update_belief. destruct (ml_members ml !! mu_node_id u) as [m|] eqn:Hm; simpl.
    + unfold should_override. destruct (decide (mb_incarnation m < mu_incarnation u)) as [Hlt|Hlt]; simpl.
      { rewrite lookup_insert_eq. simpl. by rewrite decide_True by lia. }
      destruct (decide (mu_incarnation u < mb_incarnation m)) as [Hgt|Hgt]; simpl.
      { rewrite Hm. simpl. by rewrite decide_False by lia. }
      case_bool_decide; simpl; rewrite ?lookup_insert_eq, ?Hm; simpl; [by rewrite decide_True by lia|].
      by rewrite decide_False by lia.
    + by rewrite lookup_insert_eq.
  - unfold belief. case_match; simpl; [done|]. by rewrite lookup_insert_ne.
Qed.

Lemma apply_updates_local now us ml : ml_local_id (apply_updates now us ml) = ml_local_id ml.
Proof.
  unfold apply_updates. revert ml. induction us as [|u us IH]; intros ml; simpl; [done|].
  by rewrite IH, apply_update_local.
Qed.

(** The greatest of the reports about [n] and what was believed before. *)
Lemma apply_updates_belief now us ml n :
  n ≠ ml_local_id ml →
  belief (apply_updates now us ml) n =
    foldl belief_join (belief ml n) (update_belief <$> filter (λ u, mu_node_id u = n) us).
Proof.
  unfold apply_updates. revert ml. induction us as [|u us IH]; intros ml Hn; simpl; [done|].
  rewrite IH by by rewrite apply_update_local. rewrite apply_update_belief by done. rewrite filter_cons.
  by case_decide.
Qed.

(** [a] is the greatest of [o] and the elements of [bs]. *)
Definition greatest (o : option Belief) (bs : list Belief) (a : option Belief) : Prop :=
  (∀ b, o = Some b ∨ b ∈ bs → ∃ c, a = Some c ∧ belief_le b c) ∧ (∀ c, a = Some c → o = Some c ∨ c ∈ bs).

#[export] Instance belief_le_preorder : PreOrder belief_le.
Proof. split; [intros a; unfold belief_le; lia|]. intros a b c. unfold belief_le. lia. Qed.

Lemma belief_le_antisymm a b : belief_le a b → belief_le b a → a = b.
Proof. destruct a, b. unfold belief_le. simpl. intros. f_equal; lia. Qed.

Lemma foldl_belief_join o bs : greatest o bs (foldl belief_join o bs).
Proof.
  revert o. induction bs as [|b bs IH]; intros o; simpl.
  { split; [|auto]. intros b [->|Hin%elem_of_nil]; [|done]. by exists b. }
  destruct (IH (belief_join o b)) as [Hle Hin]. destruct (belief_join o b) as [j|] eqn:Hj; [|done].
  destruct (belief_join_le _ _ _ Hj) as [Hb Ho]. split.
  - assert (∀ b', belief_le b' j → ∃ c, foldl belief_join (Some j) bs = Some c ∧ belief_le b' c) as Hj'.
    { intros b' Hb'. destruct (Hle j) as (c & -> & ?); [by left|]. exists c. split; [done|by etrans]. }
    intros b' [->|[->|?]%elem_of_cons]; [by apply Hj', Ho|by apply Hj'|apply Hle; by right].
  - intros c Hc. destruct (Hin c Hc) as [[= ->]|?]; [|set_solver].
    unfold belief_join in Hj. destruct o as [a|]; [case_decide|]; simplify_eq; set_solver.
Qed.

Lemma greatest_unique o bs bs' a a' :
  (∀ b, b ∈ bs ↔ b ∈ bs') → greatest o bs a → greatest o bs' a' → a = a'.
Proof.
  intros Heq [Hle Hin] [Hle' Hin']. destruct a as [c|], a' as [c'|]; [|..|done].
  - f_equal. apply belief_le_antisymm.
    + destruct (Hin c eq_refl) as [Ho|Hc]; [destruct (Hle' c) as (? & [= <-] & ?); [by left|done]|].
      destruct (Hle' c) as (? & [= <-] & ?); [right; by apply Heq|done].
    + destruct (Hin' c' eq_refl) as [Ho|Hc]; [destruct (Hle c') as (? & [= <-] & ?); [by left|done]|].
      destruct (Hle c') as (? & [= <-] & ?); [right; by apply Heq|done].
  - destruct (Hin c eq_refl) as [Ho|Hc]; destruct (Hle' c) as (? & [=] & _); [by left|right; by apply Heq].
  - destruct (Hin' c' eq_refl) as [Ho|Hc]; destruct (Hle c') as (? & [=] & _); [by left|right; by apply Heq].
Qed.

(** C33: Membership views converge: two nodes that believe the same of a third
    and receive the same reports, in any order, any number of times and at any time,
    again believe the same of it; what they believe is the greatest of what they
    believed and of the reports, by incarnation and then dead over suspect over
    alive. *)
Theorem views_converge now1 now2 us1 us2 ml1 ml2 n :
  n ≠ ml_local_id ml1 → n ≠ ml_local_id ml2 → belief ml1 n = belief ml2 n →
  (∀ u, mu_node_id u = n → u ∈ us1 ↔ u ∈ us2) →
  belief (apply_updates now1 us1 ml1) n = belief (apply_updates now2 us2 ml2) n ∧
  greatest (belief ml1 n) (update_belief <$> filter (λ u, mu_node_id u = n) us1)
    (belief (apply_updates now1 us1 ml1) n).
Proof.
  intros Hn1 Hn2 Heq Hus. rewrite !apply_updates_belief by done. rewrite <- Heq. split; [|apply foldl_belief_join].
  eapply greatest_unique; [|apply foldl_belief_join..]. intros b. rewrite !list_elem_of_fmap.
  setoid_rewrite list_elem_of_filter. naive_solver.
Qed.

(** ** Probing with an even number of targets *)

Lemma even_mod a b : N.even b = true → b ≠ 0 → N.even (a `mod` b) = N.even a.
Proof.
  intros Hb Hb0. rewrite (N.div_mod a b Hb0) at 2. rewrite N.even_add, N.even_mul, Hb. simpl.
  by destruct (N.even (a `mod` b)).
Qed.

Lemma even_u64_inc a : N.even (u64_add a 1) = negb (N.even a).
Proof. unfold u64_add. rewrite even_mod by done. rewrite N.even_add. by destruct (N.even a). Qed.

(** Each cycle takes two sequence numbers and picks its target by the first, so
    with an even number of targets, as in a cluster of three, only every other
    target is ever probed. *)
Theorem even_targets_half_probed `{!HashIter NodeId} addr now sw sw' sends pr :
  let targets := probe_targets (sw_members sw) in
  N.even (sw_seq sw) = true → N.even (N.of_nat (length targets)) = true →
  probe_begin addr now sw = (sw', sends, Some pr) →
  N.even (sw_seq sw') = true ∧
  ∃ i m, N.even (N.of_nat i) = false ∧ targets !! i = Some m ∧ pr_target pr = mb_node_id m.
Proof.
  intros targets Hseq Hlen. unfold probe_begin. case_decide as Hne; [done|]. fold targets in Hne |- *. simpl.
  destruct (targets !! _) as [m|] eqn:Hm; [|done]. intros [= <- <- <-]. simpl.
  rewrite !even_u64_inc, Hseq. split; [done|]. eexists _, m. split_and!; [|exact Hm|done].
  rewrite N2Nat.id, even_mod, even_u64_inc, Hseq; [done..|]. destruct targets; simpl; [done|lia].
Qed.

(** ** Witness *)

Module GossipViewDemo.

Definition here (i : N) : MemberList := MemberList_new 0 (NodeId_new i) (MkSocketAddr "10.0.0.1" i).

Definition rumour (st : MemberState) (inc : N) : MembershipUpdate :=
  MkUpdate (NodeId_new 9) (MkSocketAddr "10.0.0.1" 9) st inc.

End GossipViewDemo.
Import GossipViewDemo.

Lemma views_converge_witness :
  belief (apply_updates 5 [rumour MsSuspect 1; rumour MsAlive 2; rumour MsDead 1] (here 1)) (NodeId_new 9) =
  belief (apply_updates 8 [rumour MsDead 1; rumour MsSuspect 1; rumour MsSuspect 1; rumour MsAlive 2] (here 2))
    (NodeId_new 9).
Proof.
  apply (views_converge 5 8 [rumour MsSuspect 1; rumour MsAlive 2; rumour MsDead 1]
    [rumour MsDead 1; rumour MsSuspect 1; rumour MsSuspect 1; rumour MsAlive 2] (here 1) (here 2) (NodeId_new 9)).
  - discriminate.
  - discriminate.
  - reflexivity.
  - intros u _. rewrite !elem_of_cons. tauto.
Defined.
