(* ===== verification/GossipCluster.v ===== *)
(** * A cluster of gossiping nodes (crates/blockyard-gossip/src: swim.rs, service.rs)

    The nodes of [Gossip] over a network that loses, delays, repeats and reorders
    messages.  The receive, probe and reap loops of a node are events in any order,
    what a task does between two awaits being one event: a probe cycle sends, waits
    until its deadline, sends to relays and waits again, with other events between; a
    node may restart with an empty view.  What happens is recorded as labels: who probed
    whom, whose acknowledgement was handled, who suspected whom, and who declared whom
    dead. *)

From S2P Require Import Prelude Common MetadataCache Gossip.

#[local] Open Scope N_scope.

(** Where a probe cycle awaits: the sending of the ping, the first wait with its deadline,
    the sending to the relays, the second wait. *)
Inductive ProbePhase :=
  | NoProbe
  | Pinging (pr : Probe)
  | WaitAck (pr : Probe) (deadline : N)
  | Relaying (pr : Probe)
  | WaitIndirect (pr : Probe) (deadline : N).

Record GossipNode := MkGossipNode {
  gn_swim : SwimProtocol;
  gn_addr : SocketAddr;
  gn_seeds : list SocketAddr;
  gn_probe : ProbePhase;
}.

Record GossipCluster := MkGossipCluster {
  gc_nodes : gmap NodeId GossipNode;
  gc_net : list (SocketAddr * GossipMessage);
  gc_now : N;
}.

Inductive GossipLabel :=
  | LProbed (by_ target : NodeId) (seq at_ : N)
  | LAcked (by_ : NodeId) (seq at_ : N)
  | LSuspected (by_ target : NodeId) (at_ : N)
  | LDeclaredDead (by_ target : NodeId) (at_ : N).

Inductive GossipEvent :=
  | EvTick (d : N)
  | EvJoin (n : NodeId)
  | EvProbe (n : NodeId)
  | EvPinged (n : NodeId)
  | EvRelayed (n : NodeId)
  | EvWake (n : NodeId) (timed_out : bool)
  | EvReap (n : NodeId)
  | EvDeliver (n : NodeId) (i : nat)
  | EvRestart (n : NodeId).

(** [GossipService::new] *)
Definition GossipNode_new (now : N) (cfg : SwimConfig) (n : NodeId) (addr : SocketAddr) (seeds : list SocketAddr)
    : GossipNode :=
  MkGossipNode (SwimProtocol_new (MemberList_new now n addr) cfg) addr seeds NoProbe.

Definition set_node (g : GossipNode) (sw : SwimProtocol) (ph : ProbePhase) : GossipNode :=
  MkGossipNode sw (gn_addr g) (gn_seeds g) ph.

Definition acked_label (n : NodeId) (now : N) (msg : GossipMessage) : list GossipLabel :=
  match msg with GAck _ _ seq _ => [LAcked n seq now] | _ => [] end.

(** An event at a node: its new state, what it sends, what is recorded. *)
Definition at_node (n : NodeId) (s : GossipCluster)
    (f : GossipNode → option (GossipNode * list (SocketAddr * GossipMessage) * list GossipLabel))
    : option (GossipCluster * list GossipLabel) :=
  g ← gc_nodes s !! n;
  '(g, sends, ls) ← f g;
  Some (MkGossipCluster (<[n := g]> (gc_nodes s)) (gc_net s ++ sends) (gc_now s), ls).

Section events.
Context `{!HashIter NodeId}.

(** The first wait of a probe cycle, and what follows when it ends. *)
Definition first_wait (wake : Wake) (now deadline : N) (pr : Probe) (g : GossipNode)
    : GossipNode * list (SocketAddr * GossipMessage) * list GossipLabel :=
  match wait_for_ack wake (pr_seq pr) deadline now (gn_swim g) with
  | None => (set_node g (gn_swim g) (WaitAck pr deadline), [], [])
  | Some acked =>
      let '(sw, sends, pr) := probe_after_ping (gn_addr g) acked pr (gn_swim g) in
      (set_node g sw (match pr with Some pr => Relaying pr | None => NoProbe end), sends, [])
  end.

(** The second one. *)
Definition second_wait (n : NodeId) (wake : Wake) (now deadline : N) (pr : Probe) (g : GossipNode)
    : GossipNode * list (SocketAddr * GossipMessage) * list GossipLabel :=
  match wait_for_ack wake (pr_seq pr) deadline now (gn_swim g) with
  | None => (set_node g (gn_swim g) (WaitIndirect pr deadline), [], [])
  | Some acked =>
      let '(sw, suspected) := probe_after_indirect now acked pr (gn_swim g) in
      (set_node g sw NoProbe, [], if suspected : bool then [LSuspected n (pr_target pr) now] else [])
  end.

Definition gossip_do (ev : GossipEvent) (s : GossipCluster) : option (GossipCluster * list GossipLabel) :=
  let now := gc_now s in
  match ev with
  | EvTick d => Some (MkGossipCluster (gc_nodes s) (gc_net s) (now + d), [])
  | EvJoin n => at_node n s (λ g, Some (g, join_seeds (gn_addr g) (gn_seeds g) (gn_swim g), []))
  | EvProbe n => at_node n s (λ g,
      match gn_probe g with
      | NoProbe =>
          let '(sw, sends, pr) := probe_begin (gn_addr g) now (gn_swim g) in
          Some (set_node g sw (match pr with Some pr => Pinging pr | None => NoProbe end), sends,
                match pr with Some pr => [LProbed n (pr_target pr) (pr_seq pr) now] | None => [] end)
      | _ => None
      end)
  | EvPinged n => at_node n s (λ g,
      match gn_probe g with
      | Pinging pr => Some (first_wait Entered now (now + sc_probe_timeout (sw_config (gn_swim g))) pr g)
      | _ => None
      end)
  | EvRelayed n => at_node n s (λ g,
      match gn_probe g with
      | Relaying pr => Some (second_wait n Entered now (now + sc_probe_timeout (sw_config (gn_swim g))) pr g)
      | _ => None
      end)
  | EvWake n timed_out => at_node n s (λ g,
      let wake := if timed_out : bool then TimedOut else Notified in
      match gn_probe g with
      | WaitAck pr deadline => Some (first_wait wake now deadline pr g)
      | WaitIndirect pr deadline => Some (second_wait n wake now deadline pr g)
      | _ => None
      end)
  | EvReap n => at_node n s (λ g,
      Some (set_node g (reap_suspects now (gn_swim g)) (gn_probe g), [],
            (λ b, LDeclaredDead n b now) <$> expired_suspects now (gn_swim g)))
  | EvDeliver n i => at_node n s (λ g,
      '(addr, msg) ← gc_net s !! i;
      if decide (addr = gn_addr g) then
        let '(sw, sends) := handle_message (gn_addr g) now msg (gn_swim g) in
        Some (set_node g sw (gn_probe g), sends, acked_label n now msg)
      else None)
  | EvRestart n => at_node n s (λ g,
      Some (GossipNode_new now (sw_config (gn_swim g)) n (gn_addr g) (gn_seeds g), [], []))
  end.

(** A run of events, with what it recorded. *)
Fixpoint gossip_run (evs : list GossipEvent) (s : GossipCluster) : option (GossipCluster * list GossipLabel) :=
  match evs with
  | [] => Some (s, [])
  | ev :: evs => '(s, ls) ← gossip_do ev s; '(s, ls') ← gossip_run evs s; Some (s, ls ++ ls')
  end.

End events.

(** Every node is fresh, and nothing was sent. *)
Definition initial (cfg : SwimConfig) (s : GossipCluster) : Prop :=
  gc_net s = [] ∧
  map_Forall (λ n g, ∃ addr seeds, g = GossipNode_new (gc_now s) cfg n addr seeds) (gc_nodes s).

(** ** The invariant *)

Definition suspected_by (tr : list GossipLabel) (b : NodeId) (now : N) : Prop :=
  ∃ c t, LSuspected c b t ∈ tr ∧ t ≤ now.

Definition dead_after (timeout : N) (tr : list GossipLabel) (b : NodeId) : Prop :=
  ∃ c t c' t', LSuspected c b t ∈ tr ∧ LDeclaredDead c' b t' ∈ tr ∧ t + timeout ≤ t'.

(** The node that [b] was suspected by, at [t], had pinged it at least twice the timeout
    before, and handled no acknowledgement of that ping in between. *)
Definition unanswered (timeout : N) (tr : list GossipLabel) (c b : NodeId) (t : N) : Prop :=
  ∃ l1 q t0 l2 l3, tr = l1 ++ LProbed c b q t0 :: l2 ++ LSuspected c b t :: l3 ∧
    (∀ t', LAcked c q t' ∉ l2) ∧ t0 + 2 * timeout ≤ t.

Section invariant.
Context `{!HashIter NodeId} (cfg : SwimConfig).
Implicit Types (tr : list GossipLabel) (now : N) (ml : MemberList).

(** A report has a cause in the trace; the incarnation is 0. *)
Record report_ok tr now (u : MembershipUpdate) : Prop := {
  rep_incarnation : mu_incarnation u = 0;
  rep_suspected : mu_state u ≠ MsAlive → suspected_by tr (mu_node_id u) now;
  rep_dead : mu_state u = MsDead → dead_after (sc_suspicion_timeout cfg) tr (mu_node_id u);
}.

Record members_ok tr now n ml : Prop := {
  mo_local : ml_local_id ml = n;
  mo_keys : ∀ k m, ml_members ml !! k = Some m → mb_node_id m = k;
  mo_reports : ∀ k m, ml_members ml !! k = Some m →
    mb_state_change m ≤ now ∧ report_ok tr (mb_state_change m) (to_update m);
  mo_self : ∀ m, ml_members ml !! n = Some m → mb_state m = MsAlive;
}.

Definition message_ok tr now (msg : GossipMessage) : Prop :=
  Forall (report_ok tr now) (updates msg) ∧
  match msg with GAlive _ _ _ | GSuspect _ _ _ | GDead _ _ _ => False | _ => True end.

Definition sends_ok tr now (sends : list (SocketAddr * GossipMessage)) : Prop :=
  Forall (λ am, message_ok tr now am.2) sends.

Definition phase_ok (n : NodeId) (ph : ProbePhase) : Prop :=
  match ph with
  | NoProbe => True
  | Pinging pr | WaitAck pr _ | Relaying pr | WaitIndirect pr _ => pr_target pr ≠ n
  end.

Record node_ok tr now n (g : GossipNode) : Prop := {
  no_members : members_ok tr now n (sw_members (gn_swim g));
  no_phase : phase_ok n (gn_probe g);
  no_config : sw_config (gn_swim g) = cfg;
}.

Definition cluster_ok tr (s : GossipCluster) : Prop :=
  map_Forall (node_ok tr (gc_now s)) (gc_nodes s) ∧ sends_ok tr (gc_now s) (gc_net s).

(** *** More events, later *)

Lemma report_ok_mono tr tr' now now' u :
  tr ⊆ tr' → now ≤ now' → report_ok tr now u → report_ok tr' now' u.
Proof.
  intros Htr Hnow [Hi Hs Hd]. split; [done|..].
  - intros (c & t & ? & ?)%Hs. exists c, t. split; [by apply Htr|lia].
  - intros (c & t & c' & t' & ? & ? & ?)%Hd. exists c, t, c', t'. split_and!; [by apply Htr..|done].
Qed.

Lemma members_ok_mono tr tr' now now' n ml :
  tr ⊆ tr' → now ≤ now' → members_ok tr now n ml → members_ok tr' now' n ml.
Proof.
  intros Htr Hnow [Hl Hk Hr Hs]. split; [done..| |done]. intros k m Hm. destruct (Hr k m Hm) as [? ?].
  split; [lia|by eapply report_ok_mono].
Qed.

Lemma members_ok_app tr ls now n ml : members_ok tr now n ml → members_ok (tr ++ ls) now n ml.
Proof. apply members_ok_mono; [set_solver|done]. Qed.

Lemma sends_ok_mono tr tr' now now' sends :
  tr ⊆ tr' → now ≤ now' → sends_ok tr now sends → sends_ok tr' now' sends.
Proof.
  intros Htr Hnow Hs. eapply Forall_impl; [exact Hs|]. intros [addr msg] [Hu ?]. split; [|done].
  eapply Forall_impl; [exact Hu|]. intros u. by apply report_ok_mono.
Qed.

Lemma node_ok_mono tr tr' now now' n g : tr ⊆ tr' → now ≤ now' → node_ok tr now n g → node_ok tr' now' n g.
Proof. intros ? ? []. split; [by eapply members_ok_mono|done..]. Qed.

(** *** The member list *)

Lemma members_ok_insert tr now n ml k m :
  members_ok tr now n ml → k ≠ n → mb_node_id m = k → mb_state_change m ≤ now →
  report_ok tr (mb_state_change m) (to_update m) → members_ok tr now n (set_members (<[k := m]> (ml_members ml)) ml).
Proof.
  intros [Hl Hk Hr Hs] Hne Hid Hc Hrep. split; [done|..]; simpl.
  - intros k' m' [[<- <-]|[_ ?]]%lookup_insert_Some; [done|by apply Hk].
  - intros k' m' [[<- <-]|[_ ?]]%lookup_insert_Some; [done|by apply (Hr k')].
  - intros m'. rewrite lookup_insert_ne by done. apply Hs.
Qed.

Lemma apply_update_ok tr now n u ml :
  members_ok tr now n ml → report_ok tr now u → members_ok tr now n (apply_update now u ml).1.
Proof.
  intros Hml Hu. pose proof (mo_local _ _ _ _ Hml) as Hl. unfold apply_update. case_decide as Hloc.
  - unfold handle_local_update. by destruct (mu_state u), Hml.
  - case_match; [done|]. simpl. apply members_ok_insert; [done|congruence|done|done|]. by destruct u.
Qed.

Lemma apply_updates_ok tr now n us ml :
  members_ok tr now n ml → Forall (report_ok tr now) us → members_ok tr now n (apply_updates now us ml).
Proof.
  unfold apply_updates. intros Hml Hus. revert ml Hml. induction Hus as [|u us Hu Hus IH]; intros ml Hml; [done|].
  simpl. by apply IH, apply_update_ok.
Qed.

Lemma elem_of_all_members m ml : m ∈ all_members ml ↔ ∃ k, ml_members ml !! k = Some m.
Proof.
  unfold all_members. rewrite list_elem_of_omap. setoid_rewrite hash_keys_perm.
  setoid_rewrite list_elem_of_fmap. split; [naive_solver|]. intros [k Hk]. exists k. split; [|done].
  exists (k, m). by rewrite elem_of_map_to_list.
Qed.

Lemma recent_updates_ok tr now n max ml : members_ok tr now n ml → Forall (report_ok tr now) (recent_updates max ml).
Proof.
  intros Hml. unfold recent_updates. apply Forall_take, Forall_forall. intros u. rewrite sort_by_perm.
  intros (m & -> & [k Hk]%elem_of_all_members)%list_elem_of_fmap.
  destruct (mo_reports _ _ _ _ Hml _ _ Hk). by eapply report_ok_mono.
Qed.

Lemma probe_targets_ok tr now n ml m :
  members_ok tr now n ml → m ∈ probe_targets ml → mb_node_id m ≠ n ∧ ml_members ml !! mb_node_id m = Some m.
Proof.
  intros Hml [[? ?] [k Hk]%elem_of_all_members]%list_elem_of_filter.
  rewrite (mo_keys _ _ _ _ Hml _ _ Hk), <- (mo_local _ _ _ _ Hml). split; [|done].
  by rewrite <- (mo_keys _ _ _ _ Hml _ _ Hk).
Qed.

(** *** The protocol *)

Lemma probe_begin_ok tr now n addr sw sw' sends pr :
  members_ok tr now n (sw_members sw) → probe_begin addr now sw = (sw', sends, pr) →
  sw_members sw' = sw_members sw ∧ sw_config sw' = sw_config sw ∧ sends_ok tr now sends ∧
  ∀ pr', pr = Some pr' → pr_target pr' ≠ n.
Proof.
  intros Hml. unfold probe_begin. case_decide; [intros [= <- <- <-]; split_and!; [done..|by constructor|done]|].
  simpl. destruct (probe_targets (sw_members sw) !! _) as [m|] eqn:Hm.
  2:{ intros [= <- <- <-]. split_and!; [done..|by constructor|done]. }
  intros [= <- <- <-]. split_and!; [done..| |].
  - apply Forall_singleton. split; [|done]. by eapply recent_updates_ok.
  - intros pr' [= <-]. by eapply (probe_targets_ok tr now n), list_elem_of_lookup_2.
Qed.

Lemma probe_after_ping_ok tr now n addr acked pr sw sw' sends pr' :
  members_ok tr now n (sw_members sw) → probe_after_ping addr acked pr sw = (sw', sends, pr') →
  sw_members sw' = sw_members sw ∧ sw_config sw' = sw_config sw ∧ sends_ok tr now sends ∧
  (pr' = None ∨ pr' = Some pr).
Proof.
  intros Hml. unfold probe_after_ping, send_indirect_probes.
  destruct acked; [intros [= <- <- <-]; split_and!; [done..|by constructor|by left]|].
  case_decide; intros [= <- <- <-]; (split_and!; [done..| |by right]); [by constructor|].
  apply Forall_fmap, Forall_true. intros relay. split; [|done]. by eapply recent_updates_ok.
Qed.

Lemma mark_suspect_ok tr now n b ml ml' changed :
  members_ok tr now n ml → b ≠ n → ml_mark_suspect now b ml = (ml', changed) →
  members_ok (tr ++ if changed then [LSuspected n b now] else []) now n ml'.
Proof.
  intros Hml Hne. unfold ml_mark_suspect.
  destruct (ml_members ml !! b) as [m|] eqn:Hm; [|intros [= <- <-]; by rewrite app_nil_r].
  case_decide as Hal; [|intros [= <- <-]; by rewrite app_nil_r]. intros [= <- <-].
  destruct (mo_reports _ _ _ _ Hml _ _ Hm) as [? [Hi _ _]]. apply members_ok_insert; simpl; [|done| |done|].
  - by apply members_ok_app.
  - by eapply mo_keys.
  - split; simpl; [done| |done]. intros _. exists n, now. split; [|done].
    rewrite (mo_keys _ _ _ _ Hml _ _ Hm). set_solver.
Qed.

Lemma mark_dead_ok tr now n b ml :
  members_ok tr now n ml → b ≠ n → suspected_by tr b now → dead_after (sc_suspicion_timeout cfg) tr b →
  members_ok tr now n (ml_mark_dead now b ml).1.
Proof.
  intros Hml Hne Hs Hd. unfold ml_mark_dead. destruct (ml_members ml !! b) as [m|] eqn:Hm; [|done].
  case_decide; [|done]. simpl. pose proof (mo_keys _ _ _ _ Hml _ _ Hm) as Hid.
  destruct (mo_reports _ _ _ _ Hml _ _ Hm) as [? [Hi _ _]].
  apply members_ok_insert; simpl; [done..|]. by split; simpl; rewrite ?Hid.
Qed.

Lemma mark_all_dead_ok tr now n bs sw :
  members_ok tr now n (sw_members sw) → sw_config sw = cfg →
  Forall (λ b, b ≠ n ∧ suspected_by tr b now ∧ dead_after (sc_suspicion_timeout cfg) tr b) bs →
  let sw' := foldl (λ sw b, on_members (ml_mark_dead now b) sw) sw bs in
  members_ok tr now n (sw_members sw') ∧ sw_config sw' = cfg.
Proof.
  intros Hml Hcfg Hall. revert sw Hml Hcfg. induction Hall as [|b bs (? & ? & ?) Hall IH]; intros sw Hml Hcfg; [done|].
  simpl. apply IH; [|done]. simpl. by apply mark_dead_ok.
Qed.

Lemma reap_suspects_ok tr now n sw :
  sw_config sw = cfg → members_ok tr now n (sw_members sw) →
  let ls := (λ b, LDeclaredDead n b now) <$> expired_suspects now sw in
  members_ok (tr ++ ls) now n (sw_members (reap_suspects now sw)) ∧ sw_config (reap_suspects now sw) = cfg.
Proof.
  intros Hcfg Hml ls.
  assert (Forall (λ b, b ≠ n ∧ suspected_by (tr ++ ls) b now ∧ dead_after (sc_suspicion_timeout cfg) (tr ++ ls) b)
    (expired_suspects now sw)) as Hall.
  { apply Forall_forall. intros b Hb. pose proof Hb as (m & -> & Hm)%list_elem_of_fmap.
    apply list_elem_of_filter in Hm as [[Hst Hexp] Hm]. destruct (probe_targets_ok _ _ _ _ _ Hml Hm) as [Hne Hlk].
    destruct (mo_reports _ _ _ _ Hml _ _ Hlk) as [Hle [_ Hsus _]].
    destruct Hsus as (c & t & Hin & Ht); [simpl; congruence|]. simpl in Hin. split_and!; [done|..].
    - exists c, t. split; [set_solver|lia].
    - exists c, t, n, now. rewrite Hcfg in Hexp. split_and!; [set_solver| |lia].
      apply elem_of_app. right. by apply (list_elem_of_fmap_2 (λ b, LDeclaredDead n b now)). }
  by apply mark_all_dead_ok; [apply members_ok_app|..].
Qed.

Lemma first_wait_ok tr now n wake deadline pr g g' sends ls :
  node_ok tr now n g → pr_target pr ≠ n → first_wait wake now deadline pr g = (g', sends, ls) →
  node_ok (tr ++ ls) now n g' ∧ sends_ok (tr ++ ls) now sends ∧ sw_members (gn_swim g') = sw_members (gn_swim g).
Proof.
  intros [Hml Hph Hcfg] Hpr. unfold first_wait. destruct (wait_for_ack _ _ _ _ _) as [acked|].
  2: { intros [= <- <- <-]. rewrite app_nil_r. by split_and!; [|constructor|]. }
  destruct (probe_after_ping _ _ _ _) as [[sw sends'] pr'] eqn:Hp. intros [= <- <- <-]. rewrite app_nil_r.
  destruct (probe_after_ping_ok _ _ _ _ _ _ _ _ _ _ Hml Hp) as (Hm & Hc & ? & Hpr').
  split_and!; [|done|done]. split; simpl; [by rewrite Hm| |congruence]. by destruct Hpr' as [->| ->].
Qed.

Lemma second_wait_ok tr now n wake deadline pr g g' sends ls :
  node_ok tr now n g → pr_target pr ≠ n → second_wait n wake now deadline pr g = (g', sends, ls) →
  node_ok (tr ++ ls) now n g' ∧ sends_ok (tr ++ ls) now sends.
Proof.
  intros [Hml Hph Hcfg] Hpr. unfold second_wait, probe_after_indirect.
  destruct (wait_for_ack _ _ _ _ _) as [[]|]; [|destruct (ml_mark_suspect _ _ _) as [ml changed] eqn:Hms|];
    intros [= <- <- <-]; rewrite ?app_nil_r; (split; [|by constructor]); [by split..| |by split].
  split; simpl; [|done..]. by eapply mark_suspect_ok.
Qed.

Lemma handle_message_ok tr now n addr msg sw sw' sends :
  members_ok tr now n (sw_members sw) → message_ok tr now msg → handle_message addr now msg sw = (sw', sends) →
  members_ok tr now n (sw_members sw') ∧ sw_config sw' = sw_config sw ∧ sends_ok tr now sends.
Proof.
  intros Hml [Hus Hkind] Hrun.
  assert (members_ok tr now n (apply_updates now (updates msg) (sw_members sw))) as Hml1 by by apply apply_updates_ok.
  destruct msg as [f fa q us|f fa t ta q us|f fa q us|j ja| | |]; try done; simpl in Hrun; injection Hrun as <- <-; simpl.
  - split_and!; [done..|]. apply Forall_singleton. split; [|done]. by eapply recent_updates_ok.
  - split_and!; [done..|]. apply Forall_singleton. split; [|done]. by eapply recent_updates_ok.
  - split_and!; [done..|]. by constructor.
  - assert (members_ok tr now n (apply_update now (MkUpdate j ja MsAlive 0) (sw_members sw)).1) as Hml2
      by (by apply apply_update_ok).
    split_and!; [done..|]. apply Forall_singleton. split; [|done]. by eapply recent_updates_ok.
Qed.

(** *** Events *)

Lemma at_node_Some n s f s' ls :
  at_node n s f = Some (s', ls) →
  ∃ g g' sends, gc_nodes s !! n = Some g ∧ f g = Some (g', sends, ls) ∧
    s' = MkGossipCluster (<[n := g']> (gc_nodes s)) (gc_net s ++ sends) (gc_now s).
Proof.
  unfold at_node. destruct (gc_nodes s !! n) as [g|]; [simpl|done].
  destruct (f g) as [[[g' sends] ls']|] eqn:Hf; [simpl|done]. intros [= <- <-]. by exists g, g', sends.
Qed.

Lemma at_node_ok tr n s f s' ls :
  cluster_ok tr s → at_node n s f = Some (s', ls) →
  (∀ g g' sends, node_ok tr (gc_now s) n g → f g = Some (g', sends, ls) →
     node_ok (tr ++ ls) (gc_now s) n g' ∧ sends_ok (tr ++ ls) (gc_now s) sends) →
  cluster_ok (tr ++ ls) s'.
Proof.
  intros [Hn Hs] (g & g' & sends & Hg & Hf & ->)%at_node_Some Hstep.
  destruct (Hstep g g' sends (Hn _ _ Hg) Hf) as [Hg' Hs']. split; simpl.
  - apply map_Forall_insert_2; [done|]. intros n' g1 Hg1. eapply node_ok_mono; [|done|by apply Hn]. set_solver.
  - apply Forall_app. split; [|done]. eapply sends_ok_mono; [|done|done]. set_solver.
Qed.

Lemma node_ok_new tr now n addr seeds : node_ok tr now n (GossipNode_new now cfg n addr seeds).
Proof.
  split; [|done..]. simpl. split; [done|..]; simpl.
  - by intros k m [<- <-]%lookup_singleton_Some.
  - intros k m [<- <-]%lookup_singleton_Some. split; [done|]. by split.
  - intros m. rewrite lookup_singleton_eq. by intros [= <-].
Qed.

Lemma gossip_do_ok tr ev s s' ls : cluster_ok tr s → gossip_do ev s = Some (s', ls) → cluster_ok (tr ++ ls) s'.
Proof.
  intros Hok. destruct ev as [d|n|n|n|n|n timed_out|n|n i|n]; simpl.
  1:{ intros [= <- <-]. rewrite app_nil_r. destruct Hok as [Hn Hs]. split; simpl.
    - intros n g Hg. eapply node_ok_mono; [done| |by apply Hn]. lia.
    - eapply sends_ok_mono; [done| |done]. lia. }
  all: intros Hdo; eapply at_node_ok; [done|exact Hdo|]; intros g g' sends Hg Hf; clear Hdo; cbn beta in Hf;
    pose proof Hg as [Hml Hph Hcfg].
  - injection Hf as <- <- <-. rewrite app_nil_r. split; [done|].
    apply Forall_fmap, Forall_true. intros addr. by split; [constructor|].
  - destruct (gn_probe g); try done. destruct (probe_begin _ _ _) as [[sw sends'] pr] eqn:Hp. injection Hf as <- <- <-.
    apply (members_ok_app _ (match pr with Some pr => [LProbed n (pr_target pr) (pr_seq pr) (gc_now s)] | None => [] end)) in Hml.
    destruct (probe_begin_ok _ _ _ _ _ _ _ _ Hml Hp) as (Hm & Hc & ? & Hpr).
    split; [|done]. split; simpl; [by rewrite Hm| |congruence]. destruct pr; [by apply Hpr|done].
  - destruct (gn_probe g) as [|pr| | |] eqn:Hp; try done. injection Hf as Hf. by eapply first_wait_ok in Hf as (? & ? & _).
  - destruct (gn_probe g) as [| | |pr|] eqn:Hp; try done. injection Hf as Hf. by eapply second_wait_ok.
  - destruct (gn_probe g) as [| |pr dl| |pr dl] eqn:Hp; try done; injection Hf as Hf;
      [by eapply first_wait_ok in Hf as (? & ? & _)|by eapply second_wait_ok].
  - injection Hf as <- <- <-. destruct (reap_suspects_ok tr (gc_now s) n (gn_swim g) Hcfg Hml).
    by split; [|constructor].
  - destruct (gc_net s !! i) as [[addr msg]|] eqn:Hi; [simpl in Hf|done]. case_decide; [|done].
    destruct (handle_message _ _ _ _) as [sw sends'] eqn:Hm. injection Hf as <- <- <-.
    destruct Hok as [_ Hs]. apply (sends_ok_mono _ (tr ++ acked_label n (gc_now s) msg) _ (gc_now s)) in Hs; [|set_solver|done].
    pose proof (proj1 (Forall_lookup _ _) Hs _ _ Hi) as Hmsg.
    apply (members_ok_app _ (acked_label n (gc_now s) msg)) in Hml.
    destruct (handle_message_ok _ _ _ _ _ _ _ _ Hml Hmsg Hm) as (? & ? & ?).
    split; [|done]. split; simpl; [done..|congruence].
  - injection Hf as <- <- <-. rewrite Hcfg. split; [apply node_ok_new|by constructor].
Qed.

Lemma gossip_run_ok tr evs s s' ls : cluster_ok tr s → gossip_run evs s = Some (s', ls) → cluster_ok (tr ++ ls) s'.
Proof.
  revert tr s ls. induction evs as [|ev evs IH]; intros tr s ls Hok; simpl; [intros [= <- <-]; by rewrite app_nil_r|].
  destruct (gossip_do ev s) as [[s1 ls1]|] eqn:Hdo; [simpl|done].
  destruct (gossip_run evs s1) as [[s2 ls2]|] eqn:Hrun; [simpl|done]. intros [= <- <-].
  rewrite app_assoc. eapply IH; [|done]. by eapply gossip_do_ok.
Qed.

Lemma initial_ok s : initial cfg s → cluster_ok [] s.
Proof.
  intros [Hnet Hn]. split; [|rewrite Hnet; by constructor].
  intros n g (addr & seeds & ->)%Hn. apply node_ok_new.
Qed.

(** *** Probes and their acknowledgements *)

#[local] Abbreviation timeout := (sc_probe_timeout cfg).

Definition actor (l : GossipLabel) : NodeId :=
  match l with LProbed c _ _ _ | LAcked c _ _ | LSuspected c _ _ | LDeclaredDead c _ _ => c end.

(** The probe is in the trace, since at least [d] before [bound], and as long as it is
    pending nobody answered it. *)
Definition awaiting tr n (sw : SwimProtocol) (pr : Probe) (d bound : N) : Prop :=
  ∃ l1 t0 l2, tr = l1 ++ LProbed n (pr_target pr) (pr_seq pr) t0 :: l2 ∧
    (is_Some (sw_pending sw !! pr_seq pr) → ∀ t', LAcked n (pr_seq pr) t' ∉ l2) ∧ t0 + d ≤ bound.

Definition probing tr now n (g : GossipNode) : Prop :=
  match gn_probe g with
  | NoProbe => True
  | Pinging pr => awaiting tr n (gn_swim g) pr 0 now
  | WaitAck pr deadline => awaiting tr n (gn_swim g) pr timeout deadline
  | Relaying pr => awaiting tr n (gn_swim g) pr timeout now
  | WaitIndirect pr deadline => awaiting tr n (gn_swim g) pr (timeout + timeout) deadline
  end.

(** No probe becomes pending again, and those that stay are not answered in [ls]. *)
Definition still_pending n (sw sw' : SwimProtocol) (ls : list GossipLabel) : Prop :=
  ∀ q, is_Some (sw_pending sw' !! q) → is_Some (sw_pending sw !! q) ∧ ∀ t, LAcked n q t ∉ ls.

Lemma awaiting_step tr ls n sw sw' pr d bound bound' :
  awaiting tr n sw pr d bound → still_pending n sw sw' ls → bound ≤ bound' → awaiting (tr ++ ls) n sw' pr d bound'.
Proof.
  intros (l1 & t0 & l2 & -> & Hack & Ht) Hp Hle. exists l1, t0, (l2 ++ ls). split_and!; [|intros Hs t'|lia].
  - by rewrite <- (assoc_L (++)).
  - destruct (Hp _ Hs) as [Hs' Hno]. apply not_elem_of_app. split; [by apply Hack|apply Hno].
Qed.

Lemma awaiting_later tr n sw pr d bound k : awaiting tr n sw pr d bound → awaiting tr n sw pr (d + k) (bound + k).
Proof. intros (l1 & t0 & l2 & -> & Hack & Ht). exists l1, t0, l2. split_and!; [done..|lia]. Qed.

Lemma still_pending_same n sw sw' ls :
  sw_pending sw' = sw_pending sw → Forall (λ l, ∀ q t, l ≠ LAcked n q t) ls → still_pending n sw sw' ls.
Proof. intros Hpend Hls q Hq. rewrite Hpend in Hq. split; [done|]. intros t Hin. rewrite Forall_forall in Hls. by apply (Hls _ Hin q t). Qed.

Lemma probing_step tr ls now now' n g sw' :
  probing tr now n g → still_pending n (gn_swim g) sw' ls → now ≤ now' →
  probing (tr ++ ls) now' n (set_node g sw' (gn_probe g)).
Proof.
  unfold probing. simpl. intros Hp Hs Hle. destruct (gn_probe g); [done|..]; by eapply awaiting_step.
Qed.

Lemma probing_other tr ls now now' n g :
  probing tr now n g → Forall (λ l, actor l ≠ n) ls → now ≤ now' → probing (tr ++ ls) now' n g.
Proof.
  intros Hp Hls Hle. destruct g as [sw addr seeds ph]. apply (probing_step tr ls now now' n (MkGossipNode sw addr seeds ph) sw);
    [done| |done]. apply still_pending_same; [done|]. eapply Forall_impl; [exact Hls|]. by intros ? Hne ? ? ->.
Qed.

Lemma handle_message_pending n addr now msg sw sw' sends :
  handle_message addr now msg sw = (sw', sends) → still_pending n sw sw' (acked_label n now msg).
Proof.
  intros Hm q Hq. destruct msg; simpl in Hm; injection Hm as <- <-; simpl in *;
    try (split; [done|]; intros t; apply not_elem_of_nil).
  rewrite lookup_delete_is_Some in Hq. destruct Hq as [Hne Hq]. split; [done|].
  intros t [= ->]%list_elem_of_singleton. done.
Qed.

Lemma reap_suspects_pending now sw : sw_pending (reap_suspects now sw) = sw_pending sw.
Proof.
  unfold reap_suspects. generalize (expired_suspects now sw). intros bs. revert sw.
  induction bs as [|b bs IH]; intros sw; simpl; [done|]. by rewrite IH.
Qed.

(** A wait that starts before its deadline fails only after it, with the probe pending. *)
Lemma wait_for_ack_fails wake seq deadline now sw :
  (wake = Entered → now < deadline) → wait_for_ack wake seq deadline now sw = Some false →
  deadline ≤ now ∧ is_Some (sw_pending sw !! seq).
Proof.
  intros Hw. unfold wait_for_ack. destruct wake; repeat case_decide; try done.
  - specialize (Hw eq_refl). lia.
  - by case_bool_decide.
  - by case_bool_decide.
  - by case_bool_decide.
  - by case_bool_decide.
Qed.

Lemma first_wait_probing tr now n wake deadline pr g g' sends ls :
  awaiting tr n (gn_swim g) pr timeout deadline → (wake = Entered → now < deadline) →
  first_wait wake now deadline pr g = (g', sends, ls) → ls = [] ∧ probing tr now n g'.
Proof.
  intros Haw Hw. unfold first_wait. destruct (wait_for_ack _ _ _ _ _) as [[]|] eqn:Hwait; simpl.
  - by intros [= <- <- <-].
  - apply wait_for_ack_fails in Hwait as [Hle _]; [|done].
    assert (∀ sw', still_pending n (gn_swim g) sw' [] → awaiting tr n sw' pr timeout now) as Hstep.
    { intros sw' Hs. rewrite <- (app_nil_r tr). by eapply awaiting_step. }
    unfold send_indirect_probes. destruct (decide _); intros [= <- <- <-]; (split; [done|]); apply Hstep.
    + by apply still_pending_same; [|constructor].
    + intros q. simpl. rewrite lookup_alter_is_Some. intros Hq. split; [done|]. intros t. apply not_elem_of_nil.
  - by intros [= <- <- <-].
Qed.

Lemma second_wait_probing tr now n wake deadline pr g g' sends ls :
  awaiting tr n (gn_swim g) pr (timeout + timeout) deadline → (wake = Entered → now < deadline) →
  second_wait n wake now deadline pr g = (g', sends, ls) →
  probing (tr ++ ls) now n g' ∧ Forall (λ l, actor l = n) ls ∧
  ∀ c b t, LSuspected c b t ∈ ls → unanswered timeout (tr ++ ls) c b t.
Proof.
  intros Haw Hw. unfold second_wait, probe_after_indirect. destruct (wait_for_ack _ _ _ _ _) as [[]|] eqn:Hwait; simpl.
  - intros [= <- <- <-]. split_and!; [done|by constructor|]. by intros ? ? ? ?%elem_of_nil.
  - apply wait_for_ack_fails in Hwait as [Hle Hpend]; [|done]. destruct (ml_mark_suspect _ _ _) as [ml []];
      intros [= <- <- <-]; (split; [done|]); (split; [by repeat constructor|]); intros c b t; [|by intros ?%elem_of_nil].
    intros [= -> -> ->]%list_elem_of_singleton. destruct Haw as (l1 & t0 & l2 & -> & Hack & Ht).
    exists l1, (pr_seq pr), t0, l2, []. split_and!; [by rewrite <- (assoc_L (++))|by apply Hack|lia].
  - intros [= <- <- <-]. rewrite app_nil_r. split_and!; [done|by constructor|]. by intros ? ? ? ?%elem_of_nil.
Qed.

Record probes_ok tr (s : GossipCluster) : Prop := {
  po_probing : map_Forall (probing tr (gc_now s)) (gc_nodes s);
  po_suspected : ∀ c b t, LSuspected c b t ∈ tr → unanswered timeout tr c b t;
}.

Lemma unanswered_app tr ls c b t : unanswered timeout tr c b t → unanswered timeout (tr ++ ls) c b t.
Proof.
  intros (l1 & q & t0 & l2 & l3 & -> & ? & ?). exists l1, q, t0, l2, (l3 ++ ls). split; [|done].
  rewrite <- (assoc_L (++)). simpl. by rewrite <- (assoc_L (++)).
Qed.

Lemma at_node_probes tr n s f s' ls :
  probes_ok tr s → at_node n s f = Some (s', ls) →
  (∀ g g' sends, gc_nodes s !! n = Some g → probing tr (gc_now s) n g → f g = Some (g', sends, ls) →
     probing (tr ++ ls) (gc_now s) n g' ∧ Forall (λ l, actor l = n) ls ∧
     ∀ c b t, LSuspected c b t ∈ ls → unanswered timeout (tr ++ ls) c b t) →
  probes_ok (tr ++ ls) s'.
Proof.
  intros [Hp Hs] (g & g' & sends & Hg & Hf & ->)%at_node_Some Hstep.
  destruct (Hstep g g' sends Hg (Hp _ _ Hg) Hf) as (Hg' & Hactor & Hsus). split; simpl.
  - intros n' g1 [[<- <-]|[Hne Hg1]]%lookup_insert_Some; [done|]. eapply probing_other; [by apply Hp| |done].
    eapply Forall_impl; [exact Hactor|]. by intros l ->.
  - intros c b t [Hin|Hin]%elem_of_app; [by apply unanswered_app, Hs|by apply Hsus].
Qed.

(** Labels that record no suspicion. *)
Lemma quiet_labels tr ls :
  Forall (λ l, match l with LSuspected _ _ _ => False | _ => True end) ls →
  ∀ c b t, LSuspected c b t ∈ ls → unanswered timeout (tr ++ ls) c b t.
Proof. rewrite Forall_forall. intros Hls c b t Hin. by apply Hls in Hin. Qed.

Hypothesis timeout_pos : 0 < timeout.

Lemma gossip_do_probes tr ev s s' ls :
  cluster_ok tr s → probes_ok tr s → gossip_do ev s = Some (s', ls) → probes_ok (tr ++ ls) s'.
Proof.
  intros [Hok _] Hpo. destruct ev as [d|n|n|n|n|n timed_out|n|n i|n]; simpl.
  1:{ intros [= <- <-]. rewrite app_nil_r. destruct Hpo as [Hp Hs]. split; [|done]. intros n g Hg. simpl.
    rewrite <- (app_nil_r tr). eapply probing_other; [by apply Hp|by constructor|lia]. }
  all: intros Hdo; eapply at_node_probes; [done|exact Hdo|]; intros g g' sends Hg Hpr Hf; clear Hdo; cbn beta in Hf;
    pose proof (no_config _ _ _ _ (Hok _ _ Hg)) as Hcfg.
  - injection Hf as <- <- <-. split_and!; [by rewrite app_nil_r|by constructor|by apply quiet_labels].
  - destruct (gn_probe g) eqn:Hph; try done. unfold probe_begin in Hf. simpl in Hf.
    destruct (decide _); [|destruct (probe_targets (sw_members (gn_swim g)) !! _) as [m|]]; injection Hf as <- <- <-;
      (split_and!; [|by repeat constructor|by apply quiet_labels; repeat constructor]); try done.
    exists tr, (gc_now s), []. split_and!; [done| |lia]. intros _ t. apply not_elem_of_nil.
  - destruct (gn_probe g) as [|pr| | |] eqn:Hph; try done. injection Hf as Hf. unfold probing in Hpr. rewrite Hph in Hpr.
    apply awaiting_later with (k := timeout) in Hpr. rewrite Hcfg in Hf.
    eapply first_wait_probing in Hf as [-> Hg']; [|done|intros _; lia].
    split_and!; [by rewrite app_nil_r|by constructor|by apply quiet_labels].
  - destruct (gn_probe g) as [| | |pr|] eqn:Hph; try done. injection Hf as Hf. unfold probing in Hpr. rewrite Hph in Hpr.
    apply awaiting_later with (k := timeout) in Hpr. rewrite Hcfg in Hf.
    eapply second_wait_probing in Hf; [done|done|intros _; lia].
  - assert ((if timed_out then TimedOut else Notified) = Entered → False) as Hwake by by destruct timed_out.
    unfold probing in Hpr. destruct (gn_probe g) as [| |pr dl| |pr dl] eqn:Hph; try done; injection Hf as Hf.
    + eapply first_wait_probing in Hf as [-> Hg']; [|done|by intros ?%Hwake].
      split_and!; [by rewrite app_nil_r|by constructor|by apply quiet_labels].
    + eapply second_wait_probing in Hf; [done|done|by intros ?%Hwake].
  - injection Hf as <- <- <-. split_and!.
    + apply probing_step with (now := gc_now s); [done| |done]. apply still_pending_same; [apply reap_suspects_pending|].
      by apply Forall_fmap, Forall_true.
    + by apply Forall_fmap, Forall_true.
    + apply quiet_labels. by apply Forall_fmap, Forall_true.
  - destruct (gc_net s !! i) as [[addr msg]|] eqn:Hi; [simpl in Hf|done]. case_decide; [|done].
    destruct (handle_message _ _ _ _) as [sw sends'] eqn:Hm. injection Hf as <- <- <-. split_and!.
    + apply probing_step with (now := gc_now s); [done| |done]. by eapply handle_message_pending.
    + destruct msg; by repeat constructor.
    + apply quiet_labels. destruct msg; by repeat constructor.
  - injection Hf as <- <- <-. split_and!; [done|by constructor|by apply quiet_labels].
Qed.

Lemma gossip_run_probes tr evs s s' ls :
  cluster_ok tr s → probes_ok tr s → gossip_run evs s = Some (s', ls) → probes_ok (tr ++ ls) s'.
Proof.
  revert tr s ls. induction evs as [|ev evs IH]; intros tr s ls Hok Hpo; simpl; [intros [= <- <-]; by rewrite app_nil_r|].
  destruct (gossip_do ev s) as [[s1 ls1]|] eqn:Hdo; [simpl|done].
  destruct (gossip_run evs s1) as [[s2 ls2]|] eqn:Hrun; [simpl|done]. intros [= <- <-].
  rewrite app_assoc. eapply IH; [by eapply gossip_do_ok|by eapply gossip_do_probes|done].
Qed.

Lemma initial_probes s : initial cfg s → probes_ok [] s.
Proof.
  intros [_ Hn]. split; [|by intros c b t ?%elem_of_nil]. by intros n g (addr & seeds & ->)%Hn.
Qed.

(** C34: Suspicion has a cause: in every run of a cluster with a probe timeout that is
    not zero, whatever is lost, delayed, repeated or reordered and whichever nodes
    restart, a node that some view holds to be suspect or dead was suspected by a node
    that had pinged it at least two probe timeouts earlier and handled no acknowledgement
    of that ping in between; one held to be dead was declared dead, at least the
    suspicion timeout after such a suspicion; and no node holds itself to be suspect. *)
Theorem suspicion_has_cause evs s s' ls a g b m :
  initial cfg s → gossip_run evs s = Some (s', ls) →
  gc_nodes s' !! a = Some g → ml_members (sw_members (gn_swim g)) !! b = Some m →
  (mb_state m ≠ MsAlive → a ≠ b ∧ ∃ c t, unanswered (sc_probe_timeout cfg) ls c b t) ∧
  (mb_state m = MsDead → ∃ c t c' t', unanswered (sc_probe_timeout cfg) ls c b t ∧ LDeclaredDead c' b t' ∈ ls ∧
     t + sc_suspicion_timeout cfg ≤ t').
Proof.
  intros Hinit Hrun Hg Hm. pose proof (gossip_run_probes [] _ _ _ _ (initial_ok _ Hinit) (initial_probes _ Hinit) Hrun)
    as [_ Hunanswered]. simpl in Hunanswered.
  apply (gossip_run_ok [] evs s s' ls) in Hrun as [Hn _]; [|by apply initial_ok].
  destruct (Hn _ _ Hg) as [Hml _ _]. destruct (mo_reports _ _ _ _ Hml _ _ Hm) as [_ [_ Hs Hd]].
  simpl in Hs, Hd. rewrite (mo_keys _ _ _ _ Hml _ _ Hm) in Hs, Hd. split.
  - intros Hst. split; [|by destruct (Hs Hst) as (c & t & ? & _); eauto].
    intros ->. by rewrite (mo_self _ _ _ _ Hml _ Hm) in Hst.
  - intros Hst. destruct (Hd Hst) as (c & t & c' & t' & ? & ? & ?). exists c, t, c', t'. by split_and!; [apply Hunanswered|..].
Qed.

(** ** Suspicion is never withdrawn *)

(** What [ml] holds of other nodes only gets worse in [ml']. *)
Definition worsens (ml ml' : MemberList) : Prop :=
  ∀ b m, ml_members ml !! b = Some m →
    ∃ m', ml_members ml' !! b = Some m' ∧ state_priority (mb_state m) ≤ state_priority (mb_state m').

#[local] Instance worsens_preorder : PreOrder worsens.
Proof.
  split; [intros ml b m Hm; by exists m|]. intros ml1 ml2 ml3 H12 H23 b m Hm.
  destruct (H12 b m Hm) as (m2 & Hm2 & ?). destruct (H23 b m2 Hm2) as (m3 & ? & ?). exists m3. split; [done|lia].
Qed.

Lemma worsens_insert ml k m :
  (∀ m0, ml_members ml !! k = Some m0 → state_priority (mb_state m0) ≤ state_priority (mb_state m)) →
  worsens ml (set_members (<[k := m]> (ml_members ml)) ml).
Proof.
  intros Hle b m0 Hm0. simpl. destruct (decide (k = b)) as [->|Hne].
  - exists m. split; [apply lookup_insert_eq|by apply Hle].
  - exists m0. by rewrite lookup_insert_ne.
Qed.

Lemma apply_update_worsens tr now n u ml :
  members_ok tr now n ml → report_ok tr now u → worsens ml (apply_update now u ml).1.
Proof.
  intros Hml [Hu _ _]. unfold apply_update. case_decide.
  { unfold handle_local_update. destruct (mu_state u); intros b m Hm; by exists m. }
  destruct (ml_members ml !! mu_node_id u) as [m|] eqn:Hm; simpl; [|apply worsens_insert; congruence].
  destruct (should_override m u) eqn:Ho; simpl; [|done]. apply worsens_insert. intros m0 Hm0.
  assert (m0 = m) as -> by congruence. destruct (mo_reports _ _ _ _ Hml _ _ Hm) as [_ [Hi _ _]]. simpl in Hi.
  unfold should_override in Ho. rewrite !decide_False in Ho by lia. apply bool_decide_eq_true in Ho. simpl. lia.
Qed.

Lemma apply_updates_worsens tr now n us ml :
  members_ok tr now n ml → Forall (report_ok tr now) us → worsens ml (apply_updates now us ml).
Proof.
  unfold apply_updates. intros Hml Hus. revert ml Hml. induction Hus as [|u us Hu Hus IH]; intros ml Hml; [done|].
  simpl. etrans; [by eapply apply_update_worsens|]. by apply IH, apply_update_ok.
Qed.

Lemma mark_suspect_worsens now b ml : worsens ml (ml_mark_suspect now b ml).1.
Proof.
  unfold ml_mark_suspect. destruct (ml_members ml !! b) as [m|] eqn:Hm; [|done]. case_decide as Ha; [|done]. simpl.
  apply worsens_insert. intros m0 Hm0. assert (m0 = m) as -> by congruence. rewrite Ha. simpl. lia.
Qed.

Lemma mark_dead_worsens now b ml : worsens ml (ml_mark_dead now b ml).1.
Proof.
  unfold ml_mark_dead. destruct (ml_members ml !! b) as [m|] eqn:Hm; [|done]. case_decide; [|done]. simpl.
  apply worsens_insert. intros m0 _. simpl. by destruct (mb_state m0).
Qed.

Lemma reap_suspects_worsens now sw : worsens (sw_members sw) (sw_members (reap_suspects now sw)).
Proof.
  unfold reap_suspects. generalize (expired_suspects now sw). intros bs. revert sw.
  induction bs as [|b bs IH]; intros sw; simpl; [done|]. etrans; [apply (mark_dead_worsens now b)|apply (IH (on_members _ sw))].
Qed.

Lemma handle_message_worsens tr now n addr msg sw sw' sends :
  members_ok tr now n (sw_members sw) → message_ok tr now msg → handle_message addr now msg sw = (sw', sends) →
  worsens (sw_members sw) (sw_members sw').
Proof.
  intros Hml [Hus Hkind] Hrun. pose proof (apply_updates_worsens _ _ _ _ _ Hml Hus) as Hw.
  pose proof (apply_updates_ok _ _ _ _ _ Hml Hus) as Hml1.
  destruct msg as [f fa q us|f fa t ta q us|f fa q us|j ja| | |]; try done; simpl in Hrun; injection Hrun as <- <-;
    simpl; [done..|]. etrans; [exact Hw|]. by eapply apply_update_worsens; [|split].
Qed.

Lemma second_wait_worsens n wake now deadline pr g g' sends ls :
  second_wait n wake now deadline pr g = (g', sends, ls) → worsens (sw_members (gn_swim g)) (sw_members (gn_swim g')).
Proof.
  unfold second_wait, probe_after_indirect. pose proof (mark_suspect_worsens now (pr_target pr) (sw_members (gn_swim g))) as Hw.
  destruct (wait_for_ack _ _ _ _ _) as [[]|]; [|destruct (ml_mark_suspect _ _ _)|]; by intros [= <- <- <-].
Qed.

(** A view after an event, unless the node restarts. *)
Lemma gossip_do_worsens tr ev s s' ls a g :
  cluster_ok tr s → gossip_do ev s = Some (s', ls) → ev ≠ EvRestart a → gc_nodes s !! a = Some g →
  ∃ g', gc_nodes s' !! a = Some g' ∧ worsens (sw_members (gn_swim g)) (sw_members (gn_swim g')).
Proof.
  intros [Hok Hnet] Hdo Hev Hg. destruct ev as [d|n|n|n|n|n timed_out|n|n i|n]; simpl in Hdo.
  1:{ injection Hdo as <- <-. by exists g. }
  all: apply at_node_Some in Hdo as (g0 & g' & sends & Hg0 & Hf & ->); simpl;
    destruct (decide (n = a)) as [->|Hne]; [|exists g; by rewrite lookup_insert_ne];
    assert (g0 = g) as -> by congruence; pose proof (Hok _ _ Hg) as Hgok; pose proof Hgok as [Hml Hph _];
    exists g'; (split; [apply lookup_insert_eq|]).
  - by injection Hf as <- <- <-.
  - destruct (gn_probe g); try done. destruct (probe_begin _ _ _) as [[sw sends'] pr] eqn:Hp. injection Hf as <- <- <-.
    simpl. by destruct (probe_begin_ok _ _ _ _ _ _ _ _ Hml Hp) as (-> & _).
  - destruct (gn_probe g) as [|pr| | |]; try done. injection Hf as Hf. by eapply first_wait_ok in Hf as (_ & _ & ->).
  - destruct (gn_probe g) as [| | |pr|]; try done. injection Hf as Hf. by eapply second_wait_worsens.
  - destruct (gn_probe g) as [| |pr dl| |pr dl]; try done; injection Hf as Hf;
      [by eapply first_wait_ok in Hf as (_ & _ & ->)|by eapply second_wait_worsens].
  - injection Hf as <- <- <-. apply reap_suspects_worsens.
  - destruct (gc_net s !! i) as [[addr msg]|] eqn:Hi; [simpl in Hf|done]. case_decide; [|done].
    destruct (handle_message _ _ _ _) as [sw sends'] eqn:Hm. injection Hf as <- <- <-.
    eapply handle_message_worsens; [done| |done]. exact (proj1 (Forall_lookup _ _) Hnet _ _ Hi).
  - done.
Qed.

Lemma gossip_run_worsens tr evs s s' ls a g :
  cluster_ok tr s → gossip_run evs s = Some (s', ls) → EvRestart a ∉ evs → gc_nodes s !! a = Some g →
  ∃ g', gc_nodes s' !! a = Some g' ∧ worsens (sw_members (gn_swim g)) (sw_members (gn_swim g')).
Proof.
  revert tr s ls g. induction evs as [|ev evs IH]; intros tr s ls g Hok; simpl; [intros [= <- <-]; by exists g|].
  destruct (gossip_do ev s) as [[s1 ls1]|] eqn:Hdo; [simpl|done].
  destruct (gossip_run evs s1) as [[s2 ls2]|] eqn:Hrun; [simpl|done]. intros [= <- <-] Hev Hg.
  apply not_elem_of_cons in Hev as [Hne Hev].
  destruct (gossip_do_worsens _ _ _ _ _ _ _ Hok Hdo (not_eq_sym Hne) Hg) as (g1 & Hg1 & Hw1).
  destruct (IH (tr ++ ls1) s1 ls2 g1) as (g2 & Hg2 & Hw2); [by eapply gossip_do_ok|done..|].
  exists g2. split; [done|by etrans].
Qed.

(** A suspicion cannot be refuted: once a node holds another to be suspect or
    dead, it never holds it to be alive again, until it restarts itself, although
    the suspected node hears of it and raises its incarnation number: the raised
    number is never sent. *)
Theorem suspicion_is_permanent evs1 evs2 s s1 s2 ls1 ls2 a b g m :
  initial cfg s → gossip_run evs1 s = Some (s1, ls1) → gossip_run evs2 s1 = Some (s2, ls2) →
  EvRestart a ∉ evs2 → gc_nodes s1 !! a = Some g → ml_members (sw_members (gn_swim g)) !! b = Some m →
  mb_state m ≠ MsAlive →
  ∃ g' m', gc_nodes s2 !! a = Some g' ∧ ml_members (sw_members (gn_swim g')) !! b = Some m' ∧ mb_state m' ≠ MsAlive.
Proof.
  intros Hinit Hrun1 Hrun2 Hev Hg Hm Hst. apply initial_ok in Hinit.
  pose proof (gossip_run_ok [] _ _ _ _ Hinit Hrun1) as Hok1.
  destruct (gossip_run_worsens _ _ _ _ _ _ _ Hok1 Hrun2 Hev Hg) as (g' & Hg' & Hw).
  destruct (Hw _ _ Hm) as (m' & Hm' & Hle). exists g', m'. split_and!; [done..|].
  intros Heq. rewrite Heq in Hle. by destruct (mb_state m).
Qed.

End invariant.

(** ** Witnesses and divergences *)

Module GossipDemo.

Definition gossip_iter : HashIter NodeId := hash_iter_default NodeId.
#[export] Existing Instance gossip_iter.

Definition gcfg : SwimConfig := MkSwimConfig 100 400 50.

Definition gnode (i : N) : NodeId := NodeId_new i.

Definition gaddr (i : N) : SocketAddr := MkSocketAddr "10.0.0.1" (7000 + i).

(** Three nodes; nodes 2 and 3 join node 1. *)
Definition gstart : GossipCluster :=
  MkGossipCluster (list_to_map ((λ i, (gnode i, GossipNode_new 0 gcfg (gnode i) (gaddr i) [gaddr 1])) <$> [1; 2; 3]))
    [] 0.

(** Joins of 2 and 3 and the acknowledgements that carry the members. *)
Definition joined : list GossipEvent :=
  [EvJoin (gnode 2); EvDeliver (gnode 1) 0; EvJoin (gnode 3); EvDeliver (gnode 1) 2;
   EvDeliver (gnode 2) 1; EvDeliver (gnode 3) 3].

Definition state_of (s : GossipCluster) (a b : NodeId) : option MemberState :=
  g ← gc_nodes s !! a; mb_state <$> ml_members (sw_members (gn_swim g)) !! b.

Definition after (evs : list GossipEvent) : GossipCluster := default gstart (fst <$> gossip_run evs gstart).

Definition recorded (evs : list GossipEvent) : list GossipLabel := default [] (snd <$> gossip_run evs gstart).

Definition outbox (evs : list GossipEvent) : list (SocketAddr * GossipMessage) :=
  gc_net (after evs).

End GossipDemo.
Import GossipDemo.

Lemma gstart_initial : initial gcfg gstart.
Proof.
  split; [done|]. intros n g (i & [= -> ->] & _)%elem_of_list_to_map_2%list_elem_of_fmap. by eauto.
Qed.

Module RelayDemo.

(** The ping of node 3 to node 1 is lost; the relay, node 2, pings node 1, which
    answers the relay; nothing else is lost. *)
Definition relay_run : list GossipEvent :=
  joined ++ [EvProbe (gnode 3); EvPinged (gnode 3); EvTick 50; EvWake (gnode 3) true; EvRelayed (gnode 3);
             EvDeliver (gnode 2) 5; EvDeliver (gnode 1) 6; EvDeliver (gnode 2) 7; EvTick 50; EvWake (gnode 3) true].

Definition reaped : list GossipEvent := relay_run ++ [EvTick 400; EvReap (gnode 3)].

End RelayDemo.
Import RelayDemo.

Lemma suspicion_has_cause_witness :
  ∃ c t c' t', unanswered 50 (recorded reaped) c (gnode 1) t ∧ LDeclaredDead c' (gnode 1) t' ∈ recorded reaped ∧
    t + sc_suspicion_timeout gcfg ≤ t'.
Proof.
  destruct (gossip_run reaped gstart) as [[s' ls]|] eqn:Hrun; [|vm_compute in Hrun; discriminate Hrun].
  assert (recorded reaped = ls) as -> by (unfold recorded; rewrite Hrun; reflexivity).
  destruct (gc_nodes s' !! gnode 3) as [g|] eqn:Hg;
    [|apply (f_equal (λ r, fst <$> r)) in Hrun; vm_compute in Hrun; injection Hrun as <-; discriminate Hg].
  destruct (ml_members (sw_members (gn_swim g)) !! gnode 1) as [m|] eqn:Hm.
  - apply (suspicion_has_cause gcfg ltac:(vm_compute; reflexivity) reaped gstart s' ls (gnode 3) g (gnode 1) m gstart_initial Hrun Hg Hm).
    assert (state_of s' (gnode 3) (gnode 1) = Some (mb_state m)) as Hst by (unfold state_of; rewrite Hg; simpl; rewrite Hm; reflexivity).
    assert (state_of s' (gnode 3) (gnode 1) = Some MsDead); [|congruence].
    replace s' with (after reaped) by (unfold after; rewrite Hrun; reflexivity). vm_compute. reflexivity.
  - exfalso. assert (state_of s' (gnode 3) (gnode 1) = None) as Hst by (unfold state_of; rewrite Hg; simpl; rewrite Hm; reflexivity).
    replace s' with (after reaped) in Hst by (unfold after; rewrite Hrun; reflexivity). vm_compute in Hst. discriminate Hst.
Defined.

(** An indirect probe cannot succeed: the target answers the relay, and the relay
    tells nobody, so a node is suspected although it answered. *)
Theorem relay_answer_not_forwarded :
  state_of (after joined) (gnode 3) (gnode 1) = Some MsAlive ∧
  (∃ ups, outbox relay_run !! 7%nat = Some (gaddr 2, GAck (gnode 1) (gaddr 1) 2 ups)) ∧
  length (outbox relay_run) = 8%nat ∧
  state_of (after relay_run) (gnode 3) (gnode 1) = Some MsSuspect.
Proof. vm_compute. eauto 10. Qed.
