(* ===== verification/Config.v ===== *)
(** * Node configuration

    crates/blockyard-common/src/config.rs: the sections of the configuration file,
    their serde readers with the defaults of absent keys, and [validate].  The TOML
    reader is the class [TomlText]: it turns a text into the tree that the derived
    readers walk.  Paths stay the strings of the file. *)

From S2P Require Import Prelude Text Common Json MetadataCache Http Gossip.

#[local] Open Scope N_scope.

(** [toml::from_str] up to the derived readers, and the message of its errors. *)
Class TomlText := {
  toml_parse : string → option json;
  toml_error : string → string;
}.

(** ** Sections *)

Record StorageSection := MkStorageSection {
  ss_disk_paths : list string;
  ss_max_background_io : N;
  ss_scrub_interval_secs : N;
}.

Record RaftSection := MkRaftSection {
  rs_election_timeout_min_ms : N;
  rs_election_timeout_max_ms : N;
  rs_heartbeat_interval_ms : N;
  rs_max_entries_per_batch : N;
  rs_snapshot_threshold : N;
  rs_bind_addr : option SocketAddr;
}.

Record GossipSection := MkGossipSection {
  gs_bind_addr : SocketAddr;
  gs_seed_nodes : list SocketAddr;
  gs_gossip_interval_ms : N;
  gs_suspicion_mult : N;
}.

Record ProtocolSection := MkProtocolSection {
  ps_max_message_size : N;
  ps_connect_timeout_ms : N;
  ps_request_timeout_ms : N;
  ps_mgmt_addr : SocketAddr;
}.

Record TlsSection := MkTlsSection {
  tls_cert_path : string;
  tls_key_path : string;
  tls_ca_path : string;
  tls_require_client_cert : bool;
}.

Record AuthSection := MkAuthSection { as_cluster_secret : string }.

Record NodeConfig := MkNodeConfig {
  nc_name : option string;
  nc_listen_addr : SocketAddr;
  nc_data_dir : string;
  nc_storage : StorageSection;
  nc_raft : RaftSection;
  nc_gossip : GossipSection;
  nc_protocol : ProtocolSection;
  nc_tls : option TlsSection;
  nc_auth : option AuthSection;
}.

(** ** Reading *)

Section read.
Context `{!AddrText}.

Definition de_addr (j : json) : option SocketAddr := s ← de_string j; addr_parse s.

Definition de_storage_section : json → option StorageSection :=
  de_struct (
    disk_paths ← field "disk_paths" (de_vec de_string);
    max_background_io ← field_default 4 "max_background_io" de_u32;
    scrub_interval_secs ← field_default 86400 "scrub_interval_secs" de_u64;
    mret (MkStorageSection disk_paths max_background_io scrub_interval_secs)).

Definition de_raft_section : json → option RaftSection :=
  de_struct (
    election_timeout_min_ms ← field_default 150 "election_timeout_min_ms" de_u64;
    election_timeout_max_ms ← field_default 300 "election_timeout_max_ms" de_u64;
    heartbeat_interval_ms ← field_default 50 "heartbeat_interval_ms" de_u64;
    max_entries_per_batch ← field_default 64 "max_entries_per_batch" de_u64;
    snapshot_threshold ← field_default 10000 "snapshot_threshold" de_u64;
    bind_addr ← field_default None "bind_addr" (de_option de_addr);
    mret (MkRaftSection election_timeout_min_ms election_timeout_max_ms heartbeat_interval_ms max_entries_per_batch
            snapshot_threshold bind_addr)).

Definition de_gossip_section : json → option GossipSection :=
  de_struct (
    bind_addr ← field "bind_addr" de_addr;
    seed_nodes ← field_default [] "seed_nodes" (de_vec de_addr);
    gossip_interval_ms ← field_default 1000 "gossip_interval_ms" de_u64;
    suspicion_mult ← field_default 4 "suspicion_mult" de_u32;
    mret (MkGossipSection bind_addr seed_nodes gossip_interval_ms suspicion_mult)).

Definition default_mgmt_addr : SocketAddr := MkSocketAddr "127.0.0.1" 9801.

Definition de_protocol_section : json → option ProtocolSection :=
  de_struct (
    max_message_size ← field_default (64 * 1024 * 1024) "max_message_size" de_u64;
    connect_timeout_ms ← field_default 5000 "connect_timeout_ms" de_u64;
    request_timeout_ms ← field_default 30000 "request_timeout_ms" de_u64;
    mgmt_addr ← field_default default_mgmt_addr "mgmt_addr" de_addr;
    mret (MkProtocolSection max_message_size connect_timeout_ms request_timeout_ms mgmt_addr)).

Definition de_tls_section : json → option TlsSection :=
  de_struct (
    cert_path ← field "cert_path" de_string;
    key_path ← field "key_path" de_string;
    ca_path ← field "ca_path" de_string;
    require_client_cert ← field_default false "require_client_cert" de_bool;
    mret (MkTlsSection cert_path key_path ca_path require_client_cert)).

Definition de_auth_section : json → option AuthSection :=
  de_struct (cluster_secret ← field "cluster_secret" de_string; mret (MkAuthSection cluster_secret)).

Definition de_node_config : json → option NodeConfig :=
  de_struct (
    name ← field_default None "name" (de_option de_string);
    listen_addr ← field "listen_addr" de_addr;
    data_dir ← field "data_dir" de_string;
    storage ← field "storage" de_storage_section;
    raft ← field "raft" de_raft_section;
    gossip ← field "gossip" de_gossip_section;
    protocol ← field "protocol" de_protocol_section;
    tls ← field_default None "tls" (de_option de_tls_section);
    auth ← field_default None "auth" (de_option de_auth_section);
    mret (MkNodeConfig name listen_addr data_dir storage raft gossip protocol tls auth)).

(** ** Validation *)

Definition validate_tls (tls : TlsSection) : result Error unit :=
  if decide (tls_cert_path tls = EmptyString) then Err (ErrorConfig "tls.cert_path must not be empty")
  else if decide (tls_key_path tls = EmptyString) then Err (ErrorConfig "tls.key_path must not be empty")
  else if decide (tls_ca_path tls = EmptyString) then Err (ErrorConfig "tls.ca_path must not be empty")
  else Ok tt.

Definition validate (c : NodeConfig) : result Error unit :=
  if decide (ss_disk_paths (nc_storage c) = []) then
    Err (ErrorConfig "storage.disk_paths must contain at least one path")
  else if decide (rs_election_timeout_max_ms (nc_raft c) ≤ rs_election_timeout_min_ms (nc_raft c)) then
    Err (ErrorConfig "raft.election_timeout_min_ms must be less than election_timeout_max_ms")
  else if decide (rs_election_timeout_min_ms (nc_raft c) ≤ rs_heartbeat_interval_ms (nc_raft c)) then
    Err (ErrorConfig "raft.heartbeat_interval_ms must be less than election_timeout_min_ms")
  else if decide (ps_max_message_size (nc_protocol c) = 0) then
    Err (ErrorConfig "protocol.max_message_size must be greater than 0")
  else match nc_tls c with Some tls => validate_tls tls | None => Ok tt end.

Context `{!TomlText}.

Definition from_toml (s : string) : result Error NodeConfig :=
  config ← ok_or (ErrorConfig ("TOML parse error: " +:+ toml_error s)) (j ← toml_parse s; de_node_config j);
  _ ← validate config;
  Ok config.

(** The content of the file, or the error of reading it. *)
Definition from_file (contents : result string string) : result Error NodeConfig :=
  match contents with
  | Err e => Err (ErrorIo e)
  | Ok s => from_toml s
  end.

(** ** What an accepted configuration guarantees *)

Record config_ok (c : NodeConfig) : Prop := {
  co_disks : ss_disk_paths (nc_storage c) ≠ [];
  co_timeouts : rs_heartbeat_interval_ms (nc_raft c) < rs_election_timeout_min_ms (nc_raft c) <
                rs_election_timeout_max_ms (nc_raft c) ∧ rs_election_timeout_max_ms (nc_raft c) ≤ u64_max;
  co_message : 0 < ps_max_message_size (nc_protocol c) ≤ u64_max;
  co_ports : Forall (λ a, sock_port a ≤ u16_max)
    ([nc_listen_addr c; gs_bind_addr (nc_gossip c); ps_mgmt_addr (nc_protocol c)] ++ gs_seed_nodes (nc_gossip c));
  co_tls : ∀ tls, nc_tls c = Some tls →
    tls_cert_path tls ≠ EmptyString ∧ tls_key_path tls ≠ EmptyString ∧ tls_ca_path tls ≠ EmptyString;
}.

Lemma field_or_sound {A} (P : A → Prop) o1 o2 name d src a src' :
  (∀ a, o1 = Some a → P a) → (∀ a, o2 = Some a → P a) → (∀ j a, d j = Some a → P a) →
  field_or o1 o2 name d src = Some (a, src') → P a.
Proof.
  intros Ho1 Ho2 Hd Hf. unfold field_or in Hf.
  destruct src as [fields|[|v vs]]; [destruct (fields_named name fields) as [|v [|]]; [| |done]|..];
    apply bind_Some in Hf as (b & Hb & Heq); simplify_eq; eauto.
Qed.

Lemma field_sound {A} (P : A → Prop) name d src a src' :
  (∀ j a, d j = Some a → P a) → field name d src = Some (a, src') → P a.
Proof. intros Hd. apply field_or_sound; done. Qed.

Lemma field_default_sound {A} (P : A → Prop) dflt name d src a src' :
  P dflt → (∀ j a, d j = Some a → P a) → field_default dflt name d src = Some (a, src') → P a.
Proof. intros Hp Hd. apply field_or_sound; [by intros b [= <-]..|done]. Qed.

Lemma de_struct_sound {A} (P : A → Prop) (r : reader A) j a :
  (∀ src src' a, r src = Some (a, src') → P a) → de_struct r j = Some a → P a.
Proof.
  intros Hr. unfold de_struct. destruct j; try done.
  - destruct (r _) as [[b [|[]]]|] eqn:Hb; try done. intros [= <-]. by eapply Hr.
  - intros ([b src'] & Hb & ->)%fmap_Some. by eapply Hr.
Qed.

Lemma de_uint_sound w j n : de_uint w j = Some n → n ≤ w.
Proof. unfold de_uint. destruct j; try done. case_decide; naive_solver. Qed.

Lemma de_addr_sound j a : de_addr j = Some a → sock_port a ≤ u16_max.
Proof. intros (s & _ & Ha)%bind_Some. by eapply addr_parse_port. Qed.

Lemma de_vec_sound {A} (P : A → Prop) (d : json → option A) j l :
  (∀ j a, d j = Some a → P a) → de_vec d j = Some l → Forall P l.
Proof.
  intros Hd. unfold de_vec. destruct j; try done. intros Hl%mapM_Some. induction Hl; eauto.
Qed.

(** Follows a derived reader, field by field. *)
Ltac fields H :=
  lazymatch type of H with
  | (_ ≫= _) _ = Some _ =>
      rewrite reader_bind in H; apply bind_Some in H as ([? ?] & ? & H); simpl in H; fields H
  | _ => injection H as <- <-
  end.

Lemma de_raft_section_sound j r : de_raft_section j = Some r → rs_election_timeout_max_ms r ≤ u64_max.
Proof.
  apply (de_struct_sound (λ r, rs_election_timeout_max_ms r ≤ u64_max)). intros src src' a Hr. fields Hr. simpl.
  by eapply (field_default_sound (λ n, n ≤ u64_max)); [|apply de_uint_sound|eassumption].
Qed.

Lemma de_gossip_section_sound j g :
  de_gossip_section j = Some g → Forall (λ a, sock_port a ≤ u16_max) (gs_bind_addr g :: gs_seed_nodes g).
Proof.
  apply (de_struct_sound (λ g, Forall _ (gs_bind_addr g :: gs_seed_nodes g))). intros src src' a Hr. fields Hr. simpl. constructor.
  - eapply (field_sound (λ a, sock_port a ≤ u16_max)); [apply de_addr_sound|eassumption].
  - eapply (field_default_sound (Forall (λ a, sock_port a ≤ u16_max))); [constructor| |eassumption].
    intros j' addrs Hl. eapply de_vec_sound; [apply de_addr_sound|exact Hl].
Qed.

Lemma de_protocol_section_sound j p :
  de_protocol_section j = Some p → ps_max_message_size p ≤ u64_max ∧ sock_port (ps_mgmt_addr p) ≤ u16_max.
Proof.
  apply (de_struct_sound (λ p, ps_max_message_size p ≤ u64_max ∧ sock_port (ps_mgmt_addr p) ≤ u16_max)).
  intros src src' a Hr. fields Hr. simpl. split.
  - by eapply (field_default_sound (λ n, n ≤ u64_max)); [|apply de_uint_sound|eassumption].
  - by eapply (field_default_sound (λ a, sock_port a ≤ u16_max)); [|apply de_addr_sound|eassumption].
Qed.

(** The configurations of the right types. *)
Record config_typed (c : NodeConfig) : Prop := {
  ct_timeouts : rs_election_timeout_max_ms (nc_raft c) ≤ u64_max;
  ct_gossip : Forall (λ a, sock_port a ≤ u16_max) (gs_bind_addr (nc_gossip c) :: gs_seed_nodes (nc_gossip c));
  ct_message : ps_max_message_size (nc_protocol c) ≤ u64_max;
  ct_mgmt : sock_port (ps_mgmt_addr (nc_protocol c)) ≤ u16_max;
  ct_listen : sock_port (nc_listen_addr c) ≤ u16_max;
}.

Lemma de_node_config_sound j c : de_node_config j = Some c → config_typed c.
Proof.
  apply (de_struct_sound config_typed). intros src src' a Hr. fields Hr. split; simpl.
  - eapply (field_sound (λ r, rs_election_timeout_max_ms r ≤ u64_max)); [apply de_raft_section_sound|eassumption].
  - eapply (field_sound (λ g, Forall _ (gs_bind_addr g :: gs_seed_nodes g))); [apply de_gossip_section_sound|eassumption].
  - eapply (field_sound (λ p, ps_max_message_size p ≤ u64_max)); [|eassumption].
    intros; by eapply de_protocol_section_sound.
  - eapply (field_sound (λ p, sock_port (ps_mgmt_addr p) ≤ u16_max)); [|eassumption].
    intros; by eapply de_protocol_section_sound.
  - eapply (field_sound (λ a, sock_port a ≤ u16_max)); [apply de_addr_sound|eassumption].
Qed.

(** A configuration file that is accepted gives a usable configuration: there is a disk,
    the timeouts are ordered, messages have room, addresses have 16-bit ports and TLS,
    where it is configured, has its files. *)
Theorem accepted_config_ok contents c : from_file contents = Ok c → config_ok c.
Proof.
  unfold from_file. destruct contents as [s|]; [|done]. unfold from_toml.
  destruct (toml_parse s ≫= de_node_config) as [c'|] eqn:Hparse; [|done]. simpl. intros Hv.
  apply bind_Some in Hparse as (j & _ & Hj). apply de_node_config_sound in Hj as [Hmax Hg Hmsg Hmgmt Hlisten].
  unfold validate in Hv. repeat case_decide; try done.
  assert (c' = c ∧ ∀ tls, nc_tls c' = Some tls → validate_tls tls = Ok tt) as [<- Htls].
  { destruct (nc_tls c') as [tls|] eqn:Ht; [|by injection Hv as ->].
    destruct (validate_tls tls) as [[]|] eqn:Hval; [|done]. injection Hv as ->. split; [done|]. congruence. }
  split.
  - done.
  - lia.
  - lia.
  - inversion Hg; subst. by repeat constructor.
  - intros tls Hc%Htls. unfold validate_tls in Hc. by repeat case_decide.
Qed.

End read.

(** ** Evaluation *)

Module ConfigDemo.

(** The smallest configuration, with given gossip timings. *)
Definition config (interval mult : N) : NodeConfig :=
  MkNodeConfig None (MkSocketAddr "127.0.0.1" 9800) "/tmp/blockyard" (MkStorageSection ["/mnt/disk0"] 4 86400)
    (MkRaftSection 150 300 50 64 10000 None) (MkGossipSection (MkSocketAddr "127.0.0.1" 9801) [] interval mult)
    (MkProtocolSection 67108864 5000 30000 default_mgmt_addr) None None.

End ConfigDemo.
Import ConfigDemo.

(** [validate] says nothing of the gossip section: a configuration that it accepts can make
    the gossip service panic when the node starts. *)
Theorem accepted_config_can_panic :
  validate (config 1000 4) = Ok tt ∧ SwimConfig_new 1000 4 = Return (MkSwimConfig 1000000000 4000000000 500000000) ∧
  validate (config 9223372036854775807 4294967295) = Ok tt ∧
  SwimConfig_new 9223372036854775807 4294967295 = Panic.
Proof. vm_compute. auto. Qed.
