(* ===== verification/Node.v ===== *)
(** * A node: start, cluster membership and background tasks

    crates/blockyard/src/node.rs (with [NodeId::load_or_create] of
    crates/blockyard-common/src/id.rs): [start] recovers the storage
    ([NodeStorage]), then restarts from the Raft state, bootstraps a cluster or
    joins one over the seeds' HTTP API, registers the disks, and keeps the registry of
    peers in step with gossip.  Beside the classes of the HTTP client and of the
    metadata service, openraft's node and the TCP listener are the class
    [RaftProcess], and statvfs is [Statvfs].  The last part composes a join with the
    API of the seed ([HttpApi]) over the network of [HttpCluster]. *)

From S2P Require Import Prelude Text Common Json MetadataSM MetadataInv MetadataSpec MetadataTyped MetadataLease.
From S2P Require Import MetadataService Watermark MetadataCache RaftTransport Http HttpApi HttpCluster Gossip Config.
From S2P Require Import Placement Checksum DiskInventory FileSystem ExtentStore ExtentRecovery Auth Protocol.
From S2P Require Import DataNode DataNodeSpec NodeStorage.

#[local] Open Scope N_scope.

(** ** Parameters *)

(** openraft's [Raft::new] and [initialize], [RaftRpcServer::bind], and whether the state
    machine has applied anything; the error is its text. *)
Class RaftProcess (W : Type) := {
  has_existing_state : W → bool;
  raft_new : N → RaftSection → PeerRegistry → W → W * result string unit;
  rpc_bind : SocketAddr → W → W * result string unit;
  raft_initialize : gset N → W → W * result string unit;
}.

(** [statvfs]: blocks, fragment size and available blocks. *)
Class Statvfs := statvfs : Path → option (N * N * N).

(** ** Identity of the node (id.rs) *)

Definition NODE_ID_FILENAME : string := "node_id".

(** Outer errors are those of the file system, the inner one that of the content. *)
Definition load_or_create `{!UuidDisplay} `{!UuidError} {X} (data_dir : Path) (generated : NodeId) : IO X (result string NodeId) :=
  let id_path := data_dir ++ [NODE_ID_FILENAME] in
  found ← path_exists id_path;
  if found : bool then
    contents ← read_to_string id_path;
    let trimmed := str_trim (bytes_string contents) in
    match uuid_parse trimmed with
    | Some u => mret (Ok (NodeId_new u))
    | None => mret (Err ("corrupt node_id file: " +:+ uuid_error trimmed))
    end
  else
    _ ← create_dir_all data_dir;
    _ ← file_create Io id_path;
    _ ← write_all Io id_path (string_bytes (to_string generated));
    mret (Ok generated).

(** ** Addresses and disks *)

Definition raft_bind_addr (config : NodeConfig) : SocketAddr :=
  match rs_bind_addr (nc_raft config) with
  | Some addr => addr
  | None => derived_raft_addr (nc_listen_addr config)
  end.

Section disks.
Context `{!Statvfs}.

Definition get_disk_capacity (path : Path) : N :=
  match statvfs path with
  | Some (blocks, fragment_size, _) => u64_mul blocks fragment_size
  | None => 0
  end.

Definition get_disk_used_bytes (path : Path) : N :=
  match statvfs path with
  | Some (blocks, fragment_size, available) =>
      let total := u64_mul blocks fragment_size in
      let avail := u64_mul available fragment_size in
      sat_sub total avail
  | None => 0
  end.

End disks.

(** ** Joining a cluster *)

Section join.
Context `{!UuidDisplay} `{!RaftTypes} `{!JsonText} `{!HttpText} `{!AddrText} `{!HashIter N}.

Definition ser_join_request (r : JoinRequest) : json :=
  JObject
    [("node_id", ser_node_id (jq_node_id r)); ("raft_addr", JString (jq_raft_addr r));
     ("data_addr", JString (jq_data_addr r))].

(** A map with integer keys: of two entries for a key the later one counts. *)
Definition de_peer (kv : string * json) : option (N * string) :=
  k ← u64_of_string kv.1;
  if decide (k ≤ u64_max) then a ← de_string kv.2; Some (k, a) else None.

Definition de_peers (j : json) : option (gmap N string) :=
  match j with
  | JObject fields => entries ← mapM de_peer fields; Some (list_to_map (reverse entries))
  | _ => None
  end.

Definition de_join_response : json → option JoinResponse :=
  de_struct (
    raft_id ← field "raft_id" de_u64;
    peers ← field_default ∅ "peers" de_peers;
    mret (MkJoinResponse raft_id peers)).

(** Of an IPv4 address: one of IPv6 is printed without the brackets that a URL needs. *)
Definition join_url (seed : SocketAddr) : string :=
  "http://" +:+ sock_ip seed +:+ ":" +:+ u64_to_string (sock_port seed) +:+ "/api/v1/cluster/join".

Context {W : Type} `{!HttpTransport W}.

(** The first seed that accepts the request and answers with a document that can be read. *)
Fixpoint try_join (seeds : list SocketAddr) (req : JoinRequest) (w : W) : W * option JoinResponse :=
  match seeds with
  | [] => (w, None)
  | seed :: seeds =>
      match http_send POST (join_url seed) (Some (json_print (ser_join_request req))) w with
      | (w, Ok resp) =>
          if is_success resp then
            match response_json de_join_response resp with
            | Ok join_resp => (w, Some join_resp)
            | Err _ => try_join seeds req w
            end
          else try_join seeds req w
      | (w, Err _) => try_join seeds req w
      end
  end.

(** The registry of a node that joined: the peers of the answer whose address parses, and itself. *)
Definition joined_registry (raft_id : N) (raft_addr : SocketAddr) (peers : gmap N string) : PeerRegistry :=
  let registry := foldl (λ reg k,
    match peers !! k with
    | Some s =>
        if decide (k ≠ raft_id) then
          match addr_parse s with Some addr => peer_register k addr reg | None => reg end
        else reg
    | None => reg
    end) ∅ (hash_keys peers) in
  peer_register raft_id raft_addr registry.

(** The registry of a node that restarts, from the nodes of its state machine. *)
Definition recovered_registry (own : N) (data : MetadataStateMachineData) : PeerRegistry :=
  foldl (λ reg n,
    match sm_node_raft_map data !! cn_node_id n with
    | Some raft_nid =>
        if decide (raft_nid ≠ own) then
          match addr_parse (cn_addr n) with
          | Some addr => peer_register raft_nid (derived_raft_addr addr) reg
          | None => reg
          end
        else reg
    | None => reg
    end) ∅ (btree_values (sm_nodes data)).

(** ** Gossip callbacks *)

Definition gossip_member_join (data : MetadataStateMachineData) (member : NodeId) (reg : PeerRegistry) : PeerRegistry :=
  match sm_node_raft_map data !! member with
  | Some raft_nid =>
      match sm_nodes data !! to_string member with
      | Some n =>
          match addr_parse (cn_addr n) with
          | Some addr => peer_register raft_nid (derived_raft_addr addr) reg
          | None => reg
          end
      | None => reg
      end
  | None => reg
  end.

Definition gossip_member_leave (data : MetadataStateMachineData) (member : NodeId) (reg : PeerRegistry) : PeerRegistry :=
  match sm_node_raft_map data !! member with
  | Some raft_nid => peer_unregister raft_nid reg
  | None => reg
  end.

End join.

(** ** Starting *)

Section start.
Context `{!UuidDisplay} `{!UuidError} `{!RaftTypes} `{!JsonText} `{!HttpText} `{!AddrText} `{!HashIter N}.
Context {W : Type} `{!Raft W} `{!RaftProcess W} `{!HttpTransport W} `{!Statvfs}.

(** The Raft node with [raft_id] and its RPC server. *)
Definition launch_raft (config : NodeConfig) (raft_id : N) (registry : PeerRegistry) (w : W) : W * result string unit :=
  match raft_new raft_id (nc_raft config) registry w with
  | (w, Err e) => (w, Err e)
  | (w, Ok _) => rpc_bind (raft_bind_addr config) w
  end.

(** A node with Raft state takes its identifier and its peers from the state machine. *)
Definition recover_raft (config : NodeConfig) (node_id : NodeId) (w : W) : W * result string (N * PeerRegistry) :=
  let existing_raft_id := default 1 (get_raft_id node_id (sm_data w)) in
  let registry := recovered_registry existing_raft_id (sm_data w) in
  let '(w, r) := launch_raft config existing_raft_id registry w in
  (w, (λ _, (existing_raft_id, registry)) <$> r).

(** The first node of a cluster. *)
Definition bootstrap_raft (config : NodeConfig) (node_id : NodeId) (w : W) : W * result string (N * PeerRegistry) :=
  let raft_id := 1 in
  let registry := peer_register raft_id (raft_bind_addr config) ∅ in
  match launch_raft config raft_id registry w with
  | (w, Err e) => (w, Err e)
  | (w, Ok _) =>
      match raft_initialize {[raft_id]} w with
      | (w, Err e) => (w, Err e)
      | (w, Ok _) =>
          match svc_register_node node_id (to_string (nc_listen_addr config)) w with
          | (w, Err e) => (w, Err (to_string e))
          | (w, Ok registered_id) => (w, Ok (raft_id, registry))
          end
      end
  end.

Definition join_raft (config : NodeConfig) (node_id : NodeId) (w : W) : W * result string (N * PeerRegistry) :=
  let raft_addr := raft_bind_addr config in
  let join_req := MkJoinRequest node_id (to_string raft_addr) (to_string (nc_listen_addr config)) in
  match try_join (gs_seed_nodes (nc_gossip config)) join_req w with
  | (w, None) => (w, Err "failed to join cluster: no seed node responded successfully")
  | (w, Some join_resp) =>
      let raft_id := js_raft_id join_resp in
      let registry := joined_registry raft_id raft_addr (js_peers join_resp) in
      let '(w, r) := launch_raft config raft_id registry w in
      (w, (λ _, (raft_id, registry)) <$> r)
  end.

(** Step 7: the cluster mode. *)
Definition start_raft (config : NodeConfig) (node_id : NodeId) (w : W) : W * result string (N * PeerRegistry) :=
  if has_existing_state w then recover_raft config node_id w
  else if decide (gs_seed_nodes (nc_gossip config) = []) then bootstrap_raft config node_id w
  else join_raft config node_id w.

(** Step 8b: a disk is registered through Raft or, failing that, by the first seed that does it. *)
Fixpoint forward_disk (seeds : list SocketAddr) (body : json) (w : W) : W * bool :=
  match seeds with
  | [] => (w, false)
  | seed :: seeds =>
      match http_send POST ("http://" +:+ to_string seed +:+ "/api/v1/disks/register") (Some (json_print body)) w with
      | (w, Ok r) => if is_success r then (w, true) else forward_disk seeds body w
      | (w, Err _) => forward_disk seeds body w
      end
  end.

Definition register_one_disk (config : NodeConfig) (node_id : NodeId) (w : W) (disk : DiskId * Path) : W :=
  let '(disk_id, mount_path) := disk in
  let capacity_bytes := get_disk_capacity mount_path in
  match svc_register_disk disk_id node_id capacity_bytes w with
  | (w, Ok _) => w
  | (w, Err _) =>
      (forward_disk (gs_seed_nodes (nc_gossip config))
         (JObject [("disk_id", JString (to_string disk_id)); ("node_id", JString (to_string node_id));
                   ("capacity_bytes", JNumber capacity_bytes)]) w).1
  end.

(** One round of the periodic tasks: failures are only logged. *)
Definition update_usage (disks : list (DiskId * Path)) (w : W) : W :=
  foldl (λ w disk, (svc_update_disk_usage disk.1 (get_disk_used_bytes disk.2) w).1) w disks.

Definition cleanup_leases (now_ms : N) (w : W) : W := (svc_cleanup_expired_leases now_ms w).1.

(** A running node: its storage is the [Node] beside it, its metadata service the Raft world. *)
Record BlockyardNode := MkBlockyardNode {
  bn_config : NodeConfig;
  bn_node_id : NodeId;
  bn_raft_id : N;
  bn_identity : PeerIdentity;
  bn_peer_registry : PeerRegistry;
  bn_disks : list (DiskId * Path);
  bn_swim : SwimConfig;
}.

Inductive Start :=
  | Started (node : BlockyardNode)
  | StartFailed (error : string)
  | StartPanicked
  | MachineStopped.

Context `{!MetaCodec} `{!ReadDirOrder} `{!DiskMetadataCodec}.

(** [BlockyardNode::start].  [data_dir] and [mounts] are the configured paths with what the
    system says of them.  Opening the Raft stores belongs to [raft_new]; that gossip fails to
    bind does not stop the node. *)
Definition start (config : NodeConfig) (data_dir : Path) (generated : NodeId) (mounts : list Mount) (nd : Node) (w : W)
    : Node * W * Start :=
  match run_io data_dir (load_or_create data_dir generated) nd with
  | (nd, Crashed) => (nd, w, MachineStopped)
  | (nd, Done (Err e)) => (nd, w, StartFailed (to_string e))
  | (nd, Done (Ok (Err e))) => (nd, w, StartFailed e)
  | (nd, Done (Ok (Ok node_id))) =>
      match start_storage mounts nd with
      | (nd, Crashed) => (nd, w, MachineStopped)
      | (nd, Done (Err e)) => (nd, w, StartFailed (to_string e))
      | (nd, Done (Ok disks)) =>
          match start_raft config node_id w with
          | (w, Err e) => (nd, w, StartFailed e)
          | (w, Ok (raft_id, registry)) =>
              let w := foldl (register_one_disk config node_id) w disks in
              match SwimConfig_new (gs_gossip_interval_ms (nc_gossip config)) (gs_suspicion_mult (nc_gossip config)) with
              | Panic => (nd, w, StartPanicked)
              | Return swim =>
                  (nd, w, Started (MkBlockyardNode config node_id raft_id (IdNode node_id) registry disks swim))
              end
          end
      end
  end.

End start.

(** ** The registries *)

Section registries.
Context `{!UuidDisplay} `{!RaftTypes} `{!JsonText} `{!HttpText} `{!AddrText} `{!HashIter N}.

(** A loop over keys that registers those with a value. *)
Lemma lookup_foldl_register {A} (step : gmap N SocketAddr → A → gmap N SocketAddr) (value : A → option (N * SocketAddr)) l k addr :
  (∀ reg x, step reg x = match value x with Some (k, a) => <[k := a]> reg | None => reg end) →
  (∀ x y k a b, x ∈ l → y ∈ l → value x = Some (k, a) → value y = Some (k, b) → a = b) →
  foldl step ∅ l !! k = Some addr ↔ ∃ x, x ∈ l ∧ value x = Some (k, addr).
Proof.
  intros Hstep Hinj. induction l as [|x l IH] using rev_ind; csimpl.
  { rewrite lookup_empty. split; [done|]. by intros (x & ?%not_elem_of_nil & _). }
  rewrite foldl_app. simpl. rewrite Hstep.
  specialize (IH ltac:(intros x1 y1 k1 a1 b1 ? ?; apply (Hinj x1 y1 k1 a1 b1); set_solver)).
  destruct (value x) as [[kx a]|] eqn:Hx; [destruct (decide (kx = k)) as [->|Hne]|].
  - rewrite lookup_insert_eq. split.
    + intros [= <-]. exists x. set_solver.
    + intros (y & Hy & Hv). f_equal. by apply (Hinj x y k a addr); [set_solver..|].
  - rewrite lookup_insert_ne by done. rewrite IH. set_solver.
  - rewrite IH. set_solver.
Qed.

Lemma joined_registry_own own addr peers : joined_registry own addr peers !! own = Some addr.
Proof. apply (lookup_insert_eq (M := gmap N)). Qed.

Lemma joined_registry_other own addr peers id :
  id ≠ own → joined_registry own addr peers !! id = peers !! id ≫= addr_parse.
Proof.
  intros Hne. unfold joined_registry, peer_register at 1.
  etrans; [by apply (lookup_insert_ne (M := gmap N))|]. apply option_eq. intros a. rewrite (lookup_foldl_register _
    (λ k, if decide (k ≠ own) then s ← peers !! k; a ← addr_parse s; Some (k, a) else None)).
  - split.
    + intros (k & Hk & Hv). case_decide; [|done]. apply bind_Some in Hv as (s & Hs & (b & Hb & [= -> ->])%bind_Some).
      by rewrite Hs.
    + intros (s & Hs & Ha)%bind_Some. exists id. split.
      * rewrite hash_keys_perm. apply list_elem_of_fmap. exists (id, s). by rewrite elem_of_map_to_list.
      * rewrite decide_True by done. by rewrite Hs; simpl; rewrite Ha.
  - intros reg k. destruct (peers !! k) as [s|]; [|by case_decide]. case_decide; [|done]. simpl. by destruct (addr_parse s).
  - intros x y k b c _ _ Hx Hy. repeat case_decide; simplify_option_eq; done.
Qed.

Lemma announced_addr_parse n : addr_parse (announced_addr n) = derived_raft_addr <$> addr_parse (cn_addr n).
Proof.
  unfold announced_addr. destruct (addr_parse (cn_addr n)) as [a|] eqn:Ha; [|done]. simpl.
  apply (addr_parse_print _ _ _ Ha). unfold u16_add, u16_max.
  pose proof (N.mod_upper_bound (sock_port a + 10) 65536). lia.
Qed.

(** A restarted node knows exactly the other registered nodes, at the addresses derived from theirs. *)
Lemma recovered_registry_spec own s id addr :
  sm_inv s → raft_ids_ok s →
  recovered_registry own s !! id = Some addr ↔
  id ≠ own ∧ ∃ n a, get_node (cn_node_id n) s = Some n ∧ get_raft_id (cn_node_id n) s = Some id ∧
    addr_parse (cn_addr n) = Some a ∧ addr = derived_raft_addr a.
Proof.
  intros Hinv [_ Hids]. unfold recovered_registry. rewrite (lookup_foldl_register _
    (λ n, i ← sm_node_raft_map s !! cn_node_id n;
          if decide (i ≠ own) then a ← addr_parse (cn_addr n); Some (i, derived_raft_addr a) else None)).
  - split.
    + intros (n & [k Hn]%elem_of_btree_values & (i & Hi & Hv)%bind_Some). case_decide; [|done].
      apply bind_Some in Hv as (a & Ha & [= -> <-]). split; [done|]. exists n, a. split_and!; [|done..].
      unfold get_node. by rewrite <-(inv_nodes _ Hinv _ _ Hn).
    + intros (Hne & n & a & Hn & Hi & Ha & ->). exists n. split.
      * apply elem_of_btree_values. by exists (to_string (cn_node_id n)).
      * unfold get_raft_id in Hi. rewrite Hi. simpl. rewrite decide_True by done. by rewrite Ha.
  - intros reg n. destruct (sm_node_raft_map s !! _); [|done]. simpl. case_decide; [|done].
    by destruct (addr_parse _).
  - intros n1 n2 k b c [k1 Hn1]%elem_of_btree_values [k2 Hn2]%elem_of_btree_values
      (i & Hi & Hv1)%bind_Some (j & Hj & Hv2)%bind_Some.
    repeat case_decide; try done. apply bind_Some in Hv1 as (a1 & Ha1 & [= -> <-]), Hv2 as (a2 & Ha2 & [= -> <-]).
    assert (cn_node_id n1 = cn_node_id n2) as Heq by by eapply Hids.
    rewrite (inv_nodes _ Hinv _ _ Hn1) in Hn1. rewrite (inv_nodes _ Hinv _ _ Hn2), <-Heq in Hn2. congruence.
Qed.

(** A node that joins and one that restarts know the same peers. *)
Lemma joined_recovered own addr s id :
  sm_inv s → raft_ids_ok s → id ≠ own →
  joined_registry own addr (join_peers s) !! id = recovered_registry own s !! id.
Proof.
  intros Hinv Hids Hne. rewrite joined_registry_other by done. apply option_eq. intros a.
  rewrite recovered_registry_spec by done. split.
  - intros (text & Ht & Ha)%bind_Some. apply join_peers_spec in Ht as (n & Hn & Hi & ->); [|done..].
    rewrite announced_addr_parse in Ha. apply fmap_Some in Ha as (a0 & Ha0 & ->). split; [done|]. by exists n, a0.
  - intros (_ & n & a0 & Hn & Hi & Ha0 & ->).
    assert (join_peers s !! id = Some (announced_addr n)) as -> by (apply join_peers_spec; eauto).
    simpl. by rewrite announced_addr_parse, Ha0.
Qed.

(** A map is the map of its entries, in whatever order it is iterated. *)
Lemma list_to_map_entries {A} (m : gmap N A) :
  list_to_map (reverse (omap (λ k, pair k <$> m !! k) (hash_keys m))) = m.
Proof.
  set (es := omap (λ k, pair k <$> m !! k) (hash_keys m)).
  assert (∀ k, k ∈ hash_keys m ↔ is_Some (m !! k)) as Hkeys.
  { intros k. rewrite hash_keys_perm, list_elem_of_fmap. split.
    - intros ([k' a] & -> & Hin). apply elem_of_map_to_list in Hin. by eexists.
    - intros [a Ha]. exists (k, a). by rewrite elem_of_map_to_list. }
  assert (es.*1 = hash_keys m) as Hfst.
  { unfold es. assert (∀ k, k ∈ hash_keys m → is_Some (m !! k)) as Hs by (intros k; by apply Hkeys).
    clear es Hkeys. induction (hash_keys m) as [|k ks IH]; csimpl; [done|].
    destruct (Hs k) as [a Ha]; [by left|]. rewrite Ha. csimpl. f_equal. apply IH. intros k' Hk'. apply Hs. by right. }
  assert (NoDup (reverse es).*1) as Hnd.
  { rewrite fmap_reverse, Hfst. rewrite reverse_Permutation, hash_keys_perm. apply NoDup_fst_map_to_list. }
  apply map_eq. intros k. apply option_eq. intros a. rewrite <- elem_of_list_to_map by done.
  rewrite reverse_Permutation. unfold es. rewrite list_elem_of_omap. split.
  - intros (k' & _ & (b & Hb & [= -> ->])%fmap_Some). done.
  - intros Ha. exists k. rewrite Hkeys, Ha. split; [by eexists|done].
Qed.

Lemma de_peer_entries (m : gmap N string) ks entries :
  mapM de_peer (omap (λ k, (λ a, (u64_to_string k, JString a)) <$> m !! k) ks) = Some entries →
  entries = omap (λ k, pair k <$> m !! k) ks.
Proof.
  revert entries. induction ks as [|k ks IH]; intros entries; csimpl; [by intros [= <-]|].
  destruct (m !! k) as [a|]; csimpl; [|by apply IH].
  intros (e & He & (es & Hes & [= <-])%bind_Some)%bind_Some. rewrite (IH _ Hes). f_equal.
  unfold de_peer in He. simpl in He. rewrite u64_of_to_string in He. simpl in He. case_decide; naive_solver.
Qed.

(** The answer to a join, read. *)
Lemma join_response_read r r' : de_join_response (ser_join_response r) = Some r' → r' = r.
Proof.
  unfold de_join_response, ser_join_response. simpl. intros ([p src] & Hr & ->)%fmap_Some.
  rewrite reader_bind in Hr. apply bind_Some in Hr as ([id src1] & Hid & Hr). simpl in Hr.
  unfold field, field_or in Hid. simpl in Hid. apply bind_Some in Hid as (b & Hb & [= <- <-]).
  unfold de_u64, de_uint in Hb. case_decide; [|done]. injection Hb as <-.
  rewrite reader_bind in Hr. apply bind_Some in Hr as ([peers src2] & Hp & Hr). simpl in Hr. injection Hr as <- <-.
  unfold field_default, field_or in Hp. simpl in Hp. apply bind_Some in Hp as (m & Hm & [= <- <-]).
  destruct r as [raft_id peers0]. simpl in *. f_equal.
  apply bind_Some in Hm as (entries & He%de_peer_entries & [= <-]). rewrite He. apply list_to_map_entries.
Qed.

End registries.

(** ** Joining over the network *)

Section joining.
Context `{!UuidDisplay} `{!UuidUrl} `{!RaftTypes} `{!JsonText} `{!HttpText} `{!Chrono} `{!AddrText}.
Context `{!HashIter N} `{!HashIter DiskId}.
Context {W : Type} `{!Raft W} `{!RaftLaws W} `{!RaftMembership W} `{!RaftNodeLaws W}.
Implicit Types hw : HttpWorld W.

Definition seed_endpoint (seed : SocketAddr) : string :=
  "http://" +:+ sock_ip seed +:+ ":" +:+ u64_to_string (sock_port seed).

Lemma join_url_endpoint seed : join_url seed = seed_endpoint seed +:+ "/api/v1/cluster/join".
Proof. unfold join_url, seed_endpoint. by rewrite <- !string_app_assoc. Qed.

#[global] Instance codec_join_request : Codec de_join_request ser_join_request (λ _, True).
Proof.
  split; intros r; unfold de_join_request, ser_join_request; simpl.
  - intros _. read_fields. by destruct r.
  - intros r' ([p src] & Hr & ->)%fmap_Some. accepted_fields Hr. injection Hr as <- <-. by destruct r.
Qed.

Lemma serve_join env body st :
  serve (W := W) env (MkHttpRequest POST "/api/v1/cluster/join" body) st = with_json de_join_request body cluster_join st.
Proof.
  unfold serve. by replace (find_route routes _ _) with (Ok (E := N) (ClusterJoinEp, @nil string))
    by (vm_compute; reflexivity).
Qed.

(** What the seed did when it answers with success. *)
Lemma cluster_join_ok req st st' resp :
  cluster_join req st = (st', resp) → is_success resp = true →
  ∃ raft_id w1 r, svc_register_node (jq_node_id req) (jq_data_addr req) (as_metadata st) = (w1, Ok raft_id) ∧
    add_learner raft_id w1 = (as_metadata st', r) ∧
    resp = json_response 200 (ser_join_response (MkJoinResponse raft_id (join_peers (sm_data (as_metadata st'))))).
Proof.
  unfold cluster_join, HttpApi.on_service. destruct (svc_register_node _ _ _) as [w1 r1] eqn:Hreg.
  destruct r1 as [raft_id|e]; simpl; [|by intros [= <- <-]].
  destruct (add_learner raft_id w1) as [w2 r2] eqn:Hadd. intros [= <- <-] _. exists raft_id, w1, r2.
  by rewrite Hadd.
Qed.

(** The identifier of a registration is the node's, then and later. *)
Lemma register_node_id node_id addr w w1 raft_id :
  svc_register_node node_id addr w = (w1, Ok raft_id) →
  get_raft_id node_id (sm_data w1) = Some raft_id ∧
  ∃ pre, raft_log w `prefix_of` pre ∧ raft_log w1 = pre ++ [RegisterNode node_id addr].
Proof.
  intros (pre & s & rs & resp & Hpre & Hlog & _ & Hreq & Hdec)%svc_call_ok. split; [|by exists pre].
  simpl in Hreq. apply Return_pair in Hreq as [-> ->]. unfold apply_register_node in *. unfold get_raft_id.
  destruct (sm_node_raft_map s !! node_id) as [id|] eqn:Hn; simpl in Hdec; injection Hdec as <-.
  - done.
  - simpl. apply lookup_insert_eq.
Qed.

Lemma sm_data_raft_ids w : N.of_nat (length (raft_log w)) < u64_modulus → raft_ids_ok (sm_data w).
Proof.
  intros Hlen. destruct (raft_applied_state w) as [rs Hw].
  apply (raft_ids_requests _ _ _ _ Hw raft_ids_default). simpl. rewrite length_take. lia.
Qed.

Lemma raft_id_kept w w' n id :
  advances raft_applied w w' → N.of_nat (length (raft_log w')) < u64_modulus →
  get_raft_id n (sm_data w) = Some id → get_raft_id n (sm_data w') = Some id.
Proof.
  intros [Hlog Hn] Hlen. destruct (raft_applied_state w) as [rs Hw], (raft_applied_state w') as [rs' Hw'].
  destruct (take_prefix_of _ _ _ _ Hlog Hn) as [k Hk].
  assert (N.of_nat (length (take (raft_applied w') (raft_log w'))) < u64_modulus) as Hlen' by (rewrite length_take; lia).
  rewrite Hk in Hw', Hlen'. rewrite length_app in Hlen'. rewrite apply_requests_app, Hw in Hw'. simpl in Hw'.
  destruct (apply_requests k (sm_data w)) as [[s rs2]|] eqn:Hk'; [|done]. injection Hw' as <- _.
  destruct (raft_ids_requests _ _ _ _ Hw raft_ids_default) as (Hok & Hle & _); [simpl; lia|].
  destruct (raft_ids_requests _ _ _ _ Hk' Hok) as (_ & _ & Hsub); [simpl in Hle; lia|].
  unfold get_raft_id. intros Hid. by eapply lookup_weaken.
Qed.

#[local] Instance seed_transport seed : HttpTransport (HttpWorld W) := http_network (seed_endpoint seed).

(** C23: A node that joins over HTTP becomes a member and knows the cluster: whatever the network
    and other clients do meanwhile, when the seed's answer arrives the node's
    registration is in the log, the identifier in the answer is the node's own in the
    state the seed answered from (and belongs to no other node), and the registry the
    node starts Raft with holds itself and exactly the other registered nodes, each at the
    address derived from its data address: the registry it would rebuild on a restart. *)
Theorem joined_node_knows_cluster seed node_id raft_addr data_addr hw hw' jr :
  N.of_nat (length (raft_log (hw_service hw'))) < u64_modulus →
  try_join (HttpTransport0 := seed_transport seed) [seed] (MkJoinRequest node_id (to_string raft_addr) data_addr) hw
    = (hw', Some jr) →
  let own := js_raft_id jr in
  let registry := joined_registry own raft_addr (js_peers jr) in
  ∃ w pre, raft_log (hw_service hw) `prefix_of` pre ∧ pre ++ [RegisterNode node_id data_addr] `prefix_of` raft_log w ∧
    raft_log w `prefix_of` raft_log (hw_service hw') ∧
    (∀ n, get_raft_id n (sm_data w) = Some own ↔ n = node_id) ∧
    registry !! own = Some raft_addr ∧
    (∀ id, id ≠ own → registry !! id = recovered_registry own (sm_data w) !! id) ∧
    (∀ id addr, id ≠ own → registry !! id = Some addr ↔
       ∃ n a, get_node (cn_node_id n) (sm_data w) = Some n ∧ get_raft_id (cn_node_id n) (sm_data w) = Some id ∧
         addr_parse (cn_addr n) = Some a ∧ addr = derived_raft_addr a).
Proof.
  intros Hlen Hjoin own registry. simpl in Hjoin. rewrite join_url_endpoint in Hjoin.
  destruct (network_send _ _ _ _ hw) as [hw1 r] eqn:Hsend. apply network_send_spec in Hsend as [_ Hsend].
  destruct r as [resp|e]; [|done]. destruct (is_success resp) eqn:Hsucc; [|done].
  destruct (response_json de_join_response resp) as [jr'|] eqn:Hjson; [|done]. injection Hjoin as -> ->.
  destruct (Hsend resp eq_refl) as (env & st1 & st2 & resp0 & [Hl1 _] & Hserve & [Hl2 Ha2] & Hrecv).
  cbn [fmap option_fmap option_map] in Hserve. rewrite serve_join in Hserve. set (req := MkJoinRequest _ _ _) in *.
  destruct (with_json_codec_only de_join_request ser_join_request (λ _, True) (cluster_join (W := W)) req st1 _)
    as [[Hh _]|(status & Hstatus & Hh)]; rewrite Hh in Hserve.
  2: { injection Hserve as <- <-. by destruct (rejection_not_success status resp). }
  assert (is_success resp0 = true) as Hsucc0 by (unfold is_success in *; by rewrite <- (proj1 Hrecv)).
  destruct (cluster_join_ok _ _ _ _ Hserve Hsucc0) as (raft_id & w1 & r & Hreg & Hadd & ->).
  apply (received_json _ _ _ _ _ Hrecv) in Hjson. apply join_response_read in Hjson as ->. simpl in own, registry.
  destruct (register_node_id _ _ _ _ _ Hreg) as [Hid (pre & Hpre & Hlog)].
  pose proof (add_learner_advances raft_id w1) as Hadv. rewrite Hadd in Hadv. simpl in Hadv.
  set (w := as_metadata st2) in *.
  assert (N.of_nat (length (raft_log w)) < u64_modulus) as Hlen2 by (apply prefix_length in Hl2; lia).
  pose proof (sm_data_raft_ids w Hlen2) as Hids. pose proof (sm_inv_reachable _ (sm_data_reachable w)) as Hinv.
  assert (get_raft_id node_id (sm_data w) = Some own) as Hown by by eapply raft_id_kept.
  exists w, pre. split_and!.
  - by etrans.
  - destruct Hadv as [Hadv _]. by rewrite Hlog in Hadv.
  - done.
  - intros n. split; [|by intros ->]. intros Hn. by apply (proj2 Hids n node_id own).
  - apply joined_registry_own.
  - intros id Hne. by apply joined_recovered.
  - intros id addr Hne. unfold registry. rewrite joined_recovered, recovered_registry_spec by done. naive_solver.
Qed.

End joining.

(** ** Witnesses and evaluation *)

Module JoinDemo.
Export Demo HttpDemo.

Definition seed : SocketAddr := MkSocketAddr "10.0.0.1" 9801.

Definition first_node : NodeId := NodeId_new 11.

Definition second_node : NodeId := NodeId_new 12.

Definition third_node : NodeId := NodeId_new 13.

(** The seed has registered itself. *)
Definition seed_log : list MetadataRequest := [RegisterNode first_node "10.0.0.1:9800"].

Definition cluster (xs : list Exchange) : HttpWorld (list MetadataRequest) := MkHttpWorld (MkAppState seed_log ∅ []) xs.

Definition join_req : JoinRequest := MkJoinRequest second_node "10.0.0.2:9810" "10.0.0.2:9800".

(** A Raft node whose membership is part of the state. *)
Definition member_raft : Raft (list MetadataRequest * gset N) :=
  {| client_write := λ req w, let '(log, r) := client_write (Raft := single_raft) req w.1 in (log, w.2, r);
     sm_data := λ w, single_state w.1 |}.

Definition member_membership : RaftMembership (list MetadataRequest * gset N) :=
  {| joint_config := λ w, [w.2];
     add_learner := λ _ w, (w, Ok tt);
     change_membership := λ ms w, (w.1, ms, Ok tt);
     raft_background := λ _ w, w |}.

(** The configuration of the second node; [bind_addr] is its explicit Raft address, if any. *)
Definition config2 (bind_addr : option SocketAddr) : NodeConfig :=
  MkNodeConfig None (MkSocketAddr "10.0.0.2" 9800) "/data" (MkStorageSection ["/mnt/disk0"] 4 86400)
    (MkRaftSection 150 300 50 64 10000 bind_addr) (MkGossipSection (MkSocketAddr "10.0.0.2" 9801) [seed] 1000 4)
    (MkProtocolSection 67108864 5000 30000 default_mgmt_addr) None None.

#[export] Instance always_runs : RaftProcess (list MetadataRequest) :=
  {| has_existing_state := λ log, negb (bool_decide (log = []));
     raft_new := λ _ _ _ log, (log, Ok tt);
     rpc_bind := λ _ log, (log, Ok tt);
     raft_initialize := λ _ log, (log, Ok tt) |}.

End JoinDemo.
Import JoinDemo.

Lemma joined_node_knows_cluster_witness :
  ∃ jr : JoinResponse, joined_registry (js_raft_id jr) (MkSocketAddr "10.0.0.2" 9810) (js_peers jr) !! js_raft_id jr =
    Some (MkSocketAddr "10.0.0.2" 9810).
Proof.
  destruct (try_join (HttpTransport0 := seed_transport seed) [seed] join_req (cluster [deliver])) as [hw' r] eqn:Hr.
  assert (∃ jr, r = Some jr) as [jr ->] by (vm_compute in Hr; injection Hr as _ <-; eexists; reflexivity).
  assert (N.of_nat (length (raft_log (hw_service hw'))) < u64_modulus) as Hlen
    by (vm_compute in Hr; injection Hr as <- _; reflexivity).
  pose proof (joined_node_knows_cluster seed second_node (MkSocketAddr "10.0.0.2" 9810) "10.0.0.2:9800"
    (cluster [deliver]) hw' jr Hlen Hr) as Hj.
  exists jr. destruct Hj as (w & pre & _ & _ & _ & _ & Hown & _). exact Hown.
Defined.

(** Of two nodes that join before the first is promoted, only the second becomes a voter:
    each promotion installs the members of the time of its join. *)
Theorem concurrent_joins_lose_a_voter :
  let join := λ n addr st, (cluster_join (Raft0 := member_raft) (RaftMembership0 := member_membership)
                              (MkJoinRequest n addr addr) st).1 in
  let st := join third_node "10.0.0.3:9800" (join second_node "10.0.0.2:9800"
              (MkAppState (seed_log, {[1]}) ∅ [])) in
  let promote := run_promotion (RaftMembership0 := member_membership) in
  (as_metadata (promote st)).2 = {[1; 2]} ∧ (as_metadata (promote (promote st))).2 = {[1; 3]}.
Proof. vm_compute. split; reflexivity. Qed.

(** The other nodes derive a node's Raft address from its data address, also when
    its configuration says something else. *)
Theorem configured_raft_addr_unknown :
  let log := seed_log ++ [RegisterNode second_node (to_string (nc_listen_addr (config2 None)))] in
  let seen := recovered_registry 1 (single_state log) !! 2 in
  seen = Some (raft_bind_addr (config2 None)) ∧
  seen ≠ Some (raft_bind_addr (config2 (Some (MkSocketAddr "10.0.0.2" 7000)))).
Proof. vm_compute. split; [reflexivity|discriminate]. Qed.

(** A node that finds Raft state but is not registered in it takes the identifier of the
    first node. *)
Theorem unregistered_node_takes_first_id :
  get_raft_id first_node (single_state seed_log) = Some 1 ∧
  (recover_raft (config2 None) third_node seed_log).2 = Ok (1, ∅).
Proof. vm_compute. split; reflexivity. Qed.
