(* ===== verification/RateLimit.v ===== *)
(** * The budget of background work (crates/blockyard-storage/src/background/rate_limit.rs)

    The token bucket of which every background worker takes tokens before it does
    I/O.  The token count is an atomic, the time of the last refill is behind a
    mutex, and several workers call [try_acquire] at once: the calls are a step
    relation at the granularity of the atomic accesses and of the lock.  [try_acquire]
    and [acquire] are also given as functions, as a worker that runs alone sees
    them; [acquire] polls a clock. *)

From S2P Require Import Prelude.

#[local] Open Scope N_scope.

(** Instants and durations are in nanoseconds. *)
Record TokenBucket := MkTokenBucket {
  tb_capacity : N;
  tb_refill_rate : N;
  tb_tokens : N;
  tb_last_refill : N
}.

Definition TokenBucket_new (capacity refill_rate now : N) : TokenBucket :=
  MkTokenBucket capacity refill_rate capacity now.

Definition set_tokens (n : N) (tb : TokenBucket) : TokenBucket :=
  MkTokenBucket (tb_capacity tb) (tb_refill_rate tb) n (tb_last_refill tb).

Definition set_refilled (now n : N) (tb : TokenBucket) : TokenBucket :=
  MkTokenBucket (tb_capacity tb) (tb_refill_rate tb) n now.

(** [elapsed.as_millis() as u64]. *)
Definition as_millis (d : N) : N := (d `div` 1000000) `mod` u64_modulus.

(** The tokens that the time since the last refill is worth. *)
Definition new_tokens (now : N) (tb : TokenBucket) : N :=
  u64_mul (as_millis (now - tb_last_refill tb)) (tb_refill_rate tb) `div` 1000.

Definition new_total (new current : N) (tb : TokenBucket) : N := N.min (u64_add current new) (tb_capacity tb).

Definition refill (now : N) (tb : TokenBucket) : TokenBucket :=
  let new := new_tokens now tb in
  if decide (0 < new) then set_refilled now (new_total new (tb_tokens tb) tb) tb else tb.

Definition available (now : N) (tb : TokenBucket) : TokenBucket * N :=
  let tb := refill now tb in (tb, tb_tokens tb).

(** A call that nobody disturbs: its exchange succeeds. *)
Definition try_acquire (now count : N) (tb : TokenBucket) : TokenBucket * bool :=
  let tb := refill now tb in
  let current := tb_tokens tb in
  if decide (count ≤ current) then (set_tokens (current - count) tb, true) else (tb, false).

(** ** Time *)

Class Timer (W : Type) := {
  instant_now : W → N;
  sleep_ms : N → W → W
}.

(** A sleep lasts at least as long as it was asked to. *)
Class TimerLaws (W : Type) `{!Timer W} : Prop :=
  sleep_lasts ms (w : W) : instant_now w + ms * 1000000 ≤ instant_now (sleep_ms ms w).

Section Acquire.
Context {W : Type} `{!Timer W}.

(** The polls of [acquire]; [None] when it has not returned after [fuel] of them. *)
Fixpoint acquire_loop (fuel : nat) (count : N) (tb : TokenBucket) (w : W) : option (TokenBucket * W) :=
  match fuel with
  | O => None
  | S fuel =>
      let '(tb, acquired) := try_acquire (instant_now w) count tb in
      if acquired then Some (tb, w) else acquire_loop fuel count tb (sleep_ms 10 w)
  end.

(** Polls after which at least one more token has been added. *)
Definition refill_polls (tb : TokenBucket) : nat := N.to_nat (100 `div` tb_refill_rate tb + 2).

Definition acquire_polls (count : N) (tb : TokenBucket) : nat :=
  (N.to_nat (count - tb_tokens tb) * S (refill_polls tb) + 1)%nat.

(** [acquire]: [None] when it never returns. *)
Definition acquire (count : N) (tb : TokenBucket) (w : W) : option (TokenBucket * W) :=
  acquire_loop (acquire_polls count tb) count tb w.

End Acquire.

(** ** Concurrent calls *)

(** Where a call of [try_acquire] is: about to lock and read the clock; holding the
    lock, about to load the tokens; holding it, about to store the total; about to
    load, to exchange, to load and to exchange again; returned. *)
Inductive AcquirePc :=
  | AtRefill
  | AtRefillLoad (new now : N)
  | AtRefillStore (total now : N)
  | AtTokens
  | AtSwap (current : N)
  | AtTokensAgain
  | AtSwapAgain (current : N)
  | Finished (acquired : bool).

Record AcquireCall := MkAcquireCall { ac_count : N; ac_pc : AcquirePc }.

(** The bucket, the call that holds the lock, the clock and the calls. *)
Record SharedBucket := MkShared {
  sb_bucket : TokenBucket;
  sb_lock : option nat;
  sb_now : N;
  sb_calls : list AcquireCall
}.

(** What a step shows: tokens granted, and whether a refill was between its load and
    its store at that moment. *)
Record Grant := MkGrant { gr_count : N; gr_racing : bool }.

Inductive BucketEvent := BkTick (d : N) | BkRun (i : nat).

Definition storing (c : AcquireCall) : bool := match ac_pc c with AtRefillStore _ _ => true | _ => false end.

(** One access of call [i], at [pc]. *)
Definition call_access (i : nat) (count : N) (pc : AcquirePc) (s : SharedBucket)
    : option (TokenBucket * option nat * AcquirePc) :=
  let tb := sb_bucket s in
  match pc with
  | AtRefill =>
      match sb_lock s with
      | Some _ => None
      | None =>
          let new := new_tokens (sb_now s) tb in
          if decide (0 < new) then Some (tb, Some i, AtRefillLoad new (sb_now s)) else Some (tb, None, AtTokens)
      end
  | AtRefillLoad new now => Some (tb, sb_lock s, AtRefillStore (new_total new (tb_tokens tb) tb) now)
  | AtRefillStore total now => Some (set_refilled now total tb, None, AtTokens)
  | AtTokens =>
      Some (tb, sb_lock s, if decide (count ≤ tb_tokens tb) then AtSwap (tb_tokens tb) else Finished false)
  | AtSwap current =>
      if decide (tb_tokens tb = current)
      then Some (set_tokens (current - count) tb, sb_lock s, Finished true)
      else Some (tb, sb_lock s, AtTokensAgain)
  | AtTokensAgain =>
      Some (tb, sb_lock s, if decide (count ≤ tb_tokens tb) then AtSwapAgain (tb_tokens tb) else Finished false)
  | AtSwapAgain current =>
      if decide (tb_tokens tb = current)
      then Some (set_tokens (current - count) tb, sb_lock s, Finished true)
      else Some (tb, sb_lock s, Finished false)
  | Finished _ => None
  end.

Definition grant_of (count : N) (pc : AcquirePc) (calls : list AcquireCall) : list Grant :=
  match pc with Finished true => [MkGrant count (existsb storing calls)] | _ => [] end.

Definition bucket_do (ev : BucketEvent) (s : SharedBucket) : option (SharedBucket * list Grant) :=
  match ev with
  | BkTick d => Some (MkShared (sb_bucket s) (sb_lock s) (sb_now s + d) (sb_calls s), [])
  | BkRun i =>
      c ← sb_calls s !! i;
      '(tb, lock, pc) ← call_access i (ac_count c) (ac_pc c) s;
      Some (MkShared tb lock (sb_now s) (<[i := MkAcquireCall (ac_count c) pc]> (sb_calls s)),
            grant_of (ac_count c) pc (sb_calls s))
  end.

Fixpoint bucket_run (evs : list BucketEvent) (s : SharedBucket) : option (SharedBucket * list Grant) :=
  match evs with
  | [] => Some (s, [])
  | ev :: evs =>
      '(s, gs) ← bucket_do ev s;
      '(s, gs') ← bucket_run evs s;
      Some (s, gs ++ gs')
  end.

(** A fresh bucket and calls about to start. *)
Definition bucket_start (tb : TokenBucket) (now : N) (counts : list N) : SharedBucket :=
  MkShared tb None now ((λ n, MkAcquireCall n AtRefill) <$> counts).

Definition granted (gs : list Grant) : N := foldr N.add 0 (gr_count <$> gs).

(** Tokens granted while a refill was under way. *)
Definition raced (gs : list Grant) : N := granted (filter (λ g, gr_racing g = true) gs).

(** ** Arithmetic of the refill *)

Lemma mod_le_u64 n : n `mod` u64_modulus ≤ n.
Proof. apply N.Div0.mod_le. Qed.

(** Rounding and wrapping only lose tokens. *)
Lemma new_tokens_bound now tb :
  1000000000 * new_tokens now tb ≤ tb_refill_rate tb * (now - tb_last_refill tb).
Proof.
  unfold new_tokens, as_millis, u64_mul. set (e := now - tb_last_refill tb). set (r := tb_refill_rate tb).
  pose proof (mod_le_u64 (e `div` 1000000)). pose proof (mod_le_u64 ((e `div` 1000000) `mod` u64_modulus * r)).
  set (m := (e `div` 1000000) `mod` u64_modulus) in *. set (x := (m * r) `mod` u64_modulus) in *.
  pose proof (N.Div0.mul_div_le x 1000). pose proof (N.Div0.mul_div_le e 1000000). nia.
Qed.

Lemma new_total_bound new current tb :
  new_total new current tb ≤ tb_capacity tb ∧ new_total new current tb ≤ current + new.
Proof. unfold new_total, u64_add. pose proof (mod_le_u64 (current + new)). lia. Qed.

Lemma granted_app gs gs' : granted (gs ++ gs') = granted gs + granted gs'.
Proof. unfold granted. rewrite fmap_app. induction (gr_count <$> gs) as [|n l IH]; simpl; lia. Qed.

Lemma raced_app gs gs' : raced (gs ++ gs') = raced gs + raced gs'.
Proof. unfold raced. by rewrite filter_app, granted_app. Qed.

(** ** The invariant of concurrent calls *)

Section Limit.
Context (cap rate start : N).

(** What a call knows at its program point, [gs] being the grants so far. *)
Definition call_ok (gs : list Grant) (s : SharedBucket) (i : nat) (c : AcquireCall) : Prop :=
  let last := tb_last_refill (sb_bucket s) in
  match ac_pc c with
  | AtRefillLoad new t =>
      sb_lock s = Some i ∧ last ≤ t ∧ t ≤ sb_now s ∧ 1000000000 * new ≤ rate * (t - last)
  | AtRefillStore total t =>
      sb_lock s = Some i ∧ last ≤ t ∧ t ≤ sb_now s ∧ total ≤ cap ∧
      1000000000 * (granted gs + total) ≤ 1000000000 * (cap + raced gs) + rate * (t - start)
  | AtSwap current | AtSwapAgain current => ac_count c ≤ current
  | _ => True
  end.

Record bucket_ok (gs : list Grant) (s : SharedBucket) : Prop := {
  bo_capacity : tb_capacity (sb_bucket s) = cap;
  bo_rate : tb_refill_rate (sb_bucket s) = rate;
  bo_tokens : tb_tokens (sb_bucket s) ≤ cap;
  bo_start : start ≤ tb_last_refill (sb_bucket s);
  bo_last : tb_last_refill (sb_bucket s) ≤ sb_now s;
  bo_spent : 1000000000 * (granted gs + tb_tokens (sb_bucket s))
             ≤ 1000000000 * (cap + raced gs) + rate * (tb_last_refill (sb_bucket s) - start);
  bo_calls : ∀ i c, sb_calls s !! i = Some c → call_ok gs s i c
}.

Lemma bucket_ok_tick gs d s :
  bucket_ok gs s → bucket_ok gs (MkShared (sb_bucket s) (sb_lock s) (sb_now s + d) (sb_calls s)).
Proof.
  intros [? ? ? ? ? ? Hcalls]. split; simpl; try done; [lia|].
  intros i c Hc. specialize (Hcalls i c Hc). unfold call_ok in *. simpl. destruct (ac_pc c); naive_solver lia.
Qed.

(** A step of call [i] that leaves the bucket and the grants alone. *)
Lemma bucket_ok_move gs s i n lock pc :
  bucket_ok gs s → (lock = sb_lock s ∨ sb_lock s = None) →
  call_ok gs (MkShared (sb_bucket s) lock (sb_now s) []) i (MkAcquireCall n pc) →
  bucket_ok gs (MkShared (sb_bucket s) lock (sb_now s) (<[i := MkAcquireCall n pc]> (sb_calls s))).
Proof.
  intros [? ? ? ? ? ? Hcalls] Hlock Hi. split; simpl; try done. intros j c Hj.
  apply list_lookup_insert_Some in Hj as [(<- & <- & _)|[_ Hj]]; [exact Hi|].
  specialize (Hcalls j c Hj). unfold call_ok in *. simpl in *. destruct (ac_pc c); naive_solver.
Qed.

Lemma storing_exists calls j c total t :
  calls !! j = Some c → ac_pc c = AtRefillStore total t → existsb storing calls = true.
Proof.
  intros Hj Hpc. apply existsb_exists. exists c. split; [by apply list_elem_of_In, list_elem_of_lookup_2 with j|].
  unfold storing. by rewrite Hpc.
Qed.

Lemma raced_grant n b : raced [MkGrant n b] = if b then n else 0.
Proof. by destruct b; unfold raced, granted; simpl; lia. Qed.

(** A successful exchange. *)
Lemma bucket_ok_grant gs s i n current :
  bucket_ok gs s → tb_tokens (sb_bucket s) = current → n ≤ current →
  bucket_ok (gs ++ [MkGrant n (existsb storing (sb_calls s))])
    (MkShared (set_tokens (current - n) (sb_bucket s)) (sb_lock s) (sb_now s)
       (<[i := MkAcquireCall n (Finished true)]> (sb_calls s))).
Proof.
  intros [? ? ? ? ? ? Hcalls] Htok Hn. assert (granted [MkGrant n (existsb storing (sb_calls s))] = n) as Hg by (unfold granted; simpl; lia).
  split; simpl; rewrite ?granted_app, ?raced_app, ?Hg; try done; [lia|lia|].
  intros j c Hj. apply list_lookup_insert_Some in Hj as [(<- & <- & _)|[_ Hj]]; [done|].
  pose proof (Hcalls j c Hj) as Hok. unfold call_ok in *. simpl. destruct (ac_pc c) eqn:Hpc; try done.
  rewrite (storing_exists _ _ _ _ _ Hj Hpc), granted_app, raced_app, raced_grant.
  replace (granted [MkGrant n true]) with n by (unfold granted; simpl; lia). naive_solver lia.
Qed.

(** The store that ends a refill. *)
Lemma bucket_ok_store gs s i c total t :
  bucket_ok gs s → sb_calls s !! i = Some c → ac_pc c = AtRefillStore total t →
  bucket_ok gs (MkShared (set_refilled t total (sb_bucket s)) None (sb_now s)
                  (<[i := MkAcquireCall (ac_count c) AtTokens]> (sb_calls s))).
Proof.
  intros [? ? ? ? ? ? Hcalls] Hi Hpc. pose proof (Hcalls i c Hi) as Hok. unfold call_ok in Hok. rewrite Hpc in Hok.
  destruct Hok as (Hlock & ? & ? & ? & ?). split; simpl; try done; [lia|].
  intros j c' Hj. apply list_lookup_insert_Some in Hj as [(<- & <- & _)|[Hij Hj]]; [done|].
  specialize (Hcalls j c' Hj). unfold call_ok in *. simpl. destruct (ac_pc c'); naive_solver.
Qed.

Lemma bucket_ok_do gs ev s s' gs' : bucket_ok gs s → bucket_do ev s = Some (s', gs') → bucket_ok (gs ++ gs') s'.
Proof.
  intros Hok Hdo. destruct ev as [d|i]; simpl in Hdo; [simplify_eq; rewrite app_nil_r; by apply bucket_ok_tick|].
  destruct (sb_calls s !! i) as [c|] eqn:Hi; [|done]. simpl in Hdo.
  pose proof (bo_calls _ _ Hok i c Hi) as Hc. unfold call_ok in Hc.
  destruct (call_access _ _ _ _) as [[[tb lock] pc]|] eqn:Hacc; [|done]. simplify_eq/=.
  destruct (ac_pc c) as [|new t|total t| |current| |current|b] eqn:Hpc; simpl in Hacc.
  - destruct (sb_lock s) eqn:Hlock; [done|]. pose proof (bo_last _ _ Hok). pose proof (bo_rate _ _ Hok) as Hr.
    pose proof (new_tokens_bound (sb_now s) (sb_bucket s)) as Hnew. rewrite Hr in Hnew.
    destruct (decide _); simplify_eq/=; rewrite app_nil_r; apply bucket_ok_move; auto; unfold call_ok; simpl; auto with lia.
  - destruct Hc as (? & ? & ? & ?). simplify_eq/=. rewrite app_nil_r.
    destruct (new_total_bound new (tb_tokens (sb_bucket s)) (sb_bucket s)). destruct Hok.
    apply bucket_ok_move; auto; [by split|]. unfold call_ok; simpl. split_and!; try done; nia.
  - simplify_eq/=. rewrite app_nil_r. by apply bucket_ok_store.
  - simplify_eq/=. destruct (decide _); simpl; rewrite app_nil_r; apply bucket_ok_move; auto; by unfold call_ok.
  - destruct (decide _); simplify_eq/=; [by apply bucket_ok_grant|].
    rewrite app_nil_r; apply bucket_ok_move; auto; by unfold call_ok.
  - simplify_eq/=. destruct (decide _); simpl; rewrite app_nil_r; apply bucket_ok_move; auto; by unfold call_ok.
  - destruct (decide _); simplify_eq/=; [by apply bucket_ok_grant|].
    rewrite app_nil_r; apply bucket_ok_move; auto; by unfold call_ok.
  - done.
Qed.

Lemma bucket_ok_run evs gs s s' gs' :
  bucket_ok gs s → bucket_run evs s = Some (s', gs') → bucket_ok (gs ++ gs') s'.
Proof.
  revert gs s gs'. induction evs as [|ev evs IH]; intros gs s gs' Hok Hrun; simpl in Hrun.
  - simplify_eq. by rewrite app_nil_r.
  - destruct (bucket_do ev s) as [[s1 gs1]|] eqn:Hdo; [|done]. simpl in Hrun.
    destruct (bucket_run evs s1) as [[s2 gs2]|] eqn:Hrun'; [|done]. simplify_eq/=. rewrite app_assoc.
    eapply IH; [|done]. by eapply bucket_ok_do.
Qed.

End Limit.

Lemma bucket_ok_start cap rate now counts :
  bucket_ok cap rate now [] (bucket_start (TokenBucket_new cap rate now) now counts).
Proof.
  split; simpl; try (done || lia); [change (granted []) with 0; change (raced []) with 0; lia|]. intros i c Hc. apply list_lookup_fmap_Some in Hc as (? & -> & _). done.
Qed.

(** C35: The budget of background work is bounded: whatever calls of [try_acquire]
    run at once and however their accesses interleave, the bucket never holds more
    than its capacity, and the tokens granted since it was made are at most its
    capacity plus what the refill rate is worth for the time elapsed, apart from
    tokens granted while a refill is between its load and its store. *)
Theorem budget_is_bounded cap rate start counts evs s gs :
  bucket_run evs (bucket_start (TokenBucket_new cap rate start) start counts) = Some (s, gs) →
  tb_tokens (sb_bucket s) ≤ cap ∧
  1000000000 * granted gs ≤ 1000000000 * (cap + raced gs) + rate * (sb_now s - start).
Proof.
  intros Hrun. pose proof (bucket_ok_run _ _ _ _ _ _ _ _ (bucket_ok_start cap rate start counts) Hrun) as [].
  simpl in *. split; [done|]. nia.
Qed.

(** One access of call [i], the list of calls being [<[i := c]> calls]. *)
Lemma run_access i n pc tb lock now calls k tb' lock' pc' s' gs gs' :
  (i < length calls)%nat →
  call_access i n pc (MkShared tb lock now (<[i := MkAcquireCall n pc]> calls)) = Some (tb', lock', pc') →
  bucket_run (replicate k (BkRun i)) (MkShared tb' lock' now (<[i := MkAcquireCall n pc']> calls)) = Some (s', gs) →
  gs' = grant_of n pc' (<[i := MkAcquireCall n pc]> calls) ++ gs →
  bucket_run (replicate (S k) (BkRun i)) (MkShared tb lock now (<[i := MkAcquireCall n pc]> calls)) =
    Some (s', gs').
Proof.
  intros Hi Hacc Hrun ->. rewrite replicate_S. cbn [bucket_run bucket_do sb_calls sb_now].
  rewrite list_lookup_insert_eq by done. cbn [mbind option_bind ac_count ac_pc]. rewrite Hacc.
  cbn [mbind option_bind]. rewrite list_insert_insert_eq, Hrun. done.
Qed.

(** A call that runs alone does what [try_acquire] says, in at most five accesses. *)
Lemma try_acquire_alone tb now calls i n :
  (i < length calls)%nat →
  ∃ k gs, let '(tb', ok) := try_acquire now n tb in
    bucket_run (replicate k (BkRun i)) (MkShared tb None now (<[i := MkAcquireCall n AtRefill]> calls)) =
      Some (MkShared tb' None now (<[i := MkAcquireCall n (Finished ok)]> calls), gs) ∧
    granted gs = (if ok then n else 0).
Proof.
  intros Hi. set (k := if decide (0 < new_tokens now tb) then 3%nat else 1%nat).
  assert (∃ gs, granted gs = 0 ∧ ∀ j s' gs', 
    bucket_run (replicate j (BkRun i)) (MkShared (refill now tb) None now (<[i := MkAcquireCall n AtTokens]> calls)) = Some (s', gs') →
    bucket_run (replicate (k + j) (BkRun i)) (MkShared tb None now (<[i := MkAcquireCall n AtRefill]> calls)) = Some (s', gs ++ gs')) as (gs0 & Hgs0 & Hrefill).
  { unfold refill, k. destruct (decide _) as [Hnew|Hnew]; eexists [] ; (split; [done|]); intros j s' gs' Hrun; simpl Nat.add.
    - eapply (run_access _ _ AtRefill); [done|simpl; by rewrite decide_True| |done].
      eapply (run_access _ _ (AtRefillLoad _ _)); [done..| |done]. by eapply (run_access _ _ (AtRefillStore _ _)).
    - eapply (run_access _ _ AtRefill); [done|simpl; by rewrite decide_False|done|done]. }
  unfold try_acquire. destruct (decide (n ≤ tb_tokens (refill now tb))) as [Hle|Hle]; simpl.
  - exists (k + 2)%nat. eexists. split.
    + eapply Hrefill. eapply (run_access _ _ AtTokens); [done|simpl; by rewrite decide_True| |done].
      eapply (run_access _ _ (AtSwap _)); [done|simpl; by rewrite decide_True|done|done].
    + rewrite granted_app, Hgs0. unfold granted; simpl. lia.
  - exists (k + 1)%nat. eexists. split.
    + eapply Hrefill. eapply (run_access _ _ AtTokens); [done|simpl; by rewrite decide_False|done|done].
    + by rewrite granted_app, Hgs0.
Qed.

(** ** When [acquire] returns *)

(** A bucket that will grant [count] tokens, the clock of [w] being past its last
    refill; [lag] bounds the time a sleep of ten milliseconds takes. *)
Record budget_ok `{!Timer W} (lag count : N) (tb : TokenBucket) (w : W) : Prop := {
  bu_rate : 0 < tb_refill_rate tb;
  bu_count : count ≤ tb_capacity tb;
  bu_tokens : tb_tokens tb ≤ tb_capacity tb;
  bu_capacity : tb_capacity tb + u64_modulus `div` 1000 < u64_modulus;
  bu_lag : (lag `div` 1000000 + 1) * tb_refill_rate tb + 1000 < u64_modulus;
  bu_last : tb_last_refill tb ≤ instant_now w
}.

Section Returns.
Context {W : Type} `{!Timer W} `{!TimerLaws W} (lag count : N).
Hypothesis sleep_bounded : ∀ w : W, instant_now (sleep_ms 10 w) ≤ instant_now w + lag.

(** The thousandths of tokens that the elapsed time is worth, as the code computes them. *)
Definition worth (now : N) (tb : TokenBucket) : N :=
  ((now - tb_last_refill tb) `div` 1000000 * tb_refill_rate tb) `mod` u64_modulus.

Lemma new_tokens_worth now tb : new_tokens now tb = worth now tb `div` 1000.
Proof. unfold new_tokens, as_millis, u64_mul, worth. by rewrite N.Div0.mul_mod_idemp_l. Qed.

(** A poll that fails either has added at least one token, or finds less than a
    token's worth. *)
Lemma poll_fails tb (w : W) tb' :
  budget_ok lag count tb w → try_acquire (instant_now w) count tb = (tb', false) →
  tb_tokens tb' < count ∧
  (tb' = set_refilled (instant_now w) (tb_tokens tb') tb ∧ tb_tokens tb < tb_tokens tb' ∨
   tb' = tb ∧ worth (instant_now w) tb < 1000).
Proof.
  intros [_ Hcount Htok Hcap _ _]. unfold try_acquire, refill. rewrite new_tokens_worth.
  assert (worth (instant_now w) tb < u64_modulus) by by apply N.mod_lt.
  set (x := worth _ _) in *. destruct (decide (0 < _)) as [Hnew|Hnew].
  - destruct (decide _) as [|Hle]; intros [= <-]. simpl in *. split; [lia|]. left. split; [done|].
    unfold new_total, u64_add in *.
    pose proof (N.Div0.div_le_mono x u64_modulus 1000 ltac:(lia)). rewrite N.mod_small in * by lia. lia.
  - destruct (decide _) as [|Hle]; intros [= <-]. split; [lia|]. right. split; [done|].
    pose proof (N.mul_succ_div_gt x 1000). lia.
Qed.

Lemma poll_enough tb (w : W) :
  budget_ok lag count tb w → count ≤ tb_tokens tb → (try_acquire (instant_now w) count tb).2 = true.
Proof.
  intros Hb Hle. destruct (try_acquire _ _ _) as [tb' []] eqn:Htry; [done|].
  destruct (poll_fails _ _ _ Hb Htry) as [? [[_ ?]|[-> _]]]; lia.
Qed.

Lemma budget_after tb (w : W) tb' :
  budget_ok lag count tb w → try_acquire (instant_now w) count tb = (tb', false) →
  budget_ok lag count tb' (sleep_ms 10 w).
Proof.
  intros Hb Htry. pose proof (sleep_lasts 10 w).
  destruct (poll_fails _ _ _ Hb Htry) as [Hlt [[-> ?]|[-> _]]]; destruct Hb; split; simpl in *; lia.
Qed.

Lemma div_add_le a b : (a + b) `div` 1000000 ≤ a `div` 1000000 + b `div` 1000000 + 1.
Proof.
  pose proof (N.Div0.mul_div_le (a + b) 1000000). pose proof (N.mul_succ_div_gt a 1000000 ltac:(lia)).
  pose proof (N.mul_succ_div_gt b 1000000 ltac:(lia)). lia.
Qed.

(** Ten milliseconds later the same bucket is worth ten times its rate more, without
    wrapping. *)
Lemma worth_grows tb (w : W) :
  budget_ok lag count tb w → worth (instant_now w) tb < 1000 →
  worth (instant_now w) tb + 10 * tb_refill_rate tb ≤ worth (instant_now (sleep_ms 10 w)) tb.
Proof.
  intros [Hr _ _ _ Hlag Hlast] Hsmall. pose proof (sleep_bounded w) as Hb. pose proof (sleep_lasts 10 w) as Hs.
  unfold worth in *. set (e := instant_now w - tb_last_refill tb) in *.
  set (d := instant_now (sleep_ms 10 w) - instant_now w).
  replace (instant_now (sleep_ms 10 w) - tb_last_refill tb) with (e + d) by lia.
  set (r := tb_refill_rate tb) in *. set (p := (e + d) `div` 1000000 - e `div` 1000000).
  assert (10 ≤ p ∧ (e + d) `div` 1000000 = e `div` 1000000 + p) as [Hp ->].
  { pose proof (N.Div0.div_le_mono (e + 10 * 1000000) (e + d) 1000000 ltac:(lia)) as Hm.
    rewrite N.div_add in Hm by lia. lia. }
  assert (p ≤ lag `div` 1000000 + 1) as Hp'.
  { pose proof (div_add_le e d). pose proof (N.Div0.div_le_mono d lag 1000000 ltac:(lia)). lia. }
  rewrite N.mul_add_distr_r, <- N.Div0.add_mod_idemp_l, (N.mod_small (_ + _)); nia.
Qed.

Lemma acquire_loop_S fuel tb (w : W) :
  acquire_loop (S fuel) count tb w =
    let '(tb, acquired) := try_acquire (instant_now w) count tb in
    if acquired then Some (tb, w) else acquire_loop fuel count tb (sleep_ms 10 w).
Proof. done. Qed.

Lemma acquire_loop_more fuel fuel' tb (w : W) r :
  acquire_loop fuel count tb w = Some r → (fuel ≤ fuel')%nat → acquire_loop fuel' count tb w = Some r.
Proof.
  revert fuel' tb w. induction fuel as [|fuel IH]; intros fuel' tb w Hrun Hle; [done|].
  destruct fuel' as [|fuel']; [lia|]. simpl in *. destruct (try_acquire _ _ _) as [tb' []]; [done|].
  apply IH; [done|lia].
Qed.

(** Within [j] polls either the call returns or a token has been added. *)
Lemma acquire_waits (j fuel : nat) tb (w : W) :
  budget_ok lag count tb w →
  1000 ≤ worth (instant_now w) tb + N.of_nat j * (10 * tb_refill_rate tb) →
  (∀ tb' w', budget_ok lag count tb' w' → tb_tokens tb < tb_tokens tb' → tb_refill_rate tb' = tb_refill_rate tb →
    is_Some (acquire_loop fuel count tb' w')) →
  is_Some (acquire_loop (S j + fuel) count tb w).
Proof.
  revert tb w. induction j as [|j IH]; intros tb w Hb Hj Hnext; rewrite Nat.add_succ_l, acquire_loop_S;
    destruct (try_acquire _ _ _) as [tb' []] eqn:Htry; [by eexists| |by eexists|];
    destruct (poll_fails _ _ _ Hb Htry) as [Hlt [[Heq Hmore]|[-> Hsmall]]];
    pose proof (budget_after _ _ _ Hb Htry) as Hb'.
  - apply Hnext; [done..|]. by rewrite Heq.
  - lia.
  - destruct (Hnext _ _ Hb' Hmore) as [r Hr]; [by rewrite Heq|]. exists r. eapply acquire_loop_more; [done|lia].
  - apply IH; [done| |done]. pose proof (worth_grows _ _ Hb Hsmall). lia.
Qed.

Lemma acquire_within (d : nat) tb (w : W) :
  budget_ok lag count tb w → (N.to_nat (count - tb_tokens tb) ≤ d)%nat →
  is_Some (acquire_loop (d * S (refill_polls tb) + 1) count tb w).
Proof.
  revert tb w. induction d as [|d IH]; intros tb w Hb Hd.
  - simpl. pose proof (poll_enough tb w Hb ltac:(lia)). destruct (try_acquire _ _ _) as [tb' b]; simpl in *.
    subst b. by eexists.
  - replace (S d * S (refill_polls tb) + 1)%nat with (S (refill_polls tb) + (d * S (refill_polls tb) + 1))%nat by lia.
    apply acquire_waits; [done| |].
    + unfold refill_polls. rewrite N2Nat.id. destruct Hb. pose proof (N.mul_succ_div_gt 100 (tb_refill_rate tb)). nia.
    + intros tb' w' Hb' Hlt Hr. replace (refill_polls tb) with (refill_polls tb'); [apply IH; [done|lia]|].
      unfold refill_polls. by rewrite Hr.
Qed.

(** What a bucket is after tokens were acquired. *)
Lemma acquire_loop_keeps n fuel tb (w : W) tb' w' :
  budget_ok lag n tb w → acquire_loop fuel count tb w = Some (tb', w') →
  budget_ok lag n tb' w' ∧ instant_now w ≤ instant_now w'.
Proof.
  revert tb w. induction fuel as [|fuel IH]; intros tb w Hb Hrun; [done|]. rewrite acquire_loop_S in Hrun.
  assert (budget_ok lag n (refill (instant_now w) tb) w) as Hb1.
  { destruct Hb. unfold refill. destruct (decide _); split; simpl; try done. apply new_total_bound. }
  unfold try_acquire in Hrun. destruct (decide _); simpl in Hrun.
  - simplify_eq. split; [|done]. destruct Hb1. split; simpl; try done. lia.
  - pose proof (sleep_lasts 10 w). apply IH in Hrun as [? ?]; [split; [done|lia]|].
    destruct Hb1. split; try done. lia.
Qed.

(** Waiting for tokens only sleeps. *)
Lemma acquire_preserves (P : W → Prop) tb (w : W) tb' w' :
  (∀ ms w, P w → P (sleep_ms ms w)) → acquire count tb w = Some (tb', w') → P w → P w'.
Proof.
  unfold acquire. intros Hsleep. generalize (acquire_polls count tb). intros fuel. revert tb w.
  induction fuel as [|fuel IH]; intros tb w Hrun HP; [done|]. rewrite acquire_loop_S in Hrun.
  destruct (try_acquire _ _ _) as [tb1 []]; [by simplify_eq|]. eapply IH; [done|]. by apply Hsleep.
Qed.

Lemma acquire_ok n tb (w : W) :
  budget_ok lag n tb w → count ≤ n →
  ∃ tb' w', acquire count tb w = Some (tb', w') ∧ budget_ok lag n tb' w' ∧ instant_now w ≤ instant_now w'.
Proof.
  intros Hb Hn. assert (budget_ok lag count tb w) as Hb' by (destruct Hb; split; (done || lia)).
  destruct (acquire_within _ tb w Hb' (Nat.le_refl _)) as [[tb' w'] Hrun]. exists tb', w'. split; [done|].
  by eapply acquire_loop_keeps.
Qed.

End Returns.

Lemma refill_capacity now tb : tb_capacity (refill now tb) = tb_capacity tb.
Proof. unfold refill. by destruct (decide _). Qed.

Lemma refill_tokens now tb : tb_tokens tb ≤ tb_capacity tb → tb_tokens (refill now tb) ≤ tb_capacity tb.
Proof. unfold refill. destruct (decide _); simpl; [|done]. intros _. apply new_total_bound. Qed.

(** A call for more than the capacity polls for ever. *)
Lemma acquire_above_capacity `{!Timer W} fuel count tb (w : W) :
  tb_tokens tb ≤ tb_capacity tb → tb_capacity tb < count → acquire_loop fuel count tb w = None.
Proof.
  revert tb w. induction fuel as [|fuel IH]; intros tb w Htok Hcount; [done|]. simpl. unfold try_acquire.
  pose proof (refill_tokens (instant_now w) tb Htok). rewrite decide_False by lia.
  apply IH; by rewrite refill_capacity.
Qed.

(** C36: [acquire] returns exactly when the tokens asked for fit in the bucket: for a
    positive refill rate, some number of polls is enough if and only if the count is
    at most the capacity, and then the polls that [acquire] is given are enough,
    however long the bucket was idle. *)
Theorem acquire_returns `{!Timer W} `{!TimerLaws W} (lag count : N) tb (w : W) :
  (∀ w : W, instant_now (sleep_ms 10 w) ≤ instant_now w + lag) → budget_ok lag 0 tb w →
  ((∃ fuel, is_Some (acquire_loop fuel count tb w)) ↔ count ≤ tb_capacity tb) ∧
  (count ≤ tb_capacity tb → is_Some (acquire count tb w)).
Proof.
  intros Hsleep Hb. assert (count ≤ tb_capacity tb → is_Some (acquire count tb w)) as Hret.
  { intros Hcount. unfold acquire, acquire_polls. eapply (acquire_within lag); [done| |done]. by destruct Hb. }
  split; [split|done].
  - intros (fuel & r & Hr). destruct (decide (count ≤ tb_capacity tb)); [done|].
    rewrite acquire_above_capacity in Hr by (destruct Hb; lia). done.
  - intros Hcount. destruct (Hret Hcount) as [r Hr]. eexists. by exists r.
Qed.

Module BucketDemo.

(** A machine whose sleeps are exact; the world is the clock. *)
#[export] Instance exact_timer : Timer N := {| instant_now w := w; sleep_ms ms w := w + ms * 1000000 |}.

#[export] Instance exact_timer_laws : TimerLaws N.
Proof. intros ms w. simpl. lia. Qed.

(** The default budget of the scheduler, empty. *)
Definition empty_bucket : TokenBucket := MkTokenBucket 200 100 0 0.

(** Two calls; the first loads the tokens to refill, the second takes them all, and
    the first stores what it loaded. *)
Definition racing_calls : SharedBucket := bucket_start (TokenBucket_new 200 100 0) 0 [200; 200].

Definition race : list BucketEvent :=
  [BkRun 1; BkTick 10000000; BkRun 0; BkRun 0; BkRun 1; BkRun 1; BkRun 0; BkRun 0; BkRun 0].

End BucketDemo.
Import BucketDemo.

Lemma budget_is_bounded_witness :
  ∃ s gs, bucket_run race racing_calls = Some (s, gs) ∧ tb_tokens (sb_bucket s) ≤ 200 ∧
    1000000000 * granted gs ≤ 1000000000 * (200 + raced gs) + 100 * (sb_now s - 0).
Proof.
  destruct (bucket_run race racing_calls) as [[s gs]|] eqn:Hrun; [|vm_compute in Hrun; discriminate Hrun].
  exists s, gs. split; [reflexivity|]. exact (budget_is_bounded 200 100 0 [200; 200] race s gs Hrun).
Defined.

Lemma acquire_returns_witness : is_Some (acquire 10 empty_bucket (5 : N)).
Proof.
  apply (acquire_returns 10000000 10 empty_bucket (5 : N)).
  - intros w. simpl. lia.
  - split; vm_compute; congruence.
  - vm_compute. congruence.
Defined.

(** The refill loads and stores the tokens without an exchange: tokens taken in
    between come back, and 400 are granted within ten milliseconds from a bucket of
    200 that gains 100 in a second. *)
Theorem concurrent_refill_overspends :
  ∃ s gs, bucket_run race racing_calls = Some (s, gs) ∧ granted gs = 400 ∧ sb_now s = 10000000.
Proof. vm_compute. eauto. Qed.
