(* ===== verification/Repair.v ===== *)
(** * The repair queue (crates/blockyard-storage/src/background/repair.rs)

    Requests wait in a queue ordered by priority; each is served by copying the
    extent from a healthy disk, or by decoding it from fragments, to a target disk.
    The disks, the decoder and the clock are classes over a world [W].  A worker
    takes tokens of the shared bucket before each repair. *)

From S2P Require Import Prelude Common RateLimit EcCodec.

#[local] Open Scope N_scope.

Record RepairConfig := MkRepairConfig { max_concurrent : N; tokens_per_repair : N }.

Definition RepairConfig_default : RepairConfig := MkRepairConfig 4 10.

Inductive RepairType :=
  | Replication (healthy_sources : list DiskId)
  | ErasureCode (data_count parity_count : nat) (available_fragments : list (nat * DiskId)) (original_data_len : nat).

Record RepairRequest := MkRepairRequest {
  rq_extent_id : ExtentId;
  rq_version : N;
  rq_target_disk_id : DiskId;
  rq_repair_type : RepairType;
  rq_priority : N
}.

Record RepairOutcome := MkRepairOutcome {
  ro_extent_id : ExtentId;
  ro_target_disk_id : DiskId;
  ro_success : bool;
  ro_error : option string
}.

(** The traits of the disks and of the decoder.  Reads see the world and do not
    change it. *)
Class RepairExtentReader (W : Type) := rex_read : DiskId → ExtentId → N → W → result string (list N).

Class FragmentReader (W : Type) := rfr_read : DiskId → ExtentId → nat → W → result string (list N).

Class RepairExtentWriter (W : Type) := rwr_write : DiskId → ExtentId → N → list N → W → W * result string unit.

Class EcReconstructor := reconstruct : nat → nat → list (option (list N)) → nat → result string (list N).

Record RepairWorker := MkRepairWorker {
  rw_config : RepairConfig;
  rw_queue : list RepairRequest;
  rw_completed : list RepairOutcome
}.

Definition RepairWorker_new (config : RepairConfig) : RepairWorker := MkRepairWorker config [] [].

Definition set_queue (q : list RepairRequest) (r : RepairWorker) : RepairWorker :=
  MkRepairWorker (rw_config r) q (rw_completed r).

Definition push_completed (o : RepairOutcome) (r : RepairWorker) : RepairWorker :=
  MkRepairWorker (rw_config r) (rw_queue r) (rw_completed r ++ [o]).

(** The request goes before the first one whose priority number is greater. *)
Definition enqueue_position (request : RepairRequest) (q : list RepairRequest) : nat :=
  default (length q) (fst <$> list_find (λ r, rq_priority request < rq_priority r) q).

Definition enqueue (request : RepairRequest) (r : RepairWorker) : RepairWorker :=
  let pos := enqueue_position request (rw_queue r) in
  set_queue (take pos (rw_queue r) ++ request :: drop pos (rw_queue r)) r.

Definition queue_len (r : RepairWorker) : nat := length (rw_queue r).

Definition repaired (request : RepairRequest) : RepairOutcome :=
  MkRepairOutcome (rq_extent_id request) (rq_target_disk_id request) true None.

Definition repair_failed (request : RepairRequest) (error : string) : RepairOutcome :=
  MkRepairOutcome (rq_extent_id request) (rq_target_disk_id request) false (Some error).

(** A repair worker with the bucket it shares, in the world. *)
Record Background {W : Type} := MkBackground {
  bg_repair : RepairWorker;
  bg_bucket : TokenBucket;
  bg_world : W
}.
Arguments Background : clear implicits.
Arguments MkBackground {W}.

Section Repair.
Context {W : Type} `{!Timer W} `{!RepairExtentReader W} `{!FragmentReader W} `{!RepairExtentWriter W} `{!EcReconstructor}.
Implicit Types (st : Background W) (w : W).

Fixpoint repair_replication (request : RepairRequest) (sources : list DiskId) w : W * RepairOutcome :=
  match sources with
  | [] => (w, repair_failed request "all healthy sources failed")
  | source :: sources =>
      match rex_read source (rq_extent_id request) (rq_version request) w with
      | Ok data =>
          let '(w, res) := rwr_write (rq_target_disk_id request) (rq_extent_id request) (rq_version request) data w in
          match res with
          | Ok _ => (w, repaired request)
          | Err _ => repair_replication request sources w
          end
      | Err _ => repair_replication request sources w
      end
  end.

(** The fragments that can be read, each in its place. *)
Definition gather (request : RepairRequest) (total : nat) (available : list (nat * DiskId)) w
    : list (option (list N)) :=
  foldl (λ fragments '(idx, disk),
           match rfr_read disk (rq_extent_id request) idx w with
           | Ok data => if decide (idx < total)%nat then <[idx := Some data]> fragments else fragments
           | Err _ => fragments
           end) (replicate total None) available.

Definition repair_ec (request : RepairRequest) (data_count parity_count : nat) (available : list (nat * DiskId))
    (original_data_len : nat) w : W * RepairOutcome :=
  let total := (data_count + parity_count)%nat in
  let fragments := gather request total available w in
  let available_count := length (filter is_Some fragments) in
  if decide (available_count < data_count)%nat
  then (w, repair_failed request ("insufficient fragments: have " +:+ to_string (N.of_nat available_count) +:+
                                  ", need " +:+ to_string (N.of_nat data_count)))
  else
    match reconstruct data_count parity_count fragments original_data_len with
    | Ok reconstructed =>
        let '(w, res) :=
          rwr_write (rq_target_disk_id request) (rq_extent_id request) (rq_version request) reconstructed w in
        (w, match res with
            | Ok _ => repaired request
            | Err e => repair_failed request ("EC repair write failed: " +:+ e)
            end)
    | Err e => (w, repair_failed request ("EC reconstruction failed: " +:+ e))
    end.

Definition repair (request : RepairRequest) w : W * RepairOutcome :=
  match rq_repair_type request with
  | Replication healthy_sources => repair_replication request healthy_sources w
  | ErasureCode k m available len => repair_ec request k m available len w
  end.

Definition bg_enqueue (request : RepairRequest) st : Background W :=
  MkBackground (enqueue request (bg_repair st)) (bg_bucket st) (bg_world st).

(** [None] when the tokens are never granted. *)
Definition process_next st : option (Background W * option RepairOutcome) :=
  match rw_queue (bg_repair st) with
  | [] => Some (st, None)
  | request :: rest =>
      let r := set_queue rest (bg_repair st) in
      '(tb, w) ← acquire (tokens_per_repair (rw_config r)) (bg_bucket st) (bg_world st);
      let '(w, outcome) := repair request w in
      Some (MkBackground (push_completed outcome r) tb w, Some outcome)
  end.

Fixpoint process_all_loop (fuel : nat) (outcomes : list RepairOutcome) st : option (Background W * list RepairOutcome) :=
  if decide (queue_len (bg_repair st) = 0%nat) then Some (st, outcomes) else
  match fuel with
  | O => None
  | S fuel =>
      '(st, outcome) ← process_next st;
      process_all_loop fuel (outcomes ++ option_list outcome) st
  end.

(** Each iteration takes a request off the queue. *)
Definition process_all st : option (Background W * list RepairOutcome) :=
  process_all_loop (queue_len (bg_repair st)) [] st.

(** Requests arriving while the worker serves the queue. *)
Inductive RepairEvent := ReEnqueue (request : RepairRequest) | ReProcess.

(** The requests served are recorded. *)
Definition repair_do (ev : RepairEvent) st : option (Background W * list RepairRequest) :=
  match ev with
  | ReEnqueue request => Some (bg_enqueue request st, [])
  | ReProcess => '(st', _) ← process_next st; Some (st', take 1 (rw_queue (bg_repair st)))
  end.

Fixpoint repair_run (evs : list RepairEvent) st : option (Background W * list RepairRequest) :=
  match evs with
  | [] => Some (st, [])
  | ev :: evs =>
      '(st, served) ← repair_do ev st;
      '(st, served') ← repair_run evs st;
      Some (st, served ++ served')
  end.

End Repair.

(** ** The order of the queue *)

Definition priority_le : relation RepairRequest := λ a b, rq_priority a ≤ rq_priority b.

(** The requests of one priority. *)
Definition of_priority (p : N) (q : list RepairRequest) : list RepairRequest := filter (λ r, rq_priority r = p) q.

Definition enqueued (r : RepairRequest) (q : list RepairRequest) : list RepairRequest :=
  take (enqueue_position r q) q ++ r :: drop (enqueue_position r q) q.

Lemma enqueued_cons r x q :
  enqueued r (x :: q) = if decide (rq_priority r < rq_priority x) then r :: x :: q else x :: enqueued r q.
Proof.
  unfold enqueued, enqueue_position. simpl. destruct (decide _); [done|].
  by destruct (list_find _ q) as [[i y]|].
Qed.

Lemma enqueued_perm r q : enqueued r q ≡ₚ r :: q.
Proof. unfold enqueued. rewrite <- Permutation_middle. by rewrite take_drop. Qed.

Lemma enqueued_sorted r q : StronglySorted priority_le q → StronglySorted priority_le (enqueued r q).
Proof.
  induction 1 as [|x q Hq IH Hx]; [repeat constructor|]. rewrite enqueued_cons. destruct (decide _) as [Hlt|Hge].
  - constructor; [by constructor|]. constructor; [unfold priority_le; lia|].
    eapply Forall_impl; [done|]. unfold priority_le. intros y; simpl. lia.
  - constructor; [done|]. rewrite enqueued_perm. constructor; [unfold priority_le; lia|done].
Qed.

Lemma of_priority_cons p r q :
  of_priority p (r :: q) = if decide (rq_priority r = p) then r :: of_priority p q else of_priority p q.
Proof. done. Qed.

Lemma of_priority_app p q q' : of_priority p (q ++ q') = of_priority p q ++ of_priority p q'.
Proof. apply filter_app. Qed.

Lemma of_priority_above p q : Forall (λ r, p < rq_priority r) q → of_priority p q = [].
Proof.
  induction 1 as [|x q Hx _ IH]; [done|]. rewrite of_priority_cons, decide_False by lia. exact IH.
Qed.

(** A new request comes after the waiting ones of its priority. *)
Lemma enqueued_fifo p r q :
  StronglySorted priority_le q → of_priority p (enqueued r q) = of_priority p q ++ of_priority p [r].
Proof.
  induction 1 as [|x q Hq IH Hx]; [done|]. rewrite enqueued_cons. destruct (decide _) as [Hlt|Hge].
  - rewrite !(of_priority_cons p r). destruct (decide (rq_priority r = p)) as [<-|]; [|by rewrite app_nil_r].
    rewrite (of_priority_above _ (x :: q)); [done|]. constructor; [done|]. eapply Forall_impl; [done|].
    unfold priority_le. intros y; simpl. lia.
  - rewrite !(of_priority_cons p x). destruct (decide _); by rewrite IH.
Qed.

Definition enqueues (evs : list RepairEvent) : list RepairRequest :=
  omap (λ ev, match ev with ReEnqueue r => Some r | ReProcess => None end) evs.

(** An outcome names the request it answers. *)
Definition answers (r : RepairRequest) (o : RepairOutcome) : Prop :=
  ro_extent_id o = rq_extent_id r ∧ ro_target_disk_id o = rq_target_disk_id r ∧
  (ro_success o = true ↔ ro_error o = None).

Section Order.
Context {W : Type} `{!Timer W} `{!RepairExtentReader W} `{!FragmentReader W} `{!RepairExtentWriter W} `{!EcReconstructor}.
Implicit Types (st : Background W) (w : W).

Lemma answers_repaired r : answers r (repaired r).
Proof. done. Qed.

Lemma answers_failed r e : answers r (repair_failed r e).
Proof. split_and!; [done..|]. split; done. Qed.

Lemma repair_answers r w : answers r (repair r w).2.
Proof.
  unfold repair. destruct (rq_repair_type r) as [sources|k m available len].
  - revert w. induction sources as [|d sources IH]; intros w; simpl; [apply answers_failed|].
    destruct (rex_read _ _ _ _); [|apply IH]. destruct (rwr_write _ _ _ _ _) as [w' [|]]; [apply answers_repaired|apply IH].
  - unfold repair_ec. destruct (decide _); [apply answers_failed|]. destruct (reconstruct _ _ _ _); [|apply answers_failed].
    destruct (rwr_write _ _ _ _ _) as [w' [|]]; [apply answers_repaired|apply answers_failed].
Qed.

(** What serving the head of the queue does to the worker. *)
Lemma process_next_queue st st' o :
  process_next st = Some (st', o) →
  rw_queue (bg_repair st) = take 1 (rw_queue (bg_repair st)) ++ rw_queue (bg_repair st') ∧
  ∃ os, o = head os ∧ rw_completed (bg_repair st') = rw_completed (bg_repair st) ++ os ∧
        Forall2 answers (take 1 (rw_queue (bg_repair st))) os ∧ rw_config (bg_repair st') = rw_config (bg_repair st).
Proof.
  unfold process_next. destruct (rw_queue (bg_repair st)) as [|r rest] eqn:Hq; intros Hrun.
  - simplify_eq. rewrite Hq. split; [done|]. exists []. rewrite app_nil_r. auto.
  - destruct (acquire _ _ _) as [[tb w]|]; [|done]. simpl in Hrun.
    pose proof (repair_answers r w) as Hans. destruct (repair r w) as [w' out]. simplify_eq/=.
    split; [done|]. exists [out]. auto.
Qed.

Record order_ok (st0 : Background W) (arrived served : list RepairRequest) st : Prop := {
  oo_sorted : StronglySorted priority_le (rw_queue (bg_repair st));
  oo_fifo : ∀ p, of_priority p (served ++ rw_queue (bg_repair st)) = of_priority p arrived;
  oo_answers : ∃ os, rw_completed (bg_repair st) = rw_completed (bg_repair st0) ++ os ∧ Forall2 answers served os
}.

Lemma order_ok_do st0 arrived served st ev st' served' :
  order_ok st0 arrived served st → repair_do ev st = Some (st', served') →
  order_ok st0 (arrived ++ enqueues [ev]) (served ++ served') st'.
Proof.
  intros [Hs Hf (os & Hc & Ha)] Hdo. destruct ev as [r|]; simpl in Hdo.
  - simplify_eq/=. rewrite app_nil_r. split; simpl; [by apply enqueued_sorted| |by exists os].
    intros p. specialize (Hf p). fold (enqueued r (rw_queue (bg_repair st))).
    rewrite !of_priority_app in *. by rewrite (enqueued_fifo p r _ Hs), app_assoc, Hf.
  - destruct (process_next st) as [[st1 o]|] eqn:Hp; [|done]. simplify_eq/=.
    destruct (process_next_queue _ _ _ Hp) as (Hq & os' & _ & Hc' & Ha' & _). rewrite Hq in Hs. split.
    + by apply StronglySorted_app_1_r in Hs.
    + intros p. rewrite app_nil_r, <- (Hf p). rewrite Hq at 2. by rewrite (assoc_L (++)).
    + exists (os ++ os'). rewrite Hc', Hc, (assoc_L (++)). split; [done|]. by apply Forall2_app.
Qed.

Lemma order_ok_run st0 evs arrived served st st' served' :
  order_ok st0 arrived served st → repair_run evs st = Some (st', served') →
  order_ok st0 (arrived ++ enqueues evs) (served ++ served') st'.
Proof.
  revert arrived served st served'. induction evs as [|ev evs IH]; intros arrived served st served' Hok Hrun; simpl in Hrun.
  - simplify_eq. by rewrite !app_nil_r.
  - destruct (repair_do ev st) as [[st1 s1]|] eqn:Hdo; [|done]. simpl in Hrun.
    destruct (repair_run evs st1) as [[st2 s2]|] eqn:Hrun'; [|done]. simplify_eq/=.
    pose proof (order_ok_do _ _ _ _ _ _ _ Hok Hdo) as Hok1. specialize (IH _ _ _ _ Hok1 Hrun').
    unfold enqueues in *. rewrite <- (assoc_L (++)), <- omap_app, <- (assoc_L (++)) in IH. exact IH.
Qed.

(** Repairs are served in order: for every sequence of arrivals and services, the
    requests served and those waiting are, for each priority, exactly those that
    arrived, in the order of arrival; each served request has its own outcome, in
    order; and the waiting requests are sorted by priority, so that the next one
    served has the least priority number. *)
Theorem repairs_in_order evs st st' served :
  rw_queue (bg_repair st) = [] → repair_run evs st = Some (st', served) →
  (∀ p, of_priority p (served ++ rw_queue (bg_repair st')) = of_priority p (enqueues evs)) ∧
  StronglySorted priority_le (rw_queue (bg_repair st')) ∧
  ∃ os, rw_completed (bg_repair st') = rw_completed (bg_repair st) ++ os ∧ Forall2 answers served os.
Proof.
  intros Hq Hrun. assert (order_ok st [] [] st) as Hok.
  { split; rewrite ?Hq; [constructor|done|]. exists []. by rewrite app_nil_r. }
  destruct (order_ok_run _ _ _ _ _ _ _ Hok Hrun). by split_and!.
Qed.

End Order.

(** ** What repairs restore *)

(** What a verified read of an extent version, or of a fragment, on a disk gives. *)
Class RepairMedium (W : Type) := {
  rm_stored : W → DiskId → ExtentId → N → option (list N);
  rm_fragment : W → DiskId → ExtentId → nat → option (list N)
}.

(** Reads return what is stored; a write that succeeds stores its data, one that
    fails stores it, removes what was there or changes nothing; neither touches
    another extent, or the fragments of another disk, and time does not go back. *)
Class RepairLaws (W : Type) `{!Timer W} `{!RepairExtentReader W} `{!FragmentReader W} `{!RepairExtentWriter W}
    `{!RepairMedium W} : Prop := {
  rl_read d e v (w : W) data : rex_read d e v w = Ok data → rm_stored w d e v = Some data;
  rl_write d e v data (w w' : W) : rwr_write d e v data w = (w', Ok tt) → rm_stored w' d e v = Some data;
  rl_write_fails d e v data (w w' : W) err : rwr_write d e v data w = (w', Err err) →
    rm_stored w' d e v = rm_stored w d e v ∨ rm_stored w' d e v = Some data ∨ rm_stored w' d e v = None;
  rl_frame d e v data (w : W) d' e' v' : (d', e', v') ≠ (d, e, v) →
    rm_stored (rwr_write d e v data w).1 d' e' v' = rm_stored w d' e' v';
  rl_fragment d e idx (w : W) f : rfr_read d e idx w = Ok f → rm_fragment w d e idx = Some f;
  rl_fragment_frame d e v data (w : W) d' e' idx : (d', e') ≠ (d, e) →
    rm_fragment (rwr_write d e v data w).1 d' e' idx = rm_fragment w d' e' idx;
  rl_clock d e v data (w : W) : instant_now w ≤ instant_now (rwr_write d e v data w).1;
  rl_sleep ms (w : W) d e v : rm_stored (sleep_ms ms w) d e v = rm_stored w d e v;
  rl_sleep_fragment ms (w : W) d e idx : rm_fragment (sleep_ms ms w) d e idx = rm_fragment w d e idx
}.

Definition slot (r : RepairRequest) : DiskId * ExtentId * N := (rq_target_disk_id r, rq_extent_id r, rq_version r).

(** The decoder recovers [data] from any [k] fragments of [codeword]. *)
Definition decodes `{!EcReconstructor} (k m : nat) (codeword : list (list N)) (len : nat) (data : list N) : Prop :=
  length codeword = (k + m)%nat ∧
  ∀ slots, agrees slots codeword → (k ≤ length (filter is_Some slots))%nat → reconstruct k m slots len = Ok data.

Section Content.
Context {W : Type} `{!Timer W} `{!TimerLaws W} `{!RepairExtentReader W} `{!FragmentReader W} `{!RepairExtentWriter W}.
Context `{!EcReconstructor} `{!RepairMedium W} `{!RepairLaws W}.
(** The data of each extent version. *)
Context (content : ExtentId → N → list N).
Implicit Types (st : Background W) (w : W) (r : RepairRequest).

(** Every readable copy is the data. *)
Definition consistent w : Prop := ∀ d e v data, rm_stored w d e v = Some data → data = content e v.

(** The fragments that a request names are fragments of the data. *)
Definition sound w r : Prop :=
  match rq_repair_type r with
  | Replication _ => True
  | ErasureCode k m available len =>
      ∃ codeword, decodes k m codeword len (content (rq_extent_id r) (rq_version r)) ∧
        ∀ idx d f, (idx, d) ∈ available → rm_fragment w d (rq_extent_id r) idx = Some f → codeword !! idx = Some f
  end.

(** The fragments a request reads, by disk and extent. *)
Definition fragment_sources r : list (DiskId * ExtentId) :=
  match rq_repair_type r with
  | Replication _ => []
  | ErasureCode _ _ available _ => (λ '(_, d), (d, rq_extent_id r)) <$> available
  end.

Definition target r : DiskId * ExtentId := (rq_target_disk_id r, rq_extent_id r).

Lemma sound_same w w' r :
  (∀ d e idx, (d, e) ∈ fragment_sources r → rm_fragment w' d e idx = rm_fragment w d e idx) → sound w r → sound w' r.
Proof.
  unfold sound, fragment_sources. destruct (rq_repair_type r) as [|k m available len]; [done|].
  intros Hsame (codeword & Hdec & Hread). exists codeword. split; [done|]. intros idx d f Hin.
  rewrite Hsame; [by apply Hread|]. apply list_elem_of_fmap. by exists (idx, d).
Qed.

(** As long as [I] holds the target can be written and enough sources can be read. *)
Record steady (I : W → Prop) r : Prop := {
  sd_sleep ms w : I w → I (sleep_ms ms w);
  sd_write w data : I w → ∃ w', rwr_write (rq_target_disk_id r) (rq_extent_id r) (rq_version r) data w = (w', Ok tt) ∧ I w';
  sd_sources : match rq_repair_type r with
    | Replication sources => ∃ s, s ∈ sources ∧ ∀ w, I w → ∃ data, rex_read s (rq_extent_id r) (rq_version r) w = Ok data
    | ErasureCode k m available len => ∀ w, I w → (k ≤ length (filter is_Some (gather r (k + m) available w)))%nat
    end
}.

(** What serving [r] in [w] leads to. *)
Record restored r w (w' : W) (o : RepairOutcome) : Prop := {
  re_consistent : consistent w';
  re_content : ro_success o = true →
    rm_stored w' (rq_target_disk_id r) (rq_extent_id r) (rq_version r) = Some (content (rq_extent_id r) (rq_version r));
  re_frame d e v : (d, e, v) ≠ slot r → rm_stored w' d e v = rm_stored w d e v;
  re_fragments d e idx : (d, e) ≠ target r → rm_fragment w' d e idx = rm_fragment w d e idx;
  re_clock : instant_now w ≤ instant_now w'
}.

(** What one write of the data does, whatever it answers. *)
Lemma consistent_write r data w w' res :
  consistent w → data = content (rq_extent_id r) (rq_version r) →
  rwr_write (rq_target_disk_id r) (rq_extent_id r) (rq_version r) data w = (w', res) →
  restored r w w' (repair_failed r "").
Proof.
  intros Hc -> Hw. set (x := content _ _) in *. split.
  - intros d e v y. destruct (decide ((d, e, v) = slot r)) as [Heq|Hne].
    + unfold slot in Heq. simplify_eq. destruct res as [[]|err].
      * rewrite (rl_write _ _ _ _ _ _ Hw). by intros [= <-].
      * apply rl_write_fails in Hw as [-> |[-> | ->]]; [apply Hc|by intros [= <-]|done].
    + pose proof (rl_frame _ _ _ x w _ _ _ Hne) as Hf. rewrite Hw in Hf. simpl in Hf. rewrite Hf. apply Hc.
  - done.
  - intros d e v Hne. pose proof (rl_frame _ _ _ x w _ _ _ Hne) as Hf. by rewrite Hw in Hf.
  - intros d e idx Hne. pose proof (rl_fragment_frame _ _ (rq_version r) x w _ _ idx Hne) as Hf. by rewrite Hw in Hf.
  - pose proof (rl_clock (rq_target_disk_id r) (rq_extent_id r) (rq_version r) x w) as Hcl. by rewrite Hw in Hcl.
Qed.

Lemma restored_failed r w e : consistent w → restored r w w (repair_failed r e).
Proof. by split. Qed.

Lemma restored_write r data w w' res o :
  consistent w → data = content (rq_extent_id r) (rq_version r) →
  rwr_write (rq_target_disk_id r) (rq_extent_id r) (rq_version r) data w = (w', res) →
  (ro_success o = true → res = Ok tt) → restored r w w' o.
Proof.
  intros Hc Hdata Hw Ho. destruct (consistent_write _ _ _ _ _ Hc Hdata Hw). split; [done| |done..].
  intros Hs. rewrite (Ho Hs) in Hw. apply rl_write in Hw. congruence.
Qed.

Lemma restored_trans r w w1 w2 o o1 : restored r w w1 o1 → restored r w1 w2 o → restored r w w2 o.
Proof.
  intros [_ _ Hf Hg Ht] [? ? Hf' Hg' Ht']. split; [done|done| | |lia].
  - intros d e v Hne. by rewrite Hf', Hf.
  - intros d e idx Hne. by rewrite Hg', Hg.
Qed.

Lemma replication_restored r sources w :
  consistent w → restored r w (repair_replication r sources w).1 (repair_replication r sources w).2.
Proof.
  revert w. induction sources as [|s sources IH]; intros w Hc; simpl; [by apply restored_failed|].
  destruct (rex_read s _ _ w) as [data|err] eqn:Hread; [|by apply IH].
  apply rl_read, Hc in Hread. destruct (rwr_write _ _ _ data w) as [w' [[]|err]] eqn:Hw; [by eapply restored_write|].
  pose proof (consistent_write _ _ _ _ _ Hc Hread Hw) as Hre. eapply restored_trans; [exact Hre|]. apply IH, Hre.
Qed.

Lemma gather_agrees r k m available codeword w :
  length codeword = (k + m)%nat →
  (∀ idx d f, (idx, d) ∈ available → rm_fragment w d (rq_extent_id r) idx = Some f → codeword !! idx = Some f) →
  agrees (gather r (k + m) available w) codeword.
Proof.
  intros Hlen Hread. unfold gather. assert (agrees (replicate (k + m) None) codeword) as Hinit.
  { rewrite <- Hlen. clear. unfold agrees. induction codeword; simpl; constructor; auto. }
  revert Hinit. generalize (replicate (k + m) (None : option (list N))).
  induction available as [|[idx d] available IH]; intros slots Hag; [done|]. simpl. apply IH; [set_solver|].
  destruct (rfr_read d _ idx w) as [f|] eqn:Hf; [|done]. destruct (decide _); [|done].
  rewrite <- (list_insert_id codeword idx f); [|by apply (Hread idx d); [left|apply rl_fragment]].
  apply Forall2_insert; [done|by right].
Qed.

Lemma ec_restored r k m available len w :
  rq_repair_type r = ErasureCode k m available len → sound w r → consistent w →
  restored r w (repair_ec r k m available len w).1 (repair_ec r k m available len w).2.
Proof.
  unfold sound, repair_ec. intros -> (codeword & [Hlen Hdec] & Hread) Hc.
  destruct (decide _) as [|Hk]; [by apply restored_failed|].
  rewrite (Hdec (gather r (k + m) available w)); [|by apply gather_agrees|lia].
  destruct (rwr_write _ _ _ _ w) as [w' res] eqn:Hw. eapply restored_write; [done|done|exact Hw|].
  by destruct res as [[]|].
Qed.

Lemma repair_restored r w : sound w r → consistent w → restored r w (repair r w).1 (repair r w).2.
Proof.
  intros Hs Hc. unfold repair. destruct (rq_repair_type r) eqn:Ht; [by apply replication_restored|by eapply ec_restored].
Qed.

Lemma replication_succeeds I r sources w :
  steady I r → I w →
  (∃ s, s ∈ sources ∧ ∀ w, I w → ∃ data, rex_read s (rq_extent_id r) (rq_version r) w = Ok data) →
  ro_success (repair_replication r sources w).2 = true ∧ I (repair_replication r sources w).1.
Proof.
  intros Hst HI. induction sources as [|s' sources IH]; intros (s & Hs & Hread); [set_solver|]. simpl.
  destruct (rex_read s' _ _ w) as [data|err] eqn:Hr.
  - destruct (sd_write _ _ Hst w data HI) as (w' & -> & HI'). done.
  - apply IH. exists s. split; [|done]. apply elem_of_cons in Hs as [->|Hs]; [|done].
    destruct (Hread w HI) as [? ?]. congruence.
Qed.

Lemma repair_succeeds I r w :
  sound w r → steady I r → I w → ro_success (repair r w).2 = true ∧ I (repair r w).1.
Proof.
  intros Hs Hst HI. pose proof (sd_sources _ _ Hst) as Hsrc. unfold repair, sound in *.
  destruct (rq_repair_type r) as [sources|k m available len]; [by apply replication_succeeds|].
  destruct Hs as (codeword & [Hlen Hdec] & Hread). unfold repair_ec. specialize (Hsrc w HI). rewrite decide_False by lia.
  rewrite (Hdec (gather r (k + m) available w)); [|by apply gather_agrees|lia].
  destruct (sd_write _ _ Hst w (content (rq_extent_id r) (rq_version r)) HI) as (w' & -> & HI'). done.
Qed.

(** ** Serving the whole queue *)

Context (lag : N).
Hypothesis sleep_bounded : ∀ w, instant_now (sleep_ms 10 w) ≤ instant_now w + lag.

Definition budgeted (n : N) st : Prop := budget_ok lag n (bg_bucket st) (bg_world st).

(** What serving the requests [q] leads to. *)
Record all_restored (n : N) (q : list RepairRequest) st st' (os : list RepairOutcome) : Prop := {
  ar_queue : rw_queue (bg_repair st') = [];
  ar_config : rw_config (bg_repair st') = rw_config (bg_repair st);
  ar_completed : rw_completed (bg_repair st') = rw_completed (bg_repair st) ++ os;
  ar_answers : Forall2 answers q os;
  ar_budget : budgeted n st';
  ar_consistent : consistent (bg_world st');
  ar_content i r o : q !! i = Some r → os !! i = Some o → ro_success o = true →
    rm_stored (bg_world st') (rq_target_disk_id r) (rq_extent_id r) (rq_version r)
      = Some (content (rq_extent_id r) (rq_version r));
  ar_frame d e v : (d, e, v) ∉ slot <$> q → rm_stored (bg_world st') d e v = rm_stored (bg_world st) d e v;
  ar_success I : I (bg_world st) → Forall (steady I) q → Forall (λ o, ro_success o = true) os ∧ I (bg_world st')
}.

Lemma process_next_restores n r rest st :
  rw_queue (bg_repair st) = r :: rest → budgeted n st → tokens_per_repair (rw_config (bg_repair st)) ≤ n →
  consistent (bg_world st) → sound (bg_world st) r →
  ∃ st' o, process_next st = Some (st', Some o) ∧
    bg_repair st' = push_completed o (set_queue rest (bg_repair st)) ∧ answers r o ∧ budgeted n st' ∧
    restored r (bg_world st) (bg_world st') o ∧
    ∀ I, I (bg_world st) → steady I r → ro_success o = true ∧ I (bg_world st').
Proof.
  intros Hq Hb Hn Hc Hs. unfold process_next. rewrite Hq. simpl.
  destruct (acquire_ok lag (tokens_per_repair (rw_config (bg_repair st))) sleep_bounded n _ _ Hb Hn)
    as (tb & w & Hacq & Hb' & Ht). rewrite Hacq. simpl.
  assert (restored r (bg_world st) w (repair_failed r "")) as Hwait.
  { apply (acquire_preserves _ (λ w', restored r (bg_world st) w' (repair_failed r "")) _ _ _ _) with (2 := Hacq);
      [|by apply restored_failed].
    intros ms w' [Hc' _ Hf Hg Ht']. pose proof (sleep_lasts ms w'). split; [|done|..|lia].
    - intros d e v data. rewrite rl_sleep. apply Hc'.
    - intros. rewrite rl_sleep. by apply Hf.
    - intros. rewrite rl_sleep_fragment. by apply Hg. }
  assert (sound w r) as Hsw.
  { eapply sound_same; [|exact Hs]. intros d e idx _.
    apply (acquire_preserves _ (λ w', rm_fragment w' d e idx = rm_fragment (bg_world st) d e idx) _ _ _ _) with (2 := Hacq); [|done].
    intros ms w' Hw'. by rewrite rl_sleep_fragment. }
  pose proof (repair_restored r w Hsw (re_consistent _ _ _ _ Hwait)) as Hre. pose proof (repair_answers r w) as Hans.
  assert (∀ I, I (bg_world st) → steady I r → ro_success (repair r w).2 = true ∧ I (repair r w).1) as Hsucc.
  { intros I HI Hst. apply repair_succeeds; [done..|]. eapply (acquire_preserves _ I); [|exact Hacq|done]. apply Hst. }
  destruct (repair r w) as [w' o]. eexists _, _. split; [done|]. simpl in *. split_and!; [done..| | |done].
  - destruct Hb', Hre. split; simpl; try done. lia.
  - by eapply restored_trans.
Qed.

(** No request overwrites a fragment that another one reads. *)
Definition apart (q : list RepairRequest) : Prop := ∀ r r', r ∈ q → r' ∈ q → target r' ∉ fragment_sources r.

Lemma process_all_loop_restores n q outcomes st :
  rw_queue (bg_repair st) = q → budgeted n st → tokens_per_repair (rw_config (bg_repair st)) ≤ n →
  consistent (bg_world st) → Forall (sound (bg_world st)) q → apart q → NoDup (slot <$> q) →
  ∃ st' os, process_all_loop (length q) outcomes st = Some (st', outcomes ++ os) ∧ all_restored n q st st' os.
Proof.
  revert outcomes st. induction q as [|r q IH]; intros outcomes st Hq Hb Hn Hc Hs Hap Hnd.
  { exists st, []. simpl. rewrite decide_True by (unfold queue_len; by rewrite Hq). rewrite app_nil_r. split; [done|]. split; rewrite ?app_nil_r; try done. }
  apply Forall_cons in Hs as [Hr Hs]. rewrite fmap_cons in Hnd. apply NoDup_cons in Hnd as [Hfresh Hnd].
  destruct (process_next_restores n r q st Hq Hb Hn Hc Hr) as (st1 & o & Hp & Hw & Hans & Hb1 & Hre & Hsucc).
  destruct (IH (outcomes ++ [o]) st1) as (st' & os & Hloop & Hall); try done; rewrite ?Hw; try done.
  { by destruct Hre. }
  { rewrite Forall_forall in *. intros r' Hr'. eapply sound_same, Hs, Hr'. intros d e idx Hin. apply Hre.
    intros Heq. rewrite Heq in Hin. revert Hin. by apply Hap; [right|left]. }
  { intros r1 r2 H1 H2. by apply Hap; right. }
  exists st', (o :: os). split.
  { simpl. rewrite decide_False by (unfold queue_len; by rewrite Hq). rewrite Hp. simpl. rewrite Hloop. by rewrite <- (assoc_L (++)). }
  destruct Hall as [Haq Haco Hacm Haa Hab Hac Hacont Haf Has]. rewrite Hw in Haco, Hacm. simpl in *.
  split; [done|done|by rewrite Hacm, <- (assoc_L (++))|by constructor|done|done| | |].
  - intros [|i] r' o' Hr' Ho' Hok; simpl in *; [|by eapply Hacont]. simplify_eq.
    rewrite Haf by done. by destruct Hre as [_ Hcontent _ _]; apply Hcontent.
  - intros d e v Hne. rewrite fmap_cons in Hne. apply not_elem_of_cons in Hne as [Hne Hne'].
    rewrite Haf by done. by apply Hre.
  - intros I HI Hst. apply Forall_cons in Hst as [Hst Hsts]. destruct (Hsucc I HI Hst) as [Ho HI1].
    destruct (Has I HI1 Hsts). by split; [constructor|].
Qed.

(** A request to copy an extent from the disks that hold it. *)
Definition copies r : Prop := ∃ sources, rq_repair_type r = Replication sources.

Lemma copies_sound w q : Forall copies q → Forall (sound w) q ∧ apart q.
Proof.
  rewrite !Forall_forall. intros Hq. split.
  - intros r Hr. destruct (Hq r Hr) as [sources Hs]. unfold sound. by rewrite Hs.
  - intros r r' Hr _. destruct (Hq r Hr) as [sources Hs]. unfold fragment_sources. rewrite Hs. apply not_elem_of_nil.
Qed.

(** C24: Serving a repair queue of copies ends and restores data: when the token bucket
    covers one repair, all readable copies of an extent agree, and no two requests
    have the same extent and target, every request is answered once, in order; each
    successful one leaves the extent's data on its target disk; nothing else on any
    disk is touched; and requests whose sources and targets stay usable succeed. *)
Theorem repairs_restore_content n st :
  budgeted n st → tokens_per_repair (rw_config (bg_repair st)) ≤ n → consistent (bg_world st) →
  Forall copies (rw_queue (bg_repair st)) → NoDup (slot <$> rw_queue (bg_repair st)) →
  ∃ st' os, process_all st = Some (st', os) ∧ all_restored n (rw_queue (bg_repair st)) st st' os.
Proof.
  intros Hb Hn Hc Hq Hnd. destruct (copies_sound (bg_world st) _ Hq) as [Hs Hap].
  exact (process_all_loop_restores n _ [] st eq_refl Hb Hn Hc Hs Hap Hnd).
Qed.

End Content.

(** ** The decoder of the client *)

(** The [EcReconstructor] that the codec of the client gives. *)
Definition codec_reconstruct `{!ReedSolomon} : EcReconstructor := λ k m slots len,
  match ErasureCodec_new k m with
  | Ok c =>
      match ec_decode c (imap (λ i o, MkFragment i (bool_decide (i < k)%nat) <$> o) slots) len with
      | Ok data => Ok data
      | Err _ => Err "decode failed"
      end
  | Err _ => Err "invalid parameters"
  end.

Lemma codec_slots (k : nat) (slots : list (option (list N))) :
  (λ o : option Fragment, frag_data <$> o) <$> imap (λ i o, MkFragment i (bool_decide (i < k)%nat) <$> o) slots = slots.
Proof.
  apply list_eq. intros i. rewrite list_lookup_fmap, list_lookup_imap. by destruct (slots !! i) as [[|]|].
Qed.

Lemma codec_decodes `{!ReedSolomon} k m data frags :
  rs_new k m = true → ec_encode (MkErasureCodec k m) data = Ok frags → length frags = (k + m)%nat →
  @decodes codec_reconstruct k m (frag_data <$> frags) (length data) data.
Proof.
  intros Hnew Henc Hlen. split; [by rewrite length_fmap|]. intros slots Hag Hcount.
  destruct (rs_new_pos k m Hnew). unfold reconstruct, codec_reconstruct, ErasureCodec_new.
  rewrite decide_False by lia. rewrite Hnew. rewrite (ec_decode_agrees k m data frags); [done..| | |].
  - rewrite length_imap. apply Forall2_length in Hag. by rewrite Hag, length_fmap.
  - by rewrite codec_slots.
  - rewrite <- filter_is_Some_frag_data, codec_slots. done.
Qed.

Module RepairDemo.
#[local] Existing Instance EcDemo.copy_code.

(** Disks with extents and fragments, and a clock; disk 9 cannot be written. *)
Record Shelf := MkShelf {
  sh_clock : N;
  sh_extents : gmap (DiskId * ExtentId * N) (list N);
  sh_fragments : gmap (DiskId * ExtentId * nat) (list N)
}.

#[export] Instance shelf_timer : Timer Shelf :=
  {| instant_now w := sh_clock w; sleep_ms ms w := MkShelf (sh_clock w + ms * 1000000) (sh_extents w) (sh_fragments w) |}.

#[export] Instance shelf_timer_laws : TimerLaws Shelf.
Proof. intros ms w. simpl. lia. Qed.

#[export] Instance shelf_reader : RepairExtentReader Shelf := λ d e v w,
  match sh_extents w !! (d, e, v) with Some data => Ok data | None => Err "not found" end.

#[export] Instance shelf_fragments : FragmentReader Shelf := λ d e idx w,
  match sh_fragments w !! (d, e, idx) with Some f => Ok f | None => Err "not found" end.

#[export] Instance shelf_writer : RepairExtentWriter Shelf := λ d e v data w,
  if decide (d = DiskId_new 9) then (w, Err "read-only file system")
  else (MkShelf (sh_clock w) (<[(d, e, v) := data]> (sh_extents w)) (sh_fragments w), Ok tt).

#[export] Instance shelf_medium : RepairMedium Shelf :=
  {| rm_stored w d e v := sh_extents w !! (d, e, v); rm_fragment w d e idx := sh_fragments w !! (d, e, idx) |}.

#[export] Instance shelf_laws : RepairLaws Shelf.
Proof.
  split; unfold rex_read, rfr_read, rwr_write, shelf_reader, shelf_fragments, shelf_writer; simpl; try done.
  - intros d e v w data. destruct (_ !! _); [|done]. by intros [= ->].
  - intros d e v data w w'. destruct (decide _); [done|]. intros [= <-]. apply lookup_insert_eq.
  - intros d e v data w w' err. destruct (decide _); [|done]. intros [= <- _]. by left.
  - intros d e v data w d' e' v' Hne. destruct (decide _); [done|]. by apply lookup_insert_ne.
  - intros d e idx w f. destruct (_ !! _); [|done]. by intros [= ->].
  - intros d e v data w d' e' idx _. by destruct (decide _).
  - intros d e v data w. by destruct (decide _).
Qed.

#[export] Instance shelf_decoder : EcReconstructor := codec_reconstruct.

Definition disk (n : N) : DiskId := DiskId_new n.
Definition extent (n : N) : ExtentId := ExtentId_new n.

Definition contents (e : ExtentId) (v : N) : list N := if decide (e = extent 40) then [7; 8; 9] else [4; 5].

(** Extent 40 is on disk 2; extent 41 is coded, and one of its fragments is left. *)
Definition shelf : Shelf :=
  MkShelf 0 {[(disk 2, extent 40, 5) := [7; 8; 9]]} {[(disk 1, extent 41, 1%nat) := [4; 5]]}.

Definition copy_request : RepairRequest := MkRepairRequest (extent 40) 5 (disk 3) (Replication [disk 1; disk 2]) 100.

Definition second_copy_request : RepairRequest := MkRepairRequest (extent 40) 5 (disk 4) (Replication [disk 2]) 10.

Definition decode_request : RepairRequest :=
  MkRepairRequest (extent 41) 2 (disk 3) (ErasureCode 1 2 [(1%nat, disk 1); (0%nat, disk 2)] 2) 10.

Definition repair_start : Background Shelf :=
  MkBackground (enqueue second_copy_request (enqueue copy_request (RepairWorker_new RepairConfig_default)))
    (TokenBucket_new 200 100 0) shelf.

End RepairDemo.
Import RepairDemo.

Lemma repairs_in_order_witness :
  ∃ st served, repair_run [ReEnqueue copy_request; ReEnqueue decode_request; ReProcess; ReEnqueue copy_request; ReProcess]
      (MkBackground (RepairWorker_new RepairConfig_default) (TokenBucket_new 200 100 0) shelf) = Some (st, served) ∧
    of_priority 100 (served ++ rw_queue (bg_repair st)) = [copy_request; copy_request] ∧ length served = 2%nat.
Proof.
  destruct (repair_run _ _) as [[st served]|] eqn:Hrun; [|vm_compute in Hrun; discriminate Hrun].
  exists st, served. split; [reflexivity|]. split.
  - pose proof (λ Hq, repairs_in_order _ _ _ _ Hq Hrun) as Horder. destruct (Horder eq_refl) as [Hfifo _].
    rewrite Hfifo. vm_compute. reflexivity.
  - apply (f_equal (fmap (λ r, length r.2))) in Hrun. vm_compute in Hrun. injection Hrun as Hlen. symmetry. exact Hlen.
Defined.

Lemma shelf_consistent : consistent contents shelf.
Proof.
  intros d e v data Hd. simpl in Hd. apply lookup_singleton_Some in Hd as [[= <- <- <-] <-]. reflexivity.
Qed.

Definition source_present (w : Shelf) : Prop := sh_extents w !! (disk 2, extent 40, 5) = Some [7; 8; 9].

Lemma shelf_steady : Forall (steady source_present) [second_copy_request; copy_request].
Proof.
  apply Forall_cons; split; [|apply Forall_singleton]; split; try done; simpl.
  2,4: exists (disk 2); split; [set_solver|]; intros w Hw; unfold rex_read, shelf_reader; rewrite Hw; eauto.
  all: intros w data Hw; unfold rwr_write, shelf_writer; rewrite decide_False by done; eexists; split; [reflexivity|];
    unfold source_present; simpl; by rewrite lookup_insert_ne.
Qed.

Lemma repairs_restore_content_witness :
  ∃ st os, process_all repair_start = Some (st, os) ∧ Forall (λ o, ro_success o = true) os ∧ length os = 2%nat ∧
    sh_extents (bg_world st) !! (disk 3, extent 40, 5) = Some [7; 8; 9] ∧
    sh_extents (bg_world st) !! (disk 4, extent 40, 5) = Some [7; 8; 9].
Proof.
  assert (∀ w : Shelf, instant_now (sleep_ms 10 w) ≤ instant_now w + 10000000) as Hlag by (intros w; simpl; lia).
  destruct (repairs_restore_content contents 10000000 Hlag 10 repair_start)
    as (st & os & Hrun & Hall).
  - split; vm_compute; congruence.
  - vm_compute. congruence.
  - exact shelf_consistent.
  - change (Forall copies [second_copy_request; copy_request]). repeat constructor; by eexists.
  - apply (bool_decide_unpack _). vm_compute. exact I.
  - exists st, os. destruct Hall as [_ _ _ Hans _ _ Hcont _ Hsucc].
    destruct (Hsucc source_present) as [Hos _]; [done|exact shelf_steady|].
    change (Forall2 answers [second_copy_request; copy_request] os) in Hans.
    pose proof (Forall2_length _ _ _ Hans) as Hlen. destruct os as [|o1 [|o2 [|o3 os]]]; try discriminate Hlen.
    apply Forall_cons in Hos as Ho. destruct Ho as [Ho1 Ho2]. apply Forall_cons in Ho2 as [Ho2 _].
    split_and!; [exact Hrun|exact Hos|reflexivity|..].
    + exact (Hcont 1%nat copy_request o2 eq_refl eq_refl Ho2).
    + exact (Hcont 0%nat second_copy_request o1 eq_refl eq_refl Ho1).
Defined.
