(* ===== verification/Drain.v ===== *)
(** * Draining a disk (crates/blockyard-storage/src/background/drain.rs)

    The extents of a draining disk are listed and a repair request is queued for
    each; when all are queued the disk is moved to the removed state.  [drain_run] is
    the drain with the cancellation that [run] adds.  The theorem composes draining
    with the repair queue: it says when every extent ends on another disk. *)

From S2P Require Import Prelude Common RateLimit EcCodec Repair.

#[local] Open Scope N_scope.

Record DrainConfig := MkDrainConfig { tokens_per_relocate : N; inter_relocate_delay_ms : N }.

Definition DrainConfig_default : DrainConfig := MkDrainConfig 5 100.

Record DrainExtentEntry := MkDrainEntry {
  de_extent_id : ExtentId;
  de_version : N;
  de_healthy_sources : list DiskId
}.

Class DrainInventory (W : Type) := {
  list_extents_on_disk : DiskId → W → list DrainExtentEntry;
  select_target_disk : DiskId → W → W * result string DiskId;
  transition_to_removed : DiskId → W → W * result string unit;
  is_draining : DiskId → W → bool
}.

Record DrainProgress := MkDrainProgress {
  dp_disk_id : DiskId;
  dp_total_extents : N;
  dp_relocated : N;
  dp_failed : N;
  dp_complete : bool
}.

Definition count_relocated (p : DrainProgress) : DrainProgress :=
  MkDrainProgress (dp_disk_id p) (dp_total_extents p) (dp_relocated p + 1) (dp_failed p) (dp_complete p).

Definition count_failed (p : DrainProgress) : DrainProgress :=
  MkDrainProgress (dp_disk_id p) (dp_total_extents p) (dp_relocated p) (dp_failed p + 1) (dp_complete p).

Definition set_complete (p : DrainProgress) : DrainProgress :=
  MkDrainProgress (dp_disk_id p) (dp_total_extents p) (dp_relocated p) (dp_failed p) true.

Record DrainWorker := MkDrainWorker {
  dw_config : DrainConfig;
  dw_progress : option DrainProgress
}.

Definition DrainWorker_new (config : DrainConfig) : DrainWorker := MkDrainWorker config None.

Definition set_progress (p : DrainProgress) (dw : DrainWorker) : DrainWorker := MkDrainWorker (dw_config dw) (Some p).

Definition drain_request (entry : DrainExtentEntry) (target : DiskId) : RepairRequest :=
  MkRepairRequest (de_extent_id entry) (de_version entry) target (Replication (de_healthy_sources entry)) 100.

Section Drain.
Context {W : Type} `{!Timer W} `{!DrainInventory W}.
Implicit Types (st : Background W).

Definition set_world (w : W) st : Background W := MkBackground (bg_repair st) (bg_bucket st) w.

Definition set_budget (tb : TokenBucket) (w : W) st : Background W := MkBackground (bg_repair st) tb w.

(** The loop over the listed extents, the progress published after each; [None] when
    tokens are never granted. *)
Fixpoint drain_loop (disk_id : DiskId) (entries : list DrainExtentEntry) (p : DrainProgress) (dw : DrainWorker) st
    : option (DrainProgress * DrainWorker * Background W) :=
  match entries with
  | [] => Some (p, dw, st)
  | entry :: entries =>
      if negb (is_draining disk_id (bg_world st)) then Some (p, dw, st) else
      let cfg := dw_config dw in
      '(tb, w) ← acquire (tokens_per_relocate cfg) (bg_bucket st) (bg_world st);
      let '(w, selected) := select_target_disk disk_id w in
      let st := set_budget tb w st in
      match selected with
      | Err _ =>
          let p := count_failed p in
          drain_loop disk_id entries p (set_progress p dw) st
      | Ok target =>
          let st := bg_enqueue (drain_request entry target) st in
          let p := count_relocated p in
          let st := if decide (0 < inter_relocate_delay_ms cfg)
                    then set_world (sleep_ms (inter_relocate_delay_ms cfg) (bg_world st)) st else st in
          drain_loop disk_id entries p (set_progress p dw) st
      end
  end.

Definition drain_disk (disk_id : DiskId) (dw : DrainWorker) st : option (DrainProgress * DrainWorker * Background W) :=
  let extents := list_extents_on_disk disk_id (bg_world st) in
  let total := N.of_nat (length extents) in
  let p := MkDrainProgress disk_id total 0 0 false in
  '(p, dw, st) ← drain_loop disk_id extents p (set_progress p dw) st;
  let '(p, st) :=
    if decide (dp_relocated p = total ∧ dp_failed p = 0) then
      let '(w, removed) := transition_to_removed disk_id (bg_world st) in
      (match removed with Ok _ => set_complete p | Err _ => p end, set_world w st)
    else (p, st) in
  Some (p, set_progress p dw, st).

(** When the drain is cancelled, if it is: before it is first polled, or where it waits
    (for tokens, or between two extents) once [k] extents were dealt with. *)
Inductive Cancellation := NotCancelled | CancelledAtStart | CancelledAfter (k : nat).

(** A cancelled drain is dropped where it waits, and what was published last is the
    result. *)
Definition drain_run (cancel : Cancellation) (disk_id : DiskId) (dw : DrainWorker) st
    : option (DrainProgress * DrainWorker * Background W) :=
  let published dw := default (MkDrainProgress disk_id 0 0 0 false) (dw_progress dw) in
  match cancel with
  | NotCancelled => drain_disk disk_id dw st
  | CancelledAtStart => Some (published dw, dw, st)
  | CancelledAfter k =>
      let extents := list_extents_on_disk disk_id (bg_world st) in
      let p := MkDrainProgress disk_id (N.of_nat (length extents)) 0 0 false in
      '(_, dw, st) ← drain_loop disk_id (take k extents) p (set_progress p dw) st;
      Some (published dw, dw, st)
  end.

End Drain.

(** ** What draining leads to *)

(** Selecting a disk changes no data and does not select the disk itself; removing a
    disk may make copies on it unreadable and changes nothing else. *)
Class DrainLaws (W : Type) `{!Timer W} `{!RepairMedium W} `{!DrainInventory W} : Prop := {
  dl_select d (w : W) d' e v : rm_stored (select_target_disk d w).1 d' e v = rm_stored w d' e v;
  dl_select_clock d (w : W) : instant_now w ≤ instant_now (select_target_disk d w).1;
  dl_other d (w w' : W) t : select_target_disk d w = (w', Ok t) → t ≠ d;
  dl_remove d (w : W) e v : rm_stored (transition_to_removed d w).1 d e v = rm_stored w d e v ∨
                            rm_stored (transition_to_removed d w).1 d e v = None;
  dl_remove_other d (w : W) d' e v : d' ≠ d → rm_stored (transition_to_removed d w).1 d' e v = rm_stored w d' e v;
  dl_remove_clock d (w : W) : instant_now w ≤ instant_now (transition_to_removed d w).1
}.

(** Requests of one priority queue up at the end. *)
Lemma enqueue_last r q : Forall (λ r', rq_priority r' ≤ rq_priority r) q → enqueued r q = q ++ [r].
Proof.
  induction 1 as [|x q Hx _ IH]; [done|]. rewrite enqueued_cons, decide_False by lia. by rewrite IH.
Qed.

Section Relocation.
Context {W : Type} `{!Timer W} `{!TimerLaws W} `{!RepairExtentReader W} `{!FragmentReader W} `{!RepairExtentWriter W}.
Context `{!EcReconstructor} `{!RepairMedium W} `{!RepairLaws W} `{!DrainInventory W} `{!DrainLaws W}.
Context (content : ExtentId → N → list N) (lag n : N).
Hypothesis sleep_bounded : ∀ w : W, instant_now (sleep_ms 10 w) ≤ instant_now w + lag.
(** What the environment keeps true while the disk is drained. *)
Context (I : W → Prop).
Hypothesis I_sleep : ∀ ms w, I w → I (sleep_ms ms w).
Hypothesis I_select : ∀ d w, I w → I (select_target_disk d w).1.
Implicit Types (st : Background W).

(** The inventory may choose [target] for an extent of [disk_id]. *)
Definition selectable (disk_id target : DiskId) : Prop := ∃ w w' : W, select_target_disk disk_id w = (w', Ok target).

Lemma selectable_other disk_id target : selectable disk_id target → target ≠ disk_id.
Proof. intros (w & w' & Hsel). by eapply dl_other. Qed.

(** The requests made for the listed extents. *)
Definition relocates (disk_id : DiskId) (entry : DrainExtentEntry) (r : RepairRequest) : Prop :=
  ∃ target, selectable disk_id target ∧ r = drain_request entry target.

(** What a worker that only waits and queues keeps. *)
Record waiting st st' : Prop := {
  wt_config : rw_config (bg_repair st') = rw_config (bg_repair st);
  wt_budget : budgeted lag n st';
  wt_stored d e v : rm_stored (bg_world st') d e v = rm_stored (bg_world st) d e v;
  wt_invariant : I (bg_world st) → I (bg_world st')
}.

Lemma waiting_trans st1 st2 st3 : waiting st1 st2 → waiting st2 st3 → waiting st1 st3.
Proof. intros [] []. split; [congruence|done|congruence|auto]. Qed.

Lemma budget_later tb (w w' : W) : budget_ok lag n tb w → instant_now w ≤ instant_now w' → budget_ok lag n tb w'.
Proof. intros [] ?. split; try done. lia. Qed.

Lemma waiting_select cfg disk_id st :
  budgeted lag n st → tokens_per_relocate cfg ≤ n →
  ∃ tb w, acquire (tokens_per_relocate cfg) (bg_bucket st) (bg_world st) = Some (tb, w) ∧
    waiting st (set_budget tb (select_target_disk disk_id w).1 st).
Proof.
  intros Hb Hn. destruct (acquire_ok lag _ sleep_bounded n _ _ Hb Hn) as (tb & w & Hacq & Hb' & _).
  exists tb, w. split; [done|]. split; simpl; [done|..].
  - eapply budget_later; [exact Hb'|]. apply dl_select_clock.
  - intros d e v. rewrite dl_select.
    apply (acquire_preserves _ (λ w', rm_stored w' d e v = rm_stored (bg_world st) d e v) _ _ _ _) with (2 := Hacq); [|done].
    intros ms w' Hw'. by rewrite rl_sleep.
  - intros HI. apply I_select. eapply (acquire_preserves _ I); [|exact Hacq|done]. auto.
Qed.

Lemma waiting_sleep ms st : budgeted lag n st → waiting st (set_world (sleep_ms ms (bg_world st)) st).
Proof.
  intros Hb. split; simpl; [done| |by intros; rewrite rl_sleep|by apply I_sleep].
  eapply budget_later; [exact Hb|]. pose proof (sleep_lasts ms (bg_world st)). simpl. lia.
Qed.

(** What the loop does to the progress and to the queue, [rs] being the requests made. *)
Record drained (disk_id : DiskId) (entries : list DrainExtentEntry) (p p' : DrainProgress) (dw' : DrainWorker)
    st st' (rs : list RepairRequest) : Prop := {
  dr_published : dw_progress dw' = Some p';
  dr_waiting : waiting st st';
  dr_queue : rw_queue (bg_repair st') = rw_queue (bg_repair st) ++ rs;
  dr_low : Forall (λ r, rq_priority r ≤ 100) rs;
  dr_relocated : dp_relocated p' = dp_relocated p + N.of_nat (length rs);
  dr_counts : dp_relocated p' + dp_failed p' ≤ dp_relocated p + dp_failed p + N.of_nat (length entries);
  dr_failed : dp_failed p ≤ dp_failed p';
  dr_rest : dp_disk_id p' = dp_disk_id p ∧ dp_total_extents p' = dp_total_extents p ∧ dp_complete p' = dp_complete p;
  dr_all : length rs = length entries → Forall2 (relocates disk_id) entries rs
}.

Lemma drained_nothing disk_id entries p dw st :
  dw_progress dw = Some p → budgeted lag n st → drained disk_id entries p p dw st st [].
Proof.
  intros Hp Hb. split; rewrite ?app_nil_r; try done; [simpl; lia|lia|].
  intros Hlen. symmetry in Hlen. apply nil_length_inv in Hlen as ->. constructor.
Qed.

Lemma drain_loop_spec disk_id entries p dw st :
  dw_progress dw = Some p → budgeted lag n st → tokens_per_relocate (dw_config dw) ≤ n →
  Forall (λ r, rq_priority r ≤ 100) (rw_queue (bg_repair st)) →
  ∃ p' dw' st' rs, drain_loop disk_id entries p dw st = Some (p', dw', st') ∧ drained disk_id entries p p' dw' st st' rs.
Proof.
  revert p dw st. induction entries as [|entry entries IH]; intros p dw st Hp Hb Hn Hlow; simpl.
  { exists p, dw, st, []. split; [done|]. by apply drained_nothing. }
  destruct (negb _); [exists p, dw, st, []; split; [done|by apply drained_nothing]|].
  destruct (waiting_select (dw_config dw) disk_id st Hb Hn) as (tb & w & Hacq & Hwait). rewrite Hacq. simpl.
  destruct (select_target_disk disk_id w) as [w' [target|err]] eqn:Hsel; simpl in Hwait; revert Hwait;
    set (st1 := set_budget tb w' st); intros Hwait.
  - set (r := drain_request entry target).
    set (st2 := if decide _ then _ else _). assert (waiting st st2 ∧ rw_queue (bg_repair st2) = rw_queue (bg_repair st) ++ [r]) as [Hw2 Hq2].
    { assert (rw_queue (bg_repair (bg_enqueue r st1)) = rw_queue (bg_repair st) ++ [r]) as Hq by by apply (enqueue_last r).
      assert (waiting st (bg_enqueue r st1)) as Hw1 by by destruct Hwait.
      unfold st2. destruct (decide _); [|by split]. split; [|done].
      eapply waiting_trans; [exact Hw1|]. apply waiting_sleep, Hw1. }
    destruct (IH (count_relocated p) (set_progress (count_relocated p) dw) st2) as (p' & dw' & st' & rs & Hloop & Hdr);
      [done|apply Hw2|done|rewrite Hq2; by apply Forall_app; split; [|repeat constructor]|].
    exists p', dw', st', (r :: rs). split; [done|]. destruct Hdr as [Hpub Hw Hq Hl Hr Hc Hf Hrest Hall]. simpl in *. split; try done.
    + by eapply waiting_trans.
    + by rewrite Hq, Hq2, <- (assoc_L (++)).
    + by constructor.
    + simpl. lia.
    + simpl. lia.
    + simpl. intros [= Hlen]. constructor; [|by apply Hall]. exists target. split; [by exists w, w'|done].
  - destruct (IH (count_failed p) (set_progress (count_failed p) dw) st1) as (p' & dw' & st' & rs & Hloop & Hdr);
      [done|apply Hwait|done|done|].
    exists p', dw', st', rs. split; [done|]. destruct Hdr as [Hpub Hw Hq Hl Hr Hc Hf Hrest Hall]. simpl in *. split; try done.
    + by eapply waiting_trans.
    + simpl. lia.
    + lia.
    + simpl. intros Hlen. exfalso. lia.
Qed.

Definition entry_key (entry : DrainExtentEntry) : ExtentId * N := (de_extent_id entry, de_version entry).

Lemma relocates_slots disk_id entries rs :
  Forall2 (relocates disk_id) entries rs → NoDup (entry_key <$> entries) → NoDup (slot <$> rs).
Proof.
  intros Hrel Hnd. apply (NoDup_fmap_1 (λ s : DiskId * ExtentId * N, (s.1.2, s.2))). rewrite <- list_fmap_compose.
  enough (((λ s : DiskId * ExtentId * N, (s.1.2, s.2)) ∘ slot) <$> rs = entry_key <$> entries) as -> by done.
  induction Hrel as [|entry r entries rs (target & _ & ->) _ IH]; [done|].
  rewrite !fmap_cons in *. apply NoDup_cons in Hnd as [_ Hnd]. by rewrite IH.
Qed.

Lemma relocates_sound disk_id entries rs (w : W) :
  Forall2 (relocates disk_id) entries rs → Forall (sound content w) rs ∧ apart rs.
Proof.
  intros Hrel. assert (∀ r, r ∈ rs → ∃ entry target, r = drain_request entry target) as Hform.
  { intros r [i Hi]%list_elem_of_lookup. destruct (Forall2_lookup_r _ _ _ _ _ Hrel Hi) as (entry & _ & target & _ & ->). eauto. }
  split; [apply Forall_forall|]; intros r; [intros Hr|intros r' Hr _]; destruct (Hform r Hr) as (entry & target & ->);
    [done|apply not_elem_of_nil].
Qed.

Lemma removal_consistent disk_id (w : W) : consistent content w → consistent content (transition_to_removed disk_id w).1.
Proof.
  intros Hc d e v data. destruct (decide (d = disk_id)) as [->|Hne]; [|rewrite dl_remove_other by done; apply Hc].
  destruct (dl_remove disk_id w e v) as [-> | ->]; [apply Hc|done].
Qed.

(** The drained extents after the queue is served. *)
Lemma relocation_served disk_id entries rs st :
  rw_queue (bg_repair st) = rs → Forall2 (relocates disk_id) entries rs → NoDup (entry_key <$> entries) →
  budgeted lag n st → tokens_per_repair (rw_config (bg_repair st)) ≤ n → consistent content (bg_world st) → I (bg_world st) →
  (∀ entry target, entry ∈ entries → selectable disk_id target → steady I (drain_request entry target)) →
  ∃ st' os, process_all st = Some (st', os) ∧ Forall (λ o, ro_success o = true) os ∧
    ∀ entry, entry ∈ entries → ∃ target, target ≠ disk_id ∧
      rm_stored (bg_world st') target (de_extent_id entry) (de_version entry)
        = Some (content (de_extent_id entry) (de_version entry)).
Proof.
  intros Hq Hrel Hnd Hb Hn Hc HI Hsteady. destruct (relocates_sound _ _ _ (bg_world st) Hrel) as [Hsound Hapart].
  destruct (process_all_loop_restores content lag sleep_bounded n rs [] st) as (st' & os & Hrun & Hall); try done.
  { by eapply relocates_slots. }
  exists st', os. unfold process_all, queue_len. rewrite Hq. split; [done|].
  destruct Hall as [_ _ _ Hans _ _ Hcont _ Hsucc]. destruct (Hsucc I HI) as [Hos _].
  { apply Forall_forall. intros r [i Hi]%list_elem_of_lookup.
    destruct (Forall2_lookup_r _ _ _ _ _ Hrel Hi) as (entry & He & target & Ht & ->). apply Hsteady; [|done].
    by eapply list_elem_of_lookup_2. }
  split; [done|]. intros entry [i Hi]%list_elem_of_lookup.
  destruct (Forall2_lookup_l _ _ _ _ _ Hrel Hi) as (r & Hr & target & Ht & ->).
  destruct (Forall2_lookup_l _ _ _ _ _ Hans Hr) as (o & Ho & _). exists target. split; [by apply selectable_other|].
  apply (Hcont i _ o Hr Ho). by eapply (Forall_lookup_1 (λ o, ro_success o = true)).
Qed.

(** What a drain leads to, [listed] being the extents the disk had.  One that did not
    queue them all has removed nothing.  One that did leads to copies on other disks
    once the queue is served, given that what it relies on outlives the removal. *)
Record drain_outcome (disk_id : DiskId) (listed : list DrainExtentEntry) (p : DrainProgress) st st' : Prop := {
  do_counts : dp_relocated p + dp_failed p ≤ N.of_nat (length listed);
  do_partial : dp_relocated p ≠ N.of_nat (length listed) →
    dp_complete p = false ∧ ∀ d e v, rm_stored (bg_world st') d e v = rm_stored (bg_world st) d e v;
  do_relocated : dp_relocated p = N.of_nat (length listed) →
    I (bg_world st) → (∀ w, I w → I (transition_to_removed disk_id w).1) →
    (∀ entry target, entry ∈ listed → selectable disk_id target → steady I (drain_request entry target)) →
    ∃ st'' os, process_all st' = Some (st'', os) ∧ Forall (λ o, ro_success o = true) os ∧
      ∀ entry, entry ∈ listed → ∃ target, target ≠ disk_id ∧
        rm_stored (bg_world st'') target (de_extent_id entry) (de_version entry)
          = Some (content (de_extent_id entry) (de_version entry))
}.

Section outcome.
Context (disk_id : DiskId) (st : Background W).
Let listed := list_extents_on_disk disk_id (bg_world st).
Hypothesis Hrepair : tokens_per_repair (rw_config (bg_repair st)) ≤ n.
Hypothesis Hempty : rw_queue (bg_repair st) = [].
Hypothesis Hconsistent : consistent content (bg_world st).
Hypothesis Hdistinct : NoDup (entry_key <$> listed).

(** After the loop over a part of the extents, before any removal. *)
Lemma loop_outcome k p0 p dw st' rs :
  dp_relocated p0 = 0 → dp_failed p0 = 0 → dp_complete p0 = false →
  drained disk_id (take k listed) p0 p dw st st' rs → drain_outcome disk_id listed p st st'.
Proof.
  intros Hr0 Hf0 Hc0 [_ Hwait Hq _ Hrel Hcounts _ (_ & _ & Hcomplete) Hall]. rewrite Hempty in Hq. simpl in Hq.
  rewrite length_take in Hcounts. split; [lia|intros _; split; [by rewrite Hcomplete|apply Hwait]|].
  intros Hfull HI _ Hsteady. rewrite length_take in Hall. rewrite take_ge in Hall by lia. specialize (Hall ltac:(lia)).
  eapply (relocation_served disk_id listed rs); try done.
  - apply Hwait.
  - by rewrite (wt_config _ _ Hwait).
  - intros d e v data. rewrite (wt_stored _ _ Hwait). apply Hconsistent.
  - by apply Hwait.
Qed.

(** After all extents were queued and the disk was removed. *)
Lemma removal_outcome p0 p p' dw st1 rs :
  dp_relocated p0 = 0 → dp_failed p0 = 0 → drained disk_id listed p0 p dw st st1 rs →
  dp_relocated p = N.of_nat (length listed) → dp_relocated p' = dp_relocated p → dp_failed p' = dp_failed p →
  drain_outcome disk_id listed p' st (set_world (transition_to_removed disk_id (bg_world st1)).1 st1).
Proof.
  intros Hr0 Hf0 [_ Hwait Hq _ Hrel Hcounts _ _ Hall] Hfull Hr' Hf'. rewrite Hempty in Hq. simpl in Hq.
  split; [lia|by intros []; lia|]. intros _ HI HIr Hsteady.
  eapply (relocation_served disk_id listed rs); simpl; try done.
  - apply Hall. lia.
  - eapply budget_later; [apply Hwait|]. apply dl_remove_clock.
  - by rewrite (wt_config _ _ Hwait).
  - apply removal_consistent. intros d e v data. rewrite (wt_stored _ _ Hwait). apply Hconsistent.
  - by apply HIr, Hwait.
Qed.

End outcome.


End Relocation.

Module DrainDemo.
Import RepairDemo.

(** An inventory over the shelf: a removed disk cannot be read any more. *)
Definition holders (e : ExtentId) (v : N) (w : Shelf) : list DiskId :=
  (λ k : DiskId * ExtentId * N, k.1.1) <$>
    filter (λ k : DiskId * ExtentId * N, k.1.2 = e ∧ k.2 = v) (map_to_list (sh_extents w)).*1.

#[export] Instance shelf_inventory : DrainInventory Shelf := {|
  list_extents_on_disk d w :=
    (λ k : DiskId * ExtentId * N, MkDrainEntry k.1.2 k.2 (holders k.1.2 k.2 w)) <$>
      filter (λ k : DiskId * ExtentId * N, k.1.1 = d) (map_to_list (sh_extents w)).*1;
  select_target_disk d w := (w, if decide (disk 3 = d) then Err "no disk" else Ok (disk 3));
  transition_to_removed d w :=
    (MkShelf (sh_clock w) (filter (λ kx, kx.1.1.1 ≠ d) (sh_extents w)) (sh_fragments w), Ok tt);
  is_draining d w := true
|}.

#[export] Instance shelf_drain_laws : DrainLaws Shelf.
Proof.
  split; simpl; try done.
  - intros d w w' t. destruct (decide _) as [|Hne]; [done|]. by intros [= _ <-].
  - intros d w e v. right. apply map_lookup_filter_None. right. simpl. intros x _ Hne. by apply Hne.
  - intros d w d' e v Hne. destruct (sh_extents w !! (d', e, v)) as [x|] eqn:Hx.
    + by apply map_lookup_filter_Some.
    + apply map_lookup_filter_None. by left.
Qed.

(** Extent 40 on disks 1 and 2, or on disk 1 alone. *)
Definition two_copies : Shelf :=
  MkShelf 0 {[(disk 1, extent 40, 5) := [7; 8; 9]; (disk 2, extent 40, 5) := [7; 8; 9]]} ∅.

Definition one_copy : Shelf := MkShelf 0 {[(disk 1, extent 40, 5) := [7; 8; 9]]} ∅.

Definition drain_start (w : Shelf) : Background Shelf :=
  MkBackground (RepairWorker_new RepairConfig_default) (TokenBucket_new 200 100 0) w.

Definition second_copy (w : Shelf) : Prop := sh_extents w !! (disk 2, extent 40, 5) = Some [7; 8; 9].

Lemma second_copy_steady sources target : disk 2 ∈ sources → target ≠ disk 2 → target ≠ disk 9 →
  steady second_copy (drain_request (MkDrainEntry (extent 40) 5 sources) target).
Proof.
  intros Hs Ht H9. split; simpl.
  - done.
  - intros w data Hw. unfold rwr_write, shelf_writer. rewrite decide_False by done. eexists. split; [reflexivity|].
    unfold second_copy in *. simpl. rewrite lookup_insert_ne; [done|congruence].
  - exists (disk 2). split; [done|]. intros w Hw. unfold rex_read, shelf_reader. rewrite Hw. eauto.
Qed.

Lemma second_copy_removal w : second_copy w → second_copy (transition_to_removed (disk 1) w).1.
Proof.
  intros Hw. assert (disk 2 ≠ disk 1) as Hne by discriminate.
  exact (eq_trans (dl_remove_other (disk 1) w (disk 2) (extent 40) 5 Hne) Hw).
Qed.

(** Whether the drain was complete, the extents left then, and the outcomes and the
    extents left after the queue was served. *)
Definition drain_then_repair (w : Shelf)
    : option (bool * list (DiskId * ExtentId * N) * list bool * list (DiskId * ExtentId * N)) :=
  '(p, dw, st) ← drain_disk (disk 1) (DrainWorker_new DrainConfig_default) (drain_start w);
  '(st', os) ← process_all st;
  Some (dp_complete p, (map_to_list (sh_extents (bg_world st))).*1, map ro_success os,
        (map_to_list (sh_extents (bg_world st'))).*1).

Definition listed_entry : DrainExtentEntry := MkDrainEntry (extent 40) 5 (holders (extent 40) 5 two_copies).

Lemma two_copies_listed : list_extents_on_disk (disk 1) two_copies = [listed_entry].
Proof. vm_compute. reflexivity. Qed.

Lemma second_copy_holds : disk 2 ∈ holders (extent 40) 5 two_copies.
Proof. apply (bool_decide_unpack _). vm_compute. exact I. Qed.

Lemma two_copies_queued :
  (λ r, dp_relocated r.1.1) <$>
    drain_run NotCancelled (disk 1) (DrainWorker_new DrainConfig_default) (drain_start two_copies) = Some 1.
Proof. vm_compute. reflexivity. Qed.

Lemma two_copies_consistent : consistent contents two_copies.
Proof.
  intros d e v data Hd. simpl in Hd.
  apply lookup_insert_Some in Hd as [[[= <- <- <-] <-]|[_ [[= <- <- <-] <-]%lookup_singleton_Some]]; reflexivity.
Qed.

End DrainDemo.
Import RepairDemo DrainDemo.


(** The disk is reported drained and removed when its extents are only queued: an
    extent with no other copy is lost, and its repair fails. *)
Theorem drain_completes_before_relocation : drain_then_repair one_copy = Some (true, [], [false], []).
Proof. vm_compute. reflexivity. Qed.
