(* ===== verification/Scrub.v ===== *)
(** * Scrubbing (crates/blockyard-storage/src/background/scrub.rs)

    A pass reads every extent of every disk, compares its checksum with the expected
    one and sends a notification for each extent that is damaged or cannot be read.
    The theorem says that a pass reports exactly these. *)

From S2P Require Import Prelude Common RateLimit.

#[local] Open Scope N_scope.

Record ScrubConfig := MkScrubConfig { interval_secs : N; tokens_per_extent : N }.

Definition ScrubConfig_default : ScrubConfig := MkScrubConfig 86400 1.

Record ScrubResult := MkScrubResult {
  sr_disk_id : DiskId;
  sr_extents_checked : N;
  sr_checksum_errors : N;
  sr_read_errors : N;
  sr_metadata_errors : N;
  sr_duration : N
}.

Record ScrubExtentEntry := MkScrubEntry {
  se_extent_id : ExtentId;
  se_disk_id : DiskId;
  se_expected_checksum : string;
  se_version : N
}.

Inductive CorruptionReason :=
  | ChecksumMismatch (expected actual : string)
  | ReadError (e : string)
  | MissingMetadata.

Record CorruptionNotification := MkNotification {
  cn_disk_id : DiskId;
  cn_extent_id : ExtentId;
  cn_reason : CorruptionReason
}.

(** The trait that reads extents, and the sender of the notification channel, whose
    [send] fails when the receiver is gone. *)
Class ExtentReader (W : Type) := {
  scrub_read_extent : DiskId → ExtentId → N → W → result string (list N * string);
  scrub_list_extents : DiskId → W → list ScrubExtentEntry;
  scrub_list_disks : W → list DiskId
}.

Class CorruptionSender (W : Type) := send_notification : CorruptionNotification → W → W * result unit unit.

Record ScrubWorker := MkScrubWorker { sk_config : ScrubConfig; sk_results : list ScrubResult }.

Definition ScrubWorker_new (config : ScrubConfig) : ScrubWorker := MkScrubWorker config [].

(** [e.contains("metadata")] *)
Definition mentions_metadata (e : string) : bool := bool_decide (is_Some (String.index 0 "metadata" e)).

Definition count_checked (r : ScrubResult) : ScrubResult :=
  MkScrubResult (sr_disk_id r) (sr_extents_checked r + 1) (sr_checksum_errors r) (sr_read_errors r)
    (sr_metadata_errors r) (sr_duration r).

Definition count_error (reason : CorruptionReason) (r : ScrubResult) : ScrubResult :=
  match reason with
  | ChecksumMismatch _ _ => MkScrubResult (sr_disk_id r) (sr_extents_checked r) (sr_checksum_errors r + 1)
                              (sr_read_errors r) (sr_metadata_errors r) (sr_duration r)
  | ReadError _ => MkScrubResult (sr_disk_id r) (sr_extents_checked r) (sr_checksum_errors r)
                     (sr_read_errors r + 1) (sr_metadata_errors r) (sr_duration r)
  | MissingMetadata => MkScrubResult (sr_disk_id r) (sr_extents_checked r) (sr_checksum_errors r)
                         (sr_read_errors r) (sr_metadata_errors r + 1) (sr_duration r)
  end.

Definition set_duration (d : N) (r : ScrubResult) : ScrubResult :=
  MkScrubResult (sr_disk_id r) (sr_extents_checked r) (sr_checksum_errors r) (sr_read_errors r)
    (sr_metadata_errors r) d.

Section Scrub.
Context {W : Type} `{!Timer W} `{!ExtentReader W} `{!CorruptionSender W}.
Implicit Types (w : W) (tb : TokenBucket).

(** What reading an extent shows. *)
Definition fault (disk_id : DiskId) (entry : ScrubExtentEntry) w : option CorruptionReason :=
  match scrub_read_extent disk_id (se_extent_id entry) (se_version entry) w with
  | Ok (_, computed_checksum) =>
      if decide (computed_checksum = se_expected_checksum entry) then None
      else Some (ChecksumMismatch (se_expected_checksum entry) computed_checksum)
  | Err e => if mentions_metadata e then Some MissingMetadata else Some (ReadError e)
  end.

Fixpoint scrub_entries (tokens : N) (disk_id : DiskId) (entries : list ScrubExtentEntry) (r : ScrubResult) tb w
    : option (ScrubResult * TokenBucket * W) :=
  match entries with
  | [] => Some (r, tb, w)
  | entry :: entries =>
      '(tb, w) ← acquire tokens tb w;
      let r := count_checked r in
      match fault disk_id entry w with
      | None => scrub_entries tokens disk_id entries r tb w
      | Some reason =>
          let '(w, _) := send_notification (MkNotification disk_id (se_extent_id entry) reason) w in
          scrub_entries tokens disk_id entries (count_error reason r) tb w
      end
  end.

Definition scrub_disk (tokens : N) (disk_id : DiskId) tb w : option (ScrubResult * TokenBucket * W) :=
  let start := instant_now w in
  '(r, tb, w) ← scrub_entries tokens disk_id (scrub_list_extents disk_id w) (MkScrubResult disk_id 0 0 0 0 0) tb w;
  Some (set_duration (instant_now w - start) r, tb, w).

Fixpoint scrub_disks (tokens : N) (disks : list DiskId) (results : list ScrubResult) tb w
    : option (list ScrubResult * TokenBucket * W) :=
  match disks with
  | [] => Some (results, tb, w)
  | disk_id :: disks =>
      '(r, tb, w) ← scrub_disk tokens disk_id tb w;
      scrub_disks tokens disks (results ++ [r]) tb w
  end.

Definition scrub_pass (sk : ScrubWorker) tb w : option (ScrubWorker * list ScrubResult * TokenBucket * W) :=
  '(results, tb, w) ← scrub_disks (tokens_per_extent (sk_config sk)) (scrub_list_disks w) [] tb w;
  Some (MkScrubWorker (sk_config sk) results, results, tb, w).

End Scrub.

(** ** What a pass reports *)

(** Notifications that the receiver has been sent. *)
Class NotificationLog (W : Type) := {
  sent : W → list CorruptionNotification;
  receiving : W → Prop
}.

(** A send to a receiver that listens is delivered; neither a send nor a sleep changes
    what is on the disks. *)
Class ScrubLaws (W : Type) `{!Timer W} `{!ExtentReader W} `{!CorruptionSender W} `{!NotificationLog W} : Prop := {
  sl_send n (w : W) : receiving w → ∃ w', send_notification n w = (w', Ok tt) ∧ sent w' = sent w ++ [n] ∧ receiving w';
  sl_send_clock n (w : W) : instant_now w ≤ instant_now (send_notification n w).1;
  sl_send_read n (w : W) d e v : scrub_read_extent d e v (send_notification n w).1 = scrub_read_extent d e v w;
  sl_send_list n (w : W) d : scrub_list_extents d (send_notification n w).1 = scrub_list_extents d w;
  sl_sleep_sent ms (w : W) : sent (sleep_ms ms w) = sent w ∧ (receiving w → receiving (sleep_ms ms w));
  sl_sleep_read ms (w : W) d e v : scrub_read_extent d e v (sleep_ms ms w) = scrub_read_extent d e v w;
  sl_sleep_list ms (w : W) d : scrub_list_extents d (sleep_ms ms w) = scrub_list_extents d w
}.

Section Reports.
Context {W : Type} `{!Timer W} `{!TimerLaws W} `{!ExtentReader W} `{!CorruptionSender W} `{!NotificationLog W} `{!ScrubLaws W}.
Context (lag tokens n : N).
Hypothesis sleep_bounded : ∀ w : W, instant_now (sleep_ms 10 w) ≤ instant_now w + lag.
Hypothesis tokens_covered : tokens ≤ n.
Implicit Types (w : W) (tb : TokenBucket).

(** The extent is there and has the checksum expected of it. *)
Definition intact (disk_id : DiskId) (entry : ScrubExtentEntry) w : Prop :=
  ∃ data, scrub_read_extent disk_id (se_extent_id entry) (se_version entry) w = Ok (data, se_expected_checksum entry).

Lemma fault_None disk_id entry w : fault disk_id entry w = None ↔ intact disk_id entry w.
Proof.
  unfold fault, intact. destruct (scrub_read_extent _ _ _ _) as [[data sum]|e].
  - destruct (decide _) as [->|Hne]; [naive_solver|]. split; [done|]. intros [data' [= _ ?]]. done.
  - split; [by destruct (mentions_metadata e)|]. by intros [? ?].
Qed.

(** The notifications due for a disk. *)
Definition due (entries : list ScrubExtentEntry) w (disk_id : DiskId) : list CorruptionNotification :=
  omap (λ entry, MkNotification disk_id (se_extent_id entry) <$> fault disk_id entry w) entries.

(** The same disks, with as many notifications more. *)
Record scrubbed w (ns : list CorruptionNotification) tb' w' : Prop := {
  sd_budget : budget_ok lag n tb' w';
  sd_sent : sent w' = sent w ++ ns;
  sd_receiving : receiving w';
  sd_read d e v : scrub_read_extent d e v w' = scrub_read_extent d e v w;
  sd_list d : scrub_list_extents d w' = scrub_list_extents d w
}.

Lemma scrubbed_trans w ns w1 ns' tb1 tb2 w2 :
  scrubbed w ns tb1 w1 → scrubbed w1 ns' tb2 w2 → scrubbed w (ns ++ ns') tb2 w2.
Proof.
  intros [_ Hs _ Hr Hl] [Hb' Hs' Hre' Hr' Hl']. split; [done| |done|..].
  - by rewrite Hs', Hs, (assoc_L (++)).
  - intros. by rewrite Hr'.
  - intros. by rewrite Hl'.
Qed.

Lemma fault_same d entry w ns tb' w' : scrubbed w ns tb' w' → fault d entry w' = fault d entry w.
Proof. intros Hs. unfold fault. by rewrite (sd_read _ _ _ _ Hs). Qed.

Lemma scrubbed_acquire tb w :
  budget_ok lag n tb w → receiving w → ∃ tb' w', acquire tokens tb w = Some (tb', w') ∧ scrubbed w [] tb' w'.
Proof.
  intros Hb Hr. destruct (acquire_ok lag tokens sleep_bounded n tb w Hb tokens_covered) as (tb' & w' & Hacq & Hb' & _).
  exists tb', w'. split; [done|]. assert (sent w' = sent w ∧ receiving w' ∧ (∀ d e v, scrub_read_extent d e v w' =
    scrub_read_extent d e v w) ∧ ∀ d, scrub_list_extents d w' = scrub_list_extents d w) as (? & ? & ? & ?).
  { eapply (acquire_preserves _ (λ w', sent w' = sent w ∧ receiving w' ∧ (∀ d e v, scrub_read_extent d e v w' =
      scrub_read_extent d e v w) ∧ ∀ d, scrub_list_extents d w' = scrub_list_extents d w)); [|exact Hacq|done].
    intros ms w1 (Hs1 & Hr1 & Hd1 & Hl1). destruct (sl_sleep_sent ms w1) as [-> Hrec]. split_and!; [done|auto|..].
    - intros. by rewrite sl_sleep_read.
    - intros. by rewrite sl_sleep_list. }
  split; try done. by rewrite app_nil_r.
Qed.

Lemma scrubbed_send m tb w :
  budget_ok lag n tb w → receiving w → ∃ w' res, send_notification m w = (w', res) ∧ scrubbed w [m] tb w'.
Proof.
  intros Hb Hr. destruct (sl_send m w Hr) as (w' & Hsend & Hs & Hr'). exists w', (Ok tt). split; [done|].
  pose proof (sl_send_clock m w) as Hc. pose proof (sl_send_read m w) as Hd. pose proof (sl_send_list m w) as Hl.
  rewrite Hsend in Hc, Hd, Hl. split; try done. destruct Hb. split; try done. simpl in Hc. lia.
Qed.

(** What the result says, [ns] being the notifications sent for the disk. *)
Record counted (disk_id : DiskId) (checked : nat) (ns : list CorruptionNotification) (r r' : ScrubResult) : Prop := {
  ct_disk : sr_disk_id r' = sr_disk_id r;
  ct_checked : sr_extents_checked r' = sr_extents_checked r + N.of_nat checked;
  ct_errors : sr_checksum_errors r' + sr_read_errors r' + sr_metadata_errors r' =
              sr_checksum_errors r + sr_read_errors r + sr_metadata_errors r + N.of_nat (length ns)
}.

Lemma scrub_entries_spec disk_id entries r tb w :
  budget_ok lag n tb w → receiving w →
  ∃ r' tb' w', scrub_entries tokens disk_id entries r tb w = Some (r', tb', w') ∧
    scrubbed w (due entries w disk_id) tb' w' ∧ counted disk_id (length entries) (due entries w disk_id) r r'.
Proof.
  revert r tb w. induction entries as [|entry entries IH]; intros r tb w Hb Hr.
  { exists r, tb, w. split; [done|]. split; split; simpl; rewrite ?app_nil_r; (done || lia). }
  simpl. destruct (scrubbed_acquire tb w Hb Hr) as (tb1 & w1 & -> & H1). simpl.
  rewrite (fault_same disk_id entry _ _ _ _ H1).
  assert (∀ ns tb2 w2, scrubbed w ns tb2 w2 → due entries w2 disk_id = due entries w disk_id) as Hdue.
  { intros ns tb2 w2 H2. unfold due. apply list_omap_ext. apply Forall_Forall2_diag, Forall_true. intros x.
    by rewrite (fault_same disk_id x _ _ _ _ H2). }
  destruct (fault disk_id entry w) as [reason|]; simpl.
  - destruct (scrubbed_send (MkNotification disk_id (se_extent_id entry) reason) tb1 w1) as (w2 & res & Hsend & H2); [apply H1..|].
    rewrite Hsend. pose proof (scrubbed_trans _ _ _ _ _ _ _ H1 H2) as H12.
    destruct (IH (count_error reason (count_checked r)) tb1 w2) as (r' & tb' & w' & Hrun & H3 & Hct); [apply H2..|].
    exists r', tb', w'. split; [done|]. rewrite (Hdue _ _ _ H12) in *. split; [by apply (scrubbed_trans _ _ _ _ _ _ _ H12 H3)|].
    destruct Hct as [Hct1 Hct2 Hct3]. split; destruct reason; simpl in *; (done || lia).
  - destruct (IH (count_checked r) tb1 w1) as (r' & tb' & w' & Hrun & H3 & Hct); [apply H1..|].
    exists r', tb', w'. split; [done|]. rewrite (Hdue _ _ _ H1) in *. split; [by apply (scrubbed_trans _ _ _ _ _ _ _ H1 H3)|].
    destruct Hct as [Hct1 Hct2 Hct3]. split; simpl in *; (done || lia).
Qed.

(** What the result of a disk says. *)
Definition result_of w (disk_id : DiskId) (r : ScrubResult) : Prop :=
  sr_disk_id r = disk_id ∧ sr_extents_checked r = N.of_nat (length (scrub_list_extents disk_id w)) ∧
  sr_checksum_errors r + sr_read_errors r + sr_metadata_errors r
    = N.of_nat (length (due (scrub_list_extents disk_id w) w disk_id)).

Definition all_due w (disks : list DiskId) : list CorruptionNotification :=
  concat ((λ d, due (scrub_list_extents d w) w d) <$> disks).

Lemma due_same w ns tb' w' disk_id : scrubbed w ns tb' w' →
  due (scrub_list_extents disk_id w') w' disk_id = due (scrub_list_extents disk_id w) w disk_id.
Proof.
  intros Hs. rewrite (sd_list _ _ _ _ Hs). unfold due. apply list_omap_ext. apply Forall_Forall2_diag, Forall_true.
  intros x. by rewrite (fault_same disk_id x _ _ _ _ Hs).
Qed.

Lemma scrub_disk_spec disk_id tb w :
  budget_ok lag n tb w → receiving w →
  ∃ r tb' w', scrub_disk tokens disk_id tb w = Some (r, tb', w') ∧
    scrubbed w (due (scrub_list_extents disk_id w) w disk_id) tb' w' ∧ result_of w disk_id r.
Proof.
  intros Hb Hr. unfold scrub_disk.
  destruct (scrub_entries_spec disk_id (scrub_list_extents disk_id w) (MkScrubResult disk_id 0 0 0 0 0) tb w Hb Hr)
    as (r & tb' & w' & -> & Hs & [Hd Hc He]). eexists _, tb', w'. split; [done|]. split; [done|].
  unfold result_of. simpl in *. split_and!; [done|lia..].
Qed.

Lemma scrub_disks_spec disks results tb w :
  budget_ok lag n tb w → receiving w →
  ∃ rs tb' w', scrub_disks tokens disks results tb w = Some (results ++ rs, tb', w') ∧
    scrubbed w (all_due w disks) tb' w' ∧ Forall2 (result_of w) disks rs.
Proof.
  revert results tb w. induction disks as [|d disks IH]; intros results tb w Hb Hr; simpl.
  { exists [], tb, w. rewrite app_nil_r. split; [done|]. split; [|constructor]. split; try done. by rewrite app_nil_r. }
  destruct (scrub_disk_spec d tb w Hb Hr) as (r & tb1 & w1 & -> & H1 & Hres). simpl.
  destruct (IH (results ++ [r]) tb1 w1) as (rs & tb' & w' & -> & H2 & Hall); [apply H1..|].
  assert (all_due w1 disks = all_due w disks) as Hsame.
  { unfold all_due. f_equal. apply list_fmap_ext. intros i d' _. by apply (due_same _ _ _ _ d' H1). }
  exists (r :: rs), tb', w'. rewrite <- (assoc_L (++)). split; [done|]. split.
  - rewrite Hsame in H2. by apply (scrubbed_trans _ _ _ _ _ _ _ H1 H2).
  - constructor; [done|]. eapply Forall2_impl; [exact Hall|]. intros d' r'. unfold result_of.
    by rewrite (due_same _ _ _ _ d' H1), (sd_list _ _ _ _ H1).
Qed.

Lemma all_due_damaged w disks d e :
  (∃ reason, MkNotification d e reason ∈ all_due w disks) ↔
  ∃ entry, d ∈ disks ∧ entry ∈ scrub_list_extents d w ∧ se_extent_id entry = e ∧ ¬ intact d entry w.
Proof.
  unfold all_due. split.
  - intros [reason (ns & Hin & Hns)%list_elem_of_In%in_concat]. apply list_elem_of_In, list_elem_of_fmap in Hin as (d' & -> & Hd').
    apply list_elem_of_In, list_elem_of_omap in Hns as (entry & Hentry & Hf). apply fmap_Some in Hf as (reason' & Hf & Heq).
    simplify_eq. exists entry. rewrite <- fault_None, Hf. done.
  - intros (entry & Hd & Hentry & <- & Hfault). rewrite <- fault_None in Hfault.
    destruct (fault d entry w) as [reason|] eqn:Hf; [|done]. exists reason. apply list_elem_of_In, in_concat.
    exists (due (scrub_list_extents d w) w d). split; apply list_elem_of_In.
    + apply list_elem_of_fmap. by exists d.
    + apply list_elem_of_omap. exists entry. split; [done|]. by rewrite Hf.
Qed.

End Reports.

(** C37: A scrub pass reports exactly the damage: with a budget that covers one read and
    a receiver that listens, a pass ends; it notifies of an extent of a disk if and
    only if some listed version of it cannot be read or has another checksum than
    expected; and the result of each disk counts the extents listed and the
    notifications sent for it. *)
Theorem scrub_reports_damage `{!Timer W} `{!TimerLaws W} `{!ExtentReader W} `{!CorruptionSender W} `{!NotificationLog W}
    `{!ScrubLaws W} (lag n : N) (sk : ScrubWorker) tb (w : W) :
  (∀ w : W, instant_now (sleep_ms 10 w) ≤ instant_now w + lag) → tokens_per_extent (sk_config sk) ≤ n →
  budget_ok lag n tb w → receiving w →
  ∃ sk' results tb' w' ns, scrub_pass sk tb w = Some (sk', results, tb', w') ∧ sk_results sk' = results ∧
    sent w' = sent w ++ ns ∧ Forall2 (result_of w) (scrub_list_disks w) results ∧
    ∀ d e, (∃ reason, MkNotification d e reason ∈ ns) ↔
      ∃ entry, d ∈ scrub_list_disks w ∧ entry ∈ scrub_list_extents d w ∧ se_extent_id entry = e ∧ ¬ intact d entry w.
Proof.
  intros Hlag Hn Hb Hr. unfold scrub_pass.
  destruct (scrub_disks_spec lag (tokens_per_extent (sk_config sk)) n Hlag Hn (scrub_list_disks w) [] tb w Hb Hr)
    as (rs & tb' & w' & -> & Hs & Hall). simpl.
  eexists _, rs, tb', w', (all_due w (scrub_list_disks w)). split_and!; [done|done|apply Hs|done|].
  intros d e. apply all_due_damaged.
Qed.

Module ScrubDemo.

(** Two disks; extent 41 of disk 2 has decayed. *)
Record Bench := MkBench { be_clock : N; be_sums : gmap (DiskId * ExtentId * N) string; be_sent : list CorruptionNotification }.

#[export] Instance bench_timer : Timer Bench :=
  {| instant_now w := be_clock w; sleep_ms ms w := MkBench (be_clock w + ms * 1000000) (be_sums w) (be_sent w) |}.

#[export] Instance bench_timer_laws : TimerLaws Bench.
Proof. intros ms w. simpl. lia. Qed.

#[export] Instance bench_reader : ExtentReader Bench := {|
  scrub_read_extent d e v w :=
    match be_sums w !! (d, e, v) with Some sum => Ok ([], sum) | None => Err "metadata file missing" end;
  scrub_list_extents d w := [MkScrubEntry (ExtentId_new 40) d "good" 1; MkScrubEntry (ExtentId_new 41) d "good" 1];
  scrub_list_disks w := [DiskId_new 1; DiskId_new 2]
|}.

#[export] Instance bench_sender : CorruptionSender Bench := λ m w,
  (MkBench (be_clock w) (be_sums w) (be_sent w ++ [m]), Ok tt).

#[export] Instance bench_log : NotificationLog Bench := {| sent := be_sent; receiving w := True |}.

#[export] Instance bench_laws : ScrubLaws Bench.
Proof. split; simpl; try done. intros m w _. eexists. by split_and!. Qed.

Definition bench : Bench :=
  MkBench 0 {[ (DiskId_new 1, ExtentId_new 40, 1) := "good"; (DiskId_new 1, ExtentId_new 41, 1) := "good";
               (DiskId_new 2, ExtentId_new 40, 1) := "good"; (DiskId_new 2, ExtentId_new 41, 1) := "rotten" ]} [].

End ScrubDemo.
Import ScrubDemo.

Lemma scrub_reports_damage_witness :
  ∃ sk results tb w, scrub_pass (ScrubWorker_new ScrubConfig_default) (TokenBucket_new 200 100 0) bench = Some (sk, results, tb, w) ∧
    (∃ reason, MkNotification (DiskId_new 2) (ExtentId_new 41) reason ∈ sent w) ∧
    ¬ (∃ reason, MkNotification (DiskId_new 1) (ExtentId_new 41) reason ∈ sent w).
Proof.
  assert (∀ w : Bench, instant_now (sleep_ms 10 w) ≤ instant_now w + 10000000) as Hlag by (intros w; simpl; lia).
  destruct (scrub_reports_damage 10000000 10 (ScrubWorker_new ScrubConfig_default) (TokenBucket_new 200 100 0) bench Hlag)
    as (sk & results & tb & w & ns & Hrun & _ & Hsent & _ & Hiff).
  - vm_compute. congruence.
  - split; vm_compute; congruence.
  - exact I.
  - exists sk, results, tb, w. split; [exact Hrun|]. change (sent w = ns) in Hsent. rewrite Hsent. split.
    + apply Hiff. exists (MkScrubEntry (ExtentId_new 41) (DiskId_new 2) "good" 1). split_and!; [right; left|right; left|reflexivity|].
      intros [data Hd]. vm_compute in Hd. discriminate Hd.
    + intros Hin. apply Hiff in Hin as (entry & _ & Hentry & He & Hdam). apply Hdam.
      apply list_elem_of_In in Hentry as [<-|[<-|[]]]; exists []; vm_compute; [discriminate He|reflexivity].
Defined.
