(* ===== verification/Rebalance.v ===== *)
(** * Rebalancing and the scheduler (crates/blockyard-storage/src/background/rebalance.rs, scheduler.rs)

    A pass compares the utilisation of the disks, in 64-bit floating point, and plans
    moves of extents from disks above the average to a disk below it; the moves are
    queued as repairs.  Floating-point numbers are the IEEE 754 binary64 of the
    Standard Library, computed exactly as the code computes them. *)

From Stdlib Require Import SpecFloat.
From S2P Require Import Prelude Common Float RateLimit EcCodec Repair Drain Scrub.

#[local] Open Scope N_scope.

(** ** The plan *)

Record RebalanceConfig := MkRebalanceConfig {
  imbalance_threshold : f64;
  max_moves_per_pass : nat;
  tokens_per_move : N;
  check_interval_secs : N
}.

(** The threshold 0.1 is one tenth rounded to nearest. *)
Definition RebalanceConfig_default : RebalanceConfig :=
  MkRebalanceConfig (f64_div (f64_of_u64 1) (f64_of_u64 10)) 100 5 300.

Record DiskUtilization := MkUtilization {
  du_disk_id : DiskId;
  du_used_bytes : N;
  du_total_bytes : N;
  du_extent_count : N
}.

Definition utilization (d : DiskUtilization) : f64 :=
  if decide (du_total_bytes d = 0) then f64_zero
  else f64_div (f64_of_u64 (du_used_bytes d)) (f64_of_u64 (du_total_bytes d)).

Record RebalanceMove := MkMove {
  mv_extent_id : ExtentId;
  mv_version : N;
  mv_source_disk : DiskId;
  mv_target_disk : DiskId
}.

Record RebalancePlan := MkPlan {
  pl_moves : list RebalanceMove;
  pl_needed : bool;
  pl_max_imbalance : f64
}.

Class RebalanceInventory (W : Type) := {
  get_disk_utilizations : W → list DiskUtilization;
  list_moveable_extents : DiskId → W → list (ExtentId * N);
  healthy_sources_for_extent : ExtentId → W → list DiskId
}.

Record RebalanceWorker := MkRebalanceWorker {
  rb_config : RebalanceConfig;
  rb_last_plan : option RebalancePlan
}.

Definition RebalanceWorker_new (config : RebalanceConfig) : RebalanceWorker := MkRebalanceWorker config None.

Definition average_utilization (us : list DiskUtilization) : f64 :=
  let total_used := f64_sum ((λ d, f64_of_u64 (du_used_bytes d)) <$> us) in
  let total_capacity := f64_sum ((λ d, f64_of_u64 (du_total_bytes d)) <$> us) in
  if f64_eq total_capacity f64_zero then f64_zero else f64_div total_used total_capacity.

Definition max_imbalance (avg : f64) (us : list DiskUtilization) : f64 :=
  foldl f64_max f64_zero ((λ d, f64_abs (f64_sub (utilization d) avg)) <$> us).

(** [b.partial_cmp(a)], equal when unordered: the fullest disk first. *)
Definition utilization_cmp (a b : DiskUtilization) : comparison :=
  default Eq (SFcompare (utilization b) (utilization a)).

Definition over_utilized (threshold avg : f64) (d : DiskUtilization) : bool :=
  f64_lt (f64_div threshold f64_two) (f64_sub (utilization d) avg).

Definition under_utilized (threshold avg : f64) (d : DiskUtilization) : bool :=
  negb (over_utilized threshold avg d) &&
  f64_lt (f64_sub (utilization d) avg) (f64_div (f64_neg threshold) f64_two).

(** The moves of one source, and how many may still be planned. *)
Fixpoint plan_extents (source : DiskId) (target : option DiskUtilization) (extents : list (ExtentId * N)) (remaining : nat)
    (moves : list RebalanceMove) : list RebalanceMove * nat :=
  match extents with
  | [] => (moves, remaining)
  | (eid, version) :: extents =>
      match remaining with
      | O => (moves, O)
      | S less =>
          match target with
          | Some t => plan_extents source target extents less (moves ++ [MkMove eid version source (du_disk_id t)])
          | None => plan_extents source target extents remaining moves
          end
      end
  end.

Section Plan.
Context {W : Type} `{!RebalanceInventory W}.
Implicit Types (w : W).

Fixpoint plan_sources (sources : list DiskUtilization) (target : option DiskUtilization) (remaining : nat)
    (moves : list RebalanceMove) w : list RebalanceMove :=
  match sources with
  | [] => moves
  | source :: sources =>
      match remaining with
      | O => moves
      | S _ =>
          let '(moves, remaining) :=
            plan_extents (du_disk_id source) target (list_moveable_extents (du_disk_id source) w) remaining moves in
          plan_sources sources target remaining moves w
      end
  end.

Definition make_plan (cfg : RebalanceConfig) w : RebalancePlan :=
  let us := get_disk_utilizations w in
  match us with
  | [] => MkPlan [] false f64_zero
  | _ =>
      let avg := average_utilization us in
      let imbalance := max_imbalance avg us in
      let threshold := imbalance_threshold cfg in
      if f64_lt imbalance threshold then MkPlan [] false imbalance else
      let by_util := sort_by utilization_cmp us in
      let over := filter (λ d, over_utilized threshold avg d = true) by_util in
      let under := filter (λ d, under_utilized threshold avg d = true) by_util in
      let moves := plan_sources over (head under) (max_moves_per_pass cfg) [] w in
      MkPlan moves (match moves with [] => false | _ => true end) imbalance
  end.

Definition generate_plan (rb : RebalanceWorker) w : RebalanceWorker * RebalancePlan :=
  let plan := make_plan (rb_config rb) w in (MkRebalanceWorker (rb_config rb) (Some plan), plan).

Definition move_request (mv : RebalanceMove) (sources : list DiskId) : RepairRequest :=
  MkRepairRequest (mv_extent_id mv) (mv_version mv) (mv_target_disk mv) (Replication sources) 200.

Context `{!Timer W}.
Implicit Types (st : Background W).

Fixpoint execute_moves (tokens : N) (moves : list RebalanceMove) (submitted : nat) st : option (nat * Background W) :=
  match moves with
  | [] => Some (submitted, st)
  | mv :: moves =>
      '(tb, w) ← acquire tokens (bg_bucket st) (bg_world st);
      let sources := healthy_sources_for_extent (mv_extent_id mv) w in
      execute_moves tokens moves (S submitted) (bg_enqueue (move_request mv sources) (set_budget tb w st))
  end.

Definition execute_plan (rb : RebalanceWorker) (plan : RebalancePlan) st : option (nat * Background W) :=
  execute_moves (tokens_per_move (rb_config rb)) (pl_moves plan) 0 st.

Definition rebalance_pass (rb : RebalanceWorker) st : option (RebalanceWorker * RebalancePlan * Background W) :=
  let '(rb, plan) := generate_plan rb (bg_world st) in
  if pl_needed plan
  then '(_, st) ← execute_plan rb plan st; Some (rb, plan, st)
  else Some (rb, plan, st).

End Plan.

(** ** The scheduler *)

Inductive TaskPriority := Foreground | PrRepair | PrScrub | PrDrain | PrRebalance.

(** The discriminants; a lower number is a higher priority. *)
Definition task_priority_number (p : TaskPriority) : N :=
  match p with Foreground => 0 | PrRepair => 1 | PrScrub => 2 | PrDrain => 3 | PrRebalance => 4 end.

Record SchedulerConfig := MkSchedulerConfig {
  total_budget_tokens_per_sec : N;
  burst_capacity : N;
  sc_scrub : ScrubConfig;
  sc_repair : RepairConfig;
  sc_rebalance : RebalanceConfig;
  sc_drain : DrainConfig
}.

Definition SchedulerConfig_default : SchedulerConfig :=
  MkSchedulerConfig 100 200 ScrubConfig_default RepairConfig_default RebalanceConfig_default DrainConfig_default.

Record BackgroundScheduler := MkScheduler {
  bs_config : SchedulerConfig;
  bs_rate_limiter : TokenBucket;
  bs_scrub_worker : ScrubWorker;
  bs_repair_worker : RepairWorker;
  bs_rebalance_worker : RebalanceWorker;
  bs_drain_worker : DrainWorker
}.

Definition BackgroundScheduler_new (config : SchedulerConfig) (now : N) : BackgroundScheduler :=
  MkScheduler config (TokenBucket_new (burst_capacity config) (total_budget_tokens_per_sec config) now)
    (ScrubWorker_new (sc_scrub config)) (RepairWorker_new (sc_repair config))
    (RebalanceWorker_new (sc_rebalance config)) (DrainWorker_new (sc_drain config)).

Record SchedulerStatus := MkStatus {
  ss_repair_backlog : nat;
  ss_drain_active : bool;
  ss_scrub_results_count : nat;
  ss_rebalance_planned : bool;
  ss_available_tokens : N
}.

(** A status also refills the bucket. *)
Definition status (now : N) (s : BackgroundScheduler) : BackgroundScheduler * SchedulerStatus :=
  let '(tb, tokens) := available now (bs_rate_limiter s) in
  (MkScheduler (bs_config s) tb (bs_scrub_worker s) (bs_repair_worker s) (bs_rebalance_worker s) (bs_drain_worker s),
   MkStatus (queue_len (bs_repair_worker s)) (bool_decide (is_Some (dw_progress (bs_drain_worker s))))
     (length (sk_results (bs_scrub_worker s)))
     (match rb_last_plan (bs_rebalance_worker s) with Some p => pl_needed p | None => false end) tokens).

(** The default budget covers every default worker: none of them waits for ever. *)
Lemma default_budget_covers `{!Timer W} (w : W) :
  let s := BackgroundScheduler_new SchedulerConfig_default (instant_now w) in
  budget_ok 3600000000000 10 (bs_rate_limiter s) w ∧ tokens_per_repair (rw_config (bs_repair_worker s)) ≤ 10 ∧
  tokens_per_extent (sk_config (bs_scrub_worker s)) ≤ 10 ∧ tokens_per_relocate (dw_config (bs_drain_worker s)) ≤ 10 ∧
  tokens_per_move (rb_config (bs_rebalance_worker s)) ≤ 10.
Proof. split_and!; [split; simpl; (done || lia)|done..]. Qed.

(** ** What a plan contains *)

Lemma plan_extents_take source t extents remaining moves :
  plan_extents source (Some t) extents remaining moves =
    (moves ++ take remaining ((λ '(e, v), MkMove e v source (du_disk_id t)) <$> extents), (remaining - length extents)%nat).
Proof.
  revert remaining moves. induction extents as [|[e v] extents IH]; intros [|remaining] moves; simpl; rewrite ?app_nil_r; try done.
  rewrite IH, <- (assoc_L (++)). done.
Qed.

Lemma plan_extents_none source extents remaining moves :
  plan_extents source None extents remaining moves = (moves, remaining).
Proof. revert remaining. induction extents as [|[e v] extents IH]; intros [|remaining]; simpl; by rewrite ?IH. Qed.

Section PlanSound.
Context {W : Type} `{!RebalanceInventory W}.
Implicit Types (w : W).

(** Every move that could be made to [t]. *)
Definition candidates (over : list DiskUtilization) (t : DiskUtilization) w : list RebalanceMove :=
  s ← over; (λ '(e, v), MkMove e v (du_disk_id s) (du_disk_id t)) <$> list_moveable_extents (du_disk_id s) w.

Lemma plan_sources_take over t remaining moves w :
  plan_sources over (Some t) remaining moves w = moves ++ take remaining (candidates over t w).
Proof.
  revert remaining moves. induction over as [|s over IH]; intros remaining moves; simpl; [by rewrite take_nil, app_nil_r|].
  destruct remaining as [|r]; [by rewrite take_0, app_nil_r|]. rewrite plan_extents_take, IH, take_app, length_fmap.
  by rewrite (assoc_L (++)).
Qed.

Lemma plan_sources_none over remaining moves w : plan_sources over None remaining moves w = moves.
Proof.
  revert remaining. induction over as [|s over IH]; intros [|r]; simpl; [done..|]. by rewrite plan_extents_none, IH.
Qed.

(** The planned moves, for whatever splits the disks into sources and targets. *)
Lemma plan_sources_sound (us : list DiskUtilization) (over under : DiskUtilization → bool) max w :
  NoDup (du_disk_id <$> us) → (∀ d, over d = true → under d = false) →
  let moves := plan_sources (filter (λ d, over d = true) (sort_by utilization_cmp us))
                 (head (filter (λ d, under d = true) (sort_by utilization_cmp us))) max [] w in
  (length moves ≤ max)%nat ∧
  ∀ mv, mv ∈ moves →
    mv_source_disk mv ≠ mv_target_disk mv ∧
    (mv_extent_id mv, mv_version mv) ∈ list_moveable_extents (mv_source_disk mv) w ∧
    (∃ s, s ∈ us ∧ du_disk_id s = mv_source_disk mv ∧ over s = true) ∧
    (∃ t, t ∈ us ∧ du_disk_id t = mv_target_disk mv ∧ under t = true).
Proof.
  intros Hnd Hdisj. destruct (head _) as [t|] eqn:Ht; simpl; [|rewrite plan_sources_none; split; [simpl; lia|set_solver]].
  apply head_Some_elem_of, list_elem_of_filter in Ht as [Hunder Hin]. rewrite sort_by_perm in Hin.
  rewrite plan_sources_take, app_nil_l. split; [rewrite length_take; lia|]. intros mv Hmv.
  apply elem_of_take in Hmv as (i & Hmv & _). apply list_elem_of_lookup_2 in Hmv.
  apply list_elem_of_bind in Hmv as (src & Hmv & Hsrc). apply list_elem_of_fmap in Hmv as ([e v] & -> & Hev).
  apply list_elem_of_filter in Hsrc as [Hover Hsrc]. rewrite sort_by_perm in Hsrc. simpl. split_and!; [|done|by exists src|by exists t].
  intros Heq. apply list_elem_of_lookup in Hsrc as [i1 H1], Hin as [i2 H2].
  assert (i1 = i2) as ->.
  { eapply (NoDup_lookup _ _ _ _ Hnd); rewrite list_lookup_fmap; [by rewrite H1|by rewrite H2, Heq]. }
  simplify_eq. by rewrite (Hdisj _ Hover) in Hunder.
Qed.

(** The average the disks are compared with. *)
Definition average w : f64 := average_utilization (get_disk_utilizations w).

(** A rebalance plan is sound: it has at most the configured number of moves; each
    moves an extent that may be moved from a disk whose utilisation exceeds the
    average by more than half the threshold to another disk that is below it by more
    than half; no move is planned when the imbalance is below the threshold; and a
    plan is needed exactly when it has moves. *)
Theorem rebalance_plan_sound cfg w :
  NoDup (du_disk_id <$> get_disk_utilizations w) →
  let plan := make_plan cfg w in
  (length (pl_moves plan) ≤ max_moves_per_pass cfg)%nat ∧
  (∀ mv, mv ∈ pl_moves plan →
    mv_source_disk mv ≠ mv_target_disk mv ∧
    (mv_extent_id mv, mv_version mv) ∈ list_moveable_extents (mv_source_disk mv) w ∧
    (∃ s, s ∈ get_disk_utilizations w ∧ du_disk_id s = mv_source_disk mv ∧
          over_utilized (imbalance_threshold cfg) (average w) s = true) ∧
    (∃ t, t ∈ get_disk_utilizations w ∧ du_disk_id t = mv_target_disk mv ∧
          under_utilized (imbalance_threshold cfg) (average w) t = true)) ∧
  (f64_lt (pl_max_imbalance plan) (imbalance_threshold cfg) = true → pl_moves plan = []) ∧
  (pl_needed plan = true ↔ pl_moves plan ≠ []).
Proof.
  intros Hnd. unfold make_plan, average.
  pose proof (plan_sources_sound (get_disk_utilizations w)
    (over_utilized (imbalance_threshold cfg) (average_utilization (get_disk_utilizations w)))
    (under_utilized (imbalance_threshold cfg) (average_utilization (get_disk_utilizations w)))
    (max_moves_per_pass cfg) w Hnd) as Hsound.
  destruct (get_disk_utilizations w) as [|u us]; [simpl; split_and!; [lia|set_solver|done|done]|].
  destruct (f64_lt _ _) eqn:Hlow; [simpl; split_and!; [lia|set_solver|done|done]|]. cbn [pl_moves pl_needed pl_max_imbalance].
  destruct Hsound as [Hlen Hall]; [by intros d Hd; unfold under_utilized; rewrite Hd|]. split_and!; [done|done|congruence|].
  by destruct (plan_sources _ _ _ _ _).
Qed.

End PlanSound.

Section Pass.
Context {W : Type} `{!Timer W} `{!TimerLaws W} `{!RebalanceInventory W} (lag n : N).
Hypothesis sleep_bounded : ∀ w : W, instant_now (sleep_ms 10 w) ≤ instant_now w + lag.
Implicit Types (st : Background W).

Lemma execute_moves_queues tokens moves submitted st :
  tokens ≤ n → budgeted lag n st → Forall (λ r, rq_priority r ≤ 200) (rw_queue (bg_repair st)) →
  ∃ st' rs, execute_moves tokens moves submitted st = Some ((submitted + length moves)%nat, st') ∧ budgeted lag n st' ∧
    rw_queue (bg_repair st') = rw_queue (bg_repair st) ++ rs ∧
    Forall2 (λ mv r, ∃ sources, r = move_request mv sources) moves rs.
Proof.
  intros Hn. revert submitted st. induction moves as [|mv moves IH]; intros submitted st Hb Hlow; simpl.
  { exists st, []. rewrite Nat.add_0_r, app_nil_r. auto. }
  destruct (acquire_ok lag tokens sleep_bounded n _ _ Hb Hn) as (tb & w & -> & Hb' & _). simpl.
  set (r := move_request mv _). set (st1 := bg_enqueue r _).
  assert (rw_queue (bg_repair st1) = rw_queue (bg_repair st) ++ [r]) as Hq by by apply (enqueue_last r).
  destruct (IH (S submitted) st1) as (st' & rs & Hrun & Hb'' & Hq' & Hall); [done|rewrite Hq; by apply Forall_app; split; [|repeat constructor]|].
  exists st', (r :: rs). rewrite Nat.add_succ_r. split_and!; [done|done|by rewrite Hq', Hq, <- (assoc_L (++))|].
  constructor; [by eexists|done].
Qed.

(** A rebalance pass ends and queues its plan: for a budget that covers one move,
    the plan made from the state of the disks is recorded, and the queue gains one
    request per move, in order, behind all requests of at least its priority. *)
Theorem rebalance_pass_queues rb st :
  tokens_per_move (rb_config rb) ≤ n → budgeted lag n st →
  Forall (λ r, rq_priority r ≤ 200) (rw_queue (bg_repair st)) →
  let plan := make_plan (rb_config rb) (bg_world st) in
  ∃ rb' st' rs, rebalance_pass rb st = Some (rb', plan, st') ∧ rb_last_plan rb' = Some plan ∧
    rw_queue (bg_repair st') = rw_queue (bg_repair st) ++ rs ∧
    Forall2 (λ mv r, ∃ sources, r = move_request mv sources) (pl_moves plan) rs.
Proof.
  intros Hn Hb Hlow plan. unfold rebalance_pass, generate_plan. fold plan. simpl.
  destruct (pl_needed plan) eqn:Hneed.
  - destruct (execute_moves_queues (tokens_per_move (rb_config rb)) (pl_moves plan) 0 st Hn Hb Hlow)
      as (st' & rs & Hrun & _ & Hq & Hall). unfold execute_plan. simpl. rewrite Hrun. simpl. by eexists _, st', rs.
  - assert (pl_moves plan = []) as ->.
    { unfold plan, make_plan in *. destruct (get_disk_utilizations _); [done|]. destruct (f64_lt _ _); [done|].
      simpl in *. by destruct (plan_sources _ _ _ _ _). }
    eexists _, st, []. rewrite app_nil_r. by split_and!.
Qed.

End Pass.

Module RebalanceDemo.

(** Three disks of the same size, filled to 90, 30 and 10 percent. *)
#[export] Instance fleet : RebalanceInventory N := {|
  get_disk_utilizations w :=
    [MkUtilization (DiskId_new 3) 10 100 1; MkUtilization (DiskId_new 1) 90 100 9; MkUtilization (DiskId_new 2) 30 100 3];
  list_moveable_extents d w := if decide (d = DiskId_new 1) then [(ExtentId_new 40, 5); (ExtentId_new 41, 2); (ExtentId_new 42, 1)] else [];
  healthy_sources_for_extent e w := [DiskId_new 1]
|}.

Definition fleet_config : RebalanceConfig := MkRebalanceConfig (imbalance_threshold RebalanceConfig_default) 2 5 300.

Definition fleet_start : Background N :=
  MkBackground (RepairWorker_new RepairConfig_default) (TokenBucket_new 200 100 0) 0.

End RebalanceDemo.
Import BucketDemo RebalanceDemo.

Lemma rebalance_plan_sound_witness :
  length (pl_moves (make_plan fleet_config (0 : N))) = 2%nat ∧ pl_needed (make_plan fleet_config (0 : N)) = true ∧
  Forall (λ mv, mv_source_disk mv ≠ mv_target_disk mv) (pl_moves (make_plan fleet_config (0 : N))).
Proof.
  destruct (rebalance_plan_sound fleet_config (0 : N)) as (_ & Hall & _ & Hneed).
  - apply (bool_decide_unpack _). vm_compute. exact I.
  - split; [vm_compute; reflexivity|]. split; [apply Hneed; vm_compute; discriminate|].
    apply Forall_forall. intros mv Hmv. apply (Hall mv Hmv).
Defined.

Lemma rebalance_pass_queues_witness :
  ∃ rb st rs, rebalance_pass (RebalanceWorker_new fleet_config) fleet_start = Some (rb, make_plan fleet_config (0 : N), st) ∧
    rw_queue (bg_repair st) = rs ∧ length rs = 2%nat.
Proof.
  assert (∀ w : N, instant_now (sleep_ms 10 w) ≤ instant_now w + 10000000) as Hlag by (intros w; simpl; lia).
  destruct (rebalance_pass_queues 10000000 10 Hlag (RebalanceWorker_new fleet_config) fleet_start)
    as (rb & st & rs & Hrun & _ & Hq & Hall).
  - vm_compute. congruence.
  - split; vm_compute; congruence.
  - constructor.
  - exists rb, st, rs. split; [exact Hrun|]. split; [exact Hq|]. rewrite <- (Forall2_length _ _ _ Hall). vm_compute. reflexivity.
Defined.

(** The disks are sorted fullest first and the first one below the average is taken:
    all moves of a pass go to the fullest of the underused disks, never to the emptiest. *)
Theorem moves_to_fullest_underused :
  map mv_target_disk (pl_moves (make_plan fleet_config (0 : N))) = [DiskId_new 2; DiskId_new 2] ∧
  under_utilized (imbalance_threshold fleet_config) (average (0 : N)) (MkUtilization (DiskId_new 3) 10 100 1) = true.
Proof. vm_compute. split; reflexivity. Qed.
