(* ===== verification/Cli.v ===== *)
(** * The command line client (crates/blockyard-cli)

    The documents it reads and writes (types.rs), the trait [BlockyardClient] with its
    implementation over HTTP (http_client.rs), sizes (cli.rs), the commands
    (commands.rs) and mounting a volume (mount.rs).  A command returns the value that is
    handed to the formatter; the rendering of tables is left out.  [mount_kernel] is
    written for the feature [ublk-kernel]; without it, mounting calls the trait. *)

From Stdlib Require Import Strings.Ascii SpecFloat.
From S2P Require Import TcpClient.
From S2P Require Import Prelude Text Float Common Json MetadataSM MetadataInv MetadataSpec MetadataTyped MetadataLease.
From S2P Require Import MetadataService Watermark MetadataCache RaftTransport Http ClientRecovery HttpMetadata ClientHealth.
From S2P Require Import Placement Checksum EcCodec HttpApi HttpCluster WritePipeline EcWritePipeline BlockHandler Ublk.

#[local] Open Scope N_scope.

(** ** Documents (types.rs) *)

Inductive VolumeState := VsHealthy | VsDegraded | VsRebuilding | VsUnavailable.

Definition de_volume_state : json → option VolumeState :=
  de_enum (λ name content,
    if decide (name = "Healthy") then unit_variant VsHealthy content
    else if decide (name = "Degraded") then unit_variant VsDegraded content
    else if decide (name = "Rebuilding") then unit_variant VsRebuilding content
    else if decide (name = "Unavailable") then unit_variant VsUnavailable content
    else None).

Definition ser_volume_state (s : VolumeState) : json :=
  JString match s with
  | VsHealthy => "Healthy"
  | VsDegraded => "Degraded"
  | VsRebuilding => "Rebuilding"
  | VsUnavailable => "Unavailable"
  end.

Inductive NodeState := NsOnline | NsOffline | NsDecommissioning.

(** [rename_all = lowercase] *)
Definition de_node_state : json → option NodeState :=
  de_enum (λ name content,
    if decide (name = "online") then unit_variant NsOnline content
    else if decide (name = "offline") then unit_variant NsOffline content
    else if decide (name = "decommissioning") then unit_variant NsDecommissioning content
    else None).

Definition ser_node_state (s : NodeState) : json :=
  JString match s with NsOnline => "online" | NsOffline => "offline" | NsDecommissioning => "decommissioning" end.

Inductive QuorumHealth := QhHealthy | QhDegraded | QhLost.

Definition de_quorum_health : json → option QuorumHealth :=
  de_enum (λ name content,
    if decide (name = "healthy") then unit_variant QhHealthy content
    else if decide (name = "degraded") then unit_variant QhDegraded content
    else if decide (name = "lost") then unit_variant QhLost content
    else None).

Definition ser_quorum_health (q : QuorumHealth) : json :=
  JString match q with QhHealthy => "healthy" | QhDegraded => "degraded" | QhLost => "lost" end.

Record VolumeCreateParams := MkVolumeCreateParams {
  vcp_name : string;
  vcp_size_bytes : N;
  vcp_protection : ProtectionPolicy;
}.

Definition ser_volume_create_params (p : VolumeCreateParams) : json :=
  JObject [("name", JString (vcp_name p)); ("size_bytes", JNumber (vcp_size_bytes p));
           ("protection", ser_protection (vcp_protection p))].

Record NodeInfo := MkNodeInfo {
  ci_node_id : NodeId;
  ci_node_address : string;
  ci_node_state : NodeState;
  ci_node_disk_count : N;
  ci_node_volume_count : N;
  ci_node_uptime_seconds : N;
}.

Record DiskInfo := MkDiskInfo {
  ci_disk_id : DiskId;
  ci_disk_node_id : NodeId;
  ci_disk_path : string;
  ci_disk_state : DiskState;
  ci_disk_total_bytes : N;
  ci_disk_used_bytes : N;
  ci_disk_extent_count : N;
  ci_disk_error_count : N;
}.

Record ClusterStatus := MkClusterStatus {
  ci_node_count : N;
  ci_nodes_online : N;
  ci_volume_count : N;
  ci_disk_count : N;
  ci_placement_epoch : EpochId;
  ci_quorum_health : QuorumHealth;
  ci_total_capacity_bytes : N;
  ci_used_capacity_bytes : N;
}.

Record MountInfo := MkMountInfo {
  mi_volume_id : VolumeId;
  mi_device_path : string;
  mi_mount_point : option string;
}.

Definition de_cluster_status : json → option ClusterStatus :=
  de_struct (
    node_count ← field "node_count" de_u32;
    nodes_online ← field "nodes_online" de_u32;
    volume_count ← field "volume_count" de_u32;
    disk_count ← field "disk_count" de_u32;
    placement_epoch ← field "placement_epoch" de_epoch_id;
    quorum_health ← field "quorum_health" de_quorum_health;
    total_capacity_bytes ← field "total_capacity_bytes" de_u64;
    used_capacity_bytes ← field "used_capacity_bytes" de_u64;
    mret (MkClusterStatus node_count nodes_online volume_count disk_count placement_epoch quorum_health
            total_capacity_bytes used_capacity_bytes)).

Section documents.
Context `{!UuidDisplay} `{!Chrono}.

Record VolumeInfo := MkVolumeInfo {
  ci_vol_id : VolumeId;
  ci_vol_name : string;
  ci_vol_size_bytes : N;
  ci_vol_protection : ProtectionPolicy;
  ci_vol_state : VolumeState;
  ci_vol_replica_nodes : list NodeId;
  ci_vol_created_at : DateTime;
}.

Definition de_date_time (j : json) : option DateTime := s ← de_string j; parse_rfc3339 s.

Definition de_volume_info : json → option VolumeInfo :=
  de_struct (
    id ← field "id" de_volume_id;
    name ← field "name" de_string;
    size_bytes ← field "size_bytes" de_u64;
    protection ← field "protection" de_protection;
    state ← field "state" de_volume_state;
    replica_nodes ← field "replica_nodes" (de_vec de_node_id);
    created_at ← field "created_at" de_date_time;
    mret (MkVolumeInfo id name size_bytes protection state replica_nodes created_at)).

Definition de_disk_info : json → option DiskInfo :=
  de_struct (
    id ← field "id" de_disk_id;
    node_id ← field "node_id" de_node_id;
    path ← field "path" de_string;
    state ← field "state" de_disk_state;
    total_bytes ← field "total_bytes" de_u64;
    used_bytes ← field "used_bytes" de_u64;
    extent_count ← field "extent_count" de_u64;
    error_count ← field "error_count" de_u64;
    mret (MkDiskInfo id node_id path state total_bytes used_bytes extent_count error_count)).

Definition de_node_info : json → option NodeInfo :=
  de_struct (
    id ← field "id" de_node_id;
    address ← field "address" de_string;
    state ← field "state" de_node_state;
    disk_count ← field "disk_count" de_u32;
    volume_count ← field "volume_count" de_u32;
    uptime_seconds ← field "uptime_seconds" de_u64;
    mret (MkNodeInfo id address state disk_count volume_count uptime_seconds)).

End documents.

(** ** The trait (client.rs) *)

(** Errors are the texts of [anyhow]. *)
Class BlockyardClient `{!Chrono} (W : Type) := {
  bc_volume_create : VolumeCreateParams → W → W * result string VolumeInfo;
  bc_volume_delete : VolumeId → W → W * result string unit;
  bc_volume_list : W → W * result string (list VolumeInfo);
  bc_volume_inspect : VolumeId → W → W * result string VolumeInfo;
  bc_disk_list : W → W * result string (list DiskInfo);
  bc_disk_inspect : DiskId → W → W * result string DiskInfo;
  bc_disk_drain : DiskId → W → W * result string unit;
  bc_disk_remove : DiskId → W → W * result string unit;
  bc_node_list : W → W * result string (list NodeInfo);
  bc_node_inspect : NodeId → W → W * result string NodeInfo;
  bc_node_decommission : NodeId → W → W * result string unit;
  bc_cluster_status : W → W * result string ClusterStatus;
  bc_mount : VolumeId → option string → W → W * result string MountInfo;
  bc_unmount : VolumeId → W → W * result string unit;
}.

(** ** The client over HTTP (http_client.rs) *)

(** [trim_end_matches('/')] *)
Fixpoint trim_end_slashes (s : string) : string :=
  match s with
  | EmptyString => EmptyString
  | String c s =>
      match trim_end_slashes s with
      | EmptyString => if decide (c = "/"%char) then EmptyString else String c EmptyString
      | t => String c t
      end
  end.

Section http_client.
Context `{!UuidDisplay} `{!JsonText} `{!Chrono} {W : Type} `{!HttpTransport W}.
Variable endpoint : string.
Implicit Types w : W.

Definition base_url : string := trim_end_slashes endpoint.

(** A request; [what] failed when the answer is not a success. *)
Definition cli_send (method : Method) (path : string) (body : option json) (what : string) w
    : W * result string HttpResponse :=
  let '(w, r) := http_send method (base_url +:+ path) (json_print <$> body) w in
  (w, r ≫= λ resp, if is_success resp then Ok resp else Err (what +:+ " failed: " +:+ response_text resp)).

Definition cli_get {A} (path what : string) (d : json → option A) w : W * result string A :=
  let '(w, r) := cli_send GET path None what w in (w, r ≫= response_json d).

Definition volume_create (params : VolumeCreateParams) w : W * result string VolumeInfo :=
  let '(w, r) := cli_send POST "/api/v1/volumes" (Some (ser_volume_create_params params)) "create volume" w in
  (w, r ≫= response_json de_volume_info).

Definition volume_delete (id : VolumeId) w : W * result string unit :=
  let '(w, r) := cli_send DELETE ("/api/v1/volumes/" +:+ to_string id) None "delete volume" w in
  (w, r ≫= λ _, Ok tt).

Definition volume_list w : W * result string (list VolumeInfo) :=
  cli_get "/api/v1/volumes" "list volumes" (de_vec de_volume_info) w.

Definition volume_inspect (id : VolumeId) w : W * result string VolumeInfo :=
  cli_get ("/api/v1/volumes/" +:+ to_string id) "inspect volume" de_volume_info w.

Definition disk_list w : W * result string (list DiskInfo) :=
  cli_get "/api/v1/disks" "list disks" (de_vec de_disk_info) w.

Definition node_list w : W * result string (list NodeInfo) :=
  cli_get "/api/v1/nodes" "list nodes" (de_vec de_node_info) w.

Definition node_inspect (id : NodeId) w : W * result string NodeInfo :=
  cli_get ("/api/v1/nodes/" +:+ to_string id) "inspect node" de_node_info w.

Definition cli_cluster_status w : W * result string ClusterStatus :=
  cli_get "/api/v1/cluster/status" "cluster status" de_cluster_status w.

Definition not_supported {A} (what : string) w : W * result string A :=
  (w, Err (what +:+ " not yet supported via HTTP")).

Definition http_blockyard_client : BlockyardClient W :=
  {| bc_volume_create := volume_create;
     bc_volume_delete := volume_delete;
     bc_volume_list := volume_list;
     bc_volume_inspect := volume_inspect;
     bc_disk_list := disk_list;
     bc_disk_inspect _ := not_supported "disk inspect";
     bc_disk_drain _ := not_supported "disk drain";
     bc_disk_remove _ := not_supported "disk remove";
     bc_node_list := node_list;
     bc_node_inspect := node_inspect;
     bc_node_decommission _ := not_supported "node decommission";
     bc_cluster_status := cli_cluster_status;
     bc_mount _ _ := not_supported "mount";
     bc_unmount _ := not_supported "unmount" |}.

End http_client.

(** ** Sizes (cli.rs) *)

Definition is_ascii_alphabetic (c : ascii) : bool :=
  let n := N_of_ascii c in bool_decide (65 ≤ n ≤ 90) || bool_decide (97 ≤ n ≤ 122).

Definition ascii_upper (c : ascii) : ascii :=
  let n := N_of_ascii c in if bool_decide (97 ≤ n ≤ 122) then ascii_of_N (n - 32) else c.

Fixpoint to_uppercase (s : string) : string :=
  match s with
  | EmptyString => EmptyString
  | String c s => String (ascii_upper c) (to_uppercase s)
  end.

(** The longest suffix of letters, split off. *)
Fixpoint split_suffix (s : string) : string * string :=
  match s with
  | EmptyString => (EmptyString, EmptyString)
  | String c s =>
      match split_suffix s with
      | (EmptyString, suffix) =>
          if is_ascii_alphabetic c then (EmptyString, String c suffix) else (String c EmptyString, suffix)
      | (num, suffix) => (String c num, suffix)
      end
  end.

Definition multiplier (suffix : string) : option N :=
  if decide (suffix ∈ [EmptyString; "B"]) then Some 1
  else if decide (suffix ∈ ["K"; "KB"; "KIB"]) then Some 1024
  else if decide (suffix ∈ ["M"; "MB"; "MIB"]) then Some (1024 * 1024)
  else if decide (suffix ∈ ["G"; "GB"; "GIB"]) then Some (1024 * 1024 * 1024)
  else if decide (suffix ∈ ["T"; "TB"; "TIB"]) then Some (1024 * 1024 * 1024 * 1024)
  else None.

Definition parse_size (s : string) : result string N :=
  let s := str_trim s in
  if decide (s = EmptyString) then Err "empty size string" else
  let '(num_part, suffix) := split_suffix s in
  let suffix := to_uppercase suffix in
  num ← ok_or ("invalid number: " +:+ num_part) (f64_from_str num_part);
  if f64_lt num f64_zero then Err "size cannot be negative" else
  mult ← ok_or ("unknown size suffix: " +:+ suffix) (multiplier suffix);
  Ok (f64_to_u64 (f64_mul num (f64_of_u64 mult))).

(** ** Commands (cli.rs, commands.rs) *)

Record VolumeCreateArgs := MkVolumeCreateArgs {
  va_name : string;
  va_size : string;
  va_replicas : N;
  va_data_chunks : option N;
  va_parity : option N;
}.

Inductive VolumeCommand :=
  | VolumeCreate (args : VolumeCreateArgs)
  | VolumeDelete (id : VolumeId) (force : bool)
  | VolumeList
  | VolumeInspect (id : VolumeId).

Inductive DiskCommand :=
  | DiskList
  | DiskInspect (id : DiskId)
  | DiskDrain (id : DiskId)
  | DiskRemove (id : DiskId) (force : bool).

Inductive NodeCommand :=
  | NodeList
  | NodeInspect (id : NodeId)
  | NodeDecommission (id : NodeId) (force : bool).

Inductive ClusterCommand := ClusterStatusCommand.

Inductive Command :=
  | CommandVolume (cmd : VolumeCommand)
  | CommandDisk (cmd : DiskCommand)
  | CommandNode (cmd : NodeCommand)
  | CommandCluster (subcommand : option ClusterCommand)
  | CommandMount (volume_id : VolumeId) (device : option string)
  | CommandUnmount (volume_id : VolumeId).

(** What is handed to the formatter. *)
Inductive Output `{!Chrono} :=
  | OutVolume (v : VolumeInfo)
  | OutVolumes (vs : list VolumeInfo)
  | OutDisk (d : DiskInfo)
  | OutDisks (ds : list DiskInfo)
  | OutNode (n : NodeInfo)
  | OutNodes (ns : list NodeInfo)
  | OutCluster (c : ClusterStatus)
  | OutMount (m : MountInfo)
  | OutDone (what id : string).

Section commands.
Context `{!UuidDisplay} `{!Chrono} {W : Type} `{!BlockyardClient W}.
Implicit Types w : W.

Definition shown {A} (out : A → Output) (r : W * result string A) : W * result string Output :=
  (r.1, r.2 ≫= λ a, Ok (out a)).

Definition create_protection (args : VolumeCreateArgs) : ProtectionPolicy :=
  match va_data_chunks args, va_parity args with
  | Some data, Some parity => ErasureCoded data parity
  | _, _ => Replicated (va_replicas args)
  end.

Definition create_params (args : VolumeCreateArgs) : result string VolumeCreateParams :=
  size_bytes ← parse_size (va_size args);
  match ProtectionPolicy_validate (create_protection args) with
  | Err e => Err (to_string e)
  | Ok _ => Ok (MkVolumeCreateParams (va_name args) size_bytes (create_protection args))
  end.

Definition execute_volume (cmd : VolumeCommand) w : W * result string Output :=
  match cmd with
  | VolumeCreate args =>
      match create_params args with
      | Err e => (w, Err e)
      | Ok params => shown OutVolume (bc_volume_create params w)
      end
  | VolumeDelete id _ => shown (λ _, OutDone "deleted" (to_string id)) (bc_volume_delete id w)
  | VolumeList => shown OutVolumes (bc_volume_list w)
  | VolumeInspect id => shown OutVolume (bc_volume_inspect id w)
  end.

Definition execute_disk (cmd : DiskCommand) w : W * result string Output :=
  match cmd with
  | DiskList => shown OutDisks (bc_disk_list w)
  | DiskInspect id => shown OutDisk (bc_disk_inspect id w)
  | DiskDrain id => shown (λ _, OutDone "draining" (to_string id)) (bc_disk_drain id w)
  | DiskRemove id _ => shown (λ _, OutDone "removed" (to_string id)) (bc_disk_remove id w)
  end.

Definition execute_node (cmd : NodeCommand) w : W * result string Output :=
  match cmd with
  | NodeList => shown OutNodes (bc_node_list w)
  | NodeInspect id => shown OutNode (bc_node_inspect id w)
  | NodeDecommission id _ => shown (λ _, OutDone "decommissioning" (to_string id)) (bc_node_decommission id w)
  end.

(** [execute], built without the feature [ublk-kernel]. *)
Definition execute_command (cmd : Command) w : W * result string Output :=
  match cmd with
  | CommandVolume cmd => execute_volume cmd w
  | CommandDisk cmd => execute_disk cmd w
  | CommandNode cmd => execute_node cmd w
  | CommandCluster _ => shown OutCluster (bc_cluster_status w)
  | CommandMount volume_id device => shown OutMount (bc_mount volume_id device w)
  | CommandUnmount volume_id => shown (λ _, OutDone "unmounted" (to_string volume_id)) (bc_unmount volume_id w)
  end.

End commands.

(** ** Mounting (mount.rs) *)

(** The identifiers that are generated and the clock when the lease is acquired. *)
Record MountEnv := MkMountEnv {
  me_client_session : SessionId;
  me_lease_session : SessionId;
  me_now_ms : N;
}.

Definition LEASE_TTL_MS : N := 30000.

(** [context(..)?], printed with its cause. *)
Definition context {A} (what : string) (r : result string A) : result string A :=
  match r with Ok a => Ok a | Err e => Err (what +:+ ": " +:+ e) end.

Section mount.
Context `{!UuidDisplay} `{!JsonText} `{!HttpText} `{!AddrText} `{!Chrono}.
Context {W K : Type} `{!HttpTransport W} `{!BlockyardClient W} `{!Libublk K}.

(** The loop over the nodes: every address must parse. *)
Fixpoint register_nodes (nodes : list NodeInfo) (data_client : TcpDataNodeClient) (cache : MetadataCache)
    : result string (TcpDataNodeClient * MetadataCache) :=
  match nodes with
  | [] => Ok (data_client, cache)
  | node :: nodes =>
      match addr_parse (ci_node_address node) with
      | None => Err ("invalid node address: " +:+ ci_node_address node +:+ ": invalid socket address syntax")
      | Some addr =>
          register_nodes nodes (tcp_register_node (ci_node_id node) addr data_client)
            (cache_set_node (ci_node_id node) addr cache)
      end
  end.

Definition mount_volume_config (vol : VolumeInfo) : VolumeConfig :=
  MkVolumeConfig (ci_vol_id vol) (ci_vol_size_bytes vol) 4096 (ci_vol_protection vol) 524288.

Definition mount_cache (vol : VolumeInfo) (cache : MetadataCache) : MetadataCache :=
  cache_set_volume (MkCachedVolume (ci_vol_id vol) (ci_vol_size_bytes vol) 4096 (ci_vol_protection vol) ∅) cache.

(** The handler: the metadata client works in [W], the data client has connected to
    nobody yet. *)
Definition mount_handler (env : MountEnv) (volume_id : VolumeId) (vol : VolumeInfo)
    (data_client : TcpDataNodeClient) (cache : MetadataCache) (lease : LeaseManager) (w : W)
    : ClusterBlockHandler (W * TcpDataNodeClient) :=
  MkHandler _ (mount_volume_config vol)
    (MkPipeline _ (w, data_client) (mount_cache vol cache) (with_session_id (me_client_session env) volume_id)
       WriteWatermark_new StaleEpochHandler_new)
    lease.

(** Up to the running device. *)
Definition mount_start (env : MountEnv) (endpoint : string) (volume_id : VolumeId) (w : W) (k : K)
    : W * K * result string (UblkDevice (ClusterBlockHandler (W * TcpDataNodeClient)) * string) :=
  match bc_volume_inspect volume_id w with
  | (w, Err e) => (w, k, context "failed to fetch volume info" (Err e))
  | (w, Ok vol) =>
      match bc_node_list w with
      | (w, Err e) => (w, k, context "failed to fetch node list" (Err e))
      | (w, Ok nodes) =>
          match register_nodes nodes TcpDataNodeClient_new (cache_set_epoch (EpochId_new 0) MetadataCache_new) with
          | Err e => (w, k, Err e)
          | Ok (data_client, cache) =>
              let lease := LeaseManager_new volume_id (me_lease_session env) LEASE_TTL_MS in
              match lm_acquire (MetadataClient0 := http_client endpoint) (me_now_ms env) lease w with
              | (_, w, Err e) => (w, k, context "failed to acquire write lease" (Err (to_string e)))
              | (lease, w, Ok _) =>
                  let handler := mount_handler env volume_id vol data_client cache lease w in
                  let device := UblkDevice_new handler (MkUblkDeviceConfig (ci_vol_size_bytes vol) 4096 128 1) in
                  match start_kernel device k with
                  | (_, k, Err e) => (w, k, context "failed to start UBLK kernel device" (Err (to_string e)))
                  | (device, k, Ok path) => (w, k, Ok (device, path))
                  end
              end
          end
      end
  end.

(** After the signal: the device is stopped and the lease released. *)
Definition mount_stop (endpoint : string) (device : UblkDevice (ClusterBlockHandler (W * TcpDataNodeClient))) (k : K)
    : W * K * LeaseManager :=
  let '(device, k) := stop device k in
  let h := ud_handler device in
  let '(lease, w, _) := lm_release (MetadataClient0 := http_client endpoint) (bh_lease h) (pl_world (bh_pipeline h)).1 in
  (w, k, lease).

Definition mount_info (volume_id : VolumeId) (path : string) : MountInfo := MkMountInfo volume_id path None.

End mount.
