(* ===== verification/CliCluster.v ===== *)
(** * The command line client and the management API composed

    [execute_command] ([Cli]) over the HTTP client, a network that loses messages and
    the server of api.rs ([HttpCluster]): every command that succeeds is the command's
    specification at one moment of the metadata service.  Then mounting, and what two
    mounts of one volume may do. *)

From Stdlib Require Import Strings.Ascii.
From S2P Require Import TcpClient.
From S2P Require Import Prelude Text Float Common Json MetadataSM MetadataInv MetadataSpec MetadataTyped MetadataLease.
From S2P Require Import MetadataService Watermark MetadataCache RaftTransport Http ClientRecovery HttpMetadata ClientHealth.
From S2P Require Import Placement Checksum EcCodec HttpApi HttpCluster WritePipeline EcWritePipeline BlockHandler Ublk Cli.

#[local] Open Scope N_scope.

(** ** The two sides agree on the documents *)

#[global] Instance codec_volume_state : Codec de_volume_state Cli.ser_volume_state (λ _, True).
Proof. split; intros []; naive_solver. Qed.

#[global] Instance codec_node_state : Codec de_node_state ser_node_state (λ _, True).
Proof. split; intros []; naive_solver. Qed.

#[global] Instance codec_quorum_health : Codec de_quorum_health ser_quorum_health (λ _, True).
Proof. split; intros []; naive_solver. Qed.

#[global] Instance codec_epoch_id : Codec de_epoch_id (λ e, JNumber (EpochId_as_u64 e)) (λ e, EpochId_as_u64 e ≤ u64_max).
Proof. apply (codec_iso _ _ _ EpochId_new EpochId_as_u64 codec_u64). by intros []. Qed.

Section documents.
Context `{!UuidDisplay} `{!Chrono}.

#[global] Instance codec_date_time : Codec de_date_time (λ t, JString (rfc3339 t)) (λ _, True).
Proof. split; intros t; unfold de_date_time; simpl; rewrite rfc3339_round_trip; naive_solver. Qed.

#[global] Instance codec_disk_id : Codec de_disk_id (λ i : DiskId, JString (to_string i)) (λ _, True).
Proof. apply (codec_iso _ _ _ DiskId_new DiskId_as_uuid codec_uuid). by intros []. Qed.

(** What the client shows of a volume, a node and the cluster. *)
Definition cli_state (s : HttpApi.VolumeState) : Cli.VolumeState :=
  match s with
  | VolumeHealthy => VsHealthy
  | VolumeDegraded => VsDegraded
  | VolumeRebuilding => VsRebuilding
  | VolumeUnavailable => VsUnavailable
  end.

Definition cli_volume (v : HttpApi.VolumeInfo) : Cli.VolumeInfo :=
  Cli.MkVolumeInfo (vi_id v) (vi_name v) (vi_size_bytes v) (vi_protection v) (cli_state (vi_state v))
    (vi_replica_nodes v) (vi_created_at v).

Definition cli_node (n : ClusterNode) : Cli.NodeInfo :=
  Cli.MkNodeInfo (cn_node_id n) (MetadataSM.cn_addr n) NsOnline 0 0 0.

Definition cli_cluster (c : HttpApi.ClusterStatus) : Cli.ClusterStatus :=
  Cli.MkClusterStatus (cs_node_count c) (cs_nodes_online c) (cs_volume_count c) (cs_disk_count c)
    (EpochId_new (cs_placement_epoch c)) QhHealthy (cs_total_capacity_bytes c) (cs_used_capacity_bytes c).

Lemma ser_state_cli s : HttpApi.ser_volume_state s = Cli.ser_volume_state (cli_state s).
Proof. by destruct s. Qed.

Lemma cli_volume_only v v' : de_volume_info (ser_volume_info v) = Some v' → v' = cli_volume v.
Proof.
  unfold de_volume_info, ser_volume_info; simpl. rewrite ser_state_cli.
  intros ([p src] & Hr & ->)%fmap_Some. accepted_fields Hr. by injection Hr as <- <-.
Qed.

Lemma cli_node_only n n' : de_node_info (ser_node_info (node_info n)) = Some n' → n' = cli_node n.
Proof.
  unfold de_node_info, ser_node_info; simpl. change (JString "online") with (ser_node_state NsOnline).
  intros ([p src] & Hr & ->)%fmap_Some. accepted_fields Hr. by injection Hr as <- <-.
Qed.

Lemma cli_cluster_only c c' :
  cs_quorum_health c = "healthy" → de_cluster_status (ser_cluster_status c) = Some c' → c' = cli_cluster c.
Proof.
  intros Hq. unfold de_cluster_status, ser_cluster_status; simpl. rewrite Hq.
  change (JString "healthy") with (ser_quorum_health QhHealthy).
  change (JNumber (cs_placement_epoch c)) with (JNumber (EpochId_as_u64 (EpochId_new (cs_placement_epoch c)))).
  intros ([p src] & Hr & ->)%fmap_Some. accepted_fields Hr. by injection Hr as <- <-.
Qed.

(** The server reads the parameters the client sends; the extent size is left out. *)
Lemma create_request_only p req :
  de_create_volume_request (ser_volume_create_params p) = Some req →
  req = MkCreateVolumeRequest (vcp_name p) (vcp_size_bytes p) (vcp_protection p) None.
Proof.
  unfold de_create_volume_request, ser_volume_create_params; simpl.
  intros ([q src] & Hr & ->)%fmap_Some. accepted_fields Hr. by injection Hr as <- <-.
Qed.

(** The server prints the state of a disk in lower case, the client reads the name of
    the variant: no disk can be read. *)
Lemma cli_disk_none d : de_disk_info (ser_disk_info (disk_info d)) = None.
Proof.
  assert (de_disk_state (JString (to_string (cd_state d))) = None) as Hs by (by destruct (cd_state d)).
  unfold disk_info. revert Hs. generalize (to_string (cd_state d)) as state. intros state Hs.
  unfold de_disk_info, ser_disk_info, field; simpl.
  do 3 (erewrite read_field; [|apply _|find_field|done]).
  by erewrite read_refused; [|find_field|done].
Qed.

Lemma list_read_only {A B} (d : json → option B) (ser : A → json) (P : A → B → Prop) l l' :
  (∀ a b, d (ser a) = Some b → P a b) → de_vec d (ser_vec ser l) = Some l' → Forall2 P l l'.
Proof.
  intros Hd. unfold de_vec, ser_vec. intros Hm%mapM_Some. apply Forall2_fmap_l in Hm.
  eapply Forall2_impl; [done|]. intros a b. apply Hd.
Qed.

Lemma list_read_map {A B C} (d : json → option C) (ser : B → json) (g : A → B) (f : A → C) l l' :
  (∀ a c, d (ser (g a)) = Some c → c = f a) → de_vec d (ser_vec ser (g <$> l)) = Some l' → l' = f <$> l.
Proof.
  intros Hd Hl. unfold ser_vec in Hl. rewrite <-list_fmap_compose in Hl.
  apply (list_read_only d (ser ∘ g) (λ a c, c = f a)) in Hl; [|done].
  induction Hl as [|a c l l' -> _ IH]; [done|]. csimpl. by rewrite IH.
Qed.

End documents.

(** ** Commands over the network *)

Section commands.
Context `{!UuidDisplay} `{!UuidUrl} `{!RaftTypes} `{!JsonText} `{!HttpText} `{!Chrono} `{!AddrText}.
Context `{!HashIter N} `{!HashIter DiskId}.
Context {W : Type} `{!Raft W} `{!RaftLaws W} `{!RaftMembership W} `{!RaftNodeLaws W}.
(** The URL given on the command line, which may end in slashes, and the server's. *)
Context (url endpoint : string) (Hurl : base_url url = endpoint).
Implicit Types st : AppState W.
Implicit Types hw : HttpWorld W.

Abbreviation later := (advances raft_applied) (only parsing).
Abbreviation transport := (http_network endpoint) (only parsing).

(** *** The server's side of each request *)

Lemma serve_route env method path body ep st :
  find_route routes method path = Ok (ep, []) →
  serve env (MkHttpRequest method path body) st = handle env ep [] body st.
Proof. intros Hr. unfold serve. cbn [hr_method hr_path hr_body]. by rewrite Hr. Qed.

(** A request whose path ends in an identifier. *)
Lemma serve_id {A} env method prefix u ep body (mk : N → A) what h st :
  (∀ c s, route_segments routes method (split_char "/"%char prefix ++ [String c s]) = Ok (ep, [String c s])) →
  (∀ params, handle env ep params body st = with_id mk what params h st) →
  serve env (MkHttpRequest method (prefix +:+ ("/" +:+ uuid_to_string u)) body) st = h (mk u) st.
Proof.
  intros Hr Hh. unfold serve. cbn [hr_method hr_path hr_body]. rewrite (route_id _ ep) by done.
  rewrite Hh. unfold with_id. simpl. destruct (uuid_url_plain u) as [Hp _].
  rewrite percent_decode_plain by done. by rewrite uuid_parse_to_string.
Qed.

Lemma serve_inspect_volume env (id : VolumeId) st :
  serve env (MkHttpRequest GET ("/api/v1/volumes/" +:+ to_string id) None) st = inspect_volume env id st.
Proof.
  destruct id as [u]. apply (serve_id env GET "/api/v1/volumes" u InspectVolumeEp None VolumeId_new "volume"); [|done].
  intros. vm_compute. reflexivity.
Qed.

Lemma serve_delete_volume env (id : VolumeId) st :
  serve env (MkHttpRequest DELETE ("/api/v1/volumes/" +:+ to_string id) None) st = delete_volume id st.
Proof.
  destruct id as [u]. apply (serve_id env DELETE "/api/v1/volumes" u DeleteVolumeEp None VolumeId_new "volume"); [|done].
  intros. vm_compute. reflexivity.
Qed.

Lemma serve_inspect_node env (id : NodeId) st :
  serve env (MkHttpRequest GET ("/api/v1/nodes/" +:+ to_string id) None) st = inspect_node id st.
Proof.
  destruct id as [u]. apply (serve_id env GET "/api/v1/nodes" u InspectNodeEp None NodeId_new "node"); [|done].
  intros. vm_compute. reflexivity.
Qed.

(** *** The client's side *)

(** A request answered with success. *)
Lemma cli_send_spec method path body what hw hw' r :
  cli_send (HttpTransport0 := transport) url method path body what hw = (hw', r) →
  later (hw_service hw) (hw_service hw') ∧
  ∀ resp, r = Ok resp → is_success resp = true ∧ ∃ env st1 st2 resp0,
    later (hw_service hw) (as_metadata st1) ∧
    serve env (MkHttpRequest method path (json_sent <$> (json_print <$> body))) st1 = (st2, resp0) ∧
    later (as_metadata st2) (hw_service hw') ∧ received resp resp0.
Proof.
  unfold cli_send. rewrite Hurl. destruct (http_send _ _ _ hw) as [hw1 r1] eqn:Hs.
  apply network_send_spec in Hs as [Hl Hok]. intros [= <- <-]. split; [done|]. intros resp Hr.
  destruct r1 as [resp1|]; [|done]. simpl in Hr. destruct (is_success resp1) eqn:Hsucc; [|done].
  injection Hr as <-. split; [done|]. by apply Hok.
Qed.

(** A query that the server answers from its state alone. *)
Lemma cli_get_spec {A} path what (d : json → option A) (doc : ApiEnv → W → option json) hw hw' r :
  (∀ env st, ∃ resp0, serve env (MkHttpRequest GET path None) st = (st, resp0) ∧
     (∀ j, doc env (as_metadata st) = Some j → resp0 = json_response 200 j) ∧
     (doc env (as_metadata st) = None → is_success resp0 = false)) →
  cli_get (HttpTransport0 := transport) url path what d hw = (hw', r) →
  later (hw_service hw) (hw_service hw') ∧
  ∀ a, r = Ok a → ∃ env w j, later (hw_service hw) w ∧ doc env w = Some j ∧ d j = Some a ∧ later w (hw_service hw').
Proof.
  intros Hserve. unfold cli_get. destruct (cli_send _ _ _ _ _ hw) as [hw1 r1] eqn:Hs.
  apply cli_send_spec in Hs as [Hl Hok]. intros [= <- <-]. split; [done|]. intros a Ha.
  destruct r1 as [resp|]; [|done]. simpl in Ha.
  destruct (Hok resp eq_refl) as (Hsucc & env & st1 & st2 & resp0 & Hl1 & Hsv & Hl2 & Hrecv).
  destruct (Hserve env st1) as (resp1 & Hsv' & Hsome & Hnone). simpl in Hsv. rewrite Hsv' in Hsv.
  injection Hsv as <- <-. destruct (doc env (as_metadata st1)) as [j|] eqn:Hdoc.
  - rewrite (Hsome j eq_refl) in Hrecv. eapply received_json in Ha; [|done].
    by exists env, (as_metadata st1), j.
  - specialize (Hnone eq_refl). unfold is_success in Hsucc, Hnone. rewrite (proj1 Hrecv) in Hsucc. congruence.
Qed.

(** *** The specification of the commands *)

(** A volume as it is shown; the service does not keep its name. *)
Definition shows_volume (name : string) (vm : VolumeMetadata) (v : Cli.VolumeInfo) : Prop :=
  ci_vol_id v = vol_volume_id vm ∧ ci_vol_name v = name ∧
  ci_vol_size_bytes v = vol_size_bytes vm ∧ ci_vol_protection v = vol_protection vm.

(** What a command that prints [out] does to the service, from [w] to [w']. *)
Definition command_at (cmd : Command) (out : Output) (w w' : W) : Prop :=
  match cmd, out with
  | CommandVolume (VolumeCreate args), OutVolume v =>
      ∃ params, create_params args = Ok params ∧
        svc_create_volume (ci_vol_id v) (vcp_size_bytes params) (vcp_protection params) DEFAULT_EXTENT_SIZE w
          = (w', Ok tt) ∧
        ci_vol_name v = va_name args ∧ ci_vol_size_bytes v = vcp_size_bytes params ∧
        ci_vol_protection v = vcp_protection params
  | CommandVolume (VolumeDelete id _), OutDone _ _ => svc_delete_volume id w = (w', Ok tt)
  | CommandVolume VolumeList, OutVolumes vs =>
      w' = w ∧ Forall2 (shows_volume EmptyString) (svc_list_volumes w) vs
  | CommandVolume (VolumeInspect id), OutVolume v =>
      w' = w ∧ ∃ vm, svc_get_volume id w = Some vm ∧ shows_volume EmptyString vm v
  | CommandDisk DiskList, OutDisks ds => w' = w ∧ list_cluster_disks (sm_data w) = [] ∧ ds = []
  | CommandNode NodeList, OutNodes ns => w' = w ∧ ns = cli_node <$> svc_list_nodes w
  | CommandNode (NodeInspect id), OutNode n => w' = w ∧ ∃ cn, svc_get_node id w = Some cn ∧ n = cli_node cn
  | CommandCluster _, OutCluster c =>
      w' = w ∧ ci_placement_epoch c = svc_current_epoch w ∧
      ci_node_count c = len_u32 (svc_list_nodes w) ∧ ci_volume_count c = len_u32 (svc_list_volumes w) ∧
      ci_disk_count c = len_u32 (list_cluster_disks (sm_data w))
  | _, _ => False
  end.

Definition linearises (cmd : Command) (f : HttpWorld W → HttpWorld W * result string Output) : Prop :=
  ∀ hw hw' r, f hw = (hw', r) →
    later (hw_service hw) (hw_service hw') ∧
    ∀ out, r = Ok out → ∃ w1 w2, later (hw_service hw) w1 ∧ command_at cmd out w1 w2 ∧ later w2 (hw_service hw').

(** A command that is one query. *)
Lemma get_linearises {A} cmd path what (d : json → option A) (doc : ApiEnv → W → option json) (show : A → Output) :
  (∀ env st, ∃ resp0, serve env (MkHttpRequest GET path None) st = (st, resp0) ∧
     (∀ j, doc env (as_metadata st) = Some j → resp0 = json_response 200 j) ∧
     (doc env (as_metadata st) = None → is_success resp0 = false)) →
  (∀ env w j a, doc env w = Some j → d j = Some a → command_at cmd (show a) w w) →
  linearises cmd (λ hw, shown show (cli_get (HttpTransport0 := transport) url path what d hw)).
Proof.
  intros Hserve Hdoc hw hw' r. destruct (cli_get _ _ _ _ hw) as [hw1 r1] eqn:Hg.
  eapply cli_get_spec in Hg as [Hl Hok]; [|done]. intros [= <- <-]. split; [done|].
  intros out Hout. destruct r1 as [a|]; [|done]. injection Hout as <-.
  destruct (Hok a eq_refl) as (env & w & j & Hl1 & Hj & Hd & Hl2). exists w, w. eauto.
Qed.

Lemma volume_list_linearises :
  linearises (CommandVolume VolumeList) (λ hw, shown OutVolumes (volume_list (HttpTransport0 := transport) url hw)).
Proof.
  apply (get_linearises _ _ _ _
    (λ env w, Some (ser_vec ser_volume_info (imap (volume_info env) (svc_list_volumes w))))).
  - intros env st. eexists. erewrite serve_route by (vm_compute; reflexivity). naive_solver.
  - intros env w j vs [= <-] Hvs. split; [done|].
    eapply (list_read_only _ _ (λ v v', v' = cli_volume v)) in Hvs; [|apply cli_volume_only].
    revert Hvs. generalize (svc_list_volumes w) as l. intros l Hvs.
    apply Forall2_same_length_lookup. apply Forall2_same_length_lookup in Hvs as [Hlen Hvs].
    rewrite length_imap in Hlen. split; [done|]. intros i vm v Hvm Hv.
    specialize (Hvs i (volume_info env i vm) v). rewrite list_lookup_imap, Hvm in Hvs.
    by rewrite (Hvs eq_refl Hv).
Qed.

Lemma volume_inspect_linearises id :
  linearises (CommandVolume (VolumeInspect id))
    (λ hw, shown OutVolume (volume_inspect (HttpTransport0 := transport) url id hw)).
Proof.
  apply (get_linearises _ _ _ _
    (λ env w, (λ vm, ser_volume_info (volume_info env 0 vm)) <$> svc_get_volume id w)).
  - intros env st. rewrite serve_inspect_volume. unfold inspect_volume.
    destruct (svc_get_volume id (as_metadata st)) as [vm|]; simpl; eexists; naive_solver.
  - intros env w j v (vm & Hvm & ->)%fmap_Some ->%cli_volume_only. split; [done|]. by exists vm.
Qed.

Lemma disk_list_linearises :
  linearises (CommandDisk DiskList) (λ hw, shown OutDisks (disk_list (HttpTransport0 := transport) url hw)).
Proof.
  apply (get_linearises _ _ _ _
    (λ env w, Some (ser_vec ser_disk_info (disk_info <$> list_cluster_disks (sm_data w))))).
  - intros env st. eexists. erewrite serve_route by (vm_compute; reflexivity). naive_solver.
  - intros env w j ds [= <-] Hds. split; [done|].
    unfold ser_vec in Hds. rewrite <-list_fmap_compose in Hds.
    apply (list_read_only de_disk_info (ser_disk_info ∘ disk_info) (λ _ _, False)) in Hds.
    + by destruct Hds.
    + intros d d'. unfold compose. by rewrite cli_disk_none.
Qed.

Lemma node_list_linearises :
  linearises (CommandNode NodeList) (λ hw, shown OutNodes (node_list (HttpTransport0 := transport) url hw)).
Proof.
  apply (get_linearises _ _ _ _ (λ env w, Some (ser_vec ser_node_info (node_info <$> svc_list_nodes w)))).
  - intros env st. eexists. erewrite serve_route by (vm_compute; reflexivity). naive_solver.
  - intros env w j ns [= <-] Hns. split; [done|]. eapply list_read_map, Hns. apply cli_node_only.
Qed.

Lemma node_inspect_linearises id :
  linearises (CommandNode (NodeInspect id))
    (λ hw, shown OutNode (node_inspect (HttpTransport0 := transport) url id hw)).
Proof.
  apply (get_linearises _ _ _ _ (λ env w, (λ n, ser_node_info (node_info n)) <$> svc_get_node id w)).
  - intros env st. rewrite serve_inspect_node. unfold inspect_node.
    destruct (svc_get_node id (as_metadata st)) as [n|]; simpl; eexists; naive_solver.
  - intros env w j n (cn & Hcn & ->)%fmap_Some ->%cli_node_only. split; [done|]. by exists cn.
Qed.

Lemma cluster_status_linearises sub :
  linearises (CommandCluster sub)
    (λ hw, shown OutCluster (cli_cluster_status (HttpTransport0 := transport) url hw)).
Proof.
  apply (get_linearises _ _ _ _ (λ env w, Some (ser_cluster_status
    (HttpApi.MkClusterStatus (len_u32 (svc_list_nodes w)) (len_u32 (svc_list_nodes w)) (len_u32 (svc_list_volumes w))
       (len_u32 (list_cluster_disks (sm_data w))) (EpochId_as_u64 (svc_current_epoch w)) "healthy"
       (sum_u64 (cd_capacity_bytes <$> list_cluster_disks (sm_data w)))
       (sum_u64 (cd_used_bytes <$> list_cluster_disks (sm_data w))))))).
  - intros env st. eexists. erewrite serve_route by (vm_compute; reflexivity). naive_solver.
  - intros env w j c [= <-] ->%cli_cluster_only; [|done]. simpl. split_and!; try done.
    by destruct (svc_current_epoch w).
Qed.

(** *** The two commands that change the service *)

Lemma volume_delete_linearises id force show :
  linearises (CommandVolume (VolumeDelete id force))
    (λ hw, shown (λ _, OutDone show (to_string id)) (volume_delete (HttpTransport0 := transport) url id hw)).
Proof.
  intros hw hw' r. unfold volume_delete. destruct (cli_send _ _ _ _ _ hw) as [hw1 r1] eqn:Hs.
  apply cli_send_spec in Hs as [Hl Hok]. intros [= <- <-]. split; [done|]. intros out Hout.
  destruct r1 as [resp|]; [|done]. injection Hout as <-.
  destruct (Hok resp eq_refl) as (Hsucc & env & st1 & st2 & resp0 & Hl1 & Hsv & Hl2 & Hrecv).
  simpl in Hsv. rewrite serve_delete_volume in Hsv. unfold delete_volume, on_service in Hsv.
  exists (as_metadata st1), (as_metadata st2). split_and!; [done| |done]. simpl.
  destruct (svc_delete_volume id (as_metadata st1)) as [w [[]|e]]; injection Hsv as <- <-; [done|].
  exfalso. unfold is_success in Hsucc. rewrite (proj1 Hrecv) in Hsucc. simpl in Hsucc.
  by destruct (str_contains _ _).
Qed.

Lemma volume_create_linearises args params :
  create_params args = Ok params →
  linearises (CommandVolume (VolumeCreate args))
    (λ hw, shown OutVolume (volume_create (HttpTransport0 := transport) url params hw)).
Proof.
  intros Hparams hw hw' r. unfold volume_create. destruct (cli_send _ _ _ _ _ hw) as [hw1 r1] eqn:Hs.
  apply cli_send_spec in Hs as [Hl Hok]. intros [= <- <-]. split; [done|]. intros out Hout.
  destruct r1 as [resp|]; [|done]. simpl in Hout.
  destruct (response_json de_volume_info resp) as [v|] eqn:Hv; [|done]. injection Hout as <-.
  destruct (Hok resp eq_refl) as (Hsucc & env & st1 & st2 & resp0 & Hl1 & Hsv & Hl2 & Hrecv).
  exists (as_metadata st1), (as_metadata st2). split_and!; [done| |done]. exists params. split; [done|].
  simpl in Hsv. erewrite serve_route in Hsv by (vm_compute; reflexivity). simpl in Hsv. unfold with_json in Hsv.
  simpl in Hsv. rewrite is_json_type_json in Hsv. case_decide.
  2: { injection Hsv as <- <-. by destruct (rejection_not_success 413 resp). }
  rewrite json_parse_print in Hsv.
  destruct (de_create_volume_request _) as [req|] eqn:Hreq.
  2: { injection Hsv as <- <-. unfold is_success in Hsucc. by rewrite (proj1 Hrecv) in Hsucc. }
  apply create_request_only in Hreq as ->. unfold create_volume, on_service in Hsv. simpl in Hsv.
  destruct (svc_create_volume _ _ _ _ (as_metadata st1)) as [w [[]|e]] eqn:Hc; injection Hsv as <- <-.
  - eapply received_json in Hv; [|done]. apply cli_volume_only in Hv as ->. simpl. split_and!; try done.
    unfold create_params in Hparams. destruct (parse_size _); [|done]. simpl in Hparams.
    by destruct (ProtectionPolicy_validate _); simplify_eq/=.
  - exfalso. unfold is_success in Hsucc. by rewrite (proj1 Hrecv) in Hsucc.
Qed.


End commands.

(** ** Mounting *)

Section mounting.
Context `{!UuidDisplay} `{!UuidUrl} `{!RaftTypes} `{!JsonText} `{!HttpText} `{!Chrono} `{!AddrText}.
Context `{!HashIter N} `{!HashIter DiskId}.
Context {W K : Type} `{!Raft W} `{!RaftLaws W} `{!RaftMembership W} `{!RaftNodeLaws W} `{!Libublk K}.
Variable endpoint : string.
Implicit Types hw : HttpWorld W.

Abbreviation later := (advances raft_applied) (only parsing).
Abbreviation transport := (http_network endpoint) (only parsing).

(** [byard mount] against the URL [url]. *)
Definition mount_at (url : string) (env : MountEnv) (volume_id : VolumeId) hw (k : K) :=
  mount_start (HttpTransport0 := transport)
    (BlockyardClient0 := http_blockyard_client (HttpTransport0 := transport) url) env url volume_id hw k.

(** The steps of a mount that succeeds. *)
Lemma mount_at_ok url env volume_id hw k hw' k' device path :
  mount_at url env volume_id hw k = (hw', k', Ok (device, path)) →
  ∃ vol nodes hw1 hw2 data_client cache lease ver,
    volume_inspect (HttpTransport0 := transport) url volume_id hw = (hw1, Ok vol) ∧
    node_list (HttpTransport0 := transport) url hw1 = (hw2, Ok nodes) ∧
    register_nodes nodes TcpDataNodeClient_new (cache_set_epoch (EpochId_new 0) MetadataCache_new)
      = Ok (data_client, cache) ∧
    lm_acquire (MetadataClient0 := http_client (HttpTransport0 := transport) url) (me_now_ms env)
      (LeaseManager_new volume_id (me_lease_session env) LEASE_TTL_MS) hw2 = (lease, hw', Ok ver) ∧
    start_kernel (UblkDevice_new (mount_handler env volume_id vol data_client cache lease hw')
      (MkUblkDeviceConfig (ci_vol_size_bytes vol) 4096 128 1)) k = (device, k', Ok path).
Proof.
  unfold mount_at, mount_start. cbn [bc_volume_inspect bc_node_list http_blockyard_client].
  destruct (volume_inspect _ volume_id hw) as [hw1 [vol|]] eqn:Hv; [|done].
  destruct (node_list _ hw1) as [hw2 [nodes|]] eqn:Hn; [|done].
  destruct (register_nodes _ _ _) as [[data_client cache]|] eqn:Hr; [|done].
  destruct (lm_acquire _ _ hw2) as [[lease hw3] [ver|]] eqn:Ha; [|done].
  destruct (start_kernel _ k) as [[d k1] [p|]] eqn:Hk; [|done].
  intros [= <- <- <- <-]. by exists vol, nodes, hw1, hw2, data_client, cache, lease, ver.
Qed.

Lemma start_kernel_ok {Hd} (d d' : UblkDevice Hd) k k' path :
  start_kernel d k = (d', k', Ok path) →
  ud_handler d' = ud_handler d ∧ ud_running d' = true ∧ uc_device_size_bytes (ud_config d) ≠ 0.
Proof. unfold start_kernel. case_decide; [done|]. destruct (kernel_thread _ k). case_decide; [done|]. by intros [= <- _ _]. Qed.

(** C18: A volume that is mounted holds its write lease: when the mount succeeds, the
    metadata service granted the lease of the volume to this mount's session at a moment
    during the mount, the handler behind the running device lets writes through with the version that was
    granted, and the device has the size and the policy of the volume as the service knew
    it. *)
Theorem mounted_volume_holds_lease env volume_id hw k hw' k' device path :
  mount_at endpoint env volume_id hw k = (hw', k', Ok (device, path)) →
  base_url endpoint = endpoint →
  let h := ud_handler device in
  ud_running device = true ∧
  (∃ w vm, later (hw_service hw) w ∧ later w (hw_service hw') ∧ svc_get_volume volume_id w = Some vm ∧
     vc_volume_id (bh_config h) = vol_volume_id vm ∧ vc_size_bytes (bh_config h) = vol_size_bytes vm ∧
     vc_protection (bh_config h) = vol_protection vm) ∧
  ∃ w1 w2 ver expires, later (hw_service hw) w1 ∧ later w2 (hw_service hw') ∧
    svc_acquire_lease volume_id (me_lease_session env) (me_now_ms env) LEASE_TTL_MS w1
      = (w2, Ok (Granted ver expires)) ∧
    lm_state (bh_lease h) = LeaseActive ∧ check_write_allowed (bh_lease h) = Ok ver.
Proof.
  intros (vol & nodes & hw1 & hw2 & dc & cache & lease & ver & Hv & Hn & Hr & Ha & Hk)%mount_at_ok Hurl h.
  apply start_kernel_ok in Hk as (Hh & Hrun & _). unfold h. rewrite Hh. simpl.
  destruct (volume_inspect_linearises endpoint endpoint Hurl volume_id hw hw1 (Ok (OutVolume vol))) as [Hl1 Hvol].
  { by rewrite Hv. }
  destruct (Hvol _ eq_refl) as (w & w' & Hw1 & [-> (vm & Hvm & Hid & _ & Hsize & Hprot)] & Hw2).
  destruct (node_list_linearises endpoint endpoint Hurl hw1 hw2 (Ok (OutNodes nodes))) as [Hl2 _].
  { by rewrite Hn. }
  unfold lm_acquire in Ha. simpl in Ha.
  destruct (http_acquire_lease _ _ _ _ _ hw2) as [hw3 r] eqn:Hacq.
  apply (acquire_linearised endpoint) in Hacq as [Hl3 Hok].
  destruct r as [[v e|v e| |reason]|]; try done. injection Ha as <- <- <-.
  destruct (Hok _ eq_refl) as (w1 & w2 & Hl4 & Hs & Hl5).
  split; [done|]. split.
  - exists w, vm. split_and!; try done. etrans; [done|]. by etrans.
  - exists w1, w2, v, e. split_and!; try done. etrans; [apply Hl1|]. by etrans.
Qed.

(** The path that a URL ending in a slash gives is not registered. *)
Lemma doubled_slash_refused env path body (st : AppState W) :
  find_route routes POST ("/" +:+ path) = Err 404 →
  hp_status (serve env (MkHttpRequest POST ("/" +:+ path) body) st).2 = 404.
Proof. intros Hr. unfold serve. cbn [hr_method hr_path hr_body]. by rewrite Hr. Qed.

(** With a URL that ends in a slash every other command works, since the client strips
    it; the metadata client does not, and no mount ever succeeds. *)
Theorem trailing_slash_mount_fails env volume_id hw k hw' k' r :
  mount_at (endpoint +:+ "/") env volume_id hw k = (hw', k', r) → is_ok r = false.
Proof.
  destruct r as [[device path]|]; [|done].
  intros (vol & nodes & hw1 & hw2 & dc & cache & lease & ver & _ & _ & _ & Ha & _)%mount_at_ok. exfalso.
  unfold lm_acquire in Ha. simpl in Ha. unfold http_acquire_lease, http_lease, http_post, HttpMetadata.url in Ha.
  cbn [http_send http_network] in Ha.
  rewrite <-string_app_assoc in Ha.
  destruct (network_send _ _ _ _ hw2) as [hw3 r] eqn:Hs. apply network_send_spec in Hs as [_ Hok].
  destruct r as [resp|]; [|done].
  destruct (Hok resp eq_refl) as (env' & st1 & st2 & resp0 & _ & Hsv & _ & [Hst _]).
  assert (hp_status resp0 = 404) as H404.
  { change resp0 with (st2, resp0).2. rewrite <-Hsv. apply doubled_slash_refused. vm_compute. reflexivity. }
  unfold is_success in Ha. rewrite Hst, H404 in Ha. simpl in Ha. done.
Qed.

End mounting.

(** ** Witnesses *)

Module CliDemo.

Import Demo HttpDemo.

(** A driver that numbers its devices, and one that cannot add any. *)
Definition counting_driver : Libublk N :=
  {| ublk_add_dev := λ _ _ k, (k + 1, Ok k); ublk_run_target := λ _ _ k, (k, Ok tt); ublk_remove_dev := λ _ k, k |}.

Definition broken_driver : Libublk N :=
  {| ublk_add_dev := λ _ _ k, (k, Err "permission denied"); ublk_run_target := λ _ _ k, (k, Ok tt);
     ublk_remove_dev := λ _ k, k |}.

Definition cluster_log : list MetadataRequest :=
  [RegisterNode (NodeId_new 1) "10.0.0.1:9800"; CreateVolume vol 1048576 (Replicated 1) 524288].

Definition world (xs : list Exchange) : HttpWorld (list MetadataRequest) :=
  MkHttpWorld (MkAppState cluster_log ∅ []) xs.

Definition mount_env (session now : N) : MountEnv := MkMountEnv (SessionId_new 900) (SessionId_new session) now.

Definition lease_holder (hw : HttpWorld (list MetadataRequest)) : option SessionId :=
  lease_holder <$> svc_get_lease vol (hw_service hw).

Definition create_args : VolumeCreateArgs := MkVolumeCreateArgs "data" "1.5G" 1 None None.

End CliDemo.
Import Demo HttpDemo CliDemo.


Lemma mounted_volume_holds_lease_witness :
  ∃ hw' k' device path,
    mount_at (Libublk0 := counting_driver) at_endpoint at_endpoint (mount_env 7 1000) vol
      (world [deliver; deliver; deliver]) 0 = (hw', k', Ok (device, path)) ∧
    ∃ ver, check_write_allowed (bh_lease (ud_handler device)) = Ok ver.
Proof.
  destruct (mount_at (Libublk0 := counting_driver) at_endpoint at_endpoint (mount_env 7 1000) vol
      (world [deliver; deliver; deliver]) 0) as [[hw' k'] [[device path]|e]] eqn:Hm; [|vm_compute in Hm; discriminate Hm].
  destruct (mounted_volume_holds_lease (Libublk0 := counting_driver) at_endpoint _ _ _ _ _ _ _ _ Hm eq_refl)
    as (_ & _ & w1 & w2 & ver & expires & _ & _ & _ & _ & Hok).
  exists hw', k', device, path. split; [reflexivity|]. exists ver. exact Hok.
Defined.

(** ** Divergences *)

(** Nothing renews the lease of a mounted volume, and the manager does not look at the
    clock: after the lease has expired a second client mounts the volume, and both
    devices accept writes. *)
Theorem two_mounts_accept_writes :
  match mount_at (Libublk0 := counting_driver) at_endpoint at_endpoint (mount_env 7 1000) vol
          (world [deliver; deliver; deliver; deliver; deliver; deliver]) 0 with
  | (hw, k, Ok (first, _)) =>
      match mount_at (Libublk0 := counting_driver) at_endpoint at_endpoint (mount_env 8 40000) vol hw k with
      | (hw, _, Ok (second, _)) =>
          is_ok (check_write_allowed (bh_lease (ud_handler first))) = true ∧
          is_ok (check_write_allowed (bh_lease (ud_handler second))) = true ∧
          CliDemo.lease_holder hw = Some (SessionId_new 8)
      | _ => False
      end
  | _ => False
  end.
Proof. vm_compute. auto. Qed.

(** The lease is held by a session that the writes of the mount do not carry. *)
Theorem mount_writes_under_another_session :
  match mount_at (Libublk0 := counting_driver) at_endpoint at_endpoint (mount_env 7 1000) vol
          (world [deliver; deliver; deliver]) 0 with
  | (hw, _, Ok (device, _)) =>
      cs_session_id (pl_session (bh_pipeline (ud_handler device))) = SessionId_new 900 ∧
      CliDemo.lease_holder hw = Some (SessionId_new 7)
  | _ => False
  end.
Proof. vm_compute. auto. Qed.

(** A mount that fails to start its device keeps the lease. *)
Theorem failed_mount_keeps_lease :
  match mount_at (Libublk0 := broken_driver) at_endpoint at_endpoint (mount_env 7 1000) vol
          (world [deliver; deliver; deliver]) 0 with
  | (hw, _, r) => is_ok r = false ∧ CliDemo.lease_holder hw = Some (SessionId_new 7)
  end.
Proof. vm_compute. auto. Qed.

(** Sizes go through a floating-point number: above 2^53 they are rounded. *)
Theorem large_size_rounded : parse_size "9007199254740993" = Ok 9007199254740992.
Proof. vm_compute. reflexivity. Qed.
