(* ===== verification/Metrics.v ===== *)
(** * Metrics (crates/blockyard-common/src/metrics.rs)

    Labels, the trait [MetricsRecorder] with its two implementations, and the functions
    that record the metrics of the other components.  The in-memory recorder is shown to
    keep exactly one series for each name and set of labels. *)

From Stdlib Require Import OrdersEx.
From S2P Require Import Prelude Common Float.

#[local] Open Scope N_scope.

(** ** Names *)

Definition VOLUME_IO_SUCCESS_TOTAL : string := "blockyard_volume_io_success_total".
Definition VOLUME_IO_FAILURE_TOTAL : string := "blockyard_volume_io_failure_total".
Definition CLIENT_WATERMARK_VERSION : string := "blockyard_client_watermark_version".
Definition CLIENT_STALE_EPOCH_RETRIES_TOTAL : string := "blockyard_client_stale_epoch_retries_total".
Definition NODE_FOREGROUND_IO_LOAD : string := "blockyard_node_foreground_io_load".
Definition NODE_BACKGROUND_IO_LOAD : string := "blockyard_node_background_io_load".
Definition DISK_STATE_TRANSITION_TOTAL : string := "blockyard_disk_state_transition_total".
Definition SCRUB_FINDINGS_TOTAL : string := "blockyard_scrub_findings_total".
Definition SCRUB_LAST_COMPLETED_TIMESTAMP : string := "blockyard_scrub_last_completed_timestamp".
Definition REPAIR_BACKLOG_SIZE : string := "blockyard_repair_backlog_size".
Definition REPAIR_COMPLETIONS_TOTAL : string := "blockyard_repair_completions_total".
Definition ORPHANED_EXTENT_FILES : string := "blockyard_orphaned_extent_files".
Definition METADATA_QUORUM_HEALTH : string := "blockyard_metadata_quorum_health".
Definition METADATA_COMMIT_LATENCY_SECONDS : string := "blockyard_metadata_commit_latency_seconds".

Definition ALL_METRIC_NAMES : list string :=
  [VOLUME_IO_SUCCESS_TOTAL; VOLUME_IO_FAILURE_TOTAL; CLIENT_WATERMARK_VERSION;
   CLIENT_STALE_EPOCH_RETRIES_TOTAL; NODE_FOREGROUND_IO_LOAD; NODE_BACKGROUND_IO_LOAD;
   DISK_STATE_TRANSITION_TOTAL; SCRUB_FINDINGS_TOTAL; SCRUB_LAST_COMPLETED_TIMESTAMP;
   REPAIR_BACKLOG_SIZE; REPAIR_COMPLETIONS_TOTAL; ORPHANED_EXTENT_FILES; METADATA_QUORUM_HEALTH;
   METADATA_COMMIT_LATENCY_SECONDS].

(** ** Labels *)

Definition Labels : Type := list (string * string).

(** [sort_by] on the keys: stable. *)
Fixpoint insert_pair (p : string * string) (l : Labels) : Labels :=
  match l with
  | [] => [p]
  | q :: l' => if String.leb p.1 q.1 then p :: l else q :: insert_pair p l'
  end.

Definition from_pairs (pairs : list (string * string)) : Labels := foldr insert_pair [] pairs.

(** ** Recorders *)

Class MetricsRecorder (R : Type) := {
  increment_counter : string → Labels → N → R → R;
  set_gauge : string → Labels → f64 → R → R;
  record_histogram : string → Labels → f64 → R → R;
}.

(** [NoopRecorder] *)
#[global] Instance noop_recorder : MetricsRecorder unit :=
  {| increment_counter := λ _ _ _ r, r; set_gauge := λ _ _ _ r, r; record_histogram := λ _ _ _ r, r |}.

Definition MetricKey : Type := string * list (string * string).

Record InMemoryRecorder := MkRecorder {
  im_counters : gmap (string * list (string * string)) N;
  im_gauges : gmap (string * list (string * string)) f64;
  im_histograms : gmap (string * list (string * string)) (list f64);
}.

Definition InMemoryRecorder_new : InMemoryRecorder := MkRecorder ∅ ∅ ∅.

Definition counter (name : string) (labels : Labels) (r : InMemoryRecorder) : N :=
  default 0 (im_counters r !! (name, labels)).

Definition gauge (name : string) (labels : Labels) (r : InMemoryRecorder) : option f64 :=
  im_gauges r !! (name, labels).

Definition histogram (name : string) (labels : Labels) (r : InMemoryRecorder) : list f64 :=
  default [] (im_histograms r !! (name, labels)).

Definition counter_count (r : InMemoryRecorder) : nat := size (im_counters r).

Definition metrics_reset (r : InMemoryRecorder) : InMemoryRecorder := MkRecorder ∅ ∅ ∅.

#[global] Instance in_memory_recorder : MetricsRecorder InMemoryRecorder :=
  {| increment_counter := λ name labels value r,
       MkRecorder (<[(name, labels) := u64_sat_add (counter name labels r) value]> (im_counters r))
         (im_gauges r) (im_histograms r);
     set_gauge := λ name labels value r,
       MkRecorder (im_counters r) (<[(name, labels) := value]> (im_gauges r)) (im_histograms r);
     record_histogram := λ name labels value r,
       MkRecorder (im_counters r) (im_gauges r)
         (<[(name, labels) := histogram name labels r ++ [value]]> (im_histograms r)) |}.

(** ** The metrics of the components *)

Section recording.
Context {R : Type} `{!MetricsRecorder R}.

Definition record_volume_io_success (volume_id : string) : R → R :=
  increment_counter VOLUME_IO_SUCCESS_TOTAL (from_pairs [("volume_id", volume_id)]) 1.

Definition record_volume_io_failure (volume_id : string) : R → R :=
  increment_counter VOLUME_IO_FAILURE_TOTAL (from_pairs [("volume_id", volume_id)]) 1.

Definition set_client_watermark (session_id : string) (version : N) : R → R :=
  set_gauge CLIENT_WATERMARK_VERSION (from_pairs [("session_id", session_id)]) (f64_of_u64 version).

Definition record_stale_epoch_retry (session_id : string) : R → R :=
  increment_counter CLIENT_STALE_EPOCH_RETRIES_TOTAL (from_pairs [("session_id", session_id)]) 1.

Definition set_foreground_io_load (node_id : string) (load : N) : R → R :=
  set_gauge NODE_FOREGROUND_IO_LOAD (from_pairs [("node_id", node_id)]) (f64_of_u64 load).

Definition set_background_io_load (node_id : string) (load : N) : R → R :=
  set_gauge NODE_BACKGROUND_IO_LOAD (from_pairs [("node_id", node_id)]) (f64_of_u64 load).

Definition record_disk_state_transition (disk_id from_state to_state : string) : R → R :=
  increment_counter DISK_STATE_TRANSITION_TOTAL
    (from_pairs [("disk_id", disk_id); ("from_state", from_state); ("to_state", to_state)]) 1.

Definition record_scrub_finding (node_id disk_id : string) : R → R :=
  increment_counter SCRUB_FINDINGS_TOTAL (from_pairs [("node_id", node_id); ("disk_id", disk_id)]) 1.

Definition set_scrub_last_completed (node_id disk_id : string) (timestamp : f64) : R → R :=
  set_gauge SCRUB_LAST_COMPLETED_TIMESTAMP (from_pairs [("node_id", node_id); ("disk_id", disk_id)]) timestamp.

Definition set_repair_backlog_size (node_id : string) (size : N) : R → R :=
  set_gauge REPAIR_BACKLOG_SIZE (from_pairs [("node_id", node_id)]) (f64_of_u64 size).

Definition record_repair_completion (node_id : string) : R → R :=
  increment_counter REPAIR_COMPLETIONS_TOTAL (from_pairs [("node_id", node_id)]) 1.

Definition set_orphaned_extent_files (node_id : string) (count : N) : R → R :=
  set_gauge ORPHANED_EXTENT_FILES (from_pairs [("node_id", node_id)]) (f64_of_u64 count).

Definition set_metadata_quorum_health (raft_group_id : string) (healthy : bool) : R → R :=
  set_gauge METADATA_QUORUM_HEALTH (from_pairs [("raft_group_id", raft_group_id)])
    (f64_of_u64 (if healthy then 1 else 0)).

Definition record_metadata_commit_latency (raft_group_id : string) (latency_seconds : f64) : R → R :=
  record_histogram METADATA_COMMIT_LATENCY_SECONDS (from_pairs [("raft_group_id", raft_group_id)]) latency_seconds.

End recording.

(** ** Labels do not depend on the order they are given in *)

Lemma string_compare_ot a b : String.compare a b = String_as_OT.compare a b.
Proof.
  revert b. by induction a as [|c a IH]; intros [|c' b].
Qed.

Lemma leb_le a b : String.leb a b = true ↔ a = b ∨ String_as_OT.lt a b.
Proof.
  unfold String.leb. rewrite string_compare_ot.
  destruct (String_as_OT.compare_spec a b) as [Hc|Hc|Hc].
  - by split; [left|].
  - by split; [right|].
  - split; [done|]. intros Hab. exfalso.
    apply (@StrictOrder_Irreflexive _ _ String_as_OT.lt_strorder a).
    destruct Hab as [->|Hlt]; [done|]. by eapply (@StrictOrder_Transitive _ _ String_as_OT.lt_strorder).
Qed.

Lemma leb_trans a b c : String.leb a b = true → String.leb b c = true → String.leb a c = true.
Proof.
  rewrite !leb_le. intros [->|Hab] [->|Hbc]; [by left|by right|by right|]. right.
  by eapply (@StrictOrder_Transitive _ _ String_as_OT.lt_strorder).
Qed.

Lemma insert_pair_comm p q l :
  p.1 ≠ q.1 → insert_pair p (insert_pair q l) = insert_pair q (insert_pair p l).
Proof.
  intros Hne. assert (String.leb p.1 q.1 = negb (String.leb q.1 p.1)) as Hpq.
  { destruct (String.leb q.1 p.1) eqn:Hqp; simpl.
    - destruct (String.leb p.1 q.1) eqn:Hpq; [|done]. by destruct Hne; apply String.leb_antisym.
    - by destruct (String.leb_total p.1 q.1) as [|Hqp']; [|rewrite Hqp in Hqp']. }
  induction l as [|r l IH]; simpl; [rewrite Hpq; by destruct (String.leb q.1 p.1)|].
  destruct (String.leb p.1 r.1) eqn:Hpr, (String.leb q.1 r.1) eqn:Hqr; simpl; rewrite ?Hpr, ?Hqr, ?Hpq.
  - by destruct (String.leb q.1 p.1); simpl; rewrite ?Hpr, ?Hqr.
  - destruct (String.leb q.1 p.1) eqn:Hqp; simpl; [|by rewrite ?Hpr, ?Hqr].
    by rewrite (leb_trans _ _ _ Hqp Hpr) in Hqr.
  - destruct (String.leb q.1 p.1) eqn:Hqp; simpl; [by rewrite ?Hpr|].
    rewrite (leb_trans p.1 q.1 r.1) in Hpr; [done|by rewrite Hpq|done].
  - by rewrite IH.
Qed.

(** Labels with distinct keys are the same series in whatever order they are given. *)
Lemma from_pairs_perm ps qs : ps ≡ₚ qs → NoDup ps.*1 → from_pairs ps = from_pairs qs.
Proof.
  unfold from_pairs. induction 1 as [|p ps qs _ IH|p q ps|ps qs rs Hpq IH1 _ IH2]; csimpl.
  - done.
  - intros [_ Hnd]%NoDup_cons. by rewrite IH.
  - intros [Hp _]%NoDup_cons. apply insert_pair_comm. intros Heq. apply Hp. rewrite Heq. left.
  - intros Hnd. rewrite IH1 by done. apply IH2. by rewrite <-Hpq.
Qed.

Lemma from_pairs_cons_perm p ps : from_pairs (p :: ps) ≡ₚ p :: from_pairs ps.
Proof.
  unfold from_pairs. simpl. generalize (foldr insert_pair [] ps) as l. intros l.
  induction l as [|q l IH]; simpl; [done|]. destruct (String.leb p.1 q.1); [done|].
  rewrite IH. apply Permutation_swap.
Qed.

Lemma from_pairs_elements ps : from_pairs ps ≡ₚ ps.
Proof. induction ps as [|p ps IH]; [done|]. by rewrite from_pairs_cons_perm, IH. Qed.

(** ** Every series holds exactly what was recorded for it *)

Inductive MetricEvent :=
  | EvCounter (name : string) (pairs : list (string * string)) (value : N)
  | EvGauge (name : string) (pairs : list (string * string)) (value : f64)
  | EvHistogram (name : string) (pairs : list (string * string)) (value : f64).

Definition record_event {R} `{!MetricsRecorder R} (r : R) (ev : MetricEvent) : R :=
  match ev with
  | EvCounter name pairs value => increment_counter name (from_pairs pairs) value r
  | EvGauge name pairs value => set_gauge name (from_pairs pairs) value r
  | EvHistogram name pairs value => record_histogram name (from_pairs pairs) value r
  end.

(** What the events say of the series of a name and a set of labels. *)
Definition same_series (name name' : string) (pairs pairs' : list (string * string)) : Prop :=
  name = name' ∧ from_pairs pairs = from_pairs pairs'.

#[global] Instance same_series_dec name name' pairs pairs' : Decision (same_series name name' pairs pairs').
Proof. unfold same_series. apply _. Defined.

Definition counted (name : string) (pairs : list (string * string)) (ev : MetricEvent) : N :=
  match ev with
  | EvCounter name' pairs' value => if decide (same_series name name' pairs pairs') then value else 0
  | _ => 0
  end.

Definition gauged (name : string) (pairs : list (string * string)) (ev : MetricEvent) : option f64 :=
  match ev with
  | EvGauge name' pairs' value => if decide (same_series name name' pairs pairs') then Some value else None
  | _ => None
  end.

Definition observed (name : string) (pairs : list (string * string)) (ev : MetricEvent) : option f64 :=
  match ev with
  | EvHistogram name' pairs' value => if decide (same_series name name' pairs pairs') then Some value else None
  | _ => None
  end.

Lemma key_lookup {A} (m : gmap (string * list (string * string)) A) name name' pairs pairs' a :
  <[(name', from_pairs pairs') := a]> m !! (name, from_pairs pairs) =
    if decide (same_series name name' pairs pairs') then Some a else m !! (name, from_pairs pairs).
Proof.
  case_decide as Hs.
  - destruct Hs as [-> ->]. apply lookup_insert_eq.
  - apply lookup_insert_ne. intros [= <- Heq]. by apply Hs.
Qed.

(** The in-memory recorder keeps one series for each name and set of labels, whatever
    order the labels are given in: after any sequence of calls, the counter of a series
    is the sum of what was added to it, cut off at the largest u64 instead of wrapping;
    its gauge is the last value set; its histogram is every value observed, in order.
    Calls on other series have no influence. *)
Theorem recorded_series evs name ps qs :
  ps ≡ₚ qs → NoDup ps.*1 →
  let r := foldl record_event InMemoryRecorder_new evs in
  counter name (from_pairs qs) r = N.min (foldr N.add 0 (counted name ps <$> evs)) u64_max ∧
  gauge name (from_pairs qs) r = last (omap (gauged name ps) evs) ∧
  histogram name (from_pairs qs) r = omap (observed name ps) evs.
Proof.
  intros Hperm Hnd. rewrite <-(from_pairs_perm _ _ Hperm Hnd). clear qs Hperm Hnd.
  induction evs as [|ev evs IH] using rev_ind; [done|].
  rewrite foldl_app, fmap_app, foldr_app, !omap_app. simpl.
  set (r := foldl record_event InMemoryRecorder_new evs) in *. destruct IH as (Hc & Hg & Hh).
  assert (∀ l n, foldr N.add n l = foldr N.add 0 l + n) as Hsum.
  { induction l as [|x l IHl]; intros n; simpl; [done|]. rewrite (IHl n). lia. }
  rewrite (Hsum _ (counted name ps ev + 0)), N.add_0_r.
  destruct ev as [name' pairs v|name' pairs v|name' pairs v]; simpl; unfold counter, gauge, histogram in *; simpl.
  - rewrite key_lookup. case_decide as Hs; simpl.
    + destruct Hs as [<- <-]. rewrite Hc. rewrite !app_nil_r. split_and!; [|done|done].
      unfold u64_sat_add. lia.
    + rewrite N.add_0_r, !app_nil_r. done.
  - rewrite key_lookup, N.add_0_r, app_nil_r. case_decide as Hs; simpl; [by rewrite last_snoc|].
    by rewrite app_nil_r.
  - rewrite key_lookup, N.add_0_r, app_nil_r. case_decide as Hs; simpl; [|by rewrite app_nil_r].
    destruct Hs as [<- <-]. by rewrite Hh.
Qed.

Lemma recorded_series_witness :
  let evs := [EvCounter DISK_STATE_TRANSITION_TOTAL [("to_state", "failed"); ("disk_id", "d1")] 1;
              EvCounter DISK_STATE_TRANSITION_TOTAL [("disk_id", "d1"); ("to_state", "failed")] u64_max] in
  counter DISK_STATE_TRANSITION_TOTAL (from_pairs [("to_state", "failed"); ("disk_id", "d1")])
    (foldl record_event InMemoryRecorder_new evs) = u64_max.
Proof.
  intros evs.
  destruct (recorded_series evs DISK_STATE_TRANSITION_TOTAL [("disk_id", "d1"); ("to_state", "failed")]
    [("to_state", "failed"); ("disk_id", "d1")]) as [Hc _].
  - apply Permutation_swap.
  - apply NoDup_cons. split; [rewrite list_elem_of_singleton; discriminate|apply NoDup_singleton].
  - rewrite Hc. vm_compute. reflexivity.
Defined.

(** A key given twice keeps both pairs, and then the order does matter. *)
Theorem repeated_label_order_matters :
  from_pairs [("a", "1"); ("a", "2")] ≠ from_pairs [("a", "2"); ("a", "1")].
Proof. discriminate. Qed.
