(* ===== verification/Harness.v ===== *)
(** * The checks of the test harness (crates/blockyard-test-harness)

    The harness decides whether a run of the cluster kept its promises: the log of
    operations and the generator of offsets (workload.rs), the block patterns
    (pattern.rs) and the consistency checker (checker.rs).  A verdict is only worth what
    the checker checks, so its verdict is characterised exactly.  Instants are numbers,
    identifiers and random draws are arguments. *)

From S2P Require Import Prelude Common Float Placement Checksum.

#[local] Open Scope N_scope.

(** ** Operations (workload.rs) *)

Inductive OperationKind := OpWrite | OpRead.

#[global] Instance OperationKind_eq_dec : EqDecision OperationKind.
Proof. solve_decision. Defined.

Inductive AckStatus := AckPending | AckAcked | AckNacked | AckTimeout.

#[global] Instance AckStatus_eq_dec : EqDecision AckStatus.
Proof. solve_decision. Defined.

Record Operation := MkOperation {
  wo_id : OperationId;
  wo_kind : OperationKind;
  wo_volume_id : VolumeId;
  wo_offset : N;
  wo_length : N;
  wo_data_checksum : option string;
  wo_status : AckStatus;
  wo_started_at : N;
  wo_completed_at : option N;
  wo_error : option string;
}.

Definition new_write (id : OperationId) (now : N) (volume_id : VolumeId) (offset length : N) (checksum : string) : Operation :=
  MkOperation id OpWrite volume_id offset length (Some checksum) AckPending now None None.

Definition new_read (id : OperationId) (now : N) (volume_id : VolumeId) (offset length : N) : Operation :=
  MkOperation id OpRead volume_id offset length None AckPending now None None.

Definition complete (status : AckStatus) (now : N) (op : Operation) : Operation :=
  MkOperation (wo_id op) (wo_kind op) (wo_volume_id op) (wo_offset op) (wo_length op) (wo_data_checksum op)
    status (wo_started_at op) (Some now) (wo_error op).

Definition complete_with_error (error : string) (now : N) (op : Operation) : Operation :=
  MkOperation (wo_id op) (wo_kind op) (wo_volume_id op) (wo_offset op) (wo_length op) (wo_data_checksum op)
    AckNacked (wo_started_at op) (Some now) (Some error).

(** [duration_since] saturates at zero. *)
Definition latency (op : Operation) : option N := (λ t, sat_sub t (wo_started_at op)) <$> wo_completed_at op.

Definition is_complete (op : Operation) : bool := bool_decide (is_Some (wo_completed_at op)).

(** The log, in the order of recording. *)
Definition OperationLog : Type := list Operation.

Definition record_op (op : Operation) (log : list Operation) : list Operation := log ++ [op].

Definition op_writes (log : list Operation) : list Operation := filter (λ op, wo_kind op = OpWrite) log.

Definition op_reads (log : list Operation) : list Operation := filter (λ op, wo_kind op = OpRead) log.

Definition acked_writes (log : list Operation) : list Operation :=
  filter (λ op, wo_kind op = OpWrite ∧ wo_status op = AckAcked) log.

Definition failed_operations (log : list Operation) : list Operation :=
  filter (λ op, wo_status op = AckNacked ∨ wo_status op = AckTimeout) log.

(** ** Offsets (workload.rs) *)

Inductive KeyDistribution :=
  | KdSequential
  | KdUniform
  | KdZipfian
  | KdHotspot (hot_fraction hot_ops_percent : N).

Record WorkloadConfig := MkWorkloadConfig {
  wc_volume_ids : list VolumeId;
  wc_write_ratio : f64;
  wc_block_size : N;
  wc_max_offset : N;
  wc_operations_per_second : N;
  wc_duration_ms : N;
  wc_concurrent_clients : N;
  wc_key_distribution : KeyDistribution;
}.

(** What is drawn for an operation: the index of a volume, a number of the unit
    interval, [gen_range(0..n)] for blocks and for per cents, the rank computed from a
    Zipf draw, the bytes of a block, generated identifiers. *)
Record Draws := MkDraws {
  dr_index : nat → nat;
  dr_unit : f64;
  dr_below : N → N;
  dr_percent : N;
  dr_rank : N;
  dr_data : nat → list N;
  dr_volume : VolumeId;
  dr_id : OperationId;
}.

(** The offset of the next operation and the counter of the sequential distribution; a
    block size of 0 panics, and so does a draw from an empty range. *)
Definition next_offset (c : WorkloadConfig) (d : Draws) (seq : N) : exec (N * N) :=
  if decide (wc_block_size c = 0) then Panic else
  let max_blocks := wc_max_offset c `div` wc_block_size c in
  if decide (max_blocks = 0) then Return (0, seq) else
  let '(block, seq) :=
    match wc_key_distribution c with
    | KdSequential => (seq `mod` max_blocks, u64_add seq 1)
    | KdUniform => (dr_below d max_blocks, seq)
    | KdZipfian => (N.min (dr_rank d) (max_blocks - 1), seq)
    | KdHotspot hot_fraction hot_ops_percent =>
        let hot_range := N.max (u64_mul max_blocks hot_fraction `div` 100) 1 in
        (if decide (dr_percent d < hot_ops_percent) then dr_below d hot_range else dr_below d max_blocks, seq)
    end in
  Return (u64_mul block (wc_block_size c), seq).

(** ** The generator (workload.rs) *)

Record WorkloadGenerator := MkGenerator {
  wg_config : WorkloadConfig;
  wg_log : list Operation;
  wg_ops_generated : N;
  wg_sequential_offset : N;
}.

Definition WorkloadGenerator_new (config : WorkloadConfig) : WorkloadGenerator := MkGenerator config [] 0 0.

Definition count_generated (seq : N) (g : WorkloadGenerator) : WorkloadGenerator :=
  MkGenerator (wg_config g) (wg_log g) (u64_add (wg_ops_generated g) 1) seq.

Definition log_op (op : Operation) (g : WorkloadGenerator) : WorkloadGenerator :=
  MkGenerator (wg_config g) (record_op op (wg_log g)) (wg_ops_generated g) (wg_sequential_offset g).

Section generator.
Context `{!Blake3}.

Definition generate_operation (now : N) (d : Draws) (g : WorkloadGenerator) : exec (WorkloadGenerator * Operation) :=
  let c := wg_config g in
  volume_id ← match wc_volume_ids c with
              | [] => Return (dr_volume d)
              | ids => expect (ids !! dr_index d (length ids))
              end;
  let is_write := f64_lt (dr_unit d) (wc_write_ratio c) in
  '(offset, seq) ← next_offset c d (wg_sequential_offset g);
  let op :=
    if is_write then
      new_write (dr_id d) now volume_id offset (wc_block_size c)
        (compute_checksum (dr_data d (N.to_nat (wc_block_size c))))
    else new_read (dr_id d) now volume_id offset (wc_block_size c) in
  Return (count_generated seq g, op).

Definition generate_and_record (now : N) (d : Draws) (g : WorkloadGenerator) : exec (WorkloadGenerator * Operation) :=
  '(g, op) ← generate_operation now d g;
  Return (log_op op g, op).

Definition generate_write (now : N) (d : Draws) (volume_id : VolumeId) (offset : N) (g : WorkloadGenerator)
    : WorkloadGenerator * Operation * list N :=
  let data := dr_data d (N.to_nat (wc_block_size (wg_config g))) in
  (count_generated (wg_sequential_offset g) g,
   new_write (dr_id d) now volume_id offset (wc_block_size (wg_config g)) (compute_checksum data), data).

End generator.

(** ** Patterns (pattern.rs) *)

Inductive PatternKind := Deterministic | Alternating | Ascending | Checkerboard.

Record PatternConfig := MkPatternConfig {
  pc_seed : N;
  pc_block_size : N;
  pc_block_count : N;
  pc_kind : PatternKind;
}.

Record PatternBlock := MkPatternBlock {
  pb_volume_id : VolumeId;
  pb_offset : N;
  pb_data : list N;
  pb_checksum : string;
}.

(** Shifts to the left drop the bits above the 64th. *)
Definition xorshift64 (state : N) : N :=
  let state := if decide (state = 0) then 1 else state in
  let state := N.lxor state (N.shiftl state 13 `mod` u64_modulus) in
  let state := N.lxor state (N.shiftr state 7) in
  N.lxor state (N.shiftl state 17 `mod` u64_modulus).

Fixpoint fill_deterministic (n : nat) (state : N) : list N :=
  match n with
  | O => []
  | S n => let state := xorshift64 state in state `mod` 256 :: fill_deterministic n state
  end.

(** The bytes of a block, from the index of each. *)
Definition fill_indexed (n : nat) (f : N → N) : list N := (λ i, f (N.of_nat i)) <$> seq 0 n.

Definition alternating_byte (seed block_index i : N) : N :=
  let pattern_a := N.land seed 255 in
  let pattern_b := N.land (N.shiftr seed 8) 255 in
  let base := N.land block_index 1 in
  if decide (((i `mod` 256 + base) `mod` 256) `mod` 2 = 0) then pattern_a else pattern_b.

Definition ascending_byte (seed block_index i : N) : N :=
  (N.lxor seed block_index `mod` 256 + i `mod` 256) `mod` 256.

Definition checkerboard_byte (seed block_index i : N) : N :=
  let seed_byte := N.land (N.lxor seed block_index) 255 in
  if decide ((i `div` 64) `mod` 2 = 0) then seed_byte else 255 - seed_byte.

Definition generate_data (c : PatternConfig) (block_index : N) : list N :=
  let size := N.to_nat (pc_block_size c) in
  match pc_kind c with
  | Deterministic => fill_deterministic size (N.lxor (pc_seed c) block_index)
  | Alternating => fill_indexed size (alternating_byte (pc_seed c) block_index)
  | Ascending => fill_indexed size (ascending_byte (pc_seed c) block_index)
  | Checkerboard => fill_indexed size (checkerboard_byte (pc_seed c) block_index)
  end.

Inductive PatternVerifyResult :=
  | VerifyOk (block_index : N)
  | VerifyMissing (block_index : N)
  | VerifyLengthMismatch (block_index : N) (expected actual : nat)
  | VerifyDataMismatch (block_index : N) (expected_checksum actual_checksum : string) (first_diff : option nat).

(** The position of the first difference. *)
Fixpoint first_difference (a b : list N) : option nat :=
  match a, b with
  | x :: a, y :: b => if decide (x = y) then S <$> first_difference a b else Some O
  | _, _ => None
  end.

Section pattern.
Context `{!Blake3}.
Variable volume_id : VolumeId.

Definition generate_block (c : PatternConfig) (block_index : N) : PatternBlock :=
  let data := generate_data c block_index in
  MkPatternBlock volume_id (u64_mul block_index (pc_block_size c)) data (compute_checksum data).

Definition block_indices (c : PatternConfig) : list N := range_values (MkRange 0 (pc_block_count c)).

Definition generate_all (c : PatternConfig) : list PatternBlock := generate_block c <$> block_indices c.

Definition verify_block (c : PatternConfig) (block_index : N) (data : list N) : PatternVerifyResult :=
  let expected := generate_block c block_index in
  if decide (length data ≠ length (pb_data expected)) then
    VerifyLengthMismatch block_index (length (pb_data expected)) (length data)
  else
    let actual_checksum := compute_checksum data in
    if decide (actual_checksum ≠ pb_checksum expected) then
      VerifyDataMismatch block_index (pb_checksum expected) actual_checksum
        (first_difference data (pb_data expected))
    else VerifyOk block_index.

(** [blocks]: what was read back, by offset. *)
Definition verify_all (c : PatternConfig) (blocks : gmap N (list N)) : list PatternVerifyResult :=
  (λ block_index,
     match blocks !! u64_mul block_index (pc_block_size c) with
     | Some data => verify_block c block_index data
     | None => VerifyMissing block_index
     end) <$> block_indices c.

End pattern.

(** ** The checker (checker.rs) *)

Inductive CheckResult := Pass | CheckFail (msg : string).

Definition is_pass (r : CheckResult) : bool := match r with Pass => true | CheckFail _ => false end.

Record CheckReport := MkCheckReport {
  cr_name : string;
  cr_result : CheckResult;
  cr_details : list string;
}.

(** Where an operation writes: volume and offset. *)
Definition op_location (op : Operation) : VolumeId * N := (wo_volume_id op, wo_offset op).

Record ConsistencyChecker := MkChecker {
  ck_operation_log : list Operation;
  ck_read_back_data : gmap (VolumeId * N) string;
  ck_min_operations : N;
}.

Definition ConsistencyChecker_new (log : list Operation) : ConsistencyChecker := MkChecker log ∅ 1.

Definition with_min_operations (min : N) (c : ConsistencyChecker) : ConsistencyChecker :=
  MkChecker (ck_operation_log c) (ck_read_back_data c) min.

Definition record_read_back (volume_id : VolumeId) (offset : N) (checksum : string) (c : ConsistencyChecker)
    : ConsistencyChecker :=
  MkChecker (ck_operation_log c) (<[(volume_id, offset) := checksum]> (ck_read_back_data c)) (ck_min_operations c).

Definition num {A} (l : list A) : string := u64_to_string (N.of_nat (length l)).

(** The latest acknowledged write to each location: a later one in the list replaces one
    that did not start after it. *)
Definition latest_step (latest : gmap (VolumeId * N) Operation) (op : Operation) : gmap (VolumeId * N) Operation :=
  match latest !! op_location op with
  | Some existing =>
      if decide (wo_started_at op < wo_started_at existing) then latest else <[op_location op := op]> latest
  | None => <[op_location op := op]> latest
  end.

Definition latest_writes (acked : list Operation) : gmap (VolumeId * N) Operation := foldl latest_step ∅ acked.

Section checker.
Context `{!UuidDisplay} `{!HashIter (VolumeId * N)}.
Implicit Types c : ConsistencyChecker.

Definition check_io_happened c : CheckReport :=
  let log := ck_operation_log c in
  let total := "total_operations: " +:+ num log in
  if decide (N.of_nat (length log) < ck_min_operations c) then
    MkCheckReport "io_happened"
      (CheckFail ("workload generated only " +:+ num log +:+ " operations, minimum is "
                    +:+ u64_to_string (ck_min_operations c)))
      [total; "min_required: " +:+ u64_to_string (ck_min_operations c)]
  else if decide (acked_writes log = []) then
    MkCheckReport "io_happened"
      (CheckFail "workload had zero acked writes — no data was durably committed") [total; "acked_writes: 0"]
  else MkCheckReport "io_happened" Pass [total; "acked_writes: " +:+ num (acked_writes log)].

Definition check_acked_writes_readable c : CheckReport :=
  let acked := acked_writes (ck_operation_log c) in
  if decide (acked = []) then MkCheckReport "acked_writes_readable" Pass ["no acked writes to verify"] else
  let missing :=
    omap (λ op, match ck_read_back_data c !! op_location op with
                | Some _ => None
                | None => Some ("op=" +:+ to_string (wo_id op) +:+ " vol=" +:+ to_string (wo_volume_id op)
                                  +:+ " offset=" +:+ u64_to_string (wo_offset op) +:+ ": no read-back data recorded")
                end) acked in
  if decide (missing = []) then
    MkCheckReport "acked_writes_readable" Pass ["all " +:+ num acked +:+ " acked writes have read-back data"]
  else
    MkCheckReport "acked_writes_readable"
      (CheckFail (num missing +:+ " acked writes missing read-back verification")) (take 10 missing).

(** The entry of a location whose read-back checksum is not the one written. *)
Definition mismatch c (key : VolumeId * N) (write_op : Operation) : option string :=
  read_checksum ← ck_read_back_data c !! key;
  write_checksum ← wo_data_checksum write_op;
  if decide (write_checksum = read_checksum) then None
  else Some ("vol=" +:+ to_string key.1 +:+ " offset=" +:+ u64_to_string key.2 +:+ ": write_checksum="
               +:+ write_checksum +:+ " != read_checksum=" +:+ read_checksum).

Definition check_no_lost_acks c : CheckReport :=
  let acked := acked_writes (ck_operation_log c) in
  if decide (acked = []) then MkCheckReport "no_lost_acks" Pass ["no acked writes to verify"] else
  let latest := latest_writes acked in
  let mismatches := omap (λ key, latest !! key ≫= mismatch c key) (hash_keys latest) in
  if decide (mismatches = []) then
    MkCheckReport "no_lost_acks" Pass
      ["all " +:+ num (hash_keys latest) +:+ " latest acked writes have matching checksums"]
  else
    MkCheckReport "no_lost_acks"
      (CheckFail (num mismatches +:+ " acked writes have mismatched checksums after read-back"))
      (take 10 mismatches).

(** The locations with more than one acknowledged write. *)
Definition find_conflicting_writes c : list (VolumeId * N) :=
  let locations := op_location <$> acked_writes (ck_operation_log c) in
  let counts := foldl (λ m key, <[key := default 0 (m !! key) + 1]> m) (∅ : gmap (VolumeId * N) N) locations in
  filter (λ key, 1 < default 0 (counts !! key)) (hash_keys counts).

Definition check_data_integrity c : CheckReport :=
  let all_ops := ck_operation_log c in
  let conflicting := find_conflicting_writes c in
  MkCheckReport "data_integrity" Pass
    (["total_operations: " +:+ num all_ops;
      "completed: " +:+ num (filter (λ op, is_complete op = true) all_ops);
      "pending: " +:+ num (filter (λ op, is_complete op = false) all_ops);
      "failed: " +:+ num (failed_operations all_ops)] ++
     if decide (conflicting = []) then []
     else ["conflicting_write_offsets: " +:+ num conflicting +:+ " (last-writer-wins used for verification)"]).

Definition check_all c : list CheckReport :=
  [check_io_happened c; check_acked_writes_readable c; check_no_lost_acks c; check_data_integrity c].

End checker.

(** ** Lemmas: the latest write *)

(** No write to the same location comes after [op]: those before it in the list did not
    start later, those after it started earlier. *)
Definition is_latest (acked : list Operation) (op : Operation) : Prop :=
  ∃ before after, acked = before ++ op :: after ∧
    (∀ o, o ∈ before → op_location o = op_location op → wo_started_at o ≤ wo_started_at op) ∧
    (∀ o, o ∈ after → op_location o = op_location op → wo_started_at o < wo_started_at op).

Lemma is_latest_snoc acked o op :
  is_latest (acked ++ [o]) op ↔
  op = o ∧ (∀ o', o' ∈ acked → op_location o' = op_location op → wo_started_at o' ≤ wo_started_at op) ∨
  is_latest acked op ∧ (op_location o = op_location op → wo_started_at o < wo_started_at op).
Proof.
  split.
  - intros (before & after & Heq & Hb & Ha). destruct after as [|o' after _] using rev_ind.
    + apply app_inj_tail in Heq as [-> ->]. by left.
    + rewrite app_comm_cons, app_assoc in Heq. apply app_inj_tail in Heq as [-> ->]. right. split.
      * exists before, after. split_and!; [done|done|]. intros o'' Ho''. apply Ha. apply elem_of_app. by left.
      * apply Ha. apply elem_of_app. right. by apply list_elem_of_singleton.
  - intros [[-> Hb]|[(before & after & -> & Hb & Ha) Ho]].
    + exists acked, []. split_and!; [done|done|]. by intros o' ?%elem_of_nil.
    + exists before, (after ++ [o]). split_and!; [by rewrite <-app_assoc|done|].
      intros o' [Ho'|Ho'%list_elem_of_singleton]%elem_of_app; [by apply Ha|by subst].
Qed.

Lemma is_latest_elem acked op : is_latest acked op → op ∈ acked.
Proof. intros (before & after & -> & _). apply elem_of_app. right. left. Qed.

Lemma is_latest_max acked op o :
  is_latest acked op → o ∈ acked → op_location o = op_location op → wo_started_at o ≤ wo_started_at op.
Proof.
  intros (before & after & -> & Hb & Ha) [Ho|[->|Ho]%elem_of_cons]%elem_of_app Hl; [by apply Hb|done|].
  specialize (Ha o Ho Hl). lia.
Qed.

Lemma latest_writes_covers acked o : o ∈ acked → is_Some (latest_writes acked !! op_location o).
Proof.
  unfold latest_writes. induction acked as [|o' acked IH] using rev_ind; [by intros ?%elem_of_nil|].
  rewrite foldl_app. simpl. set (latest := foldl latest_step ∅ acked) in *.
  assert (∀ op, is_Some (<[op_location o' := op]> latest !! op_location o')) as Hnew
    by (intros op; rewrite lookup_insert_eq; eauto).
  assert (is_Some (latest !! op_location o) → is_Some (latest_step latest o' !! op_location o)) as Hkeep.
  { intros Ho. unfold latest_step. destruct (latest !! op_location o') eqn:He; [case_decide; [done|]|];
      destruct (decide (op_location o' = op_location o)) as [<-|Hne]; [done| |done|];
      by rewrite lookup_insert_ne. }
  intros [Ho| ->%list_elem_of_singleton]%elem_of_app; [by apply Hkeep, IH|].
  unfold latest_step. destruct (latest !! op_location o') eqn:He; [case_decide|]; eauto.
Qed.

Lemma latest_writes_spec acked key op :
  latest_writes acked !! key = Some op ↔ op_location op = key ∧ is_latest acked op.
Proof.
  revert key op. induction acked as [|o acked IH] using rev_ind; intros key op.
  { unfold latest_writes. simpl. rewrite lookup_empty. split; [done|].
    intros (_ & before & after & Heq & _). by destruct before. }
  unfold latest_writes in *. rewrite foldl_app. simpl. rewrite is_latest_snoc.
  set (latest := foldl latest_step ∅ acked) in *.
  assert ((∀ o', o' ∈ acked → op_location o' = op_location o → wo_started_at o' ≤ wo_started_at o) →
    <[op_location o := o]> latest !! key = Some op ↔ op_location op = key ∧
      (op = o ∧ (∀ o', o' ∈ acked → op_location o' = op_location op → wo_started_at o' ≤ wo_started_at op) ∨
       is_latest acked op ∧ (op_location o = op_location op → wo_started_at o < wo_started_at op))) as Hins.
  { intros Hmax. rewrite lookup_insert_Some, IH. split.
    - intros [[<- <-]|(Hne & <- & Hop)]; (split; [done|]); [by left|right]. by split.
    - intros [<- [[-> _]|[Hop Hlt]]]; [by left|right]. split; [|done]. intros Hloc.
      specialize (Hmax op (is_latest_elem _ _ Hop) (eq_sym Hloc)). specialize (Hlt Hloc). lia. }
  unfold latest_step. destruct (latest !! op_location o) as [e|] eqn:He.
  - apply IH in He as [Hle Hlat]. case_decide as Hs.
    + rewrite IH. split; intros [Hk Hop]; (split; [done|]).
      * right. split; [done|]. intros Hloc.
        pose proof (is_latest_max _ _ _ Hop (is_latest_elem _ _ Hlat)) as Hm. rewrite Hle, Hloc in Hm.
        specialize (Hm eq_refl). lia.
      * destruct Hop as [[-> Hmax]|[? _]]; [|done]. specialize (Hmax e (is_latest_elem _ _ Hlat) Hle). lia.
    + apply Hins. intros o' Ho' Hl. pose proof (is_latest_max _ _ o' Hlat Ho') as Hm.
      rewrite Hle in Hm. specialize (Hm Hl). lia.
  - apply Hins. intros o' Ho' Hl. exfalso.
    pose proof (latest_writes_covers _ _ Ho') as [e Hcov]. rewrite Hl in Hcov. unfold latest_writes in Hcov.
    fold latest in Hcov. by rewrite He in Hcov.
Qed.

(** ** Theorems *)

Lemma omap_nil_iff {A B} (f : A → option B) l : omap f l = [] ↔ ∀ a, a ∈ l → f a = None.
Proof.
  induction l as [|a l IH]; simpl; [by split; [intros _ a ?%elem_of_nil|]|].
  setoid_rewrite elem_of_cons. destruct (f a) eqn:Hf; [|rewrite IH]; naive_solver.
Qed.

Section verdict.
Context `{!UuidDisplay} `{!HashIter (VolumeId * N)}.
Implicit Types c : ConsistencyChecker.

(** What an acknowledged write needs to pass: something was read back at its location, and
    if no later write to the location was acknowledged, it has the checksum written. *)
Definition vindicated c (op : Operation) : Prop :=
  ∃ read, ck_read_back_data c !! op_location op = Some read ∧
    (is_latest (acked_writes (ck_operation_log c)) op → ∀ written, wo_data_checksum op = Some written → read = written).

Lemma io_happened_passes c :
  is_pass (cr_result (check_io_happened c)) = true ↔
  ck_min_operations c ≤ N.of_nat (length (ck_operation_log c)) ∧ acked_writes (ck_operation_log c) ≠ [].
Proof. unfold check_io_happened. repeat case_decide; simpl; split; try done; [lia|naive_solver|]. intros _. split; [lia|done]. Qed.

Lemma readable_passes c :
  is_pass (cr_result (check_acked_writes_readable c)) = true ↔
  ∀ op, op ∈ acked_writes (ck_operation_log c) → is_Some (ck_read_back_data c !! op_location op).
Proof.
  unfold check_acked_writes_readable. case_decide as Hnil; simpl.
  { rewrite Hnil. split; [|done]. by intros _ op ?%elem_of_nil. }
  case_decide as Hm; simpl.
  - split; [|done]. intros _ op Hop. rewrite omap_nil_iff in Hm. specialize (Hm op Hop). by destruct (ck_read_back_data c !! _).
  - split; [done|]. intros Hall. destruct Hm. apply omap_nil_iff. intros op Hop. by destruct (Hall op Hop) as [r ->].
Qed.

Lemma no_lost_acks_passes c :
  is_pass (cr_result (check_no_lost_acks c)) = true ↔
  ∀ op read written, is_latest (acked_writes (ck_operation_log c)) op →
    ck_read_back_data c !! op_location op = Some read → wo_data_checksum op = Some written → read = written.
Proof.
  unfold check_no_lost_acks. case_decide as Hnil; simpl.
  { rewrite Hnil. split; [|done]. by intros _ op read written ?%is_latest_elem%elem_of_nil. }
  set (acked := acked_writes (ck_operation_log c)) in *.
  assert ((omap (λ key, latest_writes acked !! key ≫= mismatch c key) (hash_keys (latest_writes acked)) = []) ↔
    ∀ op, is_latest acked op → mismatch c (op_location op) op = None) as Hiff.
  { rewrite omap_nil_iff. split.
    - intros Hall op Hop. assert (latest_writes acked !! op_location op = Some op) as Hl by by apply latest_writes_spec.
      specialize (Hall (op_location op)). rewrite Hl in Hall. apply Hall. rewrite hash_keys_perm.
      apply list_elem_of_fmap. exists (op_location op, op). split; [done|]. by apply elem_of_map_to_list.
    - intros Hall key _. destruct (latest_writes acked !! key) as [op|] eqn:Hl; [|done]. simpl.
      apply latest_writes_spec in Hl as [<- Hl]. by apply Hall. }
  assert ((∀ op, is_latest acked op → mismatch c (op_location op) op = None) ↔
    ∀ op read written, is_latest acked op →
      ck_read_back_data c !! op_location op = Some read → wo_data_checksum op = Some written → read = written) as Hm.
  { unfold mismatch. split.
    - intros Hall op read written Hop Hr Hw. specialize (Hall op Hop). rewrite Hr, Hw in Hall. simpl in Hall.
      by case_decide.
    - intros Hall op Hop. destruct (ck_read_back_data c !! _) as [read|] eqn:Hr; [|done]. simpl.
      destruct (wo_data_checksum op) as [written|] eqn:Hw; [|done]. simpl.
      by rewrite decide_True by (symmetry; eauto). }
  rewrite <-Hm, <-Hiff. by case_decide; simpl.
Qed.

(** C40: The verdict of the consistency checker is exact: all checks pass if and only if
    enough operations were logged, some write was acknowledged, and for every
    acknowledged write something was read back at its location, with the checksum that
    was written unless a later write to the same location was acknowledged too (later
    by its start, and by its place in the log when the starts are equal). *)
Theorem checker_verdict_exact c :
  Forall (λ r, is_pass (cr_result r) = true) (check_all c) ↔
  ck_min_operations c ≤ N.of_nat (length (ck_operation_log c)) ∧ acked_writes (ck_operation_log c) ≠ [] ∧
  Forall (vindicated c) (acked_writes (ck_operation_log c)).
Proof.
  unfold check_all. rewrite !Forall_cons, Forall_nil, io_happened_passes, readable_passes, no_lost_acks_passes.
  assert (is_pass (cr_result (check_data_integrity c)) = true) as Hint by done.
  rewrite Forall_forall. unfold vindicated. split.
  - intros ([Hmin Hne] & Hread & Hack & _). split_and!; [done|done|]. intros op Hop.
    destruct (Hread op Hop) as [read Hr]. exists read. split; [done|]. intros Hl written Hw. by eapply Hack.
  - intros (Hmin & Hne & Hall). split_and!; try done.
    + intros op Hop. destruct (Hall op Hop) as (read & Hr & _). eauto.
    + intros op read written Hl Hr Hw. destruct (Hall op (is_latest_elem _ _ Hl)) as (read' & Hr' & Hok).
      simplify_eq. by apply Hok.
Qed.

End verdict.

(** *** Patterns *)

Section patterns.
Context `{!Blake3}.
Variable volume_id : VolumeId.
Hypothesis Hbytes : ∀ bs, Forall (λ b, b < 256) (blake3 bs).

(** Up to a collision of the hash, a block passes exactly when it holds its pattern. *)
Lemma verify_block_ok c i d :
  (blake3 d = blake3 (generate_data c i) → d = generate_data c i) →
  verify_block volume_id c i d = VerifyOk i ↔ d = generate_data c i.
Proof.
  intros Hcr. unfold verify_block. simpl. split; [|by intros ->; rewrite !decide_False by naive_solver].
  case_decide as Hlen; [done|]. case_decide as Hck; [done|]. intros _. apply verify_checksum_sound; [done|done|].
  apply bool_decide_eq_true. destruct (decide (compute_checksum d = compute_checksum (generate_data c i))); naive_solver.
Qed.

(** Verifying a volume against a pattern succeeds exactly when every block was read
    back with the bytes that were generated for it: a block that is missing, short or
    different in one byte is reported, unless the hash of what was read collides with
    the hash of the block. *)
Theorem pattern_verified_exactly c blocks :
  (∀ i d, i < pc_block_count c → blocks !! u64_mul i (pc_block_size c) = Some d →
     blake3 d = blake3 (generate_data c i) → d = generate_data c i) →
  verify_all volume_id c blocks = VerifyOk <$> block_indices c ↔
  ∀ i, i < pc_block_count c → blocks !! u64_mul i (pc_block_size c) = Some (generate_data c i).
Proof.
  intros Hcr. assert (∀ i, i ∈ block_indices c ↔ i < pc_block_count c) as Hidx.
  { intros i. unfold block_indices. rewrite elem_of_range_values. unfold in_range. simpl. lia. }
  setoid_rewrite <-Hidx in Hcr. setoid_rewrite <-Hidx. unfold verify_all. clear Hidx.
  revert Hcr. generalize (block_indices c) as l. intros l Hcr.
  assert (∀ i, i ∈ l → match blocks !! u64_mul i (pc_block_size c) with
               | Some data => verify_block volume_id c i data
               | None => VerifyMissing i
               end = VerifyOk i ↔ blocks !! u64_mul i (pc_block_size c) = Some (generate_data c i)) as Hone.
  { intros i Hi. destruct (blocks !! _) as [d|] eqn:Hd; [|done].
    rewrite verify_block_ok by by apply Hcr. naive_solver. }
  clear Hcr.
  induction l as [|i l IH]; [by split; [intros _ i ?%elem_of_nil|]|].
  setoid_rewrite elem_of_cons in Hone. csimpl. setoid_rewrite elem_of_cons. split.
  - intros [= H1 H2] j [->|Hj]; [by apply Hone; [left|]|]. apply IH; [|done|done]. intros k Hk. apply Hone. by right.
  - intros Hall. f_equal; [by apply Hone; [left|apply Hall; left]|]. apply IH.
    + intros k Hk. apply Hone. by right.
    + intros j Hj. apply Hall. by right.
Qed.

End patterns.

(** *** Offsets *)

(** The draws respect their ranges. *)
Record draws_ok (d : Draws) : Prop := {
  draw_below : ∀ n, 0 < n → dr_below d n < n;
  draw_index : ∀ n, (0 < n → dr_index d n < n)%nat;
}.

(** A range with whole blocks, of which at most all are hot. *)
Record workload_ok (c : WorkloadConfig) : Prop := {
  wk_block_size : 0 < wc_block_size c;
  wk_range : wc_block_size c ≤ wc_max_offset c;
  wk_width : wc_max_offset c * 100 < u64_modulus;
  wk_hot : ∀ f p, wc_key_distribution c = KdHotspot f p → f ≤ 100;
}.

(** The start of a whole block inside the range. *)
Definition offset_ok (c : WorkloadConfig) (off : N) : Prop :=
  off `mod` wc_block_size c = 0 ∧ off + wc_block_size c ≤ wc_max_offset c.

Lemma next_offset_ok c d seq :
  draws_ok d → workload_ok c → ∃ off seq', next_offset c d seq = Return (off, seq') ∧ offset_ok c off.
Proof.
  intros [Hd _] [Hbs Hmax Hov Hhot]. unfold next_offset. rewrite decide_False by lia.
  set (n := wc_max_offset c `div` wc_block_size c).
  assert (n * wc_block_size c ≤ wc_max_offset c) as Hn by (unfold n; rewrite N.mul_comm; apply N.Div0.mul_div_le).
  assert (0 < n) as Hpos by (apply N.div_str_pos; lia). rewrite decide_False by lia.
  assert (∀ (block seq' : N), block < n → ∃ off seq'', Return (u64_mul block (wc_block_size c), seq') = Return (off, seq'') ∧
    offset_ok c off) as Hblock.
  { intros block seq' Hb. assert ((block + 1) * wc_block_size c ≤ wc_max_offset c) by nia.
    exists (block * wc_block_size c), seq'. rewrite u64_mul_small by lia.
    split; [done|]. split; [apply N.Div0.mod_mul|lia]. }
  destruct (wc_key_distribution c) as [| | |f p]; apply Hblock.
  - apply N.mod_upper_bound. lia.
  - by apply Hd.
  - lia.
  - specialize (Hhot f p eq_refl). case_decide; [|by apply Hd]. set (hot := N.max _ 1).
    assert (hot ≤ n) as Hle.
    { unfold hot. apply N.max_lub; [|lia]. rewrite u64_mul_small by nia.
      apply N.Div0.div_le_upper_bound. nia. }
    assert (dr_below d hot < hot) by (apply Hd; unfold hot; lia). lia.
Qed.

(** The generator returns an operation whatever is drawn, for every distribution: a
    pending one for a configured volume, at the start of a whole block inside the
    configured range, and a write carries the checksum of the bytes drawn for it. *)
Theorem generated_operation_in_range `{!Blake3} now d g :
  let c := wg_config g in
  draws_ok d → workload_ok c → wc_volume_ids c ≠ [] →
  ∃ g' op, generate_and_record now d g = Return (g', op) ∧ wg_log g' = wg_log g ++ [op] ∧
    wo_volume_id op ∈ wc_volume_ids c ∧ offset_ok c (wo_offset op) ∧ wo_length op = wc_block_size c ∧
    wo_status op = AckPending ∧
    wo_data_checksum op = (if f64_lt (dr_unit d) (wc_write_ratio c)
                           then Some (compute_checksum (dr_data d (N.to_nat (wc_block_size c)))) else None).
Proof.
  intros c Hd Hc Hv. destruct (next_offset_ok c d (wg_sequential_offset g) Hd Hc) as (off & seq & Hoff & Hok).
  assert (∃ v, wc_volume_ids c !! dr_index d (length (wc_volume_ids c)) = Some v ∧ v ∈ wc_volume_ids c) as (v & Hlook & Hin).
  { destruct (lookup_lt_is_Some_2 (wc_volume_ids c) (dr_index d (length (wc_volume_ids c)))) as [v Hlook].
    - apply (draw_index _ Hd). destruct (wc_volume_ids c); [done|simpl; lia].
    - exists v. split; [done|]. by eapply list_elem_of_lookup_2. }
  unfold generate_and_record, generate_operation. fold c. rewrite Hoff.
  destruct (wc_volume_ids c) as [|v0 ids]; [done|].
  rewrite Hlook. simpl. destruct (f64_lt _ _); simpl.
  all: eexists _, _; split_and!; [reflexivity|..]; simpl; try done; apply Hok.
Qed.

(** ** Witnesses *)

Module HarnessDemo.

(** A hash of the first bytes. *)
#[export] Instance prefix_hash : Blake3 := λ d, take 32 ((λ b, b `mod` 256) <$> d).

Lemma prefix_hash_bytes bs : Forall (λ b, b < 256) (blake3 bs).
Proof. apply Forall_take, Forall_fmap, Forall_true. intros b. by apply N.mod_upper_bound. Qed.

Definition volume : VolumeId := VolumeId_new 1.

Definition workload (max_offset : N) (kd : KeyDistribution) : WorkloadConfig :=
  MkWorkloadConfig [volume] (f64_div (f64_of_u64 1) f64_two) 4096 max_offset 100 10000 1 kd.

(** The last of everything. *)
Definition draws : Draws :=
  MkDraws (λ n, (n - 1)%nat) f64_zero (λ n, n - 1) 0 7 (λ n, replicate n 5) volume (OperationId_new 3).

Definition pattern : PatternConfig := MkPatternConfig 3735928559 8 4 Deterministic.

(** A write, acknowledged at 20, and a later one to the same place that timed out. *)
Definition acked_write : Operation := complete AckAcked 20 (new_write (OperationId_new 1) 10 volume 0 8 "aa").

Definition lost_write : Operation := complete AckTimeout 40 (new_write (OperationId_new 2) 30 volume 0 8 "bb").

Definition checker (read : string) : ConsistencyChecker :=
  record_read_back volume 0 read (ConsistencyChecker_new [acked_write; lost_write]).

End HarnessDemo.
Import HarnessDemo.

Lemma generated_operation_in_range_witness :
  ∃ g' op, generate_and_record 5 draws (WorkloadGenerator_new (workload 1048576 (KdHotspot 20 80))) = Return (g', op) ∧
    wo_offset op + 4096 ≤ 1048576.
Proof.
  destruct (generated_operation_in_range 5 draws (WorkloadGenerator_new (workload 1048576 (KdHotspot 20 80))))
    as (g' & op & Hr & _ & _ & [_ Hle] & _).
  - split; simpl; lia.
  - split; simpl; [reflexivity|vm_compute; discriminate|reflexivity|].
    intros f p Hf. injection Hf as <- <-. lia.
  - discriminate.
  - exists g', op. split; [exact Hr|exact Hle].
Defined.

Lemma below_four (P : N → Prop) : P 0 → P 1 → P 2 → P 3 → ∀ i, i < 4 → P i.
Proof. intros P0 P1 P2 P3 i Hi. assert (i = 0 ∨ i = 1 ∨ i = 2 ∨ i = 3) as [->|[->|[->| ->]]] by lia; done. Qed.

Lemma pattern_verified_exactly_witness :
  let blocks := list_to_map ((λ b, (pb_offset b, pb_data b)) <$> generate_all volume pattern) in
  verify_all volume pattern blocks = VerifyOk <$> block_indices pattern.
Proof.
  intros blocks. apply (pattern_verified_exactly volume prefix_hash_bytes pattern blocks).
  - intros i d Hi Hd _. revert Hd. pattern i. revert i Hi. apply (below_four).
    all: intros Hd; vm_compute in Hd; injection Hd as <-; vm_compute; reflexivity.
  - apply below_four; vm_compute; reflexivity.
Defined.

#[local] Existing Instance uuid_decimal.

#[local] Instance hash_location : HashIter (VolumeId * N) := hash_iter_default (VolumeId * N).

(** The verdict on the acknowledged write alone. *)
Example read_back_passes : Forall (λ r, is_pass (cr_result r) = true) (check_all (checker "aa")).
Proof. repeat constructor. Qed.

(** A write that timed out may still take effect; when a later one did, the checker
    reports the acknowledged write before it as lost. *)
Theorem unacknowledged_overwrite_reported :
  wo_started_at acked_write < wo_started_at lost_write ∧
  is_pass (cr_result (check_no_lost_acks (checker "bb"))) = false.
Proof. split; vm_compute; reflexivity. Qed.

(** The check named data_integrity never fails. *)
Theorem data_integrity_always_passes c : cr_result (check_data_integrity c) = Pass.
Proof. done. Qed.

(** A hot fraction above 100 per cent is accepted and leaves the range. *)
Theorem hot_fraction_leaves_range :
  next_offset (workload 8192 (KdHotspot 300 100)) draws 0 = Return (20480, 0).
Proof. vm_compute. reflexivity. Qed.
