(* ===== verification/HarnessCluster.v ===== *)
(** * Clusters, faults and scenarios of the test harness (crates/blockyard-test-harness)

    The harness runs nodes as child processes: ports (network.rs), the life of one node
    (vm.rs), the cluster (cluster.rs) and the injector of faults (fault.rs); snapshots
    of volumes (snapshot.rs) and simulated scenarios (scenario.rs) feed the checker of
    [Harness].  What is used of the operating system is the class [Processes]; its laws
    say which children exist.  Identifiers of nodes are the harness's own. *)

From S2P Require Import Prelude Common Float Placement Checksum MetadataCache Http Harness.

#[local] Open Scope N_scope.

(** ** Ports (network.rs) *)

Record NodeAddress := MkNodeAddress { na_listen_addr : SocketAddr; na_gossip_addr : SocketAddr }.

Record NetworkConfig := MkNetworkConfig {
  net_base_listen_port : N;
  net_base_gossip_port : N;
  net_host : string;
}.

Definition NetworkConfig_default : NetworkConfig := MkNetworkConfig 20000 21000 "127.0.0.1".

Record PortAllocator := MkPortAllocator {
  pa_next_listen_port : N;
  pa_next_gossip_port : N;
  pa_host : string;
  pa_allocated : list NodeAddress;
}.

Definition PortAllocator_new (c : NetworkConfig) : PortAllocator :=
  MkPortAllocator (net_base_listen_port c) (net_base_gossip_port c) (net_host c) [].

(** The counters are 16 bits wide and wrap around. *)
Definition allocate (p : PortAllocator) : PortAllocator * NodeAddress :=
  let addr := MkNodeAddress (MkSocketAddr (pa_host p) (pa_next_listen_port p))
                            (MkSocketAddr (pa_host p) (pa_next_gossip_port p)) in
  (MkPortAllocator (u16_add (pa_next_listen_port p) 1) (u16_add (pa_next_gossip_port p) 1) (pa_host p)
     (pa_allocated p ++ [addr]), addr).

Definition pa_seed_addrs (p : PortAllocator) : list SocketAddr := na_gossip_addr <$> pa_allocated p.

(** ** A node as a process (vm.rs) *)

Record NodeId := MkNodeId { node_number : N }.

#[global] Instance NodeId_eq_dec : EqDecision NodeId.
Proof. solve_decision. Defined.

#[global] Instance NodeId_countable : Countable NodeId.
Proof. by apply (inj_countable' node_number MkNodeId); intros []. Defined.

#[global] Instance NodeId_display : Display NodeId := λ id, "node-" +:+ u64_to_string (node_number id).

Inductive NodeState := Stopped | Starting | Running | Paused | Crashed.

#[global] Instance NodeState_eq_dec : EqDecision NodeState.
Proof. solve_decision. Defined.

#[global] Instance NodeState_display : Display NodeState := λ s,
  match s with
  | Stopped => "stopped"
  | Starting => "starting"
  | Running => "running"
  | Paused => "paused"
  | Crashed => "crashed"
  end.

Record NodeConfig := MkNodeConfig {
  nc_id : NodeId;
  nc_binary_path : string;
  nc_data_dir : string;
  nc_address : NodeAddress;
  nc_extra_args : list string;
  nc_env_vars : list (string * string);
}.

(** [nd_process]: the pid of the child. *)
Record Node := MkNode {
  nd_config : NodeConfig;
  nd_state : NodeState;
  nd_process : option N;
  nd_started_at : option N;
}.

Definition Node_new (config : NodeConfig) : Node := MkNode config Stopped None None.

Definition set_state (s : NodeState) (n : Node) : Node := MkNode (nd_config n) s (nd_process n) (nd_started_at n).

(** A node without a process. *)
Definition without_process (s : NodeState) (n : Node) : Node := MkNode (nd_config n) s None None.

Definition path_join (dir name : string) : string := dir +:+ "/" +:+ name.

(** A newline, and a quoted string. *)
Definition nl : string := String (Ascii.ascii_of_nat 10) EmptyString.

Definition quoted (s : string) : string :=
  let q := String (Ascii.ascii_of_nat 34) EmptyString in q +:+ s +:+ q.

Definition generate_config_toml (c : NodeConfig) : string :=
  "listen_addr = " +:+ quoted (to_string (na_listen_addr (nc_address c))) +:+ nl +:+ nl +:+
  "[storage]" +:+ nl +:+
  "disk_paths = [" +:+ quoted (path_join (nc_data_dir c) "disk0") +:+ "]" +:+ nl +:+
  "max_background_io = 4" +:+ nl +:+
  "scrub_interval_secs = 86400" +:+ nl +:+ nl +:+
  "[raft]" +:+ nl +:+
  "election_timeout_min_ms = 150" +:+ nl +:+
  "election_timeout_max_ms = 300" +:+ nl +:+
  "heartbeat_interval_ms = 50" +:+ nl +:+
  "max_entries_per_batch = 64" +:+ nl +:+
  "snapshot_threshold = 10000" +:+ nl +:+ nl +:+
  "[gossip]" +:+ nl +:+
  "bind_addr = " +:+ quoted (to_string (na_gossip_addr (nc_address c))) +:+ nl +:+
  "seed_nodes = []" +:+ nl +:+
  "gossip_interval_ms = 1000" +:+ nl +:+
  "suspicion_mult = 4" +:+ nl +:+ nl +:+
  "[protocol]" +:+ nl +:+
  "max_message_size = 67108864" +:+ nl +:+
  "connect_timeout_ms = 5000" +:+ nl +:+
  "request_timeout_ms = 30000" +:+ nl.

(** A command line: program, arguments, environment. *)
Record Command := MkCommand {
  cmd_program : string;
  cmd_args : list string;
  cmd_env : list (string * string);
}.

Inductive Signal := SIGKILL | SIGSTOP | SIGCONT.

(** The calls into the operating system; [pr_wait] reaps a child. *)
Class Processes (W : Type) := {
  pr_create_dir_all : string → W → W * result string unit;
  pr_write : string → string → W → W * result string unit;
  pr_spawn : Command → W → W * result string N;
  pr_signal : Signal → N → W → W * result string unit;
  pr_wait : N → W → W;
  pr_now : W → N;
}.

Section vm.
Context {W : Type} `{!Processes W}.
Implicit Types (n : Node) (w : W).

Definition node_command (c : NodeConfig) : Command :=
  MkCommand (nc_binary_path c) (["--config"; path_join (nc_data_dir c) "node.toml"] ++ nc_extra_args c) (nc_env_vars c).

(** Set up the directory and the configuration file, and spawn the process. *)
Definition launch n w : W * Node * result string unit :=
  let c := nd_config n in
  let n := set_state Starting n in
  match pr_create_dir_all (nc_data_dir c) w with
  | (w, Err e) => (w, n, Err e)
  | (w, Ok _) =>
      match pr_write (path_join (nc_data_dir c) "node.toml") (generate_config_toml c) w with
      | (w, Err e) => (w, n, Err e)
      | (w, Ok _) =>
          match pr_spawn (node_command c) w with
          | (w, Err e) => (w, n, Err e)
          | (w, Ok pid) => (w, MkNode c Running (Some pid) (Some (pr_now w)), Ok tt)
          end
      end
  end.

Definition start n w : W * Node * result string unit :=
  match nd_state n with
  | Running => (w, n, Ok tt)
  | Paused => (w, n, Err (to_string (nc_id (nd_config n)) +:+ ": cannot start a paused node, use resume()"))
  | _ => launch n w
  end.

(** [Child::kill] and [Child::wait], errors ignored. *)
Definition kill_child n w : W :=
  match nd_process n with
  | Some pid => pr_wait pid (pr_signal SIGKILL pid w).1
  | None => w
  end.

Definition stop n w : W * Node * result string unit :=
  if decide (nd_state n = Stopped) then (w, n, Ok tt)
  else (kill_child n w, without_process Stopped n, Ok tt).

Definition kill n w : W * Node * result string unit := (kill_child n w, without_process Crashed n, Ok tt).

(** Send a signal to the process, if there is one, and change the state when that succeeds. *)
Definition signalled (sig : Signal) (s : NodeState) n w : W * Node * result string unit :=
  match nd_process n with
  | Some pid =>
      match pr_signal sig pid w with
      | (w, Err e) => (w, n, Err e)
      | (w, Ok _) => (w, set_state s n, Ok tt)
      end
  | None => (w, set_state s n, Ok tt)
  end.

Definition pause n w : W * Node * result string unit :=
  if decide (nd_state n = Running) then signalled SIGSTOP Paused n w
  else (w, n, Err (to_string (nc_id (nd_config n)) +:+ ": can only pause a running node, current="
                     +:+ to_string (nd_state n))).

Definition resume n w : W * Node * result string unit :=
  if decide (nd_state n = Paused) then signalled SIGCONT Running n w
  else (w, n, Err (to_string (nc_id (nd_config n)) +:+ ": can only resume a paused node, current="
                     +:+ to_string (nd_state n))).

Definition is_alive n w : W * bool :=
  match nd_process n with
  | Some pid =>
      match pr_signal SIGCONT pid w with
      | (w, Ok _) => (w, true)
      | (w, Err _) => (w, false)
      end
  | None => (w, false)
  end.

(** [Drop for Node]. *)
Definition drop_node n w : W := kill_child n w.

End vm.

(** ** The cluster (cluster.rs) *)

Record ClusterConfig := MkClusterConfig {
  cc_node_count : N;
  cc_binary_path : string;
  cc_base_data_dir : string;
  cc_network : NetworkConfig;
}.

Record ProcessCluster := MkCluster {
  pcl_config : ClusterConfig;
  pcl_nodes : gmap NodeId Node;
  pcl_port_allocator : PortAllocator;
  pcl_node_order : list NodeId;
}.

Definition set_nodes (nodes : gmap NodeId Node) (c : ProcessCluster) : ProcessCluster :=
  MkCluster (pcl_config c) nodes (pcl_port_allocator c) (pcl_node_order c).

Definition cluster_node (c : ClusterConfig) (id : NodeId) (address : NodeAddress) : Node :=
  Node_new (MkNodeConfig id (cc_binary_path c)
    (path_join (cc_base_data_dir c) ("node-" +:+ u64_to_string (node_number id))) address [] []).

(** The node in the map is replaced; what it was is returned. *)
Definition insert_node (id : NodeId) (c : ProcessCluster) : ProcessCluster * option Node :=
  let '(ports, address) := allocate (pcl_port_allocator c) in
  (MkCluster (pcl_config c) (<[id := cluster_node (pcl_config c) id address]> (pcl_nodes c)) ports
     (pcl_node_order c ++ [id]), pcl_nodes c !! id).

Definition ProcessCluster_new (config : ClusterConfig) : ProcessCluster :=
  foldl (λ c i, (insert_node (MkNodeId i) c).1) (MkCluster config ∅ (PortAllocator_new (cc_network config)) [])
    (range_values (MkRange 0 (cc_node_count config))).

Section cluster.
Context {W : Type} `{!Processes W}.
Implicit Types (c : ProcessCluster) (w : W).

(** The number of the new node is the number of nodes. *)
Definition add_node c w : W * ProcessCluster * NodeId :=
  let id := MkNodeId (N.of_nat (length (pcl_node_order c)) `mod` 2 ^ 32) in
  let '(c, old) := insert_node id c in
  (match old with Some n => drop_node n w | None => w end, c, id).

Definition remove_node (id : NodeId) c w : W * ProcessCluster * result string unit :=
  match pcl_nodes c !! id with
  | None => (w, c, Err ("node " +:+ to_string id +:+ " not found"))
  | Some n =>
      let '(w, n, r) := if decide (nd_state n = Running ∨ nd_state n = Paused) then stop n w else (w, n, Ok tt) in
      match r with
      | Err e => (w, set_nodes (<[id := n]> (pcl_nodes c)) c, Err e)
      | Ok _ =>
          (drop_node n w,
           MkCluster (pcl_config c) (delete id (pcl_nodes c)) (pcl_port_allocator c)
             (filter (λ i, i ≠ id) (pcl_node_order c)), Ok tt)
      end
  end.

(** One call on a node of the map. *)
Definition on_node (f : Node → W → W * Node * result string unit) (id : NodeId) (nodes : gmap NodeId Node) w
    : W * gmap NodeId Node * result string unit :=
  match nodes !! id with
  | Some n => let '(w, n, r) := f n w in (w, <[id := n]> nodes, r)
  | None => (w, nodes, Ok tt)
  end.

Fixpoint start_loop (ids : list NodeId) (nodes : gmap NodeId Node) w : W * gmap NodeId Node * result string unit :=
  match ids with
  | [] => (w, nodes, Ok tt)
  | id :: ids =>
      match on_node start id nodes w with
      | (w, nodes, Ok _) => start_loop ids nodes w
      | failed => failed
      end
  end.

Definition start_all c w : W * ProcessCluster * result string unit :=
  let '(w, nodes, r) := start_loop (pcl_node_order c) (pcl_nodes c) w in
  (w, set_nodes nodes c, r).

(** Failures are counted and the loop goes on. *)
Fixpoint stop_loop (ids : list NodeId) (errors : N) (nodes : gmap NodeId Node) w : W * gmap NodeId Node * N :=
  match ids with
  | [] => (w, nodes, errors)
  | id :: ids =>
      match on_node stop id nodes w with
      | (w, nodes, Ok _) => stop_loop ids errors nodes w
      | (w, nodes, Err _) => stop_loop ids (errors + 1) nodes w
      end
  end.

Definition stop_all c w : W * ProcessCluster * result string unit :=
  let '(w, nodes, errors) := stop_loop (rev (pcl_node_order c)) 0 (pcl_nodes c) w in
  (w, set_nodes nodes c,
   if decide (errors = 0) then Ok tt else Err ("failed to stop " +:+ u64_to_string errors +:+ " nodes")).

Definition running_nodes c : list NodeId :=
  filter (λ id, nd_state <$> pcl_nodes c !! id = Some Running) (pcl_node_order c).

(** [Drop for ProcessCluster], and then the fields, the nodes in the order of the map. *)
Definition drop_cluster `{!HashIter NodeId} c w : W :=
  let '(w, c, _) := stop_all c w in
  foldl (λ w id, match pcl_nodes c !! id with Some n => drop_node n w | None => w end) w (hash_keys (pcl_nodes c)).

End cluster.

(** ** Faults (fault.rs) *)

Inductive Fault :=
  | NodeCrash (node_id : NodeId)
  | NodePause (node_id : NodeId)
  | NodeResume (node_id : NodeId)
  | NetworkPartition (isolated rest : list NodeId)
  | AsymmetricPartition (from to : NodeId)
  | NetworkDelay (node_id : NodeId) (delay : N)
  | NetworkPacketLoss (node_id : NodeId) (loss_percent : N)
  | DiskSlow (node_id : NodeId) (delay : N)
  | DiskFault (node_id : NodeId) (error_rate : f64)
  | ClockSkew (node_id : NodeId) (skew : N) (forward : bool).

(** [PartialEq] as it is derived: error rates are compared as f64. *)
Definition fault_eq (a b : Fault) : bool :=
  match a, b with
  | NodeCrash n, NodeCrash n' | NodePause n, NodePause n' | NodeResume n, NodeResume n' => bool_decide (n = n')
  | NetworkPartition i r, NetworkPartition i' r' => bool_decide (i = i') && bool_decide (r = r')
  | AsymmetricPartition f t, AsymmetricPartition f' t' => bool_decide (f = f') && bool_decide (t = t')
  | NetworkDelay n d, NetworkDelay n' d' | NetworkPacketLoss n d, NetworkPacketLoss n' d'
  | DiskSlow n d, DiskSlow n' d' => bool_decide (n = n') && bool_decide (d = d')
  | DiskFault n e, DiskFault n' e' => bool_decide (n = n') && f64_eq e e'
  | ClockSkew n s f, ClockSkew n' s' f' => bool_decide (n = n') && bool_decide (s = s') && bool_decide (f = f')
  | _, _ => false
  end.

Record FaultRecord := MkFaultRecord { fr_fault : Fault; fr_applied_at : N; fr_reverted : bool }.

Definition set_reverted (r : FaultRecord) : FaultRecord := MkFaultRecord (fr_fault r) (fr_applied_at r) true.

(** The injector borrows the nodes. *)
Record ProcessFaultInjector := MkInjector { fi_nodes : gmap NodeId Node; fi_active : list FaultRecord }.

Definition active_faults (fi : ProcessFaultInjector) : list FaultRecord :=
  filter (λ r, fr_reverted r = false) (fi_active fi).

Section faults.
Context {W : Type} `{!Processes W}.
Implicit Types (fi : ProcessFaultInjector) (w : W).

Definition record_fault (fault : Fault) fi w : ProcessFaultInjector :=
  MkInjector (fi_nodes fi) (fi_active fi ++ [MkFaultRecord fault (pr_now w) false]).

(** [get_node] and one call on the node; [then_] is the rest when both succeed. *)
Definition with_node (f : Node → W → W * Node * result string unit) (id : NodeId) fi w
    (then_ : ProcessFaultInjector → W → ProcessFaultInjector) : W * ProcessFaultInjector * result string unit :=
  match fi_nodes fi !! id with
  | None => (w, fi, Err ("node " +:+ to_string id +:+ " not found"))
  | Some n =>
      let '(w, n, r) := f n w in
      let fi := MkInjector (<[id := n]> (fi_nodes fi)) (fi_active fi) in
      match r with
      | Ok _ => (w, then_ fi w, Ok tt)
      | Err e => (w, fi, Err e)
      end
  end.

Definition is_pause_of (id : NodeId) (f : Fault) : bool :=
  match f with NodePause pid => bool_decide (pid = id) | _ => false end.

Definition inject (fault : Fault) fi w : W * ProcessFaultInjector * result string unit :=
  match fault with
  | NodeCrash id => with_node kill id fi w (record_fault fault)
  | NodePause id => with_node pause id fi w (record_fault fault)
  | NodeResume id =>
      with_node resume id fi w (λ fi _,
        MkInjector (fi_nodes fi) ((λ r, if is_pause_of id (fr_fault r) then set_reverted r else r) <$> fi_active fi))
  | _ => (w, record_fault fault fi w, Ok tt)
  end.

(** The first record of the fault that is not reverted. *)
Fixpoint mark_reverted (fault : Fault) (active : list FaultRecord) : list FaultRecord :=
  match active with
  | [] => []
  | r :: active =>
      if fault_eq (fr_fault r) fault && negb (fr_reverted r) then set_reverted r :: active
      else r :: mark_reverted fault active
  end.

Definition mark (fault : Fault) fi w : ProcessFaultInjector :=
  MkInjector (fi_nodes fi) (mark_reverted fault (fi_active fi)).

Definition revert (fault : Fault) fi w : W * ProcessFaultInjector * result string unit :=
  match fault with
  | NodeCrash id =>
      with_node (λ n w, if decide (nd_state n = Crashed) then start n w else (w, n, Ok tt)) id fi w (mark fault)
  | NodePause id =>
      with_node (λ n w, if decide (nd_state n = Paused) then resume n w else (w, n, Ok tt)) id fi w (mark fault)
  | _ => (w, mark fault fi w, Ok tt)
  end.

(** Failures are logged. *)
Definition revert_all fi w : W * ProcessFaultInjector :=
  foldl (λ '(w, fi) fault, (revert fault fi w).1) (w, fi) (fr_fault <$> active_faults fi).

End faults.

(** ** No process is left behind *)

(** The children that were spawned and not waited for: a new child gets a pid that no
    child has, signals and files change nothing, waiting removes the child. *)
Class ProcessesLaws (W : Type) `{!Processes W} := {
  children : W → gset N;
  create_dir_children : ∀ dir w, children (pr_create_dir_all dir w).1 = children w;
  write_children : ∀ path text w, children (pr_write path text w).1 = children w;
  spawn_failed : ∀ cmd w w' e, pr_spawn cmd w = (w', Err e) → children w' = children w;
  spawn_fresh : ∀ cmd w w' pid, pr_spawn cmd w = (w', Ok pid) → pid ∉ children w ∧ children w' = {[pid]} ∪ children w;
  signal_children : ∀ sig pid w, children (pr_signal sig pid w).1 = children w;
  wait_children : ∀ pid w, children (pr_wait pid w) = children w ∖ {[pid]};
}.

(** The child of a node. *)
Definition pids (n : Node) : gset N := match nd_process n with Some pid => {[pid]} | None => ∅ end.

(** A node has a process exactly while it runs or is paused. *)
Definition node_ok (n : Node) : Prop := (nd_state n = Running ∨ nd_state n = Paused) ↔ is_Some (nd_process n).

Section owned.
Context {W : Type} `{!Processes W} `{!ProcessesLaws W}.
Implicit Types (n : Node) (w : W) (nodes : gmap NodeId Node).

(** What a call on a node may do: its child is replaced by none or by a new one, and no
    other child is touched. *)
Definition node_step n w n' w' : Prop :=
  node_ok n → node_ok n' ∧ children w' = children w ∖ pids n ∪ pids n' ∧ (pids n' = pids n ∨ pids n' ## children w).

(** Every child belongs to one node. *)
Record owns nodes w : Prop := {
  own_ok : ∀ id n, nodes !! id = Some n → node_ok n;
  own_children : ∀ pid, pid ∈ children w ↔ ∃ id n, nodes !! id = Some n ∧ pid ∈ pids n;
  own_unique : ∀ id id' n n' pid, nodes !! id = Some n → nodes !! id' = Some n' → pid ∈ pids n → pid ∈ pids n' → id = id';
}.

(** The child is kept. *)
Lemma node_step_keep n w n' w' :
  pids n ⊆ children w → (node_ok n → node_ok n') → pids n' = pids n → children w' = children w → node_step n w n' w'.
Proof.
  intros Hn Hok Hp Hc Hok0. split_and!; [by apply Hok| |by left]. rewrite Hp, Hc. apply set_eq. intros p.
  destruct (decide (p ∈ pids n)); set_solver.
Qed.

Lemma kill_child_children n w : children (kill_child n w) = children w ∖ pids n.
Proof.
  unfold kill_child, pids. destruct (nd_process n); [by rewrite wait_children, signal_children|].
  by rewrite difference_empty_L.
Qed.

Lemma kill_child_step s n w : s = Stopped ∨ s = Crashed → node_step n w (without_process s n) (kill_child n w).
Proof.
  intros Hs _. change (pids (without_process s n)) with (∅ : gset N).
  split_and!; [|rewrite kill_child_children; set_solver|right; set_solver].
  split; [simpl; intros; destruct Hs as [-> | ->]; naive_solver|by intros [? ?]].
Qed.

Lemma signalled_step sig s n w w' n' r :
  s = Running ∨ s = Paused → nd_state n = Running ∨ nd_state n = Paused → pids n ⊆ children w →
  signalled sig s n w = (w', n', r) → node_step n w n' w'.
Proof.
  intros Hs Hn Hp Hsig.
  assert (node_ok n → node_ok (set_state s n)) as Hok by (unfold node_ok; simpl; tauto).
  unfold signalled in Hsig. destruct (nd_process n) as [pid|] eqn:Hpid; [|simplify_eq; by apply node_step_keep].
  pose proof (signal_children sig pid w) as Hc. destruct (pr_signal sig pid w) as [w1 [[]|e]]; simplify_eq/=.
  all: by apply node_step_keep.
Qed.

Lemma launch_step n w w' n' r :
  nd_process n = None → launch n w = (w', n', r) → node_step n w n' w'.
Proof.
  intros Hnone. assert (∀ w1, children w1 = children w → node_step n w (set_state Starting n) w1) as Hfail.
  { intros w1 Hc Hok. split_and!; [|unfold pids; simpl; rewrite Hnone, Hc; set_solver|by left].
    split; simpl; [naive_solver|]. rewrite Hnone. by intros [? ?]. }
  unfold launch. pose proof (create_dir_children (nc_data_dir (nd_config n)) w) as Hc1.
  destruct (pr_create_dir_all _ w) as [w1 [[]|e]]; [|intros; simplify_eq/=; by apply Hfail].
  match goal with |- context [pr_write ?p ?t w1] => pose proof (write_children p t w1) as Hc2 end.
  destruct (pr_write _ _ w1) as [w2 [[]|e]]; [|intros; simplify_eq/=; apply Hfail; congruence].
  simpl in Hc1, Hc2. destruct (pr_spawn _ w2) as [w3 [pid|e]] eqn:Hsp.
  - apply spawn_fresh in Hsp as [Hfresh Hc3]. intros [= <- <- <-] Hok. unfold pids. simpl.
    rewrite Hnone, Hc3, Hc2, Hc1. rewrite Hc2, Hc1 in Hfresh.
    split_and!; [|set_solver|right; set_solver]. split; simpl; [eauto|by left].
  - apply spawn_failed in Hsp. intros; simplify_eq/=. apply Hfail. congruence.
Qed.

Lemma start_step n w w' n' r : pids n ⊆ children w → start n w = (w', n', r) → node_step n w n' w'.
Proof.
  intros Hp Hstart Hok. assert (nd_state n ≠ Running → nd_state n ≠ Paused → nd_process n = None) as Hnone.
  { intros. destruct (nd_process n) as [p|] eqn:Hn; [|done]. destruct Hok as [_ Hok]. rewrite Hn in Hok. naive_solver. }
  revert Hok. change (node_step n w n' w'). revert Hstart. unfold start. destruct (nd_state n) eqn:Hs.
  3-4: intros; simplify_eq/=; by apply node_step_keep.
  all: apply launch_step; by apply Hnone.
Qed.

(** Calls that only do such steps. *)
Definition steps (f : Node → W → W * Node * result string unit) : Prop :=
  ∀ n w w' n' r, pids n ⊆ children w → f n w = (w', n', r) → node_step n w n' w'.

Lemma stop_steps : steps stop.
Proof.
  intros n w w' n' r Hp. unfold stop. case_decide; intros; simplify_eq; [by apply node_step_keep|].
  apply kill_child_step. by left.
Qed.

Lemma kill_steps : steps kill.
Proof. intros n w w' n' r _ [= <- <- <-]. apply kill_child_step. by right. Qed.

Lemma pause_steps : steps pause.
Proof.
  intros n w w' n' r Hp. unfold pause. case_decide; [|intros; simplify_eq; by apply node_step_keep].
  apply signalled_step; tauto.
Qed.

Lemma resume_steps : steps resume.
Proof.
  intros n w w' n' r Hp. unfold resume. case_decide; [|intros; simplify_eq; by apply node_step_keep].
  apply signalled_step; tauto.
Qed.

Lemma steps_if f (s : NodeState) : steps f → steps (λ n w, if decide (nd_state n = s) then f n w else (w, n, Ok tt)).
Proof. intros Hf n w w' n' r Hp. case_decide; [by apply Hf|]. intros; simplify_eq. by apply node_step_keep. Qed.

Lemma owns_pids nodes w id n : owns nodes w → nodes !! id = Some n → pids n ⊆ children w.
Proof. intros Ho Hn pid Hpid. apply (own_children _ _ Ho). eauto. Qed.

Lemma owns_step nodes w id n n' w' :
  owns nodes w → nodes !! id = Some n → node_step n w n' w' → owns (<[id := n']> nodes) w'.
Proof.
  intros Ho Hn Hst. destruct (Hst (own_ok _ _ Ho _ _ Hn)) as (Hok & Hc & Hfresh).
  assert (∀ id0 n0 pid, id0 ≠ id → nodes !! id0 = Some n0 → pid ∈ pids n0 → pid ∉ pids n ∧ pid ∉ pids n') as Hother.
  { intros id0 n0 pid Hne Hn0 Hpid. assert (pid ∉ pids n) as Hnot.
    { intros Hin. by destruct (Hne (own_unique _ _ Ho _ _ _ _ _ Hn0 Hn Hpid Hin)). }
    split; [done|]. destruct Hfresh as [->|Hd]; [done|]. intros Hin. apply (Hd pid Hin).
    by apply (owns_pids _ _ _ _ Ho Hn0). }
  split.
  - intros id0 n0. rewrite lookup_insert_Some. intros [[<- <-]|[_ H0]]; [done|]. by apply (own_ok _ _ Ho id0).
  - intros pid. rewrite Hc. split.
    + intros [[Hin Hnot]%elem_of_difference|Hin]%elem_of_union; [|exists id, n'; by rewrite lookup_insert_eq].
      apply (own_children _ _ Ho) in Hin as (id0 & n0 & H0 & Hin). exists id0, n0.
      rewrite lookup_insert_ne; [done|]. intros <-. naive_solver.
    + intros (id0 & n0 & [[<- <-]|[Hne H0]]%lookup_insert_Some & Hin); [set_solver|].
      pose proof (owns_pids _ _ _ _ Ho H0 pid Hin). destruct (Hother id0 n0 pid); [done|done|done|]. set_solver.
  - intros id1 id2 n1 n2 pid H1 H2 Hp1 Hp2.
    apply lookup_insert_Some in H1 as [[<- <-]|[Hne1 H1]]; apply lookup_insert_Some in H2 as [[<- <-]|[Hne2 H2]]; [done| | |].
    + by destruct (Hother id2 n2 pid).
    + by destruct (Hother id1 n1 pid).
    + by eapply (own_unique _ _ Ho id1 id2).
Qed.

Lemma owns_new nodes w id n :
  owns nodes w → nodes !! id = None → nd_process n = None → node_ok n → owns (<[id := n]> nodes) w.
Proof.
  intros Ho Hnone Hp Hok. assert (pids n = ∅) as He by (unfold pids; by rewrite Hp). split.
  - intros id0 n0. rewrite lookup_insert_Some. intros [[<- <-]|[_ H0]]; [done|]. by apply (own_ok _ _ Ho id0).
  - intros pid. rewrite (own_children _ _ Ho). split; intros (id0 & n0 & H0 & Hin); exists id0, n0.
    + split; [|done]. rewrite lookup_insert_ne; [done|congruence].
    + apply lookup_insert_Some in H0 as [[<- <-]|[_ H0]]; set_solver.
  - intros id1 id2 n1 n2 pid H1 H2 Hp1 Hp2.
    apply lookup_insert_Some in H1 as [[<- <-]|[_ H1]]; [set_solver|].
    apply lookup_insert_Some in H2 as [[<- <-]|[_ H2]]; [set_solver|]. by eapply (own_unique _ _ Ho id1 id2).
Qed.

Lemma owns_delete nodes w id n : owns nodes w → nodes !! id = Some n → nd_process n = None → owns (delete id nodes) w.
Proof.
  intros Ho Hn Hp. assert (pids n = ∅) as He by (unfold pids; by rewrite Hp). split.
  - intros id0 n0 [_ H0]%lookup_delete_Some. by apply (own_ok _ _ Ho id0).
  - intros pid. rewrite (own_children _ _ Ho). split; intros (id0 & n0 & H0 & Hin); exists id0, n0.
    + split; [|done]. rewrite lookup_delete_ne; [done|]. intros <-. simplify_eq. set_solver.
    + apply lookup_delete_Some in H0 as [_ H0]. done.
  - intros id1 id2 n1 n2 pid [_ H1]%lookup_delete_Some [_ H2]%lookup_delete_Some. by eapply (own_unique _ _ Ho id1 id2).
Qed.

Lemma owns_on_node f id nodes w w' nodes' r :
  steps f → owns nodes w → on_node f id nodes w = (w', nodes', r) → owns nodes' w'.
Proof.
  intros Hf Ho. unfold on_node. destruct (nodes !! id) as [n|] eqn:Hn; [|by intros [= <- <- <-]].
  destruct (f n w) as [[w1 n1] r1] eqn:Hfn. intros [= <- <- <-]. eapply owns_step; [done|done|].
  eapply Hf; [by eapply owns_pids|done].
Qed.

End owned.

(** *** Runs of a test *)

Inductive NodeCall := CallStart | CallStop | CallKill | CallPause | CallResume | CallIsAlive.

Inductive FaultCall := CallInject (fault : Fault) | CallRevert (fault : Fault) | CallRevertAll.

(** What a test does with a cluster; the calls of an injector come together, since it
    borrows the nodes. *)
Inductive ClusterCall :=
  | CallStartAll
  | CallStopAll
  | CallAddNode
  | CallRemoveNode (id : NodeId)
  | CallNode (id : NodeId) (call : NodeCall)
  | CallInjector (calls : list FaultCall).

Section runs.
Context {W : Type} `{!Processes W}.
Implicit Types (c : ProcessCluster) (fi : ProcessFaultInjector) (w : W).

Definition node_call (call : NodeCall) : Node → W → W * Node * result string unit :=
  match call with
  | CallStart => start
  | CallStop => stop
  | CallKill => kill
  | CallPause => pause
  | CallResume => resume
  | CallIsAlive => λ n w, ((is_alive n w).1, n, Ok tt)
  end.

Definition fault_call '(w, fi) (call : FaultCall) : W * ProcessFaultInjector :=
  match call with
  | CallInject fault => (inject fault fi w).1
  | CallRevert fault => (revert fault fi w).1
  | CallRevertAll => revert_all fi w
  end.

Definition cluster_call '(w, c) (call : ClusterCall) : W * ProcessCluster :=
  match call with
  | CallStartAll => (start_all c w).1
  | CallStopAll => (stop_all c w).1
  | CallAddNode => (add_node c w).1
  | CallRemoveNode id => (remove_node id c w).1
  | CallNode id call => let '(w, nodes, _) := on_node (node_call call) id (pcl_nodes c) w in (w, set_nodes nodes c)
  | CallInjector calls =>
      let '(w, fi) := foldl fault_call (w, MkInjector (pcl_nodes c) []) calls in (w, set_nodes (fi_nodes fi) c)
  end.

Context `{!ProcessesLaws W}.

Lemma node_call_steps call : steps (node_call call).
Proof.
  destruct call; simpl.
  - intros n w w' n' r. apply start_step.
  - apply stop_steps.
  - apply kill_steps.
  - apply pause_steps.
  - apply resume_steps.
  - intros n w w' n' r Hp [= <- <- <-]. apply node_step_keep; [done|done|done|]. unfold is_alive.
    destruct (nd_process n) as [pid|]; [|done]. pose proof (signal_children SIGCONT pid w) as Hc.
    by destruct (pr_signal SIGCONT pid w) as [w1 [[]|e]].
Qed.

Lemma start_loop_owns ids nodes w w' nodes' r :
  owns nodes w → start_loop ids nodes w = (w', nodes', r) → owns nodes' w'.
Proof.
  revert nodes w. induction ids as [|id ids IH]; intros nodes w Ho; simpl; [by intros [= <- <- <-]|].
  destruct (on_node start id nodes w) as [[w1 nodes1] [[]|e]] eqn:Hon.
  all: apply (owns_on_node _ _ _ _ _ _ _ (node_call_steps CallStart)) in Hon; [|done].
  - by apply IH.
  - by intros [= <- <- <-].
Qed.

Lemma stop_loop_owns ids errors nodes w w' nodes' r :
  owns nodes w → stop_loop ids errors nodes w = (w', nodes', r) → owns nodes' w'.
Proof.
  revert errors nodes w. induction ids as [|id ids IH]; intros errors nodes w Ho; simpl; [by intros [= <- <- <-]|].
  destruct (on_node stop id nodes w) as [[w1 nodes1] [[]|e]] eqn:Hon.
  all: apply (owns_on_node _ _ _ _ _ _ _ (node_call_steps CallStop)) in Hon; [|done]; by apply IH.
Qed.

Lemma insert_node_owns id c w :
  owns (pcl_nodes c) w →
  owns (pcl_nodes (insert_node id c).1) (match (insert_node id c).2 with Some n => drop_node n w | None => w end).
Proof.
  intros Ho. unfold insert_node. simpl. set (n' := cluster_node _ _ _).
  assert (node_ok n') as Hok by (split; [simpl; naive_solver|by intros [? ?]]).
  destruct (pcl_nodes c !! id) as [n|] eqn:Hn; [|by apply owns_new].
  eapply owns_step; [done|done|]. intros _. change (pids n') with (∅ : gset N). unfold drop_node.
  rewrite kill_child_children. split_and!; [done|set_solver|right; set_solver].
Qed.

Lemma remove_node_owns id c w : owns (pcl_nodes c) w → owns (pcl_nodes (remove_node id c w).1.2) (remove_node id c w).1.1.
Proof.
  intros Ho. unfold remove_node. destruct (pcl_nodes c !! id) as [n|] eqn:Hn; [|done].
  assert (∃ w1 n1, (if decide (nd_state n = Running ∨ nd_state n = Paused) then stop n w else (w, n, Ok tt)) = (w1, n1, Ok tt) ∧
    node_step n w n1 w1 ∧ (node_ok n → nd_process n1 = None)) as (w1 & n1 & -> & Hst & Hnone).
  { case_decide as Hs.
    - destruct (stop n w) as [[w1 n1] r1] eqn:Hstop. pose proof Hstop as Hst. apply stop_steps in Hst; [|by eapply owns_pids].
      unfold stop in Hstop. rewrite decide_False in Hstop by (destruct Hs; congruence). simplify_eq/=. eauto.
    - eexists _, _. split_and!; [done|by apply node_step_keep; [eapply owns_pids| |..]|].
      intros [_ Hok]. destruct (nd_process n); [|done]. exfalso. apply Hs, Hok. eauto. }
  simpl. specialize (Hnone (own_ok _ _ Ho _ _ Hn)). unfold drop_node, kill_child. rewrite Hnone.
  rewrite <-(delete_insert_eq (pcl_nodes c) id n1). eapply owns_delete; [by eapply owns_step| |done].
  by rewrite lookup_insert_eq.
Qed.

Lemma with_node_owns f id fi w then_ :
  steps f → (∀ fi w, fi_nodes (then_ fi w) = fi_nodes fi) → owns (fi_nodes fi) w →
  owns (fi_nodes (with_node f id fi w then_).1.2) (with_node f id fi w then_).1.1.
Proof.
  intros Hf Hthen Ho. unfold with_node. destruct (fi_nodes fi !! id) as [n|] eqn:Hn; [|done].
  destruct (f n w) as [[w1 n1] r] eqn:Hfn. assert (owns (<[id := n1]> (fi_nodes fi)) w1) as Ho1.
  { eapply owns_step; [done|done|]. eapply Hf; [by eapply owns_pids|done]. }
  destruct r; simpl; [by rewrite Hthen|done].
Qed.

Lemma inject_owns fault fi w : owns (fi_nodes fi) w → owns (fi_nodes (inject fault fi w).1.2) (inject fault fi w).1.1.
Proof.
  intros Ho. destruct fault; simpl; try done; apply with_node_owns; try done.
  - apply kill_steps.
  - apply pause_steps.
  - apply resume_steps.
Qed.

Lemma revert_owns fault fi w : owns (fi_nodes fi) w → owns (fi_nodes (revert fault fi w).1.2) (revert fault fi w).1.1.
Proof.
  intros Ho. destruct fault; simpl; try done; apply with_node_owns; try done; apply steps_if.
  - apply (node_call_steps CallStart).
  - apply resume_steps.
Qed.

Lemma fault_call_owns call fi w : owns (fi_nodes fi) w → owns (fi_nodes (fault_call (w, fi) call).2) (fault_call (w, fi) call).1.
Proof.
  intros Ho. destruct call; simpl; [by apply inject_owns|by apply revert_owns|]. unfold revert_all.
  generalize (fr_fault <$> active_faults fi) as faults. intros faults. revert fi w Ho.
  induction faults as [|fault faults IH]; intros fi w Ho; simpl; [done|].
  pose proof (revert_owns fault fi w Ho) as Hr. destruct (revert fault fi w) as [[w1 fi1] r]. by apply IH.
Qed.

Lemma cluster_call_owns call c w : owns (pcl_nodes c) w → owns (pcl_nodes (cluster_call (w, c) call).2) (cluster_call (w, c) call).1.
Proof.
  intros Ho. destruct call as [| | |id|id call|calls]; simpl.
  - unfold start_all. destruct (start_loop _ _ w) as [[w1 nodes] r] eqn:Hs. by eapply start_loop_owns.
  - unfold stop_all. destruct (stop_loop _ _ _ w) as [[w1 nodes] r] eqn:Hs. by eapply stop_loop_owns.
  - by apply insert_node_owns.
  - by apply remove_node_owns.
  - destruct (on_node _ id _ w) as [[w1 nodes] r] eqn:Hon. simpl. by eapply owns_on_node; [apply (node_call_steps call)|..].
  - assert (owns (fi_nodes (MkInjector (pcl_nodes c) [])) w) as Hf by done. revert Hf.
    generalize (MkInjector (pcl_nodes c) []) as fi. clear Ho. revert w.
    induction calls as [|call calls IH]; intros w fi Hf; cbn [foldl]; [done|].
    pose proof (fault_call_owns call fi w Hf) as Hr. destruct (fault_call (w, fi) call) as [w1 fi1]. by apply IH.
Qed.

Lemma drop_nodes_children (nodes : gmap NodeId Node) ids w pid :
  pid ∈ children (foldl (λ w id, match nodes !! id with Some n => drop_node n w | None => w end) w ids) ↔
  pid ∈ children w ∧ ∀ id n, id ∈ ids → nodes !! id = Some n → pid ∉ pids n.
Proof.
  revert w. induction ids as [|id ids IH]; intros w; simpl; [by split; [split; [|intros ? ? ?%elem_of_nil]|intros []]|].
  rewrite IH. setoid_rewrite elem_of_cons. unfold drop_node. destruct (nodes !! id) as [n|] eqn:Hn.
  - rewrite kill_child_children. set_solver.
  - naive_solver.
Qed.

Lemma new_cluster_owns config w : children w = ∅ → owns (pcl_nodes (ProcessCluster_new config)) w.
Proof.
  intros Hw. unfold ProcessCluster_new. generalize (range_values (MkRange 0 (cc_node_count config))) as ids. intros ids.
  set (c0 := MkCluster config ∅ _ []).
  assert (owns (pcl_nodes c0) w ∧ ∀ id n, pcl_nodes c0 !! id = Some n → nd_process n = None) as Hc0.
  { split; [split; [done| |done]|done]. intros pid. rewrite Hw. split; [set_solver|]. by intros (id & n & ? & _). }
  revert Hc0. generalize c0 as c. clear c0. induction ids as [|id ids IH]; intros c [Ho Hnone]; cbn [foldl]; [done|].
  apply IH. pose proof (insert_node_owns (MkNodeId id) c w Ho) as Hi. split.
  - destruct (insert_node (MkNodeId id) c) as [c1 [n|]] eqn:Hins; [|done].
    assert (nd_process n = None) as Hn. { unfold insert_node in Hins. simplify_eq/=. by eapply Hnone. }
    unfold drop_node, kill_child in Hi. simpl in *. by rewrite Hn in Hi.
  - intros id0 n0. unfold insert_node. simpl. intros [[_ <-]|[_ H0]]%lookup_insert_Some; [done|by eapply Hnone].
Qed.

(** However a test uses a cluster (starting, stopping, adding and removing nodes,
    signals to single nodes, injected and reverted faults, with any of the calls to the
    operating system failing), no child process outlives it: when the cluster is dropped
    every process it ever spawned has been killed and reaped. *)
Theorem no_process_left_behind `{!HashIter NodeId} config calls w :
  children w = ∅ →
  let '(w', c) := foldl cluster_call (w, ProcessCluster_new config) calls in children (drop_cluster c w') = ∅.
Proof.
  intros Hw. pose proof (new_cluster_owns config w Hw) as Ho. clear Hw. revert Ho.
  generalize (ProcessCluster_new config) as c. revert w.
  induction calls as [|call calls IH]; intros w c Ho; cbn [foldl].
  - unfold drop_cluster. pose proof (cluster_call_owns CallStopAll c w Ho) as Hs. simpl in Hs.
    destruct (stop_all c w) as [[w1 c1] r]. simpl in Hs. apply set_eq. intros pid. rewrite drop_nodes_children.
    split; [|set_solver]. intros [Hin Hnot]. apply (own_children _ _ Hs) in Hin as (id & n & Hn & Hin).
    destruct (Hnot id n); [|done|done]. rewrite hash_keys_perm. apply list_elem_of_fmap. exists (id, n).
    split; [done|]. by apply elem_of_map_to_list.
  - pose proof (cluster_call_owns call c w Ho) as Hc. destruct (cluster_call (w, c) call) as [w1 c1]. by apply IH.
Qed.

End runs.

(** ** Faults are undone *)

(** The faults that are recorded and not reverted. *)
Definition act (fi : ProcessFaultInjector) : list Fault := fr_fault <$> active_faults fi.

(** Why a node is in its state: it runs, or a fault that is still active took it down. *)
Definition state_due (a : list Fault) (id : NodeId) (s : NodeState) : Prop :=
  s = Running ∨ s = Crashed ∧ NodeCrash id ∈ a ∨ s = Paused ∧ NodePause id ∈ a.

Record injector_ok (fi : ProcessFaultInjector) : Prop := {
  io_due : ∀ id n, fi_nodes fi !! id = Some n → state_due (act fi) id (nd_state n);
  io_self : ∀ f, f ∈ act fi → fault_eq f f = true;
  io_known : ∀ id, NodeCrash id ∈ act fi ∨ NodePause id ∈ act fi → is_Some (fi_nodes fi !! id);
}.

Lemma state_due_mono a a' id s :
  state_due a id s → (NodeCrash id ∈ a → NodeCrash id ∈ a') → (NodePause id ∈ a → NodePause id ∈ a') → state_due a' id s.
Proof. unfold state_due. tauto. Qed.

Lemma elem_of_act f fi : f ∈ act fi ↔ ∃ r, r ∈ fi_active fi ∧ fr_reverted r = false ∧ fr_fault r = f.
Proof.
  unfold act, active_faults. rewrite list_elem_of_fmap. setoid_rewrite list_elem_of_filter. naive_solver.
Qed.

Lemma mark_reverted_elem fault r active :
  fr_reverted r = false → r ∈ mark_reverted fault active → r ∈ active.
Proof.
  intros Hr. induction active as [|r' active IH]; simpl; [done|].
  destruct (fault_eq _ _ && _); rewrite !elem_of_cons; [|naive_solver]. intros [->|?]; [done|by right].
Qed.

Lemma mark_reverted_other fault r active :
  fault_eq (fr_fault r) fault = false → r ∈ active → r ∈ mark_reverted fault active.
Proof.
  intros Hr. induction active as [|r' active IH]; simpl; [done|]. rewrite elem_of_cons. intros [<-|Hin].
  - rewrite Hr. simpl. left.
  - destruct (fault_eq _ _ && _); right; [done|by apply IH].
Qed.

Lemma mark_reverted_first fault active fs :
  fr_fault <$> filter (λ r, fr_reverted r = false) active = fault :: fs → fault_eq fault fault = true →
  fr_fault <$> filter (λ r, fr_reverted r = false) (mark_reverted fault active) = fs.
Proof.
  intros Ha Hself. induction active as [|r active IH]; [done|]. simpl. rewrite filter_cons in Ha. case_decide as Hr.
  - simplify_eq/=. rewrite Hr, Hself. simpl. by rewrite filter_cons_False.
  - apply not_false_is_true in Hr. rewrite Hr, andb_false_r. rewrite filter_cons_False by congruence. by apply IH.
Qed.

Section undone.
Context {W : Type} `{!Processes W} `{!ProcessesLaws W}.
Implicit Types (fi : ProcessFaultInjector) (w : W).

(** The operating system does what it is asked, and takes signals to a child that was not
    waited for. *)
Hypothesis Hdir : ∀ dir w, ∃ w', pr_create_dir_all dir w = (w', Ok tt).
Hypothesis Hwrite : ∀ path text w, ∃ w', pr_write path text w = (w', Ok tt).
Hypothesis Hspawn : ∀ cmd w, ∃ w' pid, pr_spawn cmd w = (w', Ok pid).
Hypothesis Hsignal : ∀ sig pid w, pid ∈ children w → ∃ w', pr_signal sig pid w = (w', Ok tt).

Lemma start_runs n w : nd_state n = Crashed → ∃ w' n', start n w = (w', n', Ok tt) ∧ nd_state n' = Running.
Proof.
  intros Hs. unfold start. rewrite Hs. unfold launch.
  destruct (Hdir (nc_data_dir (nd_config n)) w) as [w1 ->].
  destruct (Hwrite (path_join (nc_data_dir (nd_config n)) "node.toml") (generate_config_toml (nd_config n)) w1) as [w2 ->].
  destruct (Hspawn (node_command (nd_config n)) w2) as (w3 & pid & ->). eauto.
Qed.

Lemma signalled_state sig s n w :
  pids n ⊆ children w → ∃ w' n', signalled sig s n w = (w', n', Ok tt) ∧ nd_state n' = s.
Proof.
  intros Hp. unfold signalled. destruct (nd_process n) as [pid|] eqn:Hn; [|eauto].
  destruct (Hsignal sig pid w) as [w' ->]; [|eauto]. apply Hp. unfold pids. rewrite Hn. set_solver.
Qed.

Lemma act_record fault fi w : act (record_fault fault fi w) = act fi ++ [fault].
Proof. unfold act, active_faults, record_fault. simpl. rewrite filter_app, fmap_app. done. Qed.

Lemma act_mark_sub fault f fi w : f ∈ act (mark fault fi w) → f ∈ act fi.
Proof. rewrite !elem_of_act. intros (r & Hin & Hr & <-). exists r. split; [|done]. by apply (mark_reverted_elem fault). Qed.

Lemma act_mark_other fault f fi w : fault_eq f fault = false → f ∈ act fi → f ∈ act (mark fault fi w).
Proof. rewrite !elem_of_act. intros Hne (r & Hin & Hr & <-). exists r. split; [|done]. by apply mark_reverted_other. Qed.

(** A recorded fault: the node it names, if any, is known and in its new state. *)
Lemma record_ok fault fi fi1 w :
  injector_ok fi → fault_eq fault fault = true → act fi1 = act fi →
  (∀ id, is_Some (fi_nodes fi !! id) → is_Some (fi_nodes fi1 !! id)) →
  (∀ id, fault = NodeCrash id ∨ fault = NodePause id → is_Some (fi_nodes fi1 !! id)) →
  (∀ id n, fi_nodes fi1 !! id = Some n → state_due (act fi ++ [fault]) id (nd_state n)) →
  injector_ok (record_fault fault fi1 w).
Proof.
  intros Hok Hself Hact Hkeep Hnew Hdue. split; rewrite act_record, Hact; simpl.
  - done.
  - intros f [Hf| ->%list_elem_of_singleton]%elem_of_app; [by apply (io_self _ Hok)|done].
  - intros id. rewrite !elem_of_app, !list_elem_of_singleton. pose proof (io_known _ Hok id). naive_solver.
Qed.

(** A reverted fault: its node is running again, or was not held by this fault. *)
Lemma mark_ok fault fi fi1 w :
  injector_ok fi → act fi1 = act fi →
  (∀ id, is_Some (fi_nodes fi !! id) → is_Some (fi_nodes fi1 !! id)) →
  (∀ id n, fi_nodes fi1 !! id = Some n → state_due (act fi) id (nd_state n)) →
  (∀ id n, fi_nodes fi1 !! id = Some n → (fault = NodeCrash id → nd_state n ≠ Crashed) ∧
     (fault = NodePause id → nd_state n ≠ Paused)) →
  injector_ok (mark fault fi1 w).
Proof.
  intros Hok Hact Hkeep Hdue Hnot. assert (∀ f, f ∈ act (mark fault fi1 w) → f ∈ act fi) as Hsub.
  { intros f Hf%act_mark_sub. by rewrite <-Hact. }
  split.
  - intros id n Hn. destruct (Hnot id n Hn) as [Hc Hp]. rewrite <-Hact in Hdue.
    destruct (Hdue id n Hn) as [?|[[Hs Hin]|[Hs Hin]]]; [by left|right; left|right; right]; (split; [done|]).
    all: apply act_mark_other; [|done]; destruct fault as [j|j| | | | | | | |]; try done; simpl;
      apply bool_decide_eq_false; intros <-; naive_solver.
  - intros f Hf. by apply (io_self _ Hok), Hsub.
  - intros id Hin. apply Hkeep, (io_known _ Hok). naive_solver.
Qed.

(** A fault that names no node. *)
Lemma record_other fault fi w :
  injector_ok fi → fault_eq fault fault = true → (∀ id, fault ≠ NodeCrash id ∧ fault ≠ NodePause id) →
  injector_ok (record_fault fault fi w).
Proof.
  intros Hok Hself Hother. apply (record_ok fault fi fi); try done; [naive_solver|]. intros id n Hn.
  eapply state_due_mono; [by apply (io_due _ Hok)|..]; intros; apply elem_of_app; by left.
Qed.

Lemma mark_other fault fi w :
  injector_ok fi → (∀ id, fault ≠ NodeCrash id ∧ fault ≠ NodePause id) → injector_ok (mark fault fi w).
Proof. intros Hok Hother. apply (mark_ok fault fi fi); try done; [by apply (io_due _ Hok)|naive_solver]. Qed.

(** The state of every node after one of them is replaced. *)
Lemma due_insert fi a id n' :
  injector_ok fi → (∀ f, f ∈ act fi → f ∈ a) → state_due a id (nd_state n') →
  ∀ id0 n0, <[id := n']> (fi_nodes fi) !! id0 = Some n0 → state_due a id0 (nd_state n0).
Proof.
  intros Hok Hsub Hn' id0 n0 [[<- <-]|[_ H0]]%lookup_insert_Some; [done|].
  eapply state_due_mono; [by apply (io_due _ Hok)|..]; apply Hsub.
Qed.

Lemma insert_known fi id (n' : Node) : ∀ id0, is_Some (fi_nodes fi !! id0) → is_Some (<[id := n']> (fi_nodes fi) !! id0).
Proof. intros id0 H0. rewrite lookup_insert. case_decide; eauto. Qed.

Lemma same_node_ok id n fi : fi_nodes fi !! id = Some n → MkInjector (<[id := n]> (fi_nodes fi)) (fi_active fi) = fi.
Proof. intros Hn. rewrite insert_id by done. by destruct fi. Qed.

(** Resuming a node ends every recorded pause of it. *)
Lemma resume_ok id n1 fi :
  injector_ok fi → nd_state n1 = Running →
  injector_ok (MkInjector (<[id := n1]> (fi_nodes fi))
    ((λ r, if is_pause_of id (fr_fault r) then set_reverted r else r) <$> fi_active fi)).
Proof.
  intros Hok Hs1. set (fi' := MkInjector _ _). assert (∀ f, f ∈ act fi' ↔ f ∈ act fi ∧ is_pause_of id f = false) as Hact.
  { intros f. rewrite !elem_of_act. simpl. split.
    - intros (r & (r' & -> & Hr')%list_elem_of_fmap & Hrev & <-). destruct (is_pause_of id (fr_fault r')) eqn:Hp; [done|]. eauto.
    - intros [(r & Hr & Hrev & <-) Hp]. exists r. split; [|done]. apply list_elem_of_fmap. exists r. by rewrite Hp. }
  split.
  - intros id0 n0 H0. simpl in H0. apply lookup_insert_Some in H0 as [[<- <-]|[Hne H0]]; [by left|].
    eapply state_due_mono; [by apply (io_due _ Hok)|..]; rewrite Hact; intros; (split; [done|]); simpl; [done|].
    by apply bool_decide_eq_false.
  - intros f [Hf _]%Hact. by apply (io_self _ Hok).
  - intros id0. rewrite !Hact. intros Hin. apply insert_known, (io_known _ Hok). naive_solver.
Qed.

(** The node of a reverted fault is running again. *)
Lemma reverted_running fault id n1 fi w :
  injector_ok fi → fault = NodeCrash id ∨ fault = NodePause id → nd_state n1 = Running →
  injector_ok (mark fault (MkInjector (<[id := n1]> (fi_nodes fi)) (fi_active fi)) w).
Proof.
  intros Hok Hf Hs1. apply (mark_ok _ fi); try done; [apply insert_known|apply due_insert; [done|done|by left]|].
  intros id0 n0 H0. simpl in H0. apply lookup_insert_Some in H0 as [[<- <-]|[Hne H0]]; [by rewrite Hs1|]. naive_solver.
Qed.

Lemma inject_ok fault fi w :
  injector_ok fi → owns (fi_nodes fi) w → fault_eq fault fault = true → injector_ok (inject fault fi w).1.2.
Proof.
  intros Hok Ho Hself. destruct fault as [id|id|id| | | | | | |]; try by apply record_other.
  all: unfold inject, with_node; destruct (fi_nodes fi !! id) as [n|] eqn:Hn; [|done].
  - simpl. apply (record_ok _ fi); try done; [apply insert_known| |].
    + intros id0 [[= ->]|?]; [|done]. simpl. rewrite lookup_insert_eq. eauto.
    + apply due_insert; [done|intros; apply elem_of_app; by left|]. right; left. split; [done|].
      apply elem_of_app. right. by apply list_elem_of_singleton.
  - unfold pause. case_decide; [|simpl; by rewrite same_node_ok].
    destruct (signalled_state SIGSTOP Paused n w) as (w1 & n1 & -> & Hs1); [by eapply owns_pids|]. simpl.
    apply (record_ok _ fi); try done; [apply insert_known| |].
    + intros id0 [?|[= ->]]; [done|]. simpl. rewrite lookup_insert_eq. eauto.
    + apply due_insert; [done|intros; apply elem_of_app; by left|]. right; right. split; [done|].
      apply elem_of_app. right. by apply list_elem_of_singleton.
  - unfold resume. case_decide as Hs; [|simpl; by rewrite same_node_ok].
    destruct (signalled_state SIGCONT Running n w) as (w1 & n1 & -> & Hs1); [by eapply owns_pids|]. simpl. by apply resume_ok.
Qed.

Lemma revert_ok fault fi w : injector_ok fi → owns (fi_nodes fi) w → injector_ok (revert fault fi w).1.2.
Proof.
  intros Hok Ho. destruct fault as [id|id|id| | | | | | |]; try by apply mark_other.
  all: unfold revert, with_node; destruct (fi_nodes fi !! id) as [n|] eqn:Hn; [|done]; case_decide as Hs.
  - destruct (start_runs n w Hs) as (w1 & n1 & -> & Hs1). apply reverted_running; auto.
  - simpl. rewrite same_node_ok by done. apply (mark_ok _ fi); try done; [by apply (io_due _ Hok)|]. naive_solver.
  - unfold resume. rewrite decide_True by done. destruct (signalled_state SIGCONT Running n w) as (w1 & n1 & -> & Hs1).
    { by eapply owns_pids. }
    apply reverted_running; auto.
  - simpl. rewrite same_node_ok by done. apply (mark_ok _ fi); try done; [by apply (io_due _ Hok)|]. naive_solver.
Qed.

(** With the first active fault reverted, the others stay active. *)
Lemma revert_first fault fs fi w :
  injector_ok fi → owns (fi_nodes fi) w → act fi = fault :: fs → act (revert fault fi w).1.2 = fs.
Proof.
  intros Hok Ho Ha. assert (fault ∈ act fi) as Hin by (rewrite Ha; left). pose proof (io_self _ Hok _ Hin) as Hself.
  assert (∀ fi1 w1, act fi1 = act fi → act (mark fault fi1 w1) = fs) as Hmark.
  { intros fi1 w1 Hact. apply mark_reverted_first; [|done]. by rewrite Ha in Hact. }
  destruct fault as [id|id|id| | | | | | |]; try by apply Hmark.
  all: unfold revert, with_node; destruct (io_known _ Hok id) as [n Hn]; [auto|]; rewrite Hn; case_decide as Hs; [|by apply Hmark].
  - destruct (start_runs n w Hs) as (w1 & n1 & -> & _). by apply Hmark.
  - unfold resume. rewrite decide_True by done. destruct (signalled_state SIGCONT Running n w) as (w1 & n1 & -> & _).
    { by eapply owns_pids. }
    by apply Hmark.
Qed.

Lemma revert_all_undone fi w :
  injector_ok fi → owns (fi_nodes fi) w → injector_ok (revert_all fi w).2 ∧ act (revert_all fi w).2 = [].
Proof.
  unfold revert_all. fold (act fi). intros Hok Ho. assert (act fi = act fi) as Ha by done. revert Ha.
  generalize (act fi) at 2 3 4 as faults. intros faults. revert fi w Hok Ho.
  induction faults as [|fault faults IH]; intros fi w Hok Ho Ha; cbn [foldl]; [done|].
  pose proof (revert_first _ _ _ w Hok Ho Ha) as Hf. pose proof (revert_ok fault fi w Hok Ho) as Hok'.
  pose proof (revert_owns fault fi w Ho) as Ho'. destruct (revert fault fi w) as [[w1 fi1] r]. by apply IH.
Qed.

(** The faults a test may inject: those equal to themselves, which a fault with an error
    rate that is not a number is not. *)
Definition call_ok (call : FaultCall) : Prop :=
  match call with CallInject fault => fault_eq fault fault = true | _ => True end.

Lemma fault_call_ok call fi w :
  call_ok call → injector_ok fi → owns (fi_nodes fi) w → injector_ok (fault_call (w, fi) call).2.
Proof.
  intros Hc Hok Ho. destruct call; simpl; [by apply inject_ok|by apply revert_ok|by apply revert_all_undone].
Qed.

Lemma with_node_dom f id fi w then_ :
  (∀ fi w, fi_nodes (then_ fi w) = fi_nodes fi) →
  dom (fi_nodes (with_node f id fi w then_).1.2) = dom (fi_nodes fi).
Proof.
  intros Hthen. unfold with_node. destruct (fi_nodes fi !! id) as [n|] eqn:Hn; [|done].
  destruct (f n w) as [[w1 n1] [[]|e]]; simpl; rewrite ?Hthen; simpl; apply dom_insert_lookup_L; eauto.
Qed.

Lemma revert_all_dom fi w : dom (fi_nodes (revert_all fi w).2) = dom (fi_nodes fi).
Proof.
  unfold revert_all. generalize (fr_fault <$> active_faults fi) as faults. intros faults. revert fi w.
  induction faults as [|fault faults IH]; intros fi w; cbn [foldl]; [done|].
  assert (dom (fi_nodes (revert fault fi w).1.2) = dom (fi_nodes fi)) as Hd
    by (destruct fault; try done; by apply with_node_dom).
  destruct (revert fault fi w) as [[w1 fi1] r]. etrans; [apply IH|exact Hd].
Qed.

Lemma fault_call_dom call fi w : dom (fi_nodes (fault_call (w, fi) call).2) = dom (fi_nodes fi).
Proof.
  destruct call as [fault|fault|]; simpl; [..|by apply revert_all_dom]; destruct fault; try done; by apply with_node_dom.
Qed.

(** Whatever faults a test injects and reverts on a cluster of running nodes, in any
    order and with repetitions, reverting all of them leaves no active fault and every
    node running, provided the operating system does what it is asked and no error rate
    is NaN. *)
Theorem faults_are_undone nodes calls w :
  owns nodes w → (∀ id n, nodes !! id = Some n → nd_state n = Running) → Forall call_ok calls →
  let '(w1, fi) := foldl fault_call (w, MkInjector nodes []) calls in
  let fi' := (revert_all fi w1).2 in
  active_faults fi' = [] ∧ dom (fi_nodes fi') = dom nodes ∧
  ∀ id n, fi_nodes fi' !! id = Some n → nd_state n = Running.
Proof.
  intros Ho Hrun Hcalls. assert (injector_ok (MkInjector nodes [])) as Hok.
  { split; [intros id n Hn; left; by eapply Hrun|..]; simpl; [by intros f ?%elem_of_nil|]. by intros id [?%elem_of_nil|?%elem_of_nil]. }
  change nodes with (fi_nodes (MkInjector nodes [])) in Ho.
  assert (dom (fi_nodes (MkInjector nodes [])) = dom nodes) as Hd by done. clear Hrun. revert Hok Ho Hd.
  generalize (MkInjector nodes []) as fi. revert w. induction Hcalls as [|call calls Hc Hcalls IH]; intros w fi Hok Ho Hd; cbn [foldl].
  - destruct (revert_all_undone fi w Hok Ho) as [Hok' Hact]. pose proof (revert_all_dom fi w) as Hd'.
    unfold act in Hact. apply fmap_nil_inv in Hact. split_and!; [done|by rewrite Hd'|]. intros id n Hn.
    pose proof (io_due _ Hok' _ _ Hn) as Hdue. unfold act in Hdue. rewrite Hact in Hdue.
    destruct Hdue as [?|[[_ ?%elem_of_nil]|[_ ?%elem_of_nil]]]; done.
  - pose proof (fault_call_ok call fi w Hc Hok Ho) as Hok1. pose proof (fault_call_dom call fi w) as Hd1.
    pose proof (fault_call_owns call fi w Ho) as Ho1.
    destruct (fault_call (w, fi) call) as [w1 fi1]. apply IH; [done|done|]. simpl in Hd1. congruence.
Qed.

End undone.

(** ** Snapshots (snapshot.rs) *)

Record SnapshotId := MkSnapshotId { snapshot_number : N }.

#[global] Instance SnapshotId_eq_dec : EqDecision SnapshotId.
Proof. solve_decision. Defined.

#[global] Instance SnapshotId_countable : Countable SnapshotId.
Proof. by apply (inj_countable' snapshot_number MkSnapshotId); intros []. Defined.

Record BlockRecord := MkBlockRecord {
  blk_volume_id : VolumeId;
  blk_offset : N;
  blk_data : list N;
  blk_checksum : string;
}.

Record VolumeSnapshot := MkVolumeSnapshot {
  vs_id : SnapshotId;
  vs_volume_id : VolumeId;
  vs_blocks : gmap N BlockRecord;
  vs_created_at : N;
}.

Record SnapshotMismatch := MkMismatch { mm_offset : N; mm_expected_checksum : string; mm_actual_checksum : string }.

Record SnapshotVerifyResult := MkVerifyResult {
  sv_snapshot_id : SnapshotId;
  sv_total_blocks : N;
  sv_matching : N;
  sv_mismatched : list SnapshotMismatch;
  sv_missing : list N;
}.

Definition snapshot_is_ok (r : SnapshotVerifyResult) : bool :=
  bool_decide (length (sv_mismatched r) = O) && bool_decide (length (sv_missing r) = O).

Record SnapshotManager := MkSnapshotManager { sm_next_id : N; sm_snapshots : gmap SnapshotId VolumeSnapshot }.

Definition SnapshotManager_new : SnapshotManager := MkSnapshotManager 0 ∅.

Definition take_snapshot (now : N) (volume_id : VolumeId) (blocks : gmap N (list N * string)) (m : SnapshotManager)
    : SnapshotManager * SnapshotId :=
  let id := MkSnapshotId (sm_next_id m) in
  let block_records := map_imap (λ offset '(data, checksum), Some (MkBlockRecord volume_id offset data checksum)) blocks in
  (MkSnapshotManager (u64_add (sm_next_id m) 1)
     (<[id := MkVolumeSnapshot id volume_id block_records now]> (sm_snapshots m)), id).

Section snapshots.
Context `{!Blake3} `{!HashIter N}.

(** One block of the snapshot, added to the counts and lists so far. *)
Definition verify_record (current : gmap N (list N)) (r : SnapshotVerifyResult) (offset : N) (record : BlockRecord)
    : SnapshotVerifyResult :=
  let '(MkVerifyResult id total matching mismatched missing) := r in
  match current !! offset with
  | Some data =>
      let current_checksum := compute_checksum data in
      if decide (current_checksum = blk_checksum record) then MkVerifyResult id total (matching + 1) mismatched missing
      else MkVerifyResult id total matching
             (mismatched ++ [MkMismatch offset (blk_checksum record) current_checksum]) missing
  | None => MkVerifyResult id total matching mismatched (missing ++ [offset])
  end.

Definition verify_against (current : gmap N (list N)) (s : VolumeSnapshot) : SnapshotVerifyResult :=
  foldl (λ r offset, match vs_blocks s !! offset with Some record => verify_record current r offset record | None => r end)
    (MkVerifyResult (vs_id s) (N.of_nat (size (vs_blocks s))) 0 [] []) (hash_keys (vs_blocks s)).

Definition verify (id : SnapshotId) (current : gmap N (list N)) (m : SnapshotManager) : option SnapshotVerifyResult :=
  verify_against current <$> sm_snapshots m !! id.

(** A block that is still what the snapshot says. *)
Definition block_kept (current : gmap N (list N)) (offset : N) (record : BlockRecord) : Prop :=
  compute_checksum <$> current !! offset = Some (blk_checksum record).

Lemma verify_loop current (blocks : gmap N BlockRecord) offsets r :
  (∀ o, o ∈ offsets → is_Some (blocks !! o)) →
  let r' := foldl (λ r o, match blocks !! o with Some record => verify_record current r o record | None => r end) r offsets in
  sv_total_blocks r' = sv_total_blocks r ∧
  sv_matching r' + N.of_nat (length (sv_mismatched r')) + N.of_nat (length (sv_missing r')) =
    sv_matching r + N.of_nat (length (sv_mismatched r)) + N.of_nat (length (sv_missing r)) + N.of_nat (length offsets) ∧
  (snapshot_is_ok r' = true ↔ snapshot_is_ok r = true ∧
     ∀ o record, o ∈ offsets → blocks !! o = Some record → block_kept current o record).
Proof.
  revert r. induction offsets as [|o offsets IH]; intros r Hsome; cbn [foldl].
  { split_and!; [done|simpl; lia|]. split; [|by intros []]. intros Hr. split; [done|]. by intros o record ?%elem_of_nil. }
  destruct (Hsome o) as [record Ho]; [left|]. rewrite Ho.
  destruct (IH (verify_record current r o record)) as (Ht & Hn & Hok); [intros o' Ho'; apply Hsome; by right|].
  assert (sv_total_blocks (verify_record current r o record) = sv_total_blocks r ∧
    sv_matching (verify_record current r o record) + N.of_nat (length (sv_mismatched (verify_record current r o record))) +
      N.of_nat (length (sv_missing (verify_record current r o record))) =
    sv_matching r + N.of_nat (length (sv_mismatched r)) + N.of_nat (length (sv_missing r)) + 1 ∧
    (snapshot_is_ok (verify_record current r o record) = true ↔ snapshot_is_ok r = true ∧ block_kept current o record))
    as (Ht1 & Hn1 & Hok1).
  { unfold verify_record, block_kept, snapshot_is_ok. destruct r as [id total m mm mi].
    destruct (current !! o) as [data|]; simpl; [case_decide as Hd|]; simpl; rewrite ?length_app, ?andb_true_iff, ?bool_decide_eq_true;
      simpl; (split_and!; [done|lia|]); [rewrite Hd; tauto|split; [lia|naive_solver]|split; [lia|naive_solver]]. }
  split_and!; [congruence|rewrite Hn, Hn1; simpl; lia|]. rewrite Hok, Hok1. setoid_rewrite elem_of_cons. naive_solver.
Qed.

Lemma later_snapshots_keep (more : list (N * VolumeId * gmap N (list N * string))) m id s :
  sm_snapshots m !! id = Some s → snapshot_number id < sm_next_id m → sm_next_id m + N.of_nat (length more) < u64_modulus →
  sm_snapshots (foldl (λ m '(now, v, blocks), (take_snapshot now v blocks m).1) m more) !! id = Some s.
Proof.
  revert m. induction more as [|[[now v] blocks] more IH]; intros m Hs Hlt Hov; simpl in *; [done|].
  apply IH; simpl.
  - rewrite lookup_insert_ne; [done|]. intros Heq. apply (f_equal snapshot_number) in Heq. simpl in Heq. lia.
  - rewrite u64_add_small by lia. lia.
  - rewrite u64_add_small by lia. lia.
Qed.

(** A snapshot can be verified however many are taken after it, and its verification
    accounts for every block and succeeds exactly when each of its blocks is still
    there with the recorded checksum. *)
Theorem snapshot_verified_exactly now volume_id blocks m m' id more current :
  take_snapshot now volume_id blocks m = (m', id) →
  sm_next_id m + 1 + N.of_nat (length more) < u64_modulus →
  let m'' := foldl (λ m '(now, v, blocks), (take_snapshot now v blocks m).1) m' more in
  ∃ r, verify id current m'' = Some r ∧
    sv_matching r + N.of_nat (length (sv_mismatched r)) + N.of_nat (length (sv_missing r)) = N.of_nat (size blocks) ∧
    (snapshot_is_ok r = true ↔ ∀ offset data checksum, blocks !! offset = Some (data, checksum) →
       compute_checksum <$> current !! offset = Some checksum).
Proof.
  intros Htake Hov m''. unfold take_snapshot in Htake. simplify_eq/=. set (records := map_imap _ blocks) in *.
  set (s := MkVolumeSnapshot _ volume_id records now) in *. exists (verify_against current s).
  assert (sm_snapshots m'' !! MkSnapshotId (sm_next_id m) = Some s) as Hs.
  { apply later_snapshots_keep; simpl; [by rewrite lookup_insert_eq|..]; rewrite u64_add_small by lia; lia. }
  unfold verify. rewrite Hs. split; [done|].
  assert (∀ o record, records !! o = Some record ↔ ∃ data checksum, blocks !! o = Some (data, checksum) ∧
    record = MkBlockRecord volume_id o data checksum) as Hrec.
  { intros o record. unfold records. rewrite map_lookup_imap. destruct (blocks !! o) as [[data sum]|]; simpl; naive_solver. }
  assert (∀ o, o ∈ hash_keys records ↔ is_Some (records !! o)) as Hkeys.
  { intros o. rewrite hash_keys_perm, list_elem_of_fmap. split.
    - intros ([o' record] & -> & Hin%elem_of_map_to_list). eauto.
    - intros [record Hr]. exists (o, record). by rewrite elem_of_map_to_list. }
  destruct (verify_loop current records (hash_keys records) (MkVerifyResult (vs_id s) (N.of_nat (size records)) 0 [] []))
    as (_ & Hn & Hok); [intros o; apply Hkeys|].
  assert (length (hash_keys records) = size blocks) as Hlen.
  { rewrite hash_keys_perm, length_fmap, length_map_to_list, <-!size_dom. f_equal. apply set_eq. intros o.
    rewrite !elem_of_dom. unfold is_Some. setoid_rewrite Hrec. destruct (blocks !! o) as [[data sum]|]; naive_solver. }
  unfold verify_against. simpl in *. rewrite Hn, Hok. split; [lia|]. unfold block_kept. split.
  - intros [_ Hall] o data sum Hb. apply (Hall o (MkBlockRecord volume_id o data sum)); [apply Hkeys|]; [eexists|]; apply Hrec; eauto.
  - intros Hall. split; [done|]. intros o record _ (data & sum & Hb & ->)%Hrec. by apply (Hall o data).
Qed.

End snapshots.

(** ** Scenarios (scenario.rs) *)

Inductive AckPolicy := AckAll | AckMajority | AckOne.

Inductive ReadPolicy := ReadLeader | ReadAny.

Record ScenarioConfig := MkScenarioConfig {
  scf_node_count : N;
  scf_ack_policy : AckPolicy;
  scf_read_policy : ReadPolicy;
  scf_workload : WorkloadConfig;
  scf_base_port : N;
}.

Record ScenarioContext := MkScenario {
  sc_cluster : ProcessCluster;
  sc_workload : WorkloadGenerator;
  sc_ack_policy : AckPolicy;
  sc_read_policy : ReadPolicy;
  sc_leader_id : NodeId;
  sc_epoch : N;
  sc_alive_nodes : gset NodeId;
}.

Definition ScenarioContext_new (c : ScenarioConfig) : ScenarioContext :=
  let network := MkNetworkConfig (scf_base_port c) (u16_add (scf_base_port c) 1000) "127.0.0.1" in
  MkScenario
    (ProcessCluster_new (MkClusterConfig (scf_node_count c) "/usr/bin/false" "/tmp/blockyard-scenario" network))
    (WorkloadGenerator_new (scf_workload c)) (scf_ack_policy c) (scf_read_policy c) (MkNodeId 0) 1
    (list_to_set (MkNodeId <$> range_values (MkRange 0 (scf_node_count c)))).

Definition set_leader (id : NodeId) (s : ScenarioContext) : ScenarioContext :=
  MkScenario (sc_cluster s) (sc_workload s) (sc_ack_policy s) (sc_read_policy s) id (sc_epoch s) (sc_alive_nodes s).

Definition bump_epoch (s : ScenarioContext) : ScenarioContext :=
  MkScenario (sc_cluster s) (sc_workload s) (sc_ack_policy s) (sc_read_policy s) (sc_leader_id s)
    (u64_add (sc_epoch s) 1) (sc_alive_nodes s).

Definition set_alive (alive : gset NodeId) (s : ScenarioContext) : ScenarioContext :=
  MkScenario (sc_cluster s) (sc_workload s) (sc_ack_policy s) (sc_read_policy s) (sc_leader_id s) (sc_epoch s) alive.

Definition set_workload (g : WorkloadGenerator) (s : ScenarioContext) : ScenarioContext :=
  MkScenario (sc_cluster s) g (sc_ack_policy s) (sc_read_policy s) (sc_leader_id s) (sc_epoch s) (sc_alive_nodes s).

Definition sc_node_count (s : ScenarioContext) : N := N.of_nat (size (pcl_nodes (sc_cluster s))).

Definition quorum_size (s : ScenarioContext) : N := sc_node_count s `div` 2 + 1.

Definition alive_count (s : ScenarioContext) : N := N.of_nat (size (sc_alive_nodes s)).

Definition crash_node (id : NodeId) (s : ScenarioContext) : ScenarioContext :=
  set_alive (sc_alive_nodes s ∖ {[id]}) s.

Definition recover_node (id : NodeId) (s : ScenarioContext) : ScenarioContext :=
  set_alive ({[id]} ∪ sc_alive_nodes s) s.

(** The first other node that is alive, and node 0 when there is none. *)
Definition simulate_leader_election (crashed_leader : NodeId) (s : ScenarioContext) : ScenarioContext * NodeId :=
  let s := crash_node crashed_leader s in
  let new_leader :=
    default (MkNodeId 0)
      (head (filter (λ id, id ≠ crashed_leader ∧ id ∈ sc_alive_nodes s) (pcl_node_order (sc_cluster s)))) in
  (bump_epoch (set_leader new_leader s), new_leader).

Definition required_acks (s : ScenarioContext) : N :=
  match sc_ack_policy s with
  | AckAll => sc_node_count s
  | AckMajority => quorum_size s
  | AckOne => 1
  end.

Definition determine_ack_status (s : ScenarioContext) : AckStatus :=
  if decide (required_acks s ≤ alive_count s) then AckAcked else AckNacked.

Section scenario.
Context `{!Blake3}.

(** The clock, read at the start and at the end of every operation, and what is drawn. *)
Variable now : nat → N.
Variable draws : nat → Draws.

Fixpoint simulate_loop (i count : nat) (volume_id : VolumeId) (s : ScenarioContext) : ScenarioContext * list Operation :=
  match count with
  | O => (s, [])
  | S count =>
      let offset := u64_mul (N.of_nat i) (wc_block_size (wg_config (sc_workload s))) in
      let '(g, op, _) := generate_write (now (2 * i)) (draws i) volume_id offset (sc_workload s) in
      let op := complete (determine_ack_status s) (now (2 * i + 1)) op in
      let '(s, ops) := simulate_loop (S i) count volume_id (set_workload (log_op op g) s) in
      (s, op :: ops)
  end.

Definition simulate_writes_with_acks (count : nat) (volume_id : VolumeId) (s : ScenarioContext)
    : ScenarioContext * list Operation := simulate_loop 0 count volume_id s.

(** The entry of the read-back data for an acknowledged write. *)
Definition read_back (c : ConsistencyChecker) (op : Operation) : ConsistencyChecker :=
  if decide (wo_status op = AckAcked) then
    match wo_data_checksum op with
    | Some checksum => record_read_back (wo_volume_id op) (wo_offset op) checksum c
    | None => c
    end
  else c.

(** The log is copied into the checker. *)
Definition build_checker_with_readback (s : ScenarioContext) (writes : list Operation) : ConsistencyChecker :=
  foldl read_back (ConsistencyChecker_new (wg_log (sc_workload s))) writes.

Definition run_consistency_check `{!UuidDisplay} `{!HashIter (VolumeId * N)} (s : ScenarioContext) : list CheckReport :=
  check_all (ConsistencyChecker_new (wg_log (sc_workload s))).

(** *** Verdicts on simulated writes *)

(** What every simulated write looks like. *)
Definition simulated (volume_id : VolumeId) (status : AckStatus) (op : Operation) : Prop :=
  wo_kind op = OpWrite ∧ wo_volume_id op = volume_id ∧ wo_status op = status ∧ is_Some (wo_data_checksum op).

Lemma simulate_loop_spec i count volume_id s s' ops :
  simulate_loop i count volume_id s = (s', ops) →
  wg_log (sc_workload s') = wg_log (sc_workload s) ++ ops ∧ length ops = count ∧
  Forall (simulated volume_id (determine_ack_status s)) ops ∧
  (∀ k op, ops !! k = Some op → wo_started_at op = now (2 * (i + k))).
Proof.
  revert i s s' ops. induction count as [|count IH]; intros i s s' ops; simpl.
  { intros [= <- <-]. split_and!; [by rewrite app_nil_r|done|done|]. by intros k op ?. }
  destruct (simulate_loop (S i) count volume_id _) as [s1 ops1] eqn:Hl. intros [= <- <-].
  apply IH in Hl as (Hlog & Hlen & Hall & Hstart). split_and!.
  - rewrite Hlog. simpl. unfold record_op. by rewrite <-app_assoc.
  - simpl. by rewrite Hlen.
  - constructor; [split_and!; simpl; eauto|]. exact Hall.
  - intros [|k] op; simpl; [intros [= <-]; simpl; f_equal; lia|]. intros Hk. rewrite (Hstart k op Hk). f_equal. lia.
Qed.

Lemma read_back_last c l1 op l2 checksum :
  wo_status op = AckAcked → wo_data_checksum op = Some checksum →
  Forall (λ o, op_location o ≠ op_location op) l2 →
  ck_read_back_data (foldl read_back c (l1 ++ op :: l2)) !! op_location op = Some checksum.
Proof.
  intros Hs Hc Hl2. rewrite foldl_app. simpl. generalize (foldl read_back c l1) as c1. intros c1. clear c l1.
  assert (ck_read_back_data (read_back c1 op) !! op_location op = Some checksum) as Hnow.
  { unfold read_back. rewrite decide_True, Hc by done. simpl. apply lookup_insert_eq. }
  revert Hnow. generalize (read_back c1 op) as c2. clear c1. induction Hl2 as [|o l2 Ho Hl2 IH]; intros c2 Hnow; simpl; [done|].
  apply IH. unfold read_back. case_decide; [|done]. destruct (wo_data_checksum o); [|done]. simpl.
  by rewrite lookup_insert_ne.
Qed.

Lemma read_back_log c ops : ck_operation_log (foldl read_back c ops) = ck_operation_log c ∧
  ck_min_operations (foldl read_back c ops) = ck_min_operations c.
Proof.
  revert c. induction ops as [|op ops IH]; intros c; simpl; [done|]. destruct (IH (read_back c op)) as [-> ->].
  unfold read_back. case_decide; [|done]. by destruct (wo_data_checksum op).
Qed.

(** The checksum read back at a location is that of the latest write to it. *)
Lemma latest_read_back volume_id s' writes :
  (∀ i j, (i ≤ j)%nat → now i ≤ now j) → Forall (simulated volume_id AckAcked) writes →
  (∀ k op, writes !! k = Some op → wo_started_at op = now (2 * (0 + k))) →
  ∀ op, is_latest writes op → ∃ written, wo_data_checksum op = Some written ∧
    ck_read_back_data (build_checker_with_readback s' writes) !! op_location op = Some written.
Proof.
  intros Hclock Hall Hstart op (before & after & -> & _ & Hafter).
  assert (simulated volume_id AckAcked op) as (_ & _ & Hs & [written Hw]).
  { rewrite Forall_forall in Hall. apply Hall, elem_of_app. right. left. }
  exists written. split; [done|]. apply read_back_last; [done|done|]. apply Forall_forall. intros o Ho Hloc.
  specialize (Hafter o Ho Hloc). apply list_elem_of_lookup in Ho as [k Hk].
  assert ((before ++ op :: after) !! length before = Some op) as H1 by (rewrite lookup_app_r, Nat.sub_diag by done; done).
  assert ((before ++ op :: after) !! (length before + S k)%nat = Some o) as H2.
  { rewrite lookup_app_r by lia. by replace (length before + S k - length before)%nat with (S k) by lia. }
  rewrite (Hstart _ _ H1), (Hstart _ _ H2) in Hafter. specialize (Hclock (2 * (0 + length before))%nat (2 * (0 + (length before + S k)))%nat).
  lia.
Qed.

Context `{!UuidDisplay} `{!HashIter (VolumeId * N)}.

(** A scenario is only a test of the policy: on a fresh log, with a clock that does not
    go back, the checks of the simulated writes pass if and only if something was
    written and at least as many nodes are alive as the policy requires. *)
Theorem scenario_verdict count volume_id s s' writes :
  (∀ i j, (i ≤ j)%nat → now i ≤ now j) → wg_log (sc_workload s) = [] →
  simulate_writes_with_acks count volume_id s = (s', writes) →
  Forall (λ r, is_pass (cr_result r) = true) (check_all (build_checker_with_readback s' writes)) ↔
  (0 < count)%nat ∧ required_acks s ≤ alive_count s.
Proof.
  intros Hclock Hlog Hsim. apply simulate_loop_spec in Hsim as (Hlog' & Hlen & Hall & Hstart).
  rewrite Hlog in Hlog'. simpl in Hlog'. set (c := build_checker_with_readback s' writes).
  destruct (read_back_log (ConsistencyChecker_new (wg_log (sc_workload s'))) writes) as [Hcl Hcm].
  fold (build_checker_with_readback s' writes) in Hcl, Hcm. fold c in Hcl, Hcm. simpl in Hcl, Hcm. rewrite Hlog' in Hcl.
  unfold check_all. rewrite !Forall_cons, Forall_nil, io_happened_passes, readable_passes, no_lost_acks_passes, Hcl, Hcm, Hlen.
  assert (is_pass (cr_result (check_data_integrity c)) = true) as Hint by done.
  unfold determine_ack_status in Hall. case_decide as Hreq.
  - assert (acked_writes writes = writes) as Hacked.
    { apply filter_Forall. eapply Forall_impl; [done|]. by intros op (? & _ & ? & _). }
    rewrite Hacked. assert (∀ op, is_latest writes op → ∃ written, wo_data_checksum op = Some written ∧
      ck_read_back_data c !! op_location op = Some written) as Hlatest by by apply (latest_read_back volume_id).
    split; [intros [[Hmin _] _]; split; [lia|done]|]. intros [Hpos _].
    assert (writes ≠ []) as Hne by (intros ->; simpl in Hlen; lia).
    split_and!; [lia|done| | |done|done].
    + intros op Hop. destruct (latest_writes_covers writes op Hop) as [o Ho]. apply latest_writes_spec in Ho as [Hloc Ho].
      destruct (Hlatest o Ho) as (written & _ & Hr). rewrite <-Hloc. eauto.
    + intros op read written Ho Hr Hw. destruct (Hlatest op Ho) as (written' & Hw' & Hr'). congruence.
  - assert (acked_writes writes = []) as Hacked.
    { clear - Hall. unfold acked_writes. induction Hall as [|op ops (_ & _ & Hs & _) _ IH]; [done|].
      rewrite filter_cons_False; [done|]. rewrite Hs. naive_solver. }
    rewrite Hacked. naive_solver.
Qed.

End scenario.

(** ** Witnesses *)

Module ClusterDemo.

(** The process table: which children run and which are stopped by a signal. *)
Record Os := MkOs { os_table : gmap N bool }.

Definition signal_table (sig : Signal) (pid : N) (table : gmap N bool) : gmap N bool :=
  match sig with
  | SIGKILL => table
  | SIGSTOP => alter (λ _, false) pid table
  | SIGCONT => alter (λ _, true) pid table
  end.

(** [disk]: the answer of the file system. *)
Definition processes (disk : result string unit) : Processes Os := {|
  pr_create_dir_all := λ _ os, (os, disk);
  pr_write := λ _ _ os, (os, disk);
  pr_spawn := λ _ os, let pid := fresh (dom (os_table os)) in (MkOs (<[pid := true]> (os_table os)), Ok pid);
  pr_signal := λ sig pid os,
    (MkOs (signal_table sig pid (os_table os)),
     match os_table os !! pid with Some _ => Ok tt | None => Err "no such process" end);
  pr_wait := λ pid os, MkOs (delete pid (os_table os));
  pr_now := λ _, 0;
|}.

#[export] Instance os_processes : Processes Os := processes (Ok tt).

#[export] Program Instance os_laws : ProcessesLaws Os := {| children := λ os, dom (os_table os) |}.
Next Obligation. done. Qed.
Next Obligation. done. Qed.
Next Obligation. done. Qed.
Next Obligation.
  intros cmd os os' pid Hspawn. injection Hspawn as <- <-. split; [apply is_fresh|]. simpl. by rewrite dom_insert_L.
Qed.
Next Obligation. intros sig pid os. simpl. destruct sig; simpl; [done|by rewrite dom_alter_L..]. Qed.
Next Obligation. intros pid os. simpl. by rewrite dom_delete_L. Qed.

Lemma os_dir dir (os : Os) : ∃ os', pr_create_dir_all dir os = (os', Ok tt).
Proof. eexists. reflexivity. Qed.

Lemma os_write path text (os : Os) : ∃ os', pr_write path text os = (os', Ok tt).
Proof. eexists. reflexivity. Qed.

Lemma os_spawn cmd (os : Os) : ∃ os' pid, pr_spawn cmd os = (os', Ok pid).
Proof. eexists _, _. reflexivity. Qed.

Lemma os_signal sig pid (os : Os) : pid ∈ children os → ∃ os', pr_signal sig pid os = (os', Ok tt).
Proof. unfold children. simpl. intros [b Hb]%elem_of_dom. rewrite Hb. eauto. Qed.

Definition os0 : Os := MkOs ∅.

Definition node0 : NodeId := MkNodeId 0.
Definition node1 : NodeId := MkNodeId 1.
Definition node2 : NodeId := MkNodeId 2.

Definition config (count : N) : ClusterConfig := MkClusterConfig count "blockyard" "/tmp/t" NetworkConfig_default.

(** A cluster of which every node was started. *)
Definition started (count : N) : Os * ProcessCluster := (start_all (ProcessCluster_new (config count)) os0).1.

#[export] Instance hash_node : HashIter NodeId := hash_iter_default NodeId.

(** Crash a node, pause another one, crash it too, and lose packets. *)
Definition fault_calls : list FaultCall :=
  [CallInject (NodeCrash node0); CallInject (NodePause node1); CallInject (NodeCrash node1);
   CallRevert (NodePause node1); CallInject (NetworkPacketLoss node2 10)].

Definition calls : list ClusterCall :=
  [CallStartAll; CallInjector fault_calls; CallRemoveNode node0; CallAddNode; CallNode node1 CallStart].

End ClusterDemo.
Import ClusterDemo.

Lemma no_process_left_behind_witness :
  let '(os, c) := foldl cluster_call (os0, ProcessCluster_new (config 3)) calls in
  children os ≠ ∅ ∧ children (drop_cluster c os) = ∅.
Proof.
  pose proof (no_process_left_behind (config 3) calls os0 eq_refl) as Hend.
  destruct (foldl cluster_call (os0, ProcessCluster_new (config 3)) calls) as [os c] eqn:Hrun.
  split; [|exact Hend]. assert (size (os_table (foldl cluster_call (os0, ProcessCluster_new (config 3)) calls).1) = 1%nat) as Hsize
    by (vm_compute; reflexivity).
  rewrite Hrun in Hsize. simpl in Hsize. intros Hempty. unfold children in Hempty. simpl in Hempty.
  apply dom_empty_inv_L in Hempty. rewrite Hempty in Hsize. discriminate Hsize.
Defined.

Lemma faults_are_undone_witness :
  let '(os, c) := started 3 in
  let '(os, fi) := foldl fault_call (os, MkInjector (pcl_nodes c) []) fault_calls in
  length (active_faults fi) = 3%nat ∧ active_faults (revert_all fi os).2 = [].
Proof.
  destruct (started 3) as [os c] eqn:Hstarted.
  assert (owns (pcl_nodes c) os) as Ho.
  { pose proof (cluster_call_owns CallStartAll _ os0 (new_cluster_owns (config 3) os0 eq_refl)) as Hs.
    change (cluster_call (os0, ProcessCluster_new (config 3)) CallStartAll) with (started 3) in Hs.
    rewrite Hstarted in Hs. exact Hs. }
  assert (pcl_nodes c = pcl_nodes (started 3).2 ∧ os = (started 3).1) as [Hnodes Hos] by (rewrite Hstarted; split; reflexivity).
  assert (length (active_faults (foldl fault_call ((started 3).1, MkInjector (pcl_nodes (started 3).2) []) fault_calls).2) = 3%nat)
    as Hactive by (vm_compute; reflexivity).
  rewrite <-Hnodes, <-Hos in Hactive.
  pose proof (faults_are_undone os_dir os_write os_spawn os_signal (pcl_nodes c) fault_calls os Ho) as Hundone.
  destruct (foldl fault_call (os, MkInjector (pcl_nodes c) []) fault_calls) as [os1 fi] eqn:Hrun.
  split; [exact Hactive|]. apply Hundone.
  - rewrite Hnodes. apply map_Forall_to_list. vm_compute. repeat constructor.
  - repeat constructor.
Defined.

#[local] Existing Instance uuid_decimal.

#[local] Instance hash_offset : HashIter N := hash_iter_default N.

#[local] Instance hash_location : HashIter (VolumeId * N) := hash_iter_default (VolumeId * N).

Import HarnessDemo.

Lemma snapshot_verified_exactly_witness :
  let blocks := <[0 := ([1; 2], compute_checksum [1; 2])]> (<[4096 := ([3], compute_checksum [3])]> ∅) in
  let '(m, id) := take_snapshot 7 volume blocks SnapshotManager_new in
  let m := foldl (λ m '(now, v, blocks), (take_snapshot now v blocks m).1) m [(9, volume, ∅)] in
  ∃ r, verify id (<[0 := [1; 2]]> (<[4096 := [3]]> ∅)) m = Some r ∧ snapshot_is_ok r = true.
Proof.
  intros blocks. destruct (take_snapshot 7 volume blocks SnapshotManager_new) as [m id] eqn:Htake.
  destruct (snapshot_verified_exactly _ _ _ _ _ _ [(9, volume, ∅)] (<[0 := [1; 2]]> (<[4096 := [3]]> ∅)) Htake)
    as (r & Hr & _ & Hok); [vm_compute; reflexivity|].
  exists r. split; [exact Hr|]. apply Hok. intros offset data sum Hb. apply lookup_insert_Some in Hb as [[<- Hb]|[_ Hb]].
  - injection Hb as <- <-. vm_compute. reflexivity.
  - apply lookup_insert_Some in Hb as [[<- Hb]|[_ Hb]]; [|discriminate Hb]. injection Hb as <- <-. vm_compute. reflexivity.
Defined.

(** Three nodes of which two must acknowledge, one of them crashed. *)
Definition scenario : ScenarioContext :=
  crash_node node1 (ScenarioContext_new (MkScenarioConfig 3 AckMajority ReadLeader (workload 1048576 KdUniform) 40000)).

Lemma scenario_verdict_witness :
  let '(s, writes) := simulate_writes_with_acks N.of_nat (λ _, draws) 4 volume scenario in
  Forall (λ r, is_pass (cr_result r) = true) (check_all (build_checker_with_readback s writes)).
Proof.
  destruct (simulate_writes_with_acks N.of_nat (λ _, draws) 4 volume scenario) as [s writes] eqn:Hs.
  apply (scenario_verdict N.of_nat (λ _, draws) 4 volume scenario s writes).
  - intros i j Hij. lia.
  - reflexivity.
  - exact Hs.
  - split; [lia|]. vm_compute. discriminate.
Defined.

(** ** Divergences *)

(** The check whether a node is alive sends SIGCONT: it wakes up a node that a test has
    paused, and the node is still recorded as paused. *)
Theorem alive_check_resumes_paused_node :
  let '(os, c) := foldl cluster_call (started 1) [CallNode node0 CallPause] in
  let '(os', c') := cluster_call (os, c) (CallNode node0 CallIsAlive) in
  (map_to_list (os_table os)).*2 = [false] ∧ (map_to_list (os_table os')).*2 = [true] ∧
  nd_state <$> pcl_nodes c' !! node0 = Some Paused.
Proof. vm_compute. auto. Qed.

(** A node added after a removal gets the number of a node that exists: that node is
    replaced and its process killed, and the number is in the order twice. *)
Theorem added_node_replaces_another :
  let '(os, c) := foldl cluster_call (started 3) [CallRemoveNode node0; CallAddNode] in
  (started 3).2.(pcl_nodes) !! node2 ≠ None ∧ pcl_node_order c = [node1; node2; node2] ∧
  nd_state <$> pcl_nodes c !! node2 = Some Stopped ∧ size (pcl_nodes c) = 2%nat ∧ size (os_table os) = 1%nat.
Proof. vm_compute. split_and!; [discriminate|done..]. Qed.

(** A fault with an error rate that is not a number differs from itself and stays active. *)
Theorem nan_fault_stays_active :
  let fault := DiskFault node0 SpecFloat.S754_nan in
  let '(os, fi) := fault_call (os0, MkInjector ∅ []) (CallInject fault) in
  fr_fault <$> active_faults (revert_all fi os).2 = [fault].
Proof. vm_compute. reflexivity. Qed.

(** A restart that fails leaves the node in the state Starting; reverting the crash again
    then reports success without starting it. *)
Theorem failed_restart_forgotten :
  let '(os, c) := started 1 in
  let '(os, fi) := fault_call (os, MkInjector (pcl_nodes c) []) (CallInject (NodeCrash node0)) in
  let '(os, fi, r1) := revert (Processes0 := processes (Err "no space left on device")) (NodeCrash node0) fi os in
  let '(os, fi, r2) := revert (NodeCrash node0) fi os in
  r1 = Err "no space left on device" ∧ r2 = Ok tt ∧ active_faults fi = [] ∧
  nd_state <$> fi_nodes fi !! node0 = Some Starting.
Proof. vm_compute. auto. Qed.

(** When no node is left, the election makes node 0 the leader although it is down. *)
Theorem dead_node_elected :
  let s := ScenarioContext_new (MkScenarioConfig 1 AckAll ReadLeader (workload 1048576 KdUniform) 40000) in
  let '(s, leader) := simulate_leader_election node0 s in leader = node0 ∧ alive_count s = 0 ∧ sc_epoch s = 2.
Proof. vm_compute. auto. Qed.
